(* ===== verification/_CoqProject ===== *)
-Q . S2P
Prelude.v
Codec.v
Const.v
Attrs.v
Messages.v
WireLaws.v
Packet.v
Path.v
Errors.v
Driver.v
Server.v
Limits.v
Handle.v
Attr.v
Ops.v
CopyData.v
Session.v
MemDriver.v
OpsLaws.v
SessionLaws.v
LockLaws.v
ReplyLaws.v
StreamLaws.v
DataLaws.v
DirLaws.v
FileLaws.v
AttrLaws.v
CopyLaws.v
Concurrent.v
Timer.v
TimerLaws.v
TimedServe.v
Sessions.v
SessionsLaws.v
SessionsSerial.v
SessionsRuns.v
Crowd.v
CrowdRuns.v
Pipeline.v
PipelineSerial.v
PipelineOne.v
PipelineRuns.v
Sshd.v
SshInstance.v
SshdLaws.v
SshdConn.v
SshdKeys.v
Lifecycle.v
LifecycleLaws.v
LifecycleRuns.v
Flag.v
Demo.v
DemoLaws.v
DemoRun.v
DemoMain.v
Guarantees.v
