(* ===== verification/Prelude.v ===== *)
(** * An SFTP server over pluggable filesystem drivers, verified

    The program is a Go library that serves one filesystem over version 3 of the
    SFTP protocol. Its parts, and the files of this development that model them:

    - the wire package. [Codec] models [src/wire/codec.go]: [Encoder] and
      [Decoder] method by method, the decoder as a state monad over its buffer,
      offset and limit. [Const] models [src/wire/const.go], [Attrs]
      [src/wire/attrs.go], [Messages] [src/wire/messages.go] (each message is a
      record with a [Message] instance for its [Type] and [EncodePayload], and a
      [DecodeX] function). [Packet] models [src/wire/packet.go] and [Send]: an
      [io.Reader] is the bytes it will deliver and the error it ends with.
    - paths, [src/path.go]: [Path] ([clean], [parent], [base], [join]).
    - driver errors, [src/errors.go]: [Errors]. Go's [strings.ToLower] on text
      that is not ASCII needs the Unicode tables; they are a parameter, the class
      [UnicodeTables].
    - the driver. The exported filesystem, its open files, the copy engine, the
      filesystem lock and the random source are outside the repository. [Driver]
      gives the calls the server makes on them ([call]) and the type of each
      answer ([answer]); a handler is a [prog], a tree of calls over all possible
      answers. A class [Driver S] runs a program against a state ([exec],
      [trace]). Documented behaviour a theorem relies on is a [contract] on
      answers, or a class such as [Store] of [DataLaws]; [MemDriver] is a concrete
      driver that keeps them all and evaluates the witnesses. The filesystem lock
      and the connection of [go-filesystems/inflight] are the classes [FSLock] of
      [Sessions] and [Inflight] of [Pipeline], which assume the rules the sources
      document and nothing else.
    - the server's configuration and limits, [src/server.go], [src/limits.go],
      [src/file.go]: [Server] and [Limits].
    - the handle table, [src/handle.go]: [Handle], a finite map from token to
      [openFile].
    - attributes shown to clients, [src/attr.go]: [Attr].
    - the request handlers, [src/ops.go]: [Ops], one definition per handler.
    - copy-data, [src/copydata.go]: [CopyData].
    - a conversation, [src/session.go] with [prepare] and [frame] of
      [src/concurrent.go] and [Serve] of [src/server.go]: [Session].
      [handle_request] is what the loop does with one packet, [loop] the loop.
      [Timer] models the packet timer ([armPacketTimer], [giveUp]) and the loop
      once more with time in it ([timed_loop]), over a client that sends bytes at
      given instants; [TimedServe] is [Serve] in time, version negotiation first.
      [Sessions] puts any number of sessions on one server, one request of each in
      progress: they share a driver and its lock, and interleave between any two
      calls. [Crowd] does so with any number of requests of each in progress, and
      with the end of sessions. [Pipeline] is the loop with requests in flight, over
      the connection of [go-filesystems/inflight].
    - the SSH front-end, [src/sshd/sshd.go]. [Sshd] models its policy: [Config],
      [sshd_New] and the authentication callbacks it builds, over a heap of
      permissions; x/crypto/ssh is the class [SSH], its documented behaviour the
      class [SSHLaws], met by [SshInstance]. [SshdKeys] models the reading of
      keys, [SshdConn] one connection ([HandleConn], [handleSession]) as the
      events it causes, [Lifecycle] the server's goroutines ([Serve], [track],
      [Close]) as a step relation, beside an embedder that calls [HandleConn] on
      connections of its own.
    - the demonstration program, [src/fat32demo/demo/demo.go]: [Demo], on Go's
      [flag] and [strconv] in [Flag]. [DemoRun] models its [Run] as goroutines
      beside those of [Lifecycle]; [DemoMain] models [src/fat32demo/main.go], the
      signals that end it and its exit status, as a function and as a process that
      gets signals between any two steps of its goroutines.

    How they interact: [Demo] builds a server and a front-end; the front-end
    authenticates a client ([Sshd]) and hands each session channel to the server
    ([SshdConn]); there, [loop] reads a packet ([Packet]), [handle_request] decodes
    it ([Messages]) and calls a handler ([Ops], [CopyData]), which resolves paths
    ([Path]), consults the handle table ([Handle]), calls the driver under the
    filesystem lock ([Driver]), maps its errors ([Errors]) and its metadata
    ([Attr]) to a reply, which is framed ([Packet]).

    ** What the theorems show

    - [WireLaws], [Codec], [Packet]: the codec laws, as a class [Codec] with an
      instance per message: encoding then decoding is the identity, a payload
      that decodes is the encoding of its message, no decoder panics, allocation
      is bounded before it happens; framing round-trips and truncation is told
      apart from a clean end.
    - [Path]: [clean] is the walk from the export's root, its results are inside
      the export, [join] builds what [clean] resolves back; and the two length
      bounds that are not kept.
    - [OpsLaws] and [SessionLaws]: for every request, in every reachable state
      and over every driver: paths stay inside the export (except SETSTAT's,
      which a theorem shows escaping), a read-only export is not modified, the
      reply carries the request's id, the handle table keeps its invariant.
    - [LockLaws]: the lock discipline of every request, and its violation at the
      end of a session.
    - [ReplyLaws] and [StreamLaws]: [Serve], one request in progress at a time, on
      any stream of packets answers each once, in order, as the sequential
      specification [serve_all] does, up to the first reply too large to frame, and
      releases every handle. Over a driver whose names and link targets have
      bounded sizes ([sized]) there is no such reply.
    - [DataLaws]: READ and whole-file WRITE as [pread] and [pwrite], and reading
      back what was written over any driver in the class [Store].
    - [DirLaws]: repeated READDIR lists every usable entry once and ends.
    - [FileLaws]: what OPEN may change, CLOSE releasing once, and an accounting
      of open files through every request: none leaked, none used after close.
    - [CopyLaws]: the range arithmetic of copy-data, and where it wraps.
    - [Concurrent]: READs and WRITEs in flight together. [src/concurrent.go] says
      which jobs keep their arrival order ([conflict]); over any driver in the
      class [FileStore], every order that respects it ([schedule]) gives the
      replies and the files of the sequential loop, provided READs of files being
      written in place stay inside them, and an example shows why they must.
    - [SessionsLaws] and [SessionsSerial]: sessions that share a driver, one request
      of each in progress. Nobody waits for ever, and what they did to the driver
      and were told is what whole requests run one at a time would have done and
      told them. [SessionsRuns] computes such runs.
    - [Crowd]: which calls on the driver overlap, with any number of requests in
      progress: those [src/server.go] says, and the closes of a session that ends.
      [CrowdRuns] computes such runs, and shows that overlap.
    - [PipelineOne] and [PipelineSerial]: requests in flight. With one slot a session
      is served as [serve_all] serves it, over any driver; with more, it is too,
      barriers and batches of READs and WRITEs together, under the proviso of
      [Concurrent] (the predicate [calm]) and over any driver in the class
      [PlainStore]. [PipelineRuns] schedules such runs.
    - [AttrLaws]: attributes and mode strings are faithful.
    - [Server], [Limits], [Errors]: defaults, advertised limits, status codes.
    - [SshdLaws]: the callbacks accept exactly whom the configuration's policy
      admits; a certificate's restriction is never dropped; authentication cannot
      be left off.
    - [SshdConn]: nobody is served without meeting the policy, or another login's
      files; a session serves SFTP and nothing else; a connection contains its
      failures.
    - [SshdKeys]: what a file of authorised keys is read as.
    - [LifecycleLaws]: in every interleaving, connections and goroutines are
      accounted for, nothing is served once [Close] has returned, and [Close]
      returns. [LifecycleRuns] shows the promises that do not hold.
    - [DemoLaws]: the command line, the keys let in, and the image closed once.
    - [TimerLaws]: no packet holds its slot longer than the timeout, and a session
      in time is the untimed loop over a prefix of what the client sent.
      [TimedServe] shows the same of a whole conversation, and that the wait for
      the INIT packet has no bound.
    - [DemoRun]: the image is never closed under a live session, a cancelled run
      returns, and every interleaving is one of the scripts [Demo.Run] takes.
    - [DemoMain]: what the program's exit status means, in every interleaving.
    - [Guarantees]: the parts together. Over any stream of bytes a session stays
      within what a read-only export, the export's root and the handle table
      allow; and from the command line to the driver, without -rw the
      demonstration program never changes its image.

    ** Numbers and fuel

    Bytes are [Init.Byte.byte]; integers are [Z] with [uint32], [uint64] and
    [int64] written where Go converts or wraps. A run-time panic is the outcome
    [Panic]. Six functions take fuel: [decode_init_loop] (66 iterations; the
    loop stops by itself at 64 extensions), [readdir_loop] (one more than the
    entries; each iteration advances the cursor, and [DirLaws] shows the listing
    complete), and [loop] (the bytes of the stream; a packet takes at least
    five, and [loop_fuel_irrelevant] of [StreamLaws] shows more changes nothing).
    [timed_loop] takes the same ([timed_Serve] gives it the bytes that follow INIT),
    and [packet_wait_bounded] shows it never runs out.
    So do [keys_loop] (the bytes of the file; every key takes some, and running
    out would be the outcome [Panic], which [keys_loop_chain] excludes) and
    [parse_loop] (the number of arguments; every flag takes one, and
    [parse_loop_fuel] shows more changes nothing).

    ** What is not modelled

    The scheduler of concurrent READs and WRITEs is [go-filesystems/inflight],
    which is not in the repository. [loop] runs each request to completion, which
    is what the code does with one slot ([PipelineOne]); the theorems about [Serve]
    that speak of replies are of that, and those that speak of calls and tables hold
    of each request in whatever state it finds. [Pipeline] has requests in flight
    over any connection that keeps the documented rules; that a connection makes
    progress, and its bound on all sessions together, are not documented in enough
    detail to assume, so nothing is shown of them, nor of what is still executed
    once a reply could not be written. A job is one step in [Concurrent] and
    [Pipeline]: it makes one driver call under the shared lock, or runs alone under
    the exclusive lock; so is a barrier, which [SessionsSerial] justifies. Their
    refinement takes an open file to be behind the path it was opened at, which
    RENAME can end: a handle keeps its path. It is proved of one session; that
    several of them are serializable is proved of [Sessions]. In [Pipeline] packets
    arrive whole; what a slot waits for inside one is [Timer]'s subject, where in
    turn the wait for a slot is any duration. The recycling of buffers is left out:
    they are represented by their contents or their capacity. In [Timer] a byte that
    arrives at the very instant of the deadline comes too late; the race of the
    timer with a packet just read is not told further apart. Go's map iteration
    order in [closeAll] is an argument, any permutation.

    In [Sessions] a session takes its own requests one at a time and does not end;
    in [Crowd] the order of replies is left open. In both one call on the driver is
    one step, as the lock and the ordering of overlapping ranges make it. That
    sessions are serializable needs path calls to be exclusive: with
    [PathOpsConcurrent] a handler that makes two of them (STAT after a listing, say)
    is not one step for the others, by the embedder's own assertion.

    Of the SSH front-end, the transport itself is x/crypto/ssh: a handshake is its
    outcome, a channel the requests made on it. What the demonstration program
    prints is left out. [src/doc.go] is documentation.

    This file holds the shared vocabulary: bytes, machine integers, outcomes,
    slices, and the tactics and hint databases the other files use. *)

From Stdlib.Strings Require Export Byte String.
From stdpp Require Export prelude gmap.
Global Open Scope Z_scope.

(** * Bytes and byte strings

    A Go [byte] is [Init.Byte.byte]; a Go [[]byte] and a Go [string] are both
    lists of bytes (a Go string is an arbitrary byte sequence, and the code
    converts between the two freely). *)

Abbreviation byte := Init.Byte.byte.
Abbreviation bytes := (list byte).

(** The unsigned value of a byte. *)
Definition byte_val (b : byte) : Z := Z.of_N (Byte.to_N b).

(** [byte(z)]: the low eight bits of an integer. *)
Definition byte_of (z : Z) : byte :=
  default x00 (Byte.of_N (Z.to_N (z mod 256))).

(** A string literal of the source. *)
Definition str (s : string) : bytes := String.list_byte_of_string s.

#[export] Instance byte_eq_dec : EqDecision byte := Byte.byte_eq_dec.

Lemma byte_of_to_N b : default x00 (Byte.of_N (Byte.to_N b)) = b.
Proof. by rewrite Byte.of_to_N. Qed.

#[export] Instance byte_countable : Countable byte :=
  inj_countable' Byte.to_N (fun n => default x00 (Byte.of_N n)) byte_of_to_N.

Lemma byte_val_range b : 0 <= byte_val b < 256.
Proof.
  unfold byte_val. pose proof (Byte.to_N_bounded b). lia.
Qed.

Lemma byte_of_val b : byte_of (byte_val b) = b.
Proof.
  unfold byte_of. rewrite Z.mod_small by apply byte_val_range.
  unfold byte_val. rewrite N2Z.id, Byte.of_to_N. done.
Qed.

Lemma byte_val_of z : byte_val (byte_of z) = z mod 256.
Proof.
  unfold byte_of, byte_val.
  pose proof (Z.mod_pos_bound z 256 ltac:(lia)) as Hb.
  destruct (Byte.of_N (Z.to_N (z mod 256))) as [b|] eqn:E; simpl.
  - apply Byte.to_of_N in E. rewrite E. lia.
  - apply Byte.of_N_None_iff in E. lia.
Qed.

Lemma byte_of_small z : 0 <= z < 256 -> byte_val (byte_of z) = z.
Proof. intros. rewrite byte_val_of. by apply Z.mod_small. Qed.

Lemma byte_of_inj z1 z2 :
  0 <= z1 < 256 -> 0 <= z2 < 256 -> byte_of z1 = byte_of z2 -> z1 = z2.
Proof. intros ?? H%(f_equal byte_val). by rewrite !byte_of_small in H. Qed.

(** * Machine integers

    A [w]-bit unsigned integer is a [Z] in [[0, 2^w)]; Go's [int] and [int64]
    are 64-bit two's complement. *)

Definition u8 (z : Z) : Prop := 0 <= z < 2 ^ 8.
Definition u32 (z : Z) : Prop := 0 <= z < 2 ^ 32.
Definition u64 (z : Z) : Prop := 0 <= z < 2 ^ 64.
Definition i64 (z : Z) : Prop := - 2 ^ 63 <= z < 2 ^ 63.

(** Conversions [uint32(x)], [uint64(x)] and [int64(x)]. *)
Definition uint32 (z : Z) : Z := z mod 2 ^ 32.
Definition uint64 (z : Z) : Z := z mod 2 ^ 64.
Definition int64 (z : Z) : Z := (z + 2 ^ 63) mod 2 ^ 64 - 2 ^ 63.

Definition MaxInt64 : Z := 2 ^ 63 - 1.
Definition MaxUint64 : Z := 2 ^ 64 - 1.

Lemma uint32_id z : u32 z -> uint32 z = z.
Proof. unfold u32, uint32. intros. by apply Z.mod_small. Qed.

Lemma uint64_id z : u64 z -> uint64 z = z.
Proof. unfold u64, uint64. intros. by apply Z.mod_small. Qed.

Lemma int64_id z : i64 z -> int64 z = z.
Proof. unfold i64, int64. intros. rewrite Z.mod_small; lia. Qed.

Lemma uint32_u32 z : u32 (uint32 z).
Proof. unfold u32, uint32. apply Z.mod_pos_bound. lia. Qed.

Lemma uint64_u64 z : u64 (uint64 z).
Proof. unfold u64, uint64. apply Z.mod_pos_bound. lia. Qed.

Lemma int64_i64 z : i64 (int64 z).
Proof.
  unfold i64, int64.
  pose proof (Z.mod_pos_bound (z + 2 ^ 63) (2 ^ 64) ltac:(lia)). lia.
Qed.

(** Reinterpreting a signed value as unsigned and back is the identity. *)
Lemma int64_uint64 z : i64 z -> int64 (uint64 z) = z.
Proof.
  intros H. unfold int64, uint64. rewrite Zplus_mod_idemp_l.
  rewrite Z.mod_small; unfold i64 in H; lia.
Qed.

(** [x & mask != 0], the flag tests of the source. *)
Definition has (x mask : Z) : bool := negb (Z.land x mask =? 0).

(** [len(b)] as a Go [int]. *)
Definition len {A} (l : list A) : Z := Z.of_nat (length l).

Lemma len_nonneg {A} (l : list A) : 0 <= len l.
Proof. unfold len. lia. Qed.

Lemma len_app {A} (l k : list A) : len (l ++ k) = len l + len k.
Proof. unfold len. rewrite length_app. lia. Qed.

Lemma len_cons {A} (x : A) l : len (x :: l) = 1 + len l.
Proof. unfold len. simpl. lia. Qed.

Lemma len_nil {A} : len (@nil A) = 0.
Proof. done. Qed.

Lemma len_zero {A} (l : list A) : len l = 0 -> l = [].
Proof. destruct l; [done|]. rewrite len_cons. pose proof (len_nonneg l). lia. Qed.

(** * Outcomes

    A Go function with an [error] result returns a value or an error; a run-time
    panic (an index or a slice out of range) is a third outcome, kept in the
    model so that its absence is a theorem. *)

Inductive outcome (E A : Type) : Type :=
| Ok (a : A)
| Err (e : E)
| Panic.
Arguments Ok {E A} a.
Arguments Err {E A} e.
Arguments Panic {E A}.

Definition no_panic {E A} (o : outcome E A) : Prop := o <> Panic.

(** Slice expressions [b[i:]], [b[i:j]] and the index expression [b[i]], with
    their bound checks. *)
Definition slice_from {E A} (b : list A) (i : Z) : outcome E (list A) :=
  if (0 <=? i) && (i <=? len b) then Ok (drop (Z.to_nat i) b) else Panic.

Definition slice {E A} (b : list A) (i j : Z) : outcome E (list A) :=
  if (0 <=? i) && (i <=? j) && (j <=? len b)
  then Ok (take (Z.to_nat (j - i)) (drop (Z.to_nat i) b)) else Panic.

Definition index {E A} (b : list A) (i : Z) : outcome E A :=
  if 0 <=? i then
    match b !! Z.to_nat i with Some x => Ok x | None => Panic end
  else Panic.

Lemma slice_from_ok {E A} (b : list A) i :
  0 <= i <= len b -> slice_from (E:=E) b i = Ok (drop (Z.to_nat i) b).
Proof.
  intros [H1 H2]. unfold slice_from.
  by rewrite (proj2 (Z.leb_le _ _) H1), (proj2 (Z.leb_le _ _) H2).
Qed.

Lemma slice_ok {E A} (b : list A) i j :
  0 <= i -> i <= j -> j <= len b ->
  slice (E:=E) b i j = Ok (take (Z.to_nat (j - i)) (drop (Z.to_nat i) b)).
Proof.
  intros H1%Z.leb_le H2%Z.leb_le H3%Z.leb_le. unfold slice. by rewrite H1, H2, H3.
Qed.

(** * Automation *)

Create HintDb go.
#[export] Hint Resolve len_nonneg uint32_u32 uint64_u64 int64_i64 : go.
Create Rewrite HintDb len.
#[export] Hint Rewrite @len_app @len_cons @len_nil : len.

(** Turn boolean tests into propositions. *)
Ltac bool_prop :=
  repeat match goal with
  | H : _ && _ = true |- _ => apply andb_prop in H as [? ?]
  | H : _ || _ = false |- _ => apply orb_false_elim in H as [? ?]
  | H : negb _ = true |- _ => apply negb_true_iff in H
  | H : negb _ = false |- _ => apply negb_false_iff in H
  | H : (_ <? _) = true |- _ => apply Z.ltb_lt in H
  | H : (_ <? _) = false |- _ => apply Z.ltb_ge in H
  | H : (_ <=? _) = true |- _ => apply Z.leb_le in H
  | H : (_ <=? _) = false |- _ => apply Z.leb_gt in H
  | H : (_ >? _) = true |- _ => rewrite Z.gtb_ltb in H
  | H : (_ >? _) = false |- _ => rewrite Z.gtb_ltb in H
  | H : (_ >=? _) = true |- _ => rewrite Z.geb_leb in H
  | H : (_ >=? _) = false |- _ => rewrite Z.geb_leb in H
  | H : (_ =? _) = true |- _ => apply Z.eqb_eq in H
  | H : (_ =? _) = false |- _ => apply Z.eqb_neq in H
  | H : bool_decide _ = true |- _ => apply bool_decide_eq_true in H
  | H : bool_decide _ = false |- _ => apply bool_decide_eq_false in H
  end.

(** Case analysis on the condition of an [if] in the goal. *)
Ltac case_if :=
  match goal with
  | |- context [if ?b then _ else _] =>
      lazymatch type of b with
      | bool => destruct b eqn:?; bool_prop
      end
  end.

(** Linear arithmetic over lengths of concrete list shapes. *)
Ltac len_lia := autorewrite with len in *; unfold u8, u32, u64, i64 in *; lia.
