(* ===== verification/Codec.v ===== *)
(** The SSH primitive encoding: [src/wire/codec.go].

    [Encoder] and [Decoder] with one definition per method, over the byte
    buffers the source keeps, and the laws that relate them: what an encoder
    method appends, its decoder method reads back; a decoder never panics and
    never runs past its buffer; a length prefix above the limit is refused. *)

From S2P Require Import Prelude.

(** [ErrShort], [ErrLimit], [ErrTrailing]. *)
Inductive wire_error := ErrShort | ErrLimit | ErrTrailing.

(** [wire.DefaultLimit] = 256 KiB. *)
Definition DefaultLimit : Z := Z.shiftl 256 10.

Lemma DefaultLimit_val : DefaultLimit = 262144.
Proof. done. Qed.

(** * encoding/binary, big endian *)

(** [binary.BigEndian.AppendUint32(nil, v)]. *)
Definition be32 (v : Z) : bytes :=
  [byte_of (Z.shiftr v 24); byte_of (Z.shiftr v 16);
   byte_of (Z.shiftr v 8); byte_of v].

(** [binary.BigEndian.AppendUint64(nil, v)]. *)
Definition be64 (v : Z) : bytes :=
  [byte_of (Z.shiftr v 56); byte_of (Z.shiftr v 48);
   byte_of (Z.shiftr v 40); byte_of (Z.shiftr v 32);
   byte_of (Z.shiftr v 24); byte_of (Z.shiftr v 16);
   byte_of (Z.shiftr v 8); byte_of v].

(** [binary.BigEndian.Uint32(b)]: panics on fewer than four bytes. *)
Definition BigEndian_Uint32 {E} (b : bytes) : outcome E Z :=
  match b with
  | b0 :: b1 :: b2 :: b3 :: _ =>
      Ok (Z.lor (byte_val b3)
         (Z.lor (Z.shiftl (byte_val b2) 8)
         (Z.lor (Z.shiftl (byte_val b1) 16)
                (Z.shiftl (byte_val b0) 24))))
  | _ => Panic
  end.

(** [binary.BigEndian.Uint64(b)]: panics on fewer than eight bytes. *)
Definition BigEndian_Uint64 {E} (b : bytes) : outcome E Z :=
  match b with
  | b0 :: b1 :: b2 :: b3 :: b4 :: b5 :: b6 :: b7 :: _ =>
      Ok (Z.lor (byte_val b7)
         (Z.lor (Z.shiftl (byte_val b6) 8)
         (Z.lor (Z.shiftl (byte_val b5) 16)
         (Z.lor (Z.shiftl (byte_val b4) 24)
         (Z.lor (Z.shiftl (byte_val b3) 32)
         (Z.lor (Z.shiftl (byte_val b2) 40)
         (Z.lor (Z.shiftl (byte_val b1) 48)
                (Z.shiftl (byte_val b0) 56))))))))
  | _ => Panic
  end.

Lemma land_shiftl_disjoint a b k :
  0 <= k -> 0 <= a < 2 ^ k -> Z.land a (Z.shiftl b k) = 0.
Proof.
  intros Hk Ha. apply Z.bits_inj'; intros n Hn. rewrite Z.land_spec, Z.bits_0.
  destruct (decide (n < k)).
  { rewrite Z.shiftl_spec_low by lia. apply andb_false_r. }
  rewrite <- (Z.mod_small a (2 ^ k)) by done.
  by rewrite Z.mod_pow2_bits_high by lia.
Qed.

Lemma lor_shiftl_add a b k :
  0 <= k -> 0 <= a < 2 ^ k -> Z.lor a (Z.shiftl b k) = a + b * 2 ^ k.
Proof.
  intros Hk Ha. rewrite <- Z.shiftl_mul_pow2 by done.
  rewrite Z.add_nocarry_lxor, Z.lxor_lor by by apply land_shiftl_disjoint. done.
Qed.

(** The value of four big-endian bytes as a sum. *)
Lemma BigEndian_Uint32_val {E} b0 b1 b2 b3 r :
  BigEndian_Uint32 (E:=E) (b0 :: b1 :: b2 :: b3 :: r) =
  Ok (byte_val b3 + byte_val b2 * 2 ^ 8 + byte_val b1 * 2 ^ 16 + byte_val b0 * 2 ^ 24).
Proof.
  pose proof (byte_val_range b0). pose proof (byte_val_range b1).
  pose proof (byte_val_range b2). pose proof (byte_val_range b3).
  unfold BigEndian_Uint32. f_equal.
  rewrite !Z.lor_assoc. rewrite (lor_shiftl_add _ _ 8), (lor_shiftl_add _ _ 16),
    (lor_shiftl_add _ _ 24) by lia. lia.
Qed.

Lemma BigEndian_Uint64_val {E} b0 b1 b2 b3 b4 b5 b6 b7 r :
  BigEndian_Uint64 (E:=E) (b0 :: b1 :: b2 :: b3 :: b4 :: b5 :: b6 :: b7 :: r) =
  Ok (byte_val b7 + byte_val b6 * 2 ^ 8 + byte_val b5 * 2 ^ 16 +
      byte_val b4 * 2 ^ 24 + byte_val b3 * 2 ^ 32 + byte_val b2 * 2 ^ 40 +
      byte_val b1 * 2 ^ 48 + byte_val b0 * 2 ^ 56).
Proof.
  pose proof (byte_val_range b0). pose proof (byte_val_range b1).
  pose proof (byte_val_range b2). pose proof (byte_val_range b3).
  pose proof (byte_val_range b4). pose proof (byte_val_range b5).
  pose proof (byte_val_range b6). pose proof (byte_val_range b7).
  unfold BigEndian_Uint64. f_equal.
  rewrite !Z.lor_assoc. rewrite (lor_shiftl_add _ _ 8), (lor_shiftl_add _ _ 16),
    (lor_shiftl_add _ _ 24), (lor_shiftl_add _ _ 32), (lor_shiftl_add _ _ 40),
    (lor_shiftl_add _ _ 48), (lor_shiftl_add _ _ 56) by lia. lia.
Qed.

Ltac be_arith :=
  rewrite ?byte_val_of, ?Z.shiftr_div_pow2 by lia; unfold u32, u64 in *;
  Z.div_mod_to_equations; lia.

Lemma be32_decode {E} v r :
  u32 v -> BigEndian_Uint32 (E:=E) (be32 v ++ r) = Ok v.
Proof. intros. unfold be32; cbn [app]. rewrite BigEndian_Uint32_val. f_equal. be_arith. Qed.

Lemma be64_decode {E} v r :
  u64 v -> BigEndian_Uint64 (E:=E) (be64 v ++ r) = Ok v.
Proof. intros. unfold be64; cbn [app]. rewrite BigEndian_Uint64_val. f_equal. be_arith. Qed.

Lemma byte_of_eq b z : z mod 256 = byte_val b -> byte_of z = b.
Proof. intros H. unfold byte_of. rewrite H, <- (Z.mod_small (byte_val b) 256).
  - apply byte_of_val.
  - apply byte_val_range.
Qed.

(** Decoding inspects exactly the bytes that encoding produces. *)
Lemma be32_of_bytes {E} b0 b1 b2 b3 r :
  exists v, u32 v /\ BigEndian_Uint32 (E:=E) (b0 :: b1 :: b2 :: b3 :: r) = Ok v /\
            be32 v = [b0; b1; b2; b3].
Proof.
  pose proof (byte_val_range b0). pose proof (byte_val_range b1).
  pose proof (byte_val_range b2). pose proof (byte_val_range b3).
  rewrite BigEndian_Uint32_val. eexists. split; [|split; [done|]].
  { unfold u32. lia. }
  unfold be32. repeat f_equal.
  all: apply byte_of_eq; rewrite ?Z.shiftr_div_pow2 by lia.
  all: Z.div_mod_to_equations; lia.
Qed.

Lemma be64_of_bytes {E} b0 b1 b2 b3 b4 b5 b6 b7 r :
  exists v, u64 v /\
    BigEndian_Uint64 (E:=E) (b0 :: b1 :: b2 :: b3 :: b4 :: b5 :: b6 :: b7 :: r) = Ok v /\
    be64 v = [b0; b1; b2; b3; b4; b5; b6; b7].
Proof.
  pose proof (byte_val_range b0). pose proof (byte_val_range b1).
  pose proof (byte_val_range b2). pose proof (byte_val_range b3).
  pose proof (byte_val_range b4). pose proof (byte_val_range b5).
  pose proof (byte_val_range b6). pose proof (byte_val_range b7).
  rewrite BigEndian_Uint64_val. eexists. split; [|split; [done|]].
  { unfold u64. lia. }
  unfold be64. repeat f_equal.
  all: apply byte_of_eq; rewrite ?Z.shiftr_div_pow2 by lia.
  all: Z.div_mod_to_equations; lia.
Qed.

(** * Encoder *)

Record Encoder := { ebuf : bytes }.

(** [NewEncoder(buf)] keeps the capacity of [buf] and none of its contents. *)
Definition NewEncoder : Encoder := {| ebuf := [] |}.

Definition Encoder_Bytes (e : Encoder) : bytes := ebuf e.

Definition Encoder_Len (e : Encoder) : Z := len (ebuf e).

(** [e.buf = append(e.buf, b...)]. *)
Definition Encoder_append (b : bytes) (e : Encoder) : Encoder :=
  {| ebuf := ebuf e ++ b |}.

Definition Encoder_Byte (v : Z) (e : Encoder) : Encoder :=
  Encoder_append [byte_of v] e.

Definition Encoder_Uint32 (v : Z) (e : Encoder) : Encoder :=
  Encoder_append (be32 v) e.

Definition Encoder_Uint64 (v : Z) (e : Encoder) : Encoder :=
  Encoder_append (be64 v) e.

Definition Encoder_Int64 (v : Z) (e : Encoder) : Encoder :=
  Encoder_Uint64 (uint64 v) e.

Definition Encoder_Blob (b : bytes) (e : Encoder) : Encoder :=
  Encoder_append b (Encoder_Uint32 (uint32 (len b)) e).

Definition Encoder_String (s : bytes) (e : Encoder) : Encoder :=
  Encoder_append s (Encoder_Uint32 (uint32 (len s)) e).

(** [e |> f]: the statement [f] run on the encoder [e], so that a sequence of
    encoder calls reads in the order of the source. *)
Notation "e |> f" := (f e) (at level 50, left associativity, only parsing).

(** * Decoder *)

Record Decoder := { dbuf : bytes; off : Z; limit : Z }.

(** A decoder method: it may move the offset whether it succeeds or not. *)
Definition dec (A : Type) : Type := Decoder -> Decoder * outcome wire_error A.

#[export] Instance dec_ret : MRet dec := fun A a d => (d, Ok a).
#[export] Instance dec_bind : MBind dec := fun A B k m d =>
  match m d with
  | (d', Ok a) => k a d'
  | (d', Err e) => (d', Err e)
  | (d', Panic) => (d', Panic)
  end.

Definition dec_fail {A} (e : wire_error) : dec A := fun d => (d, Err e).

(** A pure computation that can panic, inside a decoder method. *)
Definition dec_lift {A} (o : outcome wire_error A) : dec A := fun d => (d, o).

Definition NewDecoder (buf : bytes) : Decoder :=
  {| dbuf := buf; off := 0; limit := 0 |}.

Definition SetLimit (n : Z) (d : Decoder) : Decoder :=
  {| dbuf := dbuf d; off := off d; limit := n |}.

Definition Decoder_cap (d : Decoder) : Z :=
  if limit d <=? 0 then DefaultLimit else limit d.

Definition Remaining (d : Decoder) : Z := len (dbuf d) - off d.

(** [d.off += n]. *)
Definition advance (n : Z) (d : Decoder) : Decoder :=
  {| dbuf := dbuf d; off := off d + n; limit := limit d |}.

(** Reading the decoder itself, and [d.off += n] as a statement. *)
Definition dec_get : dec Decoder := fun d => (d, Ok d).
Definition dec_advance (n : Z) : dec unit := fun d => (advance n d, Ok tt).

Definition Decoder_End : dec unit :=
  d ← dec_get;
  if negb (Remaining d =? 0) then dec_fail ErrTrailing else mret tt.

Definition Decoder_Byte : dec Z :=
  d ← dec_get;
  if Remaining d <? 1 then dec_fail ErrShort
  else
    v ← dec_lift (index (dbuf d) (off d));
    _ ← dec_advance 1;
    mret (byte_val v).

Definition Decoder_Uint32 : dec Z :=
  d ← dec_get;
  if Remaining d <? 4 then dec_fail ErrShort
  else
    b ← dec_lift (slice_from (dbuf d) (off d));
    v ← dec_lift (BigEndian_Uint32 b);
    _ ← dec_advance 4;
    mret v.

Definition Decoder_Uint64 : dec Z :=
  d ← dec_get;
  if Remaining d <? 8 then dec_fail ErrShort
  else
    b ← dec_lift (slice_from (dbuf d) (off d));
    v ← dec_lift (BigEndian_Uint64 b);
    _ ← dec_advance 8;
    mret v.

Definition Decoder_Int64 : dec Z :=
  v ← Decoder_Uint64; mret (int64 v).

Definition Decoder_Blob : dec bytes :=
  n ← Decoder_Uint32;
  d ← dec_get;
  if n >? Decoder_cap d then dec_fail ErrLimit
  else if Remaining d <? n then dec_fail ErrShort
  else
    out ← dec_lift (slice (dbuf d) (off d) (off d + n));
    _ ← dec_advance n;
    mret out.

Definition Decoder_String : dec bytes :=
  b ← Decoder_Blob; mret b.

(** * What a decoder has left to read *)

(** The decoder's invariant: the offset stays inside the buffer. *)
Definition dec_wf (d : Decoder) : Prop := 0 <= off d <= len (dbuf d).

(** The undecoded bytes. *)
Definition rest (d : Decoder) : bytes := drop (Z.to_nat (off d)) (dbuf d).

(** A string the decoder accepts. *)
Definition str_wf (s : bytes) : Prop := len s <= DefaultLimit.

(** The bytes an SFTP string occupies on the wire. *)
Definition wire_string (s : bytes) : bytes := be32 (len s) ++ s.

(** [d] is inside its buffer, uses the default limit, and has [r] left. *)
Definition at_ (d : Decoder) (r : bytes) : Prop :=
  dec_wf d /\ rest d = r /\ limit d = 0.

(** [m] reads back [a] from the bytes [x], whatever follows them. *)
Definition decodes {A} (m : dec A) (x : bytes) (a : A) : Prop :=
  forall d r, at_ d (x ++ r) -> exists d', m d = (d', Ok a) /\ at_ d' r.

(** [m] reads back [a] when exactly [x] is left. *)
Definition decodes_all {A} (m : dec A) (x : bytes) (a : A) : Prop :=
  forall d, at_ d x -> exists d', m d = (d', Ok a).

(** On any input [m] does not panic and stays inside its buffer; when it
    succeeds, the value and the bytes consumed are related by [W]. *)
Definition sound {A} (m : dec A) (W : A -> bytes -> Prop) : Prop :=
  forall d r, at_ d r ->
    match m d with
    | (d', Ok a) => exists x r', r = x ++ r' /\ at_ d' r' /\ W a x
    | (d', Err _) => dec_wf d'
    | (_, Panic) => False
    end.

(** The same for a decoder that ends by requiring an empty remainder. *)
Definition sound_all {A} (m : dec A) (W : A -> bytes -> Prop) : Prop :=
  forall d r, at_ d r ->
    match snd (m d) with
    | Ok a => W a r
    | Err _ => True
    | Panic => False
    end.

(** A decoder run over a whole payload: the shape of every [DecodeX]. *)
Definition run_dec {A} (payload : bytes) (m : dec A) : outcome wire_error A :=
  snd (m (NewDecoder payload)).

Lemma at_new p : at_ (NewDecoder p) p.
Proof. split_and!; try done. unfold dec_wf; simpl. pose proof (len_nonneg p). lia. Qed.

Lemma rest_len d : dec_wf d -> len (rest d) = Remaining d.
Proof. unfold dec_wf, rest, Remaining, len. rewrite length_drop. lia. Qed.

Lemma at_Remaining d r : at_ d r -> Remaining d = len r.
Proof. intros (Hw & <- & _). by rewrite rest_len. Qed.

Lemma at_advance d x r : at_ d (x ++ r) -> at_ (advance (len x) d) r.
Proof.
  intros (Hw & Hr & Hl).
  pose proof (rest_len d Hw) as Hlen. rewrite Hr, len_app in Hlen.
  unfold Remaining in Hlen. pose proof (len_nonneg x). pose proof (len_nonneg r).
  split_and!; [|unfold rest in *; simpl |done].
  - unfold dec_wf in *; simpl. lia.
  - rewrite Z2Nat.inj_add by (unfold dec_wf in Hw; lia).
    rewrite <- drop_drop, Hr. unfold len. rewrite Nat2Z.id. apply drop_app_length.
Qed.

Lemma at_slice_from {E} d r : at_ d r -> slice_from (E:=E) (dbuf d) (off d) = Ok r.
Proof. intros (Hw & <- & _). by rewrite slice_from_ok. Qed.

(** The primitive steps as functions of the decoder, for rewriting. *)
Lemma Decoder_End_eq d :
  Decoder_End d = if Remaining d =? 0 then (d, Ok tt) else (d, Err ErrTrailing).
Proof. unfold Decoder_End, mbind, dec_bind; simpl. by destruct (_ =? _). Qed.

Section laws.
Context {A B : Type}.
Implicit Types (m : dec A) (k : A -> dec B).

Lemma decodes_ret (a : A) : decodes (mret a) [] a.
Proof. intros d r H. by exists d. Qed.

Lemma decodes_bind m k x y a b :
  decodes m x a -> decodes (k a) y b -> decodes (m ≫= k) (x ++ y) b.
Proof.
  intros Hm Hk d r H. rewrite <- app_assoc in H.
  destruct (Hm _ _ H) as (d1 & E1 & H1). destruct (Hk _ _ H1) as (d2 & E2 & H2).
  exists d2. unfold mbind, dec_bind. by rewrite E1.
Qed.

Lemma decodes_all_bind m k x y a b :
  decodes m x a -> decodes_all (k a) y b -> decodes_all (m ≫= k) (x ++ y) b.
Proof.
  intros Hm Hk d H. destruct (Hm _ _ H) as (d1 & E1 & H1).
  destruct (Hk _ H1) as (d2 & E2). exists d2. unfold mbind, dec_bind. by rewrite E1.
Qed.

Lemma decodes_all_end (b : B) : decodes_all (_ ← Decoder_End; mret b) [] b.
Proof.
  intros d H. exists d. unfold mbind at 1, dec_bind at 1.
  by rewrite Decoder_End_eq, (at_Remaining _ _ H), len_nil.
Qed.

Lemma decodes_all_ret (b : B) : decodes_all (mret b) [] b.
Proof. intros d H. by exists d. Qed.

Lemma decodes_all_run (m : dec A) x a : decodes_all m x a -> run_dec x m = Ok a.
Proof. intros H. destruct (H _ (at_new x)) as (d' & E). unfold run_dec. by rewrite E. Qed.

Lemma sound_ret (W : A -> bytes -> Prop) a : W a [] -> sound (mret a) W.
Proof. intros HW d r H. by exists [], r. Qed.

Lemma sound_fail (W : A -> bytes -> Prop) e : sound (dec_fail e) W.
Proof. intros d r (H & _). done. Qed.

Lemma sound_bind m k W1 (W : B -> bytes -> Prop) :
  sound m W1 ->
  (forall a x, W1 a x -> sound (k a) (fun b y => W b (x ++ y))) ->
  sound (m ≫= k) W.
Proof.
  intros Hm Hk d r H. specialize (Hm d r H). unfold mbind, dec_bind.
  destruct (m d) as [d1 [a|e|]]; [|done..].
  destruct Hm as (x & r1 & -> & H1 & HW1).
  specialize (Hk a x HW1 d1 r1 H1). destruct (k a d1) as [d2 [b|e|]]; [|done..].
  destruct Hk as (y & r2 & -> & H2 & HW). exists (x ++ y), r2.
  by rewrite <- app_assoc.
Qed.

Lemma sound_all_bind m k W1 (W : B -> bytes -> Prop) :
  sound m W1 ->
  (forall a x, W1 a x -> sound_all (k a) (fun b y => W b (x ++ y))) ->
  sound_all (m ≫= k) W.
Proof.
  intros Hm Hk d r H. specialize (Hm d r H). unfold mbind, dec_bind.
  destruct (m d) as [d1 [a|e|]]; [|done..].
  destruct Hm as (x & r1 & -> & H1 & HW1). by apply (Hk a x HW1 d1 r1 H1).
Qed.

Lemma sound_all_end (W : B -> bytes -> Prop) b :
  W b [] -> sound_all (_ ← Decoder_End; mret b) W.
Proof.
  intros HW d r H. unfold mbind, dec_bind.
  rewrite Decoder_End_eq, (at_Remaining _ _ H). case_if; simpl; [|done].
  by rewrite (len_zero r).
Qed.

Lemma sound_weaken m (W1 W2 : A -> bytes -> Prop) :
  sound m W1 -> (forall a x, W1 a x -> W2 a x) -> sound m W2.
Proof.
  intros Hm HW d r H. specialize (Hm d r H).
  destruct (m d) as [d' [a|e|]]; [|done..].
  destruct Hm as (x & r' & ? & ? & ?). eauto 10.
Qed.

Lemma sound_all_run (m : dec A) W p : sound_all m W ->
  run_dec p m <> Panic /\ forall a, run_dec p m = Ok a -> W a p.
Proof.
  intros H. specialize (H _ _ (at_new p)). unfold run_dec.
  destruct (snd (m (NewDecoder p))); naive_solver.
Qed.
End laws.

(** ** The primitive decoders *)

Lemma len_be32 v : len (be32 v) = 4.
Proof. done. Qed.
Lemma len_be64 v : len (be64 v) = 8.
Proof. done. Qed.
#[export] Hint Rewrite len_be32 len_be64 : len.

Lemma Decoder_Byte_eq d :
  Decoder_Byte d =
  if Remaining d <? 1 then (d, Err ErrShort)
  else match index (dbuf d) (off d) with
       | Ok v => (advance 1 d, Ok (byte_val v))
       | Err e => (d, Err e)
       | Panic => (d, Panic)
       end.
Proof.
  unfold Decoder_Byte, mbind, dec_bind; simpl. destruct (_ <? _); [done|].
  simpl. by destruct (index _ _).
Qed.

Lemma Decoder_Uint32_eq d r : at_ d r ->
  Decoder_Uint32 d =
  if len r <? 4 then (d, Err ErrShort)
  else match BigEndian_Uint32 r with
       | Ok v => (advance 4 d, Ok v)
       | Err e => (d, Err e)
       | Panic => (d, Panic)
       end.
Proof.
  intros H. unfold Decoder_Uint32, mbind, dec_bind; simpl.
  rewrite (at_Remaining _ _ H). destruct (_ <? _); [done|]. simpl.
  rewrite (at_slice_from _ _ H). simpl. by destruct (BigEndian_Uint32 r).
Qed.

Lemma Decoder_Uint64_eq d r : at_ d r ->
  Decoder_Uint64 d =
  if len r <? 8 then (d, Err ErrShort)
  else match BigEndian_Uint64 r with
       | Ok v => (advance 8 d, Ok v)
       | Err e => (d, Err e)
       | Panic => (d, Panic)
       end.
Proof.
  intros H. unfold Decoder_Uint64, mbind, dec_bind; simpl.
  rewrite (at_Remaining _ _ H). destruct (_ <? _); [done|]. simpl.
  rewrite (at_slice_from _ _ H). simpl. by destruct (BigEndian_Uint64 r).
Qed.

Lemma decodes_Uint32 v : u32 v -> decodes Decoder_Uint32 (be32 v) v.
Proof.
  intros Hv d r H. rewrite (Decoder_Uint32_eq _ _ H), be32_decode by done.
  pose proof (len_nonneg r). rewrite len_app, len_be32.
  rewrite (proj2 (Z.ltb_ge _ _)) by lia. eexists; split; [done|].
  by apply (at_advance d (be32 v)).
Qed.

Lemma decodes_Uint64 v : u64 v -> decodes Decoder_Uint64 (be64 v) v.
Proof.
  intros Hv d r H. rewrite (Decoder_Uint64_eq _ _ H), be64_decode by done.
  pose proof (len_nonneg r). rewrite len_app, len_be64.
  rewrite (proj2 (Z.ltb_ge _ _)) by lia. eexists; split; [done|].
  by apply (at_advance d (be64 v)).
Qed.

Lemma sound_Uint32 : sound Decoder_Uint32 (fun v x => u32 v /\ x = be32 v).
Proof.
  intros d r H. rewrite (Decoder_Uint32_eq _ _ H). case_if; [apply H|].
  destruct r as [|b0 [|b1 [|b2 [|b3 r]]]];
    try (unfold len in *; simpl in *; lia).
  destruct (be32_of_bytes (E:=wire_error) b0 b1 b2 b3 r) as (v & Hv & -> & Hb).
  exists (be32 v), r. rewrite Hb. split_and!; try done.
  by apply (at_advance d [b0; b1; b2; b3]).
Qed.

Lemma sound_Uint64 : sound Decoder_Uint64 (fun v x => u64 v /\ x = be64 v).
Proof.
  intros d r H. rewrite (Decoder_Uint64_eq _ _ H). case_if; [apply H|].
  destruct r as [|b0 [|b1 [|b2 [|b3 [|b4 [|b5 [|b6 [|b7 r]]]]]]]];
    try (unfold len in *; simpl in *; lia).
  destruct (be64_of_bytes (E:=wire_error) b0 b1 b2 b3 b4 b5 b6 b7 r) as (v & Hv & -> & Hb).
  exists (be64 v), r. rewrite Hb. split_and!; try done.
  by apply (at_advance d [b0; b1; b2; b3; b4; b5; b6; b7]).
Qed.

(** The part of [Decoder_Blob] after its length prefix. *)
Definition blob_body (n : Z) : dec bytes :=
  d ← dec_get;
  if n >? Decoder_cap d then dec_fail ErrLimit
  else if Remaining d <? n then dec_fail ErrShort
  else
    out ← dec_lift (slice (dbuf d) (off d) (off d + n));
    _ ← dec_advance n;
    mret out.

Lemma blob_body_eq n d r : 0 <= n -> at_ d r ->
  blob_body n d =
  if n >? DefaultLimit then (d, Err ErrLimit)
  else if len r <? n then (d, Err ErrShort)
  else (advance n d, Ok (take (Z.to_nat n) r)).
Proof.
  intros Hn H. pose proof (at_Remaining _ _ H) as HR.
  destruct H as (Hw & Hr & Hl).
  unfold blob_body, mbind, dec_bind; simpl.
  unfold Decoder_cap. rewrite Hl, HR. simpl (0 <=? 0).
  destruct (_ >? _); [done|]. destruct (_ <? _) eqn:E; [done|]. bool_prop.
  unfold Remaining, dec_wf in *. simpl. rewrite slice_ok by lia. simpl.
  by rewrite Z.add_simpl_l, <- Hr.
Qed.

Lemma decodes_Blob s : str_wf s -> decodes Decoder_Blob (wire_string s) s.
Proof.
  intros Hs. pose proof (len_nonneg s). unfold str_wf in Hs.
  rewrite DefaultLimit_val in Hs.
  eapply (decodes_bind _ blob_body); [apply decodes_Uint32; unfold u32; lia|].
  intros d r H1. rewrite (blob_body_eq _ _ _ ltac:(done) H1), len_app.
  pose proof (len_nonneg r). rewrite Z.gtb_ltb.
  rewrite !(proj2 (Z.ltb_ge _ _)) by (rewrite ?DefaultLimit_val; lia).
  eexists; split; [|by apply (at_advance d s)].
  unfold len. by rewrite Nat2Z.id, take_app_length.
Qed.

Lemma sound_Blob : sound Decoder_Blob (fun s x => str_wf s /\ x = wire_string s).
Proof.
  apply (sound_bind _ blob_body _ _ sound_Uint32). intros n x [Hn ->] d r H.
  destruct Hn as [Hn0 Hn].
  rewrite (blob_body_eq _ _ _ Hn0 H). case_if; [apply H|]. case_if; [apply H|].
  assert (len (take (Z.to_nat n) r) = n) as Hlen.
  { unfold len in *. rewrite length_take. lia. }
  exists (take (Z.to_nat n) r), (drop (Z.to_nat n) r). split_and!.
  - by rewrite take_drop.
  - rewrite <- Hlen at 1. apply (at_advance d (take (Z.to_nat n) r)). by rewrite take_drop.
  - unfold str_wf. lia.
  - unfold wire_string. by rewrite Hlen.
Qed.

Lemma decodes_String s : str_wf s -> decodes Decoder_String (wire_string s) s.
Proof.
  intros H. rewrite <- (app_nil_r (wire_string s)).
  by eapply decodes_bind; [apply decodes_Blob|apply decodes_ret].
Qed.

Lemma sound_String : sound Decoder_String (fun s x => str_wf s /\ x = wire_string s).
Proof.
  eapply sound_bind; [apply sound_Blob|]. intros s x [? ->].
  apply sound_ret. by rewrite app_nil_r.
Qed.

(** The remainder of the payload, raw: [append([]byte(nil), d.buf[d.off:]...)]. *)
Definition Decoder_Raw : dec bytes :=
  d ← dec_get; dec_lift (slice_from (dbuf d) (off d)).

Lemma Decoder_Raw_eq d r : at_ d r -> Decoder_Raw d = (d, Ok r).
Proof.
  intros H. unfold Decoder_Raw, mbind, dec_bind; simpl. unfold dec_lift.
  by rewrite (at_slice_from _ _ H).
Qed.

Lemma decodes_all_Raw {A} (f : bytes -> A) s :
  decodes_all (b ← Decoder_Raw; mret (f b)) s (f s).
Proof.
  intros d H. exists d. unfold mbind, dec_bind. by rewrite (Decoder_Raw_eq _ _ H).
Qed.

Lemma sound_all_Raw {A} (f : bytes -> A) (W : A -> bytes -> Prop) :
  (forall s, W (f s) s) -> sound_all (b ← Decoder_Raw; mret (f b)) W.
Proof.
  intros HW d r H. unfold mbind, dec_bind. rewrite (Decoder_Raw_eq _ _ H). apply HW.
Qed.

#[export] Hint Resolve decodes_Uint32 decodes_Uint64 decodes_Blob decodes_String
  decodes_all_end decodes_all_ret decodes_ret : go.

#[global] Arguments be32 : simpl never.
#[global] Arguments be64 : simpl never.
#[global] Arguments wire_string : simpl never.
#[global] Arguments Encoder_append : simpl never.
#[global] Arguments Encoder_Bytes : simpl never.
#[global] Arguments Encoder_Uint32 : simpl never.
#[global] Arguments Encoder_Uint64 : simpl never.
#[global] Arguments Encoder_Blob : simpl never.
#[global] Arguments Encoder_String : simpl never.

(** * A decoder with any limit *)

Lemma Decoder_Uint32_any d : dec_wf d ->
  (Remaining d < 4 /\ Decoder_Uint32 d = (d, Err ErrShort)) \/
  (exists v y, u32 v /\ rest d = be32 v ++ y /\ Decoder_Uint32 d = (advance 4 d, Ok v)).
Proof.
  intros Hw. unfold Decoder_Uint32, mbind, dec_bind; simpl.
  destruct (Remaining d <? 4) eqn:E; bool_prop; [by left|right].
  pose proof (rest_len d Hw) as Hl. simpl. rewrite slice_from_ok by apply Hw. fold (rest d).
  destruct (rest d) as [|b0 [|b1 [|b2 [|b3 y]]]]; try (autorewrite with len in Hl; lia).
  destruct (be32_of_bytes (E:=wire_error) b0 b1 b2 b3 y) as (v & Hv & Hd & Hb).
  exists v, y. split; [done|]. split; [|by rewrite Hd].
  change (b0 :: b1 :: b2 :: b3 :: y) with ([b0; b1; b2; b3] ++ y). by rewrite <- Hb.
Qed.

(** A string costs no more than the packet that carries it: under any limit,
    decoding a length-prefixed string stays inside the buffer and never panics;
    a string it returns is at most the limit and at most what is left of the
    packet; a length prefix above the limit is refused as such, whatever
    follows, before anything of that length is looked at. *)
Theorem Blob_bounded d :
  dec_wf d ->
  dec_wf (fst (Decoder_Blob d)) /\ snd (Decoder_Blob d) <> Panic /\
  (forall b, snd (Decoder_Blob d) = Ok b ->
     len b <= Decoder_cap d /\
     Remaining (fst (Decoder_Blob d)) = Remaining d - 4 - len b /\
     rest d = be32 (len b) ++ b ++ rest (fst (Decoder_Blob d))) /\
  (forall n y, u32 n -> rest d = be32 n ++ y -> Decoder_cap d < n ->
     snd (Decoder_Blob d) = Err ErrLimit).
Proof.
  intros Hw.
  change (Decoder_Blob d) with
    (match Decoder_Uint32 d with
     | (d', Ok n) => blob_body n d' | (d', Err e) => (d', Err e) | (d', Panic) => (d', Panic)
     end).
  destruct (Decoder_Uint32_any d Hw) as [[Hs ->]|(v & y & Hv & Hr & ->)]; cbn [fst snd].
  { split_and!; [done|done|done|]. intros n y _ Hr.
    pose proof (rest_len d Hw) as Hl. rewrite Hr, len_app, len_be32 in Hl.
    pose proof (len_nonneg y). lia. }
  pose proof (rest_len d Hw) as Hl. rewrite Hr, len_app, len_be32 in Hl.
  pose proof (len_nonneg y) as Hy. destruct Hv as [Hv0 Hv].
  assert (dec_wf (advance 4 d)) as Hw'
    by (unfold dec_wf, Remaining in *; simpl; lia).
  assert (Remaining (advance 4 d) = len y) as HR by (unfold Remaining in *; simpl; lia).
  assert (rest (advance 4 d) = y) as Hr'.
  { unfold rest in *; cbn [advance off dbuf]. rewrite Z2Nat.inj_add by (apply Hw || lia).
    by rewrite <- drop_drop, Hr. }
  unfold blob_body, mbind, dec_bind; cbn [dec_get fst snd].
  change (Decoder_cap (advance 4 d)) with (Decoder_cap d). rewrite HR.
  destruct (v >? Decoder_cap d) eqn:E1; bool_prop; [by split_and!|].
  assert (forall n y', u32 n -> rest d = be32 n ++ y' -> Decoder_cap d < n -> False) as Hno.
  { intros n y' Hn Hr2 Hc. rewrite Hr in Hr2.
    apply (f_equal (BigEndian_Uint32 (E:=unit))) in Hr2.
    rewrite !be32_decode in Hr2 by done. injection Hr2. lia. }
  destruct (len y <? v) eqn:E2; bool_prop.
  { split_and!; [done|done|done|]. intros n y' Hn H1 H2. destruct (Hno _ _ Hn H1 H2). }
  cbn [dec_lift]. rewrite slice_ok by (unfold dec_wf, Remaining in *; lia). cbn [dec_advance].
  replace (off (advance 4 d) + v - off (advance 4 d)) with v by lia. fold (rest (advance 4 d)).
  rewrite Hr'. unfold mret, dec_ret; cbn [fst snd].
  assert (len (take (Z.to_nat v) y) = v) as Hb by (unfold len in *; rewrite length_take; lia).
  split_and!; [unfold dec_wf, Remaining in *; simpl in *; lia|done| |].
  - intros b [= <-]. rewrite Hb. split_and!; [lia|unfold Remaining in *; simpl in *; lia|].
    unfold rest at 2; cbn [advance off dbuf].
    rewrite Z2Nat.inj_add by (unfold dec_wf in *; simpl in *; lia).
    rewrite <- drop_drop. fold (rest (advance 4 d)).
    change (drop (Z.to_nat (off d + 4)) (dbuf d)) with (rest (advance 4 d)).
    by rewrite Hr', take_drop.
  - intros n y' Hn H1 H2. destruct (Hno _ _ Hn H1 H2).
Qed.

Lemma Blob_bounded_witness :
  snd (Decoder_Blob (SetLimit 8 (NewDecoder (be32 9 ++ str "123456789")))) = Err ErrLimit.
Proof.
  destruct (Blob_bounded (SetLimit 8 (NewDecoder (be32 9 ++ str "123456789")))) as (_ & _ & _ & H).
  - vm_compute. split; congruence.
  - apply (H 9 (str "123456789")); [unfold u32; lia|vm_compute; reflexivity|vm_compute; reflexivity].
Defined.
