(* ===== verification/Const.v ===== *)
(** Protocol constants: [src/wire/const.go]. *)

From S2P Require Import Prelude.

(** The protocol version spoken. *)
Definition Version : Z := 3.

(** * Packet types *)

Definition FxpInit : Z := 1.
Definition FxpVersion : Z := 2.
Definition FxpOpen : Z := 3.
Definition FxpClose : Z := 4.
Definition FxpRead : Z := 5.
Definition FxpWrite : Z := 6.
Definition FxpLstat : Z := 7.
Definition FxpFstat : Z := 8.
Definition FxpSetstat : Z := 9.
Definition FxpFsetstat : Z := 10.
Definition FxpOpendir : Z := 11.
Definition FxpReaddir : Z := 12.
Definition FxpRemove : Z := 13.
Definition FxpMkdir : Z := 14.
Definition FxpRmdir : Z := 15.
Definition FxpRealpath : Z := 16.
Definition FxpStat : Z := 17.
Definition FxpRename : Z := 18.
Definition FxpReadlink : Z := 19.
Definition FxpSymlink : Z := 20.
Definition FxpStatus : Z := 101.
Definition FxpHandle : Z := 102.
Definition FxpData : Z := 103.
Definition FxpName : Z := 104.
Definition FxpAttrs : Z := 105.
Definition FxpExtended : Z := 200.
Definition FxpExtendedReply : Z := 201.

(** * Status codes: [wire.Status], a [uint32] *)

Definition StatusOK : Z := 0.
Definition StatusEOF : Z := 1.
Definition StatusNoSuchFile : Z := 2.
Definition StatusPermissionDenied : Z := 3.
Definition StatusFailure : Z := 4.
Definition StatusBadMessage : Z := 5.
Definition StatusNoConnection : Z := 6.
Definition StatusConnectionLost : Z := 7.
Definition StatusOpUnsupported : Z := 8.

(** The rendering of a status for logs. *)
Definition Status_String (s : Z) : bytes :=
  if s =? StatusOK then str "SSH_FX_OK"
  else if s =? StatusEOF then str "SSH_FX_EOF"
  else if s =? StatusNoSuchFile then str "SSH_FX_NO_SUCH_FILE"
  else if s =? StatusPermissionDenied then str "SSH_FX_PERMISSION_DENIED"
  else if s =? StatusFailure then str "SSH_FX_FAILURE"
  else if s =? StatusBadMessage then str "SSH_FX_BAD_MESSAGE"
  else if s =? StatusNoConnection then str "SSH_FX_NO_CONNECTION"
  else if s =? StatusConnectionLost then str "SSH_FX_CONNECTION_LOST"
  else if s =? StatusOpUnsupported then str "SSH_FX_OP_UNSUPPORTED"
  else str "SSH_FX_UNKNOWN".

(** * Open flags *)

Definition FxfRead : Z := 0x01.
Definition FxfWrite : Z := 0x02.
Definition FxfAppend : Z := 0x04.
Definition FxfCreat : Z := 0x08.
Definition FxfTrunc : Z := 0x10.
Definition FxfExcl : Z := 0x20.

(** * Attribute presence flags *)

Definition AttrSize : Z := 0x00000001.
Definition AttrUIDGID : Z := 0x00000002.
Definition AttrPermissions : Z := 0x00000004.
Definition AttrACModTime : Z := 0x00000008.
Definition AttrExtended : Z := 0x80000000.

(** * POSIX mode bits

    Octal in the source; one hexadecimal digit is the type nibble. *)

Definition ModeFmt : Z := 0xF000.
Definition ModeFifo : Z := 0x1000.
Definition ModeChar : Z := 0x2000.
Definition ModeDir : Z := 0x4000.
Definition ModeBlock : Z := 0x6000.
Definition ModeReg : Z := 0x8000.
Definition ModeLink : Z := 0xA000.
Definition ModeSock : Z := 0xC000.
Definition ModePerm : Z := 0xFFF.
