(* ===== verification/Attrs.v ===== *)
(** The ATTRS structure: [src/wire/attrs.go]. *)

From S2P Require Import Prelude Codec Const.

(** One vendor-extension attribute. *)
Record ExtendedPair := { ep_Type : bytes; ep_Data : bytes }.

Record Attributes := {
  aFlags : Z;
  aSize : Z;
  aUID : Z;
  aGID : Z;
  aPermissions : Z;
  aAtime : Z;
  aMtime : Z;
  aExtended : list ExtendedPair
}.

#[export] Instance ExtendedPair_eq_dec : EqDecision ExtendedPair.
Proof. solve_decision. Defined.
#[export] Instance Attributes_eq_dec : EqDecision Attributes.
Proof. solve_decision. Defined.

(** The zero value [Attributes{}]. *)
Definition zero_Attributes : Attributes :=
  {| aFlags := 0; aSize := 0; aUID := 0; aGID := 0; aPermissions := 0;
     aAtime := 0; aMtime := 0; aExtended := [] |}.

Definition IsDir (a : Attributes) : bool :=
  has (aFlags a) AttrPermissions && (Z.land (aPermissions a) ModeFmt =? ModeDir).

Definition IsLink (a : Attributes) : bool :=
  has (aFlags a) AttrPermissions && (Z.land (aPermissions a) ModeFmt =? ModeLink).

(** [e.String(p.Type); e.String(p.Data)]. *)
Definition encode_pair (p : ExtendedPair) (e : Encoder) : Encoder :=
  e |> Encoder_String (ep_Type p) |> Encoder_String (ep_Data p).

(** [for _, p := range ps { e.String(p.Type); e.String(p.Data) }]. *)
Definition encode_pairs (ps : list ExtendedPair) (e : Encoder) : Encoder :=
  fold_left (fun e p => encode_pair p e) ps e.

Definition Attributes_Encode (a : Attributes) (e : Encoder) : Encoder :=
  let e := e |> Encoder_Uint32 (aFlags a) in
  let e := if has (aFlags a) AttrSize then e |> Encoder_Uint64 (aSize a) else e in
  let e := if has (aFlags a) AttrUIDGID
           then e |> Encoder_Uint32 (aUID a) |> Encoder_Uint32 (aGID a) else e in
  let e := if has (aFlags a) AttrPermissions
           then e |> Encoder_Uint32 (aPermissions a) else e in
  let e := if has (aFlags a) AttrACModTime
           then e |> Encoder_Uint32 (aAtime a) |> Encoder_Uint32 (aMtime a) else e in
  if has (aFlags a) AttrExtended
  then e |> Encoder_Uint32 (uint32 (len (aExtended a))) |> encode_pairs (aExtended a)
  else e.

Definition maxExtendedPairs : Z := 64.

(** One iteration of the extension loops. *)
Definition decode_pair : dec ExtendedPair :=
  t ← Decoder_String;
  v ← Decoder_String;
  mret {| ep_Type := t; ep_Data := v |}.

(** [for range n { ... append(...) }]. *)
Fixpoint decode_pairs (n : nat) : dec (list ExtendedPair) :=
  match n with
  | O => mret []
  | S n =>
      p ← decode_pair;
      ps ← decode_pairs n;
      mret (p :: ps)
  end.

(** A field read only when its flag is set, the zero value otherwise. *)
Definition when_flag {A} (b : bool) (m : dec A) (zero : A) : dec A :=
  if b then m else mret zero.

Definition DecodeAttributes : dec Attributes :=
  flags ← Decoder_Uint32;
  size ← when_flag (has flags AttrSize) Decoder_Uint64 0;
  uid ← when_flag (has flags AttrUIDGID) Decoder_Uint32 0;
  gid ← when_flag (has flags AttrUIDGID) Decoder_Uint32 0;
  perms ← when_flag (has flags AttrPermissions) Decoder_Uint32 0;
  atime ← when_flag (has flags AttrACModTime) Decoder_Uint32 0;
  mtime ← when_flag (has flags AttrACModTime) Decoder_Uint32 0;
  ext ← when_flag (has flags AttrExtended)
    (n ← Decoder_Uint32;
     if n >? maxExtendedPairs then dec_fail ErrLimit
     else decode_pairs (Z.to_nat n)) [];
  mret {| aFlags := flags; aSize := size; aUID := uid; aGID := gid;
          aPermissions := perms; aAtime := atime; aMtime := mtime; aExtended := ext |}.

(** * Well-formed attributes: what the codec represents faithfully *)

Definition pair_wf (p : ExtendedPair) : Prop := str_wf (ep_Type p) /\ str_wf (ep_Data p).

(** A field is in range, and zero when its flag does not announce it. *)
Definition opt_u32 (b : bool) (v : Z) : Prop := if b then u32 v else v = 0.

Record attrs_wf (a : Attributes) : Prop := {
  wf_flags : u32 (aFlags a);
  wf_size : if has (aFlags a) AttrSize then u64 (aSize a) else aSize a = 0;
  wf_uid : opt_u32 (has (aFlags a) AttrUIDGID) (aUID a);
  wf_gid : opt_u32 (has (aFlags a) AttrUIDGID) (aGID a);
  wf_perm : opt_u32 (has (aFlags a) AttrPermissions) (aPermissions a);
  wf_atime : opt_u32 (has (aFlags a) AttrACModTime) (aAtime a);
  wf_mtime : opt_u32 (has (aFlags a) AttrACModTime) (aMtime a);
  wf_ext : if has (aFlags a) AttrExtended
           then len (aExtended a) <= maxExtendedPairs /\ Forall pair_wf (aExtended a)
           else aExtended a = []
}.

(** * The bytes of an ATTRS structure *)

Definition wire_pair (p : ExtendedPair) : bytes :=
  wire_string (ep_Type p) ++ wire_string (ep_Data p).

Definition wire_pairs (ps : list ExtendedPair) : bytes := concat (map wire_pair ps).

Definition wire_when (b : bool) (x : bytes) : bytes := if b then x else [].

Definition wire_attrs (a : Attributes) : bytes :=
  be32 (aFlags a) ++
  wire_when (has (aFlags a) AttrSize) (be64 (aSize a)) ++
  wire_when (has (aFlags a) AttrUIDGID) (be32 (aUID a)) ++
  wire_when (has (aFlags a) AttrUIDGID) (be32 (aGID a)) ++
  wire_when (has (aFlags a) AttrPermissions) (be32 (aPermissions a)) ++
  wire_when (has (aFlags a) AttrACModTime) (be32 (aAtime a)) ++
  wire_when (has (aFlags a) AttrACModTime) (be32 (aMtime a)) ++
  wire_when (has (aFlags a) AttrExtended)
    (be32 (len (aExtended a)) ++ wire_pairs (aExtended a)).

#[global] Arguments wire_pair : simpl never.

(** ** What encoding appends *)

Lemma str_wf_u32 {s} : str_wf s -> u32 (len s).
Proof.
  unfold str_wf. rewrite DefaultLimit_val. pose proof (len_nonneg s).
  unfold u32. lia.
Qed.

Lemma Encoder_append_append x y e :
  Encoder_append y (Encoder_append x e) = Encoder_append (x ++ y) e.
Proof. unfold Encoder_append; simpl. by rewrite app_assoc. Qed.

Lemma Encoder_append_nil e : Encoder_append [] e = e.
Proof. unfold Encoder_append. rewrite app_nil_r. by destruct e. Qed.

Lemma Encoder_String_wire s e :
  str_wf s -> Encoder_String s e = Encoder_append (wire_string s) e.
Proof.
  intros H. unfold Encoder_String, Encoder_Uint32.
  by rewrite Encoder_append_append, uint32_id by by apply str_wf_u32.
Qed.

Lemma Encoder_Blob_wire s e :
  str_wf s -> Encoder_Blob s e = Encoder_append (wire_string s) e.
Proof. apply Encoder_String_wire. Qed.

Lemma encode_pair_wire p e :
  pair_wf p -> encode_pair p e = Encoder_append (wire_pair p) e.
Proof.
  intros [??]. unfold encode_pair.
  by rewrite !Encoder_String_wire, Encoder_append_append.
Qed.

Lemma encode_pairs_wire ps e :
  Forall pair_wf ps -> encode_pairs ps e = Encoder_append (wire_pairs ps) e.
Proof.
  intros H. revert e. induction H as [|p ps Hp _ IH]; intros e; simpl.
  { by rewrite Encoder_append_nil. }
  unfold encode_pairs in *. simpl. rewrite encode_pair_wire, IH by done.
  by rewrite Encoder_append_append.
Qed.

Lemma append_when (b : bool) x e :
  (if b then Encoder_append x e else e) = Encoder_append (wire_when b x) e.
Proof. destruct b; simpl; [done|by rewrite Encoder_append_nil]. Qed.

Lemma append_when2 (b : bool) x y e :
  (if b then Encoder_append y (Encoder_append x e) else e) =
  Encoder_append (wire_when b y) (Encoder_append (wire_when b x) e).
Proof. destruct b; simpl; [done|by rewrite !Encoder_append_nil]. Qed.

Lemma Attributes_Encode_wire a e :
  attrs_wf a -> Attributes_Encode a e = Encoder_append (wire_attrs a) e.
Proof.
  intros H. unfold Attributes_Encode, Encoder_Uint32, Encoder_Uint64.
  rewrite !append_when2, !append_when.
  unfold wire_attrs. rewrite <- !Encoder_append_append.
  pose proof (wf_ext _ H) as Hx.
  destruct (has (aFlags a) AttrExtended); simpl; [|by rewrite Encoder_append_nil].
  destruct Hx as [Hn Hx]. rewrite encode_pairs_wire by done.
  rewrite uint32_id by (unfold u32, maxExtendedPairs in *; pose proof (len_nonneg (aExtended a)); lia).
  by rewrite Encoder_append_append.
Qed.

(** ** Decoding *)

Lemma decodes_when {A} (b : bool) (m : dec A) zero x a :
  (if b then decodes m x a else a = zero) ->
  decodes (when_flag b m zero) (wire_when b x) a.
Proof. destruct b; simpl; [done|]. intros ->. apply decodes_ret. Qed.

Lemma sound_when {A} (b : bool) (m : dec A) zero W :
  sound m W ->
  sound (when_flag b m zero)
    (fun (a : A) (x : bytes) => if b then W a x else a = zero /\ x = []).
Proof. destruct b; simpl; [done|]. intros _. by apply sound_ret. Qed.

Lemma decodes_pair p : pair_wf p -> decodes decode_pair (wire_pair p) p.
Proof.
  intros [??]. unfold wire_pair.
  eapply decodes_bind; [by apply decodes_String|].
  rewrite <- (app_nil_r (wire_string _)).
  eapply decodes_bind; [by apply decodes_String|]. destruct p; apply decodes_ret.
Qed.

Lemma sound_pair : sound decode_pair (fun p x => pair_wf p /\ x = wire_pair p).
Proof.
  eapply sound_bind; [apply sound_String|]. intros t x [? ->].
  eapply sound_bind; [apply sound_String|]. intros v y [? ->].
  apply sound_ret. rewrite app_nil_r. done.
Qed.

Lemma decodes_pairs ps :
  Forall pair_wf ps -> decodes (decode_pairs (length ps)) (wire_pairs ps) ps.
Proof.
  induction 1 as [|p ps Hp _ IH]; cbn [decode_pairs length]; [apply decodes_ret|].
  unfold wire_pairs; cbn [concat map]. eapply decodes_bind; [by apply decodes_pair|].
  rewrite <- (app_nil_r (concat _)).
  eapply decodes_bind; [apply IH|apply decodes_ret].
Qed.

Lemma sound_pairs n :
  sound (decode_pairs n)
    (fun ps x => length ps = n /\ Forall pair_wf ps /\ x = wire_pairs ps).
Proof.
  induction n as [|n IH]; cbn [decode_pairs]; [by apply sound_ret|].
  eapply sound_bind; [apply sound_pair|]. intros p x [Hp ->].
  eapply sound_bind; [apply IH|]. intros ps y (Hn & Hps & ->).
  apply sound_ret. rewrite app_nil_r. simpl. auto.
Qed.

Lemma decodes_ext ps :
  len ps <= maxExtendedPairs -> Forall pair_wf ps ->
  decodes (n ← Decoder_Uint32;
           if n >? maxExtendedPairs then dec_fail ErrLimit
           else decode_pairs (Z.to_nat n))
    (be32 (len ps) ++ wire_pairs ps) ps.
Proof.
  intros Hn Hps. pose proof (len_nonneg ps). unfold maxExtendedPairs in *.
  eapply decodes_bind; [apply decodes_Uint32; unfold u32; lia|].
  rewrite Z.gtb_ltb, (proj2 (Z.ltb_ge _ _)) by lia.
  unfold len. rewrite Nat2Z.id. by apply decodes_pairs.
Qed.

Lemma sound_ext :
  sound (n ← Decoder_Uint32;
         if n >? maxExtendedPairs then dec_fail ErrLimit
         else decode_pairs (Z.to_nat n))
    (fun ps x => len ps <= maxExtendedPairs /\ Forall pair_wf ps /\
                 x = be32 (len ps) ++ wire_pairs ps).
Proof.
  eapply sound_bind; [apply sound_Uint32|]. intros n x [[Hn0 Hn] ->].
  case_if; [apply sound_fail|].
  eapply sound_weaken; [apply sound_pairs|]. intros ps y (Hl & Hps & ->).
  assert (len ps = n) as -> by (unfold len; lia). done.
Qed.

Lemma decodes_attrs a : attrs_wf a -> decodes DecodeAttributes (wire_attrs a) a.
Proof.
  intros []. unfold wire_attrs, opt_u32 in *.
  repeat (eapply decodes_bind;
    [first [by apply decodes_Uint32
           |apply decodes_when; case_if; auto with go]|]).
  rewrite <- (app_nil_r (wire_when _ (_ ++ _))).
  eapply decodes_bind.
  - apply decodes_when. case_if; [|done]. destruct wf_ext0. by apply decodes_ext.
  - destruct a; apply decodes_ret.
Qed.

Lemma sound_attrs : sound DecodeAttributes (fun a x => attrs_wf a /\ x = wire_attrs a).
Proof.
  eapply sound_bind; [apply sound_Uint32|]. intros flags x [Hf ->].
  do 6 (eapply sound_bind;
    [apply sound_when; first [apply sound_Uint32|apply sound_Uint64]|]; intros).
  eapply sound_bind; [apply sound_when, sound_ext|]. intros.
  apply sound_ret. rewrite app_nil_r. split.
  - split; simpl; unfold opt_u32; try case_if; destruct_and?; auto.
  - unfold wire_attrs, wire_when; simpl.
    repeat case_if; destruct_and!; subst; by rewrite ?app_nil_l.
Qed.

#[export] Hint Resolve decodes_attrs : go.
