(* ===== verification/Messages.v ===== *)
(** The SFTP version 3 messages: [src/wire/messages.go].

    One record per Go struct, with its [Type], its [EncodePayload] and its
    decoder; the Go interface [Message] is the class [Message]. The value a
    decoder returns beside a non-nil error is never read by its callers and is
    not part of the model: a decoder returns the message or the error. *)

From S2P Require Import Prelude Codec Const Attrs.

(** [wire.Message]: a packet type and a payload writer. *)
Class Message (M : Type) := {
  msg_Type : M -> Z;
  EncodePayload : M -> Encoder -> Encoder
}.

(** The payload [Send] frames: a fresh encoder run through [EncodePayload]. *)
Definition payload_of `{Message M} (m : M) : bytes :=
  Encoder_Bytes (EncodePayload m NewEncoder).

(** * Session start *)

Record InitRequest := { init_Version : Z; init_Extensions : list ExtendedPair }.

#[export] Instance InitRequest_Message : Message InitRequest := {
  msg_Type _ := FxpInit;
  EncodePayload m e :=
    e |> Encoder_Uint32 (init_Version m) |> encode_pairs (init_Extensions m)
}.

(** The loop of [DecodeInit], [for d.Remaining() > 0]; [acc] is
    [m.Extensions]. Each iteration that goes on consumes at least eight bytes
    and adds one pair, so [fuel] iterations are enough as soon as [fuel]
    exceeds [maxExtendedPairs]; running out of it is reported as [Panic], which
    [DecodeInit_no_panic] excludes. *)
Fixpoint decode_init_loop (fuel : nat) (acc : list ExtendedPair) : dec (list ExtendedPair) :=
  d ← dec_get;
  if Remaining d >? 0 then
    match fuel with
    | O => dec_lift Panic
    | S fuel =>
        if len acc >=? maxExtendedPairs then dec_fail ErrLimit
        else
          t ← Decoder_String;
          v ← Decoder_String;
          decode_init_loop fuel (acc ++ [{| ep_Type := t; ep_Data := v |}])
    end
  else mret acc.

Definition init_fuel : nat := 66.

Definition DecodeInit (payload : bytes) : outcome wire_error InitRequest :=
  run_dec payload (
    version ← Decoder_Uint32;
    exts ← decode_init_loop init_fuel [];
    mret {| init_Version := version; init_Extensions := exts |}).

Record VersionReply := { vr_Version : Z; vr_Extensions : list ExtendedPair }.

#[export] Instance VersionReply_Message : Message VersionReply := {
  msg_Type _ := FxpVersion;
  EncodePayload m e :=
    e |> Encoder_Uint32 (vr_Version m) |> encode_pairs (vr_Extensions m)
}.

Definition DecodeVersion (payload : bytes) : outcome wire_error VersionReply :=
  match DecodeInit payload with
  | Ok m => Ok {| vr_Version := init_Version m; vr_Extensions := init_Extensions m |}
  | Err e => Err e
  | Panic => Panic
  end.

(** * Requests *)

(** An id and a path: LSTAT, STAT, OPENDIR, REMOVE, RMDIR, REALPATH, READLINK. *)
Record PathRequest := {
  pr_PacketType : Z;
  pr_ID : Z;
  pr_Path : bytes
}.

#[export] Instance PathRequest_Message : Message PathRequest := {
  msg_Type m := pr_PacketType m;
  EncodePayload m e :=
    e |> Encoder_Uint32 (pr_ID m) |> Encoder_String (pr_Path m)
}.

Definition DecodePath (typ : Z) (payload : bytes) : outcome wire_error PathRequest :=
  run_dec payload (
    id ← Decoder_Uint32;
    path ← Decoder_String;
    _ ← Decoder_End;
    mret {| pr_PacketType := typ;
            pr_ID := id;
            pr_Path := path |}).

(** An id and a handle: CLOSE, READDIR, FSTAT. *)
Record HandleRequest := {
  hr_PacketType : Z;
  hr_ID : Z;
  hr_Handle : bytes
}.

#[export] Instance HandleRequest_Message : Message HandleRequest := {
  msg_Type m := hr_PacketType m;
  EncodePayload m e :=
    e |> Encoder_Uint32 (hr_ID m) |> Encoder_String (hr_Handle m)
}.

Definition DecodeHandle (typ : Z) (payload : bytes) : outcome wire_error HandleRequest :=
  run_dec payload (
    id ← Decoder_Uint32;
    handle ← Decoder_String;
    _ ← Decoder_End;
    mret {| hr_PacketType := typ;
            hr_ID := id;
            hr_Handle := handle |}).

Record OpenRequest := {
  or_ID : Z;
  or_Path : bytes;
  or_PFlags : Z;
  or_Attrs : Attributes
}.

#[export] Instance OpenRequest_Message : Message OpenRequest := {
  msg_Type m := FxpOpen;
  EncodePayload m e :=
    e |> Encoder_Uint32 (or_ID m) |> Encoder_String (or_Path m) |> Encoder_Uint32 (or_PFlags m) |> Attributes_Encode (or_Attrs m)
}.

Definition DecodeOpen (payload : bytes) : outcome wire_error OpenRequest :=
  run_dec payload (
    id ← Decoder_Uint32;
    path ← Decoder_String;
    pFlags ← Decoder_Uint32;
    attrs ← DecodeAttributes;
    _ ← Decoder_End;
    mret {| or_ID := id;
            or_Path := path;
            or_PFlags := pFlags;
            or_Attrs := attrs |}).

Record ReadRequest := {
  rr_ID : Z;
  rr_Handle : bytes;
  rr_Offset : Z;
  rr_Length : Z
}.

#[export] Instance ReadRequest_Message : Message ReadRequest := {
  msg_Type m := FxpRead;
  EncodePayload m e :=
    e |> Encoder_Uint32 (rr_ID m) |> Encoder_String (rr_Handle m) |> Encoder_Uint64 (rr_Offset m) |> Encoder_Uint32 (rr_Length m)
}.

Definition DecodeRead (payload : bytes) : outcome wire_error ReadRequest :=
  run_dec payload (
    id ← Decoder_Uint32;
    handle ← Decoder_String;
    offset ← Decoder_Uint64;
    length ← Decoder_Uint32;
    _ ← Decoder_End;
    mret {| rr_ID := id;
            rr_Handle := handle;
            rr_Offset := offset;
            rr_Length := length |}).

Record WriteRequest := {
  wr_ID : Z;
  wr_Handle : bytes;
  wr_Offset : Z;
  wr_Data : bytes
}.

#[export] Instance WriteRequest_Message : Message WriteRequest := {
  msg_Type m := FxpWrite;
  EncodePayload m e :=
    e |> Encoder_Uint32 (wr_ID m) |> Encoder_String (wr_Handle m) |> Encoder_Uint64 (wr_Offset m) |> Encoder_Blob (wr_Data m)
}.

Definition DecodeWrite (payload : bytes) : outcome wire_error WriteRequest :=
  run_dec payload (
    id ← Decoder_Uint32;
    handle ← Decoder_String;
    offset ← Decoder_Uint64;
    data ← Decoder_Blob;
    _ ← Decoder_End;
    mret {| wr_ID := id;
            wr_Handle := handle;
            wr_Offset := offset;
            wr_Data := data |}).

(** SETSTAT by path, or MKDIR. *)
Record SetstatRequest := {
  ss_PacketType : Z;
  ss_ID : Z;
  ss_Path : bytes;
  ss_Attrs : Attributes
}.

#[export] Instance SetstatRequest_Message : Message SetstatRequest := {
  msg_Type m := ss_PacketType m;
  EncodePayload m e :=
    e |> Encoder_Uint32 (ss_ID m) |> Encoder_String (ss_Path m) |> Attributes_Encode (ss_Attrs m)
}.

Definition DecodeSetstat (typ : Z) (payload : bytes) : outcome wire_error SetstatRequest :=
  run_dec payload (
    id ← Decoder_Uint32;
    path ← Decoder_String;
    attrs ← DecodeAttributes;
    _ ← Decoder_End;
    mret {| ss_PacketType := typ;
            ss_ID := id;
            ss_Path := path;
            ss_Attrs := attrs |}).

Record FsetstatRequest := {
  fs_ID : Z;
  fs_Handle : bytes;
  fs_Attrs : Attributes
}.

#[export] Instance FsetstatRequest_Message : Message FsetstatRequest := {
  msg_Type m := FxpFsetstat;
  EncodePayload m e :=
    e |> Encoder_Uint32 (fs_ID m) |> Encoder_String (fs_Handle m) |> Attributes_Encode (fs_Attrs m)
}.

Definition DecodeFsetstat (payload : bytes) : outcome wire_error FsetstatRequest :=
  run_dec payload (
    id ← Decoder_Uint32;
    handle ← Decoder_String;
    attrs ← DecodeAttributes;
    _ ← Decoder_End;
    mret {| fs_ID := id;
            fs_Handle := handle;
            fs_Attrs := attrs |}).

Record RenameRequest := {
  rn_ID : Z;
  rn_OldPath : bytes;
  rn_NewPath : bytes
}.

#[export] Instance RenameRequest_Message : Message RenameRequest := {
  msg_Type m := FxpRename;
  EncodePayload m e :=
    e |> Encoder_Uint32 (rn_ID m) |> Encoder_String (rn_OldPath m) |> Encoder_String (rn_NewPath m)
}.

Definition DecodeRename (payload : bytes) : outcome wire_error RenameRequest :=
  run_dec payload (
    id ← Decoder_Uint32;
    oldPath ← Decoder_String;
    newPath ← Decoder_String;
    _ ← Decoder_End;
    mret {| rn_ID := id;
            rn_OldPath := oldPath;
            rn_NewPath := newPath |}).

(** Target first, then link: the order OpenSSH sends. *)
Record SymlinkRequest := {
  sl_ID : Z;
  sl_TargetPath : bytes;
  sl_LinkPath : bytes
}.

#[export] Instance SymlinkRequest_Message : Message SymlinkRequest := {
  msg_Type m := FxpSymlink;
  EncodePayload m e :=
    e |> Encoder_Uint32 (sl_ID m) |> Encoder_String (sl_TargetPath m) |> Encoder_String (sl_LinkPath m)
}.

Definition DecodeSymlink (payload : bytes) : outcome wire_error SymlinkRequest :=
  run_dec payload (
    id ← Decoder_Uint32;
    targetPath ← Decoder_String;
    linkPath ← Decoder_String;
    _ ← Decoder_End;
    mret {| sl_ID := id;
            sl_TargetPath := targetPath;
            sl_LinkPath := linkPath |}).

Record ExtendedRequest := {
  er_ID : Z;
  er_Name : bytes;
  er_Data : bytes
}.

#[export] Instance ExtendedRequest_Message : Message ExtendedRequest := {
  msg_Type m := FxpExtended;
  EncodePayload m e :=
    e |> Encoder_Uint32 (er_ID m) |> Encoder_String (er_Name m) |> Encoder_append (er_Data m)
}.

Definition DecodeExtended (payload : bytes) : outcome wire_error ExtendedRequest :=
  run_dec payload (
    id ← Decoder_Uint32;
    name ← Decoder_String;
    data ← Decoder_Raw;
    mret {| er_ID := id;
            er_Name := name;
            er_Data := data |}).

(** * Replies *)

Record StatusReply := {
  st_ID : Z;
  st_Code : Z;
  st_Message : bytes;
  st_Lang : bytes
}.

#[export] Instance StatusReply_Message : Message StatusReply := {
  msg_Type m := FxpStatus;
  EncodePayload m e :=
    e |> Encoder_Uint32 (st_ID m) |> Encoder_Uint32 (st_Code m)
      |> Encoder_String (st_Message m) |> Encoder_String (st_Lang m)
}.

(** A payload that ends after the code, or after the message, is accepted. *)
Definition DecodeStatus (payload : bytes) : outcome wire_error StatusReply :=
  run_dec payload (
    id ← Decoder_Uint32;
    code ← Decoder_Uint32;
    d ← dec_get;
    if Remaining d =? 0 then
      mret {| st_ID := id; st_Code := code; st_Message := []; st_Lang := [] |}
    else
      message ← Decoder_String;
      d ← dec_get;
      if Remaining d =? 0 then
        mret {| st_ID := id; st_Code := code; st_Message := message; st_Lang := [] |}
      else
        lang ← Decoder_String;
        _ ← Decoder_End;
        mret {| st_ID := id; st_Code := code; st_Message := message; st_Lang := lang |}).

Record HandleReply := {
  hp_ID : Z;
  hp_Handle : bytes
}.

#[export] Instance HandleReply_Message : Message HandleReply := {
  msg_Type m := FxpHandle;
  EncodePayload m e :=
    e |> Encoder_Uint32 (hp_ID m) |> Encoder_String (hp_Handle m)
}.

Definition DecodeHandleReply (payload : bytes) : outcome wire_error HandleReply :=
  run_dec payload (
    id ← Decoder_Uint32;
    handle ← Decoder_String;
    _ ← Decoder_End;
    mret {| hp_ID := id;
            hp_Handle := handle |}).

Record DataReply := {
  dr_ID : Z;
  dr_Data : bytes
}.

#[export] Instance DataReply_Message : Message DataReply := {
  msg_Type m := FxpData;
  EncodePayload m e :=
    e |> Encoder_Uint32 (dr_ID m) |> Encoder_Blob (dr_Data m)
}.

Definition DecodeData (payload : bytes) : outcome wire_error DataReply :=
  run_dec payload (
    id ← Decoder_Uint32;
    data ← Decoder_Blob;
    _ ← Decoder_End;
    mret {| dr_ID := id;
            dr_Data := data |}).

Record NameItem := {
  ni_Filename : bytes;
  ni_Longname : bytes;
  ni_Attrs : Attributes
}.

Record NameReply := { nr_ID : Z; nr_Items : list NameItem }.

(** The body of the loop of [NameReply.EncodePayload]. *)
Definition encode_item (it : NameItem) (e : Encoder) : Encoder :=
  e |> Encoder_String (ni_Filename it) |> Encoder_String (ni_Longname it)
    |> Attributes_Encode (ni_Attrs it).

#[export] Instance NameReply_Message : Message NameReply := {
  msg_Type m := FxpName;
  EncodePayload m e :=
    e |> Encoder_Uint32 (nr_ID m) |> Encoder_Uint32 (uint32 (len (nr_Items m)))
      |> (fun e => fold_left (fun e it => encode_item it e) (nr_Items m) e)
}.

Definition maxNameItems : Z := Z.shiftl 1 16.

(** One iteration of the loop of [DecodeName]. *)
Definition decode_item : dec NameItem :=
  filename ← Decoder_String;
  longname ← Decoder_String;
  attrs ← DecodeAttributes;
  mret {| ni_Filename := filename; ni_Longname := longname; ni_Attrs := attrs |}.

(** [for range n { ... append(...) }]. *)
Fixpoint decode_items (n : nat) : dec (list NameItem) :=
  match n with
  | O => mret []
  | S n =>
      it ← decode_item;
      its ← decode_items n;
      mret (it :: its)
  end.

Definition DecodeName (payload : bytes) : outcome wire_error NameReply :=
  run_dec payload (
    id ← Decoder_Uint32;
    n ← Decoder_Uint32;
    items ← (if n >? maxNameItems then dec_fail ErrLimit
             else decode_items (Z.to_nat n));
    _ ← Decoder_End;
    mret {| nr_ID := id; nr_Items := items |}).

Record AttrsReply := {
  ar_ID : Z;
  ar_Attrs : Attributes
}.

#[export] Instance AttrsReply_Message : Message AttrsReply := {
  msg_Type m := FxpAttrs;
  EncodePayload m e :=
    e |> Encoder_Uint32 (ar_ID m) |> Attributes_Encode (ar_Attrs m)
}.

Definition DecodeAttrs (payload : bytes) : outcome wire_error AttrsReply :=
  run_dec payload (
    id ← Decoder_Uint32;
    attrs ← DecodeAttributes;
    _ ← Decoder_End;
    mret {| ar_ID := id;
            ar_Attrs := attrs |}).

Record ExtendedReply := {
  xr_ID : Z;
  xr_Data : bytes
}.

#[export] Instance ExtendedReply_Message : Message ExtendedReply := {
  msg_Type m := FxpExtendedReply;
  EncodePayload m e :=
    e |> Encoder_Uint32 (xr_ID m) |> Encoder_append (xr_Data m)
}.

Definition DecodeExtendedReply (payload : bytes) : outcome wire_error ExtendedReply :=
  run_dec payload (
    id ← Decoder_Uint32;
    data ← Decoder_Raw;
    mret {| xr_ID := id;
            xr_Data := data |}).
