(* ===== verification/WireLaws.v ===== *)
(** The wire codec as a bijection.

    For every message of [Messages.v]: a decoder applied to an encoded message
    gives the message back, a payload a decoder accepts is exactly the
    encoding of the message it returns, and no decoder panics. The laws are
    stated once, as the class [Codec], and instantiated message by message. *)

From S2P Require Import Prelude Codec Const Attrs Messages.

(** What the codec of one message promises to the layers above it.
    [decode_msg typ p] is the decoder applied to a packet of type [typ]. *)
Class Codec (M : Type) `{Message M}
    (decode_msg : Z -> bytes -> outcome wire_error M) (msg_wf : M -> Prop) : Prop := {
  decode_encode : forall m, msg_wf m -> decode_msg (msg_Type m) (payload_of m) = Ok m;
  encode_decode : forall typ p m,
    decode_msg typ p = Ok m -> msg_wf m /\ payload_of m = p;
  decode_no_panic : forall typ p, decode_msg typ p <> Panic
}.

(** * Well-formed messages *)

Definition pr_wf (m : PathRequest) : Prop := u32 (pr_ID m) /\ str_wf (pr_Path m).
Definition hr_wf (m : HandleRequest) : Prop := u32 (hr_ID m) /\ str_wf (hr_Handle m).
Definition or_wf (m : OpenRequest) : Prop :=
  u32 (or_ID m) /\ str_wf (or_Path m) /\ u32 (or_PFlags m) /\ attrs_wf (or_Attrs m).
Definition rr_wf (m : ReadRequest) : Prop :=
  u32 (rr_ID m) /\ str_wf (rr_Handle m) /\ u64 (rr_Offset m) /\ u32 (rr_Length m).
Definition wr_wf (m : WriteRequest) : Prop :=
  u32 (wr_ID m) /\ str_wf (wr_Handle m) /\ u64 (wr_Offset m) /\ str_wf (wr_Data m).
Definition ss_wf (m : SetstatRequest) : Prop :=
  u32 (ss_ID m) /\ str_wf (ss_Path m) /\ attrs_wf (ss_Attrs m).
Definition fs_wf (m : FsetstatRequest) : Prop :=
  u32 (fs_ID m) /\ str_wf (fs_Handle m) /\ attrs_wf (fs_Attrs m).
Definition rn_wf (m : RenameRequest) : Prop :=
  u32 (rn_ID m) /\ str_wf (rn_OldPath m) /\ str_wf (rn_NewPath m).
Definition sl_wf (m : SymlinkRequest) : Prop :=
  u32 (sl_ID m) /\ str_wf (sl_TargetPath m) /\ str_wf (sl_LinkPath m).
Definition er_wf (m : ExtendedRequest) : Prop := u32 (er_ID m) /\ str_wf (er_Name m).
Definition hp_wf (m : HandleReply) : Prop := u32 (hp_ID m) /\ str_wf (hp_Handle m).
Definition dr_wf (m : DataReply) : Prop := u32 (dr_ID m) /\ str_wf (dr_Data m).
Definition ar_wf (m : AttrsReply) : Prop := u32 (ar_ID m) /\ attrs_wf (ar_Attrs m).
Definition xr_wf (m : ExtendedReply) : Prop := u32 (xr_ID m).
Definition st_wf (m : StatusReply) : Prop :=
  u32 (st_ID m) /\ u32 (st_Code m) /\ str_wf (st_Message m) /\ str_wf (st_Lang m).
Definition item_wf (it : NameItem) : Prop :=
  str_wf (ni_Filename it) /\ str_wf (ni_Longname it) /\ attrs_wf (ni_Attrs it).
Definition nr_wf (m : NameReply) : Prop :=
  u32 (nr_ID m) /\ len (nr_Items m) <= maxNameItems /\ Forall item_wf (nr_Items m).
Definition init_wf (m : InitRequest) : Prop :=
  u32 (init_Version m) /\ len (init_Extensions m) <= maxExtendedPairs /\
  Forall pair_wf (init_Extensions m).
Definition vr_wf (m : VersionReply) : Prop :=
  u32 (vr_Version m) /\ len (vr_Extensions m) <= maxExtendedPairs /\
  Forall pair_wf (vr_Extensions m).

(** * Automation *)

Create HintDb wire_wf.
#[export] Hint Unfold pr_wf hr_wf or_wf rr_wf wr_wf ss_wf fs_wf rn_wf sl_wf er_wf
  hp_wf dr_wf ar_wf xr_wf st_wf nr_wf init_wf vr_wf : wire_wf.

Lemma payload_bytes x : Encoder_Bytes (Encoder_append x NewEncoder) = x.
Proof. done. Qed.

Lemma decodes_all_last {A B} (m : dec A) (k : A -> dec B) x a b :
  decodes m x a -> decodes_all (k a) [] b -> decodes_all (m ≫= k) x b.
Proof. intros. rewrite <- (app_nil_r x). by eapply decodes_all_bind. Qed.

(** Normalise an encoder pipeline to the list of bytes it appends. *)
Ltac enc_simpl :=
  unfold payload_of, EncodePayload; simpl;
  unfold Encoder_Uint32, Encoder_Uint64;
  rewrite ?Attributes_Encode_wire, ?Encoder_Blob_wire, ?Encoder_String_wire by done;
  rewrite ?Encoder_append_append, ?payload_bytes, <- ?app_assoc, ?app_nil_r.

(** Run a decoder over the bytes of an encoded message. *)
Ltac decode_step :=
  first
    [ apply decodes_all_end
    | apply decodes_all_Raw
    | eapply decodes_all_bind; [solve [auto with go]|]
    | eapply decodes_all_last; [solve [auto with go]|] ].

(** Run a decoder over arbitrary bytes, collecting what it consumed. *)
Ltac sound_step :=
  first
    [ apply sound_all_end
    | apply sound_all_Raw; intros
    | eapply sound_all_bind;
      [first [apply sound_Uint32|apply sound_Uint64|apply sound_String
             |apply sound_Blob|apply sound_attrs]
      |intros ? ? [? ->]] ].

(** The three laws of a decoder that reads its fields in order and then
    requires an empty remainder. *)
Lemma codec_intro {M} `{Message M} (body : Z -> dec M) (wf : M -> Prop) :
  (forall m, wf m -> decodes_all (body (msg_Type m)) (payload_of m) m) ->
  (forall typ, sound_all (body typ) (fun m p => wf m /\ payload_of m = p)) ->
  Codec M (fun typ p => run_dec p (body typ)) wf.
Proof.
  intros Hc Hs. split; intros.
  - by apply decodes_all_run, Hc.
  - by eapply (sound_all_run _ _ _ (Hs typ)).
  - by eapply (sound_all_run _ _ _ (Hs typ)).
Qed.

Ltac codec :=
  apply codec_intro;
  [ intros [] ?; autounfold with wire_wf in *; simpl in *; repeat match goal with H : _ /\ _ |- _ => destruct H end;
    enc_simpl; repeat decode_step
  | intros; repeat sound_step; (split; [done|]); by enc_simpl ].

#[export] Instance Codec_PathRequest : Codec PathRequest DecodePath pr_wf.
Proof. codec. Qed.
#[export] Instance Codec_HandleRequest : Codec HandleRequest DecodeHandle hr_wf.
Proof. codec. Qed.
#[export] Instance Codec_OpenRequest : Codec OpenRequest (fun _ => DecodeOpen) or_wf.
Proof. codec. Qed.
#[export] Instance Codec_ReadRequest : Codec ReadRequest (fun _ => DecodeRead) rr_wf.
Proof. codec. Qed.
#[export] Instance Codec_WriteRequest : Codec WriteRequest (fun _ => DecodeWrite) wr_wf.
Proof. codec. Qed.
#[export] Instance Codec_SetstatRequest : Codec SetstatRequest DecodeSetstat ss_wf.
Proof. codec. Qed.
#[export] Instance Codec_FsetstatRequest : Codec FsetstatRequest (fun _ => DecodeFsetstat) fs_wf.
Proof. codec. Qed.
#[export] Instance Codec_RenameRequest : Codec RenameRequest (fun _ => DecodeRename) rn_wf.
Proof. codec. Qed.
#[export] Instance Codec_SymlinkRequest : Codec SymlinkRequest (fun _ => DecodeSymlink) sl_wf.
Proof. codec. Qed.
#[export] Instance Codec_ExtendedRequest : Codec ExtendedRequest (fun _ => DecodeExtended) er_wf.
Proof. codec. Qed.
#[export] Instance Codec_HandleReply : Codec HandleReply (fun _ => DecodeHandleReply) hp_wf.
Proof. codec. Qed.
#[export] Instance Codec_DataReply : Codec DataReply (fun _ => DecodeData) dr_wf.
Proof. codec. Qed.
#[export] Instance Codec_AttrsReply : Codec AttrsReply (fun _ => DecodeAttrs) ar_wf.
Proof. codec. Qed.
#[export] Instance Codec_ExtendedReply : Codec ExtendedReply (fun _ => DecodeExtendedReply) xr_wf.
Proof. codec. Qed.

(** ** NAME replies *)

Definition wire_item (it : NameItem) : bytes :=
  wire_string (ni_Filename it) ++ wire_string (ni_Longname it) ++ wire_attrs (ni_Attrs it).

#[global] Arguments wire_item : simpl never.

Lemma encode_item_wire it e :
  item_wf it -> encode_item it e = Encoder_append (wire_item it) e.
Proof.
  intros (? & ? & ?). unfold encode_item, wire_item.
  rewrite Attributes_Encode_wire, !Encoder_String_wire by done.
  by rewrite !Encoder_append_append, <- ?app_assoc.
Qed.

Lemma encode_items_wire its e :
  Forall item_wf its ->
  fold_left (fun e it => encode_item it e) its e =
  Encoder_append (concat (map wire_item its)) e.
Proof.
  intros H. revert e. induction H as [|it its Hi _ IH]; intros e; simpl.
  { by rewrite Encoder_append_nil. }
  by rewrite IH, encode_item_wire, Encoder_append_append.
Qed.

Lemma decodes_item it : item_wf it -> decodes decode_item (wire_item it) it.
Proof.
  intros (? & ? & ?). unfold wire_item.
  do 2 (eapply decodes_bind; [by apply decodes_String|]).
  rewrite <- (app_nil_r (wire_attrs _)).
  eapply decodes_bind; [by apply decodes_attrs|]. destruct it; apply decodes_ret.
Qed.

Lemma sound_item : sound decode_item (fun it x => item_wf it /\ x = wire_item it).
Proof.
  do 2 (eapply sound_bind; [apply sound_String|]; intros ? ? [? ->]).
  eapply sound_bind; [apply sound_attrs|]; intros ? ? [? ->].
  apply sound_ret. by rewrite app_nil_r.
Qed.

Lemma decodes_items its :
  Forall item_wf its ->
  decodes (decode_items (length its)) (concat (map wire_item its)) its.
Proof.
  induction 1 as [|it its Hi _ IH]; cbn [decode_items length]; [apply decodes_ret|].
  cbn [concat map]. eapply decodes_bind; [by apply decodes_item|].
  rewrite <- (app_nil_r (concat _)).
  eapply decodes_bind; [apply IH|apply decodes_ret].
Qed.

Lemma sound_items n :
  sound (decode_items n)
    (fun its x => length its = n /\ Forall item_wf its /\ x = concat (map wire_item its)).
Proof.
  induction n as [|n IH]; cbn [decode_items]; [by apply sound_ret|].
  eapply sound_bind; [apply sound_item|]. intros it x [Hi ->].
  eapply sound_bind; [apply IH|]. intros its y (Hn & Hits & ->).
  apply sound_ret. rewrite app_nil_r. simpl. auto.
Qed.

Lemma maxNameItems_val : maxNameItems = 65536.
Proof. done. Qed.

Lemma payload_NameReply m : nr_wf m ->
  payload_of m =
  be32 (nr_ID m) ++ be32 (len (nr_Items m)) ++ concat (map wire_item (nr_Items m)).
Proof.
  intros (? & Hn & ?). rewrite maxNameItems_val in Hn.
  unfold payload_of; simpl. rewrite encode_items_wire by done.
  pose proof (len_nonneg (nr_Items m)).
  rewrite uint32_id by (unfold u32; lia). unfold Encoder_Uint32.
  by rewrite !Encoder_append_append, payload_bytes, <- ?app_assoc.
Qed.

#[export] Instance Codec_NameReply : Codec NameReply (fun _ => DecodeName) nr_wf.
Proof.
  apply codec_intro.
  - intros m Hm. rewrite payload_NameReply by done. destruct m as [id its].
    destruct Hm as (? & Hn & ?); cbn [nr_ID nr_Items] in *. rewrite maxNameItems_val in Hn.
    pose proof (len_nonneg its).
    eapply decodes_all_bind; [by apply decodes_Uint32|].
    eapply decodes_all_bind; [apply decodes_Uint32; unfold u32; lia|].
    rewrite Z.gtb_ltb, (proj2 (Z.ltb_ge _ _)) by (rewrite maxNameItems_val; lia).
    eapply decodes_all_last; [|apply decodes_all_end].
    unfold len. rewrite Nat2Z.id. by apply decodes_items.
  - intros _. eapply sound_all_bind; [apply sound_Uint32|]. intros id ? [? ->].
    eapply sound_all_bind; [apply sound_Uint32|]. intros n ? [[Hn0 Hn] ->].
    destruct (_ >? _) eqn:E; bool_prop.
    { by apply (sound_all_bind _ _ (fun _ _ => False)); [apply sound_fail|]. }
    eapply sound_all_bind; [apply sound_items|]. intros its y (Hl & ? & ->).
    assert (len its = n) as <- by (unfold len; lia).
    apply sound_all_end. assert (nr_wf {| nr_ID := id; nr_Items := its |}) by done.
    split; [done|]. rewrite payload_NameReply by done. by rewrite app_nil_r.
Qed.

(** ** INIT and VERSION *)

Lemma decode_init_loop_eq fuel acc d r : at_ d r ->
  decode_init_loop fuel acc d =
  if len r >? 0 then
    match fuel with
    | O => (d, Panic)
    | S fuel =>
        if len acc >=? maxExtendedPairs then (d, Err ErrLimit)
        else (p ← decode_pair; decode_init_loop fuel (acc ++ [p])) d
    end
  else (d, Ok acc).
Proof.
  intros H. destruct fuel; cbn [decode_init_loop];
    unfold mbind at 1, dec_bind at 1; cbn [dec_get];
    rewrite (at_Remaining _ _ H); destruct (len r >? 0); try done.
  destruct (_ >=? _); [done|].
  unfold decode_pair, mbind, dec_bind.
  destruct (Decoder_String d) as [d1 [t|?|]]; try done.
  by destruct (Decoder_String d1) as [d2 [v|?|]].
Qed.

Lemma wire_pair_len p : 8 <= len (wire_pair p).
Proof.
  unfold wire_pair, wire_string. autorewrite with len.
  pose proof (len_nonneg (ep_Type p)). pose proof (len_nonneg (ep_Data p)). lia.
Qed.

Lemma decodes_init_loop ps fuel acc :
  (length ps < fuel)%nat -> Forall pair_wf ps ->
  len acc + len ps <= maxExtendedPairs ->
  decodes_all (decode_init_loop fuel acc) (wire_pairs ps) (acc ++ ps).
Proof.
  intros Hf Hps. revert fuel acc Hf. induction Hps as [|p ps Hp _ IH]; intros fuel acc Hf Hl d H;
    rewrite (decode_init_loop_eq _ _ _ _ H).
  { exists d. by rewrite app_nil_r. }
  destruct fuel as [|fuel]; [simpl in Hf; lia|].
  unfold wire_pairs in *; cbn [map concat] in *. rewrite len_app, len_cons in *.
  pose proof (wire_pair_len p). pose proof (len_nonneg (concat (map wire_pair ps))).
  pose proof (len_nonneg ps).
  destruct (_ >? _) eqn:E; bool_prop; [|lia]. clear E.
  destruct (_ >=? _) eqn:E; bool_prop; [lia|].
  destruct (decodes_pair p Hp _ _ H) as (d1 & E1 & Hd1).
  unfold mbind, dec_bind. rewrite E1.
  replace (acc ++ p :: ps) with ((acc ++ [p]) ++ ps) by by rewrite <- app_assoc.
  apply IH; [simpl in Hf; lia|rewrite len_app, len_cons, len_nil; lia|done].
Qed.

Lemma sound_init_loop fuel acc :
  maxExtendedPairs < len acc + Z.of_nat fuel -> len acc <= maxExtendedPairs ->
  sound_all (decode_init_loop fuel acc)
    (fun ps p => exists qs, ps = acc ++ qs /\ len ps <= maxExtendedPairs /\
                            Forall pair_wf qs /\ p = wire_pairs qs).
Proof.
  revert acc. induction fuel as [|fuel IH]; intros acc Hf Ha d r H; [lia|].
  rewrite (decode_init_loop_eq _ _ _ _ H). case_if; simpl.
  2: { exists []. rewrite app_nil_r. split_and!; try done.
       pose proof (len_nonneg r). by apply len_zero; lia. }
  case_if; simpl; [done|].
  pose proof (sound_pair d r H) as Hp. unfold mbind, dec_bind.
  destruct (decode_pair d) as [d1 [p|e|]]; simpl; [|done..].
  destruct Hp as (x & r' & -> & H1 & Hp & ->).
  assert (len (acc ++ [p]) = len acc + 1) as Hacc
    by (rewrite len_app, len_cons, len_nil; lia).
  specialize (IH (acc ++ [p]) ltac:(lia) ltac:(lia) d1 r' H1).
  destruct (snd (decode_init_loop fuel (acc ++ [p]) d1)); try done.
  destruct IH as (qs & -> & ? & ? & ->). exists (p :: qs).
  rewrite <- app_assoc in *. split_and!; try done. by constructor.
Qed.

Lemma payload_InitRequest m : init_wf m ->
  payload_of m = be32 (init_Version m) ++ wire_pairs (init_Extensions m).
Proof.
  intros (? & ? & ?). unfold payload_of; simpl. rewrite encode_pairs_wire by done.
  unfold Encoder_Uint32. by rewrite Encoder_append_append, payload_bytes.
Qed.

#[export] Instance Codec_InitRequest : Codec InitRequest (fun _ => DecodeInit) init_wf.
Proof.
  apply codec_intro.
  - intros m Hm. rewrite payload_InitRequest by done. destruct m as [v exts].
    destruct Hm as (? & Hn & ?); cbn [init_Version init_Extensions] in *.
    eapply decodes_all_bind; [by apply decodes_Uint32|].
    intros d Hd. edestruct (decodes_init_loop exts init_fuel []) as (d' & E); try done.
    { unfold maxExtendedPairs, len, init_fuel in *. lia. }
    exists d'. unfold mbind, dec_bind. by rewrite E.
  - intros _. eapply sound_all_bind; [apply sound_Uint32|]. intros v ? [? ->] d r Hd.
    pose proof (sound_init_loop init_fuel [] ltac:(done) ltac:(done) d r Hd) as HI.
    unfold mbind, dec_bind. destruct (decode_init_loop _ _ d) as [d' [ps|e|]]; try done.
    destruct HI as (qs & -> & ? & ? & ->); simpl in *.
    assert (init_wf {| init_Version := v; init_Extensions := qs |}) by done.
    split; [done|]. by rewrite payload_InitRequest.
Qed.

#[export] Instance Codec_VersionReply : Codec VersionReply (fun _ => DecodeVersion) vr_wf.
Proof.
  split.
  - intros [v exts] ?. unfold DecodeVersion.
    pose proof (decode_encode (Codec:=Codec_InitRequest)
                  {| init_Version := v; init_Extensions := exts |} ltac:(done)) as E.
    change (payload_of {| vr_Version := v; vr_Extensions := exts |})
      with (payload_of {| init_Version := v; init_Extensions := exts |}).
    by rewrite E.
  - intros typ p m. unfold DecodeVersion. destruct (DecodeInit p) as [i|e|] eqn:E; try done.
    intros [= <-]. destruct i as [v exts].
    by apply (encode_decode (Codec:=Codec_InitRequest) 0 p).
  - intros typ p. unfold DecodeVersion.
    pose proof (decode_no_panic (Codec:=Codec_InitRequest) 0 p).
    by destruct (DecodeInit p).
Qed.

(** ** STATUS *)

Lemma DecodeStatus_encode m :
  st_wf m -> DecodeStatus (payload_of m) = Ok m.
Proof.
  destruct m as [id code msg lang]; intros (? & ? & ? & ?); cbn [st_ID st_Code st_Message st_Lang] in *.
  enc_simpl. unfold DecodeStatus. apply decodes_all_run.
  do 2 (eapply decodes_all_bind; [by apply decodes_Uint32|]).
  assert (forall x y, 0 < len (wire_string x ++ y)) as Hpos.
  { intros. unfold wire_string. autorewrite with len.
    pose proof (len_nonneg x). pose proof (len_nonneg y). lia. }
  intros d Hd. unfold mbind at 1, dec_bind at 1; cbn [dec_get].
  rewrite (at_Remaining _ _ Hd). specialize (Hpos msg (wire_string lang)) as Hp.
  destruct (_ =? 0) eqn:E; bool_prop; [lia|]. clear E Hp. revert d Hd.
  change (decodes_all (message ← Decoder_String; d ← dec_get;
    if Remaining d =? 0 then
      mret {| st_ID := id; st_Code := code; st_Message := message; st_Lang := [] |}
    else lang ← Decoder_String; _ ← Decoder_End;
      mret {| st_ID := id; st_Code := code; st_Message := message; st_Lang := lang |})
    (wire_string msg ++ wire_string lang)
    {| st_ID := id; st_Code := code; st_Message := msg; st_Lang := lang |}).
  eapply decodes_all_bind; [by apply decodes_String|].
  intros d Hd. unfold mbind at 1, dec_bind at 1; cbn [dec_get].
  rewrite (at_Remaining _ _ Hd). specialize (Hpos lang []) as Hp. rewrite app_nil_r in Hp.
  destruct (_ =? 0) eqn:E; bool_prop; [lia|]. clear E Hp. revert d Hd.
  eapply decodes_all_last; [by apply decodes_String|apply decodes_all_end].
Qed.

(** The three forms of a status payload [DecodeStatus] accepts: complete, or cut
    after the code or after the message by an older peer. *)
Definition status_forms (m : StatusReply) (p : bytes) : Prop :=
  let head := be32 (st_ID m) ++ be32 (st_Code m) in
  (p = head /\ st_Message m = [] /\ st_Lang m = []) \/
  (p = head ++ wire_string (st_Message m) /\ st_Lang m = []) \/
  p = payload_of m.

(** A test of the remainder, as the source makes it, inside [sound_all]. *)
Lemma sound_all_if_end {B} (m1 m2 : dec B) (W : B -> bytes -> Prop) :
  (forall d, at_ d [] -> match snd (m1 d) with Ok b => W b [] | Err _ => True | Panic => False end) ->
  sound_all m2 W ->
  sound_all (d ← dec_get; if Remaining d =? 0 then m1 else m2) W.
Proof.
  intros H1 H2 d r Hd. unfold mbind, dec_bind; cbn [dec_get].
  rewrite (at_Remaining _ _ Hd). case_if; [|by apply H2].
  destruct (len_zero r) as []; [lia|]. by apply H1.
Qed.

Lemma sound_Status :
  sound_all (id ← Decoder_Uint32; code ← Decoder_Uint32; d ← dec_get;
    if Remaining d =? 0 then
      mret {| st_ID := id; st_Code := code; st_Message := []; st_Lang := [] |}
    else
      message ← Decoder_String; d ← dec_get;
      if Remaining d =? 0 then
        mret {| st_ID := id; st_Code := code; st_Message := message; st_Lang := [] |}
      else
        lang ← Decoder_String; _ ← Decoder_End;
        mret {| st_ID := id; st_Code := code; st_Message := message; st_Lang := lang |})
    (fun m p => st_wf m /\ status_forms m p).
Proof.
  eapply sound_all_bind; [apply sound_Uint32|]. intros id ? [? ->].
  eapply sound_all_bind; [apply sound_Uint32|]. intros code ? [? ->].
  assert (str_wf []) by done.
  apply sound_all_if_end.
  { intros d _. unfold mret, dec_ret; cbn [snd]. split; [done|]. left. by rewrite app_nil_r. }
  eapply sound_all_bind; [apply sound_String|]. intros msg ? [? ->].
  apply sound_all_if_end.
  { intros d _. unfold mret, dec_ret; cbn [snd]. split; [done|]. right; left.
    cbn [st_ID st_Code st_Message st_Lang]. by rewrite app_nil_r, app_assoc. }
  eapply sound_all_bind; [apply sound_String|]. intros lang ? [? ->].
  apply sound_all_end. split; [done|]. right; right. enc_simpl. done.
Qed.

(** * Properties *)

(** C6. Every message round-trips: for each message type, decoding the
    payload its encoder writes gives the message back (for the shared shapes,
    with the packet type it was sent as). *)
Theorem wire_roundtrip :
  (forall m, pr_wf m -> DecodePath (pr_PacketType m) (payload_of m) = Ok m) /\
  (forall m, hr_wf m -> DecodeHandle (hr_PacketType m) (payload_of m) = Ok m) /\
  (forall m, ss_wf m -> DecodeSetstat (ss_PacketType m) (payload_of m) = Ok m) /\
  (forall m, or_wf m -> DecodeOpen (payload_of m) = Ok m) /\
  (forall m, rr_wf m -> DecodeRead (payload_of m) = Ok m) /\
  (forall m, wr_wf m -> DecodeWrite (payload_of m) = Ok m) /\
  (forall m, fs_wf m -> DecodeFsetstat (payload_of m) = Ok m) /\
  (forall m, rn_wf m -> DecodeRename (payload_of m) = Ok m) /\
  (forall m, sl_wf m -> DecodeSymlink (payload_of m) = Ok m) /\
  (forall m, er_wf m -> DecodeExtended (payload_of m) = Ok m) /\
  (forall m, init_wf m -> DecodeInit (payload_of m) = Ok m) /\
  (forall m, vr_wf m -> DecodeVersion (payload_of m) = Ok m) /\
  (forall m, st_wf m -> DecodeStatus (payload_of m) = Ok m) /\
  (forall m, hp_wf m -> DecodeHandleReply (payload_of m) = Ok m) /\
  (forall m, dr_wf m -> DecodeData (payload_of m) = Ok m) /\
  (forall m, nr_wf m -> DecodeName (payload_of m) = Ok m) /\
  (forall m, ar_wf m -> DecodeAttrs (payload_of m) = Ok m) /\
  (forall m, xr_wf m -> DecodeExtendedReply (payload_of m) = Ok m).
Proof.
  split_and!; intros m Hm;
    first [by apply DecodeStatus_encode
          |match type of m with ?M => exact (decode_encode (M:=M) m Hm) end].
Qed.

(** C7. Decoding is canonical: a payload a decoder accepts is, byte for byte,
    the encoding of the (well-formed) message it returns, so two peers cannot
    read the same bytes differently and no byte is ignored. STATUS alone
    accepts, besides the complete form, the two cut forms of older peers. *)
Theorem wire_canonical p :
  (forall t m, DecodePath t p = Ok m -> pr_wf m /\ payload_of m = p) /\
  (forall t m, DecodeHandle t p = Ok m -> hr_wf m /\ payload_of m = p) /\
  (forall t m, DecodeSetstat t p = Ok m -> ss_wf m /\ payload_of m = p) /\
  (forall m, DecodeOpen p = Ok m -> or_wf m /\ payload_of m = p) /\
  (forall m, DecodeRead p = Ok m -> rr_wf m /\ payload_of m = p) /\
  (forall m, DecodeWrite p = Ok m -> wr_wf m /\ payload_of m = p) /\
  (forall m, DecodeFsetstat p = Ok m -> fs_wf m /\ payload_of m = p) /\
  (forall m, DecodeRename p = Ok m -> rn_wf m /\ payload_of m = p) /\
  (forall m, DecodeSymlink p = Ok m -> sl_wf m /\ payload_of m = p) /\
  (forall m, DecodeExtended p = Ok m -> er_wf m /\ payload_of m = p) /\
  (forall m, DecodeInit p = Ok m -> init_wf m /\ payload_of m = p) /\
  (forall m, DecodeVersion p = Ok m -> vr_wf m /\ payload_of m = p) /\
  (forall m, DecodeStatus p = Ok m -> st_wf m /\ status_forms m p) /\
  (forall m, DecodeHandleReply p = Ok m -> hp_wf m /\ payload_of m = p) /\
  (forall m, DecodeData p = Ok m -> dr_wf m /\ payload_of m = p) /\
  (forall m, DecodeName p = Ok m -> nr_wf m /\ payload_of m = p) /\
  (forall m, DecodeAttrs p = Ok m -> ar_wf m /\ payload_of m = p) /\
  (forall m, DecodeExtendedReply p = Ok m -> xr_wf m /\ payload_of m = p).
Proof.
  split_and!;
    try (intros t m Hm; match type of m with ?M => exact (encode_decode (M:=M) t p m Hm) end);
    try (intros m Hm; match type of m with ?M => exact (encode_decode (M:=M) 0 p m Hm) end).
  intros m. apply (sound_all_run _ _ p sound_Status).
Qed.

(** No decoder panics: whatever bytes arrive, every decoder returns a
    message or an error, and every slice expression it evaluates is in range. *)
Theorem decoders_never_panic t p :
  DecodePath t p <> Panic /\ DecodeHandle t p <> Panic /\ DecodeSetstat t p <> Panic /\
  DecodeOpen p <> Panic /\ DecodeRead p <> Panic /\ DecodeWrite p <> Panic /\
  DecodeFsetstat p <> Panic /\ DecodeRename p <> Panic /\ DecodeSymlink p <> Panic /\
  DecodeExtended p <> Panic /\ DecodeInit p <> Panic /\ DecodeVersion p <> Panic /\
  DecodeStatus p <> Panic /\ DecodeHandleReply p <> Panic /\ DecodeData p <> Panic /\
  DecodeName p <> Panic /\ DecodeAttrs p <> Panic /\ DecodeExtendedReply p <> Panic.
Proof.
  split_and!;
    try match goal with |- _ <> @Panic _ ?M => exact (decode_no_panic (M:=M) t p) end.
  apply (sound_all_run _ _ p sound_Status).
Qed.

(** A STAT request for ["/a"]. *)
Definition stat_a : PathRequest := {| pr_PacketType := FxpStat; pr_ID := 7; pr_Path := str "/a" |}.

Lemma wire_roundtrip_witness : DecodePath FxpStat (payload_of stat_a) = Ok stat_a.
Proof. apply (proj1 wire_roundtrip stat_a). vm_compute. split; [split|]; congruence. Defined.

Lemma wire_canonical_witness :
  pr_wf stat_a /\
  payload_of stat_a = [x00; x00; x00; x07; x00; x00; x00; x02; x2f; x61].
Proof.
  apply (proj1 (wire_canonical [x00; x00; x00; x07; x00; x00; x00; x02; x2f; x61]) FxpStat).
  vm_compute. reflexivity.
Defined.
