(* ===== verification/Packet.v ===== *)
(** Packet framing: [src/wire/packet.go], and [Send] of
    [src/wire/messages.go].

    An [io.Reader] is the bytes it will still deliver and the error it then
    reports; how those bytes are split between calls of [Read] is hidden by
    [io.ReadFull]. An [io.Writer] is a state and its [Write] function. A
    buffer that is only recycled is represented by its capacity. *)

From S2P Require Import Prelude Codec Const Attrs Messages.

(** The errors of framing: [io.EOF], [io.ErrUnexpectedEOF], [ErrPacketEmpty],
    [ErrPacketTooLarge], and any other error of the stream. *)
Inductive pkt_error :=
| EOF | ErrUnexpectedEOF | ErrPacketEmpty | ErrPacketTooLarge | ErrStream (code : Z).

#[export] Instance pkt_error_eq_dec : EqDecision pkt_error.
Proof. solve_decision. Defined.

Record Reader := { avail : bytes; fin : pkt_error }.

(** [wire.MaxPacket] = 260 KiB. *)
Definition MaxPacket : Z := Z.shiftl 260 10.

(** [io.ReadFull(r, buf)] with [len(buf) = n]. *)
Definition ReadFull (n : Z) (r : Reader) : Reader * outcome pkt_error bytes :=
  if n <=? len (avail r) then
    ({| avail := drop (Z.to_nat n) (avail r); fin := fin r |},
     Ok (take (Z.to_nat n) (avail r)))
  else
    ({| avail := []; fin := fin r |},
     Err (if 0 <? len (avail r)
          then match fin r with EOF => ErrUnexpectedEOF | e => e end
          else fin r)).

(** What a call of [ReadPacket] gives back: the stream after it, the capacity
    of the buffer to pass in next time, and the packet or the error. *)
Record ReadResult := {
  rp_stream : Reader;
  rp_cap : Z;
  rp_out : outcome pkt_error (Z * bytes)
}.

Definition ReadPacket (r : Reader) (cap : Z) (max : Z) : ReadResult :=
  let max := if max <=? 0 then MaxPacket else max in
  match ReadFull 4 r with
  | (r, Err e) => {| rp_stream := r; rp_cap := cap; rp_out := Err e |}
  | (r, Panic) => {| rp_stream := r; rp_cap := cap; rp_out := Panic |}
  | (r, Ok hdr) =>
    match BigEndian_Uint32 hdr with
    | Err e => {| rp_stream := r; rp_cap := cap; rp_out := Err e |}
    | Panic => {| rp_stream := r; rp_cap := cap; rp_out := Panic |}
    | Ok n =>
      if n =? 0 then {| rp_stream := r; rp_cap := cap; rp_out := Err ErrPacketEmpty |}
      else if n >? max then
        {| rp_stream := r; rp_cap := cap; rp_out := Err ErrPacketTooLarge |}
      else
        let cap := if cap <? n then n else cap in
        match ReadFull n r with
        | (r, Err e) =>
            let e := if decide (e = EOF) then ErrUnexpectedEOF else e in
            {| rp_stream := r; rp_cap := cap; rp_out := Err e |}
        | (r, Panic) => {| rp_stream := r; rp_cap := cap; rp_out := Panic |}
        | (r, Ok body) =>
            {| rp_stream := r; rp_cap := cap;
               rp_out := match body with
                         | b :: payload => Ok (byte_val b, payload)
                         | [] => Panic
                         end |}
        end
    end
  end.

Section writer.
Context {W : Type}.

(** [w.Write(p)]: one call, its effect and its error. *)
Variable Write : bytes -> W -> W * option pkt_error.

(** [WritePacket(w, typ, payload, out)] with the scratch buffer's contents. *)
Definition WritePacket (w : W) (typ : Z) (payload out : bytes) : W * bytes * option pkt_error :=
  let total := 1 + len payload in
  if total >? MaxPacket then (w, out, Some ErrPacketTooLarge)
  else
    let out := be32 (uint32 total) ++ [byte_of typ] ++ payload in
    let '(w, err) := Write out w in
    (w, out, err).

Definition Send `{Message M} (w : W) (m : M) (buf : bytes) : W * bytes * option pkt_error :=
  let e := EncodePayload m NewEncoder in
  WritePacket w (msg_Type m) (Encoder_Bytes e) buf.
End writer.

(** [io.Discard]. *)
Definition Discard (p : bytes) (w : unit) : unit * option pkt_error := (tt, None).

(** The bytes of one packet on the wire. *)
Definition frame_bytes (typ : Z) (payload : bytes) : bytes :=
  be32 (1 + len payload) ++ [byte_of typ] ++ payload.

(** * Lemmas *)

Lemma MaxPacket_val : MaxPacket = 266240.
Proof. done. Qed.

Definition eff_max (max : Z) : Z := if max <=? 0 then MaxPacket else max.

Lemma ReadFull_app x y e :
  ReadFull (len x) {| avail := x ++ y; fin := e |} = ({| avail := y; fin := e |}, Ok x).
Proof.
  unfold ReadFull; simpl. rewrite len_app. pose proof (len_nonneg y).
  rewrite (proj2 (Z.leb_le _ _)) by lia. unfold len. rewrite Nat2Z.id.
  by rewrite drop_app_length, take_app_length.
Qed.

Lemma ReadFull_short n r :
  len (avail r) < n ->
  ReadFull n r = ({| avail := []; fin := fin r |},
     Err (if 0 <? len (avail r)
          then match fin r with EOF => ErrUnexpectedEOF | e => e end
          else fin r)).
Proof. intros. unfold ReadFull. by rewrite (proj2 (Z.leb_gt _ _)). Qed.

(** Reading a header that arrived whole. *)
Lemma ReadPacket_hdr n y e cap max :
  u32 n ->
  ReadPacket {| avail := be32 n ++ y; fin := e |} cap max =
  let r := {| avail := y; fin := e |} in
  if n =? 0 then {| rp_stream := r; rp_cap := cap; rp_out := Err ErrPacketEmpty |}
  else if n >? eff_max max then
    {| rp_stream := r; rp_cap := cap; rp_out := Err ErrPacketTooLarge |}
  else
    let cap := if cap <? n then n else cap in
    match ReadFull n r with
    | (r, Err e) =>
        let e := if decide (e = EOF) then ErrUnexpectedEOF else e in
        {| rp_stream := r; rp_cap := cap; rp_out := Err e |}
    | (r, Panic) => {| rp_stream := r; rp_cap := cap; rp_out := Panic |}
    | (r, Ok body) =>
        {| rp_stream := r; rp_cap := cap;
           rp_out := match body with
                     | b :: payload => Ok (byte_val b, payload)
                     | [] => Panic
                     end |}
    end.
Proof.
  intros Hn. unfold ReadPacket.
  pose proof (ReadFull_app (be32 n) y e) as E. rewrite len_be32 in E. rewrite E.
  rewrite <- (app_nil_r (be32 n)), be32_decode by done. done.
Qed.

(** A whole frame at the head of the stream is read back. *)
Lemma ReadPacket_frame typ payload rest e cap max :
  u8 typ -> u32 (1 + len payload) -> 1 + len payload <= eff_max max ->
  rp_out (ReadPacket {| avail := frame_bytes typ payload ++ rest; fin := e |} cap max) =
    Ok (typ, payload) /\
  rp_stream (ReadPacket {| avail := frame_bytes typ payload ++ rest; fin := e |} cap max) =
    {| avail := rest; fin := e |}.
Proof.
  intros Ht Hu Hx. pose proof (len_nonneg payload).
  unfold frame_bytes. rewrite <- app_assoc, ReadPacket_hdr by done. cbv zeta.
  rewrite (proj2 (Z.eqb_neq _ _)), Z.gtb_ltb, (proj2 (Z.ltb_ge _ _)) by lia.
  pose proof (ReadFull_app ([byte_of typ] ++ payload) rest e) as E.
  rewrite len_app, len_cons, len_nil, Z.add_0_r, <- app_assoc in E. cbn [app] in *. rewrite E.
  simpl. rewrite byte_of_small by done. done.
Qed.

Lemma WritePacket_eq {W} (Write : bytes -> W -> W * option pkt_error) w typ payload out :
  1 + len payload <= MaxPacket ->
  WritePacket Write w typ payload out =
  let '(w, err) := Write (frame_bytes typ payload) w in (w, frame_bytes typ payload, err).
Proof.
  intros Hm. pose proof (len_nonneg payload). rewrite MaxPacket_val in Hm.
  unfold WritePacket. rewrite Z.gtb_ltb, (proj2 (Z.ltb_ge _ _)) by (rewrite MaxPacket_val; lia).
  rewrite uint32_id by (unfold u32; lia). done.
Qed.

(** ** Properties *)

(** Framing round-trips: what [WritePacket] writes (in a single [Write]),
    [ReadPacket] reads back as the same type and payload, leaving the stream
    exactly at the next packet, for every packet both sides accept. *)
Theorem packet_roundtrip typ payload out rest e cap max :
  u8 typ -> 1 + len payload <= MaxPacket -> 1 + len payload <= eff_max max ->
  exists pkt,
    WritePacket (fun p (w : list bytes) => (w ++ [p], None)) [] typ payload out =
      ([pkt], pkt, None) /\
    rp_out (ReadPacket {| avail := pkt ++ rest; fin := e |} cap max) = Ok (typ, payload) /\
    rp_stream (ReadPacket {| avail := pkt ++ rest; fin := e |} cap max) =
      {| avail := rest; fin := e |}.
Proof.
  intros Ht Hm Hx. exists (frame_bytes typ payload). rewrite WritePacket_eq by done.
  split; [done|]. pose proof (len_nonneg payload). rewrite MaxPacket_val in Hm.
  apply ReadPacket_frame; [done|unfold u32; lia|done].
Qed.

Lemma packet_roundtrip_witness :
  exists pkt,
    WritePacket (fun p (w : list bytes) => (w ++ [p], None)) [] FxpStat (str "ab") [] =
      ([pkt], pkt, None) /\
    rp_out (ReadPacket {| avail := pkt ++ str "next"; fin := EOF |} 0 1024) =
      Ok (FxpStat, str "ab") /\
    rp_stream (ReadPacket {| avail := pkt ++ str "next"; fin := EOF |} 0 1024) =
      {| avail := str "next"; fin := EOF |}.
Proof. apply (packet_roundtrip FxpStat (str "ab") [] (str "next") EOF 0 1024); done. Defined.

Lemma ReadPacket_cut typ payload pre post cap max :
  u8 typ -> u32 (1 + len payload) -> 1 + len payload <= eff_max max ->
  frame_bytes typ payload = pre ++ post -> post <> [] ->
  rp_out (ReadPacket {| avail := pre; fin := EOF |} cap max) =
    Err (if decide (pre = []) then EOF else ErrUnexpectedEOF).
Proof.
  intros Ht Hu Hx Hsplit Hpost. pose proof (len_nonneg payload) as Hp.
  destruct (decide (len pre < 4)) as [Hs|Hs].
  { unfold ReadPacket. rewrite ReadFull_short by done. simpl.
    pose proof (len_nonneg pre).
    case_decide as Hd; [by subst|].
    destruct (0 <? len pre) eqn:E; bool_prop; [done|].
    destruct Hd. by apply len_zero; lia. }
  assert (exists body, pre = be32 (1 + len payload) ++ body /\
                       len body < 1 + len payload) as (body & -> & Hb).
  { unfold frame_bytes in Hsplit. exists (drop 4 pre).
    assert (take 4 pre = be32 (1 + len payload)) as Ht4.
    { apply (f_equal (take 4)) in Hsplit. rewrite (take_app_le pre) in Hsplit by (unfold len in Hs; lia).
      by rewrite <- Hsplit. }
    split; [by rewrite <- Ht4, take_drop|].
    apply (f_equal len) in Hsplit. rewrite !len_app, len_be32, len_cons, len_nil in Hsplit.
    assert (len post <> 0) by (intros ?%len_zero; done).
    pose proof (len_nonneg post). unfold len in *. rewrite length_drop. lia. }
  rewrite ReadPacket_hdr by done. cbv zeta.
  rewrite (proj2 (Z.eqb_neq _ _)), Z.gtb_ltb, (proj2 (Z.ltb_ge _ _)) by lia.
  rewrite ReadFull_short by done. cbn [rp_out avail fin].
  rewrite (decide_False (P:=be32 _ ++ body = [])) by done. f_equal.
  by destruct (0 <? len body).
Qed.

(** A stream that ends cleanly at a packet boundary is [io.EOF], and one
    that ends anywhere inside a packet is [io.ErrUnexpectedEOF]: the two are
    never confused, down to a one-byte body. *)
Theorem packet_truncation typ payload pre post cap max :
  u8 typ -> 1 + len payload <= MaxPacket -> 1 + len payload <= eff_max max ->
  frame_bytes typ payload = pre ++ post -> post <> [] ->
  rp_out (ReadPacket {| avail := pre; fin := EOF |} cap max) =
    Err (if decide (pre = []) then EOF else ErrUnexpectedEOF).
Proof.
  intros Ht Hm. apply ReadPacket_cut; [done|]. pose proof (len_nonneg payload).
  rewrite MaxPacket_val in Hm. unfold u32. lia.
Qed.

Lemma packet_truncation_witness :
  rp_out (ReadPacket {| avail := take 7 (frame_bytes FxpStat (str "abc")); fin := EOF |} 0 0) =
    Err ErrUnexpectedEOF.
Proof.
  by apply (packet_truncation FxpStat (str "abc") (take 7 (frame_bytes FxpStat (str "abc")))
           (drop 7 (frame_bytes FxpStat (str "abc"))) 0 0).
Defined.

Lemma ReadPacket_any r cap max :
  rp_out (ReadPacket r cap max) <> Panic /\
  rp_cap (ReadPacket r cap max) <= Z.max cap (eff_max max) /\
  (forall typ p, rp_out (ReadPacket r cap max) = Ok (typ, p) ->
     u8 typ /\ 1 + len p <= eff_max max).
Proof.
  destruct r as [a f]. destruct (decide (len a < 4)) as [Hs|Hs].
    { unfold ReadPacket. rewrite ReadFull_short by done. simpl. split_and!; [done|lia|done]. }
    destruct a as [|b0 [|b1 [|b2 [|b3 a]]]]; try (unfold len in *; simpl in *; lia).
    destruct (be32_of_bytes (E:=wire_error) b0 b1 b2 b3 a) as (n & Hn & _ & Hb).
    change (b0 :: b1 :: b2 :: b3 :: a) with ([b0; b1; b2; b3] ++ a).
    rewrite <- Hb, ReadPacket_hdr by done. cbv zeta.
    destruct (n =? 0) eqn:E0; bool_prop; [simpl; split_and!; [done|lia|done]|].
    destruct (n >? _) eqn:E1; bool_prop; [simpl; split_and!; [done|lia|done]|].
    destruct Hn as [Hn _].
    destruct (decide (len a < n)) as [Hl|Hl].
    { rewrite ReadFull_short by done. simpl. split_and!; [done|case_if; lia|done]. }
    unfold ReadFull; simpl. rewrite (proj2 (Z.leb_le _ _)) by lia.
    assert (len (take (Z.to_nat n) a) = n) as Hlen
      by (unfold len in *; rewrite length_take; lia).
    destruct (take (Z.to_nat n) a) as [|b p] eqn:Ep; [rewrite len_nil in Hlen; lia|].
    simpl. split_and!; [done|case_if; lia|].
    intros typ q [= <- <-]. rewrite len_cons in Hlen. split; [apply byte_val_range|lia].
Qed.

(** An accepted packet takes its frame off the stream, header included. *)
Lemma ReadPacket_consumes r cap max typ p :
  rp_out (ReadPacket r cap max) = Ok (typ, p) ->
  len (avail r) = len (avail (rp_stream (ReadPacket r cap max))) + 5 + len p.
Proof.
  destruct r as [a f]. destruct (decide (len a < 4)) as [Hs|Hs].
  { unfold ReadPacket. by rewrite ReadFull_short. }
  destruct a as [|b0 [|b1 [|b2 [|b3 a]]]]; try (unfold len in *; simpl in *; lia).
  destruct (be32_of_bytes (E:=wire_error) b0 b1 b2 b3 a) as (n & Hn & _ & Hb).
  change (b0 :: b1 :: b2 :: b3 :: a) with ([b0; b1; b2; b3] ++ a).
  rewrite <- Hb, ReadPacket_hdr by done. cbv zeta.
  destruct (n =? 0); [done|]. destruct (n >? _); [done|]. destruct Hn as [Hn _].
  destruct (decide (len a < n)) as [Hl|Hl]; [by rewrite ReadFull_short|].
  unfold ReadFull; cbn [avail fin]. rewrite (proj2 (Z.leb_le _ _)) by lia. cbn [rp_out rp_stream avail].
  pose proof (take_drop (Z.to_nat n) a) as Ha.
  destruct (take (Z.to_nat n) a) as [|b q]; [done|]. intros [= _ <-].
  apply (f_equal len) in Ha. rewrite len_app, len_be32, len_cons in *. lia.
Qed.

(** C35. What one packet can make the server hold: on every input the buffer
    kept for the next call is at most the larger of the one passed in and the
    limit in force, an accepted packet is within that limit, and a length
    prefix above it is refused after reading its four bytes only. *)
Theorem ReadPacket_bounds r cap max :
  rp_out (ReadPacket r cap max) <> Panic /\
  rp_cap (ReadPacket r cap max) <= Z.max cap (eff_max max) /\
  (forall typ p, rp_out (ReadPacket r cap max) = Ok (typ, p) ->
     u8 typ /\ 1 + len p <= eff_max max) /\
  (forall n y, u32 n -> avail r = be32 n ++ y -> eff_max max < n -> 0 < n ->
     ReadPacket r cap max =
       {| rp_stream := {| avail := y; fin := fin r |}; rp_cap := cap;
          rp_out := Err ErrPacketTooLarge |}).
Proof.
  destruct (ReadPacket_any r cap max) as (? & ? & ?).
  split_and!; try done.
  intros n y Hn Ha Hmax Hpos. destruct r as [a f]; cbn [avail fin] in *. subst a.
  rewrite ReadPacket_hdr by done. cbv zeta.
  rewrite (proj2 (Z.eqb_neq _ _)), Z.gtb_ltb, (proj2 (Z.ltb_lt _ _)) by lia. done.
Qed.

Lemma ReadPacket_bounds_witness :
  rp_out (ReadPacket {| avail := be32 2000 ++ str "x"; fin := EOF |} 0 1024) =
    Err ErrPacketTooLarge.
Proof.
  destruct (ReadPacket_bounds {| avail := be32 2000 ++ str "x"; fin := EOF |} 0 1024)
    as (_ & _ & _ & H).
  rewrite (H 2000 (str "x")); [reflexivity|unfold u32; lia|reflexivity|reflexivity|lia].
Defined.
