(* ===== verification/Path.v ===== *)
(** Path containment: [src/path.go].

    [clean] and its helpers over byte strings, with the parts of package
    [strings] they use, and the abstract view of a cleaned path as a list of
    names: [path_of names]. The theorems say that every path [clean] returns is
    of that form, whatever the client sent. *)

From S2P Require Import Prelude.

Definition maxPath : Z := 4096.

Definition slash : byte := x2f.
Definition nul : byte := x00.

(** * Package strings *)

(** [strings.Split(p, "/")]. *)
Fixpoint Split (p : bytes) : list bytes :=
  match p with
  | [] => [[]]
  | b :: p =>
      if decide (b = slash) then [] :: Split p
      else match Split p with
           | part :: parts => (b :: part) :: parts
           | [] => [[b]]
           end
  end.

(** [strings.Join(parts, "/")]. *)
Fixpoint Join (parts : list bytes) : bytes :=
  match parts with
  | [] => []
  | [part] => part
  | part :: parts => part ++ slash :: Join parts
  end.

(** [strings.LastIndexByte(p, b)]. *)
Fixpoint LastIndexByte (p : bytes) (b : byte) : Z :=
  match p with
  | [] => -1
  | x :: p =>
      let i := LastIndexByte p b in
      if 0 <=? i then i + 1 else if decide (x = b) then 0 else -1
  end.

(** [strings.ContainsRune(p, c)] for an ASCII [c], and the test behind
    [strings.ContainsAny(p, "/\x00")]. *)
Definition Contains (b : byte) (p : bytes) : bool := bool_decide (b ∈ p).

(** * path.go *)

(** The body of the loop of [clean]; [out] is the slice built so far. *)
Definition clean_step (out : list bytes) (part : bytes) : list bytes :=
  if decide (part = [] \/ part = str ".") then out
  else if decide (part = str "..") then
    if 0 <? len out then take (Z.to_nat (len out - 1)) out else out
  else out ++ [part].

Definition clean (p : bytes) : option bytes :=
  if Contains nul p then None
  else if len p >? maxPath then None
  else Some (slash :: Join (fold_left clean_step (Split p) [])).

Definition parent (p : bytes) : bytes :=
  let i := LastIndexByte p slash in
  if i <=? 0 then [slash] else take (Z.to_nat i) p.

Definition base (p : bytes) : bytes :=
  if decide (p = [slash]) then [slash]
  else drop (Z.to_nat (LastIndexByte p slash + 1)) p.

Definition join (dir name : bytes) : option bytes :=
  if bool_decide (name = []) || bool_decide (name = str ".") ||
     bool_decide (name = str "..") || (Contains slash name || Contains nul name)
  then None
  else if decide (dir = [slash]) then Some (slash :: name)
  else
    let full := dir ++ slash :: name in
    if len full >? maxPath then None else Some full.

(** * The abstract path *)

(** A name a directory entry can have inside the export. *)
Definition valid_name (n : bytes) : Prop :=
  n <> [] /\ n <> str "." /\ n <> str ".." /\ (slash ∉ n) /\ (nul ∉ n).

#[export] Instance valid_name_dec n : Decision (valid_name n).
Proof. unfold valid_name. apply _. Defined.

(** The absolute path that names are components of. *)
Definition path_of (names : list bytes) : bytes := slash :: Join names.

(** A path inside the export: absolute, with valid components only. *)
Definition is_clean (c : bytes) : Prop :=
  exists names, Forall valid_name names /\ c = path_of names.

(** What a client path means against the root: "." and empty components stay,
    ".." goes up and stays at the root, anything else goes down. *)
Inductive walks : list bytes -> list bytes -> list bytes -> Prop :=
| walks_done at_ : walks at_ [] at_
| walks_stay at_ part parts to_ :
    part = [] \/ part = str "." -> walks at_ parts to_ -> walks at_ (part :: parts) to_
| walks_up at_ n parts to_ :
    walks at_ parts to_ -> walks (at_ ++ [n]) (str ".." :: parts) to_
| walks_root parts to_ :
    walks [] parts to_ -> walks [] (str ".." :: parts) to_
| walks_down at_ part parts to_ :
    part <> [] -> part <> str "." -> part <> str ".." ->
    walks (at_ ++ [part]) parts to_ -> walks at_ (part :: parts) to_.

(** * Lemmas on Split and Join *)

Lemma Split_nonempty p : Split p <> [].
Proof. induction p as [|b p IH]; simpl; [done|]. case_decide; [done|]. by destruct (Split p). Qed.

Lemma Split_app_slash a p : slash ∉ a -> Split (a ++ slash :: p) = a :: Split p.
Proof.
  induction a as [|b a IH]; intros Ha; simpl.
  { done. }
  apply not_elem_of_cons in Ha as [Hb Ha]. rewrite decide_False by done. by rewrite IH.
Qed.

Lemma Split_name a : slash ∉ a -> Split a = [a].
Proof.
  induction a as [|b a IH]; intros Ha; simpl; [done|].
  apply not_elem_of_cons in Ha as [Hb Ha]. rewrite decide_False by done. by rewrite IH.
Qed.

Lemma Split_Join names :
  names <> [] -> Forall (fun n => slash ∉ n) names -> Split (Join names) = names.
Proof.
  intros Hne H. induction H as [|n names Hn Hns IH]; [done|].
  destruct names as [|m names]; [by apply Split_name|].
  change (Join (n :: m :: names)) with (n ++ slash :: Join (m :: names)).
  rewrite Split_app_slash by done. f_equal. by apply IH.
Qed.

Lemma Split_no_slash p : Forall (fun n => slash ∉ n) (Split p).
Proof.
  induction p as [|b p IH]; simpl; [by repeat constructor; apply not_elem_of_nil|].
  case_decide as Hb; [constructor; [apply not_elem_of_nil|done]|].
  destruct (Split p) as [|part parts]; inversion IH; subst; constructor; try done.
  all: apply not_elem_of_cons; split; [congruence|]; first [done|apply not_elem_of_nil].
Qed.

Lemma Split_sub p part b : part ∈ Split p -> b ∈ part -> b ∈ p.
Proof.
  revert part. induction p as [|x p IH]; intros part; simpl.
  { intros ->%list_elem_of_singleton. done. }
  case_decide.
  { intros [->|Hp]%elem_of_cons Hb; [by apply not_elem_of_nil in Hb|].
    apply elem_of_cons. eauto. }
  destruct (Split p) as [|q qs] eqn:E.
  { intros ->%list_elem_of_singleton ->%list_elem_of_singleton. constructor. }
  intros [->|H']%elem_of_cons Hb.
  - apply elem_of_cons in Hb as [->|Hb]; [constructor|].
    apply elem_of_cons; right. apply (IH q); [constructor|done].
  - apply elem_of_cons; right. apply (IH part); [by constructor|done].
Qed.

(** Total length of a list of components, each with its separator. *)
Definition weight (l : list bytes) : Z := foldr (fun n w => 1 + len n + w) 0 l.

Lemma weight_app l k : weight (l ++ k) = weight l + weight k.
Proof. induction l as [|n l IH]; simpl; [done|]. rewrite IH. lia. Qed.

Lemma weight_nonneg l : 0 <= weight l.
Proof. induction l as [|n l IH]; simpl; [done|]. pose proof (len_nonneg n). lia. Qed.

Lemma len_path_of names : len (path_of names) = Z.max 1 (weight names).
Proof.
  unfold path_of. rewrite len_cons. induction names as [|n names IH]; [done|].
  destruct names as [|m names].
  { simpl. pose proof (len_nonneg n). lia. }
  change (Join (n :: m :: names)) with (n ++ slash :: Join (m :: names)).
  rewrite len_app, len_cons. simpl in *. pose proof (len_nonneg n).
  pose proof (len_nonneg m). pose proof (weight_nonneg names). lia.
Qed.

Lemma weight_Split p : weight (Split p) = 1 + len p.
Proof.
  induction p as [|b p IH]; [done|]. rewrite len_cons; simpl.
  case_decide; simpl; [rewrite IH, len_nil; lia|].
  destruct (Split p) as [|part parts] eqn:E; [by destruct (Split_nonempty p)|].
  simpl in *. rewrite len_cons. lia.
Qed.

(** * clean *)

Lemma clean_step_valid out part :
  slash ∉ part -> nul ∉ part -> Forall valid_name out ->
  Forall valid_name (clean_step out part).
Proof.
  intros Hs Hn Hout. unfold clean_step. case_decide as H1; [done|].
  case_decide as H2; [case_if; [by apply Forall_take|done]|].
  apply Forall_app_2; [done|]. repeat constructor; try done; tauto.
Qed.

Lemma clean_fold_valid parts out :
  Forall (fun n => slash ∉ n) parts -> Forall (fun n => nul ∉ n) parts ->
  Forall valid_name out -> Forall valid_name (fold_left clean_step parts out).
Proof.
  intros Hs. revert out. induction Hs as [|n parts ? _ IH]; intros out Hn Hout; [done|].
  inversion Hn; subst. apply IH; [done|]. by apply clean_step_valid.
Qed.

Lemma clean_step_weight out part : weight (clean_step out part) <= weight out + 1 + len part.
Proof.
  pose proof (len_nonneg part). pose proof (weight_nonneg out).
  unfold clean_step. case_decide; [lia|]. case_decide.
  - case_if; [|lia]. set (k := Z.to_nat _).
    assert (weight out = weight (take k out) + weight (drop k out)) as ->
      by by rewrite <- weight_app, take_drop.
    pose proof (weight_nonneg (drop k out)). lia.
  - rewrite weight_app. simpl. lia.
Qed.

Lemma clean_fold_weight parts out :
  weight (fold_left clean_step parts out) <= weight out + weight parts.
Proof.
  revert out. induction parts as [|n parts IH]; intros out; simpl; [lia|].
  specialize (IH (clean_step out n)). pose proof (clean_step_weight out n). lia.
Qed.

Lemma clean_step_name out n : valid_name n -> clean_step out n = out ++ [n].
Proof.
  intros (H1 & H2 & H3 & _). unfold clean_step.
  rewrite decide_False by tauto. by rewrite decide_False.
Qed.

Lemma clean_fold_names names out :
  Forall valid_name names -> fold_left clean_step names out = out ++ names.
Proof.
  intros H. revert out. induction H as [|n names Hn _ IH]; intros out; simpl.
  { by rewrite app_nil_r. }
  by rewrite clean_step_name, IH, <- app_assoc.
Qed.

Lemma valid_no_slash names : Forall valid_name names -> Forall (fun n => slash ∉ n) names.
Proof. intros H. eapply Forall_impl; [done|]. by intros n (_ & _ & _ & ? & _). Qed.

Lemma Split_path_of names :
  Forall valid_name names ->
  Split (path_of names) = [] :: (if decide (names = []) then [[]] else names).
Proof.
  intros H. unfold path_of. simpl. f_equal. case_decide; [by subst|].
  apply Split_Join; [done|by apply valid_no_slash].
Qed.

Lemma Join_sub b names : b ∈ Join names -> b = slash \/ exists n, n ∈ names /\ b ∈ n.
Proof.
  induction names as [|n names IH]; [by intros ?%not_elem_of_nil|].
  destruct names as [|m names].
  { intros Hb. right. exists n. split; [constructor|done]. }
  change (Join (n :: m :: names)) with (n ++ slash :: Join (m :: names)).
  intros [Hb|[->|Hb]%elem_of_cons]%elem_of_app; [|by left|].
  - right. exists n. split; [constructor|done].
  - destruct (IH Hb) as [?|(k & ? & ?)]; [by left|]. right. exists k.
    split; [by constructor|done].
Qed.

Lemma path_of_no_nul names : Forall valid_name names -> nul ∉ path_of names.
Proof.
  intros H [?|Hb]%elem_of_cons; [done|].
  apply Join_sub in Hb as [?|(n & Hn & Hb)]; [done|].
  rewrite Forall_forall in H. by destruct (H n Hn) as (_ & _ & _ & _ & ?).
Qed.

Lemma clean_eq p :
  nul ∉ p -> len p <= maxPath ->
  clean p = Some (path_of (fold_left clean_step (Split p) [])).
Proof.
  intros Hn Hl. unfold clean, Contains. rewrite bool_decide_eq_false_2 by done.
  by rewrite Z.gtb_ltb, (proj2 (Z.ltb_ge _ _)).
Qed.

Lemma clean_Some p c :
  clean p = Some c ->
  (nul ∉ p) /\ len p <= maxPath /\ c = path_of (fold_left clean_step (Split p) []).
Proof.
  unfold clean, Contains. case_bool_decide; [done|]. case_if; [done|].
  by intros [= <-].
Qed.

Lemma clean_is_clean p c : clean p = Some c -> is_clean c.
Proof.
  intros (Hn & _ & ->)%clean_Some. eexists. split; [|done].
  apply clean_fold_valid; [apply Split_no_slash| |constructor].
  apply Forall_forall. intros part Hp Hb. by apply Hn, (Split_sub p part).
Qed.

Lemma clean_path_of names :
  Forall valid_name names -> len (path_of names) <= maxPath ->
  clean (path_of names) = Some (path_of names).
Proof.
  intros H Hl. rewrite clean_eq by (done || by apply path_of_no_nul).
  rewrite Split_path_of by done. f_equal. f_equal. simpl.
  case_decide; [by subst|]. by rewrite clean_fold_names.
Qed.

(** A clean path within [maxPath] is its own cleaning. *)
Lemma is_clean_fixed c : is_clean c -> len c <= maxPath -> clean c = Some c.
Proof. intros (names & Hv & ->) Hl. by apply clean_path_of. Qed.

Lemma clean_length p c : clean p = Some c -> len c <= 1 + len p.
Proof.
  intros (_ & _ & ->)%clean_Some. rewrite len_path_of.
  pose proof (clean_fold_weight (Split p) []). rewrite weight_Split in *.
  simpl in *. pose proof (len_nonneg p). lia.
Qed.

Lemma clean_length_abs p c : clean (slash :: p) = Some c -> len c <= len (slash :: p).
Proof.
  intros (_ & _ & ->)%clean_Some. rewrite len_path_of, len_cons.
  pose proof (clean_fold_weight (Split p) []) as H. rewrite weight_Split in H.
  change (fold_left clean_step (Split (slash :: p)) []) with (fold_left clean_step (Split p) []).
  change (weight []) with 0 in H. pose proof (len_nonneg p). lia.
Qed.

(** ** The loop computes the walk from the root *)

Lemma walks_fold parts at_ : walks at_ parts (fold_left clean_step parts at_).
Proof.
  revert at_. induction parts as [|part parts IH]; intros at_; simpl; [constructor|].
  unfold clean_step at 2. case_decide; [by apply walks_stay|].
  case_decide as H2; [subst|by apply walks_down; [tauto..|]].
  destruct (decide (at_ = [])) as [->|Hne]; [by apply walks_root|].
  destruct (exists_last Hne) as (l & n & ->).
  assert (len (l ++ [n]) = len l + 1) as -> by by rewrite len_app.
  pose proof (len_nonneg l). destruct (0 <? len l + 1) eqn:E; bool_prop; [|lia].
  replace (Z.to_nat (len l + 1 - 1)) with (length l) by (unfold len; lia).
  rewrite take_app_length. by apply walks_up.
Qed.

Lemma walks_det at_ parts to1 to2 : walks at_ parts to1 -> walks at_ parts to2 -> to1 = to2.
Proof.
  intros Hw1. revert to2.
  induction Hw1; intros to2 Hw2; inversion Hw2; simplify_list_eq; try done; auto.
  all: try match goal with H : _ \/ _ |- _ => by destruct H end.
  all: by match goal with
       | H : [] = ?l ++ [_] |- _ => destruct l
       | H : ?l ++ [_] = [] |- _ => destruct l end.
Qed.

(** * parent, base and join *)

Lemma LastIndexByte_None p b : b ∉ p -> LastIndexByte p b = -1.
Proof.
  induction p as [|x p IH]; intros Hb; simpl; [done|].
  apply not_elem_of_cons in Hb as [? Hb]. rewrite IH by done. simpl.
  by rewrite decide_False.
Qed.

Lemma LastIndexByte_app d n b : b ∉ n -> LastIndexByte (d ++ b :: n) b = len d.
Proof.
  intros Hb. induction d as [|x d IH]; simpl.
  - rewrite LastIndexByte_None by done. simpl. by rewrite decide_True.
  - rewrite IH. pose proof (len_nonneg d). rewrite (proj2 (Z.leb_le _ _)) by done.
    rewrite len_cons. lia.
Qed.

Lemma path_of_snoc names n :
  path_of (names ++ [n]) =
  (if decide (names = []) then [] else path_of names) ++ slash :: n.
Proof.
  unfold path_of. case_decide as Hd; [by subst|]. simpl. f_equal.
  destruct names as [|m names]; [done|]. clear Hd. revert m.
  induction names as [|k names IH]; intros m; [done|].
  change (Join ((m :: k :: names) ++ [n])) with (m ++ slash :: Join ((k :: names) ++ [n])).
  rewrite IH. change (Join (m :: k :: names)) with (m ++ slash :: Join (k :: names)).
  by rewrite <- app_assoc.
Qed.

Lemma path_of_root names : Forall valid_name names -> path_of names = [slash] -> names = [].
Proof.
  destruct names as [|n names]; [done|]. intros Hv%Forall_inv [= Hj].
  destruct Hv as (Hn & _). destruct names; simpl in Hj; [done|]. by destruct n.
Qed.

Lemma parent_path_of names n : valid_name n -> parent (path_of (names ++ [n])) = path_of names.
Proof.
  intros (_ & _ & _ & Hs & _). unfold parent.
  rewrite path_of_snoc, LastIndexByte_app by done. case_decide as Hd; [by subst|].
  rewrite len_path_of. rewrite (proj2 (Z.leb_gt _ _)) by lia.
  rewrite <- len_path_of. unfold len. by rewrite Nat2Z.id, take_app_length.
Qed.

Lemma base_path_of names n : valid_name n -> base (path_of (names ++ [n])) = n.
Proof.
  intros (Hn & _ & _ & Hs & _). unfold base. rewrite path_of_snoc.
  rewrite decide_False.
  2: { intros H%(f_equal length). rewrite length_app in H. simpl in H. destruct n; simpl in H; [done|lia]. }
  rewrite LastIndexByte_app by done. set (d := if decide _ then _ else _).
  replace (Z.to_nat (len d + 1)) with (length (d ++ [slash]))
    by (rewrite length_app; unfold len; simpl; lia).
  replace (d ++ slash :: n) with ((d ++ [slash]) ++ n) by by rewrite <- app_assoc.
  apply drop_app_length.
Qed.

Lemma join_Some dir name full :
  join dir name = Some full ->
  valid_name name /\ full = (if decide (dir = [slash]) then [] else dir) ++ slash :: name.
Proof.
  unfold join, Contains. repeat case_bool_decide; simpl; try done.
  case_decide; [by intros [= <-]|]. case_if; [done|]. by intros [= <-].
Qed.

Lemma join_path_of names name full :
  Forall valid_name names -> join (path_of names) name = Some full ->
  valid_name name /\ full = path_of (names ++ [name]).
Proof.
  intros Hv (Hn & ->)%join_Some. split; [done|]. rewrite path_of_snoc.
  case_decide as Hd.
  - by rewrite (path_of_root names).
  - rewrite decide_False; [done|]. intros ->. done.
Qed.

(** * Properties *)

(** Containment. Whatever path a client sends, [clean] either refuses it
    (exactly when it holds a NUL or is longer than [maxPath]) or returns an
    absolute path whose components are all proper names: never empty, never
    "." or "..", with no separator and no NUL inside. *)
Theorem clean_contained p :
  match clean p with
  | None => nul ∈ p \/ maxPath < len p
  | Some c => (nul ∉ p) /\ len p <= maxPath /\ is_clean c
  end.
Proof.
  destruct (clean p) as [c|] eqn:E.
  { split_and!; [by apply (clean_Some p c)..|by apply (clean_is_clean p)]. }
  unfold clean, Contains in E. case_bool_decide; [by left|].
  destruct (len p >? maxPath) eqn:El; [|done]. right. bool_prop. lia.
Qed.

(** C5. [clean] computes the walk from the export root: following the
    components of the client's path one by one, staying on "" and ".", going up
    on ".." unless already at the root, and down on a name, ends exactly at the
    path returned, and at no other. *)
Theorem clean_walks_from_root p c names :
  clean p = Some c ->
  (walks [] (Split p) names <-> Forall valid_name names /\ c = path_of names).
Proof.
  intros Hc. pose proof (walks_fold (Split p) []) as Hw.
  destruct (clean_is_clean p c Hc) as (ns & Hns & Hpc).
  apply clean_Some in Hc as (Hn & _ & Hc).
  assert (Forall valid_name (fold_left clean_step (Split p) [])) as Hv.
  { apply clean_fold_valid; [apply Split_no_slash| |constructor].
    apply Forall_forall. intros part Hp Hb. by apply Hn, (Split_sub p part). }
  assert (forall l1 l2, Forall valid_name l1 -> Forall valid_name l2 ->
            path_of l1 = path_of l2 -> l1 = l2) as Hinj.
  { intros l1 l2 H1 H2 E%(f_equal Split). rewrite !Split_path_of in E by done.
    injection E as E. do 2 case_decide; subst; try done.
    - inversion H2 as [|? ? (? & _)]; congruence.
    - inversion H1 as [|? ? (? & _)]; congruence. }
  split.
  - intros H. by rewrite (walks_det _ _ _ _ H Hw).
  - intros [Hvn Hcn]. rewrite (Hinj names (fold_left clean_step (Split p) [])); try done.
    congruence.
Qed.

Lemma clean_walks_from_root_witness :
  clean (str "a/../../etc//./passwd") = Some (str "/etc/passwd") /\
  (walks [] (Split (str "a/../../etc//./passwd")) [str "etc"; str "passwd"]).
Proof.
  split; [reflexivity|].
  apply (clean_walks_from_root (str "a/../../etc//./passwd") (str "/etc/passwd")
           [str "etc"; str "passwd"]); [reflexivity|].
  split; [|reflexivity]. by apply (bool_decide_unpack _).
Defined.

(** A cleaned path is a fixed point of [clean] as long as it is within
    [maxPath], and it always is when the client's path was absolute; a relative
    path can come back one byte longer than it was. *)
Theorem clean_idempotent p c :
  clean p = Some c ->
  len c <= 1 + len p /\
  (head p = Some slash -> len c <= maxPath) /\
  (len c <= maxPath -> clean c = Some c).
Proof.
  intros Hc. split_and!.
  - by apply clean_length.
  - intros Hh. destruct p as [|b p]; simplify_eq/=.
    apply clean_Some in Hc as Hl. destruct Hl as (_ & Hl & _).
    apply clean_length_abs in Hc. lia.
  - intros Hl. destruct (clean_is_clean p c Hc) as (names & Hv & ->).
    by apply clean_path_of.
Qed.

Lemma clean_idempotent_witness :
  len (str "/x") <= 1 + len (str "a/../x") /\
  (head (str "a/../x") = Some slash -> len (str "/x") <= maxPath) /\
  (len (str "/x") <= maxPath -> clean (str "/x") = Some (str "/x")).
Proof. apply (clean_idempotent (str "a/../x") (str "/x")). reflexivity. Defined.

(** The bound of [clean] is on its argument, not on its result: a relative
    path of exactly [maxPath] bytes is accepted, its cleaned form is one byte
    over [maxPath], and cleaning that form again refuses it. *)
Theorem clean_boundary :
  exists p c, clean p = Some c /\ len p = maxPath /\ len c = maxPath + 1 /\ clean c = None.
Proof.
  exists (repeat x61 4096), (slash :: repeat x61 4096). by vm_compute.
Qed.

Lemma join_is_clean dir name full : is_clean dir -> join dir name = Some full -> is_clean full.
Proof.
  intros (names & Hv & ->) Hj. destruct (join_path_of names name full Hv Hj) as (Hn & ->).
  exists (names ++ [name]). split; [|done]. by apply Forall_app; split; [|constructor].
Qed.

(** Listing and resolving agree: when [join] accepts an entry name under a
    cleaned directory, the path it returns is the cleaned path of that entry,
    its [parent] is the directory, its [base] is the name, and (within
    [maxPath]) cleaning it gives it back. *)
Theorem join_resolves_back dir name full :
  is_clean dir -> join dir name = Some full ->
  is_clean full /\ parent full = dir /\ base full = name /\
  (len full <= maxPath -> clean full = Some full).
Proof.
  intros (names & Hv & ->) Hj.
  destruct (join_path_of names name full Hv Hj) as (Hn & ->).
  assert (Forall valid_name (names ++ [name])) by (apply Forall_app_2; auto).
  split_and!; [by eexists|by apply parent_path_of|by apply base_path_of|].
  intros. by apply clean_path_of.
Qed.

Lemma join_resolves_back_witness :
  is_clean (str "/d/x") /\ parent (str "/d/x") = str "/d" /\ base (str "/d/x") = str "x" /\
  (len (str "/d/x") <= maxPath -> clean (str "/d/x") = Some (str "/d/x")).
Proof.
  apply (join_resolves_back (str "/d") (str "x") (str "/d/x")); [|reflexivity].
  exists [str "d"]. split; [by apply (bool_decide_unpack _)|reflexivity].
Defined.

(** The root is the exception to the bound in [join]: an entry of "/"
    whose name is longer than [maxPath] is accepted, under a path that
    [clean] refuses. *)
Theorem join_root_unbounded :
  exists name full, join [slash] name = Some full /\ clean full = None.
Proof.
  exists (repeat x61 4096), (slash :: repeat x61 4096). by vm_compute.
Qed.
