(* ===== verification/Errors.v ===== *)
(** Driver errors and the status codes they become: [src/errors.go].

    A Go [error] is observed in two ways only: by [errors.Is] against six
    sentinels, and by its text. [error] records exactly those observations. *)

From S2P Require Import Prelude Const.

Record error := {
  Is_NotExist : bool;           (** errors.Is(err, fs.ErrNotExist) *)
  Is_Permission : bool;         (** errors.Is(err, fs.ErrPermission) *)
  Is_Exist : bool;              (** errors.Is(err, fs.ErrExist) *)
  Is_Invalid : bool;            (** errors.Is(err, fs.ErrInvalid) *)
  Is_ShrinkUnsupported : bool;  (** errors.Is(err, filesystem.ErrShrinkUnsupported) *)
  Is_EOF : bool;                (** errors.Is(err, io.EOF) *)
  Error : bytes                 (** err.Error() *)
}.

(** [errors.New(text)]: matches no sentinel. *)
Definition errors_New (text : bytes) : error :=
  {| Is_NotExist := false; Is_Permission := false; Is_Exist := false;
     Is_Invalid := false; Is_ShrinkUnsupported := false; Is_EOF := false;
     Error := text |}.

(** * Package strings *)

Definition is_ascii (b : byte) : bool := byte_val b <? 128.

Definition ascii_lower (b : byte) : byte :=
  if (65 <=? byte_val b) && (byte_val b <=? 90) then byte_of (byte_val b + 32) else b.

(** [strings.HasPrefix(s, frag)]. *)
Fixpoint HasPrefix (frag s : bytes) : bool :=
  match frag, s with
  | [], _ => true
  | f :: frag, b :: s => bool_decide (f = b) && HasPrefix frag s
  | _ :: _, [] => false
  end.

(** [strings.Contains(s, frag)]. *)
Fixpoint ContainsStr (s frag : bytes) : bool :=
  HasPrefix frag s || match s with [] => false | _ :: s => ContainsStr s frag end.

(** The Unicode case tables: [strings.ToLower] on a string that is not pure
    ASCII. They are data of the Go library, so they are a parameter. *)
Class UnicodeTables := unicode_lower : bytes -> bytes.

Section tables.
Context {UT : UnicodeTables}.

(** [strings.ToLower(s)], with its ASCII fast path. *)
Definition ToLower (s : bytes) : bytes :=
  if forallb is_ascii s then map ascii_lower s else unicode_lower s.

(** * errors.go *)

Definition substringStatus : list (bytes * Z) := [
  (str "not found", StatusNoSuchFile);
  (str "no such", StatusNoSuchFile);
  (str "does not exist", StatusNoSuchFile);
  (str "not a directory", StatusFailure);
  (str "is a directory", StatusFailure);
  (str "not a regular file", StatusFailure);
  (str "not a symbolic link", StatusFailure);
  (str "not empty", StatusFailure);
  (str "read-only", StatusPermissionDenied);
  (str "permission", StatusPermissionDenied);
  (str "already exists", StatusFailure);
  (str "no space", StatusFailure);
  (str "not supported", StatusOpUnsupported);
  (str "unsupported", StatusOpUnsupported)
].

(** [for _, m := range table { if strings.Contains(low, m.frag) { return m.status } }]. *)
Fixpoint scan_status (low : bytes) (table : list (bytes * Z)) (fallback : Z) : Z :=
  match table with
  | [] => fallback
  | (frag, status) :: table =>
      if ContainsStr low frag then status else scan_status low table fallback
  end.

Definition statusFor (err : option error) (fallback : Z) : Z :=
  match err with
  | None => StatusOK
  | Some err =>
      if Is_NotExist err then StatusNoSuchFile
      else if Is_Permission err then StatusPermissionDenied
      else if Is_Exist err || Is_Invalid err then StatusFailure
      else if Is_ShrinkUnsupported err then StatusOpUnsupported
      else scan_status (ToLower (Error err)) substringStatus fallback
  end.

(** The ellipsis of [errText], U+2026 in UTF-8. *)
Definition ellipsis : bytes := [xe2; x80; xa6].

Definition errText (err : option error) : bytes :=
  match err with
  | None => []
  | Some err =>
      let s := Error err in
      if len s >? 512 then take 512 s ++ ellipsis else s
  end.

(** * Lemmas *)

Lemma scan_status_range low table fallback :
  scan_status low table fallback = fallback \/
  exists frag, (frag, scan_status low table fallback) ∈ table.
Proof.
  induction table as [|[frag st] table IH]; simpl; [by left|].
  destruct (ContainsStr low frag); [right; exists frag; constructor|].
  destruct IH as [?|(f & ?)]; [by left|]. right. exists f. by constructor.
Qed.

Lemma substringStatus_codes frag st :
  (frag, st) ∈ substringStatus ->
  st = StatusNoSuchFile \/ st = StatusFailure \/ st = StatusPermissionDenied \/
  st = StatusOpUnsupported.
Proof.
  unfold substringStatus. rewrite !elem_of_cons. intros H.
  repeat destruct H as [[= _ ->]|H]; try (by auto). by apply not_elem_of_nil in H.
Qed.

Lemma statusFor_codes err fallback :
  statusFor (Some err) fallback = fallback \/
  statusFor (Some err) fallback = StatusNoSuchFile \/
  statusFor (Some err) fallback = StatusFailure \/
  statusFor (Some err) fallback = StatusPermissionDenied \/
  statusFor (Some err) fallback = StatusOpUnsupported.
Proof.
  unfold statusFor. repeat case_if; auto.
  destruct (scan_status_range (ToLower (Error err)) substringStatus fallback)
    as [?|(frag & Hf)]; [by left|].
  apply substringStatus_codes in Hf. tauto.
Qed.

Lemma statusFor_not_ok err fallback :
  fallback <> StatusOK -> statusFor (Some err) fallback <> StatusOK.
Proof.
  intros Hf. destruct (statusFor_codes err fallback) as [->|[->|[->|[->| ->]]]]; done.
Qed.

Lemma errText_len err : len (errText err) <= 515.
Proof.
  destruct err as [err|]; simpl; [|done]. case_if; [|lia].
  rewrite len_app. unfold len at 1. rewrite length_take.
  change (len ellipsis) with 3. lia.
Qed.

(** * Properties *)

(** A driver error never becomes success: for every error and every
    failure fallback the status sent is one of the failure codes version 3
    defines, a wrapped sentinel decides before the text is looked at, and the
    message beside it is at most 515 bytes and starts with the error's own text. *)
Theorem driver_errors_are_failures err fallback :
  (fallback = StatusNoSuchFile \/ fallback = StatusFailure) ->
  (statusFor (Some err) fallback = StatusNoSuchFile \/
   statusFor (Some err) fallback = StatusFailure \/
   statusFor (Some err) fallback = StatusPermissionDenied \/
   statusFor (Some err) fallback = StatusOpUnsupported) /\
  (Is_NotExist err = true -> statusFor (Some err) fallback = StatusNoSuchFile) /\
  (Is_NotExist err = false -> Is_Permission err = true ->
   statusFor (Some err) fallback = StatusPermissionDenied) /\
  len (errText (Some err)) <= 515 /\
  take 512 (errText (Some err)) = take 512 (Error err).
Proof.
  intros Hf. split_and!.
  - destruct (statusFor_codes err fallback) as [Ha|Ha]; [rewrite Ha|]; tauto.
  - unfold statusFor. by intros ->.
  - unfold statusFor. by intros -> ->.
  - apply errText_len.
  - unfold errText. case_if; [|done].
    rewrite take_app_le by (rewrite length_take; unfold len in *; lia).
    by rewrite take_take.
Qed.
End tables.

(** Tables under which a string outside ASCII is its own lower case. *)
Definition ascii_tables : UnicodeTables := fun s => s.

Lemma driver_errors_are_failures_witness :
  let err := errors_New (str "open: File Not Found") in
  statusFor (UT:=ascii_tables) (Some err) StatusFailure = StatusNoSuchFile /\
  len (errText (Some err)) <= 515 /\ take 512 (errText (Some err)) = take 512 (Error err).
Proof.
  split; [reflexivity|].
  apply (driver_errors_are_failures (UT:=ascii_tables)
           (errors_New (str "open: File Not Found")) StatusFailure).
  by right.
Defined.
