(* ===== verification/Driver.v ===== *)
(** What the server asks of the code it is given.

    The exported filesystem ([github.com/go-filesystems/interface]), its open
    files, the copy engine ([hostcopy]), the filesystem lock of
    [go-filesystems/inflight] and the random source are not part of the
    repository. They appear here as an interface only: [call] lists the calls
    the server makes on them, [answer] the type of what each returns. A handler
    of the server is a [prog], a tree of such calls, and says nothing about what
    the answers are: a theorem about all answers holds for every driver. *)

From S2P Require Import Prelude Errors.

(** [filesystem.Stat]: [Size()], [uint32(Mode())], and [ModTime()] when the
    value implements [TimeStat]. *)
Record StatInfo := { s_Size : Z; s_Mode : Z; s_ModTime : option Z }.

(** [filesystem.File]: an identity, and whether its dynamic type satisfies
    [WritableFile]. *)
Record File := { f_id : Z; f_writable : bool }.

#[export] Instance File_eq_dec : EqDecision File.
Proof. solve_decision. Defined.

Inductive call :=
(* inflight.FSLock *)
| Lock | Unlock | LockPath | UnlockPath | LockIO | UnlockIO
(* crypto/rand.Read into a [handleBytes]-byte array *)
| RandRead
(* filesystem.Filesystem *)
| Stat (path : bytes)
| ListDir (path : bytes)
| ReadFile (path : bytes)
| ReadLink (path : bytes)
| WriteFile (path data : bytes) (perm : Z)
| MkDir (path : bytes) (perm : Z)
| DeleteFile (path : bytes)
| DeleteDir (path : bytes)
| Rename (oldPath newPath : bytes)
(* filesystem.Truncater, MetadataSetter, Symlinker, Opener *)
| Truncate (path : bytes) (size : Z)
| Chmod (path : bytes) (mode : Z)
| Chown (path : bytes) (uid gid : Z)
| Chtimes (path : bytes) (atime mtime : Z)
| Symlink (target link : bytes)
| OpenFile (path : bytes)
(* filesystem.File and WritableFile *)
| File_ReadAt (f : File) (n off : Z)
| File_Size (f : File)
| File_Close (f : File)
| File_WriteAt (f : File) (data : bytes) (off : Z)
| File_Truncate (f : File) (size : Z)
| File_Sync (f : File)
(* hostcopy.Range *)
| HostCopy (dst src : File) (toOff fromOff n : Z).

(** [handleBytes], the length of the array [RandRead] fills. *)
Definition handleBytes : nat := 16.

(** [ReadAt]'s answer is the filled part of the buffer, [buf[:got]]. *)
Definition answer (c : call) : Type :=
  match c with
  | Lock | Unlock | LockPath | UnlockPath | LockIO | UnlockIO => unit
  | RandRead => vec byte handleBytes * option error
  | Stat _ => option StatInfo * option error
  | ListDir _ => list bytes * option error
  | ReadFile _ => bytes * option error
  | ReadLink _ => bytes * option error
  | OpenFile _ => option File * option error
  | File_ReadAt _ _ _ => bytes * option error
  | File_Size _ => Z
  | WriteFile _ _ _ | MkDir _ _ | DeleteFile _ | DeleteDir _ | Rename _ _
  | Truncate _ _ | Chmod _ _ | Chown _ _ _ | Chtimes _ _ _ | Symlink _ _
  | File_Close _ | File_WriteAt _ _ _ | File_Truncate _ _ | File_Sync _
  | HostCopy _ _ _ _ _ => option error
  end.

(** * Programs *)

Inductive prog (A : Type) : Type :=
| Ret (a : A)
| Do (c : call) (k : answer c -> prog A).
Arguments Ret {A} a.
Arguments Do {A} c k.

Fixpoint prog_bind {A B} (f : A -> prog B) (p : prog A) : prog B :=
  match p with
  | Ret a => f a
  | Do c k => Do c (fun x => prog_bind f (k x))
  end.

#[export] Instance prog_mret : MRet prog := fun A a => Ret a.
#[export] Instance prog_mbind : MBind prog := fun A B f p => prog_bind f p.

(** One call. *)
Definition do_ (c : call) : prog (answer c) := Do c Ret.

(** [lock(); defer unlock(); body]. *)
Definition with_lock {A} (body : prog A) : prog A :=
  _ ← do_ Lock; r ← body; _ ← do_ Unlock; mret r.

(** [rlock(); defer runlock(); body], the lock of read-only path calls. *)
Definition with_rlock {A} (body : prog A) : prog A :=
  _ ← do_ LockPath; r ← body; _ ← do_ UnlockPath; mret r.

(** [fs.LockIO(); defer fs.UnlockIO(); body]. *)
Definition with_iolock {A} (body : prog A) : prog A :=
  _ ← do_ LockIO; r ← body; _ ← do_ UnlockIO; mret r.

(** * Running a program against a driver *)

(** A driver: for each call, its effect on the driver's state and its answer. *)
Class Driver (S : Type) := handle : forall c : call, S -> S * answer c.

Section run.
Context {S : Type} `{!Driver S}.

Fixpoint exec {A} (p : prog A) (s : S) : S * A :=
  match p with
  | Ret a => (s, a)
  | Do c k => let '(s, x) := handle c s in exec (k x) s
  end.

(** The calls made, in order. *)
Fixpoint trace {A} (p : prog A) (s : S) : list call :=
  match p with
  | Ret _ => []
  | Do c k => let '(s, x) := handle c s in c :: trace (k x) s
  end.
End run.

(** * Program logic

    [wp V P p Q]: along every run of [p] whose answers satisfy the contract
    [V], every call satisfies [P] and the result satisfies [Q]. *)

Definition contract : Type := forall c : call, answer c -> Prop.

(** No assumption on the answers. *)
Definition anything : contract := fun _ _ => True.

Fixpoint wp {A} (V : contract) (P : call -> Prop) (p : prog A) (Q : A -> Prop) : Prop :=
  match p with
  | Ret a => Q a
  | Do c k => P c /\ forall x, V c x -> wp V P (k x) Q
  end.

(** A driver that keeps a contract in every state. *)
Class Conforms (S : Type) `{!Driver S} (V : contract) : Prop :=
  conforms : forall (c : call) (s : S), V c (snd (handle c s)).

Section wp_laws.
Context {V : contract} {P : call -> Prop}.

Lemma wp_ret {A} (a : A) (Q : A -> Prop) : Q a -> wp V P (mret a) Q.
Proof. done. Qed.

Lemma wp_bind {A B} (p : prog A) (f : A -> prog B) (Q : B -> Prop) :
  wp V P p (fun a => wp V P (f a) Q) -> wp V P (p ≫= f) Q.
Proof.
  induction p as [a|c k IH]; simpl; [done|].
  intros [Hc Hk]. split; [done|]. intros x Hx. by apply IH, Hk.
Qed.

Lemma wp_do c (Q : answer c -> Prop) :
  P c -> (forall x, V c x -> Q x) -> wp V P (do_ c) Q.
Proof. done. Qed.

Lemma wp_mono {A} (p : prog A) (Q1 Q2 : A -> Prop) :
  wp V P p Q1 -> (forall a, Q1 a -> Q2 a) -> wp V P p Q2.
Proof.
  intros H HQ. induction p as [a|c k IH]; simpl in *; [by apply HQ|].
  destruct H as [Hc Hk]. split; [done|]. intros x Hx. apply IH. by apply Hk.
Qed.

Lemma wp_and {A} (p : prog A) (Q1 Q2 : A -> Prop) :
  wp V P p Q1 -> wp V P p Q2 -> wp V P p (fun a => Q1 a /\ Q2 a).
Proof.
  induction p as [a|c k IH]; simpl; [done|].
  intros [Hc H1] [_ H2]. split; [done|]. intros x Hx. apply IH; auto.
Qed.

Lemma wp_with_lock {A} (body : prog A) (Q : A -> Prop) :
  P Lock -> P Unlock -> wp V P body Q -> wp V P (with_lock body) Q.
Proof.
  intros H1 H2 Hb. split; [done|]. intros x _. simpl. apply wp_bind.
  eapply wp_mono; [done|]. intros a Ha. by split.
Qed.

Lemma wp_with_rlock {A} (body : prog A) (Q : A -> Prop) :
  P LockPath -> P UnlockPath -> wp V P body Q -> wp V P (with_rlock body) Q.
Proof.
  intros H1 H2 Hb. split; [done|]. intros x _. simpl. apply wp_bind.
  eapply wp_mono; [done|]. intros a Ha. by split.
Qed.

Lemma wp_with_iolock {A} (body : prog A) (Q : A -> Prop) :
  P LockIO -> P UnlockIO -> wp V P body Q -> wp V P (with_iolock body) Q.
Proof.
  intros H1 H2 Hb. split; [done|]. intros x _. simpl. apply wp_bind.
  eapply wp_mono; [done|]. intros a Ha. by split.
Qed.
End wp_laws.

Lemma wp_calls {A} V (P1 P2 : call -> Prop) (p : prog A) Q :
  (forall c, P1 c -> P2 c) -> wp V P1 p Q -> wp V P2 p Q.
Proof.
  intros HP. induction p as [a|c k IH]; simpl; [done|].
  intros [Hc Hk]. split; [by apply HP|]. intros x Hx. by apply IH, Hk.
Qed.

Lemma wp_contract {A} (V1 V2 : contract) P (p : prog A) Q :
  (forall c x, V2 c x -> V1 c x) -> wp V1 P p Q -> wp V2 P p Q.
Proof.
  intros HV. induction p as [a|c k IH]; simpl; [done|].
  intros [Hc Hk]. split; [done|]. intros x Hx. by apply IH, Hk, HV.
Qed.

(** A driver whose answers keep the contract runs as [wp] says. *)
Lemma wp_adequate {S} `{!Driver S} {A} (V : contract) `{!Conforms S V} P (p : prog A) Q s :
  wp V P p Q -> Forall P (trace p s) /\ Q (snd (exec p s)).
Proof.
  revert s. induction p as [a|c k IH]; intros s; simpl; [done|].
  intros [Hc Hk]. pose proof (conforms (V:=V) c s) as Hx. destruct (handle c s) as [s' x].
  destruct (IH x s' (Hk x Hx)). split; [by constructor|done].
Qed.

#[export] Instance Conforms_anything {S} `{!Driver S} : Conforms S anything.
Proof. done. Qed.

Lemma exec_bind {S} `{!Driver S} {A B} (p : prog A) (f : A -> prog B) s :
  exec (p ≫= f) s = let '(s', a) := exec p s in exec (f a) s'.
Proof.
  revert s. induction p as [a|c k IH]; intros s; simpl; [done|].
  destruct (handle c s) as [s' x]. apply IH.
Qed.

(** What a lock section runs as. *)
Lemma exec_with_lock {S} `{!Driver S} {A} (p : prog A) s :
  exec (with_lock p) s =
  let '(s', a) := exec p (fst (handle Lock s)) in (fst (handle Unlock s'), a).
Proof.
  simpl. destruct (handle Lock s) as [s1 []]; simpl. rewrite exec_bind.
  destruct (exec p s1) as [s2 a]. simpl. by destruct (handle Unlock s2).
Qed.

Lemma exec_with_rlock {S} `{!Driver S} {A} (p : prog A) s :
  exec (with_rlock p) s =
  let '(s', a) := exec p (fst (handle LockPath s)) in (fst (handle UnlockPath s'), a).
Proof.
  simpl. destruct (handle LockPath s) as [s1 []]; simpl. rewrite exec_bind.
  destruct (exec p s1) as [s2 a]. simpl. by destruct (handle UnlockPath s2).
Qed.

Lemma exec_with_iolock {S} `{!Driver S} {A} (p : prog A) s :
  exec (with_iolock p) s =
  let '(s', a) := exec p (fst (handle LockIO s)) in (fst (handle UnlockIO s'), a).
Proof.
  simpl. destruct (handle LockIO s) as [s1 []]; simpl. rewrite exec_bind.
  destruct (exec p s1) as [s2 a]. simpl. by destruct (handle UnlockIO s2).
Qed.

Lemma trace_bind {S} `{!Driver S} {A B} (p : prog A) (f : A -> prog B) s :
  trace (p ≫= f) s = trace p s ++ trace (f (snd (exec p s))) (fst (exec p s)).
Proof.
  revert s. induction p as [a|c k IH]; intros s; simpl; [done|].
  destruct (handle c s) as [s' x]. by rewrite IH.
Qed.

Lemma trace_with_lock {S} `{!Driver S} {A} (p : prog A) s :
  trace (with_lock p) s = Lock :: trace p (fst (handle Lock s)) ++ [Unlock].
Proof.
  simpl. destruct (handle Lock s) as [s1 []]; simpl. rewrite trace_bind. simpl.
  by destruct (handle Unlock _).
Qed.

Lemma trace_bind_elem {S} `{!Driver S} {A B} c (p : prog A) (f : A -> prog B) s :
  c ∈ trace p s -> c ∈ trace (p ≫= f) s.
Proof. rewrite trace_bind, elem_of_app. by left. Qed.

Lemma trace_with_lock_elem {S} `{!Driver S} {A} c (p : prog A) s :
  (forall s', c ∈ trace p s') -> c ∈ trace (with_lock p) s.
Proof.
  intros Hp. rewrite trace_with_lock, elem_of_cons, elem_of_app. right. left. apply Hp.
Qed.

(** * The lock discipline as a predicate

    The state of the filesystem lock as seen by one request. *)

Inductive held := Free | Exclusive | PathShared | IOShared.

#[export] Instance held_eq_dec : EqDecision held.
Proof. solve_decision. Defined.

(** The transition of one call; [None] when it breaks the discipline the
    server documents: path mutations, [OpenFile], [Truncate], [Sync], [Close]
    and server-side copies under the exclusive lock, read-only path calls under
    at least the path lock, [ReadAt] and [WriteAt] under at least the shared
    I/O lock. *)
Definition lock_step (h : held) (c : call) : option held :=
  match c, h with
  | Lock, Free => Some Exclusive
  | Unlock, Exclusive => Some Free
  | LockPath, Free => Some PathShared
  | UnlockPath, PathShared => Some Free
  | LockIO, Free => Some IOShared
  | UnlockIO, IOShared => Some Free
  | (Lock | Unlock | LockPath | UnlockPath | LockIO | UnlockIO), _ => None
  | RandRead, _ => Some h
  | (Stat _ | ListDir _ | ReadFile _ | ReadLink _), (Exclusive | PathShared) => Some h
  | (File_ReadAt _ _ _ | File_WriteAt _ _ _), (Exclusive | IOShared) => Some h
  | (Stat _ | ListDir _ | ReadFile _ | ReadLink _
    | File_ReadAt _ _ _ | File_WriteAt _ _ _), _ => None
  | _, Exclusive => Some h
  | _, _ => None
  end.

(** [disciplined h p Q]: started with the lock as in [h], every run of [p]
    follows the discipline and ends with a lock state and a result in [Q]. *)
Fixpoint disciplined {A} (h : held) (p : prog A) (Q : held -> A -> Prop) : Prop :=
  match p with
  | Ret a => Q h a
  | Do c k =>
      match lock_step h c with
      | Some h' => forall x, disciplined h' (k x) Q
      | None => False
      end
  end.

(** A program that starts and ends with the lock free. *)
Definition balanced {A} (p : prog A) : Prop := disciplined Free p (fun h _ => h = Free).

Lemma disciplined_bind {A B} h (p : prog A) (f : A -> prog B) Q :
  disciplined h p (fun h' a => disciplined h' (f a) Q) -> disciplined h (p ≫= f) Q.
Proof.
  revert h. induction p as [a|c k IH]; intros h; simpl; [done|].
  destruct (lock_step h c); [|done]. intros H x. by apply IH.
Qed.

Lemma disciplined_mono {A} h (p : prog A) (Q1 Q2 : held -> A -> Prop) :
  disciplined h p Q1 -> (forall h a, Q1 h a -> Q2 h a) -> disciplined h p Q2.
Proof.
  intros H HQ. revert h H. induction p as [a|c k IH]; intros h; simpl; [apply HQ|].
  destruct (lock_step h c); [|done]. intros H x. by apply IH.
Qed.

(** [stays h p]: [p] runs under the lock [h] and leaves it as it is. *)
Definition stays {A} (h : held) (p : prog A) : Prop := disciplined h p (fun h' _ => h' = h).

Lemma stays_ret {A} h (a : A) : stays h (mret a).
Proof. done. Qed.

Lemma stays_bind {A B} h (p : prog A) (f : A -> prog B) :
  stays h p -> (forall a, stays h (f a)) -> stays h (p ≫= f).
Proof.
  intros Hp Hf. apply disciplined_bind. eapply disciplined_mono; [done|].
  intros h' a ->. apply Hf.
Qed.

Lemma stays_do h c : lock_step h c = Some h -> stays h (do_ c).
Proof. intros H. unfold stays; simpl. by rewrite H. Qed.

Lemma balanced_with_lock {A} (p : prog A) : stays Exclusive p -> balanced (with_lock p).
Proof.
  intros Hp. intros x. simpl. apply disciplined_bind.
  eapply disciplined_mono; [done|]. by intros h a ->.
Qed.

Lemma balanced_with_rlock {A} (p : prog A) : stays PathShared p -> balanced (with_rlock p).
Proof.
  intros Hp. intros x. simpl. apply disciplined_bind.
  eapply disciplined_mono; [done|]. by intros h a ->.
Qed.

Lemma balanced_with_iolock {A} (p : prog A) : stays IOShared p -> balanced (with_iolock p).
Proof.
  intros Hp. intros x. simpl. apply disciplined_bind.
  eapply disciplined_mono; [done|]. by intros h a ->.
Qed.

#[global] Opaque with_lock with_rlock with_iolock.
