(* ===== verification/Server.v ===== *)
(** The server's configuration and the limits it advertises:
    [src/server.go], [src/limits.go], [src/file.go] and the feature tests of
    [src/copydata.go]. *)

From S2P Require Import Prelude Codec Const Attrs Messages Packet Driver.

(** What the exported filesystem's dynamic type implements: the outcome of the
    type assertions [fsys.(filesystem.Truncater)] and so on. *)
Record Caps := {
  is_Truncater : bool;
  is_MetadataSetter : bool;
  is_Symlinker : bool;
  is_Opener : bool
}.

(** [Server], without the two [inflight] objects ([pool], [fs]) that [New]
    builds from [maxTotal] and [pathConcurrent]. *)
Record Server := {
  fsys : Caps;
  opener : bool;           (** whether the [opener] field is non-nil *)
  ro : bool;
  maxPacket : Z;
  start : Z;
  maxInFlight : Z;
  maxTotal : Z;
  packetWait : Z;
  pathConcurrent : bool
}.

(** [openerFor(fsys)]: whether it returns a non-nil Opener. *)
Definition openerFor (c : Caps) : bool := is_Opener c.

Definition DefaultMaxInFlight : Z := 64.
Definition MaxInFlightLimit : Z := 1024.
Definition DefaultMaxInFlightTotal : Z := 256.

(** 30 seconds, in nanoseconds. *)
Definition DefaultPacketTimeout : Z := 30 * 10 ^ 9.

(** * Options *)

Definition Option_ : Type := Server -> Server.

Definition set_ro (b : bool) (s : Server) : Server :=
  {| fsys := fsys s; opener := opener s; ro := b; maxPacket := maxPacket s; start := start s;
     maxInFlight := maxInFlight s; maxTotal := maxTotal s; packetWait := packetWait s;
     pathConcurrent := pathConcurrent s |}.

Definition WithMaxInFlight (n : Z) : Option_ := fun s =>
  {| fsys := fsys s; opener := opener s; ro := ro s; maxPacket := maxPacket s; start := start s;
     maxInFlight := Z.min n MaxInFlightLimit; maxTotal := maxTotal s;
     packetWait := packetWait s; pathConcurrent := pathConcurrent s |}.

Definition WithMaxInFlightTotal (n : Z) : Option_ := fun s =>
  {| fsys := fsys s; opener := opener s; ro := ro s; maxPacket := maxPacket s; start := start s;
     maxInFlight := maxInFlight s; maxTotal := n; packetWait := packetWait s;
     pathConcurrent := pathConcurrent s |}.

Definition WithPacketTimeout (d : Z) : Option_ := fun s =>
  {| fsys := fsys s; opener := opener s; ro := ro s; maxPacket := maxPacket s; start := start s;
     maxInFlight := maxInFlight s; maxTotal := maxTotal s; packetWait := d;
     pathConcurrent := pathConcurrent s |}.

Definition PathOpsConcurrent : Option_ := fun s =>
  {| fsys := fsys s; opener := opener s; ro := ro s; maxPacket := maxPacket s; start := start s;
     maxInFlight := maxInFlight s; maxTotal := maxTotal s; packetWait := packetWait s;
     pathConcurrent := true |}.

Definition ReadWrite : Option_ := fun s => set_ro false s.

Definition WithMaxPacket (n : Z) : Option_ := fun s =>
  {| fsys := fsys s; opener := opener s; ro := ro s; maxPacket := n; start := start s;
     maxInFlight := maxInFlight s; maxTotal := maxTotal s; packetWait := packetWait s;
     pathConcurrent := pathConcurrent s |}.

Inductive new_error := ErrNilFilesystem.

(** [New(fsys, opts...)]; [now] is [time.Now().Unix()]. *)
Definition New (fs : option Caps) (now : Z) (opts : list Option_) : outcome new_error Server :=
  match fs with
  | None => Err ErrNilFilesystem
  | Some c =>
      let s := {| fsys := c; opener := openerFor c; ro := true; maxPacket := 0;
                  start := uint32 now; maxInFlight := 0; maxTotal := 0; packetWait := 0;
                  pathConcurrent := false |} in
      let s := fold_left (fun s o => o s) opts s in
      let s := if maxTotal s <=? 0 then WithMaxInFlightTotal DefaultMaxInFlightTotal s else s in
      Ok s
  end.

Definition ReadOnly (s : Server) : bool := ro s.

(** * Limits *)

Definition packetTimeout (s : Server) : Z :=
  if packetWait s =? 0 then DefaultPacketTimeout
  else if packetWait s <? 0 then 0
  else packetWait s.

Definition packetLimit (s : Server) : Z :=
  if maxPacket s <=? 0 then MaxPacket else maxPacket s.

(** The number of slots [Serve] asks [NewConn] for. *)
Definition serveSlots (s : Server) : Z :=
  if maxInFlight s <=? 0 then DefaultMaxInFlight else maxInFlight s.

Definition maxReadLength : Z := Z.shiftl 256 10 - 1024.
Definition maxOpenHandles : Z := 1024.

Definition readLength (s : Server) : Z := Z.min maxReadLength (packetLimit s).

Definition writeOverhead : Z := 4 + 1 + 4 + (4 + 2 * Z.of_nat handleBytes) + 8 + 4.

Definition writeLength (s : Server) : Z :=
  Z.max (Z.min maxReadLength (packetLimit s - writeOverhead)) 1.

Definition limitsReply (s : Server) (id : Z) : ExtendedReply :=
  let data := be64 (uint64 (packetLimit s)) in
  let data := data ++ be64 (uint64 (readLength s)) in
  let data := data ++ be64 (uint64 (writeLength s)) in
  let data := data ++ be64 maxOpenHandles in
  {| xr_ID := id; xr_Data := data |}.

(** * Extensions *)

Definition limitsExtension : bytes := str "limits@openssh.com".
Definition copyDataExtension : bytes := str "copy-data".

Definition copiesData (s : Server) : bool := is_Opener (fsys s) && negb (ro s).

Definition extensions (s : Server) : list ExtendedPair :=
  let ext := [{| ep_Type := limitsExtension; ep_Data := str "1" |}] in
  if copiesData s then ext ++ [{| ep_Type := copyDataExtension; ep_Data := str "1" |}] else ext.

(** * Lemmas *)

Lemma packetLimit_pos s : 0 < packetLimit s.
Proof. unfold packetLimit. case_if; [rewrite MaxPacket_val; lia|lia]. Qed.

Lemma maxReadLength_val : maxReadLength = 261120.
Proof. done. Qed.

Lemma readLength_bounds s : 0 < readLength s <= 261120.
Proof.
  unfold readLength. pose proof (packetLimit_pos s). rewrite maxReadLength_val. lia.
Qed.

Lemma eff_max_packetLimit s : eff_max (packetLimit s) = packetLimit s.
Proof.
  unfold eff_max. pose proof (packetLimit_pos s). by rewrite (proj2 (Z.leb_gt _ _)).
Qed.

(** The options the package exports. *)
Inductive is_option : Option_ -> Prop :=
| opt_rw : is_option ReadWrite
| opt_inflight n : is_option (WithMaxInFlight n)
| opt_total n : is_option (WithMaxInFlightTotal n)
| opt_timeout d : is_option (WithPacketTimeout d)
| opt_path : is_option PathOpsConcurrent
| opt_packet n : is_option (WithMaxPacket n).

Lemma options_fold l s :
  Forall is_option l ->
  let s' := fold_left (fun s o => o s) l s in
  (ro s' = false -> ro s = false \/ ReadWrite ∈ l) /\
  fsys s' = fsys s /\ opener s' = opener s /\ start s' = start s /\
  (maxInFlight s <= MaxInFlightLimit -> maxInFlight s' <= MaxInFlightLimit).
Proof.
  revert s. induction l as [|o l IH]; intros s Hl; [simpl; auto|].
  apply Forall_cons in Hl as [Ho Hl].
  destruct (IH (o s) Hl) as (H1 & H2 & H3 & H4 & H5). simpl.
  destruct Ho; simpl in *; split_and!; auto.
  1: intros; right; constructor.
  2: intros _; apply H5; lia.
  all: intros [?|?]%H1; [by left|right; by constructor].
Qed.

(** * Properties *)

(** Exports are read-only unless [ReadWrite] is among the options; the
    in-flight bounds end up positive and within their ceilings whatever the
    options say, and a nil filesystem is refused at construction. *)
Theorem New_read_only_by_default c now opts :
  Forall is_option opts ->
  New None now opts = Err ErrNilFilesystem /\
  exists s, New (Some c) now opts = Ok s /\
    (ro s = false -> ReadWrite ∈ opts) /\
    0 < maxTotal s /\ 0 < serveSlots s <= MaxInFlightLimit /\
    0 < packetLimit s /\ 0 <= packetTimeout s /\
    fsys s = c /\ opener s = is_Opener c /\ u32 (start s).
Proof.
  intros Ho. split; [done|]. eexists; split; [done|].
  match goal with |- context [fold_left ?f opts ?s0] =>
    destruct (options_fold opts s0 Ho) as (H1 & H2 & H3 & H4 & H5);
    set (s := fold_left f opts s0) in * end.
  simpl in *. assert (maxInFlight s <= MaxInFlightLimit) as H6 by by apply H5.
  assert (0 < serveSlots s <= MaxInFlightLimit) as H7.
  { unfold serveSlots, MaxInFlightLimit, DefaultMaxInFlight in *. case_if; lia. }
  assert (0 <= packetTimeout s) as H8.
  { unfold packetTimeout, DefaultPacketTimeout. repeat case_if; lia. }
  assert (u32 (start s)) as H9 by (rewrite H4; apply uint32_u32).
  pose proof (packetLimit_pos s) as H10.
  destruct (maxTotal s <=? 0) eqn:E; bool_prop; split_and!; try done; try apply H7.
  all: intros [?|?]%H1; done.
Qed.

Lemma New_read_only_by_default_witness :
  exists s, New (Some {| is_Truncater := true; is_MetadataSetter := false;
                         is_Symlinker := false; is_Opener := true |}) 0
              [WithMaxInFlight 5000; PathOpsConcurrent] = Ok s /\ ro s = true /\
            serveSlots s = 1024.
Proof.
  destruct (New_read_only_by_default
    {| is_Truncater := true; is_MetadataSetter := false; is_Symlinker := false;
       is_Opener := true |} 0 [WithMaxInFlight 5000; PathOpsConcurrent]) as (_ & s & E & _).
  { repeat constructor. }
  exists s. split; [exact E|]. injection E as <-. split; reflexivity.
Defined.
