(* ===== verification/Limits.v ===== *)
(** The advertised limits against the enforced ones: theorems on
    [src/limits.go] and the codec it relies on. *)

From S2P Require Import Prelude Codec Const Attrs Messages WireLaws Packet Driver Server.

Lemma payload_WriteRequest m : wr_wf m ->
  payload_of m = be32 (wr_ID m) ++ wire_string (wr_Handle m) ++ be64 (wr_Offset m) ++
                 wire_string (wr_Data m).
Proof. intros (? & ? & ? & ?). by enc_simpl. Qed.

Lemma payload_DataReply m : dr_wf m ->
  payload_of m = be32 (dr_ID m) ++ wire_string (dr_Data m).
Proof. intros (? & ?). by enc_simpl. Qed.

Lemma len_wire_string s : len (wire_string s) = 4 + len s.
Proof. unfold wire_string. by rewrite len_app, len_be32. Qed.
#[export] Hint Rewrite len_wire_string : len.

(** The advertised limits are honest. A WRITE on one of this server's
    handles (32 characters) carrying at most the advertised write length is
    read by [ReadPacket] under the packet limit in force and decoded, for every
    packet limit that has room for a WRITE at all. *)
Theorem advertised_write_accepted s m rest e cap :
  wr_wf m -> len (wr_Handle m) = 2 * Z.of_nat handleBytes ->
  len (wr_Data m) <= writeLength s -> writeOverhead - 3 <= packetLimit s ->
  rp_out (ReadPacket {| avail := frame_bytes FxpWrite (payload_of m) ++ rest; fin := e |}
            cap (packetLimit s)) = Ok (FxpWrite, payload_of m) /\
  DecodeWrite (payload_of m) = Ok m.
Proof.
  intros Hm Hh Hd Hp. split; [|exact (decode_encode (M:=WriteRequest) m Hm)].
  assert (len (payload_of m) = 52 + len (wr_Data m)) as Hl.
  { rewrite payload_WriteRequest by done. autorewrite with len. rewrite Hh.
    unfold handleBytes. lia. }
  pose proof (len_nonneg (wr_Data m)).
  unfold writeLength, writeOverhead, handleBytes in *. rewrite maxReadLength_val in Hd.
  apply ReadPacket_frame; [done|unfold u32; lia|]. rewrite eff_max_packetLimit. lia.
Qed.

Lemma advertised_write_accepted_witness :
  let s := {| fsys := {| is_Truncater := true; is_MetadataSetter := true;
                         is_Symlinker := true; is_Opener := true |};
              opener := true; ro := false; maxPacket := 100; start := 0; maxInFlight := 0;
              maxTotal := 1; packetWait := 0; pathConcurrent := false |} in
  let m := {| wr_ID := 7; wr_Handle := repeat x61 32; wr_Offset := 0;
              wr_Data := repeat x62 43 |} in
  writeLength s = 43 /\
  rp_out (ReadPacket {| avail := frame_bytes FxpWrite (payload_of m) ++ []; fin := EOF |}
            0 (packetLimit s)) = Ok (FxpWrite, payload_of m) /\
  DecodeWrite (payload_of m) = Ok m.
Proof.
  split; [reflexivity|].
  apply (advertised_write_accepted
    {| fsys := {| is_Truncater := true; is_MetadataSetter := true;
                  is_Symlinker := true; is_Opener := true |};
       opener := true; ro := false; maxPacket := 100; start := 0; maxInFlight := 0;
       maxTotal := 1; packetWait := 0; pathConcurrent := false |}
    {| wr_ID := 7; wr_Handle := repeat x61 32; wr_Offset := 0; wr_Data := repeat x62 43 |});
    by vm_compute.
Defined.

(** The four numbers of [limits@openssh.com], in the order the extension
    defines them, decode to the limits the server enforces; the read length
    keeps a DATA reply, length prefix included, under 256 KiB. *)
Theorem limitsReply_decodes s id :
  u64 (packetLimit s) ->
  (exists d, (p ← Decoder_Uint64; r ← Decoder_Uint64; w ← Decoder_Uint64;
              h ← Decoder_Uint64; _ ← Decoder_End; mret (p, r, w, h))
     (NewDecoder (xr_Data (limitsReply s id))) =
     (d, Ok (packetLimit s, readLength s, writeLength s, maxOpenHandles))) /\
  (forall m, dr_wf m -> len (dr_Data m) <= readLength s ->
     len (frame_bytes FxpData (payload_of m)) <= 256 * 1024).
Proof.
  intros Hp. pose proof (readLength_bounds s). split.
  - assert (u64 (readLength s)) by (unfold u64; lia).
    assert (u64 (writeLength s)) by (unfold u64, writeLength; rewrite maxReadLength_val; lia).
    assert (u64 maxOpenHandles) by done.
    unfold limitsReply; cbn [xr_Data]. rewrite !uint64_id by done.
    rewrite <- !app_assoc, <- (app_nil_r (be64 maxOpenHandles)).
    match goal with |- exists d, ?m (NewDecoder ?x) = (d, Ok ?a) =>
      enough (decodes_all m x a) as H' by apply (H' _ (at_new _)) end.
    repeat (eapply decodes_all_bind; [by apply decodes_Uint64|]). apply decodes_all_end.
  - intros m Hm Hl. unfold frame_bytes. rewrite payload_DataReply by done.
    autorewrite with len. lia.
Qed.

Lemma limitsReply_decodes_witness :
  let s := {| fsys := {| is_Truncater := true; is_MetadataSetter := true;
                         is_Symlinker := true; is_Opener := true |};
              opener := true; ro := false; maxPacket := 1024; start := 0; maxInFlight := 0;
              maxTotal := 1; packetWait := 0; pathConcurrent := false |} in
  exists d, (p ← Decoder_Uint64; r ← Decoder_Uint64; w ← Decoder_Uint64;
             h ← Decoder_Uint64; _ ← Decoder_End; mret (p, r, w, h))
     (NewDecoder (xr_Data (limitsReply s 9))) = (d, Ok (1024, 1024, 967, 1024)).
Proof.
  apply (limitsReply_decodes
    {| fsys := {| is_Truncater := true; is_MetadataSetter := true;
                  is_Symlinker := true; is_Opener := true |};
       opener := true; ro := false; maxPacket := 1024; start := 0; maxInFlight := 0;
       maxTotal := 1; packetWait := 0; pathConcurrent := false |} 9). done.
Defined.
