(* ===== verification/Handle.v ===== *)
(** The handle table of a session: [src/handle.go]. *)

From S2P Require Import Prelude Errors Path Driver Server.

(** What one handle refers to. [of_file] and [of_writable] are the two
    interface fields, [None] for nil. *)
Record openFile := {
  of_path : bytes;
  of_dir : bool;
  of_entries : list bytes;
  of_pos : Z;
  of_file : option File;
  of_writable : option File;
  of_write : bool
}.

(** [&openFile{path: path, write: write}]. *)
Definition new_openFile (path : bytes) (write : bool) : openFile :=
  {| of_path := path; of_dir := false; of_entries := []; of_pos := 0;
     of_file := None; of_writable := None; of_write := write |}.

(** [&openFile{path: path, dir: true, entries: entries}]. *)
Definition new_openDir (path : bytes) (entries : list bytes) : openFile :=
  {| of_path := path; of_dir := true; of_entries := entries; of_pos := 0;
     of_file := None; of_writable := None; of_write := false |}.

Definition set_pos (pos : Z) (h : openFile) : openFile :=
  {| of_path := of_path h; of_dir := of_dir h; of_entries := of_entries h; of_pos := pos;
     of_file := of_file h; of_writable := of_writable h; of_write := of_write h |}.

Definition set_files (file writable : option File) (h : openFile) : openFile :=
  {| of_path := of_path h; of_dir := of_dir h; of_entries := of_entries h; of_pos := of_pos h;
     of_file := file; of_writable := writable; of_write := of_write h |}.

(** [handles]: a map from token to handle. Each entry is one pointer that no
    other entry shares, so the map holds the values. *)
Abbreviation handles := (gmap bytes openFile).

Definition newHandles : handles := ∅.

(** * encoding/hex *)

Definition hex_digit (n : Z) : byte :=
  if n <? 10 then byte_of (48 + n) else byte_of (87 + n).

Definition EncodeToString (b : bytes) : bytes :=
  flat_map (fun x => [hex_digit (Z.shiftr (byte_val x) 4); hex_digit (Z.land (byte_val x) 15)]) b.

(** * The table's methods *)

Definition handles_add (t : handles) (h : openFile) : prog (handles * (error + bytes)) :=
  r ← do_ RandRead;
  match r with
  | (_, Some err) => mret (t, inl err)
  | (b, None) =>
      let tok := EncodeToString (vec_to_list b) in
      mret (<[tok := h]> t, inr tok)
  end.

Definition handles_full (t : handles) : bool := Z.of_nat (size t) >=? maxOpenHandles.

Definition handles_get (t : handles) (tok : bytes) : option openFile := t !! tok.

Definition handles_remove (t : handles) (tok : bytes) : handles * option openFile :=
  match t !! tok with
  | Some h => (delete tok t, Some h)
  | None => (t, None)
  end.

(** [closeAll]: Go ranges over a map in an unspecified order, so the order is an
    argument, constrained by the theorems to list each entry once. *)
Fixpoint closeAll (order : list (bytes * openFile)) (t : handles) (first : option error)
  : prog (handles * option error) :=
  match order with
  | [] => mret (t, first)
  | (tok, h) :: order =>
      first ← match of_file h with
              | Some f =>
                  err ← do_ (File_Close f);
                  mret (match first with Some e => Some e | None => err end)
              | None => mret first
              end;
      closeAll order (delete tok t) first
  end.

(** * Invariants *)

(** A handle is a file or a directory, never both; a writable half is the file
    itself, on a handle opened for writing; the cursor is within the listing. *)
Record handle_wf (h : openFile) : Prop := {
  hw_path : is_clean (of_path h);
  hw_dir : of_dir h = true -> of_file h = None /\ of_writable h = None /\ of_write h = false;
  hw_writable : forall f, of_writable h = Some f ->
    of_file h = Some f /\ f_writable f = true /\ of_write h = true;
  hw_stale : of_write h = true -> of_writable h = None -> of_file h = None;
  hw_pos : 0 <= of_pos h <= len (of_entries h)
}.

(** The session's table: at most [maxOpenHandles] well-formed handles. *)
Definition table_wf (t : handles) : Prop :=
  Z.of_nat (size t) <= maxOpenHandles /\ map_Forall (fun _ => handle_wf) t.

(** No handle of a read-only export was opened for writing. *)
Definition table_ro (s : Server) (t : handles) : Prop :=
  ro s = true -> map_Forall (fun _ h => of_write h = false) t.

Lemma EncodeToString_len b : len (EncodeToString b) = 2 * len b.
Proof. induction b as [|x b IH]; [done|]. simpl. rewrite !len_cons, IH. lia. Qed.

Lemma token_len (b : vec byte handleBytes) : len (EncodeToString (vec_to_list b)) = 32.
Proof. rewrite EncodeToString_len. unfold len. by rewrite length_vec_to_list. Qed.

Lemma hex_digit_inj a b :
  0 <= a < 16 -> 0 <= b < 16 -> hex_digit a = hex_digit b -> a = b.
Proof.
  intros Ha Hb. unfold hex_digit. do 2 case_if; intros H%byte_of_inj; lia.
Qed.

Lemma EncodeToString_inj b1 b2 : EncodeToString b1 = EncodeToString b2 -> b1 = b2.
Proof.
  revert b2. induction b1 as [|x b1 IH]; intros [|y b2]; simpl; try done.
  intros [= H1 H2 H3%IH]. subst. f_equal.
  pose proof (byte_val_range x). pose proof (byte_val_range y).
  rewrite !Z.shiftr_div_pow2 in H1 by lia.
  change 15 with (Z.ones 4) in H2. rewrite !Z.land_ones in H2 by lia.
  apply hex_digit_inj in H1; [|Z.div_mod_to_equations; lia..].
  apply hex_digit_inj in H2; [|Z.div_mod_to_equations; lia..].
  rewrite <- (byte_of_val x), <- (byte_of_val y). f_equal.
  Z.div_mod_to_equations; lia.
Qed.

Lemma handles_full_false t : handles_full t = false -> Z.of_nat (size t) < maxOpenHandles.
Proof. unfold handles_full. intros H. bool_prop. lia. Qed.

Lemma table_wf_insert t tok h :
  table_wf t -> handle_wf h -> Z.of_nat (size t) < maxOpenHandles ->
  table_wf (<[tok := h]> t).
Proof.
  intros [Hs Ht] Hh Hf. split; [|by apply map_Forall_insert_2].
  destruct (t !! tok) eqn:E.
  - rewrite map_size_insert_Some by done. lia.
  - rewrite map_size_insert_None by done. lia.
Qed.

Lemma table_wf_update t tok h h' :
  table_wf t -> t !! tok = Some h -> handle_wf h' -> table_wf (<[tok := h']> t).
Proof.
  intros [Hs Ht] E Hh. split; [|by apply map_Forall_insert_2].
  by rewrite map_size_insert_Some.
Qed.

Lemma table_wf_delete t tok : table_wf t -> table_wf (delete tok t).
Proof.
  intros [Hs Ht]. split; [|by apply map_Forall_delete].
  destruct (t !! tok) eqn:E.
  - rewrite map_size_delete_Some by done. lia.
  - by rewrite delete_id.
Qed.

Lemma table_wf_lookup t tok h : table_wf t -> t !! tok = Some h -> handle_wf h.
Proof. intros [_ Ht] E. exact (Ht tok h E). Qed.

#[export] Hint Resolve table_wf_insert table_wf_delete : go.
