(* ===== verification/Attr.v ===== *)
(** From a driver's Stat to wire attributes and listing lines:
    [src/attr.go]. *)

From S2P Require Import Prelude Codec Const Attrs Driver Server.

Definition attrsFromStat (s : Server) (st : StatInfo) : Attributes :=
  let mode := uint32 (s_Mode st) in
  let mode := if Z.land mode ModeFmt =? 0 then Z.lor mode ModeReg else mode in
  (* [a.Permissions &^= 0o222] *)
  let perms := if ro s then Z.ldiff mode 0x92 else mode in
  let time := match s_ModTime st with Some t => uint32 t | None => start s end in
  {| aFlags := Z.lor (Z.lor (Z.lor AttrSize AttrUIDGID) AttrPermissions) AttrACModTime;
     aSize := s_Size st; aUID := 0; aGID := 0; aPermissions := perms;
     aAtime := time; aMtime := time; aExtended := [] |}.

(** * longName *)

(** [strconv.FormatUint(v, 10)]: 20 digits hold any 64-bit value. *)
Fixpoint format_digits (fuel : nat) (v : Z) (acc : bytes) : bytes :=
  match fuel with
  | O => acc
  | S fuel =>
      let acc := byte_of (48 + v mod 10) :: acc in
      if v <? 10 then acc else format_digits fuel (v / 10) acc
  end.

Definition FormatUint (v : Z) : bytes := format_digits 20 v [].

(** The civil date of a day count since 1970-01-01: (month, day). The algorithm
    is the usual one on years that begin in March. *)
Definition civil_of_days (days : Z) : Z * Z :=
  let z := days + 719468 in
  let doe := z mod 146097 in
  let yoe := (doe - doe / 1460 + doe / 36524 - doe / 146096) / 365 in
  let doy := doe - (365 * yoe + yoe / 4 - yoe / 100) in
  let mp := (5 * doy + 2) / 153 in
  let d := doy - (153 * mp + 2) / 5 + 1 in
  let m := if mp <? 10 then mp + 3 else mp - 9 in
  (m, d).

Definition month_name (m : Z) : bytes :=
  default (str "Dec")
    ([str "Jan"; str "Feb"; str "Mar"; str "Apr"; str "May"; str "Jun";
      str "Jul"; str "Aug"; str "Sep"; str "Oct"; str "Nov"] !! Z.to_nat (m - 1)).

Definition digit2 (pad : byte) (v : Z) : bytes :=
  [if v <? 10 then pad else byte_of (48 + v / 10); byte_of (48 + v mod 10)].

(** [time.Unix(sec, 0).UTC().Format("Jan _2 15:04")]. *)
Definition format_time (sec : Z) : bytes :=
  let '(m, d) := civil_of_days (sec / 86400) in
  month_name m ++ str " " ++ digit2 x20 d ++ str " " ++
  digit2 x30 (sec mod 86400 / 3600) ++ str ":" ++ digit2 x30 (sec mod 3600 / 60).

Definition typeLetter (mode : Z) : byte :=
  let t := Z.land mode ModeFmt in
  if t =? ModeDir then x64
  else if t =? ModeLink then x6c
  else if t =? ModeChar then x63
  else if t =? ModeBlock then x62
  else if t =? ModeFifo then x70
  else if t =? ModeSock then x73
  else x2d.

(** [setBit(pos, bit, set, unset)] of [modeString]. *)
Definition setBit (mode : Z) (pos : nat) (bit : Z) (set unset : byte) (out : bytes) : bytes :=
  if Z.land mode bit =? 0 then out
  else if decide (out !! pos = Some x78) then <[pos := set]> out
  else <[pos := unset]> out.

(** The [rwx] loop of [modeString], for positions [i], [i+1], .... *)
Fixpoint rwx_loop (mode : Z) (i : nat) (rwx : bytes) (out : bytes) : bytes :=
  match rwx with
  | [] => out
  | c :: rwx =>
      let out := if has mode (Z.shiftl 1 (8 - Z.of_nat i)) then <[S i := c]> out else out in
      rwx_loop mode (S i) rwx out
  end.

Definition modeString (mode : Z) : bytes :=
  let out := str "----------" in
  let out := <[O := typeLetter mode]> out in
  let out := rwx_loop mode 0 (str "rwxrwxrwx") out in
  let out := setBit mode 3 0x800 x73 x53 out in
  let out := setBit mode 6 0x400 x73 x53 out in
  setBit mode 9 0x200 x74 x54 out.

Definition longName (name : bytes) (a : Attributes) : bytes :=
  modeString (aPermissions a) ++ str " 1 " ++
  FormatUint (aUID a) ++ str " " ++ FormatUint (aGID a) ++ str " " ++
  FormatUint (aSize a) ++ str " " ++ format_time (aMtime a) ++ str " " ++ name.

(** [unixTime(sec)]: a [time.Time] is its Unix second. *)
Definition unixTime (sec : Z) : Z := sec.

Example longName_example :
  longName (str "hello.txt")
    {| aFlags := 15; aSize := 1234; aUID := 0; aGID := 0; aPermissions := 0x81A4;
       aAtime := 1700000000; aMtime := 1700000000; aExtended := [] |} =
  str "-rw-r--r-- 1 0 0 1234 Nov 14 22:13 hello.txt".
Proof. by vm_compute. Qed.

Example modeString_setuid : modeString 0x89E9 = str "-rwsr-x--x".
Proof. by vm_compute. Qed.
