(* ===== verification/Ops.v ===== *)
(** The request handlers: [src/ops.go], with [status] and [badMessage] of
    [src/session.go] and [satAdd] of [src/concurrent.go].

    A handler is a [prog]: the driver and lock calls it makes, in order, and the
    reply it ends with. A handler that touches the handle table takes it and
    returns it. [defer unlock()] runs after the reply is computed. *)

From S2P Require Import Prelude Codec Const Attrs Messages Errors Path Driver Server Handle.
From S2P Require Import Attr.

(** The replies the server sends: the [wire.Message] values of the handlers. *)
Inductive Reply :=
| RStatus (m : StatusReply)
| RHandle (m : HandleReply)
| RData (m : DataReply)
| RName (m : NameReply)
| RAttrs (m : AttrsReply)
| RExtended (m : ExtendedReply).

#[export] Instance Reply_Message : Message Reply := {
  msg_Type r :=
    match r with
    | RStatus m => msg_Type m | RHandle m => msg_Type m | RData m => msg_Type m
    | RName m => msg_Type m | RAttrs m => msg_Type m | RExtended m => msg_Type m
    end;
  EncodePayload r :=
    match r with
    | RStatus m => EncodePayload m | RHandle m => EncodePayload m | RData m => EncodePayload m
    | RName m => EncodePayload m | RAttrs m => EncodePayload m | RExtended m => EncodePayload m
    end
}.

(** The request id a reply carries. *)
Definition reply_id (r : Reply) : Z :=
  match r with
  | RStatus m => st_ID m | RHandle m => hp_ID m | RData m => dr_ID m
  | RName m => nr_ID m | RAttrs m => ar_ID m | RExtended m => xr_ID m
  end.

(** [status(id, code, msg)]. *)
Definition status (id code : Z) (msg : bytes) : Reply :=
  RStatus {| st_ID := id; st_Code := code; st_Message := msg; st_Lang := [] |}.

Definition readdirBatch : Z := 64.
Definition errReadOnly : bytes := str "export is read-only".
Definition errTooManyHandles : error := errors_New (str "too many open handles").

(** [satAdd(a, b)] on unsigned 64-bit values. *)
Definition satAdd (a b : Z) : Z :=
  if a >? MaxUint64 - b then MaxUint64 else uint64 (a + b).

Definition maxSpliceGrowth : Z := Z.shiftl 8 20.
Definition maxFileSplice : Z := Z.shiftl 1 30.

Definition wantsWrite (pflags : Z) : bool :=
  has pflags (Z.lor (Z.lor (Z.lor (Z.lor FxfWrite FxfAppend) FxfCreat) FxfTrunc) FxfExcl).

(** [copy(buf[off:], data)], for [off <= len(buf)]. *)
Definition copy_at (buf : bytes) (off : Z) (data : bytes) : bytes :=
  let n := Z.to_nat off in
  take n buf ++ take (length buf - n) data ++ drop (n + length data) buf.

(** [buf := make([]byte, end); copy(buf, old)], for [len(old) <= end]. *)
Definition grow (old : bytes) (end_ : Z) : bytes :=
  old ++ replicate (Z.to_nat end_ - length old) x00.

(** A resolved path, or the reply that refuses it. *)
Definition resolve (id : Z) (p : bytes) : Reply + bytes :=
  match clean p with
  | None => inl (status id StatusFailure (str "invalid path"))
  | Some c => inr c
  end.

Section ops.
Context {UT : UnicodeTables} (srv : Server).

(** [status(id, statusFor(err, fallback), errText(err))]. *)
Definition fail_with (id : Z) (err : option error) (fallback : Z) : Reply :=
  status id (statusFor err fallback) (errText err).

(** * Metadata *)

Definition opStat (m : PathRequest) : prog Reply :=
  match resolve (pr_ID m) (pr_Path m) with
  | inl bad => mret bad
  | inr path =>
      with_rlock (
        r ← do_ (Stat path);
        match r with
        | (_, Some err) => mret (fail_with (pr_ID m) (Some err) StatusNoSuchFile)
        | (None, None) => mret (status (pr_ID m) StatusFailure (str "driver returned no stat"))
        | (Some st, None) =>
            mret (RAttrs {| ar_ID := pr_ID m; ar_Attrs := attrsFromStat srv st |})
        end)
  end.

Definition opFstat (t : handles) (m : HandleRequest) : prog Reply :=
  match handles_get t (hr_Handle m) with
  | None => mret (status (hr_ID m) StatusFailure (str "unknown handle"))
  | Some h => opStat {| pr_PacketType := 0; pr_ID := hr_ID m; pr_Path := of_path h |}
  end.

(** The metadata half of [opSetstat], after a successful truncation. *)
Definition setstat_metadata (id : Z) (path : bytes) (a : Attributes) : prog Reply :=
  if negb (is_MetadataSetter (fsys srv)) then mret (status id StatusOK [])
  else
    e1 ← (if has (aFlags a) AttrPermissions
          then do_ (Chmod path (Z.land (aPermissions a) ModePerm)) else mret None);
    match e1 with
    | Some err => mret (fail_with id (Some err) StatusFailure)
    | None =>
        e2 ← (if has (aFlags a) AttrUIDGID
              then do_ (Chown path (aUID a) (aGID a)) else mret None);
        match e2 with
        | Some err => mret (fail_with id (Some err) StatusFailure)
        | None =>
            e3 ← (if has (aFlags a) AttrACModTime
                  then do_ (Chtimes path (unixTime (aAtime a)) (unixTime (aMtime a)))
                  else mret None);
            match e3 with
            | Some err => mret (fail_with id (Some err) StatusFailure)
            | None => mret (status id StatusOK [])
            end
        end
    end.

Definition opSetstat (id : Z) (path : bytes) (a : Attributes) : prog Reply :=
  if ro srv then mret (status id StatusPermissionDenied errReadOnly)
  else with_lock (
    if has (aFlags a) AttrSize then
      if negb (is_Truncater (fsys srv)) then
        mret (status id StatusOpUnsupported (str "driver cannot truncate"))
      else if aSize a >? MaxInt64 then
        mret (status id StatusFailure (str "size beyond what a file can hold"))
      else
        err ← do_ (Truncate path (int64 (aSize a)));
        match err with
        | Some err => mret (fail_with id (Some err) StatusFailure)
        | None => setstat_metadata id path a
        end
    else setstat_metadata id path a).

(** * Directories *)

Definition opOpendir (t : handles) (m : PathRequest) : prog (handles * Reply) :=
  match resolve (pr_ID m) (pr_Path m) with
  | inl bad => mret (t, bad)
  | inr path =>
      if handles_full t then
        mret (t, status (pr_ID m) StatusFailure (Error errTooManyHandles))
      else with_rlock (
        r ← do_ (Stat path);
        match r with
        | (_, Some err) => mret (t, fail_with (pr_ID m) (Some err) StatusNoSuchFile)
        | (None, None) =>
            mret (t, status (pr_ID m) StatusFailure (str "driver returned no stat"))
        | (Some st, None) =>
            if negb (Z.land (uint32 (s_Mode st)) ModeFmt =? ModeDir) then
              mret (t, status (pr_ID m) StatusFailure (str "not a directory"))
            else
              l ← do_ (ListDir path);
              match l with
              | (_, Some err) => mret (t, fail_with (pr_ID m) (Some err) StatusFailure)
              | (entries, None) =>
                  r ← handles_add t (new_openDir path entries);
                  match r with
                  | (t, inr tok) => mret (t, RHandle {| hp_ID := pr_ID m; hp_Handle := tok |})
                  | (t, inl err) => mret (t, status (pr_ID m) StatusFailure (errText (Some err)))
                  end
              end
        end)
  end.

(** The body of the loop of [readdirBatch]: the item of one entry, if any. *)
Definition readdir_entry (dir name : bytes) : prog (option NameItem) :=
  match join dir name with
  | None => mret None
  | Some full =>
      r ← do_ (Stat full);
      match r with
      | (Some st, None) =>
          let a := attrsFromStat srv st in
          mret (Some {| ni_Filename := name; ni_Longname := longName name a; ni_Attrs := a |})
      | _ => mret None
      end
  end.

(** [s.readdirBatch(h, batch)]. *)
Fixpoint readdir_items (dir : bytes) (batch : list bytes) : prog (list NameItem) :=
  match batch with
  | [] => mret []
  | name :: batch =>
      it ← readdir_entry dir name;
      its ← readdir_items dir batch;
      mret (option_list it ++ its)
  end.

(** The loop of [opReaddir], [for h.pos < len(h.entries)]. Every iteration
    advances the cursor, so [length entries] iterations are enough. *)
Fixpoint readdir_loop (fuel : nat) (id : Z) (h : openFile) : prog (openFile * Reply) :=
  match fuel with
  | O => mret (h, status id StatusEOF [])
  | S fuel =>
      if of_pos h <? len (of_entries h) then
        let end_ := Z.min (of_pos h + readdirBatch) (len (of_entries h)) in
        let batch := take (Z.to_nat (end_ - of_pos h)) (drop (Z.to_nat (of_pos h)) (of_entries h)) in
        let h := set_pos end_ h in
        items ← readdir_items (of_path h) batch;
        if 0 <? len items then mret (h, RName {| nr_ID := id; nr_Items := items |})
        else readdir_loop fuel id h
      else mret (h, status id StatusEOF [])
  end.

Definition opReaddir (t : handles) (m : HandleRequest) : prog (handles * Reply) :=
  match handles_get t (hr_Handle m) with
  | None => mret (t, status (hr_ID m) StatusFailure (str "unknown handle"))
  | Some h =>
      if negb (of_dir h) then
        mret (t, status (hr_ID m) StatusFailure (str "handle is not a directory"))
      else with_rlock (
        r ← readdir_loop (S (length (of_entries h))) (hr_ID m) h;
        let '(h, reply) := r in
        mret (<[hr_Handle m := h]> t, reply))
  end.

Definition opRealpath (m : PathRequest) : prog Reply :=
  match resolve (pr_ID m) (pr_Path m) with
  | inl bad => mret bad
  | inr path =>
      mret (RName {| nr_ID := pr_ID m;
                     nr_Items := [{| ni_Filename := path; ni_Longname := path;
                                     ni_Attrs := zero_Attributes |}] |})
  end.

(** The mode a request asks for, or the default. *)
Definition request_perm (a : Attributes) (default_ : Z) : Z :=
  if has (aFlags a) AttrPermissions then Z.land (aPermissions a) ModePerm else default_.

(** A driver call that only reports an error, answered with a status. *)
Definition answer_status (id fallback : Z) (p : prog (option error)) : prog Reply :=
  err ← p;
  match err with
  | Some err => mret (fail_with id (Some err) fallback)
  | None => mret (status id StatusOK [])
  end.

(** 0o755 *)
Definition opMkdir (m : SetstatRequest) : prog Reply :=
  if ro srv then mret (status (ss_ID m) StatusPermissionDenied errReadOnly)
  else match resolve (ss_ID m) (ss_Path m) with
  | inl bad => mret bad
  | inr path =>
      let perm := request_perm (ss_Attrs m) 0x1ED in
      with_lock (answer_status (ss_ID m) StatusFailure (do_ (MkDir path perm)))
  end.

Definition opRemove (m : PathRequest) : prog Reply :=
  if ro srv then mret (status (pr_ID m) StatusPermissionDenied errReadOnly)
  else match resolve (pr_ID m) (pr_Path m) with
  | inl bad => mret bad
  | inr path =>
      with_lock (answer_status (pr_ID m) StatusNoSuchFile
        (if pr_PacketType m =? FxpRmdir then do_ (DeleteDir path) else do_ (DeleteFile path)))
  end.

Definition opRename (m : RenameRequest) : prog Reply :=
  if ro srv then mret (status (rn_ID m) StatusPermissionDenied errReadOnly)
  else match resolve (rn_ID m) (rn_OldPath m) with
  | inl bad => mret bad
  | inr oldPath =>
      match resolve (rn_ID m) (rn_NewPath m) with
      | inl bad => mret bad
      | inr newPath =>
          with_lock (answer_status (rn_ID m) StatusFailure (do_ (Rename oldPath newPath)))
      end
  end.

Definition opReadlink (m : PathRequest) : prog Reply :=
  match resolve (pr_ID m) (pr_Path m) with
  | inl bad => mret bad
  | inr path =>
      with_rlock (
        r ← do_ (ReadLink path);
        match r with
        | (_, Some err) => mret (fail_with (pr_ID m) (Some err) StatusNoSuchFile)
        | (target, None) =>
            mret (RName {| nr_ID := pr_ID m;
                           nr_Items := [{| ni_Filename := target; ni_Longname := target;
                                           ni_Attrs := zero_Attributes |}] |})
        end)
  end.

Definition opSymlink (m : SymlinkRequest) : prog Reply :=
  if ro srv then mret (status (sl_ID m) StatusPermissionDenied errReadOnly)
  else match resolve (sl_ID m) (sl_LinkPath m) with
  | inl bad => mret bad
  | inr linkPath =>
      if negb (is_Symlinker (fsys srv)) then
        mret (status (sl_ID m) StatusOpUnsupported (str "driver cannot create symlinks"))
      else
        with_lock (answer_status (sl_ID m) StatusFailure
          (do_ (Symlink (sl_TargetPath m) linkPath)))
  end.

(** * Files *)

(** The end of [finishOpen]: register the handle, giving the file back when no
    token can be made. *)
Definition register (t : handles) (id : Z) (h : openFile) : prog (handles * Reply) :=
  r ← handles_add t h;
  match r with
  | (t, inr tok) => mret (t, RHandle {| hp_ID := id; hp_Handle := tok |})
  | (t, inl err) =>
      _ ← match of_file h with
          | Some f => do_ (File_Close f)
          | None => mret None
          end;
      mret (t, status id StatusFailure (errText (Some err)))
  end.

Definition finishOpen (t : handles) (id : Z) (path : bytes) (write : bool) : prog (handles * Reply) :=
  let h := new_openFile path write in
  if opener srv then
    r ← do_ (OpenFile path);
    match r with
    | (_, Some err) => mret (t, fail_with id (Some err) StatusFailure)
    | (None, None) => mret (t, status id StatusFailure (str "driver returned no file"))
    | (Some f, None) =>
        if negb write then register t id (set_files (Some f) None h)
        else if f_writable f then register t id (set_files (Some f) (Some f) h)
        else
          err ← do_ (File_Close f);
          match err with
          | Some err => mret (t, fail_with id (Some err) StatusFailure)
          | None => register t id h
          end
    end
  else register t id h.

Definition opOpen (t : handles) (m : OpenRequest) : prog (handles * Reply) :=
  match resolve (or_ID m) (or_Path m) with
  | inl bad => mret (t, bad)
  | inr path =>
      let write := wantsWrite (or_PFlags m) in
      if write && ro srv then
        mret (t, status (or_ID m) StatusPermissionDenied errReadOnly)
      else if handles_full t then
        mret (t, status (or_ID m) StatusFailure (Error errTooManyHandles))
      else with_lock (
        r ← do_ (Stat path);
        let '(st, statErr) := r in
        let exists_ := match statErr, st with None, Some _ => true | _, _ => false end in
        let isDir := match st with
                     | Some st => Z.land (uint32 (s_Mode st)) ModeFmt =? ModeDir
                     | None => false
                     end in
        if exists_ && isDir then
          mret (t, status (or_ID m) StatusFailure (str "is a directory"))
        else if negb write then
          if negb exists_ then mret (t, fail_with (or_ID m) statErr StatusNoSuchFile)
          else finishOpen t (or_ID m) path false
        else
          (* 0o644 *)
          let perm := request_perm (or_Attrs m) 0x1A4 in
          if exists_ && has (or_PFlags m) FxfExcl then
            mret (t, status (or_ID m) StatusFailure (str "file already exists"))
          else if negb exists_ && negb (has (or_PFlags m) FxfCreat) then
            mret (t, fail_with (or_ID m) statErr StatusNoSuchFile)
          else if negb exists_ || has (or_PFlags m) FxfTrunc then
            err ← do_ (WriteFile path [] perm);
            match err with
            | Some err => mret (t, fail_with (or_ID m) (Some err) StatusFailure)
            | None => finishOpen t (or_ID m) path true
            end
          else finishOpen t (or_ID m) path true)
  end.

(** [h.file.Close()] at the end of [opClose]. *)
Definition close_file (id : Z) (file : option File) : prog Reply :=
  match file with
  | None => mret (status id StatusOK [])
  | Some f => answer_status id StatusFailure (do_ (File_Close f))
  end.

Definition opClose (t : handles) (m : HandleRequest) : prog (handles * Reply) :=
  match handles_remove t (hr_Handle m) with
  | (t, None) => mret (t, status (hr_ID m) StatusFailure (str "unknown handle"))
  | (t, Some h) =>
      with_lock (
        match of_writable h with
        | Some w =>
            err ← do_ (File_Sync w);
            match err with
            | Some err =>
                _ ← match of_file h with
                    | Some f => do_ (File_Close f)
                    | None => mret None
                    end;
                mret (t, fail_with (hr_ID m) (Some err) StatusFailure)
            | None => r ← close_file (hr_ID m) (of_file h); mret (t, r)
            end
        | None => r ← close_file (hr_ID m) (of_file h); mret (t, r)
        end)
  end.

(** * READ and WRITE *)

(** [inflight.Span], by the constructor the request uses. *)
Inductive Span :=
| ReadRange (path : bytes) (off len : Z)
| WriteRange (path : bytes) (off len : Z)
| WriteAll (path : bytes).

(** [job]; the framing of the reply into the slot is [frame] in the session. *)
Record job := { span : Span; run_job : prog Reply }.

Definition readAt (id : Z) (f : File) (off n : Z) : prog Reply :=
  if off >? MaxInt64 then mret (status id StatusEOF [])
  else
    r ← do_ (File_ReadAt f n (int64 off));
    let '(buf, err) := r in
    if 0 <? len buf then mret (RData {| dr_ID := id; dr_Data := buf |})
    else match err with
         | None => mret (status id StatusEOF [])
         | Some e =>
             if Is_EOF e then mret (status id StatusEOF [])
             else mret (fail_with id (Some e) StatusFailure)
         end.

Definition readWhole (id : Z) (path : bytes) (off n : Z) : prog Reply :=
  r ← do_ (ReadFile path);
  match r with
  | (_, Some err) => mret (fail_with id (Some err) StatusFailure)
  | (data, None) =>
      if off >=? len data then mret (status id StatusEOF [])
      else
        let end_ := Z.min (satAdd off n) (len data) in
        mret (RData {| dr_ID := id;
                       dr_Data := take (Z.to_nat (end_ - off)) (drop (Z.to_nat off) data) |})
  end.

Definition readJob (t : handles) (m : ReadRequest) : job + Reply :=
  match handles_get t (rr_Handle m) with
  | None => inr (status (rr_ID m) StatusFailure (str "unknown handle"))
  | Some h =>
      if of_dir h then inr (status (rr_ID m) StatusFailure (str "handle is a directory"))
      else if rr_Length m =? 0 then inr (RData {| dr_ID := rr_ID m; dr_Data := [] |})
      else
        let n := Z.min (rr_Length m) (readLength srv) in
        inl {| span := ReadRange (of_path h) (rr_Offset m) n;
               run_job :=
                 match of_file h with
                 | Some f => with_iolock (readAt (rr_ID m) f (rr_Offset m) n)
                 | None => with_rlock (readWhole (rr_ID m) (of_path h) (rr_Offset m) n)
                 end |}
  end.

Definition writeSplice (id : Z) (path : bytes) (off : Z) (data : bytes) : prog Reply :=
  r ← do_ (ReadFile path);
  match r with
  | (_, Some err) => mret (fail_with id (Some err) StatusFailure)
  | (old, None) =>
      let end_ := uint64 (off + len data) in
      if (end_ <? off) ||
         ((end_ >? len old) &&
          ((uint64 (end_ - len old) >? maxSpliceGrowth) || (end_ >? maxFileSplice)))
      then mret (status id StatusFailure
                  (str "write beyond what rewriting the whole file can hold"))
      else
        let buf := if end_ >? len old then grow old end_ else old in
        let buf := copy_at buf off data in
        answer_status id StatusFailure (do_ (WriteFile path buf 0x1A4))
  end.

Definition writeJob (t : handles) (m : WriteRequest) : job + Reply :=
  match handles_get t (wr_Handle m) with
  | None => inr (status (wr_ID m) StatusFailure (str "unknown handle"))
  | Some h =>
      if of_dir h then inr (status (wr_ID m) StatusFailure (str "handle is a directory"))
      else if ro srv then inr (status (wr_ID m) StatusPermissionDenied errReadOnly)
      else if negb (of_write h) then
        inr (status (wr_ID m) StatusPermissionDenied (str "handle not opened for writing"))
      else if wr_Offset m >? MaxInt64 then
        inr (status (wr_ID m) StatusFailure (str "offset beyond what a file can hold"))
      else
        inl {| span := match of_writable h with
                       | Some _ => WriteRange (of_path h) (wr_Offset m) (len (wr_Data m))
                       | None => WriteAll (of_path h)
                       end;
               run_job :=
                 match of_writable h with
                 | Some w =>
                     with_iolock (answer_status (wr_ID m) StatusFailure
                       (do_ (File_WriteAt w (wr_Data m) (int64 (wr_Offset m)))))
                 | None =>
                     with_lock (writeSplice (wr_ID m) (of_path h) (wr_Offset m) (wr_Data m))
                 end |}
  end.
End ops.
