(* ===== verification/CopyData.v ===== *)
(** The copy-data extension: [src/copydata.go]. *)

From S2P Require Import Prelude Codec Const Attrs Messages Errors Path Driver Server Handle.
From S2P Require Import Attr Ops.

(** The text of a decoder error, [err.Error()]. *)
Definition wire_error_text (e : wire_error) : bytes :=
  match e with
  | ErrShort => str "wire: buffer too short"
  | ErrLimit => str "wire: length exceeds limit"
  | ErrTrailing => str "wire: trailing bytes after message"
  end.

(** Run one decoder method and keep its outcome, whether or not it failed: the
    source calls all five before it looks at any error. *)
Definition dec_try {A} (m : dec A) : dec (outcome wire_error A) := fun d =>
  let '(d, o) := m d in (d, Ok o).

Record copy_args := {
  ca_from : bytes; ca_fromOff : Z; ca_length : Z; ca_to : bytes; ca_toOff : Z
}.

(** The five calls and the loop over their errors, first error first. *)
Definition decode_copy (data : bytes) : outcome wire_error copy_args :=
  run_dec data (
    from ← dec_try Decoder_String;
    fromOff ← dec_try Decoder_Uint64;
    length ← dec_try Decoder_Uint64;
    to ← dec_try Decoder_String;
    toOff ← dec_try Decoder_Uint64;
    from ← dec_lift from;
    fromOff ← dec_lift fromOff;
    length ← dec_lift length;
    to ← dec_lift to;
    toOff ← dec_lift toOff;
    mret {| ca_from := from; ca_fromOff := fromOff; ca_length := length;
            ca_to := to; ca_toOff := toOff |}).

(** How many bytes to copy: the int64 arithmetic of the source, on the size of
    the source file. *)
Definition copy_count (fromOff length size : Z) : Z :=
  let n := int64 length in
  if (length =? 0) || (int64 (int64 fromOff + n) >? size)
  then Z.max (int64 (size - int64 fromOff)) 0
  else n.

Section copy.
Context {UT : UnicodeTables} (srv : Server).

(** Everything after the checks, under the exclusive lock. *)
Definition copy_locked (id : Z) (src dst : File) (a : copy_args) : prog Reply :=
  size ← do_ (File_Size src);
  let n := copy_count (ca_fromOff a) (ca_length a) size in
  let end_ := int64 (int64 (ca_toOff a) + n) in
  dsize ← do_ (File_Size dst);
  err ← (if end_ >? dsize then do_ (File_Truncate dst end_) else mret None);
  match err with
  | Some err => mret (fail_with id (Some err) StatusFailure)
  | None =>
      answer_status id StatusFailure
        (do_ (HostCopy dst src (int64 (ca_toOff a)) (int64 (ca_fromOff a)) n))
  end.

Definition copyData (t : handles) (id : Z) (data : bytes) : prog Reply :=
  match decode_copy data with
  | Err e => mret (status id StatusBadMessage (str "copy-data: " ++ wire_error_text e))
  | Panic => mret (status id StatusBadMessage [])
  | Ok a =>
      if negb (copiesData srv) then
        mret (status id StatusOpUnsupported (str "unsupported extension: " ++ copyDataExtension))
      else match handles_get t (ca_from a), handles_get t (ca_to a) with
      | Some src, Some dst =>
          if of_dir src || of_dir dst then
            mret (status id StatusFailure (str "handle is a directory"))
          else if decide (of_path src = of_path dst) then
            mret (status id StatusFailure (str "copy-data within one file"))
          else if negb (of_write dst) then
            mret (status id StatusPermissionDenied
                   (str "write-to handle was not opened for writing"))
          else match of_file src, of_writable dst with
          | Some f, Some w =>
              if (ca_fromOff a >? Z.shiftl 1 62) || (ca_length a >? Z.shiftl 1 62) ||
                 (ca_toOff a >? Z.shiftl 1 62) then
                mret (status id StatusFailure (str "copy-data: offset or length out of range"))
              else with_lock (copy_locked id f w a)
          | _, _ =>
              mret (status id StatusOpUnsupported
                     (str "copy-data needs files the driver opens and writes in place"))
          end
      | _, _ => mret (status id StatusFailure (str "unknown handle"))
      end
  end.
End copy.
