(* ===== verification/Session.v ===== *)
(** One SFTP conversation: [src/session.go], [prepare] and [frame] of
    [src/concurrent.go], and [Serve] of [src/server.go].

    [dispatch] and [prepare] are the whole of both functions. [loop] is the
    request loop of [run] with every request run to completion before the next
    packet is read: what a barrier does always, and what a READ or WRITE does
    when the connection's scheduler ([inflight.Conn]) runs it at once. *)

From S2P Require Import Prelude Codec Const Attrs Messages Packet Errors Path Driver Server.
From S2P Require Import Handle Attr Ops CopyData.

Inductive session_error :=
| ErrNoInit
| ErrVersion
| SErrWire (e : wire_error)
| SErrPacket (e : pkt_error).

Definition requestID (payload : bytes) : Z :=
  if len payload <? 4 then 0
  else match BigEndian_Uint32 (E:=unit) (take 4 payload) with Ok v => v | _ => 0 end.

Definition badMessage (id : Z) (e : wire_error) : Reply :=
  status id StatusBadMessage (errText (Some (errors_New (wire_error_text e)))).

(** [endOfInput(err)]: a clean end of stream is no error. *)
Definition endOfInput (e : pkt_error) : option session_error :=
  if decide (e = EOF) then None else Some (SErrPacket e).

(** [frame(sl, m)]: the framed reply, or the error that ends the session. *)
Definition frame (r : Reply) : outcome pkt_error bytes :=
  match Send Discard tt r [] with
  | (_, out, None) => Ok out
  | (_, _, Some e) => Err e
  end.

(** [m, err := decode(payload); if err != nil { return badMessage(id, err) }; return k(m)].
    The decoders do not panic, so the last branch is never taken. *)
Definition decoded {M A} (d : outcome wire_error M) (bad : wire_error -> A) (panic : A)
  (k : M -> A) : A :=
  match d with Ok m => k m | Err e => bad e | Panic => panic end.

Section session.
Context {UT : UnicodeTables} (srv : Server).

Definition negotiate {W} (Write : bytes -> W -> W * option pkt_error) (r : Reader) (w : W)
  : Reader * W * option session_error :=
  let res := ReadPacket r 0 (packetLimit srv) in
  let r := rp_stream res in
  match rp_out res with
  | Err e => (r, w, Some (SErrPacket e))
  | Panic => (r, w, Some ErrNoInit)
  | Ok (typ, payload) =>
      if negb (typ =? FxpInit) then (r, w, Some ErrNoInit)
      else match DecodeInit payload with
      | Err e => (r, w, Some (SErrWire e))
      | Panic => (r, w, Some ErrNoInit)
      | Ok init =>
          if init_Version init <? Version then (r, w, Some ErrVersion)
          else
            let '(w, _, err) :=
              Send Write w {| vr_Version := Version; vr_Extensions := extensions srv |} [] in
            (r, w, SErrPacket <$> err)
      end
  end.

(** A handler that leaves the handle table alone. *)
Definition keep (t : handles) (p : prog Reply) : prog (handles * Reply) :=
  r ← p; mret (t, r).

Definition dispatch (t : handles) (typ : Z) (payload : bytes) : prog (handles * Reply) :=
  let id := requestID payload in
  let bad e := mret (t, badMessage id e) in
  let panic := mret (t, status id StatusBadMessage []) in
  if typ =? FxpOpen then
    decoded (DecodeOpen payload) bad panic (opOpen srv t)
  else if typ =? FxpClose then
    decoded (DecodeHandle typ payload) bad panic (opClose t)
  else if (typ =? FxpLstat) || (typ =? FxpStat) then
    decoded (DecodePath typ payload) bad panic (fun m => keep t (opStat srv m))
  else if typ =? FxpFstat then
    decoded (DecodeHandle typ payload) bad panic (fun m => keep t (opFstat srv t m))
  else if typ =? FxpSetstat then
    decoded (DecodeSetstat typ payload) bad panic
      (fun m => keep t (opSetstat srv (ss_ID m) (ss_Path m) (ss_Attrs m)))
  else if typ =? FxpFsetstat then
    decoded (DecodeFsetstat payload) bad panic (fun m =>
      match handles_get t (fs_Handle m) with
      | None => mret (t, status (fs_ID m) StatusFailure (str "unknown handle"))
      | Some h => keep t (opSetstat srv (fs_ID m) (of_path h) (fs_Attrs m))
      end)
  else if typ =? FxpOpendir then
    decoded (DecodePath typ payload) bad panic (opOpendir t)
  else if typ =? FxpReaddir then
    decoded (DecodeHandle typ payload) bad panic (opReaddir srv t)
  else if (typ =? FxpRemove) || (typ =? FxpRmdir) then
    decoded (DecodePath typ payload) bad panic (fun m => keep t (opRemove srv m))
  else if typ =? FxpMkdir then
    decoded (DecodeSetstat typ payload) bad panic (fun m => keep t (opMkdir srv m))
  else if typ =? FxpRealpath then
    decoded (DecodePath typ payload) bad panic (fun m => keep t (opRealpath m))
  else if typ =? FxpRename then
    decoded (DecodeRename payload) bad panic (fun m => keep t (opRename srv m))
  else if typ =? FxpReadlink then
    decoded (DecodePath typ payload) bad panic (fun m => keep t (opReadlink m))
  else if typ =? FxpSymlink then
    decoded (DecodeSymlink payload) bad panic (fun m => keep t (opSymlink srv m))
  else if typ =? FxpExtended then
    decoded (DecodeExtended payload) bad panic (fun m =>
      if decide (er_Name m = limitsExtension) then
        mret (t, RExtended (limitsReply srv (er_ID m)))
      else if decide (er_Name m = copyDataExtension) then
        keep t (copyData srv t (er_ID m) (er_Data m))
      else mret (t, status (er_ID m) StatusOpUnsupported
                      (str "unsupported extension: " ++ er_Name m)))
  else mret (t, status id StatusOpUnsupported (str "unsupported request type")).

(** What [prepare] decides about a packet: a job to run beside others, a reply
    to send at once, or a barrier. *)
Inductive prepared := PJob (j : job) | PEarly (r : Reply) | PBarrier.

Definition of_job (x : job + Reply) : prepared :=
  match x with inl j => PJob j | inr r => PEarly r end.

Definition prepare (t : handles) (typ : Z) (payload : bytes) : prepared :=
  let id := requestID payload in
  let bad e := PEarly (badMessage id e) in
  let panic := PEarly (status id StatusBadMessage []) in
  if typ =? FxpRead then
    decoded (DecodeRead payload) bad panic (fun m => of_job (readJob srv t m))
  else if typ =? FxpWrite then
    decoded (DecodeWrite payload) bad panic (fun m => of_job (writeJob srv t m))
  else PBarrier.

(** One request, run to completion. *)
Definition handle_request (t : handles) (typ : Z) (payload : bytes) : prog (handles * Reply) :=
  match prepare t typ payload with
  | PJob j => keep t (run_job j)
  | PEarly r => mret (t, r)
  | PBarrier => dispatch t typ payload
  end.

(** The request loop of [run]: the replies written, in order, and the error
    that ended it ([None] for a clean close). Each iteration consumes at least
    five bytes of the stream, so [length (avail r)] iterations are enough. *)
Fixpoint loop (fuel : nat) (r : Reader) (cap : Z) (t : handles)
  : prog (handles * list bytes * option session_error) :=
  match avail r with
  | [] => mret (t, [], endOfInput (fin r))
  | _ :: _ =>
    match fuel with
    | O => mret (t, [], None)
    | S fuel =>
      let res := ReadPacket r cap (packetLimit srv) in
      match rp_out res with
      | Err e => mret (t, [], endOfInput e)
      | Panic => mret (t, [], None)
      | Ok (typ, payload) =>
          x ← handle_request t typ payload;
          let '(t, reply) := x in
          match frame reply with
          | Ok out =>
              y ← loop fuel (rp_stream res) (rp_cap res) t;
              let '(t, outs, err) := y in
              mret (t, out :: outs, err)
          | Err e => mret (t, [], Some (SErrPacket e))
          | Panic => mret (t, [], None)
          end
      end
    end
  end.

(** [Serve(rw)]: connect, negotiate, loop, release every handle. [NewConn] is
    the connection pool's verdict on that many slots; [order] is the order in
    which [closeAll] ranges over the table that is left. The stream accepts every
    write. *)
Definition Serve (NewConn : Z -> option session_error) (r : Reader)
    (order : handles -> list (bytes * openFile))
  : prog (handles * list bytes * option session_error) :=
  match NewConn (serveSlots srv) with
  | Some e => mret (newHandles, [], Some e)
  | None =>
      match negotiate (fun p w => (w ++ [p], None)) r [] with
      | (_, w, Some e) => y ← closeAll (order newHandles) newHandles None; mret (fst y, w, Some e)
      | (r, w, None) =>
          x ← loop (length (avail r)) r 0 newHandles;
          let '(t, outs, err) := x in
          y ← closeAll (order t) t None;
          mret (fst y, w ++ outs, err)
      end
  end.
End session.
