(* ===== verification/MemDriver.v ===== *)
(** A concrete driver: an in-memory filesystem of files and directories whose
    opened files are read and written in place.

    It models no code of the repository. The theorems of the development hold
    for every driver that keeps the stated contract; this one keeps them all, so
    it shows that the contracts can be met and lets witnesses be evaluated. *)

From S2P Require Import Prelude Const Errors Path Driver.

Record Mem := {
  m_files : gmap bytes bytes;
  m_dirs : list bytes;
  m_open : gmap Z bytes;     (* opened files, by id *)
  m_next : Z;                (* next file id *)
  m_tokens : Z               (* random bytes drawn so far *)
}.

Definition mem_empty : Mem :=
  {| m_files := ∅; m_dirs := [[slash]]; m_open := ∅; m_next := 1; m_tokens := 0 |}.

Definition mem_set (p data : bytes) (s : Mem) : Mem :=
  {| m_files := <[p := data]> (m_files s); m_dirs := m_dirs s; m_open := m_open s;
     m_next := m_next s; m_tokens := m_tokens s |}.

Definition mem_files (f : gmap bytes bytes) (s : Mem) : Mem :=
  {| m_files := f; m_dirs := m_dirs s; m_open := m_open s; m_next := m_next s;
     m_tokens := m_tokens s |}.

Definition mem_dirs (d : list bytes) (s : Mem) : Mem :=
  {| m_files := m_files s; m_dirs := d; m_open := m_open s; m_next := m_next s;
     m_tokens := m_tokens s |}.

Definition not_found : error := errors_New (str "not found").

(** [pwrite]: [data] at [off], with zeros before it when [off] is past the end. *)
Definition mem_pwrite (old : bytes) (off : Z) (data : bytes) : bytes :=
  let o := Z.to_nat off in
  take o old ++ replicate (o - length old) x00 ++ data ++ drop (o + length data) old.

Definition mem_truncate (old : bytes) (size : Z) : bytes :=
  let n := Z.to_nat size in take n old ++ replicate (n - length old) x00.

(** The bytes and the path behind an opened file. *)
Definition mem_file (s : Mem) (f : File) : option (bytes * bytes) :=
  p ← m_open s !! f_id f; d ← m_files s !! p; Some (p, d).

Definition mem_update (s : Mem) (f : File) (g : bytes -> bytes) : Mem * option error :=
  match mem_file s f with
  | Some (p, d) => (mem_set p (g d) s, None)
  | None => (s, Some not_found)
  end.

Definition mem_path_update (s : Mem) (p : bytes) (g : bytes -> bytes) : Mem * option error :=
  match m_files s !! p with
  | Some d => (mem_set p (g d) s, None)
  | None => (s, Some not_found)
  end.

Definition mem_stat (s : Mem) (p : bytes) : option StatInfo * option error :=
  if decide (p ∈ m_dirs s) then
    (Some {| s_Size := 0; s_Mode := 0x41ED; s_ModTime := None |}, None)
  else match m_files s !! p with
       | Some d => (Some {| s_Size := len d; s_Mode := 0x81A4; s_ModTime := None |}, None)
       | None => (None, Some not_found)
       end.

(** Names over 255 bytes do not exist in this filesystem. *)
Definition mem_list (s : Mem) (p : bytes) : list bytes :=
  filter (fun name => (len name <=? 255) = true)
    (map base (filter (fun q => parent q = p /\ q <> p)
                 (m_dirs s ++ map fst (map_to_list (m_files s))))).

Definition mem_rand (s : Mem) : Mem * vec byte handleBytes :=
  ({| m_files := m_files s; m_dirs := m_dirs s; m_open := m_open s; m_next := m_next s;
      m_tokens := m_tokens s + 1 |},
   vreplicate handleBytes (byte_of (m_tokens s))).

#[export] Instance MemDriver : Driver Mem := fun c s =>
  match c return Mem * answer c with
  | Lock | Unlock | LockPath | UnlockPath | LockIO | UnlockIO => (s, tt)
  | RandRead => let '(s, v) := mem_rand s in (s, (v, None))
  | Stat p => (s, mem_stat s p)
  | ListDir p => (s, (mem_list s p, None))
  | ReadFile p =>
      (s, match m_files s !! p with Some d => (d, None) | None => ([], Some not_found) end)
  | ReadLink _ => (s, ([], Some not_found))
  | WriteFile p d _ => (mem_set p d s, None)
  | MkDir p _ => (mem_dirs (p :: m_dirs s) s, None)
  | DeleteFile p => (mem_files (delete p (m_files s)) s, None)
  | DeleteDir p => (mem_dirs (filter (fun q => q <> p) (m_dirs s)) s, None)
  | Rename p q =>
      match m_files s !! p with
      | Some d => (mem_files (<[q := d]> (delete p (m_files s))) s, None)
      | None => (s, Some not_found)
      end
  | Truncate p n => mem_path_update s p (fun d => mem_truncate d n)
  | Chmod _ _ | Chown _ _ _ | Chtimes _ _ _ => (s, None)
  | Symlink _ _ => (s, Some not_found)
  | OpenFile p =>
      ({| m_files := m_files s; m_dirs := m_dirs s; m_open := <[m_next s := p]> (m_open s);
          m_next := m_next s + 1; m_tokens := m_tokens s |},
       (Some {| f_id := m_next s; f_writable := true |}, None))
  | File_ReadAt f n off =>
      (s, match mem_file s f with
          | Some (_, d) => (take (Z.to_nat n) (drop (Z.to_nat off) d), None)
          | None => ([], Some not_found)
          end)
  | File_Size f => (s, match mem_file s f with Some (_, d) => len d | None => 0 end)
  | File_Close f =>
      ({| m_files := m_files s; m_dirs := m_dirs s; m_open := delete (f_id f) (m_open s);
          m_next := m_next s; m_tokens := m_tokens s |}, None)
  | File_WriteAt f data off =>
      mem_update s f (fun d => if decide (data = []) then d else mem_pwrite d off data)
  | File_Truncate f n => mem_update s f (fun d => mem_truncate d n)
  | File_Sync _ => (s, None)
  | HostCopy dst src toOff fromOff n =>
      match mem_file s src with
      | Some (_, d) =>
          mem_update s dst
            (fun old => mem_pwrite old toOff (take (Z.to_nat n) (drop (Z.to_nat fromOff) d)))
      | None => (s, Some not_found)
      end
  end.
