(* ===== verification/OpsLaws.v ===== *)
(** What every handler guarantees, whatever the driver answers: the calls it
    makes, the lock it holds while making them, the id it replies with and the
    handle table it leaves. *)

From S2P Require Import Prelude Codec Const Attrs Messages Errors Path Driver Server Handle.
From S2P Require Import Attr Ops CopyData.

(** * Classes of calls *)

(** A call that cannot change the exported filesystem. *)
Definition call_ro (c : call) : bool :=
  match c with
  | WriteFile _ _ _ | MkDir _ _ | DeleteFile _ | DeleteDir _ | Rename _ _
  | Truncate _ _ | Chmod _ _ | Chown _ _ _ | Chtimes _ _ _ | Symlink _ _
  | File_WriteAt _ _ _ | File_Truncate _ _ | File_Sync _ | HostCopy _ _ _ _ _ => false
  | _ => true
  end.

(** Every path a call names is inside the export. A symlink's target is data, not
    a path the server resolves. *)
Definition call_clean (c : call) : Prop :=
  match c with
  | Stat p | ListDir p | ReadFile p | ReadLink p | WriteFile p _ _ | MkDir p _
  | DeleteFile p | DeleteDir p | Truncate p _ | Chmod p _ | Chown p _ _ | Chtimes p _ _
  | Symlink _ p | OpenFile p => is_clean p
  | Rename p q => is_clean p /\ is_clean q
  | _ => True
  end.

(** The calls a server may make on its driver. *)
Definition good (srv : Server) (c : call) : Prop :=
  (ro srv = true -> call_ro c = true) /\ call_clean c.

(** What a handler answering request [id] leaves behind. *)
Definition handled (srv : Server) (id : Z) (x : handles * Reply) : Prop :=
  reply_id (snd x) = id /\ table_wf (fst x) /\ table_ro srv (fst x).

(** * Automation *)

Lemma resolve_inr id p c : resolve id p = inr c -> is_clean c.
Proof. unfold resolve. destruct (clean p) eqn:E; [|done]. intros [= <-]. by eapply clean_is_clean. Qed.

Lemma resolve_inl id p bad : resolve id p = inl bad -> reply_id bad = id.
Proof. unfold resolve. destruct (clean p); [done|]. by intros [= <-]. Qed.

Create HintDb ops.
#[export] Hint Resolve resolve_inr resolve_inl : ops.

Lemma good_lock srv : good srv Lock.
Proof. done. Qed.
Lemma good_unlock srv : good srv Unlock.
Proof. done. Qed.
Lemma good_lockpath srv : good srv LockPath.
Proof. done. Qed.
Lemma good_unlockpath srv : good srv UnlockPath.
Proof. done. Qed.
Lemma good_lockio srv : good srv LockIO.
Proof. done. Qed.
Lemma good_unlockio srv : good srv UnlockIO.
Proof. done. Qed.
#[export] Hint Resolve good_lock good_unlock good_lockpath good_unlockpath good_lockio
  good_unlockio : ops.

(** One step of a program. *)
Ltac wp_step :=
  lazymatch goal with
  | |- wp _ _ (mret _) _ => apply wp_ret
  | |- wp _ _ (_ ≫= _) _ => apply wp_bind
  | |- wp _ _ (with_lock _) _ => apply wp_with_lock; [done|done|]
  | |- wp _ _ (with_rlock _) _ => apply wp_with_rlock; [done|done|]
  | |- wp _ _ (with_iolock _) _ => apply wp_with_iolock; [done|done|]
  | |- wp _ _ (do_ _) _ => apply wp_do; [|let x := fresh "x" in intros x _; simpl in x]
  | |- wp _ _ (match ?x with _ => _ end) _ => destruct x eqn:?
  end.

(** The calls of the handlers, checked one by one. *)
Ltac good_call :=
  lazymatch goal with
  | |- good _ _ => split; [try done; try congruence|simpl; eauto with ops]
  end.

Ltac wp_auto := repeat (wp_step; cbn beta iota zeta in *).

Section specs.
Context {UT : UnicodeTables} (srv : Server).

Lemma opStat_spec m :
  wp anything (good srv) (opStat srv m) (fun r => reply_id r = pr_ID m).
Proof. unfold opStat. wp_auto; eauto with ops. good_call. Qed.

Lemma opFstat_spec t m :
  wp anything (good srv) (opFstat srv t m) (fun r => reply_id r = hr_ID m).
Proof. unfold opFstat. wp_auto; [|done]. apply opStat_spec. Qed.

Lemma setstat_metadata_spec id path a :
  is_clean path -> ro srv = false ->
  wp anything (good srv) (setstat_metadata srv id path a) (fun r => reply_id r = id).
Proof. intros ? ?. unfold setstat_metadata. wp_auto; try done; good_call. Qed.

Lemma opSetstat_spec id path a :
  is_clean path ->
  wp anything (good srv) (opSetstat srv id path a) (fun r => reply_id r = id).
Proof.
  intros ?. unfold opSetstat.
  wp_auto; try done; try (by apply setstat_metadata_spec). good_call.
Qed.

(** ** The handle table *)

Lemma handles_add_spec t h :
  table_wf t -> table_ro srv t -> Z.of_nat (size t) < maxOpenHandles ->
  handle_wf h -> (ro srv = true -> of_write h = false) ->
  wp anything (good srv) (handles_add t h)
    (fun r => table_wf (fst r) /\ table_ro srv (fst r) /\
              match snd r with inl _ => fst r = t | inr tok => fst r !! tok = Some h end).
Proof.
  intros Ht Hro Hs Hh Hw. unfold handles_add. wp_auto; [good_call|done|].
  split_and!; simpl; [by apply table_wf_insert| |apply lookup_insert_eq].
  intros E. apply map_Forall_insert_2; auto.
Qed.

Lemma new_openFile_wf path w : is_clean path -> handle_wf (new_openFile path w).
Proof. intros. split; simpl; try done. Qed.

Lemma new_openDir_wf path l : is_clean path -> handle_wf (new_openDir path l).
Proof. intros. split; simpl; try done. pose proof (len_nonneg l). lia. Qed.

Lemma open_read_wf path f :
  is_clean path -> handle_wf (set_files (Some f) None (new_openFile path false)).
Proof. intros. by split. Qed.

Lemma open_write_wf path f :
  is_clean path -> f_writable f = true ->
  handle_wf (set_files (Some f) (Some f) (new_openFile path true)).
Proof. intros. split; simpl; try done. by intros ? [= <-]. Qed.

Lemma opOpendir_spec t m :
  table_wf t -> table_ro srv t ->
  wp anything (good srv) (opOpendir t m) (handled srv (pr_ID m)).
Proof.
  intros Ht Hro. unfold opOpendir. wp_auto; try (by split; eauto with ops); try good_call.
  eapply wp_mono.
  - apply handles_add_spec; try done; [by apply handles_full_false|].
    apply new_openDir_wf; eauto with ops.
  - intros [t' [e|tok]] (? & ? & ?); simpl in *; done.
Qed.

Lemma readdir_items_spec dir batch (Q : list NameItem -> Prop) :
  is_clean dir -> (forall its, Q its) ->
  wp anything (good srv) (readdir_items srv dir batch) Q.
Proof.
  intros Hd. revert Q. induction batch as [|name batch IH]; intros Q HQ; [apply HQ|].
  cbn [readdir_items]. apply wp_bind. unfold readdir_entry. wp_auto; try (apply IH; done).
  all: try (good_call; by eapply join_is_clean).
  all: apply IH; intros; apply wp_ret, HQ.
Qed.

Lemma set_pos_wf h pos :
  handle_wf h -> 0 <= pos <= len (of_entries h) -> handle_wf (set_pos pos h).
Proof. intros [] ?. by split. Qed.

Lemma readdir_loop_spec fuel id h :
  handle_wf h ->
  wp anything (good srv) (readdir_loop srv fuel id h)
    (fun x => reply_id (snd x) = id /\ handle_wf (fst x) /\ of_write (fst x) = of_write h).
Proof.
  revert h. induction fuel as [|fuel IH]; intros h Hh; simpl; [done|].
  destruct (of_pos h <? _) eqn:E; bool_prop; [|done].
  assert (handle_wf (set_pos (Z.min (of_pos h + readdirBatch) (len (of_entries h))) h)) as Hh'.
  { apply set_pos_wf; [done|]. destruct Hh. unfold readdirBatch. lia. }
  apply wp_bind, readdir_items_spec; [apply Hh|]. intros its.
  case_if; [done|]. by apply (IH _ Hh').
Qed.

Lemma opReaddir_spec t m :
  table_wf t -> table_ro srv t ->
  wp anything (good srv) (opReaddir srv t m) (handled srv (hr_ID m)).
Proof.
  intros Ht Hro. unfold opReaddir, handles_get.
  destruct (t !! hr_Handle m) as [h|] eqn:E; [|by split].
  pose proof (table_wf_lookup _ _ _ Ht E).
  wp_auto; [by split|].
  eapply wp_mono; [by apply readdir_loop_spec|].
  intros [h' r] (? & ? & Hw); simpl in *. split_and!; simpl; [done| |].
  - by eapply table_wf_update.
  - intros Hr. apply map_Forall_insert_2; [|by apply Hro].
    rewrite Hw. apply (Hro Hr _ _ E).
Qed.

Lemma opRealpath_spec m :
  wp anything (good srv) (opRealpath m) (fun r => reply_id r = pr_ID m).
Proof. unfold opRealpath. wp_auto; eauto with ops. Qed.

Lemma answer_status_spec id fallback p :
  wp anything (good srv) p (fun _ => True) ->
  wp anything (good srv) (answer_status id fallback p) (fun r => reply_id r = id).
Proof.
  intros Hp. unfold answer_status. apply wp_bind. eapply wp_mono; [done|].
  by intros [e|] _.
Qed.

Lemma wp_do_good c (Q : answer c -> Prop) :
  good srv c -> (forall x, Q x) -> wp anything (good srv) (do_ c) Q.
Proof. intros Hc HQ. apply wp_do; auto. Qed.

Lemma opMkdir_spec m :
  wp anything (good srv) (opMkdir srv m) (fun r => reply_id r = ss_ID m).
Proof.
  unfold opMkdir. wp_auto; eauto with ops.
  apply answer_status_spec, wp_do_good; [good_call|done].
Qed.

Lemma opRemove_spec m :
  wp anything (good srv) (opRemove srv m) (fun r => reply_id r = pr_ID m).
Proof.
  unfold opRemove. wp_auto; eauto with ops.
  apply answer_status_spec. case_if; apply wp_do_good; try good_call; done.
Qed.

Lemma opRename_spec m :
  wp anything (good srv) (opRename srv m) (fun r => reply_id r = rn_ID m).
Proof.
  unfold opRename. wp_auto; eauto with ops.
  apply answer_status_spec, wp_do_good; [good_call|done].
Qed.

Lemma opReadlink_spec m :
  wp anything (good srv) (opReadlink m) (fun r => reply_id r = pr_ID m).
Proof. unfold opReadlink. wp_auto; eauto with ops. good_call. Qed.

Lemma opSymlink_spec m :
  wp anything (good srv) (opSymlink srv m) (fun r => reply_id r = sl_ID m).
Proof.
  unfold opSymlink. wp_auto; eauto with ops.
  apply answer_status_spec, wp_do_good; [good_call|done].
Qed.

(** ** Files *)

Lemma register_spec t id h :
  table_wf t -> table_ro srv t -> Z.of_nat (size t) < maxOpenHandles ->
  handle_wf h -> (ro srv = true -> of_write h = false) ->
  wp anything (good srv) (register t id h) (handled srv id).
Proof.
  intros. unfold register. apply wp_bind.
  eapply wp_mono; [by apply handles_add_spec|].
  intros [t' [e|tok]] (? & ? & ?); simpl in *; [|done].
  apply wp_bind. destruct (of_file h); [|done]. apply wp_do_good; [good_call|done].
Qed.

Lemma finishOpen_spec t id path write :
  table_wf t -> table_ro srv t -> Z.of_nat (size t) < maxOpenHandles ->
  is_clean path -> (ro srv = true -> write = false) ->
  wp anything (good srv) (finishOpen srv t id path write) (handled srv id).
Proof.
  intros Ht Hro Hs Hp Hw. unfold finishOpen.
  destruct (opener srv); [|by apply register_spec; [..|by apply new_openFile_wf|]].
  wp_auto; try done; try good_call; bool_prop; subst.
  - by apply register_spec; [..|by apply open_read_wf|].
  - by apply register_spec; [..|by apply open_write_wf|].
  - by apply register_spec; [..|by apply new_openFile_wf|].
Qed.

Lemma opOpen_spec t m :
  table_wf t -> table_ro srv t ->
  wp anything (good srv) (opOpen srv t m) (handled srv (or_ID m)).
Proof.
  intros Ht Hro. unfold opOpen.
  destruct (resolve (or_ID m) (or_Path m)) as [bad|path] eqn:Er.
  { by split; eauto with ops. }
  destruct (wantsWrite (or_PFlags m) && ro srv) eqn:Ew; [by split|].
  destruct (handles_full t) eqn:Ef; [by split|].
  apply handles_full_false in Ef. apply resolve_inr in Er as Hp.
  assert (wantsWrite (or_PFlags m) = true -> ro srv = false) as Hw.
  { intros Hw. by rewrite Hw in Ew. }
  wp_step. apply wp_bind, wp_do_good; [good_call|]. intros [st statErr].
  wp_auto; try (by split); try (by apply finishOpen_spec).
  all: bool_prop; try (apply finishOpen_spec; [done..|]; rewrite Hw by done; done).
  good_call. rewrite Hw in * by done. done.
Qed.

Lemma close_file_spec id f :
  wp anything (good srv) (close_file id f) (fun r => reply_id r = id).
Proof.
  unfold close_file. destruct f; [|done]. apply answer_status_spec, wp_do_good; [good_call|done].
Qed.

Lemma opClose_spec t m :
  table_wf t -> table_ro srv t ->
  wp anything (good srv) (opClose t m) (handled srv (hr_ID m)).
Proof.
  intros Ht Hro. unfold opClose, handles_remove.
  destruct (t !! hr_Handle m) as [h|] eqn:E; [|by split].
  assert (table_wf (delete (hr_Handle m) t)) by auto with go.
  assert (table_ro srv (delete (hr_Handle m) t)).
  { intros Hr. by apply map_Forall_delete, Hro. }
  destruct (table_wf_lookup _ _ _ Ht E) as [_ _ Hwr _ _].
  wp_step. destruct (of_writable h) as [w|] eqn:Ew.
  - destruct (Hwr w eq_refl) as (_ & _ & Hwrite).
    apply wp_bind, wp_do_good.
    { good_call. intros Hr. rewrite (Hro Hr _ _ E) in Hwrite. done. }
    intros [e|]; apply wp_bind.
    + destruct (of_file h); [|done]. apply wp_do_good; [good_call|done].
    + eapply wp_mono; [apply close_file_spec|]. done.
  - apply wp_bind. eapply wp_mono; [apply close_file_spec|]. done.
Qed.

(** ** READ and WRITE jobs *)

Lemma readJob_spec t m :
  table_wf t ->
  match readJob srv t m with
  | inl j => wp anything (good srv) (run_job j) (fun r => reply_id r = rr_ID m)
  | inr r => reply_id r = rr_ID m
  end.
Proof.
  intros Ht. unfold readJob, handles_get.
  destruct (t !! rr_Handle m) as [h|] eqn:E; [|done].
  destruct (table_wf_lookup _ _ _ Ht E).
  destruct (of_dir h); [done|]. destruct (rr_Length m =? 0); [done|]. simpl.
  destruct (of_file h); wp_step; unfold readAt, readWhole; wp_auto; try done; good_call.
Qed.

Lemma writeJob_spec t m :
  table_wf t ->
  match writeJob srv t m with
  | inl j => wp anything (good srv) (run_job j) (fun r => reply_id r = wr_ID m)
  | inr r => reply_id r = wr_ID m
  end.
Proof.
  intros Ht. unfold writeJob, handles_get.
  destruct (t !! wr_Handle m) as [h|] eqn:E; [|done].
  destruct (table_wf_lookup _ _ _ Ht E).
  destruct (of_dir h); [done|]. destruct (ro srv) eqn:Er; [done|].
  destruct (of_write h); [|done]. simpl.
  destruct (_ >? _); [done|]. cbn [run_job].
  destruct (of_writable h); wp_step.
  - apply answer_status_spec, wp_do_good; [good_call|done].
  - unfold writeSplice. wp_auto; try done; try good_call.
    all: apply answer_status_spec, wp_do_good; [good_call|done].
Qed.

Lemma copyData_spec t id data :
  table_wf t -> wp anything (good srv) (copyData srv t id data) (fun r => reply_id r = id).
Proof.
  intros Ht. unfold copyData. wp_auto; try done. unfold copy_locked, copiesData in *.
  bool_prop. wp_auto; try done; try good_call.
  all: apply answer_status_spec, wp_do_good; [good_call|done].
Qed.
End specs.
