(* ===== verification/SessionLaws.v ===== *)
(** What a session guarantees, request by request and over a whole stream:
    [src/session.go], [src/handle.go], [src/path.go] and [src/ops.go] together. *)

From S2P Require Import Prelude Codec Const Attrs Messages WireLaws Packet Errors Path Driver.
From S2P Require Import Server Handle Attr Ops CopyData Session OpsLaws MemDriver.

(** * The request id *)

Lemma requestID_be32 id r : u32 id -> requestID (be32 id ++ r) = id.
Proof.
  intros H. unfold requestID. pose proof (len_nonneg r).
  rewrite len_app, len_be32, (proj2 (Z.ltb_ge _ _)) by lia.
  change (take 4 (be32 id ++ r)) with (be32 id ++ []). by rewrite be32_decode.
Qed.

(** A message whose payload starts with its request id. *)
Class Identified (M : Type) `{Message M} (msg_wf : M -> Prop) (msg_id : M -> Z) : Prop :=
  payload_id : forall m, msg_wf m -> requestID (payload_of m) = msg_id m.

Ltac identified :=
  intros [] ?; autounfold with wire_wf in *; simpl in *;
  repeat match goal with H : _ /\ _ |- _ => destruct H end;
  enc_simpl; by apply requestID_be32.

#[export] Instance Identified_Path : Identified PathRequest pr_wf pr_ID.
Proof. identified. Qed.
#[export] Instance Identified_Handle : Identified HandleRequest hr_wf hr_ID.
Proof. identified. Qed.
#[export] Instance Identified_Open : Identified OpenRequest or_wf or_ID.
Proof. identified. Qed.
#[export] Instance Identified_Read : Identified ReadRequest rr_wf rr_ID.
Proof. identified. Qed.
#[export] Instance Identified_Write : Identified WriteRequest wr_wf wr_ID.
Proof. identified. Qed.
#[export] Instance Identified_Setstat : Identified SetstatRequest ss_wf ss_ID.
Proof. identified. Qed.
#[export] Instance Identified_Fsetstat : Identified FsetstatRequest fs_wf fs_ID.
Proof. identified. Qed.
#[export] Instance Identified_Rename : Identified RenameRequest rn_wf rn_ID.
Proof. identified. Qed.
#[export] Instance Identified_Symlink : Identified SymlinkRequest sl_wf sl_ID.
Proof. identified. Qed.
#[export] Instance Identified_Extended : Identified ExtendedRequest er_wf er_ID.
Proof. identified. Qed.

(** A decoded request carries the id its packet starts with, and decoding never
    panics: the rule for the [decoded] of [dispatch] and [prepare]. *)
Lemma decoded_spec {M A} `{Message M} (dec : Z -> bytes -> outcome wire_error M)
    (wf : M -> Prop) (id : M -> Z) `{!Codec M dec wf} `{!Identified M wf id}
    (T : A -> Prop) typ payload bad panic k :
  (forall e, T (bad e)) ->
  (forall m, wf m -> id m = requestID payload -> T (k m)) ->
  T (decoded (dec typ payload) bad panic k).
Proof.
  intros Hb Hk. destruct (dec typ payload) as [m|e|] eqn:E; simpl; [|done|].
  - destruct (encode_decode _ _ _ E) as [Hm <-]. apply Hk; [done|]. symmetry. by apply payload_id.
  - by destruct (decode_no_panic (M:=M) typ payload).
Qed.

(** * Every request *)

(** What a server may do whatever the request: on a read-only export, no call
    that changes the filesystem. *)
Definition safe (srv : Server) (c : call) : Prop := ro srv = true -> call_ro c = true.

Section request.
Context {UT : UnicodeTables} (srv : Server).

Lemma keep_spec V P t id p :
  table_wf t -> table_ro srv t ->
  wp V P p (fun r => reply_id r = id) -> wp V P (keep t p) (handled srv id).
Proof. intros Ht Hr Hp. apply wp_bind. eapply wp_mono; [done|]. by intros r Hi. Qed.

Lemma ret_spec V P t id r :
  table_wf t -> table_ro srv t -> reply_id r = id -> wp V P (mret (t, r)) (handled srv id).
Proof. intros. by apply wp_ret. Qed.

Lemma opSetstat_safe id path a :
  wp anything (safe srv) (opSetstat srv id path a) (fun r => reply_id r = id).
Proof.
  unfold opSetstat, setstat_metadata. destruct (ro srv) eqn:E; [done|].
  assert (forall c, safe srv c) as Hs by (intros c ?; congruence).
  wp_step. wp_auto; done.
Qed.

(** A request decoded by [dec] and handled by [k]. *)
Lemma branch_spec {M} `{Message M} (P : call -> Prop) (dec : Z -> bytes -> outcome wire_error M)
    (wf : M -> Prop) (id : M -> Z) `{!Codec M dec wf} `{!Identified M wf id}
    t typ payload panic k :
  table_wf t -> table_ro srv t ->
  (forall m, wp anything P (k m) (handled srv (id m))) ->
  wp anything P
    (decoded (dec typ payload) (fun e => mret (t, badMessage (requestID payload) e)) panic k)
    (handled srv (requestID payload)).
Proof.
  intros Ht Hr Hk.
  apply (decoded_spec dec wf id (fun p => wp anything P p (handled srv (requestID payload)))).
  - intros e. by apply ret_spec.
  - intros m _ <-. apply Hk.
Qed.

Ltac branch :=
  first
    [ apply (branch_spec _ DecodePath pr_wf pr_ID)
    | apply (branch_spec _ DecodeHandle hr_wf hr_ID)
    | apply (branch_spec _ DecodeSetstat ss_wf ss_ID)
    | apply (branch_spec _ (fun _ => DecodeOpen) or_wf or_ID _ 0)
    | apply (branch_spec _ (fun _ => DecodeFsetstat) fs_wf fs_ID _ 0)
    | apply (branch_spec _ (fun _ => DecodeRename) rn_wf rn_ID _ 0)
    | apply (branch_spec _ (fun _ => DecodeSymlink) sl_wf sl_ID _ 0)
    | apply (branch_spec _ (fun _ => DecodeExtended) er_wf er_ID _ 0) ];
  [done|done|intros m].

Lemma dispatch_spec t typ payload :
  table_wf t -> table_ro srv t -> typ <> FxpSetstat ->
  wp anything (good srv) (dispatch srv t typ payload) (handled srv (requestID payload)).
Proof.
  intros Ht Hr Hn. unfold dispatch.
  repeat case_if; try done; try branch.
  - by apply opOpen_spec.
  - by apply opClose_spec.
  - by apply keep_spec, opStat_spec.
  - by apply keep_spec, opFstat_spec.
  - unfold handles_get. destruct (t !! fs_Handle m) as [h|] eqn:E; [|by apply ret_spec].
    apply keep_spec, opSetstat_spec; [done|done|]. by apply (table_wf_lookup _ _ _ Ht E).
  - by apply opOpendir_spec.
  - by apply opReaddir_spec.
  - by apply keep_spec, opRemove_spec.
  - by apply keep_spec, opMkdir_spec.
  - by apply keep_spec, opRealpath_spec.
  - by apply keep_spec, opRename_spec.
  - by apply keep_spec, opReadlink_spec.
  - by apply keep_spec, opSymlink_spec.
  - repeat case_decide; try (by apply ret_spec). by apply keep_spec, copyData_spec.
Qed.

Lemma prepare_spec t typ payload :
  table_wf t ->
  match prepare srv t typ payload with
  | PJob j => wp anything (good srv) (run_job j) (fun r => reply_id r = requestID payload)
  | PEarly r => reply_id r = requestID payload
  | PBarrier => typ <> FxpRead /\ typ <> FxpWrite
  end.
Proof.
  intros Ht. unfold prepare. repeat case_if; [| |done].
  - eapply (decoded_spec (fun _ => DecodeRead) rr_wf rr_ID (fun x => match x with
      PJob j => _ | PEarly r => _ | PBarrier => _ end) 0); [done|].
    intros m _ <-. pose proof (readJob_spec srv t m Ht). by destruct (readJob srv t m).
  - eapply (decoded_spec (fun _ => DecodeWrite) wr_wf wr_ID (fun x => match x with
      PJob j => _ | PEarly r => _ | PBarrier => _ end) 0); [done|].
    intros m _ <-. pose proof (writeJob_spec srv t m Ht). by destruct (writeJob srv t m).
Qed.

Lemma handle_request_spec t typ payload :
  table_wf t -> table_ro srv t -> typ <> FxpSetstat ->
  wp anything (good srv) (handle_request srv t typ payload) (handled srv (requestID payload)).
Proof.
  intros Ht Hr Hn. unfold handle_request. pose proof (prepare_spec t typ payload Ht).
  destruct (prepare srv t typ payload).
  - by apply keep_spec.
  - by apply ret_spec.
  - by apply dispatch_spec.
Qed.

(** Every request, SETSTAT included. *)
Lemma handle_request_safe t typ payload :
  table_wf t -> table_ro srv t ->
  wp anything (safe srv) (handle_request srv t typ payload) (handled srv (requestID payload)).
Proof.
  intros Ht Hr. destruct (decide (typ = FxpSetstat)) as [->|Hn].
  - change (wp anything (safe srv) (dispatch srv t FxpSetstat payload)
              (handled srv (requestID payload))).
    unfold dispatch. cbn -[DecodeSetstat requestID]. branch.
    by apply keep_spec, opSetstat_safe.
  - eapply wp_calls; [|by apply handle_request_spec]. by intros c [? _].
Qed.
End request.

(** * Sessions as a transition system

    The states of a session between two requests: its handle table and the state
    of the driver behind it. One step handles one packet, whatever it holds. *)
Section reachable.
Context {UT : UnicodeTables} {S : Type} `{!Driver S} (srv : Server).

Inductive reachable (s0 : S) : handles -> S -> Prop :=
| reach_init : reachable s0 newHandles s0
| reach_step t s typ payload :
    reachable s0 t s ->
    reachable s0 (fst (snd (exec (handle_request srv t typ payload) s)))
                 (fst (exec (handle_request srv t typ payload) s)).

Lemma newHandles_wf : table_wf newHandles.
Proof. split; [done|]. apply map_Forall_empty. Qed.

Lemma newHandles_ro : table_ro srv newHandles.
Proof. intros _. apply map_Forall_empty. Qed.

Lemma exec_request t typ payload s :
  table_wf t -> table_ro srv t ->
  Forall (safe srv) (trace (handle_request srv t typ payload) s) /\
  handled srv (requestID payload) (snd (exec (handle_request srv t typ payload) s)).
Proof.
  intros Ht Hr. eapply wp_adequate; [apply _|by apply handle_request_safe].
Qed.

Lemma reachable_inv s0 t s : reachable s0 t s -> table_wf t /\ table_ro srv t.
Proof.
  induction 1 as [|t s typ payload _ [Ht Hr]].
  - split; [apply newHandles_wf|apply newHandles_ro].
  - by destruct (exec_request t typ payload s Ht Hr) as (_ & _ & ? & ?).
Qed.

(** C4. The handle table's invariant holds in every reachable state of every
    session over every driver: at most [maxOpenHandles] handles are open; each
    holds a path inside the export; a directory handle has no file; a writable
    half is the same open file, only on a handle opened for writing; a handle
    opened for writing without one keeps no stale file open; a directory cursor
    is within its listing; and on a read-only export no handle was opened for
    writing. *)
Theorem handle_table_invariant s0 t s :
  reachable s0 t s ->
  Z.of_nat (size t) <= maxOpenHandles /\
  (ro srv = true -> forall tok h, t !! tok = Some h -> of_write h = false) /\
  forall tok h, t !! tok = Some h ->
    is_clean (of_path h) /\
    (of_dir h = true -> of_file h = None /\ of_writable h = None /\ of_write h = false) /\
    (forall f, of_writable h = Some f ->
       of_file h = Some f /\ f_writable f = true /\ of_write h = true) /\
    (of_write h = true -> of_writable h = None -> of_file h = None) /\
    0 <= of_pos h <= len (of_entries h).
Proof.
  intros [[Hs Ht] Hr]%reachable_inv. split_and!; [done| |].
  - intros E tok h Hh. exact (Hr E tok h Hh).
  - intros tok h Hh. by destruct (Ht tok h Hh).
Qed.

(** Every request is answered with its own id: the reply to any packet, in
    any reachable state, carries the id the packet starts with (0 when the
    packet is too short to hold one), whether the request was served, refused,
    malformed or of a type the server does not know. *)
Theorem reply_answers_request s0 t s typ payload :
  reachable s0 t s ->
  reply_id (snd (snd (exec (handle_request srv t typ payload) s))) = requestID payload.
Proof. intros [Ht Hr]%reachable_inv. apply (exec_request t typ payload s Ht Hr). Qed.

(** A read-only export is never modified: whatever packets a client sends,
    none of the calls the server makes is one that can change the filesystem
    (write, create, delete, rename, truncate, set metadata, link, sync or copy). *)
Theorem read_only_export_unmodified s0 t s typ payload :
  ro srv = true -> reachable s0 t s ->
  Forall (fun c => call_ro c = true) (trace (handle_request srv t typ payload) s).
Proof.
  intros Hro [Ht Hr]%reachable_inv.
  eapply Forall_impl; [apply (exec_request t typ payload s Ht Hr)|]. intros c Hc. by apply Hc.
Qed.

(** C1. Containment: for every request but SETSTAT, every path the server hands
    to the driver is absolute and free of ["."], [".."] and empty components, so
    nothing a client sends resolves outside the exported root. *)
Theorem driver_paths_contained s0 t s typ payload :
  typ <> FxpSetstat -> reachable s0 t s ->
  Forall call_clean (trace (handle_request srv t typ payload) s).
Proof.
  intros Hn [Ht Hr]%reachable_inv.
  destruct (wp_adequate anything _ _ _ s
              (handle_request_spec srv t typ payload Ht Hr Hn)) as [H _].
  eapply Forall_impl; [exact H|]. by intros c [_ Hc].
Qed.
End reachable.

(** * A concrete session *)

Definition all_caps : Caps :=
  {| is_Truncater := true; is_MetadataSetter := true; is_Symlinker := true; is_Opener := true |}.

Definition demo_server (read_only open : bool) : Server :=
  {| fsys := all_caps; opener := open; ro := read_only; maxPacket := 0; start := 0;
     maxInFlight := 0; maxTotal := 256; packetWait := 0; pathConcurrent := false |}.

(** A filesystem with one file, ["/a"]. *)
Definition demo_mem : Mem := mem_set (str "/a") (str "hello") mem_empty.

(** The table and the driver after one request. *)
Definition after {S} `{!Driver S} {UT : UnicodeTables} (srv : Server) (typ : Z) (payload : bytes)
    (x : handles * S) : handles * S :=
  let y := exec (handle_request srv (fst x) typ payload) (snd x) in (fst (snd y), fst y).

Lemma after_reachable {S} `{!Driver S} {UT : UnicodeTables} srv s0 typ payload x :
  reachable (UT:=UT) srv s0 (fst x) (snd x) ->
  reachable srv s0 (fst (after srv typ payload x)) (snd (after srv typ payload x)).
Proof. exact (reach_step srv s0 (fst x) (snd x) typ payload). Qed.

Definition open_a : bytes :=
  payload_of {| or_ID := 7; or_Path := str "/a"; or_PFlags := FxfRead; or_Attrs := zero_Attributes |}.

Definition after_open (read_only : bool) : handles * Mem :=
  after (UT:=ascii_tables) (demo_server read_only true) FxpOpen open_a (newHandles, demo_mem).

Lemma after_open_reachable b :
  reachable (UT:=ascii_tables) (demo_server b true) demo_mem (fst (after_open b)) (snd (after_open b)).
Proof.
  unfold after_open.
  apply (after_reachable _ _ _ _ (newHandles, demo_mem)). cbn [fst snd]. apply reach_init.
Qed.

Lemma handle_table_invariant_witness :
  size (fst (after_open true)) = 1%nat /\
  Z.of_nat (size (fst (after_open true))) <= maxOpenHandles.
Proof.
  split; [vm_compute; reflexivity|].
  exact (proj1 (handle_table_invariant (UT:=ascii_tables) (demo_server true true) demo_mem _
           (snd (after_open true)) (after_open_reachable true))).
Defined.

Lemma reply_answers_request_witness :
  reply_id (snd (snd (exec (handle_request (UT:=ascii_tables) (demo_server true true)
    (fst (after_open true)) 99 (be32 1234 ++ str "junk")) (snd (after_open true))))) = 1234.
Proof.
  transitivity (requestID (be32 1234 ++ str "junk")); [|vm_compute; reflexivity].
  exact (reply_answers_request (UT:=ascii_tables) (demo_server true true) demo_mem _ _ _ _
           (after_open_reachable true)).
Defined.

Definition remove_a : bytes :=
  payload_of {| pr_PacketType := FxpRemove; pr_ID := 8; pr_Path := str "/a" |}.

Lemma read_only_export_unmodified_witness :
  Forall (fun c => call_ro c = true)
    (trace (handle_request (UT:=ascii_tables) (demo_server true true) (fst (after_open true))
              FxpRemove remove_a) (snd (after_open true))).
Proof.
  exact (read_only_export_unmodified (UT:=ascii_tables) (demo_server true true) demo_mem _ _ _ _
           eq_refl (after_open_reachable true)).
Defined.

(** ["/../../etc/passwd"] *)
Definition escape : bytes := str "/../../etc/passwd".

Lemma driver_paths_contained_witness :
  Forall call_clean
    (trace (handle_request (UT:=ascii_tables) (demo_server false true) (fst (after_open false))
              FxpStat (payload_of {| pr_PacketType := FxpStat; pr_ID := 9; pr_Path := escape |}))
       (snd (after_open false))).
Proof.
  refine (driver_paths_contained (UT:=ascii_tables) (demo_server false true) demo_mem _ _ _ _
            _ (after_open_reachable false)). done.
Defined.

Definition truncate_escape : SetstatRequest :=
  {| ss_PacketType := FxpSetstat; ss_ID := 1; ss_Path := escape;
     ss_Attrs := {| aFlags := AttrSize; aSize := 0; aUID := 0; aGID := 0;
                    aPermissions := 0; aAtime := 0; aMtime := 0; aExtended := [] |} |}.

(** C38. SETSTAT is not contained: on a writable export over any driver that can
    truncate, a SETSTAT of ["/../../etc/passwd"] with a size reaches the driver's
    [Truncate] with that very path, which is not a cleaned one. *)
Theorem setstat_path_not_cleaned {UT : UnicodeTables} {S} `{!Driver S} (s : S) open t :
  Truncate escape 0 ∈
    trace (handle_request (demo_server false open) t FxpSetstat (payload_of truncate_escape)) s /\
  ~ call_clean (Truncate escape 0).
Proof.
  split.
  - change (handle_request (demo_server false open) t FxpSetstat (payload_of truncate_escape)) with
      (decoded (DecodeSetstat FxpSetstat (payload_of truncate_escape))
         (fun e => mret (t, badMessage (requestID (payload_of truncate_escape)) e))
         (mret (t, status (requestID (payload_of truncate_escape)) StatusBadMessage []))
         (fun m => keep t (opSetstat (demo_server false open) (ss_ID m) (ss_Path m) (ss_Attrs m)))).
    replace (DecodeSetstat FxpSetstat (payload_of truncate_escape)) with
      (@Ok wire_error _ truncate_escape) by by vm_compute.
    cbn [decoded]. apply trace_bind_elem, trace_with_lock_elem. intros s'.
    change (Truncate escape 0 ∈ trace (err ← do_ (Truncate escape 0); match err with
      | Some err => mret (fail_with 1 (Some err) StatusFailure)
      | None => setstat_metadata (demo_server false open) 1 escape (ss_Attrs truncate_escape)
      end) s').
    apply trace_bind_elem. simpl. destruct (handle _ s'). by apply elem_of_cons; left.
  - intros H%is_clean_fixed; done.
Qed.
