(* ===== verification/LockLaws.v ===== *)
(** The filesystem lock: which handler holds it, how, and around which calls
    ([lock], [rlock] of [src/server.go], [LockIO] in [src/ops.go]). *)

From S2P Require Import Prelude Codec Const Attrs Messages Packet Errors Path Driver Server.
From S2P Require Import Handle Attr Ops CopyData Session OpsLaws MemDriver.

(** [balanced p] unfolds to [stays Free p]. *)
Ltac lock_step :=
  lazymatch goal with
  | |- stays Free (with_lock _) => apply balanced_with_lock
  | |- stays Free (with_rlock _) => apply balanced_with_rlock
  | |- stays Free (with_iolock _) => apply balanced_with_iolock
  | |- stays _ (mret _) => apply stays_ret
  | |- stays _ (_ ≫= _) => apply stays_bind; [|intros ?]
  | |- stays ?h (do_ ?c) => apply (stays_do h c); reflexivity
  | |- stays _ (match ?x with _ => _ end) => destruct x
  end.

Ltac lock_auto := repeat (lock_step; cbn beta iota zeta).

Section locks.
Context {UT : UnicodeTables} (srv : Server).

Lemma answer_status_stays h id fallback p : stays h p -> stays h (answer_status id fallback p).
Proof. intros Hp. unfold answer_status. lock_auto. done. Qed.

Lemma handles_add_stays h t f : stays h (handles_add t f).
Proof. unfold handles_add. apply stays_bind; [by destruct h|]. intros [? [?|]]; apply stays_ret. Qed.

Hint Resolve answer_status_stays handles_add_stays : ops.

Ltac locks := lock_auto; eauto with ops; try (apply answer_status_stays; lock_auto).

Lemma opStat_locks m : stays Free (opStat srv m).
Proof. unfold opStat. locks. Qed.

Lemma opSetstat_locks id path a : stays Free (opSetstat srv id path a).
Proof. unfold opSetstat, setstat_metadata. locks. Qed.

Lemma opOpendir_locks t m : stays Free (opOpendir t m).
Proof. unfold opOpendir. locks. Qed.

Lemma readdir_items_stays dir batch : stays PathShared (readdir_items srv dir batch).
Proof. induction batch; cbn [readdir_items]; unfold readdir_entry; locks. Qed.

Lemma readdir_loop_stays fuel id h : stays PathShared (readdir_loop srv fuel id h).
Proof.
  revert h. induction fuel as [|fuel IH]; intros h; [apply stays_ret|].
  cbn [readdir_loop]. locks. apply readdir_items_stays.
Qed.

Lemma opReaddir_locks t m : stays Free (opReaddir srv t m).
Proof. unfold opReaddir. locks. apply readdir_loop_stays. Qed.

Lemma register_stays t id h : stays Exclusive (register t id h).
Proof. unfold register. locks. Qed.

Lemma finishOpen_stays t id path w : stays Exclusive (finishOpen srv t id path w).
Proof. unfold finishOpen. locks; apply register_stays. Qed.

Lemma opOpen_locks t m : stays Free (opOpen srv t m).
Proof. unfold opOpen. locks; apply finishOpen_stays. Qed.

Lemma opClose_locks t m : stays Free (opClose t m).
Proof. unfold opClose, close_file. locks. Qed.

Lemma readJob_locks t m :
  match readJob srv t m with inl j => stays Free (run_job j) | inr _ => True end.
Proof.
  unfold readJob. destruct (handles_get t (rr_Handle m)) as [h|]; [|done].
  destruct (of_dir h); [done|]. destruct (rr_Length m =? 0); [done|]. cbn [run_job].
  unfold readAt, readWhole. locks.
Qed.

Lemma writeJob_locks t m :
  match writeJob srv t m with inl j => stays Free (run_job j) | inr _ => True end.
Proof.
  unfold writeJob. destruct (handles_get t (wr_Handle m)) as [h|]; [|done].
  destruct (of_dir h); [done|]. destruct (ro srv); [done|]. destruct (negb _); [done|].
  destruct (_ >? _); [done|]. cbn [run_job]. unfold writeSplice. locks.
Qed.

Lemma copyData_locks t id data : stays Free (copyData srv t id data).
Proof. unfold copyData, copy_locked. locks. Qed.

Lemma dispatch_locks t typ payload : stays Free (dispatch srv t typ payload).
Proof.
  assert (forall p, stays Free p -> stays Free (keep t p)) as Hk.
  { intros p Hp. unfold keep. by locks. }
  unfold dispatch, decoded. repeat case_if; locks.
  all: try (apply Hk); auto using opOpen_locks, opClose_locks, opStat_locks, opSetstat_locks,
    opOpendir_locks, opReaddir_locks, copyData_locks.
  all: unfold opFstat, opRemove, opMkdir, opRealpath, opRename, opReadlink, opSymlink; locks.
  apply opStat_locks.
Qed.

(** C8. Lock discipline: whatever the request and the driver's answers, one
    request acquires the filesystem lock in one mode at most, releases exactly
    what it acquired before it replies (on the error paths too), and makes every
    driver call under a mode that call needs: path mutations, [OpenFile],
    [Truncate], [Sync], [Close] and copies exclusively, read-only path calls
    under the path lock, [ReadAt] and [WriteAt] under the I/O lock. *)
Theorem requests_keep_lock_discipline t typ payload :
  balanced (handle_request srv t typ payload).
Proof.
  change (stays Free (handle_request srv t typ payload)).
  unfold handle_request, prepare, decoded, keep. repeat case_if; [| |apply dispatch_locks].
  - destruct (DecodeRead payload) as [m|e|]; [|apply stays_ret..].
    pose proof (readJob_locks t m). destruct (readJob srv t m); cbn [of_job]; by locks.
  - destruct (DecodeWrite payload) as [m|e|]; [|apply stays_ret..].
    pose proof (writeJob_locks t m). destruct (writeJob srv t m); cbn [of_job]; by locks.
Qed.
End locks.

(** The end of a session breaks that discipline: [closeAll] calls [Close]
    on an open file with the filesystem lock free. *)
Theorem closeAll_unlocked t tok h f :
  of_file h = Some f -> ~ balanced (closeAll [(tok, h)] t None).
Proof. intros Hf. unfold balanced; simpl. rewrite Hf. simpl. by intros []. Qed.

Lemma closeAll_unlocked_witness :
  ~ balanced (closeAll [([], set_files (Some {| f_id := 1; f_writable := false |}) None
                                (new_openFile (str "/a") false))] ∅ None).
Proof. apply (closeAll_unlocked ∅ [] _ {| f_id := 1; f_writable := false |}). reflexivity. Defined.
