(* ===== verification/ReplyLaws.v ===== *)
(** The size of replies: over a driver whose answers have bounded sizes, no reply is
    too large to frame, so no request ends a session ([frame] of
    [src/concurrent.go], [dispatch] of [src/session.go]). *)

From S2P Require Import Prelude Codec Const Attrs Messages WireLaws Packet Errors Path Driver.
From S2P Require Import Server Handle Attr Ops CopyData Session OpsLaws SessionLaws MemDriver.

(** * The contract of the driver

    [io.ReaderAt] fills at most the buffer it is given. That directory entries are
    at most [maxEntryName] bytes and link targets at most [maxLinkTarget] is an
    assumption of this file, which filesystems meet (255 bytes and one path,
    usually) and nothing in the repository promises: a reply that is too large
    ends its session, as [StreamLaws] shows. *)

Definition maxEntryName : Z := 1024.
Definition maxLinkTarget : Z := 65536.

Definition sized : contract := fun c =>
  match c return answer c -> Prop with
  | File_ReadAt _ n _ => fun x => 0 <= n -> len (fst x) <= n
  | ReadLink _ => fun x => len (fst x) <= maxLinkTarget
  | ListDir _ => fun x => Forall (fun name => len name <= maxEntryName) (fst x)
  | _ => fun _ => True
  end.

(** A reply that can be framed. *)
Definition fits (r : Reply) : Prop := 1 + len (payload_of r) <= MaxPacket.

(** The listings a session keeps are the driver's. *)
Definition table_sized (t : handles) : Prop :=
  map_Forall (fun _ h => Forall (fun name => len name <= maxEntryName) (of_entries h)) t.

(** * The length an encoder call adds *)

Definition elen (e : Encoder) : Z := len (Encoder_Bytes e).

Lemma elen_append b e : elen (Encoder_append b e) = elen e + len b.
Proof. unfold elen, Encoder_append; simpl. apply len_app. Qed.

Lemma elen_Uint32 v e : elen (Encoder_Uint32 v e) = elen e + 4.
Proof. unfold Encoder_Uint32. by rewrite elen_append, len_be32. Qed.

Lemma elen_Uint64 v e : elen (Encoder_Uint64 v e) = elen e + 8.
Proof. unfold Encoder_Uint64. by rewrite elen_append, len_be64. Qed.

Lemma elen_Blob b e : elen (Encoder_Blob b e) = elen e + 4 + len b.
Proof. unfold Encoder_Blob. by rewrite elen_append, elen_Uint32. Qed.

Lemma elen_String s e : elen (Encoder_String s e) = elen e + 4 + len s.
Proof. unfold Encoder_String. by rewrite elen_append, elen_Uint32. Qed.

Lemma elen_New : elen NewEncoder = 0.
Proof. done. Qed.

Create Rewrite HintDb elen.
#[export] Hint Rewrite elen_append elen_Uint32 elen_Uint64 elen_Blob elen_String elen_New : elen.

Lemma elen_Attributes a e :
  has (aFlags a) AttrExtended = false -> elen (Attributes_Encode a e) <= elen e + 32.
Proof.
  intros Hx. unfold Attributes_Encode. rewrite Hx.
  repeat case_if; autorewrite with elen; lia.
Qed.

(** * Sizes of the parts of a reply *)

(** A payload is what its encoder appends. *)
Ltac by_elen :=
  unfold fits; rewrite MaxPacket_val;
  match goal with |- context [payload_of ?r] =>
    change (1 + elen (EncodePayload r NewEncoder) <= 266240) end;
  cbv beta iota delta [EncodePayload Reply_Message StatusReply_Message HandleReply_Message
    DataReply_Message AttrsReply_Message NameReply_Message ExtendedReply_Message status
    st_ID st_Code st_Message st_Lang hp_ID hp_Handle dr_ID dr_Data ar_ID ar_Attrs
    nr_ID nr_Items xr_ID xr_Data];
  autorewrite with elen len; try lia.

Lemma fits_status id code msg : len msg <= 262200 -> fits (status id code msg).
Proof. intros. by_elen. Qed.

Lemma fits_fail_with {UT : UnicodeTables} id err fb : fits (fail_with id err fb).
Proof. apply fits_status. pose proof (errText_len err). lia. Qed.

Lemma fits_badMessage id e : fits (badMessage id e).
Proof. apply fits_status. pose proof (errText_len (Some (errors_New (wire_error_text e)))). lia. Qed.

Lemma fits_handle id tok : len tok <= 32 -> fits (RHandle {| hp_ID := id; hp_Handle := tok |}).
Proof. intros. by_elen. Qed.

Lemma fits_data id d : len d <= 261120 -> fits (RData {| dr_ID := id; dr_Data := d |}).
Proof. intros. by_elen. Qed.

Lemma fits_extended id d : len d <= 1024 -> fits (RExtended {| xr_ID := id; xr_Data := d |}).
Proof. intros. by_elen. Qed.

Lemma attrsFromStat_plain srv st : has (aFlags (attrsFromStat srv st)) AttrExtended = false.
Proof. done. Qed.

Lemma fits_attrs srv id st : fits (RAttrs {| ar_ID := id; ar_Attrs := attrsFromStat srv st |}).
Proof.
  by_elen. pose proof (elen_Attributes _ (Encoder_Uint32 id NewEncoder) (attrsFromStat_plain srv st)) as H.
  autorewrite with elen in H. lia.
Qed.

(** ** Listing lines *)

Lemma len_format_digits fuel v acc : len (format_digits fuel v acc) <= len acc + Z.of_nat fuel.
Proof.
  revert v acc. induction fuel as [|fuel IH]; intros v acc; cbn [format_digits]; [lia|].
  cbv zeta. case_if; [rewrite len_cons; lia|]. etrans; [apply IH|]. rewrite len_cons. lia.
Qed.

Lemma len_FormatUint v : len (FormatUint v) <= 20.
Proof. unfold FormatUint. etrans; [apply len_format_digits|]. done. Qed.

Lemma len_month_name m : len (month_name m) = 3.
Proof. unfold month_name. generalize (Z.to_nat (m - 1)); intros n.
  do 11 (destruct n as [|n]; [done|]). done. Qed.

Lemma len_insert {A} i (x : A) l : len (<[i := x]> l) = len l.
Proof. unfold len. by rewrite length_insert. Qed.

Lemma len_setBit mode pos bit a b out : len (setBit mode pos bit a b out) = len out.
Proof. unfold setBit. repeat case_match; by rewrite ?len_insert. Qed.

Lemma len_rwx_loop mode i rwx out : len (rwx_loop mode i rwx out) = len out.
Proof.
  revert i out. induction rwx as [|c rwx IH]; intros i out; cbn [rwx_loop]; [done|].
  cbv zeta. rewrite IH. case_if; by rewrite ?len_insert.
Qed.

Lemma len_modeString mode : len (modeString mode) = 10.
Proof. unfold modeString. by rewrite !len_setBit, len_rwx_loop, len_insert. Qed.

Lemma len_format_time sec : len (format_time sec) = 12.
Proof.
  unfold format_time. destruct (civil_of_days _) as [m d].
  rewrite !len_app, len_month_name. done.
Qed.

Lemma len_longName name a : len (longName name a) <= len name + 100.
Proof.
  unfold longName. rewrite !len_app, len_modeString, len_format_time.
  pose proof (len_FormatUint (aUID a)). pose proof (len_FormatUint (aGID a)).
  pose proof (len_FormatUint (aSize a)).
  change (len (str " 1 ")) with 3. change (len (str " ")) with 1. lia.
Qed.

(** ** NAME replies *)

Definition item_cost (it : NameItem) : Z := 40 + len (ni_Filename it) + len (ni_Longname it).

Definition item_small (c : Z) (it : NameItem) : Prop :=
  has (aFlags (ni_Attrs it)) AttrExtended = false /\ item_cost it <= c.

Lemma elen_items c its e :
  Forall (item_small c) its ->
  elen (fold_left (fun e it => encode_item it e) its e) <= elen e + len its * c.
Proof.
  intros H. revert e. induction H as [|it its [Hp Hc] _ IH]; intros e.
  { cbn [fold_left]. autorewrite with len. lia. }
  cbn [fold_left]. etrans; [apply IH|]. rewrite len_cons. unfold encode_item, item_cost in *.
  pose proof (elen_Attributes _ (Encoder_String (ni_Longname it) (Encoder_String (ni_Filename it) e)) Hp) as H.
  autorewrite with elen in H. lia.
Qed.

Lemma fits_name c id its :
  Forall (item_small c) its -> len its * c <= 262200 ->
  fits (RName {| nr_ID := id; nr_Items := its |}).
Proof.
  intros Hi Hc. by_elen.
  pose proof (elen_items c its (Encoder_Uint32 (uint32 (len its)) (Encoder_Uint32 id NewEncoder)) Hi) as H.
  autorewrite with elen in H. lia.
Qed.

Lemma fits_single id p : len p <= maxLinkTarget ->
  fits (RName {| nr_ID := id; nr_Items := [{| ni_Filename := p; ni_Longname := p;
                                              ni_Attrs := zero_Attributes |}] |}).
Proof.
  unfold maxLinkTarget. intros H. apply (fits_name 131200); [|done].
  constructor; [|constructor]. split; [done|]. unfold item_cost; cbn [ni_Filename ni_Longname]. lia.
Qed.

Lemma len_clean p c : clean p = Some c -> len c <= 4097.
Proof.
  intros H. pose proof (clean_length _ _ H). apply clean_Some in H as (_ & Hl & _).
  unfold maxPath in Hl. lia.
Qed.

(** * Every handler *)

Definition small (x : handles * Reply) : Prop := fits (snd x) /\ table_sized (fst x).

Abbreviation always := (fun _ : call => True).

Lemma fits_str id code msg : (len msg <=? 262200) = true -> fits (status id code msg).
Proof. intros H%Z.leb_le. by apply fits_status. Qed.

Lemma fits_token id (b : vec byte handleBytes) :
  fits (RHandle {| hp_ID := id; hp_Handle := EncodeToString (vec_to_list b) |}).
Proof. apply fits_handle. by rewrite token_len. Qed.

Create HintDb fits.
#[export] Hint Resolve fits_fail_with fits_badMessage fits_attrs fits_token : fits.
#[export] Hint Extern 1 (fits (status _ _ ?msg)) =>
  lazymatch msg with
  | errText _ => apply fits_status; etrans; [apply errText_len|done]
  | _ => by apply fits_str; vm_compute
  end : fits.

Lemma fits_resolve id p bad : resolve id p = inl bad -> fits bad.
Proof. unfold resolve. case_match; [done|]. intros [= <-]. auto with fits. Qed.
#[export] Hint Resolve fits_resolve : fits.

(** [wp_step] keeping what the contract says of an answer. *)
Ltac size_step :=
  lazymatch goal with
  | |- wp sized _ (do_ ?c) _ => apply (wp_do c); [exact I|intros ? ?]
  | _ => wp_step
  end.
Ltac size_auto := repeat (size_step; cbn beta iota zeta); eauto with fits.

Section sizes.
Context {UT : UnicodeTables} (srv : Server).

Lemma opStat_size m : wp sized always (opStat srv m) fits.
Proof. unfold opStat. size_auto. Qed.

Lemma opFstat_size t m : wp sized always (opFstat srv t m) fits.
Proof. unfold opFstat. size_auto. apply opStat_size. Qed.

Lemma opSetstat_size id path a : wp sized always (opSetstat srv id path a) fits.
Proof. unfold opSetstat, setstat_metadata. size_auto. Qed.

Lemma answer_status_size id fb p :
  wp sized always p (fun _ => True) -> wp sized always (answer_status id fb p) fits.
Proof.
  intros Hp. unfold answer_status. apply wp_bind. eapply wp_mono; [done|].
  intros [e|] _; size_auto.
Qed.

Hint Extern 2 (wp sized always (answer_status _ _ (do_ _)) fits) =>
  (apply answer_status_size; done) : fits.

Lemma opRealpath_size m : wp sized always (opRealpath m) fits.
Proof.
  unfold opRealpath, resolve. destruct (clean (pr_Path m)) as [c|] eqn:E; size_auto.
  apply fits_single. pose proof (len_clean _ _ E). unfold maxLinkTarget. lia.
Qed.

Lemma opReadlink_size m : wp sized always (opReadlink m) fits.
Proof. unfold opReadlink. size_auto. subst. by apply fits_single. Qed.

Lemma mutators_size :
  (forall m, wp sized always (opMkdir srv m) fits) /\
  (forall m, wp sized always (opRemove srv m) fits) /\
  (forall m, wp sized always (opRename srv m) fits) /\
  (forall m, wp sized always (opSymlink srv m) fits).
Proof.
  unfold opMkdir, opRemove, opRename, opSymlink. split_and!; intros m; size_auto.
  apply answer_status_size. case_if; done.
Qed.

Lemma copyData_size t id data : wp sized always (copyData srv t id data) fits.
Proof.
  unfold copyData, copy_locked. destruct (decode_copy data) as [a|[]|]; size_auto.
Qed.

(** ** The handlers that change the table *)

Lemma table_sized_insert t tok h :
  table_sized t -> Forall (fun name => len name <= maxEntryName) (of_entries h) ->
  table_sized (<[tok := h]> t).
Proof. intros. by apply map_Forall_insert_2. Qed.

Lemma register_size t id h :
  table_sized t -> of_entries h = [] -> wp sized always (register t id h) small.
Proof.
  intros Ht Hh. unfold register, handles_add. size_auto; split; cbn [fst snd]; auto with fits.
  apply table_sized_insert; [done|]. by rewrite Hh.
Qed.

Lemma finishOpen_size t id path w :
  table_sized t -> wp sized always (finishOpen srv t id path w) small.
Proof.
  intros Ht. unfold finishOpen.
  size_auto; try (by apply register_size); by split; cbn [fst snd]; auto with fits.
Qed.

Lemma opOpen_size t m : table_sized t -> wp sized always (opOpen srv t m) small.
Proof.
  intros Ht. unfold opOpen.
  size_auto; try (by apply finishOpen_size); by split; cbn [fst snd]; eauto with fits.
Qed.

Lemma opClose_size t m : table_sized t -> wp sized always (opClose t m) small.
Proof.
  intros Ht. unfold opClose, handles_remove, close_file, answer_status.
  destruct (t !! hr_Handle m) as [h|]; [|by split; cbn [fst snd]; auto with fits].
  assert (table_sized (delete (hr_Handle m) t)) by by apply map_Forall_delete.
  size_auto; by split; cbn [fst snd]; auto with fits.
Qed.

Lemma opOpendir_size t m : table_sized t -> wp sized always (opOpendir t m) small.
Proof.
  intros Ht. unfold opOpendir, handles_add.
  size_auto; split; cbn [fst snd]; eauto with fits; simplify_eq; auto with fits.
  by apply table_sized_insert.
Qed.

Lemma readdir_items_size dir batch :
  Forall (fun name => len name <= maxEntryName) batch ->
  wp sized always (readdir_items srv dir batch)
    (fun its => Forall (item_small 2300) its /\ len its <= len batch).
Proof.
  induction 1 as [|name batch Hn _ IH]; cbn [readdir_items]; [done|].
  assert (forall o, (forall it, o = Some it -> item_small 2300 it) ->
    wp sized always (its ← readdir_items srv dir batch; mret (option_list o ++ its))
      (fun its => Forall (item_small 2300) its /\ len its <= len (name :: batch))) as Hrest.
  { intros o Ho. apply wp_bind. eapply wp_mono; [apply IH|]. intros its [Hi Hl].
    apply wp_ret. destruct o as [it|]; simpl; rewrite !len_cons; [|split; [done|lia]].
    split; [constructor; auto|lia]. }
  apply wp_bind. eapply (wp_mono _ (fun o => forall it, o = Some it -> item_small 2300 it));
    [|apply Hrest].
  unfold readdir_entry. size_auto; try done. intros it [= <-].
  split; [done|]. unfold item_cost; cbn [ni_Filename ni_Longname].
  pose proof (len_longName name (attrsFromStat srv s)). unfold maxEntryName in *. lia.
Qed.

Lemma readdir_loop_size fuel id h :
  Forall (fun name => len name <= maxEntryName) (of_entries h) ->
  wp sized always (readdir_loop srv fuel id h)
    (fun x => fits (snd x) /\ of_entries (fst x) = of_entries h).
Proof.
  revert h. induction fuel as [|fuel IH]; intros h Hh; cbn [readdir_loop].
  { apply wp_ret. cbn [fst snd]. auto with fits. }
  destruct (of_pos h <? _); [|apply wp_ret; cbn [fst snd]; auto with fits]. cbv zeta.
  apply wp_bind. eapply wp_mono; [apply readdir_items_size; by apply Forall_take, Forall_drop|].
  intros its [Hi Hl]. destruct (0 <? len its); [|by apply (IH (set_pos _ h))].
  apply wp_ret. split; [|done]. apply (fits_name 2300); [done|].
  assert (len its <= 64); [|lia]. etrans; [apply Hl|].
  unfold len. rewrite length_take. unfold readdirBatch. lia.
Qed.

Lemma opReaddir_size t m : table_sized t -> wp sized always (opReaddir srv t m) small.
Proof.
  intros Ht. unfold opReaddir, handles_get.
  destruct (t !! hr_Handle m) as [h|] eqn:E; [|by split; cbn [fst snd]; auto with fits].
  destruct (negb _); [by split; cbn [fst snd]; auto with fits|].
  wp_step. apply wp_bind. eapply wp_mono; [apply readdir_loop_size; exact (Ht _ _ E)|].
  intros [h' r] [Hf He]. apply wp_ret. split; [done|]. apply table_sized_insert; [done|].
  simpl in *. rewrite He. exact (Ht _ _ E).
Qed.

(** ** READ and WRITE *)

Lemma readWhole_size id path off n :
  0 <= off -> 0 <= n <= 261120 -> wp sized always (readWhole id path off n) fits.
Proof.
  intros Ho Hn. unfold readWhole. size_auto. apply fits_data.
  unfold len at 1. rewrite length_take. unfold satAdd, uint64, MaxUint64 in *.
  destruct (off >? _) eqn:E; bool_prop; [lia|].
  pose proof (Z.mod_le (off + n) (2 ^ 64)). lia.
Qed.

Lemma readJob_size t m :
  rr_wf m ->
  match readJob srv t m with
  | inl j => wp sized always (run_job j) fits
  | inr r => fits r
  end.
Proof.
  intros (_ & _ & [Ho _] & [Hl _]). unfold readJob. pose proof (readLength_bounds srv) as Hr.
  destruct (handles_get t (rr_Handle m)) as [h|]; [|auto with fits].
  destruct (of_dir h); [auto with fits|].
  destruct (rr_Length m =? 0); [by apply fits_data|]. cbn [run_job].
  destruct (of_file h) as [f|]; wp_step; [|apply readWhole_size; lia].
  unfold readAt. size_auto. subst. apply fits_data.
  match goal with H : sized _ _ |- _ => simpl in H end. lia.
Qed.

Lemma writeJob_size t m :
  match writeJob srv t m with
  | inl j => wp sized always (run_job j) fits
  | inr r => fits r
  end.
Proof.
  unfold writeJob. destruct (handles_get t (wr_Handle m)) as [h|]; [|auto with fits].
  destruct (of_dir h); [auto with fits|]. destruct (ro srv); [auto with fits|].
  destruct (negb _); [auto with fits|]. destruct (_ >? _); [auto with fits|]. cbn [run_job].
  unfold writeSplice. size_auto.
Qed.

(** ** Requests *)

Lemma keep_size t p : table_sized t -> wp sized always p fits -> wp sized always (keep t p) small.
Proof. intros Ht Hp. apply wp_bind. eapply wp_mono; [done|]. by intros r Hr. Qed.

Lemma branch_size {M} `{Message M} (dec : Z -> bytes -> outcome wire_error M)
    (wf : M -> Prop) (id : M -> Z) `{!Codec M dec wf} `{!Identified M wf id}
    t typ payload panic k :
  table_sized t -> (forall m, wf m -> wp sized always (k m) small) ->
  wp sized always
    (decoded (dec typ payload) (fun e => mret (t, badMessage (requestID payload) e)) panic k) small.
Proof.
  intros Ht Hk. apply (decoded_spec dec wf id (fun p => wp sized always p small)).
  - intros e. apply wp_ret. split; cbn [fst snd]; auto with fits.
  - intros m Hm _. by apply Hk.
Qed.

Ltac branch_size :=
  first
    [ apply (branch_size DecodePath pr_wf pr_ID)
    | apply (branch_size DecodeHandle hr_wf hr_ID)
    | apply (branch_size DecodeSetstat ss_wf ss_ID)
    | apply (branch_size (fun _ => DecodeOpen) or_wf or_ID _ 0)
    | apply (branch_size (fun _ => DecodeFsetstat) fs_wf fs_ID _ 0)
    | apply (branch_size (fun _ => DecodeRename) rn_wf rn_ID _ 0)
    | apply (branch_size (fun _ => DecodeSymlink) sl_wf sl_ID _ 0)
    | apply (branch_size (fun _ => DecodeExtended) er_wf er_ID _ 0) ];
  [done|intros m Hm].

Lemma fits_limits id : fits (RExtended (limitsReply srv id)).
Proof.
  unfold limitsReply. apply fits_extended. cbv zeta. rewrite !len_app, !len_be64. lia.
Qed.

Lemma dispatch_size t typ payload :
  table_sized t -> wp sized always (dispatch srv t typ payload) small.
Proof.
  intros Ht. destruct mutators_size as (? & ? & ? & ?). unfold dispatch.
  repeat case_if; try branch_size.
  all: auto using keep_size, opOpen_size, opClose_size, opStat_size, opFstat_size,
    opSetstat_size, opOpendir_size, opReaddir_size, opRealpath_size, opReadlink_size.
  - destruct (handles_get t (fs_Handle m)); [by apply keep_size, opSetstat_size|].
    split; cbn [fst snd]; auto with fits.
  - destruct Hm as [_ Hn]. unfold str_wf in Hn. rewrite DefaultLimit_val in Hn.
    repeat case_decide; [split; [apply fits_limits|done]|by apply keep_size, copyData_size|].
    split; [|done]. apply fits_status. rewrite len_app.
    change (len (str "unsupported extension: ")) with 23. lia.
  - split; cbn [fst snd]; auto with fits.
Qed.

Lemma prepare_size t typ payload :
  match prepare srv t typ payload with
  | PJob j => wp sized always (run_job j) fits
  | PEarly r => fits r
  | PBarrier => True
  end.
Proof.
  unfold prepare. repeat case_if; [| |done].
  - eapply (decoded_spec (fun _ => DecodeRead) rr_wf rr_ID (fun x => match x with
      PJob j => _ | PEarly r => _ | PBarrier => _ end) 0); [auto with fits|].
    intros m Hm _. pose proof (readJob_size t m Hm). by destruct (readJob srv t m).
  - eapply (decoded_spec (fun _ => DecodeWrite) wr_wf wr_ID (fun x => match x with
      PJob j => _ | PEarly r => _ | PBarrier => _ end) 0); [auto with fits|].
    intros m Hm _. pose proof (writeJob_size t m). by destruct (writeJob srv t m).
Qed.

Lemma handle_request_size t typ payload :
  table_sized t -> wp sized always (handle_request srv t typ payload) small.
Proof.
  intros Ht. unfold handle_request. pose proof (prepare_size t typ payload).
  destruct (prepare srv t typ payload);
    [by apply keep_size|by split|by apply dispatch_size].
Qed.
End sizes.
