(* ===== verification/StreamLaws.v ===== *)
(** A whole conversation: [run], [negotiate] and [Serve] over a byte stream
    ([src/session.go], [src/server.go]), and the end of a session
    ([closeAll] of [src/handle.go]). *)

From S2P Require Import Prelude Codec Const Attrs Messages WireLaws Packet Errors Path Driver.
From S2P Require Import Server Handle Attr Ops CopyData Session OpsLaws SessionLaws ReplyLaws.
From S2P Require Import MemDriver.

(** * Framing replies *)

Lemma frame_fits r : fits r -> frame r = Ok (frame_bytes (msg_Type r) (payload_of r)).
Proof.
  intros Hr. unfold frame, Send.
  change (Encoder_Bytes (EncodePayload r NewEncoder)) with (payload_of r).
  by rewrite WritePacket_eq.
Qed.

#[export] Instance fits_dec r : Decision (fits r).
Proof. unfold fits. apply _. Defined.

(** A reply that does not fit a packet cannot be framed. *)
Lemma frame_unfit r : ~ fits r -> frame r = Err ErrPacketTooLarge.
Proof.
  unfold fits. intros Hr. unfold frame, Send, WritePacket.
  change (Encoder_Bytes (EncodePayload r NewEncoder)) with (payload_of r).
  by rewrite Z.gtb_ltb, (proj2 (Z.ltb_lt _ _)) by lia.
Qed.

(** The replies before the first that cannot be framed. *)
Fixpoint sendable (replies : list Reply) : list Reply :=
  match replies with
  | [] => []
  | r :: replies => if decide (fits r) then r :: sendable replies else []
  end.

Lemma sendable_all replies : Forall fits replies -> sendable replies = replies.
Proof. induction 1 as [|r replies Hr _ IH]; [done|]. simpl. by rewrite decide_True, IH. Qed.

Lemma sendable_prefix replies : sendable replies `prefix_of` replies.
Proof.
  induction replies as [|r replies IH]; [done|]. simpl. case_decide; [by apply prefix_cons|].
  apply prefix_nil.
Qed.

(** * The specification of the request loop

    What a client can expect of a session: its requests handled one after the
    other, each on the table the previous one left. *)

Section serve.
Context {UT : UnicodeTables} (srv : Server).

Fixpoint serve_all (t : handles) (reqs : list (Z * bytes)) : prog (handles * list Reply) :=
  match reqs with
  | [] => mret (t, [])
  | (typ, payload) :: reqs =>
      x ← handle_request srv t typ payload;
      let '(t, reply) := x in
      y ← serve_all t reqs;
      let '(t, replies) := y in
      mret (t, reply :: replies)
  end.

(** A packet the server accepts. *)
Definition packet_ok (q : Z * bytes) : Prop :=
  u8 (fst q) /\ u32 (1 + len (snd q)) /\ 1 + len (snd q) <= packetLimit srv.

Definition stream_of (reqs : list (Z * bytes)) : bytes :=
  concat (map (fun q => frame_bytes (fst q) (snd q)) reqs).

Definition frame_reply (r : Reply) : bytes := frame_bytes (msg_Type r) (payload_of r).

(** The bytes of a packet the stream is cut in. *)
Definition cut_packet (pre : bytes) : Prop :=
  exists q post, packet_ok q /\ frame_bytes (fst q) (snd q) = pre ++ post /\ post <> [].

Context {S : Type} `{!Driver S}.

(** Over a driver whose names, link targets and reads have the sizes of [sized],
    every reply fits. *)
Lemma sized_replies_fit `{!Conforms S sized} reqs t s :
  table_sized t -> Forall fits (snd (snd (exec (serve_all t reqs) s))).
Proof.
  revert t s. induction reqs as [|[typ payload] reqs IH]; intros t s Ht; [by constructor|].
  cbn [serve_all]. rewrite exec_bind.
  destruct (wp_adequate sized _ _ _ s (handle_request_size srv t typ payload Ht)) as [_ [Hf Ht']].
  destruct (exec (handle_request srv t typ payload) s) as [s1 [t1 r1]]. cbn [fst snd] in *.
  rewrite exec_bind. specialize (IH t1 s1 Ht').
  destruct (exec (serve_all t1 reqs) s1) as [s2 [t2 rs]]. by constructor.
Qed.

Lemma packet_frame q rest e cap :
  packet_ok q ->
  rp_out (ReadPacket {| avail := frame_bytes (fst q) (snd q) ++ rest; fin := e |} cap
            (packetLimit srv)) = Ok q /\
  rp_stream (ReadPacket {| avail := frame_bytes (fst q) (snd q) ++ rest; fin := e |} cap
            (packetLimit srv)) = {| avail := rest; fin := e |}.
Proof.
  destruct q as [typ p]. intros (? & ? & ?). apply ReadPacket_frame; [done..|].
  by rewrite eff_max_packetLimit.
Qed.

(** How the loop ends on what is left of a stream. *)
Lemma loop_end fuel pre cap t s :
  cut_packet pre -> (0 < fuel)%nat ->
  exec (loop srv fuel {| avail := pre; fin := EOF |} cap t) s =
  (s, (t, [], if decide (pre = []) then None else Some (SErrPacket ErrUnexpectedEOF))).
Proof.
  intros (q & post & (Ht & Hu & Hl) & Hq & Hp) Hf. destruct fuel as [|fuel]; [lia|].
  cbn [loop avail fin]. destruct pre as [|b pre]; [done|].
  destruct q as [typ p]; cbn [fst snd] in *.
  rewrite (ReadPacket_cut typ p (b :: pre) post); [done..| |done|done].
  by rewrite eff_max_packetLimit.
Qed.

Lemma frame_bytes_long typ p : 5 <= len (frame_bytes typ p).
Proof.
  unfold frame_bytes. rewrite !len_app, len_be32, len_cons, len_nil.
  pose proof (len_nonneg p). lia.
Qed.

Lemma stream_of_long reqs : len reqs <= len (stream_of reqs).
Proof.
  induction reqs as [|q reqs IH]; [done|]. unfold stream_of in *; cbn [map concat].
  rewrite len_cons, len_app. pose proof (frame_bytes_long (fst q) (snd q)). lia.
Qed.

(** What the loop ends with: the end of the input, unless a reply could not be
    framed. *)
Definition loop_error (pre : bytes) (replies : list Reply) : option session_error :=
  if decide (Forall fits replies)
  then if decide (pre = []) then None else Some (SErrPacket ErrUnexpectedEOF)
  else Some (SErrPacket ErrPacketTooLarge).

(** The loop refines [serve_all], up to the first reply that cannot be framed. *)
Lemma loop_serves reqs pre fuel cap t s :
  Forall packet_ok reqs -> cut_packet pre -> (length reqs < fuel)%nat ->
  let replies := snd (snd (exec (serve_all t reqs) s)) in
  exists s' t',
    exec (loop srv fuel {| avail := stream_of reqs ++ pre; fin := EOF |} cap t) s =
    (s', (t', map frame_reply (sendable replies), loop_error pre replies)).
Proof.
  intros Hr Hpre. revert fuel cap t s. induction Hr as [|q reqs Hq _ IH]; intros fuel cap t s Hf.
  { exists s, t. apply loop_end; [done|simpl in *; lia]. }
  destruct fuel as [|fuel]; [simpl in Hf; lia|].
  unfold stream_of; cbn [map concat]. fold (stream_of reqs). rewrite <- app_assoc.
  destruct (packet_frame q (stream_of reqs ++ pre) EOF cap Hq) as [Ho Hs].
  cbn [loop]. cbn [avail].
  destruct (frame_bytes (fst q) (snd q) ++ stream_of reqs ++ pre) as [|b rest] eqn:Ea.
  { apply (f_equal len) in Ea. rewrite len_app in Ea.
    pose proof (frame_bytes_long (fst q) (snd q)). pose proof (len_nonneg (stream_of reqs ++ pre)).
    rewrite len_nil in Ea. lia. }
  rewrite Ho, Hs. destruct q as [typ payload]. cbn [serve_all]. rewrite !exec_bind.
  destruct (exec (handle_request srv t typ payload) s) as [s1 [t1 r1]]. rewrite !exec_bind.
  specialize (IH fuel (rp_cap (ReadPacket {| avail := b :: rest; fin := EOF |} cap (packetLimit srv)))
    t1 s1 ltac:(simpl in Hf; lia)). cbv zeta in IH.
  destruct (exec (serve_all t1 reqs) s1) as [s2 [t2 rs]]. cbn [fst snd exec mret prog_mret] in *.
  unfold loop_error in *. cbn [sendable]. destruct (decide (fits r1)) as [Hfit|Hfit].
  - destruct IH as (s' & t' & E). exists s', t'. rewrite frame_fits by done. rewrite exec_bind, E. cbn.
    rewrite (decide_ext (Forall fits (r1 :: rs)) (Forall fits rs)); [done|].
    rewrite Forall_cons. tauto.
  - exists s1, t1. rewrite frame_unfit by done. rewrite decide_False; [done|]. by intros [? _]%Forall_cons.
Qed.

(** More fuel than bytes changes nothing: the loop's fuel is never what ends it. *)
Lemma loop_fuel_irrelevant f1 f2 r cap t s :
  (length (avail r) <= f1)%nat -> (length (avail r) <= f2)%nat ->
  exec (loop srv f1 r cap t) s = exec (loop srv f2 r cap t) s.
Proof.
  revert f2 r cap t s. induction f1 as [|f1 IH]; intros f2 r cap t s H1 H2.
  { destruct f2, (avail r) eqn:E; cbn [loop]; rewrite ?E; try done; simpl in H1; lia. }
  destruct f2 as [|f2].
  { cbn [loop]. destruct (avail r) eqn:E; [done|simpl in H2; lia]. }
  cbn [loop]. destruct (avail r) as [|b a] eqn:Ea; [done|].
  destruct (rp_out (ReadPacket r cap (packetLimit srv))) as [[typ p]|e|] eqn:E; [|done..].
  pose proof (ReadPacket_consumes _ _ _ _ _ E) as Hc. rewrite Ea in Hc.
  pose proof (len_nonneg p). unfold len in Hc.
  rewrite !exec_bind. destruct (exec (handle_request srv t typ p) s) as [s1 [t1 r1]].
  destruct (frame r1); [|done..]. rewrite !exec_bind.
  by rewrite (IH f2) by (simpl in *; lia).
Qed.

Lemma serve_all_ids reqs t s :
  table_wf t -> table_ro srv t ->
  map reply_id (snd (snd (exec (serve_all t reqs) s))) = map (fun q => requestID (snd q)) reqs.
Proof.
  revert t s. induction reqs as [|[typ p] reqs IH]; intros t s Ht Hr; [done|].
  cbn [serve_all]. rewrite exec_bind.
  destruct (exec_request srv t typ p s Ht Hr) as (_ & Hid & Ht' & Hr').
  destruct (exec (handle_request srv t typ p) s) as [s1 [t1 r1]]. cbn [fst snd] in *.
  rewrite exec_bind. specialize (IH t1 s1 Ht' Hr').
  destruct (exec (serve_all t1 reqs) s1) as [s2 [t2 rs]]. simpl in *. by rewrite Hid, IH.
Qed.
End serve.

(** * The end of a session *)

Section close.
Context {S : Type} `{!Driver S}.

(** The closes [closeAll] makes, in its order. *)
Definition close_calls (order : list (bytes * openFile)) : list call :=
  map File_Close (omap (fun e => of_file (snd e)) order).

Lemma closeAll_trace order t first s : trace (closeAll order t first) s = close_calls order.
Proof.
  revert t first s. induction order as [|[tok h] order IH]; intros t first s; [done|].
  cbn [closeAll]. unfold close_calls in *; cbn [omap list_omap snd].
  destruct (of_file h) as [f|]; cbn [trace prog_bind mbind prog_mbind do_ mret prog_mret map].
  - destruct (handle (File_Close f) s). by rewrite IH.
  - apply IH.
Qed.

Lemma closeAll_table order t first s :
  fst (snd (exec (closeAll order t first) s)) = foldr delete t (map fst (reverse order)).
Proof.
  revert t first s. induction order as [|[tok h] order IH]; intros t first s; [done|].
  cbn [closeAll]. rewrite exec_bind.
  destruct (exec _ s) as [s1 first1]. rewrite IH.
  rewrite reverse_cons, fmap_app. simpl. by rewrite foldr_app.
Qed.

Lemma foldr_delete_all {V} (t : gmap bytes V) ks :
  (forall k, is_Some (t !! k) -> k ∈ ks) -> foldr delete t ks = ∅.
Proof.
  intros H. apply map_eq. intros k. rewrite lookup_empty.
  destruct (decide (k ∈ ks)) as [Hk|Hk].
  - clear H. induction ks as [|k' ks IH]; [by apply elem_of_nil in Hk|]. simpl.
    destruct (decide (k = k')) as [->|Hn]; [apply lookup_delete_eq|].
    rewrite lookup_delete_ne by done. apply IH. by apply elem_of_cons in Hk as [?|?].
  - destruct (foldr delete t ks !! k) eqn:E; [|done]. destruct Hk. apply H.
    clear H. induction ks as [|k' ks IH]; [by eexists|]. simpl in E.
    apply lookup_delete_Some in E as [_ E]. auto.
Qed.

Lemma closeAll_empties order t first s :
  order ≡ₚ map_to_list t -> fst (snd (exec (closeAll order t first) s)) = ∅.
Proof.
  intros Ho. rewrite closeAll_table. apply foldr_delete_all. intros k [h Hk].
  apply list_elem_of_fmap. exists (k, h). split; [done|].
  rewrite reverse_Permutation, Ho. by apply elem_of_map_to_list.
Qed.

(** Ending a session releases everything it holds, once: whatever the order
    in which Go ranges over the table and whatever the driver answers, the calls
    [closeAll] makes are one [Close] per handle that holds an open file (a
    failing close does not stop the rest), and the table it leaves is empty. *)
Theorem closeAll_releases_everything order t s :
  order ≡ₚ map_to_list t ->
  trace (closeAll order t None) s ≡ₚ close_calls (map_to_list t) /\
  fst (snd (exec (closeAll order t None) s)) = ∅.
Proof.
  intros Ho. split; [|by apply closeAll_empties].
  rewrite closeAll_trace. unfold close_calls. by rewrite Ho.
Qed.
End close.

Lemma closeAll_releases_everything_witness :
  let t := fst (after_open false) in
  trace (closeAll (map_to_list t) t None) (snd (after_open false)) ≡ₚ
    [File_Close {| f_id := 1; f_writable := true |}] /\
  fst (snd (exec (closeAll (map_to_list t) t None) (snd (after_open false)))) = ∅.
Proof.
  intros t.
  destruct (closeAll_releases_everything (map_to_list t) t (snd (after_open false))) as [H1 H2].
  { reflexivity. }
  split; [|exact H2]. etransitivity; [exact H1|]. vm_compute. reflexivity.
Defined.

(** * Negotiation *)

Definition init_packet (m : InitRequest) : Z * bytes := (FxpInit, payload_of m).

Definition version_reply (srv : Server) : VersionReply :=
  {| vr_Version := Version; vr_Extensions := extensions srv |}.

Definition version_packet (srv : Server) : bytes :=
  frame_bytes FxpVersion (payload_of (version_reply srv)).

Lemma version_size srv : 1 + len (payload_of (version_reply srv)) <= MaxPacket.
Proof. unfold version_reply, extensions. destruct (copiesData srv); by vm_compute. Qed.

Section negotiate.
Context (srv : Server).

Lemma negotiate_init {W} (Write : bytes -> W -> W * option pkt_error) m rest e w :
  init_wf m -> packet_ok srv (init_packet m) ->
  negotiate srv Write {| avail := frame_bytes FxpInit (payload_of m) ++ rest; fin := e |} w =
  if init_Version m <? Version
  then ({| avail := rest; fin := e |}, w, Some ErrVersion)
  else let '(w, err) := Write (version_packet srv) w in
       ({| avail := rest; fin := e |}, w, SErrPacket <$> err).
Proof.
  intros Hm Hp. destruct (packet_frame srv (init_packet m) rest e 0 Hp) as [Ho Hs].
  cbn [init_packet fst snd] in Ho, Hs. unfold negotiate. rewrite Ho, Hs. cbv zeta.
  unfold init_packet. change (negb (FxpInit =? FxpInit)) with false. cbn iota.
  assert (DecodeInit (payload_of m) = Ok m) as -> by exact (decode_encode (M:=InitRequest) m Hm).
  destruct (init_Version m <? Version); [done|]. unfold Send.
  change (Encoder_Bytes (EncodePayload {| vr_Version := Version; vr_Extensions := extensions srv |}
            NewEncoder)) with (payload_of (version_reply srv)).
  rewrite WritePacket_eq by apply version_size.
  fold (version_packet srv). change (msg_Type _) with FxpVersion. fold (version_packet srv).
  destruct (Write (version_packet srv) w). done.
Qed.

(** The extension names a VERSION reply announces. *)
Definition announced : list bytes := map ep_Type (extensions srv).

(** Negotiation: a client that opens with INIT of version 3 or later (with
    any extensions) is answered with VERSION 3 in one write; one that offers an
    older version ends the session with [ErrVersion] and nothing written; a first
    packet that is not INIT ends it with [ErrNoInit] and nothing written. *)
Theorem negotiate_version {W} (Write : bytes -> W -> W * option pkt_error) rest e w :
  (forall m, init_wf m -> packet_ok srv (init_packet m) ->
     let r := {| avail := frame_bytes FxpInit (payload_of m) ++ rest; fin := e |} in
     (Version <= init_Version m ->
        negotiate srv Write r w =
        let '(w, err) := Write (version_packet srv) w in
        ({| avail := rest; fin := e |}, w, SErrPacket <$> err)) /\
     (init_Version m < Version ->
        negotiate srv Write r w = ({| avail := rest; fin := e |}, w, Some ErrVersion))) /\
  (forall q, packet_ok srv q -> fst q <> FxpInit ->
     negotiate srv Write {| avail := frame_bytes (fst q) (snd q) ++ rest; fin := e |} w =
     ({| avail := rest; fin := e |}, w, Some ErrNoInit)) /\
  DecodeVersion (payload_of (version_reply srv)) = Ok (version_reply srv).
Proof.
  split_and!.
  - intros m Hm Hp r. subst r. rewrite negotiate_init by done.
    split; intros Hv; [by rewrite (proj2 (Z.ltb_ge _ _))|by rewrite (proj2 (Z.ltb_lt _ _))].
  - intros [typ p] Hq Hn. destruct (packet_frame srv (typ, p) rest e 0 Hq) as [Ho Hs].
    unfold negotiate. rewrite Ho, Hs. cbn [fst snd] in *. cbv zeta.
    by rewrite (proj2 (Z.eqb_neq _ _) Hn).
  - refine (decode_encode (M:=VersionReply) (version_reply srv) _).
    unfold version_reply, extensions. destruct (copiesData srv); split_and!; try done.
    all: repeat (apply Forall_cons; split; [by split|]); by apply Forall_nil.
Qed.

(** The extensions announced in VERSION are the ones answered: a request
    for [limits@openssh.com] gets the limits, and a request for an extension
    that was not announced is refused with a status, without touching the driver
    or the handle table ([SSH_FX_OP_UNSUPPORTED], or [SSH_FX_BAD_MESSAGE] for a
    malformed copy-data body). *)
Theorem extensions_announced_are_answered {UT : UnicodeTables} t m :
  er_wf m ->
  (er_Name m = limitsExtension ->
     handle_request srv t FxpExtended (payload_of m) =
       mret (t, RExtended (limitsReply srv (er_ID m))) /\
     er_Name m ∈ announced) /\
  ((er_Name m ∉ announced) ->
     exists code msg,
       handle_request srv t FxpExtended (payload_of m) = mret (t, status (er_ID m) code msg) /\
       (code = StatusOpUnsupported \/
        code = StatusBadMessage /\ er_Name m = copyDataExtension)).
Proof.
  intros Hm. change (handle_request srv t FxpExtended (payload_of m)) with
    (decoded (DecodeExtended (payload_of m))
       (fun e => mret (t, badMessage (requestID (payload_of m)) e))
       (mret (t, status (requestID (payload_of m)) StatusBadMessage []))
       (fun m => if decide (er_Name m = limitsExtension) then
                   mret (t, RExtended (limitsReply srv (er_ID m)))
                 else if decide (er_Name m = copyDataExtension) then
                   keep t (copyData srv t (er_ID m) (er_Data m))
                 else mret (t, status (er_ID m) StatusOpUnsupported
                      (str "unsupported extension: " ++ er_Name m)))).
  assert (DecodeExtended (payload_of m) = Ok m) as ->
    by exact (decode_encode (M:=ExtendedRequest) m Hm). cbn [decoded].
  unfold announced, extensions. split.
  - intros E. rewrite decide_True by done. split; [done|].
    destruct (copiesData srv); rewrite E; apply list_elem_of_here.
  - intros Hn. rewrite decide_False.
    2: { intros E. apply Hn. destruct (copiesData srv); rewrite E; apply list_elem_of_here. }
    case_decide as E; [|by do 2 eexists; split; [|left]].
    destruct (copiesData srv) eqn:Ec.
    { destruct Hn. rewrite E. apply list_elem_of_further, list_elem_of_here. }
    unfold keep, copyData. rewrite Ec.
    destruct (decode_copy (er_Data m)); do 2 eexists; (split; [done|]); auto.
Qed.
End negotiate.

Lemma negotiate_version_witness :
  negotiate (demo_server true true) (fun p (w : list bytes) => (w ++ [p], None))
    {| avail := frame_bytes FxpInit (payload_of {| init_Version := 2; init_Extensions := [] |});
       fin := EOF |} [] = ({| avail := []; fin := EOF |}, [], Some ErrVersion).
Proof.
  destruct (negotiate_version (demo_server true true)
    (fun p (w : list bytes) => (w ++ [p], None)) [] EOF []) as [H _].
  destruct (H {| init_Version := 2; init_Extensions := [] |}) as [_ H'].
  - split_and!; done.
  - split_and!; done.
  - rewrite app_nil_r in H'. apply H'. done.
Defined.

Lemma extensions_announced_are_answered_witness :
  (exists code msg,
     handle_request (UT:=ascii_tables) (demo_server true true) ∅ FxpExtended
       (payload_of {| er_ID := 3; er_Name := str "hardlink@openssh.com"; er_Data := [] |}) =
     mret (∅, status 3 code msg) /\ code = StatusOpUnsupported).
Proof.
  destruct (extensions_announced_are_answered (UT:=ascii_tables) (demo_server true true) ∅
    {| er_ID := 3; er_Name := str "hardlink@openssh.com"; er_Data := [] |}) as [_ H].
  { split; [split|]; done. }
  destruct H as (code & msg & H & [Hc|[_ Hc]]).
  - vm_compute. intros H. inversion H; subst. inversion H2.
  - exists code, msg. split; assumption.
  - discriminate Hc.
Defined.

(** * Serve *)

Section conversation.
Context {UT : UnicodeTables} (srv : Server) {S : Type} `{!Driver S}.

(** C2. A conversation, end to end, of a session that has one request in progress at a
    time (a client that waits for each reply, or a server with one slot). Over any
    driver, a client that opens with INIT (version 3 or later) and sends any
    sequence of packets within the limit, well-formed or not, gets VERSION, then
    replies to its packets, one each, in the order sent, each carrying its
    request's id. If every reply fits a packet, every packet is answered, and the
    session then ends without error at a packet boundary and with an unexpected
    end of input inside a packet; the first reply too large to frame (a link
    target of 260 KiB, say) ends the session with that error instead, the earlier
    replies having been sent. No handle is left behind in either case. *)
Theorem Serve_answers_every_packet NewConn m reqs pre order s :
  NewConn (serveSlots srv) = None ->
  init_wf m -> Version <= init_Version m -> packet_ok srv (init_packet m) ->
  Forall (packet_ok srv) reqs -> cut_packet srv pre ->
  (forall t, order t ≡ₚ map_to_list t) ->
  let stream := frame_bytes FxpInit (payload_of m) ++ stream_of reqs ++ pre in
  let replies := snd (snd (exec (serve_all srv newHandles reqs) s)) in
  snd (exec (Serve srv NewConn {| avail := stream; fin := EOF |} order) s) =
    (∅, version_packet srv :: map frame_reply (sendable replies),
     if decide (Forall fits replies)
     then if decide (pre = []) then None else Some (SErrPacket ErrUnexpectedEOF)
     else Some (SErrPacket ErrPacketTooLarge)) /\
  (sendable replies `prefix_of` replies) /\ (Forall fits replies -> sendable replies = replies) /\
  map reply_id replies = map (fun q => requestID (snd q)) reqs.
Proof.
  intros Hn Hm Hv Hp Hr Hc Ho stream replies. split_and!; [|apply sendable_prefix|apply sendable_all|].
  2: { apply serve_all_ids; [apply newHandles_wf|apply newHandles_ro]. }
  subst stream. unfold Serve. rewrite Hn, negotiate_init by done.
  rewrite (proj2 (Z.ltb_ge _ _)) by done. cbn [fmap option_fmap option_map app].
  rewrite exec_bind, (loop_fuel_irrelevant srv _ (Datatypes.S (length (stream_of reqs ++ pre))))
    by (cbn [avail]; lia).
  destruct (loop_serves srv reqs pre (Datatypes.S (length (stream_of reqs ++ pre))) 0 newHandles s Hr Hc)
    as (s1 & t1 & E).
  { pose proof (stream_of_long reqs). unfold len in *. rewrite length_app. lia. }
  rewrite E, exec_bind. fold replies.
  pose proof (closeAll_empties (order t1) t1 None s1 (Ho t1)) as He.
  destruct (exec (closeAll (order t1) t1 None) s1) as [s2 [t2 e2]]. simpl in *. subst. done.
Qed.
End conversation.

(** ** The contracts can be met *)

#[export] Instance MemDriver_sized : Conforms Mem sized.
Proof.
  intros c s. destruct c; simpl; try done.
  - apply Forall_forall. intros name Hn. apply list_elem_of_filter in Hn as [Hn%Z.leb_le _].
    unfold maxEntryName. lia.
  - destruct (mem_file s f) as [[p d]|]; simpl; [|done]. intros Hn.
    unfold len. rewrite length_take. lia.
Qed.

Definition demo_reqs : list (Z * bytes) := [(FxpOpen, open_a); (200, be32 5 ++ str "??")].

Lemma Serve_answers_every_packet_witness :
  exists v r1 r2,
    snd (exec (Serve (UT:=ascii_tables) (demo_server true true) (fun _ => None)
      {| avail := frame_bytes FxpInit (payload_of {| init_Version := 3; init_Extensions := [] |}) ++
                  stream_of demo_reqs ++ [x00; x00]; fin := EOF |} map_to_list) demo_mem) =
    (∅, [v; r1; r2], Some (SErrPacket ErrUnexpectedEOF)).
Proof.
  destruct (Serve_answers_every_packet (UT:=ascii_tables) (demo_server true true) (fun _ => None)
    {| init_Version := 3; init_Extensions := [] |} demo_reqs [x00; x00] map_to_list demo_mem)
    as [H _].
  - done.
  - split_and!; done.
  - done.
  - split_and!; done.
  - repeat (apply Forall_cons; split; [split_and!; done|]). by apply Forall_nil.
  - exists (FxpStat, []), [x00; x01; x11]. split_and!; done.
  - done.
  - rewrite H. do 3 eexists. vm_compute. reflexivity.
Defined.
