(* ===== verification/DataLaws.v ===== *)
(** READ and WRITE: what they do to the bytes of a file
    ([readJob], [readAt], [readWhole], [writeJob], [writeSplice] of
    [src/ops.go], [satAdd] of [src/concurrent.go]). *)

From S2P Require Import Prelude Codec Const Attrs Messages WireLaws Packet Errors Path Driver.
From S2P Require Import Server Handle Attr Ops CopyData Session OpsLaws MemDriver SessionLaws.

(** * Specifications *)

(** [pread]: at most [n] bytes from [off]. *)
Definition pread (data : bytes) (off n : Z) : bytes :=
  take (Z.to_nat n) (drop (Z.to_nat off) data).

(** [pwrite]: byte [i] of the file after writing [data] at [off], for every [i]
    below the new length; the gap before [off] is zeros. *)
Definition pwrite_byte (old : bytes) (off : Z) (data : bytes) (i : nat) : option byte :=
  let o := Z.to_nat off in
  if decide (o <= i < o + length data)%nat then data !! (i - o)%nat
  else if decide (i < length old)%nat then old !! i
  else if decide (i < o)%nat then Some x00
  else None.

(** What rewriting a whole file may hold: no more than 8 MiB of growth and 1 GiB
    in all; writing inside the file is always allowed. *)
Definition splice_allowed (old : bytes) (off : Z) (data : bytes) : Prop :=
  let end_ := off + len data in
  end_ <= len old \/ (end_ - len old <= 8 * 2 ^ 20 /\ end_ <= 2 ^ 30).

#[export] Instance splice_allowed_dec old off data : Decision (splice_allowed old off data).
Proof. unfold splice_allowed. apply _. Defined.

(** The buffer [writeSplice] writes back. *)
Definition spliced (old : bytes) (off : Z) (data : bytes) : bytes :=
  copy_at (if off + len data >? len old then grow old (off + len data) else old) off data.

(** * Lemmas *)

Lemma satAdd_min a b : u64 a -> u64 b -> satAdd a b = Z.min (a + b) MaxUint64.
Proof.
  unfold u64, satAdd, MaxUint64. intros Ha Hb. case_if; [lia|].
  rewrite uint64_id by (unfold u64; lia). lia.
Qed.

Lemma grow_length old e : len old <= e -> length (grow old e) = Z.to_nat e.
Proof. unfold grow, len. intros. rewrite length_app, length_replicate. lia. Qed.

Lemma copy_at_lookup buf off data i :
  0 <= off -> off + len data <= len buf ->
  copy_at buf off data !! i =
  if decide (Z.to_nat off <= i < Z.to_nat off + length data)%nat
  then data !! (i - Z.to_nat off)%nat else buf !! i.
Proof.
  intros Ho Hl. unfold copy_at, len in *.
  rewrite (take_ge data) by lia.
  case_decide as Hd.
  - rewrite lookup_app_r by (rewrite length_take; lia). rewrite length_take, Nat.min_l by lia.
    by rewrite lookup_app_l by lia.
  - destruct (decide (i < Z.to_nat off)%nat).
    + rewrite lookup_app_l by (rewrite length_take; lia). by rewrite lookup_take_lt by lia.
    + rewrite lookup_app_r by (rewrite length_take; lia). rewrite length_take, Nat.min_l by lia.
      rewrite lookup_app_r by lia. rewrite lookup_drop. f_equal. lia.
Qed.

Lemma grow_lookup old e i :
  len old <= e ->
  grow old e !! i =
  if decide (i < length old)%nat then old !! i
  else if decide (i < Z.to_nat e)%nat then Some x00 else None.
Proof.
  unfold grow, len. intros He. case_decide.
  - by rewrite lookup_app_l.
  - rewrite lookup_app_r by lia. case_decide.
    + apply lookup_replicate_2. lia.
    + apply lookup_ge_None_2. rewrite length_replicate. lia.
Qed.

Lemma spliced_lookup old off data i :
  0 <= off -> spliced old off data !! i = pwrite_byte old off data i.
Proof.
  intros Ho. unfold spliced, pwrite_byte.
  destruct (off + len data >? len old) eqn:E; bool_prop.
  - rewrite copy_at_lookup; [|done|unfold len at 2; rewrite grow_length by lia;
      pose proof (len_nonneg data); lia].
    case_decide as Hd; [done|]. rewrite grow_lookup by lia.
    repeat case_decide; try done; unfold len in *; lia.
  - rewrite copy_at_lookup by done. case_decide as Hd; [done|].
    repeat case_decide; try done; [unfold len in *; lia|].
    apply lookup_ge_None_2. lia.
Qed.

(** Reading back what was written. *)
Lemma pread_spliced old off data :
  0 <= off -> pread (spliced old off data) off (len data) = data.
Proof.
  intros Ho. unfold pread. apply list_eq. intros i. unfold len. rewrite Nat2Z.id.
  destruct (decide (i < length data)%nat) as [Hi|Hi].
  - rewrite lookup_take_lt, lookup_drop, spliced_lookup by lia. unfold pwrite_byte.
    rewrite decide_True by lia. f_equal. lia.
  - rewrite lookup_take_ge by lia. symmetry. apply lookup_ge_None_2. lia.
Qed.

Lemma len_spliced old off data :
  0 <= off -> len (spliced old off data) = Z.max (len old) (off + len data).
Proof.
  intros Ho. pose proof (len_nonneg data). unfold spliced.
  assert (forall buf, off + len data <= len buf -> len (copy_at buf off data) = len buf) as Hc.
  { intros buf Hb. unfold copy_at, len in *. rewrite !length_app, !length_take, length_drop. lia. }
  destruct (off + len data >? len old) eqn:E; bool_prop; [|rewrite Hc; lia].
  assert (len (grow old (off + len data)) = off + len data) as Hg.
  { unfold len at 1. rewrite grow_length; lia. }
  rewrite Hc; lia.
Qed.

(** The guard of [writeSplice], in the arithmetic of 64 bits, is the condition on the
    true end of the write: an end that wraps is refused too. *)
Lemma splice_guard old off data :
  u64 off -> len data <= MaxInt64 -> len old <= MaxInt64 ->
  (uint64 (off + len data) <? off) ||
  ((uint64 (off + len data) >? len old) &&
   ((uint64 (uint64 (off + len data) - len old) >? maxSpliceGrowth) ||
    (uint64 (off + len data) >? maxFileSplice))) =
  negb (bool_decide (splice_allowed old off data)).
Proof.
  unfold u64, MaxInt64. intros Ho Hd Hl. pose proof (len_nonneg data). pose proof (len_nonneg old).
  change maxSpliceGrowth with 8388608. change maxFileSplice with 1073741824. unfold splice_allowed.
  destruct (decide (off + len data < 2 ^ 64)) as [Hw|Hw].
  - rewrite (uint64_id (off + len data)) by (unfold u64; lia).
    rewrite (proj2 (Z.ltb_ge _ _)) by lia. cbn [orb]. case_bool_decide as Ha; cbn [negb].
    + destruct (_ >? len old) eqn:E; bool_prop; [|done]. rewrite uint64_id by (unfold u64; lia).
      rewrite !Z.gtb_ltb. apply orb_false_iff. split; apply Z.ltb_ge; lia.
    + rewrite !Z.gtb_ltb. rewrite (proj2 (Z.ltb_lt _ _)) by lia. cbn [andb].
      rewrite uint64_id by (unfold u64; lia). apply orb_true_iff. rewrite !Z.ltb_lt. lia.
  - assert (uint64 (off + len data) = off + len data - 2 ^ 64) as ->.
    { unfold uint64. symmetry. apply (Z.mod_unique_pos _ _ 1); lia. }
    rewrite (proj2 (Z.ltb_lt _ _)) by lia. rewrite bool_decide_eq_false_2 by lia. done.
Qed.

(** A write that is allowed ends where its offset and length say. *)
Lemma splice_end old off data :
  u64 off -> len old <= MaxInt64 -> splice_allowed old off data ->
  uint64 (off + len data) = off + len data.
Proof.
  unfold u64, MaxInt64, splice_allowed. intros Ho Hl Ha. pose proof (len_nonneg data).
  apply uint64_id. unfold u64. lia.
Qed.

(** The reply of a driver call that reports only an error. *)
Definition done_reply {UT : UnicodeTables} (id : Z) (e : option error) : Reply :=
  match e with
  | Some err => fail_with id (Some err) StatusFailure
  | None => status id StatusOK []
  end.

Definition splice_refused (id : Z) : Reply :=
  status id StatusFailure (str "write beyond what rewriting the whole file can hold").

Section splice.
Context {UT : UnicodeTables} {S : Type} `{!Driver S}.

Lemma writeSplice_run id path off data s s1 old :
  u64 off -> len data <= MaxInt64 -> len old <= MaxInt64 ->
  handle (ReadFile path) s = (s1, (old, None)) ->
  if decide (splice_allowed old off data) then
    trace (writeSplice id path off data) s =
      [ReadFile path; WriteFile path (spliced old off data) 0x1A4] /\
    exec (writeSplice id path off data) s =
      let '(s2, e) := handle (WriteFile path (spliced old off data) 0x1A4) s1 in
      (s2, done_reply id e)
  else
    trace (writeSplice id path off data) s = [ReadFile path] /\
    exec (writeSplice id path off data) s = (s1, splice_refused id).
Proof.
  intros Ho Hd Hl Hr. pose proof (splice_guard old off data Ho Hd Hl) as Hg.
  unfold writeSplice. cbn [mbind prog_mbind prog_bind do_ trace exec]. rewrite Hr.
  cbn [mret prog_mret]. rewrite Hg. case_decide as Ha; [rewrite (splice_end old) by done|].
  - rewrite bool_decide_eq_true_2 by done. cbn [negb].
    unfold spliced, answer_status. cbn [mbind prog_mbind prog_bind do_ trace exec].
    destruct (handle (WriteFile _ _ _) s1) as [s2 [e|]]; done.
  - rewrite bool_decide_eq_false_2 by done. done.
Qed.

(** C32. A WRITE on a driver without positional writes is a [pwrite]: it reads
    the whole file and, when the result is one the server agrees to hold, writes
    back a file that has the client's bytes at the offset, the old bytes
    elsewhere and zeros in the gap, and answers with the driver's verdict.
    Otherwise (more than 8 MiB of growth, or past 1 GiB) it writes nothing and
    answers a failure. This holds for every 64-bit offset and every slice of data,
    the offsets whose sum with the length wraps included. *)
Theorem writeSplice_is_pwrite id path off data s s1 old :
  u64 off -> len data <= MaxInt64 -> len old <= MaxInt64 ->
  handle (ReadFile path) s = (s1, (old, None)) ->
  if decide (splice_allowed old off data) then
    exists new,
      (forall i, new !! i = pwrite_byte old off data i) /\
      len new = Z.max (len old) (off + len data) /\
      trace (writeSplice id path off data) s = [ReadFile path; WriteFile path new 0x1A4] /\
      snd (exec (writeSplice id path off data) s) =
        done_reply id (snd (handle (WriteFile path new 0x1A4) s1))
  else
    trace (writeSplice id path off data) s = [ReadFile path] /\
    snd (exec (writeSplice id path off data) s) = splice_refused id.
Proof.
  intros Ho Hd Hl Hr. pose proof (writeSplice_run id path off data s s1 old Ho Hd Hl Hr) as H.
  case_decide as Ha; destruct H as [Ht He]; rewrite Ht, He; [|done].
  unfold u64 in Ho. exists (spliced old off data). split_and!; [|apply len_spliced; lia|done|].
  - intros i. apply spliced_lookup. lia.
  - by destruct (handle (WriteFile path (spliced old off data) 0x1A4) s1).
Qed.
End splice.

Lemma writeSplice_is_pwrite_witness :
  exists new,
    trace (writeSplice (UT:=ascii_tables) 1 (str "/a") 7 (str "!")) demo_mem =
      [ReadFile (str "/a"); WriteFile (str "/a") new 0x1A4] /\
    new !! 6%nat = Some x00 /\ new !! 7%nat = Some x21 /\ new !! 0%nat = Some x68.
Proof.
  pose proof (writeSplice_is_pwrite (UT:=ascii_tables) 1 (str "/a") 7 (str "!") demo_mem demo_mem
    (str "hello")) as H.
  destruct H as (new & Hi & _ & Ht & _); try (vm_compute; intuition congruence).
  exists new. split; [exact Ht|]. rewrite !Hi. vm_compute. auto.
Defined.

(** * Reading back what was written *)

Definition is_lock (c : call) : bool :=
  match c with Lock | Unlock | LockPath | UnlockPath | LockIO | UnlockIO => true | _ => false end.

(** What the documentation of [filesystem.Filesystem] says of whole-file reads
    and writes: a driver holds file contents by path, [ReadFile] returns the
    contents and changes none, a [WriteFile] that reports success replaces the
    contents of that path only. Taking or releasing the lock changes none. *)
Class Store (S : Type) `{!Driver S} := {
  content : S -> bytes -> option bytes;
  store_lock : forall c s p, is_lock c = true -> content (fst (handle c s)) p = content s p;
  store_read : forall s p d, content s p = Some d -> snd (handle (ReadFile p) s) = (d, None);
  store_read_pure : forall s p q, content (fst (handle (ReadFile p) s)) q = content s q;
  store_write : forall s p d perm, snd (handle (WriteFile p d perm) s) = None ->
    forall q, content (fst (handle (WriteFile p d perm) s)) q =
              if decide (q = p) then Some d else content s q
}.

Section roundtrip.
Context {UT : UnicodeTables} (srv : Server) {S : Type} `{!Driver S} `{!Store S}.

(** The reply to a READ of [n] bytes at [off] of a file that holds [data]. *)
Definition read_reply (id : Z) (data : bytes) (off n : Z) : Reply :=
  if n =? 0 then RData {| dr_ID := id; dr_Data := [] |}
  else if off >=? len data then status id StatusEOF []
  else RData {| dr_ID := id; dr_Data := pread data off (Z.min n (readLength srv)) |}.

Lemma readWhole_run id path off n s data :
  0 <= off -> 0 < n -> u64 off -> u64 n -> len data <= MaxInt64 ->
  content s path = Some data ->
  snd (exec (readWhole id path off n) s) =
  if off >=? len data then status id StatusEOF []
  else RData {| dr_ID := id; dr_Data := pread data off n |}.
Proof.
  intros Ho Hn Huo Hun Hl Hc. unfold readWhole.
  cbn [mbind prog_mbind prog_bind do_ exec].
  pose proof (store_read s path data Hc) as Hr.
  destruct (handle (ReadFile path) s) as [s1 [d e]]. simpl in Hr. injection Hr as -> ->.
  destruct (off >=? len data) eqn:E; [done|]. bool_prop. simpl.
  rewrite satAdd_min by done. unfold pread, MaxInt64, MaxUint64 in *. do 2 f_equal.
  destruct (decide (off + n <= len data)) as [Hd|Hd].
  - f_equal. lia.
  - rewrite !take_ge; [done|..]; unfold len in *; rewrite length_drop; lia.
Qed.

Lemma read_whole_request t (r : ReadRequest) h s data :
  rr_wf r -> t !! rr_Handle r = Some h -> of_dir h = false -> of_file h = None ->
  content s (of_path h) = Some data -> len data <= MaxInt64 ->
  snd (exec (handle_request srv t FxpRead (payload_of r)) s) =
  (t, read_reply (rr_ID r) data (rr_Offset r) (rr_Length r)).
Proof.
  intros Hr Hh Hd Hf Hc Hl. change (handle_request srv t FxpRead (payload_of r)) with
    (match decoded (DecodeRead (payload_of r))
             (fun e => PEarly (badMessage (requestID (payload_of r)) e))
             (PEarly (status (requestID (payload_of r)) StatusBadMessage []))
             (fun m => of_job (readJob srv t m))
     with PJob j => keep t (run_job j) | PEarly r => mret (t, r)
     | PBarrier => dispatch srv t FxpRead (payload_of r) end).
  assert (DecodeRead (payload_of r) = Ok r) as ->
    by exact (decode_encode (M:=ReadRequest) r Hr). cbn [decoded].
  unfold readJob, handles_get, read_reply. rewrite Hh, Hd.
  destruct (rr_Length r =? 0) eqn:E; [done|]. bool_prop. cbn [of_job run_job]. rewrite Hf.
  unfold keep. rewrite exec_bind, exec_with_rlock.
  destruct Hr as (_ & _ & Ho & Hn). pose proof (readLength_bounds srv).
  pose proof (readWhole_run (rr_ID r) (of_path h) (rr_Offset r)
    (Z.min (rr_Length r) (readLength srv)) (fst (handle LockPath s)) data) as Hw.
  destruct (exec _ _) as [s' rep]. cbn [exec mret prog_mret snd] in *. rewrite Hw; try (unfold u64, u32 in *; lia); [done|].
  by rewrite store_lock.
Qed.

(** A handle written through whole-file rewrites. *)
Definition whole_write (h : openFile) : Prop :=
  of_dir h = false /\ of_write h = true /\ of_writable h = None.

Lemma write_whole_request t (w : WriteRequest) h s old :
  wr_wf w -> ro srv = false -> t !! wr_Handle w = Some h -> whole_write h ->
  wr_Offset w <= MaxInt64 -> content s (of_path h) = Some old -> len old <= MaxInt64 ->
  snd (snd (exec (handle_request srv t FxpWrite (payload_of w)) s)) =
    status (wr_ID w) StatusOK [] ->
  let s1 := fst (exec (handle_request srv t FxpWrite (payload_of w)) s) in
  splice_allowed old (wr_Offset w) (wr_Data w) /\
  fst (snd (exec (handle_request srv t FxpWrite (payload_of w)) s)) = t /\
  forall q, content s1 q =
    if decide (q = of_path h) then Some (spliced old (wr_Offset w) (wr_Data w)) else content s q.
Proof.
  intros Hw Hro Hh (Hd & Hwr & Hnw) Hmax Hc Hl.
  change (handle_request srv t FxpWrite (payload_of w)) with
    (match decoded (DecodeWrite (payload_of w))
             (fun e => PEarly (badMessage (requestID (payload_of w)) e))
             (PEarly (status (requestID (payload_of w)) StatusBadMessage []))
             (fun m => of_job (writeJob srv t m))
     with PJob j => keep t (run_job j) | PEarly r => mret (t, r)
     | PBarrier => dispatch srv t FxpWrite (payload_of w) end).
  assert (DecodeWrite (payload_of w) = Ok w) as ->
    by exact (decode_encode (M:=WriteRequest) w Hw). cbn [decoded].
  unfold writeJob, handles_get. rewrite Hh, Hd, Hro, Hwr, Hnw. cbn [negb].
  rewrite Z.gtb_ltb, (proj2 (Z.ltb_ge _ _)) by done. cbn [of_job run_job].
  unfold keep. rewrite exec_bind, exec_with_lock.
  set (s0 := fst (handle Lock s)).
  assert (content s0 (of_path h) = Some old) as Hc0 by (unfold s0; by rewrite store_lock).
  destruct Hw as (_ & _ & Ho & Hdl).
  assert (len (wr_Data w) <= MaxInt64) as Hdl'
    by (etrans; [exact Hdl|]; vm_compute; discriminate).
  pose proof (writeSplice_run (wr_ID w) (of_path h) (wr_Offset w) (wr_Data w) s0
    (fst (handle (ReadFile (of_path h)) s0)) old Ho Hdl' Hl) as Hrun.
  rewrite <- (store_read _ _ _ Hc0) in Hrun. specialize (Hrun (surjective_pairing _)).
  case_decide as Ha; destruct Hrun as [_ Hrun]; rewrite Hrun; [|done].
  set (s2 := fst (handle (ReadFile (of_path h)) s0)) in *.
  pose proof (store_write s2 (of_path h) (spliced old (wr_Offset w) (wr_Data w)) 0x1A4) as Hsw.
  destruct (handle (WriteFile _ _ _) s2) as [s3 [e|]]; cbn [exec mret prog_mret fst snd] in *.
  { intros H. exfalso. injection H. intros _ H'.
    by apply (statusFor_not_ok e StatusFailure) in H'. }
  intros _. split_and!; [done|done|]. intros q. rewrite store_lock by done.
  rewrite Hsw by done. case_decide; [done|]. unfold s2, s0.
  by rewrite store_read_pure, store_lock.
Qed.

(** C9. A write that was acknowledged is what every later read sees: over any
    driver that stores whole files, after a WRITE answered OK a READ through any
    handle on that path returns, for every range, the bytes of the file with the
    client's data written at the offset (old bytes kept, gap zeroed), and in
    particular the very data for the range written; READs of other paths are
    unaffected. *)
Theorem write_then_read t (w : WriteRequest) (r : ReadRequest) h h2 s old data2 :
  wr_wf w -> rr_wf r -> ro srv = false ->
  t !! wr_Handle w = Some h -> whole_write h ->
  t !! rr_Handle r = Some h2 -> of_dir h2 = false -> of_file h2 = None ->
  wr_Offset w <= MaxInt64 ->
  content s (of_path h) = Some old -> len old <= MaxInt64 ->
  content s (of_path h2) = Some data2 -> len data2 <= MaxInt64 ->
  snd (snd (exec (handle_request srv t FxpWrite (payload_of w)) s)) =
    status (wr_ID w) StatusOK [] ->
  let '(s1, (t1, _)) := exec (handle_request srv t FxpWrite (payload_of w)) s in
  let reply := snd (snd (exec (handle_request srv t1 FxpRead (payload_of r)) s1)) in
  (of_path h2 = of_path h ->
     (exists new, (forall i, new !! i = pwrite_byte old (wr_Offset w) (wr_Data w) i) /\
        reply = read_reply (rr_ID r) new (rr_Offset r) (rr_Length r)) /\
     (rr_Offset r = wr_Offset w -> rr_Length r = len (wr_Data w) ->
      0 < len (wr_Data w) <= readLength srv ->
        reply = RData {| dr_ID := rr_ID r; dr_Data := wr_Data w |})) /\
  (of_path h2 <> of_path h ->
     reply = read_reply (rr_ID r) data2 (rr_Offset r) (rr_Length r)).
Proof.
  intros Hw Hr Hro Hh Hww Hh2 Hd2 Hf2 Hmax Hc Hl Hc2 Hl2 Hok.
  destruct (write_whole_request t w h s old Hw Hro Hh Hww Hmax Hc Hl Hok) as (Ha & Ht & Hcont).
  destruct (exec (handle_request srv t FxpWrite (payload_of w)) s) as [s1 [t1 rep]].
  cbn [fst snd] in *. subst t1. specialize (Hcont (of_path h2)).
  pose proof Hw as (_ & _ & [Ho _] & Hdl).
  assert (len (spliced old (wr_Offset w) (wr_Data w)) <= MaxInt64) as Hsl.
  { rewrite len_spliced by done. unfold splice_allowed, MaxInt64 in *. lia. }
  split; intros Hp; [rewrite decide_True in Hcont by done|rewrite decide_False in Hcont by done].
  - rewrite (read_whole_request t r h2 s1 _ Hr Hh2 Hd2 Hf2 Hcont Hsl). cbn [snd]. split.
    + eexists; split; [|done]. intros i. by apply spliced_lookup.
    + intros Eo En Hn. unfold read_reply. rewrite Eo, En.
      rewrite (proj2 (Z.eqb_neq _ _)) by lia.
      rewrite Z.geb_leb, (proj2 (Z.leb_gt _ _)) by (rewrite len_spliced by done; lia).
      by rewrite Z.min_l, pread_spliced by lia.
  - rewrite Hc2 in Hcont.
    by rewrite (read_whole_request t r h2 s1 _ Hr Hh2 Hd2 Hf2 Hcont Hl2).
Qed.
End roundtrip.

#[export] Program Instance MemDriver_Store : Store Mem := {| content s p := m_files s !! p |}.
Next Obligation. by intros [] s p Hc. Qed.
Next Obligation. intros s p d H. simpl. by rewrite H. Qed.
Next Obligation. done. Qed.
Next Obligation.
  intros s p d perm _ q. simpl. case_decide as E; [subst; apply lookup_insert_eq|].
  by rewrite lookup_insert_ne.
Qed.

(** A writable export without [Opener]: one handle opened for writing, token
    ["w"], one for reading, token ["r"]. *)
Definition demo_table : handles :=
  {[ str "w" := new_openFile (str "/a") true; str "r" := new_openFile (str "/a") false ]}.

Lemma write_then_read_witness :
  let w := {| wr_ID := 1; wr_Handle := str "w"; wr_Offset := 3; wr_Data := str "XYZ" |} in
  let r := {| rr_ID := 2; rr_Handle := str "r"; rr_Offset := 3; rr_Length := 3 |} in
  let srv := demo_server false false in
  let '(s1, (t1, _)) := exec (handle_request (UT:=ascii_tables) srv demo_table FxpWrite (payload_of w)) demo_mem in
  snd (snd (exec (handle_request (UT:=ascii_tables) srv t1 FxpRead (payload_of r)) s1)) =
    RData {| dr_ID := 2; dr_Data := str "XYZ" |}.
Proof.
  intros w r srv.
  pose proof (write_then_read (UT:=ascii_tables) srv demo_table w r
    (new_openFile (str "/a") true) (new_openFile (str "/a") false) demo_mem
    (str "hello") (str "hello")) as H.
  do 14 match type of H with
  | ?P -> _ =>
      let Hp := fresh in
      assert P as Hp by (first [done|split_and!; done|vm_compute; reflexivity]);
      specialize (H Hp); clear Hp
  end.
  destruct (exec (handle_request (UT:=ascii_tables) srv demo_table FxpWrite (payload_of w)) demo_mem)
    as [s1 [t1 rep]].
  destruct H as [H _]. destruct (H eq_refl) as [_ H']. exact (H' eq_refl eq_refl ltac:(done)).
Defined.
