(* ===== verification/DirLaws.v ===== *)
(** Listing a directory: OPENDIR and READDIR ([opOpendir], [opReaddir],
    [readdirBatch] of [src/ops.go]). *)

From S2P Require Import Prelude Codec Const Attrs Messages WireLaws Packet Errors Path Driver.
From S2P Require Import Server Handle Attr Ops CopyData Session OpsLaws MemDriver SessionLaws.
From S2P Require Import ReplyLaws.

(** The calls a READDIR makes: it looks at objects under the shared path lock. *)
Definition looks (c : call) : bool :=
  match c with LockPath | UnlockPath | Stat _ => true | _ => false end.

(** A driver that looking at leaves as it is: [Stat] is one of the read-only path
    calls of [src/server.go], and the lock is an object of its own. *)
Class Unmoved (S : Type) `{!Driver S} : Prop :=
  unmoved : forall c s, looks c = true -> fst (handle c s) = s.

#[export] Instance MemDriver_unmoved : Unmoved Mem.
Proof. by intros [] s. Qed.

(** What [Stat] answers in a state. *)
Definition answers (stat : bytes -> option StatInfo * option error) : contract := fun c =>
  match c return answer c -> Prop with
  | Stat p => fun x => x = stat p
  | _ => fun _ => True
  end.

Definition stat_in {S} `{!Driver S} (s : S) (p : bytes) : option StatInfo * option error :=
  snd (handle (Stat p) s).

(** A program that only looks is answered from the state it starts in. *)
Lemma looks_adequate {S} `{!Driver S} `{!Unmoved S} {A} (p : prog A) Q (s : S) :
  wp (answers (stat_in s)) (fun c => looks c = true) p Q -> Q (snd (exec p s)) /\ fst (exec p s) = s.
Proof.
  induction p as [a|c k IH]; [done|]. intros [Hc Hk]. simpl.
  pose proof (unmoved c s Hc) as Hs. destruct (handle c s) as [s' x] eqn:E. simpl in Hs. subst s'.
  apply IH, Hk. destruct c; try done. simpl. unfold stat_in. by rewrite E.
Qed.

Section listing.
Context (srv : Server).
Context (stat : bytes -> option StatInfo * option error).

(** The specification: the item of one entry, none when the name is not one a
    client could use or its object cannot be described. *)
Definition entry_item (dir name : bytes) : option NameItem :=
  match join dir name with
  | None => None
  | Some full =>
      match stat full with
      | (Some st, None) =>
          Some {| ni_Filename := name; ni_Longname := longName name (attrsFromStat srv st);
                  ni_Attrs := attrsFromStat srv st |}
      | _ => None
      end
  end.

(** What is left to list on a handle. *)
Definition remaining (h : openFile) : list NameItem :=
  omap (entry_item (of_path h)) (drop (Z.to_nat (of_pos h)) (of_entries h)).

Lemma readdir_items_exact dir batch :
  wp (answers stat) (fun c => looks c = true) (readdir_items srv dir batch)
    (fun its => its = omap (entry_item dir) batch).
Proof.
  induction batch as [|name batch IH]; cbn [readdir_items]; [done|].
  apply wp_bind. unfold readdir_entry.
  eapply (wp_mono _ (fun o => o = entry_item dir name)).
  - unfold entry_item. destruct (join dir name) as [full|]; [|done].
    apply wp_bind, (wp_do (Stat full)); [done|]. intros x Hx. simpl in x, Hx. subst x.
    by destruct (stat full) as [[st|] [e|]].
  - intros o ->. apply wp_bind. eapply wp_mono; [exact IH|]. intros its ->. apply wp_ret.
    cbn [omap list_omap]. by destruct (entry_item dir name).
Qed.

(** One READDIR: the next batch of items, or EOF when none is left. *)
Definition readdir_step (h h' : openFile) (id : Z) (r : Reply) : Prop :=
  of_path h' = of_path h /\ of_entries h' = of_entries h /\ of_dir h' = of_dir h /\
  of_pos h <= of_pos h' <= len (of_entries h) /\
  ((exists its, r = RName {| nr_ID := id; nr_Items := its |} /\ its <> [] /\
      len its <= readdirBatch /\ remaining h = its ++ remaining h' /\ of_pos h < of_pos h') \/
   (r = status id StatusEOF [] /\ remaining h = [] /\ remaining h' = [])).

Lemma omap_drop_split {A B} (f : A -> option B) (l : list A) (i j : nat) :
  (i <= j)%nat ->
  omap f (drop i l) = omap f (take (j - i) (drop i l)) ++ omap f (drop j l).
Proof.
  intros Hij. rewrite <- omap_app. f_equal.
  assert (drop j l = drop (j - i) (drop i l)) as ->; [|by rewrite take_drop].
  rewrite drop_drop. by replace (i + (j - i))%nat with j by lia.
Qed.

Lemma length_omap_le {A B} (f : A -> option B) (l : list A) : (length (omap f l) <= length l)%nat.
Proof.
  induction l as [|x l IH]; [done|].
  change (omap f (x :: l)) with (match f x with Some y => y :: omap f l | None => omap f l end).
  destruct (f x); cbn [length]; lia.
Qed.

Lemma readdir_loop_exact fuel id h :
  0 <= of_pos h <= len (of_entries h) ->
  (length (of_entries h) - Z.to_nat (of_pos h) < fuel)%nat ->
  wp (answers stat) (fun c => looks c = true) (readdir_loop srv fuel id h)
    (fun x => readdir_step h (fst x) id (snd x)).
Proof.
  revert h. induction fuel as [|fuel IH]; intros h Hp Hf; [lia|].
  cbn [readdir_loop]. destruct (of_pos h <? len (of_entries h)) eqn:E; bool_prop; cbv zeta.
  2: { apply wp_ret. cbn [fst snd]. split_and!; try done; try lia. right.
       assert (remaining h = []) as ->; [|done]. unfold remaining.
       rewrite drop_ge; [done|unfold len in *; lia]. }
  set (e := Z.min (of_pos h + readdirBatch) (len (of_entries h))).
  assert (of_pos h < e <= len (of_entries h) /\ e <= of_pos h + 64) as He
    by (unfold e, readdirBatch; lia).
  assert (remaining h =
    omap (entry_item (of_path h)) (take (Z.to_nat (e - of_pos h)) (drop (Z.to_nat (of_pos h)) (of_entries h)))
    ++ remaining (set_pos e h)) as Hsplit.
  { unfold remaining; cbn [set_pos of_path of_pos of_entries].
    rewrite (omap_drop_split _ _ (Z.to_nat (of_pos h)) (Z.to_nat e)) by lia.
    do 3 f_equal. lia. }
  apply wp_bind. eapply wp_mono; [apply readdir_items_exact|]. intros its ->.
  cbn [set_pos of_path].
  set (its := omap _ (take _ _)) in *.
  destruct (0 <? len its) eqn:El; bool_prop.
  - apply wp_ret. unfold readdir_step. cbn [fst snd set_pos of_pos of_path of_entries of_dir]. split_and!; try done; try lia.
    left. exists its. split_and!; try done.
    + intros Hn. by rewrite Hn in El.
    + unfold its, readdirBatch, len. etrans; [apply inj_le, length_omap_le|].
      rewrite length_take. lia.
    + cbn [set_pos of_pos]. lia.
  - assert (its = []) as Hn by (apply len_zero; pose proof (len_nonneg its); lia).
    rewrite Hn in Hsplit. cbn [app] in Hsplit.
    eapply wp_mono; [apply IH; cbn [set_pos of_pos of_entries]; unfold len in *; lia|].
    intros [h' r] (H1 & H2 & H3 & H4 & H5). cbn [fst snd set_pos of_path of_entries of_dir of_pos] in *.
    split_and!; try done; try lia. rewrite Hsplit.
    destruct H5 as [(l & ? & ? & ? & ? & ?)|?]; [left|by right].
    exists l. split_and!; try done. lia.
Qed.

Lemma opReaddir_exact t m h :
  t !! hr_Handle m = Some h -> of_dir h = true -> 0 <= of_pos h <= len (of_entries h) ->
  wp (answers stat) (fun c => looks c = true) (opReaddir srv t m)
    (fun x => exists h', fst x = <[hr_Handle m := h']> t /\ readdir_step h h' (hr_ID m) (snd x)).
Proof.
  intros Hh Hd Hp. unfold opReaddir, handles_get. rewrite Hh, Hd. cbn [negb].
  apply wp_with_rlock; [done|done|]. apply wp_bind.
  eapply wp_mono; [apply readdir_loop_exact; [done|lia]|].
  intros [h' r] Hs. apply wp_ret. by exists h'.
Qed.

(** A client's listing: READDIR until a reply that is not NAME, [n] times at
    most. The items received, and whether the end was reached. *)
Fixpoint list_dir (n : nat) (t : handles) (m : HandleRequest) : prog (list NameItem * bool) :=
  match n with
  | O => mret ([], false)
  | S n =>
      x ← opReaddir srv t m;
      match x with
      | (t, RName r) => y ← list_dir n t m; mret (nr_Items r ++ fst y, snd y)
      | (_, _) => mret ([], true)
      end
  end.

Lemma list_dir_exact n t m h :
  t !! hr_Handle m = Some h -> of_dir h = true -> 0 <= of_pos h <= len (of_entries h) ->
  (length (of_entries h) - Z.to_nat (of_pos h) < n)%nat ->
  wp (answers stat) (fun c => looks c = true) (list_dir n t m) (fun x => x = (remaining h, true)).
Proof.
  revert t h. induction n as [|n IH]; intros t h Hh Hd Hp Hn; [lia|].
  cbn [list_dir]. apply wp_bind. eapply wp_mono; [by eapply opReaddir_exact|].
  intros [t' r] (h' & Ht & H1 & H2 & H3 & H4 & H5). cbn [fst snd] in *. subst t'.
  destruct H5 as [(its & -> & _ & _ & Hr & Hlt)|(-> & Hr & _)].
  - apply wp_bind. eapply wp_mono.
    + apply (IH _ h'); [by rewrite lookup_insert_eq|congruence|rewrite H2; lia|].
      rewrite H2. unfold len in *. lia.
    + intros y ->. apply wp_ret. by rewrite Hr.
  - apply wp_ret. by rewrite Hr.
Qed.
End listing.

(** C31. Listing a directory is complete and in order. Over any driver that looking at
    leaves as it is, in any state [s] of it, when nothing else changes it
    meanwhile: a client that repeats READDIR until EOF receives, batch after batch
    of at most 64, exactly one item for every entry of the listing whose name a
    client can use and whose object [Stat] describes in that state, in listing
    order, with its name, its attributes and its [ls -l] line; entries that cannot
    are skipped without cutting the listing short; as many requests as entries
    plus one always reach EOF; and the driver is as it was. *)
Theorem readdir_lists_every_entry srv {S} `{!Driver S} `{!Unmoved S} t m h (s : S) :
  t !! hr_Handle m = Some h -> of_dir h = true -> 0 <= of_pos h <= len (of_entries h) ->
  exec (list_dir srv (Datatypes.S (length (of_entries h))) t m) s =
    (s, (remaining srv (stat_in s) h, true)) /\
  exists h' r, exec (opReaddir srv t m) s = (s, (<[hr_Handle m := h']> t, r)) /\
    readdir_step srv (stat_in s) h h' (hr_ID m) r.
Proof.
  intros Hh Hd Hp. split.
  - destruct (looks_adequate _ _ s (list_dir_exact srv (stat_in s) (Datatypes.S (length (of_entries h)))
      t m h Hh Hd Hp ltac:(lia))) as [E1 E2].
    destruct (exec _ s) as [s' x]. simpl in *. by subst.
  - destruct (looks_adequate _ _ s (opReaddir_exact srv (stat_in s) t m h Hh Hd Hp))
      as [(h' & Ht & Hs) E].
    destruct (exec (opReaddir srv t m) s) as [s' [t' r]]. simpl in *. subst. by exists h', r.
Qed.

(** ** A directory

    Of the four entries one is not a name a client can use and one is gone. *)

Definition dir_mem : Mem :=
  {| m_files := {[ str "/d/a" := str "1"; str "/d/c" := str "22" ]}; m_dirs := [[slash]; str "/d"];
     m_open := ∅; m_next := 1; m_tokens := 0 |}.

Definition demo_dir : openFile := new_openDir (str "/d") [str "a"; str ".."; str "gone"; str "c"].

Lemma readdir_lists_every_entry_witness :
  map ni_Filename (fst (snd (exec
    (list_dir (demo_server true true) 5 {[ str "t" := demo_dir ]}
      {| hr_PacketType := FxpReaddir; hr_ID := 1; hr_Handle := str "t" |}) dir_mem))) =
  [str "a"; str "c"].
Proof.
  destruct (readdir_lists_every_entry (demo_server true true)
    {[ str "t" := demo_dir ]} {| hr_PacketType := FxpReaddir; hr_ID := 1; hr_Handle := str "t" |}
    demo_dir dir_mem) as [H _]; [done|done|done|].
  change (Datatypes.S (length (of_entries demo_dir))) with 5%nat in H.
  rewrite H. vm_compute. reflexivity.
Defined.
