(* ===== verification/FileLaws.v ===== *)
(** The life of files and handles: OPEN, CLOSE and the files the driver opens
    ([opOpen], [finishOpen], [opClose] of [src/ops.go], [src/handle.go]). *)

From stdpp Require Import gmultiset.
From S2P Require Import Prelude Codec Const Attrs Messages WireLaws Packet Errors Path Driver.
From S2P Require Import Server Handle Attr Ops CopyData Session OpsLaws MemDriver SessionLaws.
From S2P Require Import ReplyLaws StreamLaws DataLaws.

(** * What OPEN may change *)

Definition is_dir (st : StatInfo) : bool := Z.land (uint32 (s_Mode st)) ModeFmt =? ModeDir.

(** The permission bits the object is created with. *)
Definition create_perm (m : OpenRequest) : Z :=
  if has (aFlags (or_Attrs m)) AttrPermissions
  then Z.land (aPermissions (or_Attrs m)) ModePerm else 0x1A4.

(** What the flags must be for OPEN to write to the export, [Stat] having answered
    [x]: CREAT when there is nothing, TRUNC without EXCL when there is a file. *)
Definition flags_ask (m : OpenRequest) (x : option StatInfo * option error) : Prop :=
  match x with
  | (Some st, None) =>
      is_dir st = false /\ has (or_PFlags m) FxfTrunc = true /\ has (or_PFlags m) FxfExcl = false
  | _ => has (or_PFlags m) FxfCreat = true
  end.

(** The calls of a program that can change the filesystem, in order. *)
Definition changes {S} `{!Driver S} {A} (p : prog A) (s : S) : list call :=
  filter (fun c => call_ro c = false) (trace p s).

Section open.
Context {UT : UnicodeTables} (srv : Server).

Lemma finishOpen_ro t id path w :
  wp anything (fun c => call_ro c = true) (finishOpen srv t id path w) (fun _ => True).
Proof.
  unfold finishOpen, register, handles_add.
  repeat (lazymatch goal with
    | |- wp _ _ (do_ ?c) _ => apply (wp_do c); [done|intros ? _]
    | _ => wp_step end; cbn beta iota zeta); done.
Qed.

Context {S : Type} `{!Driver S}.

Lemma changes_none {A} (p : prog A) s :
  wp anything (fun c => call_ro c = true) p (fun _ => True) -> changes p s = [].
Proof.
  intros H. destruct (wp_adequate anything _ _ _ s H) as [Hf _]. unfold changes.
  induction Hf as [|c l Hc _ IH]; [done|]. rewrite filter_cons, decide_False by congruence. exact IH.
Qed.

Lemma changes_do {A} (c : call) (k : answer c -> prog A) s :
  changes (x ← do_ c; k x) s =
  (if call_ro c then [] else [c]) ++ changes (k (snd (handle c s))) (fst (handle c s)).
Proof.
  unfold changes. simpl. destruct (handle c s) as [s' x]. rewrite filter_cons.
  by destruct (call_ro c).
Qed.

Lemma changes_with_lock {A} (p : prog A) s : changes (with_lock p) s = changes p (fst (handle Lock s)).
Proof.
  unfold changes. rewrite trace_with_lock. cbn [app]. rewrite filter_cons, decide_False by done.
  rewrite filter_app. simpl. by rewrite app_nil_r.
Qed.

(** The write of OPEN, and what follows it. *)
Lemma open_write_changes t id path perm s :
  changes (err ← do_ (WriteFile path [] perm);
           match err with
           | Some err => mret (t, fail_with id (Some err) StatusFailure)
           | None => finishOpen srv t id path true
           end) s = [WriteFile path [] perm].
Proof.
  rewrite (changes_do (WriteFile path [] perm)). cbn [call_ro app]. f_equal.
  destruct (snd (handle _ s)); [done|]. apply changes_none, finishOpen_ro.
Qed.
End open.

(** C33. What OPEN changes: over any driver and whatever it answers, the calls of an
    OPEN that can change the filesystem are none, or exactly one: an empty
    [WriteFile] of the cleaned path, with the permissions asked for (0644 when
    none are). That one is made only on a writable export, and only when the
    driver's own answer to the [Stat] of that path, made under the lock before it,
    is that there is nothing there and CREAT is set, or that there is an object
    that is not a directory, TRUNC is set and EXCL is not. So EXCL never destroys
    a file, and opening for reading changes nothing. *)
Theorem open_changes_only_what_flags_ask {UT : UnicodeTables} srv {S} `{!Driver S} t m (s : S) :
  changes (opOpen srv t m) s = [] \/
  exists path, clean (or_Path m) = Some path /\
    changes (opOpen srv t m) s = [WriteFile path [] (create_perm m)] /\
    ro srv = false /\ wantsWrite (or_PFlags m) = true /\
    flags_ask m (snd (handle (Stat path) (fst (handle Lock s)))).
Proof.
  unfold opOpen, resolve. destruct (clean (or_Path m)) as [path|] eqn:Ec; [|by left].
  destruct (wantsWrite (or_PFlags m) && ro srv) eqn:Ew; [by left|].
  destruct (handles_full t); [by left|].
  rewrite changes_with_lock, (changes_do (Stat path)). cbn [call_ro app].
  set (s0 := fst (handle Lock s)). destruct (snd (handle (Stat path) s0)) as [st e] eqn:Es.
  set (s1 := fst (handle (Stat path) s0)). cbn beta iota zeta.
  assert (changes (finishOpen srv t (or_ID m) path false) s1 = [] /\
          changes (finishOpen srv t (or_ID m) path true) s1 = []) as [Hf1 Hf2]
    by (split; apply changes_none, finishOpen_ro).
  destruct (wantsWrite (or_PFlags m)); cbn [negb andb] in *.
  2: { left. repeat case_match; done. }
  assert (flags_ask m (st, e) ->
    exists path', Some path = Some path' /\ [WriteFile path [] (create_perm m)] =
      [WriteFile path' [] (create_perm m)] /\ ro srv = false /\ true = true /\
      flags_ask m (snd (handle (Stat path') s0))) as Hw.
  { intros Hx. exists path. split_and!; [done|done|done|done|by rewrite Es]. }
  change (request_perm (or_Attrs m) 0x1A4) with (create_perm m).
  destruct st as [st|], e as [e|]; cbn [andb negb orb].
  2: { destruct (_ =? ModeDir) eqn:Ed; [by left|]. destruct (has (or_PFlags m) FxfExcl) eqn:Ee; [by left|].
       destruct (has (or_PFlags m) FxfTrunc) eqn:Et; [|by left]. right. rewrite open_write_changes.
       by apply Hw. }
  all: destruct (has (or_PFlags m) FxfCreat) eqn:Ecr; [|by left]; right; cbn [negb]; rewrite open_write_changes; by apply Hw.
Qed.

(** * CLOSE *)

Section close.
Context {UT : UnicodeTables} {S : Type} `{!Driver S}.

Definition opt_call (c : File -> call) (f : option File) : list call :=
  match f with Some f => [c f] | None => [] end.

Lemma close_file_trace id f s : trace (close_file id f) s = opt_call File_Close f.
Proof.
  destruct f as [f|]; [|done]. simpl. destruct (handle (File_Close f) s) as [s' [e|]]; done.
Qed.

Lemma close_file_reply id f s :
  exists e, snd (exec (close_file id f) s) = done_reply id e.
Proof.
  destruct f as [f|]; [|by exists None]. simpl.
  destruct (handle (File_Close f) s) as [s' [e|]]; [by exists (Some e)|by exists None].
Qed.

(** CLOSE releases its handle exactly once: on every path, the errors
    included, the token leaves the table and the driver sees one [Sync] of the
    writable file (if there is one) and then one [Close] of the open file (if
    there is one), under the exclusive lock; no other handle is touched. A token
    that is not in the table, such as one already closed, is answered with a
    failure and reaches the driver not at all. *)
Theorem close_releases_once t m s :
  (forall h, t !! hr_Handle m = Some h ->
     trace (opClose t m) s =
       [Lock] ++ opt_call File_Sync (of_writable h) ++ opt_call File_Close (of_file h) ++ [Unlock] /\
     fst (snd (exec (opClose t m) s)) = delete (hr_Handle m) t /\
     exists e, snd (snd (exec (opClose t m) s)) = done_reply (hr_ID m) e) /\
  (t !! hr_Handle m = None ->
     trace (opClose t m) s = [] /\
     exec (opClose t m) s = (s, (t, status (hr_ID m) StatusFailure (str "unknown handle")))).
Proof.
  unfold opClose, handles_remove. split; [|by intros ->].
  intros h ->. rewrite trace_with_lock, exec_with_lock. set (s0 := fst (handle Lock s)).
  destruct (of_writable h) as [w|]; cbn [opt_call app].
  - rewrite trace_bind, exec_bind. cbn [do_ trace exec].
    destruct (handle (File_Sync w) s0) as [s1 [e|]]; cbn [fst snd].
    + rewrite trace_bind, exec_bind. destruct (of_file h) as [f|]; simpl.
      * destruct (handle (File_Close f) s1). simpl. split_and!; [done..|by exists (Some e)].
      * split_and!; [done..|by exists (Some e)].
    + rewrite trace_bind, exec_bind, close_file_trace. cbn [mret prog_mret trace].
      rewrite app_nil_r. destruct (close_file_reply (hr_ID m) (of_file h) s1) as [e He].
      destruct (exec (close_file (hr_ID m) (of_file h)) s1) as [s2 r]. simpl in *.
      split_and!; [done..|by exists e].
  - rewrite trace_bind, exec_bind, close_file_trace. cbn [mret prog_mret trace].
    rewrite app_nil_r. destruct (close_file_reply (hr_ID m) (of_file h) s0) as [e He].
    destruct (exec (close_file (hr_ID m) (of_file h)) s0) as [s2 r]. simpl in *.
    split_and!; [done..|by exists e].
Qed.
End close.

Lemma close_releases_once_witness :
  let m := {| hr_PacketType := FxpClose; hr_ID := 1; hr_Handle := str "w" |} in
  let f := {| f_id := 1; f_writable := true |} in
  let t : handles := {[ str "w" := set_files (Some f) (Some f) (new_openFile (str "/a") true) ]} in
  trace (opClose (UT:=ascii_tables) t m) demo_mem = [Lock; File_Sync f; File_Close f; Unlock] /\
  fst (snd (exec (opClose (UT:=ascii_tables) t m) demo_mem)) = delete (str "w") t.
Proof.
  intros m f t. destruct (close_releases_once (UT:=ascii_tables) t m demo_mem) as [H _].
  destruct (H (set_files (Some f) (Some f) (new_openFile (str "/a") true))) as (H1 & H2 & _).
  - reflexivity.
  - split; [exact H1|exact H2].
Defined.

(** ** Opening an existing file *)

Definition open_with (flags : Z) : OpenRequest :=
  {| or_ID := 1; or_Path := str "/a"; or_PFlags := flags; or_Attrs := zero_Attributes |}.

Example open_flags :
  let changed flags := changes (opOpen (UT:=ascii_tables) (demo_server false true) ∅ (open_with flags)) demo_mem in
  changed (Z.lor (Z.lor FxfWrite FxfCreat) (Z.lor FxfTrunc FxfExcl)) = [] /\
  changed (Z.lor FxfWrite FxfTrunc) = [WriteFile (str "/a") [] 0x1A4] /\
  changed FxfRead = [].
Proof. split_and!; vm_compute; reflexivity. Qed.

(** * Accounting for open files

    The files the driver has opened for the server and not been asked to close,
    followed through a request. Every call on a file must be on an open one. *)

#[export] Instance File_countable : Countable File :=
  inj_countable' (fun f => (f_id f, f_writable f)) (fun x => {| f_id := x.1; f_writable := x.2 |})
    (fun f => match f with {| f_id := _; f_writable := _ |} => eq_refl end).

(** The files a call uses. *)
Definition call_files (c : call) : list File :=
  match c with
  | File_ReadAt f _ _ | File_Size f | File_Close f | File_WriteAt f _ _ | File_Truncate f _
  | File_Sync f => [f]
  | HostCopy dst src _ _ _ => [dst; src]
  | _ => []
  end.

(** The open files after a call and its answer. *)
Definition file_step (c : call) : answer c -> gmultiset File -> gmultiset File :=
  match c return answer c -> gmultiset File -> gmultiset File with
  | OpenFile _ => fun x open => match x with (Some f, None) => {[+ f +]} ⊎ open | _ => open end
  | File_Close f => fun _ open => open ∖ {[+ f +]}
  | _ => fun _ open => open
  end.

Fixpoint accounts {A} (V : contract) (open : gmultiset File) (p : prog A)
    (Q : gmultiset File -> A -> Prop) : Prop :=
  match p with
  | Ret a => Q open a
  | Do c k =>
      Forall (fun f => f ∈ open) (call_files c) /\
      forall x, V c x -> accounts V (file_step c x open) (k x) Q
  end.

(** The files a handle table holds. *)
Definition handle_file (h : openFile) : gmultiset File :=
  match of_file h with Some f => {[+ f +]} | None => ∅ end.

Definition table_files (t : handles) : gmultiset File :=
  map_fold (fun _ h acc => handle_file h ⊎ acc) ∅ t.

(** Tokens do not collide: the random source never repeats one in use. *)
Definition fresh_tokens (t : handles) : contract := fun c =>
  match c return answer c -> Prop with
  | RandRead => fun x => snd x = None -> t !! EncodeToString (vec_to_list (fst x)) = None
  | _ => fun _ => True
  end.

Section account_laws.
Context {V : contract}.

Lemma acc_bind {A B} open (p : prog A) (f : A -> prog B) Q :
  accounts V open p (fun o a => accounts V o (f a) Q) -> accounts V open (p ≫= f) Q.
Proof.
  revert open. induction p as [a|c k IH]; intros open; simpl; [done|].
  intros [Hc Hk]. split; [done|]. intros x Hx. by apply IH, Hk.
Qed.

Lemma acc_mono {A} open (p : prog A) (Q1 Q2 : gmultiset File -> A -> Prop) :
  accounts V open p Q1 -> (forall o a, Q1 o a -> Q2 o a) -> accounts V open p Q2.
Proof.
  intros H HQ. revert open H. induction p as [a|c k IH]; intros open; simpl; [apply HQ|].
  intros [Hc Hk]. split; [done|]. intros x Hx. by apply IH, Hk.
Qed.

Lemma acc_do open c (Q : gmultiset File -> answer c -> Prop) :
  Forall (fun f => f ∈ open) (call_files c) ->
  (forall x, V c x -> Q (file_step c x open) x) -> accounts V open (do_ c) Q.
Proof. done. Qed.

Lemma acc_with_lock {A} open (p : prog A) Q :
  accounts V open p Q -> accounts V open (with_lock p) Q.
Proof.
  intros H. Transparent with_lock. split; [by constructor|]. intros x _. simpl.
  apply acc_bind. eapply acc_mono; [done|]. intros o a Ha. split; [by constructor|done].
  Opaque with_lock.
Qed.

Lemma acc_with_rlock {A} open (p : prog A) Q :
  accounts V open p Q -> accounts V open (with_rlock p) Q.
Proof.
  intros H. Transparent with_rlock. split; [by constructor|]. intros x _. simpl.
  apply acc_bind. eapply acc_mono; [done|]. intros o a Ha. split; [by constructor|done].
  Opaque with_rlock.
Qed.

Lemma acc_with_iolock {A} open (p : prog A) Q :
  accounts V open p Q -> accounts V open (with_iolock p) Q.
Proof.
  intros H. Transparent with_iolock. split; [by constructor|]. intros x _. simpl.
  apply acc_bind. eapply acc_mono; [done|]. intros o a Ha. split; [by constructor|done].
  Opaque with_iolock.
Qed.
End account_laws.

Lemma table_files_insert t tok h :
  t !! tok = None -> table_files (<[tok := h]> t) = handle_file h ⊎ table_files t.
Proof.
  intros Ht. unfold table_files.
  rewrite (map_fold_insert_L (fun _ h acc => handle_file h ⊎ acc)); [done| |done].
  intros. multiset_solver.
Qed.

Lemma table_files_delete t tok h :
  t !! tok = Some h -> table_files t = handle_file h ⊎ table_files (delete tok t).
Proof.
  intros Ht. rewrite <- (insert_delete_id t tok h Ht) at 1.
  apply table_files_insert, lookup_delete_eq.
Qed.

Lemma table_files_update t tok h h' :
  t !! tok = Some h -> of_file h' = of_file h -> table_files (<[tok := h']> t) = table_files t.
Proof.
  intros Ht Hf. rewrite (table_files_delete t tok h Ht).
  rewrite <- (insert_delete_eq t tok h'), table_files_insert by apply lookup_delete_eq.
  unfold handle_file. by rewrite Hf.
Qed.

Lemma table_files_in t tok h f : t !! tok = Some h -> of_file h = Some f -> f ∈ table_files t.
Proof.
  intros Ht Hf. rewrite (table_files_delete t tok h Ht). unfold handle_file. rewrite Hf.
  multiset_solver.
Qed.

Lemma open_close (f : File) (open : gmultiset File) : ({[+ f +]} ⊎ open) ∖ {[+ f +]} = open.
Proof. multiset_solver. Qed.

Lemma open_in (f : File) (open : gmultiset File) : f ∈ {[+ f +]} ⊎ open.
Proof. multiset_solver. Qed.

Lemma acc_ret {A} V open (a : A) (Q : gmultiset File -> A -> Prop) :
  Q open a -> accounts V open (mret a) Q.
Proof. done. Qed.

Ltac acc_step :=
  lazymatch goal with
  | |- accounts _ _ (mret _) _ => apply acc_ret
  | |- accounts _ _ (_ ≫= _) _ => apply acc_bind
  | |- accounts _ _ (with_lock _) _ => apply acc_with_lock
  | |- accounts _ _ (with_rlock _) _ => apply acc_with_rlock
  | |- accounts _ _ (with_iolock _) _ => apply acc_with_iolock
  | |- accounts _ _ (do_ ?c) _ =>
      apply (acc_do _ c); [repeat constructor; auto|intros ? ?; cbn [file_step]]
  | |- accounts _ _ (match ?x with _ => _ end) _ => destruct x eqn:?
  end.
Ltac acc_auto := repeat (acc_step; cbn beta iota zeta); try done.

(** The result leaves the open files as they were. *)
Abbreviation same open := (fun o _ => o = open).

Section accounting.
Context {UT : UnicodeTables} (srv : Server).

Lemma answer_status_acc V open id fb p :
  accounts V open p (same open) -> accounts V open (answer_status id fb p) (same open).
Proof.
  intros Hp. unfold answer_status. acc_step. eapply acc_mono; [done|]. intros o a ->. acc_auto.
Qed.

Lemma opStat_acc V open m : accounts V open (opStat srv m) (same open).
Proof. unfold opStat. acc_auto. Qed.

Lemma opSetstat_acc V open id path a : accounts V open (opSetstat srv id path a) (same open).
Proof. unfold opSetstat, setstat_metadata. acc_auto. Qed.

Lemma path_ops_acc V open :
  (forall m, accounts V open (opMkdir srv m) (same open)) /\
  (forall m, accounts V open (opRemove srv m) (same open)) /\
  (forall m, accounts V open (opRename srv m) (same open)) /\
  (forall m, accounts V open (opSymlink srv m) (same open)) /\
  (forall m, accounts V open (opReadlink m) (same open)) /\
  (forall m, accounts V open (opRealpath m) (same open)).
Proof.
  unfold opMkdir, opRemove, opRename, opSymlink, opReadlink, opRealpath, answer_status.
  split_and!; intros m; acc_auto.
Qed.

Lemma readdir_items_acc V open dir batch :
  accounts V open (readdir_items srv dir batch) (same open).
Proof.
  induction batch as [|name batch IH]; cbn [readdir_items]; [done|].
  unfold readdir_entry. acc_auto; (eapply acc_mono; [exact IH|]); intros o a ->; acc_auto.
Qed.

Lemma readdir_loop_acc V open fuel id h :
  accounts V open (readdir_loop srv fuel id h) (fun o x => o = open /\ of_file (fst x) = of_file h).
Proof.
  revert h. induction fuel as [|fuel IH]; intros h; [done|]. cbn [readdir_loop].
  acc_auto. eapply acc_mono; [apply readdir_items_acc|]. intros o its ->.
  destruct (0 <? len its); [done|]. apply (IH (set_pos _ h)).
Qed.

(** ** The handlers that open and close *)

(** The open files are those of the table left. *)
Abbreviation accounted := (fun o x => o = table_files (fst x)).

Lemma handles_add_acc (t : handles) (h : openFile) (Q : gmultiset File -> handles * (error + bytes) -> Prop) open :
  (forall e, Q open (t, inl e)) ->
  (forall tok, t !! tok = None -> Q open (<[tok := h]> t, inr tok)) ->
  accounts (fresh_tokens t) open (handles_add t h) Q.
Proof.
  intros He Ht. unfold handles_add. acc_step. apply (acc_do _ RandRead); [done|].
  intros [b [e|]] Hf; apply acc_ret; [apply He|]. apply Ht. by apply Hf.
Qed.

Lemma register_acc t id h :
  accounts (fresh_tokens t) (handle_file h ⊎ table_files t) (register t id h) accounted.
Proof.
  unfold register. acc_step. apply handles_add_acc.
  - intros e. acc_step. unfold handle_file. destruct (of_file h) as [f|].
    + apply (acc_do _ (File_Close f)); [constructor; [apply open_in|done]|].
      intros x _. apply acc_ret. cbn [fst file_step]. apply open_close.
    + apply acc_ret, acc_ret. cbn [fst]. by rewrite (left_id_L ∅ (⊎)).
  - intros tok Ht. apply acc_ret. cbn [fst]. by rewrite table_files_insert.
Qed.

Lemma finishOpen_acc t id path w :
  accounts (fresh_tokens t) (table_files t) (finishOpen srv t id path w) accounted.
Proof.
  assert (forall h, of_file h = None ->
    accounts (fresh_tokens t) (table_files t) (register t id h) accounted) as Hn.
  { intros h Hh. pose proof (register_acc t id h) as H. unfold handle_file in H. rewrite Hh in H.
    by rewrite (left_id_L ∅ (⊎)) in H. }
  unfold finishOpen. destruct (opener srv); [|by apply Hn].
  acc_step. apply (acc_do _ (OpenFile path)); [done|]. intros [[f|] [e|]] _; try done. cbn [file_step].
  destruct (negb w); [exact (register_acc t id (set_files (Some f) None (new_openFile path w)))|].
  destruct (f_writable f); [exact (register_acc t id (set_files (Some f) (Some f) (new_openFile path w)))|].
  acc_step. apply (acc_do _ (File_Close f)); [constructor; [apply open_in|done]|].
  intros [e|] _; cbn [file_step]; rewrite open_close; [done|by apply Hn].
Qed.

Lemma opOpen_acc t m :
  accounts (fresh_tokens t) (table_files t) (opOpen srv t m) accounted.
Proof. unfold opOpen. acc_auto; apply finishOpen_acc. Qed.

Lemma opOpendir_acc t m :
  accounts (fresh_tokens t) (table_files t) (opOpendir t m) accounted.
Proof.
  unfold opOpendir. acc_auto. apply handles_add_acc; [done|]. intros tok Ht. apply acc_ret.
  cbn [fst]. rewrite table_files_insert by done. unfold handle_file; cbn [new_openDir of_file].
  by rewrite (left_id_L ∅ (⊎)).
Qed.

Lemma opReaddir_acc V t m : accounts V (table_files t) (opReaddir srv t m) accounted.
Proof.
  unfold opReaddir, handles_get. destruct (t !! hr_Handle m) as [h|] eqn:E; [|done].
  acc_auto. eapply acc_mono; [apply readdir_loop_acc|]. intros o [h' r] [-> Hf].
  apply acc_ret. cbn [fst] in *. by rewrite (table_files_update _ _ h).
Qed.

Lemma opClose_acc V t m :
  table_wf t -> accounts V (table_files t) (opClose t m) accounted.
Proof.
  intros Ht. unfold opClose, handles_remove.
  destruct (t !! hr_Handle m) as [h|] eqn:E; [|done].
  rewrite (table_files_delete _ _ _ E). set (t' := delete (hr_Handle m) t).
  destruct (table_wf_lookup _ _ _ Ht E) as [_ _ Hw _ _].
  assert (forall r : Reply, accounts V (handle_file h ⊎ table_files t')
    (_ ← match of_file h with Some f => do_ (File_Close f) | None => mret None end; mret (t', r))
    accounted) as Hrel.
  { intros r. acc_step. unfold handle_file. destruct (of_file h) as [f|].
    - apply (acc_do _ (File_Close f)); [constructor; [apply open_in|done]|].
      intros x _. apply acc_ret, open_close.
    - apply acc_ret, acc_ret. cbn [fst]. by rewrite (left_id_L ∅ (⊎)). }
  assert (accounts V (handle_file h ⊎ table_files t')
    (r ← close_file (hr_ID m) (of_file h); mret (t', r)) accounted) as Hcl.
  { acc_step. unfold handle_file, close_file, answer_status. destruct (of_file h) as [f|].
    - acc_step. apply (acc_do _ (File_Close f)); [constructor; [apply open_in|done]|].
      intros [e|] _; apply acc_ret, acc_ret, open_close.
    - apply acc_ret, acc_ret. cbn [fst]. by rewrite (left_id_L ∅ (⊎)). }
  acc_step. destruct (of_writable h) as [w|]; [|apply Hcl].
  destruct (Hw w eq_refl) as (Hf & _ & _).
  acc_step. apply (acc_do _ (File_Sync w)).
  { constructor; [|done]. unfold handle_file. rewrite Hf. apply open_in. }
  intros [e|] _; cbn [file_step]; [apply Hrel|apply Hcl].
Qed.

(** ** READ, WRITE and copy-data *)

Lemma readJob_acc V t m :
  match readJob srv t m with
  | inl j => accounts V (table_files t) (run_job j) (same (table_files t))
  | inr _ => True
  end.
Proof.
  unfold readJob, handles_get. destruct (t !! rr_Handle m) as [h|] eqn:E; [|done].
  destruct (of_dir h); [done|]. destruct (rr_Length m =? 0); [done|]. cbn [run_job].
  destruct (of_file h) as [f|] eqn:Ef; unfold readAt, readWhole; acc_auto.
  by eapply table_files_in.
Qed.

Lemma writeJob_acc V t m :
  table_wf t ->
  match writeJob srv t m with
  | inl j => accounts V (table_files t) (run_job j) (same (table_files t))
  | inr _ => True
  end.
Proof.
  intros Ht. unfold writeJob, handles_get. destruct (t !! wr_Handle m) as [h|] eqn:E; [|done].
  destruct (table_wf_lookup _ _ _ Ht E) as [_ _ Hw _ _].
  destruct (of_dir h); [done|]. destruct (ro srv); [done|]. destruct (negb _); [done|].
  destruct (_ >? _); [done|]. cbn [run_job].
  destruct (of_writable h) as [w|]; [|unfold writeSplice, answer_status; acc_auto].
  destruct (Hw w eq_refl) as (Hf & _ & _). pose proof (table_files_in _ _ _ _ E Hf).
  unfold answer_status. acc_auto.
Qed.

Lemma copyData_acc V t id data :
  table_wf t -> accounts V (table_files t) (copyData srv t id data) (same (table_files t)).
Proof.
  intros Ht. unfold copyData, handles_get, copy_locked, answer_status. acc_auto.
  all: match goal with
       | Ht : table_wf ?t, Hs : ?t !! _ = Some ?src, Hd : ?t !! _ = Some ?dst,
         Hf : of_file ?src = Some _, Hw : of_writable ?dst = Some ?w |- _ =>
           pose proof (table_files_in _ _ _ _ Hs Hf);
           destruct (table_wf_lookup _ _ _ Ht Hd) as [_ _ Hwr _ _];
           destruct (Hwr w Hw) as (Hfw & _ & _);
           pose proof (table_files_in _ _ _ _ Hd Hfw)
       end; done.
Qed.

(** ** Every request *)

Lemma keep_acc V t p :
  accounts V (table_files t) p (same (table_files t)) ->
  accounts V (table_files t) (keep t p) accounted.
Proof. intros Hp. unfold keep. acc_step. eapply acc_mono; [done|]. by intros o r ->. Qed.

Lemma dispatch_acc t typ payload :
  table_wf t -> accounts (fresh_tokens t) (table_files t) (dispatch srv t typ payload) accounted.
Proof.
  intros Ht. destruct (path_ops_acc (fresh_tokens t) (table_files t)) as (?&?&?&?&?&?).
  unfold dispatch, decoded. repeat case_if; acc_auto.
  all: auto using opOpen_acc, opOpendir_acc, opReaddir_acc, opClose_acc, keep_acc, opStat_acc,
    opSetstat_acc, copyData_acc.
  apply keep_acc. unfold opFstat. acc_auto. apply opStat_acc.
Qed.

Lemma handle_request_acc t typ payload :
  table_wf t ->
  accounts (fresh_tokens t) (table_files t) (handle_request srv t typ payload) accounted.
Proof.
  intros Ht. unfold handle_request, prepare, decoded.
  repeat case_if; [| |by apply dispatch_acc].
  - destruct (DecodeRead payload) as [m|e|]; [|done..].
    pose proof (readJob_acc (fresh_tokens t) t m).
    destruct (readJob srv t m); cbn [of_job]; [by apply keep_acc|done].
  - destruct (DecodeWrite payload) as [m|e|]; [|done..].
    pose proof (writeJob_acc (fresh_tokens t) t m Ht).
    destruct (writeJob srv t m); cbn [of_job]; [by apply keep_acc|done].
Qed.

Lemma table_files_list t :
  table_files t = foldr (fun e acc => handle_file (snd e) ⊎ acc) ∅ (map_to_list t).
Proof.
  unfold table_files. rewrite map_fold_foldr. generalize (map_to_list t).
  induction l as [|[k h] l IH]; [done|]. simpl. by rewrite IH.
Qed.

Lemma foldr_files (l k : list (bytes * openFile)) :
  k ≡ₚ l ->
  foldr (fun e acc => handle_file (snd e) ⊎ acc) ∅ l =
  foldr (fun e acc => handle_file (snd e) ⊎ acc) ∅ k.
Proof. induction 1; simpl; [done|congruence|multiset_solver|congruence]. Qed.

Lemma closeAll_acc V order t first :
  accounts V (foldr (fun e acc => handle_file (snd e) ⊎ acc) ∅ order) (closeAll order t first)
    (fun o _ => o = ∅).
Proof.
  revert t first. induction order as [|[tok h] order IH]; intros t first; [done|].
  cbn [foldr closeAll snd]. acc_step. unfold handle_file at 1. destruct (of_file h) as [f|].
  - acc_step. apply (acc_do _ (File_Close f)); [constructor; [apply open_in|done]|].
    intros x _. apply acc_ret. cbn [file_step]. rewrite open_close. apply IH.
  - apply acc_ret. rewrite (left_id_L ∅ (⊎)). apply IH.
Qed.

(** C10. No file is leaked and none is used after it is closed: if the random
    source does not repeat a token in use, then after every request, on every
    path and whatever the driver answers, the files the driver holds open are
    exactly those the handle table holds, each as many times as it was opened;
    every call on a file is made while that file is open; and the end of the
    session closes all of them. *)
Theorem open_files_are_accounted_for t typ payload order :
  table_wf t -> order ≡ₚ map_to_list t ->
  accounts (fresh_tokens t) (table_files t) (handle_request srv t typ payload)
    (fun open x => open = table_files (fst x)) /\
  accounts anything (table_files t) (closeAll order t None) (fun open _ => open = ∅).
Proof.
  intros Ht Ho. split; [by apply handle_request_acc|].
  assert (table_files t = foldr (fun e acc => handle_file (snd e) ⊎ acc) ∅ order) as ->;
    [|apply closeAll_acc].
  rewrite table_files_list. by apply foldr_files.
Qed.
End accounting.

Lemma open_files_are_accounted_for_witness :
  accounts (fresh_tokens ∅) (table_files ∅)
    (handle_request (UT:=ascii_tables) (demo_server false true) ∅ FxpOpen open_a)
    (fun open x => open = table_files (fst x)).
Proof.
  apply (open_files_are_accounted_for (UT:=ascii_tables) (demo_server false true) ∅ FxpOpen open_a []).
  - apply newHandles_wf.
  - by rewrite map_to_list_empty.
Defined.
