(* ===== verification/AttrLaws.v ===== *)
(** What clients are told about objects: [src/attr.go]. *)

From S2P Require Import Prelude Codec Const Attrs Messages WireLaws Driver Server Attr.
From S2P Require Import SessionLaws.

(** * Attributes *)

Lemma u32_land a : u32 a <-> Z.land a (Z.ones 32) = a.
Proof.
  rewrite Z.land_ones by lia. unfold u32. split; [apply Z.mod_small|].
  intros <-. apply Z.mod_pos_bound. lia.
Qed.

Lemma lor_u32 a b : u32 a -> u32 b -> u32 (Z.lor a b).
Proof. rewrite !u32_land. intros Ha Hb. by rewrite Z.land_lor_distr_l, Ha, Hb. Qed.

Lemma ldiff_u32 a b : u32 a -> u32 (Z.ldiff a b).
Proof.
  rewrite !u32_land. intros Ha. rewrite <- Ha at 2. apply Z.bits_inj'. intros n _.
  rewrite !Z.land_spec, !Z.ldiff_spec, Z.land_spec.
  by destruct (Z.testbit a n), (Z.testbit b n), (Z.testbit (Z.ones 32) n).
Qed.

(** The mode a client is shown, before the write bits are hidden. *)
Definition shown_mode (st : StatInfo) : Z :=
  let mode := uint32 (s_Mode st) in
  if Z.land mode ModeFmt =? 0 then Z.lor mode ModeReg else mode.

Lemma shown_mode_u32 st : u32 (shown_mode st).
Proof. unfold shown_mode. case_if; [apply lor_u32; [|done]|]; apply uint32_u32. Qed.

Lemma attrsFromStat_eq srv st :
  attrsFromStat srv st =
  {| aFlags := 15; aSize := s_Size st; aUID := 0; aGID := 0;
     aPermissions := if ro srv then Z.ldiff (shown_mode st) 0x92 else shown_mode st;
     aAtime := match s_ModTime st with Some t => uint32 t | None => start srv end;
     aMtime := match s_ModTime st with Some t => uint32 t | None => start srv end;
     aExtended := [] |}.
Proof. done. Qed.

Lemma ldiff_land a b m : Z.land b m = 0 -> Z.land (Z.ldiff a b) m = Z.land a m.
Proof.
  intros Hb. apply Z.bits_inj'. intros n _.
  assert (Z.testbit (Z.land b m) n = false) as Hn by (rewrite Hb; apply Z.bits_0).
  rewrite Z.land_spec in Hn. rewrite !Z.land_spec, Z.ldiff_spec.
  by destruct (Z.testbit a n), (Z.testbit b n), (Z.testbit m n).
Qed.

(** Attributes are well-formed and say what the object is: they encode and
    decode unchanged; the file-type bits are never all zero (an object without
    any is shown as a regular file) and are otherwise the driver's, so a client
    sees a directory exactly when the driver has one; on a read-only export no
    write bit is shown and every other bit is the driver's; on a writable one the
    mode is the driver's. *)
Theorem attrsFromStat_faithful srv st :
  u64 (s_Size st) -> u32 (start srv) ->
  let a := attrsFromStat srv st in
  attrs_wf a /\
  Z.land (aPermissions a) ModeFmt <> 0 /\
  (Z.land (uint32 (s_Mode st)) ModeFmt <> 0 ->
     Z.land (aPermissions a) ModeFmt = Z.land (uint32 (s_Mode st)) ModeFmt) /\
  (Z.land (uint32 (s_Mode st)) ModeFmt = 0 -> Z.land (aPermissions a) ModeFmt = ModeReg) /\
  IsDir a = (Z.land (uint32 (s_Mode st)) ModeFmt =? ModeDir) /\
  (ro srv = true -> Z.land (aPermissions a) 0x92 = 0) /\
  (forall m, Z.land m 0x92 = 0 \/ ro srv = false ->
     Z.land (aPermissions a) m = Z.land (shown_mode st) m) /\
  aSize a = s_Size st.
Proof.
  intros Hs Hst a. subst a. rewrite attrsFromStat_eq.
  assert (forall m, Z.land m 0x92 = 0 \/ ro srv = false ->
    Z.land (if ro srv then Z.ldiff (shown_mode st) 0x92 else shown_mode st) m =
    Z.land (shown_mode st) m) as Hm.
  { intros m [Hm|Hm]; [|by rewrite Hm]. destruct (ro srv); [|done].
    apply ldiff_land. by rewrite Z.land_comm. }
  assert (Z.land (shown_mode st) ModeFmt =
    if Z.land (uint32 (s_Mode st)) ModeFmt =? 0 then ModeReg
    else Z.land (uint32 (s_Mode st)) ModeFmt) as Hf.
  { unfold shown_mode. case_if; [|done]. rewrite Z.land_lor_distr_l.
    by rewrite Heqb. }
  assert (u32 (if ro srv then Z.ldiff (shown_mode st) 0x92 else shown_mode st)) as Hp.
  { destruct (ro srv); [apply ldiff_u32|]; apply shown_mode_u32. }
  assert (u32 (match s_ModTime st with Some t => uint32 t | None => start srv end)) as Ht.
  { destruct (s_ModTime st); [apply uint32_u32|done]. }
  unfold IsDir. cbn [aPermissions aSize]. rewrite (Hm ModeFmt) by (by left). rewrite Hf.
  split_and!; try done.
  - case_if; done.
  - intros Hn. by rewrite (proj2 (Z.eqb_neq _ _) Hn).
  - intros Hn. by rewrite Hn.
  - unfold has. cbn [aFlags]. destruct (Z.land (uint32 (s_Mode st)) ModeFmt =? 0) eqn:E; bool_prop; [by rewrite E|done].
  - intros ->. apply Z.bits_inj'. intros n _. rewrite Z.land_spec, Z.ldiff_spec, Z.bits_0.
    by destruct (Z.testbit (shown_mode st) n), (Z.testbit 0x92 n).
Qed.

Lemma attrsFromStat_faithful_witness :
  let st := {| s_Size := 5; s_Mode := 0x41ED; s_ModTime := Some 1700000000 |} in
  attrs_wf (attrsFromStat (demo_server true true) st) /\
  IsDir (attrsFromStat (demo_server true true) st) = true /\
  aPermissions (attrsFromStat (demo_server true true) st) = 0x416D.
Proof.
  intros st. destruct (attrsFromStat_faithful (demo_server true true) st) as (H & _);
    [unfold u64; simpl; lia|unfold u32; simpl; lia|].
  split; [exact H|]. split; vm_compute; reflexivity.
Defined.

(** * The mode string *)

(** Reading a mode string back. *)
Definition parse_type (b : byte) : Z :=
  if decide (b = x64) then ModeDir else if decide (b = x6c) then ModeLink
  else if decide (b = x63) then ModeChar else if decide (b = x62) then ModeBlock
  else if decide (b = x70) then ModeFifo else if decide (b = x73) then ModeSock else ModeReg.

(** One [rwx] triple: the three bits, and whether the special bit is set. *)
Definition parse_exec (b : byte) : Z * Z :=
  if decide (b = x78) then (1, 0)
  else if decide (b = x73 \/ b = x74) then (1, 1)
  else if decide (b = x53 \/ b = x54) then (0, 1)
  else (0, 0).

Definition parse_bit (c b : byte) (v : Z) : Z := if decide (b = c) then v else 0.

Definition parse_mode (s : bytes) : option Z :=
  match s with
  | [t; r1; w1; e1; r2; w2; e2; r3; w3; e3] =>
      let '(x1, s1) := parse_exec e1 in
      let '(x2, s2) := parse_exec e2 in
      let '(x3, s3) := parse_exec e3 in
      Some (parse_type t + 2048 * s1 + 1024 * s2 + 512 * s3 +
            parse_bit x72 r1 256 + parse_bit x77 w1 128 + 64 * x1 +
            parse_bit x72 r2 32 + parse_bit x77 w2 16 + 8 * x2 +
            parse_bit x72 r3 4 + parse_bit x77 w3 2 + x3)
  | _ => None
  end.

(** The mode a mode string stands for: the low sixteen bits, with a file type
    that has no letter shown as a regular file. *)
Definition known_type (mode : Z) : bool :=
  let t := Z.land mode ModeFmt in
  (t =? ModeDir) || (t =? ModeLink) || (t =? ModeChar) || (t =? ModeBlock) ||
  (t =? ModeFifo) || (t =? ModeSock).

Definition string_mode (mode : Z) : Z :=
  if known_type mode then Z.land mode 0xFFFF else Z.land mode 0xFFF + ModeReg.

Definition mode_ok (mode : Z) : bool :=
  bool_decide (parse_mode (modeString mode) = Some (string_mode mode)).

(** Bits above the sixteenth are not looked at. *)
Lemma land_low mode b :
  Z.land b 0xFFFF = b -> Z.land (Z.land mode 0xFFFF) b = Z.land mode b.
Proof. intros Hb. by rewrite <- Z.land_assoc, (Z.land_comm 0xFFFF), Hb. Qed.

Lemma setBit_low mode pos bit a b out :
  Z.land bit 0xFFFF = bit -> setBit (Z.land mode 0xFFFF) pos bit a b out = setBit mode pos bit a b out.
Proof. intros H. unfold setBit. by rewrite land_low. Qed.

Lemma rwx_loop_low mode i rwx out :
  (i + length rwx <= 9)%nat ->
  rwx_loop (Z.land mode 0xFFFF) i rwx out = rwx_loop mode i rwx out.
Proof.
  revert i out. induction rwx as [|c rwx IH]; intros i out Hi; [done|].
  cbn [rwx_loop length] in *. unfold has. rewrite land_low; [apply IH; lia|].
  do 9 (destruct i as [|i]; [vm_compute; reflexivity|]). lia.
Qed.

Lemma modeString_low mode : modeString (Z.land mode 0xFFFF) = modeString mode.
Proof.
  unfold modeString. rewrite !setBit_low by (vm_compute; reflexivity).
  rewrite rwx_loop_low by (vm_compute; lia). unfold typeLetter.
  by rewrite land_low by (vm_compute; reflexivity).
Qed.

Lemma string_mode_low mode : string_mode (Z.land mode 0xFFFF) = string_mode mode.
Proof. unfold string_mode, known_type. by rewrite !land_low by (vm_compute; reflexivity). Qed.

(** All values from [base] to [base + 2 ^ k]. *)
Fixpoint all_modes (k : nat) (base : Z) : bool :=
  match k with
  | O => mode_ok base
  | S k => all_modes k base && all_modes k (base + 2 ^ Z.of_nat k)
  end.

Lemma all_modes_spec k base z :
  all_modes k base = true -> base <= z < base + 2 ^ Z.of_nat k -> mode_ok z = true.
Proof.
  revert base. induction k as [|k IH]; intros base; cbn [all_modes].
  - intros H Hz. by replace z with base by (simpl in Hz; lia).
  - intros [H1 H2]%andb_prop Hz. rewrite Nat2Z.inj_succ, Z.pow_succ_r in Hz by lia.
    destruct (decide (z < base + 2 ^ Z.of_nat k)); [apply (IH base H1); lia|].
    apply (IH _ H2). lia.
Qed.

(** The sixteen-bit modes, all of them. *)
Lemma modes_ok : all_modes 16 0 = true.
Proof. vm_compute. reflexivity. Qed.

(** The mode field of a listing line is faithful: reading the ten characters
    back gives the permission bits, the set-user-id, set-group-id and sticky
    bits and the file type of the mode (a type without a letter reads as a
    regular file), for every mode. *)
Theorem modeString_reads_back mode :
  parse_mode (modeString mode) = Some (string_mode mode).
Proof.
  rewrite <- modeString_low, <- string_mode_low.
  set (m := Z.land mode 0xFFFF).
  assert (0 <= m < 65536) as Hm.
  { unfold m. change 0xFFFF with (Z.ones 16). rewrite Z.land_ones by lia.
    apply Z.mod_pos_bound. lia. }
  apply (bool_decide_eq_true_1 _), (all_modes_spec 16 0 m modes_ok). lia.
Qed.
