(* ===== verification/CopyLaws.v ===== *)
(** The range arithmetic of copy-data ([copyData] of [src/copydata.go]). *)

From S2P Require Import Prelude Codec Const Attrs Messages WireLaws Packet Errors Path Driver.
From S2P Require Import Server Handle Attr Ops CopyData Session OpsLaws MemDriver SessionLaws.
From S2P Require Import DataLaws.

(** The bytes a request for [length] bytes at [fromOff] of a file of [size] bytes
    means: to the end when [length] is 0, never past the end. *)
Definition copy_range (fromOff length size : Z) : Z :=
  Z.max 0 (if length =? 0 then size - fromOff else Z.min length (size - fromOff)).

Lemma copy_count_range fromOff length size :
  0 <= fromOff <= 2 ^ 62 -> 0 <= length <= 2 ^ 62 -> fromOff + length < 2 ^ 63 ->
  0 <= size < 2 ^ 63 ->
  copy_count fromOff length size = copy_range fromOff length size.
Proof.
  intros Hf Hl Hs Hz. unfold copy_count, copy_range.
  rewrite (int64_id length), (int64_id fromOff), (int64_id (fromOff + length)),
    (int64_id (size - fromOff)) by (unfold i64; lia).
  destruct (length =? 0) eqn:E; bool_prop; cbn [orb]; [lia|].
  destruct (_ >? size) eqn:E2; bool_prop; lia.
Qed.

Section copy.
Context {UT : UnicodeTables} {S : Type} `{!Driver S}.

(** C34. A copy-data request copies the range it names, as long as neither of its two
    sums leaves an [int64]. For a request whose offsets and length are at most
    2^62, as the checks demand, with the source [size] bytes long and the
    destination [dsize], when the end of the source range and the end of the copy
    are below 2^63: the driver is asked to copy exactly the requested bytes that
    exist (none past the end of the source, all of the rest when the length is 0),
    and to grow the destination first, to exactly the end of the copy, only when
    that end lies past it; a destination that cannot be grown gets nothing. The
    checks let sums of 2^63 through, which wrap. *)
Theorem copy_data_copies_range id src dst a s s1 s2 size dsize :
  0 <= ca_fromOff a <= 2 ^ 62 -> 0 <= ca_length a <= 2 ^ 62 -> 0 <= ca_toOff a <= 2 ^ 62 ->
  0 <= size < 2 ^ 63 -> ca_fromOff a + ca_length a < 2 ^ 63 ->
  ca_toOff a + copy_range (ca_fromOff a) (ca_length a) size < 2 ^ 63 ->
  handle (File_Size src) s = (s1, size) -> handle (File_Size dst) s1 = (s2, dsize) ->
  let n := copy_range (ca_fromOff a) (ca_length a) size in
  let end_ := ca_toOff a + n in
  let copy := HostCopy dst src (ca_toOff a) (ca_fromOff a) n in
  (0 < n -> ca_fromOff a + n <= size) /\
  trace (copy_locked id src dst a) s =
    [File_Size src; File_Size dst] ++
    (if end_ >? dsize then
       File_Truncate dst end_ ::
       match snd (handle (File_Truncate dst end_) s2) with Some _ => [] | None => [copy] end
     else [copy]).
Proof.
  intros Hf Hl Ht Hz Hs He H1 H2 n end_ copy. fold n in He.
  assert (0 <= n <= size) as Hn by (unfold n, copy_range; case_if; lia).
  split; [unfold n, copy_range; case_if; lia|].
  unfold copy_locked. cbn [mbind prog_mbind prog_bind do_ trace]. rewrite H1. cbn [trace].
  rewrite H2. rewrite copy_count_range by lia. fold n.
  rewrite !(int64_id (ca_toOff a)), (int64_id (ca_fromOff a)), (int64_id (ca_toOff a + n))
    by (unfold i64; lia). fold end_.
  cbn [app]. do 2 f_equal. unfold answer_status.
  assert (forall s, trace (err ← do_ copy; match err with
      | Some err => mret (fail_with id (Some err) StatusFailure)
      | None => mret (status id StatusOK []) end) s = [copy]) as Hc.
  { intros s'. cbn [mbind prog_mbind prog_bind do_ trace].
    by destruct (handle copy s') as [s'' [e|]]. }
  destruct (end_ >? dsize); [|apply Hc].
  cbn [mbind prog_mbind prog_bind do_ trace].
  destruct (handle (File_Truncate dst end_) s2) as [s3 [e|]]; cbn [snd]; [done|]. f_equal. apply Hc.
Qed.

(** C40. The largest offset and length the checks let through do wrap: with both
    at 2^62, the end of an empty source is not noticed, and an empty destination
    is grown to 2^62 bytes. *)
Theorem copy_data_wraps id src dst to s s1 s2 :
  handle (File_Size src) s = (s1, 0) -> handle (File_Size dst) s1 = (s2, 0) ->
  let a := {| ca_from := []; ca_fromOff := 2 ^ 62; ca_length := 2 ^ 62; ca_to := to; ca_toOff := 0 |} in
  (ca_fromOff a >? Z.shiftl 1 62) || (ca_length a >? Z.shiftl 1 62) || (ca_toOff a >? Z.shiftl 1 62)
    = false /\
  copy_range (ca_fromOff a) (ca_length a) 0 = 0 /\
  File_Truncate dst (2 ^ 62) ∈ trace (copy_locked id src dst a) s.
Proof.
  intros H1 H2 a. split_and!; [done|done|].
  unfold copy_locked. cbn [mbind prog_mbind prog_bind do_ trace]. rewrite H1. cbn [trace].
  rewrite H2. change (copy_count (ca_fromOff a) (ca_length a) 0) with (2 ^ 62).
  change (int64 (int64 (ca_toOff a) + 2 ^ 62)) with (2 ^ 62).
  change (2 ^ 62 >? 0) with true. cbn iota.
  cbn [mbind prog_mbind prog_bind do_ trace]. do 2 apply list_elem_of_further.
  destruct (handle _ s2). apply list_elem_of_here.
Qed.
End copy.

(** ** Two open files *)

Definition two_files (a b : bytes) : Mem :=
  {| m_files := {[ str "/a" := a; str "/b" := b ]}; m_dirs := [[slash]];
     m_open := {[ 1 := str "/a"; 2 := str "/b" ]}; m_next := 3; m_tokens := 0 |}.

Definition file1 : File := {| f_id := 1; f_writable := true |}.
Definition file2 : File := {| f_id := 2; f_writable := true |}.

Lemma copy_data_copies_range_witness :
  trace (copy_locked (UT:=ascii_tables) 1 file1 file2
    {| ca_from := str "f"; ca_fromOff := 2; ca_length := 100; ca_to := str "t"; ca_toOff := 1 |})
    (two_files (str "hello") (str "x")) =
  [File_Size file1; File_Size file2; File_Truncate file2 4; HostCopy file2 file1 1 2 3].
Proof.
  destruct (copy_data_copies_range (UT:=ascii_tables) 1 file1 file2
    {| ca_from := str "f"; ca_fromOff := 2; ca_length := 100; ca_to := str "t"; ca_toOff := 1 |}
    (two_files (str "hello") (str "x")) (two_files (str "hello") (str "x"))
    (two_files (str "hello") (str "x")) 5 1) as [_ H].
  1-6: vm_compute; intuition congruence.
  - vm_compute; reflexivity.
  - vm_compute; reflexivity.
  - rewrite H. vm_compute. reflexivity.
Defined.

Lemma copy_data_wraps_witness :
  File_Truncate file2 (2 ^ 62) ∈
    trace (copy_locked (UT:=ascii_tables) 1 file1 file2
      {| ca_from := []; ca_fromOff := 2 ^ 62; ca_length := 2 ^ 62; ca_to := str "t"; ca_toOff := 0 |})
      (two_files [] []).
Proof.
  destruct (copy_data_wraps (UT:=ascii_tables) 1 file1 file2 (str "t")
    (two_files [] []) (two_files [] []) (two_files [] [])) as (_ & _ & H).
  - vm_compute; reflexivity.
  - vm_compute; reflexivity.
  - exact H.
Defined.
