(* ===== verification/Concurrent.v ===== *)
(** READs and WRITEs in flight together: [src/concurrent.go], and the jobs of
    [readJob] and [writeJob] in [src/ops.go].

    The scheduler is [go-filesystems/inflight], which is not in the repository.
    What the source says of it is the rule modelled here: every other request is
    a barrier; between two barriers the READs and WRITEs run in any order that
    keeps two of them in arrival order when their byte ranges overlap on one path
    and one of them writes, and a whole-file rewrite in arrival order with
    everything on its path; replies go out in arrival order. Each job is one
    driver call under the shared lock, or runs alone under the exclusive lock, so
    a concurrent run is a sequence of jobs in some order. *)

From S2P Require Import Prelude Codec Const Attrs Messages WireLaws Packet Errors Path Driver.
From S2P Require Import Server Handle Attr Ops CopyData Session OpsLaws MemDriver SessionLaws.
From S2P Require Import DataLaws.

(** * The ordering rule *)

Definition span_path (sp : Span) : bytes :=
  match sp with ReadRange p _ _ | WriteRange p _ _ | WriteAll p => p end.

Definition span_writes (sp : Span) : bool :=
  match sp with ReadRange _ _ _ => false | _ => true end.

(** The byte ranges meet; a whole-file rewrite meets everything. *)
Definition spans_meet (a b : Span) : bool :=
  match a, b with
  | (ReadRange _ o1 n1 | WriteRange _ o1 n1), (ReadRange _ o2 n2 | WriteRange _ o2 n2) =>
      (o1 <? o2 + n2) && (o2 <? o1 + n1)
  | _, _ => true
  end.

Definition conflict (a b : Span) : bool :=
  bool_decide (span_path a = span_path b) && (span_writes a || span_writes b) && spans_meet a b.

(** [a] runs before [b] in [l]. *)
Definition before {A} (a b : A) (l : list A) : Prop := [a; b] `sublist_of` l.

(** A schedule of the jobs that arrived in the order [l], each with its label. *)
Definition schedule (l l' : list (nat * job)) : Prop :=
  l' ≡ₚ l /\
  forall a b, before a b l -> conflict (span (snd a)) (span (snd b)) = true -> before a b l'.

(** Running jobs one after the other: each reply, under its label. *)
Section run.
Context {S : Type} `{!Driver S}.

Fixpoint run_jobs (l : list (nat * job)) (s : S) : S * list (nat * Reply) :=
  match l with
  | [] => (s, [])
  | (i, j) :: l =>
      let '(s, r) := exec (run_job j) s in
      let '(s, rs) := run_jobs l s in
      (s, (i, r) :: rs)
  end.

Lemma run_jobs_cons i j l s :
  run_jobs ((i, j) :: l) s =
  (fst (run_jobs l (fst (exec (run_job j) s))),
   (i, snd (exec (run_job j) s)) :: snd (run_jobs l (fst (exec (run_job j) s)))).
Proof. simpl. destruct (exec (run_job j) s) as [s1 r]. simpl. by destruct (run_jobs l s1). Qed.
End run.

(** * Stores of files *)

(** What a job's driver call does, for a driver that keeps file contents by path
    and behind open files: the documentation of [ReadFile], [WriteFile],
    [File.ReadAt] and [WritableFile.WriteAt], for a store that does not run out
    of room. [file_at] is the path behind an open file. *)
Class FileStore (S : Type) `{!Driver S} := {
  data_at : S -> bytes -> option bytes;
  file_at : S -> File -> option bytes;
  readat_answer : Z -> Z -> option bytes -> bytes * option error;
  no_file : error;
  fst_same : forall c s, is_lock c = true \/ (exists p, c = ReadFile p) \/
               (exists f n off, c = File_ReadAt f n off) ->
    data_at (fst (handle c s)) = data_at s /\ file_at (fst (handle c s)) = file_at s;
  fst_readfile : forall s p,
    snd (handle (ReadFile p) s) =
      match data_at s p with Some d => (d, None) | None => ([], Some no_file) end;
  fst_readat : forall s f p n off, file_at s f = Some p ->
    snd (handle (File_ReadAt f n off) s) = readat_answer n off (data_at s p);
  fst_readat_local : forall n off d1 d2, pread d1 off n = pread d2 off n ->
    readat_answer n off (Some d1) = readat_answer n off (Some d2);
  fst_writeat : forall s f p data off, 0 <= off -> file_at s f = Some p ->
    snd (handle (File_WriteAt f data off) s) =
      (if decide (data_at s p = None) then Some no_file else None) /\
    file_at (fst (handle (File_WriteAt f data off) s)) = file_at s /\
    forall q, data_at (fst (handle (File_WriteAt f data off) s)) q =
      if decide (q = p) then
        (fun old => if decide (data = []) then old else spliced old off data) <$> data_at s p
      else data_at s q;
  fst_writefile : forall s p data perm, data_at s p <> None ->
    snd (handle (WriteFile p data perm) s) = None /\
    file_at (fst (handle (WriteFile p data perm) s)) = file_at s /\
    forall q, data_at (fst (handle (WriteFile p data perm) s)) q =
      if decide (q = p) then Some data else data_at s q
}.

(** * The jobs a request can become *)

Inductive act :=
| ARead (id : Z) (f : option File) (path : bytes) (off n : Z)
| AWrite (id : Z) (w : option File) (path : bytes) (off : Z) (data : bytes).

Section acts.
Context {UT : UnicodeTables}.

Definition act_job (a : act) : job :=
  match a with
  | ARead id f path off n =>
      {| span := ReadRange path off n;
         run_job := match f with
                    | Some f => with_iolock (readAt id f off n)
                    | None => with_rlock (readWhole id path off n)
                    end |}
  | AWrite id w path off data =>
      {| span := match w with
                 | Some _ => WriteRange path off (len data)
                 | None => WriteAll path
                 end;
         run_job := match w with
                    | Some w => with_iolock (answer_status id StatusFailure
                                  (do_ (File_WriteAt w data (int64 off))))
                    | None => with_lock (writeSplice id path off data)
                    end |}
  end.

Lemma readJob_act srv t m j :
  rr_wf m -> readJob srv t m = inl j ->
  exists h n, t !! rr_Handle m = Some h /\ 0 < n <= 261120 /\
    j = act_job (ARead (rr_ID m) (of_file h) (of_path h) (rr_Offset m) n).
Proof.
  intros (_ & _ & _ & [Hn _]). unfold readJob, handles_get.
  destruct (t !! rr_Handle m) as [h|]; [|done]. destruct (of_dir h); [done|].
  destruct (rr_Length m =? 0) eqn:E; [done|]. bool_prop. intros [= <-].
  exists h, (Z.min (rr_Length m) (readLength srv)). split; [done|]. split; [|done].
  pose proof (readLength_bounds srv). lia.
Qed.

Lemma writeJob_act srv t m j :
  writeJob srv t m = inl j ->
  exists h, t !! wr_Handle m = Some h /\ wr_Offset m <= MaxInt64 /\
    j = act_job (AWrite (wr_ID m) (of_writable h) (of_path h) (wr_Offset m) (wr_Data m)).
Proof.
  unfold writeJob, handles_get. destruct (t !! wr_Handle m) as [h|]; [|done].
  destruct (of_dir h); [done|]. destruct (ro srv); [done|]. destruct (negb _); [done|].
  destruct (_ >? MaxInt64) eqn:E; [done|]. bool_prop. intros [= <-]. by exists h.
Qed.
End acts.

(** * What a job does to the store *)

Section effects.
Context {UT : UnicodeTables} {S : Type} `{!Driver S} `{!FileStore S}.

Definition act_path (a : act) : bytes :=
  match a with ARead _ _ p _ _ | AWrite _ _ p _ _ => p end.

Definition act_file (a : act) : option File :=
  match a with ARead _ f _ _ _ | AWrite _ f _ _ _ => f end.

(** The request's offset is one the checks let through. *)
Definition act_ok (a : act) : Prop :=
  match a with
  | ARead _ _ _ off n => u64 off /\ u64 n /\ 0 < n
  | AWrite _ _ _ off _ => 0 <= off <= MaxInt64
  end.

(** The open file of a job is behind the job's path. *)
Definition bound (s : S) (a : act) : Prop :=
  match act_file a with Some f => file_at s f = Some (act_path a) | None => True end.

(** The file [writeSplice] writes back, if it does. *)
Definition splice_code (old : bytes) (off : Z) (data : bytes) : option bytes :=
  let end_ := uint64 (off + len data) in
  if (end_ <? off) ||
     ((end_ >? len old) &&
      ((uint64 (end_ - len old) >? maxSpliceGrowth) || (end_ >? maxFileSplice)))
  then None
  else Some (copy_at (if end_ >? len old then grow old end_ else old) off data).

(** The reply of [readAt] to an answer of [ReadAt]. *)
Definition at_reply (id : Z) (x : bytes * option error) : Reply :=
  let '(buf, err) := x in
  if 0 <? len buf then RData {| dr_ID := id; dr_Data := buf |}
  else match err with
       | None => status id StatusEOF []
       | Some e => if Is_EOF e then status id StatusEOF [] else fail_with id (Some e) StatusFailure
       end.

(** The reply of [readWhole] on a file's contents. *)
Definition whole_reply (id off n : Z) (c : option bytes) : Reply :=
  match c with
  | None => fail_with id (Some no_file) StatusFailure
  | Some d =>
      if off >=? len d then status id StatusEOF []
      else RData {| dr_ID := id;
             dr_Data := take (Z.to_nat (Z.min (satAdd off n) (len d) - off)) (drop (Z.to_nat off) d) |}
  end.

(** The effect of a job on the contents of its path, and its reply. *)
Definition act_view (a : act) (c : option bytes) : option bytes :=
  match a with
  | ARead _ _ _ _ _ => c
  | AWrite _ (Some _) _ off data =>
      (fun old => if decide (data = []) then old else spliced old off data) <$> c
  | AWrite _ None _ off data => (fun old => default old (splice_code old off data)) <$> c
  end.

Definition act_reply (a : act) (c : option bytes) : Reply :=
  match a with
  | ARead id (Some _) _ off n =>
      if off >? MaxInt64 then status id StatusEOF [] else at_reply id (readat_answer n off c)
  | ARead id None _ off n => whole_reply id off n c
  | AWrite id (Some _) _ _ _ =>
      if decide (c = None) then fail_with id (Some no_file) StatusFailure else status id StatusOK []
  | AWrite id None _ off data =>
      match c with
      | None => fail_with id (Some no_file) StatusFailure
      | Some old => match splice_code old off data with
                    | None => splice_refused id
                    | Some _ => status id StatusOK []
                    end
      end
  end.

(** The effect of [a]: as [act_view] and [act_reply] say. *)
Definition acts_as (a : act) (s : S) (x : S * Reply) : Prop :=
  snd x = act_reply a (data_at s (act_path a)) /\ file_at (fst x) = file_at s /\
  forall q, data_at (fst x) q =
    if decide (q = act_path a) then act_view a (data_at s (act_path a)) else data_at s q.

(** A lock around a program that acts as [a]. *)
Lemma acts_as_locked a s s1 x (lk ulk : call) :
  is_lock lk = true -> is_lock ulk = true ->
  s1 = fst (handle lk s) -> acts_as a s1 x -> acts_as a s (fst (handle ulk (fst x)), snd x).
Proof.
  intros Hl Hu -> (H1 & H2 & H3). unfold acts_as; cbn [fst snd].
  destruct (fst_same lk s (or_introl Hl)) as [Hd Hf].
  destruct (fst_same ulk (fst x) (or_introl Hu)) as [Hd' Hf'].
  rewrite Hf', Hd'. rewrite Hd in H1, H3. rewrite Hf in H2. by split_and!.
Qed.

Lemma readAt_acts id f path off n s :
  0 <= off -> file_at s f = Some path ->
  acts_as (ARead id (Some f) path off n) s (exec (readAt id f off n) s).
Proof.
  intros Ho Hf. unfold readAt, acts_as. cbn [act_path act_reply act_view].
  destruct (off >? MaxInt64) eqn:E; bool_prop.
  { cbn [exec mret prog_mret fst snd]. split_and!; [done|done|]. intros q.
    by case_decide; subst. }
  rewrite int64_id by (unfold i64, MaxInt64 in *; lia). rewrite exec_bind. cbn [do_ exec].
  pose proof (fst_readat s f path n off Hf) as Ha.
  destruct (fst_same (File_ReadAt f n off) s) as [Hd Hfs]; [by right; right; do 3 eexists|].
  destruct (handle (File_ReadAt f n off) s) as [s1 [buf err]]. cbn [fst snd] in *. rewrite <- Ha.
  unfold at_reply. repeat case_match; cbn [exec mret prog_mret fst snd];
    (split_and!; [done|done|]); intros q; rewrite Hd; by case_decide; subst.
Qed.

Lemma readWhole_acts id path off n s :
  acts_as (ARead id None path off n) s (exec (readWhole id path off n) s).
Proof.
  unfold readWhole, acts_as. cbn [act_path act_reply act_view]. rewrite exec_bind. cbn [do_ exec].
  pose proof (fst_readfile s path) as Ha.
  destruct (fst_same (ReadFile path) s) as [Hd Hfs]; [by right; left; eexists|].
  destruct (handle (ReadFile path) s) as [s1 [d e]]. cbn [fst snd] in *.
  unfold whole_reply. destruct (data_at s path) as [d0|] eqn:Ec; injection Ha as -> ->.
  - destruct (off >=? len d0); cbn [exec mret prog_mret fst snd];
      (split_and!; [done|done|]); intros q; rewrite Hd; by case_decide; subst.
  - cbn [exec mret prog_mret fst snd]. split_and!; [done|done|].
    intros q; rewrite Hd; by case_decide; subst.
Qed.

Lemma writeAt_acts id f path off data s :
  0 <= off <= MaxInt64 -> file_at s f = Some path ->
  acts_as (AWrite id (Some f) path off data) s
    (exec (answer_status id StatusFailure (do_ (File_WriteAt f data (int64 off)))) s).
Proof.
  intros Ho Hf. unfold answer_status, acts_as. cbn [act_path act_reply act_view].
  rewrite int64_id by (unfold i64, MaxInt64 in *; lia). rewrite exec_bind. cbn [do_ exec].
  destruct (fst_writeat s f path data off (proj1 Ho) Hf) as (Ha & Hfs & Hd).
  destruct (handle (File_WriteAt f data off) s) as [s1 e]. cbn [fst snd] in *. subst e.
  destruct (decide (data_at s path = None)); cbn [exec mret prog_mret fst snd]; done.
Qed.

Lemma writeSplice_acts id path off data s :
  acts_as (AWrite id None path off data) s (exec (writeSplice id path off data) s).
Proof.
  unfold writeSplice, acts_as. cbn [act_path act_reply act_view]. rewrite exec_bind. cbn [do_ exec].
  pose proof (fst_readfile s path) as Ha.
  destruct (fst_same (ReadFile path) s) as [Hd Hfs]; [by right; left; eexists|].
  destruct (handle (ReadFile path) s) as [s1 [d e]]. cbn [fst snd] in *.
  destruct (data_at s path) as [old|] eqn:Ec; injection Ha as -> ->.
  2: { cbn [exec mret prog_mret fst snd fmap option_fmap option_map]. split_and!; [done|done|].
       intros q; rewrite Hd; by case_decide; subst; rewrite ?Ec. }
  cbn [fmap option_fmap option_map]. unfold splice_code. cbv zeta. destruct (_ || _); cbn [default].
  { cbn [exec mret prog_mret fst snd]. split_and!; [done|done|].
    intros q; rewrite Hd. by case_decide; subst; rewrite ?Ec. }
  unfold answer_status. rewrite exec_bind. cbn [do_ exec].
  set (new := copy_at _ off data).
  destruct (fst_writefile s1 path new 0x1A4) as (Ha & Hfs' & Hd'); [by rewrite Hd, Ec|].
  destruct (handle (WriteFile path new 0x1A4) s1) as [s2 e]. cbn [fst snd] in *. subst e.
  cbn [exec mret prog_mret fst snd]. split_and!; [done|by rewrite Hfs'|].
  intros q. rewrite Hd', Hd. done.
Qed.

Lemma act_exec a s :
  act_ok a -> bound s a -> acts_as a s (exec (run_job (act_job a)) s).
Proof.
  intros Ha Hb.
  assert (forall c, is_lock c = true -> bound (fst (handle c s)) a) as Hb'.
  { intros c Hc. unfold bound in *. destruct (act_file a); [|done].
    by rewrite (proj2 (fst_same c s (or_introl Hc))). }
  destruct a as [id [f|] path off n|id [f|] path off data]; cbn [act_job run_job].
  - rewrite exec_with_iolock. destruct (exec _ _) as [s' r] eqn:E.
    eapply (acts_as_locked _ s _ (s', r) LockIO UnlockIO); [done..|].
    rewrite <- E. apply readAt_acts; [apply Ha|by apply Hb'].
  - rewrite exec_with_rlock. destruct (exec _ _) as [s' r] eqn:E.
    eapply (acts_as_locked _ s _ (s', r) LockPath UnlockPath); [done..|].
    rewrite <- E. apply readWhole_acts.
  - rewrite exec_with_iolock. destruct (exec _ _) as [s' r] eqn:E.
    eapply (acts_as_locked _ s _ (s', r) LockIO UnlockIO); [done..|].
    rewrite <- E. apply writeAt_acts; [apply Ha|by apply Hb'].
  - rewrite exec_with_lock. destruct (exec _ _) as [s' r] eqn:E.
    eapply (acts_as_locked _ s _ (s', r) Lock Unlock); [done..|].
    rewrite <- E. apply writeSplice_acts.
Qed.
End effects.

(** * Jobs that do not conflict commute *)

Definition disjoint_at (o1 n1 o2 n2 : Z) : Prop := ~ (o1 < o2 + n2 /\ o2 < o1 + n1).

Lemma length_spliced old off data :
  0 <= off -> length (spliced old off data) = Nat.max (length old) (Z.to_nat off + length data).
Proof. intros Ho. pose proof (len_spliced old off data Ho) as H. unfold len in H. lia. Qed.

Lemma pread_spliced_disjoint d ow dw off n :
  0 <= ow -> 0 <= off -> off + n <= len d -> disjoint_at off n ow (len dw) ->
  pread (spliced d ow dw) off n = pread d off n.
Proof.
  intros Hw Ho Hc Hd. unfold pread, disjoint_at, len in *. apply list_eq. intros i.
  destruct (decide (i < Z.to_nat n)%nat) as [Hi|Hi].
  2: by rewrite !lookup_take_ge by lia.
  rewrite !lookup_take_lt, !lookup_drop, spliced_lookup by lia. unfold pwrite_byte.
  rewrite decide_False by lia. by rewrite decide_True by lia.
Qed.

Lemma spliced_commute d o1 d1 o2 d2 :
  0 <= o1 -> 0 <= o2 -> d1 <> [] -> d2 <> [] -> disjoint_at o1 (len d1) o2 (len d2) ->
  spliced (spliced d o1 d1) o2 d2 = spliced (spliced d o2 d2) o1 d1.
Proof.
  intros H1 H2 Hn1 Hn2 Hd. unfold disjoint_at, len in Hd. apply list_eq. intros i.
  assert (0 < length d1 /\ 0 < length d2)%nat as [Hl1 Hl2]
    by (split; [destruct d1|destruct d2]; simpl; (done || lia)).
  rewrite !spliced_lookup by done. unfold pwrite_byte.
  rewrite !length_spliced, !spliced_lookup by done. unfold pwrite_byte.
  repeat case_decide; done || lia.
Qed.

Section commute.
Context {UT : UnicodeTables} {S : Type} `{!Driver S} `{!FileStore S}.

(** A write at an offset of an open file. *)
Definition in_place (a : act) : Prop :=
  match a with AWrite _ (Some _) _ _ _ => True | _ => False end.

(** A READ inside the file. *)
Definition covered (a : act) (c : option bytes) : Prop :=
  match a with
  | ARead _ _ _ off n => forall d, c = Some d -> off + n <= len d
  | _ => True
  end.

Definition act_span (a : act) : Span := span (act_job a).

Lemma span_path_act a : span_path (act_span a) = act_path a.
Proof. by destruct a as [| ? [] ? ? ?]. Qed.

Lemma read_reply_local id f p off n d d' :
  act_ok (ARead id f p off n) -> off + n <= len d -> len d <= len d' ->
  pread d' off n = pread d off n ->
  act_reply (ARead id f p off n) (Some d') = act_reply (ARead id f p off n) (Some d).
Proof.
  intros ([Ho Ho'] & Hn & Hn0) Hc Hl Hp. cbn [act_reply]. destruct f as [f|].
  { by rewrite (fst_readat_local n off d' d Hp). }
  unfold whole_reply. rewrite !Z.geb_leb, !(proj2 (Z.leb_gt _ _)) by lia.
  rewrite satAdd_min by done.
  assert (Z.min (Z.min (off + n) MaxUint64) (len d') = Z.min (off + n) MaxUint64) as -> by lia.
  assert (Z.min (Z.min (off + n) MaxUint64) (len d) = Z.min (off + n) MaxUint64) as -> by lia.
  do 2 f_equal. unfold pread in Hp. set (k := Z.to_nat (_ - off)).
  assert (k <= Z.to_nat n)%nat as Hk by (unfold k; lia).
  apply (f_equal (take k)) in Hp. by rewrite !take_take, !Nat.min_l in Hp by done.
Qed.

(** A READ and a WRITE of another range of its file. *)
Lemma read_write_commute id f p off n id' w ow dw c :
  act_ok (ARead id f p off n) -> act_ok (AWrite id' (Some w) p ow dw) ->
  covered (ARead id f p off n) c -> disjoint_at off n ow (len dw) ->
  act_reply (ARead id f p off n) (act_view (AWrite id' (Some w) p ow dw) c) =
  act_reply (ARead id f p off n) c.
Proof.
  intros Ha Hb Hc Hd. destruct c as [d|]; [|done].
  cbn [act_view fmap option_fmap option_map]. case_decide; [done|].
  specialize (Hc d eq_refl). destruct Ha as ([Ho Ho'] & Hn & Hn0), Hb as [Hw _].
  apply read_reply_local; [done|done| |by apply pread_spliced_disjoint].
  rewrite len_spliced by done. lia.
Qed.

(** Two WRITEs of different ranges of a file. *)
Lemma write_write_commute id w p off data id' w' off' data' c :
  act_ok (AWrite id (Some w) p off data) -> act_ok (AWrite id' (Some w') p off' data') ->
  disjoint_at off (len data) off' (len data') ->
  act_view (AWrite id (Some w) p off data) (act_view (AWrite id' (Some w') p off' data') c) =
  act_view (AWrite id' (Some w') p off' data') (act_view (AWrite id (Some w) p off data) c) /\
  act_reply (AWrite id (Some w) p off data) (act_view (AWrite id' (Some w') p off' data') c) =
  act_reply (AWrite id (Some w) p off data) c.
Proof.
  intros [Ho _] [Ho' _] Hd. destruct c as [d|]; [|done].
  cbn [act_view act_reply fmap option_fmap option_map]. repeat case_decide; split; try done.
  f_equal. symmetry. by apply spliced_commute.
Qed.

Lemma conflict_false a b :
  act_path a = act_path b -> conflict (act_span a) (act_span b) = false ->
  (span_writes (act_span a) = false /\ span_writes (act_span b) = false) \/
  spans_meet (act_span a) (act_span b) = false.
Proof.
  intros Hp. unfold conflict. rewrite !span_path_act, bool_decide_eq_true_2 by done. cbn [andb].
  destruct (spans_meet _ _); [|by right]. rewrite andb_true_r. intros H%orb_false_elim. by left.
Qed.

(** Two jobs on one path that do not conflict: each replies as it would alone,
    and the contents do not depend on their order. *)
Lemma views_commute a b c :
  act_ok a -> act_ok b -> act_path a = act_path b ->
  (in_place b -> covered a c) -> (in_place a -> covered b c) ->
  conflict (act_span a) (act_span b) = false ->
  act_view a (act_view b c) = act_view b (act_view a c) /\
  act_reply a (act_view b c) = act_reply a c /\ act_reply b (act_view a c) = act_reply b c.
Proof.
  intros Ha Hb Hp Hca Hcb Hn%conflict_false; [|done].
  assert (forall o1 n1 o2 n2, (o1 <? o2 + n2) && (o2 <? o1 + n1) = false -> disjoint_at o1 n1 o2 n2)
    as Hdis.
  { intros o1 n1 o2 n2 H [H1%Z.ltb_lt H2%Z.ltb_lt]. by rewrite H1, H2 in H. }
  destruct a as [id f p off n|id w p off data], b as [id' f' p' off' n'|id' w' p' off' data'];
    cbn [act_path] in Hp; subst p'; [done| | |].
  - destruct Hn as [[_ Hn]|Hn]; [by destruct w'|]. destruct w' as [w'|]; [|done].
    split_and!; [done| |done]. apply read_write_commute; auto. by apply Hca.
  - destruct Hn as [[Hn _]|Hn]; [by destruct w|]. destruct w as [w|]; [|done].
    split_and!; [done|done|]. apply read_write_commute; try done; [by apply Hcb|].
    apply Hdis in Hn. unfold disjoint_at in *. lia.
  - destruct Hn as [[Hn _]|Hn]; [by destruct w|]. destruct w as [w|]; [|done].
    destruct w' as [w'|]; [|done]. apply Hdis in Hn.
    destruct (write_write_commute id w p off data id' w' off' data' c Ha Hb Hn) as [H1 H2].
    destruct (write_write_commute id' w' p off' data' id w off data c Hb Ha) as [_ H3].
    { unfold disjoint_at in *. lia. }
    done.
Qed.

(** * Schedules *)

(** States no job can tell apart. *)
Definition equiv_store (s1 s2 : S) : Prop :=
  file_at s1 = file_at s2 /\ forall q, data_at s1 q = data_at s2 q.

Abbreviation run_act a := (exec (run_job (act_job a))).

Lemma act_respects a s s' :
  act_ok a -> bound s a -> equiv_store s s' ->
  snd (run_act a s) = snd (run_act a s') /\ equiv_store (fst (run_act a s)) (fst (run_act a s')).
Proof.
  intros Ha Hb [Hf Hd].
  assert (bound s' a) as Hb' by (unfold bound in *; by rewrite <- Hf).
  destruct (act_exec a s Ha Hb) as (H1 & H2 & H3), (act_exec a s' Ha Hb') as (H4 & H5 & H6).
  split; [by rewrite H1, H4, Hd|]. split; [by rewrite H2, H5|]. intros q. by rewrite H3, H6, !Hd.
Qed.

Lemma act_commute a b s :
  act_ok a -> act_ok b -> bound s a -> bound s b ->
  (act_path a = act_path b -> in_place b -> covered a (data_at s (act_path a))) ->
  (act_path a = act_path b -> in_place a -> covered b (data_at s (act_path b))) ->
  conflict (act_span a) (act_span b) = false ->
  snd (run_act a (fst (run_act b s))) = snd (run_act a s) /\
  snd (run_act b (fst (run_act a s))) = snd (run_act b s) /\
  equiv_store (fst (run_act b (fst (run_act a s)))) (fst (run_act a (fst (run_act b s)))).
Proof.
  intros Ha Hb Hba Hbb Hca Hcb Hn.
  destruct (act_exec a s Ha Hba) as (A1 & A2 & A3), (act_exec b s Hb Hbb) as (B1 & B2 & B3).
  assert (bound (fst (run_act a s)) b) as Hbb' by (unfold bound in *; by rewrite A2).
  assert (bound (fst (run_act b s)) a) as Hba' by (unfold bound in *; by rewrite B2).
  destruct (act_exec b _ Hb Hbb') as (C1 & C2 & C3), (act_exec a _ Ha Hba') as (D1 & D2 & D3).
  unfold equiv_store. rewrite C1, C2, D1, D2, A1, A2, B1, B2.
  destruct (decide (act_path a = act_path b)) as [Hp|Hp].
  - destruct (views_commute a b (data_at s (act_path a))) as (V1 & V2 & V3); try done; auto.
    { rewrite Hp. auto. }
    rewrite A3, B3, !decide_True by congruence. rewrite <- Hp, V2, V3. split_and!; try done.
    intros q. rewrite C3, D3, A3, B3, <- Hp, !(decide_True (P:=act_path a = _)) by done.
    destruct (decide (q = act_path a)); [done|].
    rewrite A3, B3, !decide_False by congruence. done.
  - rewrite A3, B3, !decide_False by congruence. split_and!; try done.
    intros q. rewrite C3, D3, A3, B3.
    rewrite (decide_False (P:=act_path b = act_path a)), (decide_False (P:=act_path a = act_path b))
      by congruence.
    rewrite A3, B3. repeat case_decide; congruence.
Qed.

Lemma length_copy_at buf off data : length (copy_at buf off data) = length buf.
Proof. unfold copy_at. rewrite !length_app, !length_take, length_drop. lia. Qed.

(** Writes keep files at least as long as they were. *)
Lemma covered_view a b c : act_ok b -> covered a c -> covered a (act_view b c).
Proof.
  intros Hb. destruct a as [id f p off n|]; [|done]. unfold covered. intros Hc d' Hd'.
  destruct c as [d|]; [|by destruct b as [|? [] ? ? ?]].
  specialize (Hc d eq_refl). assert (len d <= len d'); [|lia].
  destruct b as [id' f' p' off' n'|id' [w|] p' off' data'];
    cbn [act_view fmap option_fmap option_map] in Hd'; injection Hd' as <-; [done| |].
  - case_decide; [done|]. destruct Hb as [Ho _]. rewrite len_spliced by done. lia.
  - unfold splice_code. cbv zeta. destruct (_ || _); cbn [from_option]; [done|].
    unfold len, Datatypes.id. rewrite length_copy_at. case_if; [|done].
    unfold grow. rewrite length_app. lia.
Qed.

(** What a batch of jobs needs of the store it starts on: open files are behind
    their paths, and a READ of a file the batch also writes in place is inside
    the file. *)
Definition ready (l : list (nat * act)) (s : S) : Prop :=
  (forall x, x ∈ l -> act_ok (snd x) /\ bound s (snd x)) /\
  (forall x y, x ∈ l -> y ∈ l -> act_path (snd x) = act_path (snd y) -> in_place (snd y) ->
     covered (snd x) (data_at s (act_path (snd x)))).

Definition run_acts (l : list (nat * act)) (s : S) : S * list (nat * Reply) :=
  run_jobs (map (fun x => (fst x, act_job (snd x))) l) s.

Lemma run_acts_cons x l s :
  run_acts (x :: l) s =
  (fst (run_acts l (fst (run_act (snd x) s))),
   (fst x, snd (run_act (snd x) s)) :: snd (run_acts l (fst (run_act (snd x) s)))).
Proof. apply run_jobs_cons. Qed.

Lemma ready_sub l k s : (forall x, x ∈ k -> x ∈ l) -> ready l s -> ready k s.
Proof. intros Hk [H1 H2]. split; intros; [by apply H1, Hk|]. eapply H2; eauto. Qed.

Lemma ready_step x l s : x ∈ l -> ready l s -> ready l (fst (run_act (snd x) s)).
Proof.
  intros Hx [H1 H2]. destruct (H1 x Hx) as [Ho Hb].
  destruct (act_exec (snd x) s Ho Hb) as (_ & Hf & Hd). split.
  - intros y Hy. destruct (H1 y Hy). split; [done|]. unfold bound in *. by rewrite Hf.
  - intros y z Hy Hz Hp Hi. rewrite Hd. case_decide as E; [|by eapply H2].
    rewrite <- E. apply covered_view; [done|]. by eapply H2.
Qed.

Lemma run_acts_respects l s s' :
  ready l s -> equiv_store s s' ->
  snd (run_acts l s) = snd (run_acts l s') /\
  equiv_store (fst (run_acts l s)) (fst (run_acts l s')).
Proof.
  revert s s'. induction l as [|x l IH]; intros s s' Hr He; [done|].
  destruct (proj1 Hr x) as [Ho Hb]; [apply list_elem_of_here|].
  destruct (act_respects (snd x) s s' Ho Hb He) as [Hs He'].
  rewrite !run_acts_cons. cbn [fst snd].
  destruct (IH _ _ (ready_sub _ l _ (fun y Hy => list_elem_of_further _ _ _ Hy)
                      (ready_step x _ s (list_elem_of_here _ _) Hr)) He') as [Hr' He''].
  by rewrite Hs, Hr'.
Qed.

(** ** Moving a job to the front *)

Lemma elem_middle {A} (x : A) u a v : x ∈ a :: u ++ v -> x ∈ u ++ a :: v.
Proof. rewrite elem_of_cons, !elem_of_app, elem_of_cons. tauto. Qed.

Lemma move_front u a v s :
  ready (u ++ a :: v) s ->
  (forall b, b ∈ u -> conflict (act_span (snd a)) (act_span (snd b)) = false) ->
  snd (run_acts (u ++ a :: v) s) ≡ₚ snd (run_acts (a :: u ++ v) s) /\
  equiv_store (fst (run_acts (u ++ a :: v) s)) (fst (run_acts (a :: u ++ v) s)).
Proof.
  revert s. induction u as [|b u IH]; intros s Hr Hn; [done|].
  assert (b ∈ (b :: u) ++ a :: v) as Hb by apply list_elem_of_here.
  assert (a ∈ (b :: u) ++ a :: v) as Ha by (apply elem_of_app; right; apply list_elem_of_here).
  destruct Hr as [Hr1 Hr2] eqn:Hreq. clear Hreq.
  destruct (Hr1 a Ha) as [Hao Hab], (Hr1 b Hb) as [Hbo Hbb].
  destruct (act_commute (snd a) (snd b) s Hao Hbo Hab Hbb) as (C1 & C2 & C3).
  { intros Hp Hi. by apply (Hr2 a b). }
  { intros Hp Hi. by apply (Hr2 b a). }
  { apply Hn, list_elem_of_here. }
  assert (ready (u ++ a :: v) (fst (run_act (snd b) s))) as Hrb.
  { eapply ready_sub; [|by apply (ready_step b _ s Hb (conj Hr1 Hr2))].
    intros y Hy. by apply list_elem_of_further. }
  destruct (IH _ Hrb) as [P1 E1]; [intros; apply Hn; by apply list_elem_of_further|].
  cbn [app]. rewrite (run_acts_cons b (u ++ a :: v)), (run_acts_cons a), (run_acts_cons b (u ++ v)).
  rewrite (run_acts_cons a) in P1, E1. cbn [fst snd] in *.
  assert (ready (u ++ v) (fst (run_act (snd b) (fst (run_act (snd a) s))))) as Hr'.
  { eapply ready_sub; [|apply (ready_step b _ _ Hb), (ready_step a _ s Ha), (conj Hr1 Hr2)].
    intros y Hy. apply list_elem_of_further, elem_middle. by apply list_elem_of_further. }
  destruct (run_acts_respects (u ++ v) _ _ Hr' C3) as [R1 R2].
  split.
  - rewrite P1, R1, C1, C2. apply Permutation_swap.
  - destruct E1 as [E1 E1'], R2 as [R2 R2'].
    split; [by rewrite E1, R2|]. intros q. by rewrite E1', R2'.
Qed.

Lemma sublist_remove {A} (k : list A) u a v :
  a ∉ k -> k `sublist_of` u ++ a :: v -> k `sublist_of` u ++ v.
Proof.
  revert k. induction u as [|b u IH]; intros k Hk; cbn [app].
  - intros [?|(k' & -> & _)]%sublist_cons_r; [done|]. destruct Hk. apply list_elem_of_here.
  - intros [H|(k' & -> & H)]%sublist_cons_r.
    + apply sublist_cons, IH; done.
    + apply sublist_skip, IH; [|done]. intros ?. by apply Hk, list_elem_of_further.
Qed.

(** In a schedule, nothing that runs before the first arrival conflicts with it. *)
Lemma not_before {A} (a b : A) u v :
  NoDup (u ++ a :: v) -> b ∈ u -> ~ before a b (u ++ a :: v).
Proof.
  intros Hnd Hb H. apply NoDup_app in Hnd as (_ & Hdis & _).
  apply sublist_app_r in H as (k1 & k2 & Hk & H1 & H2).
  destruct k1 as [|x k1]; simplify_eq/=.
  - apply (Hdis b Hb). eapply elem_of_sublist; [|exact H2].
    apply list_elem_of_further, list_elem_of_here.
  - apply (Hdis x); [|apply list_elem_of_here].
    eapply elem_of_sublist; [|exact H1]. apply list_elem_of_here.
Qed.

(** The order of two conflicting jobs is the order they arrived in. *)
Definition keeps_order (l l' : list (nat * act)) : Prop :=
  forall a b, before a b l -> conflict (act_span (snd a)) (act_span (snd b)) = true -> before a b l'.

Lemma schedule_acts l : forall l' s,
  NoDup l -> ready l s -> l' ≡ₚ l -> keeps_order l l' ->
  snd (run_acts l' s) ≡ₚ snd (run_acts l s) /\
  equiv_store (fst (run_acts l' s)) (fst (run_acts l s)).
Proof.
  induction l as [|a l IH]; intros l' s Hnd Hr Hp Ho.
  { apply Permutation_nil_r in Hp as ->. done. }
  destruct (list_elem_of_split l' a) as (u & v & ->).
  { rewrite Hp. apply list_elem_of_here. }
  assert (NoDup (u ++ a :: v)) as Hnd' by by rewrite Hp.
  assert (u ++ v ≡ₚ l) as Hp'.
  { apply (Permutation_cons_inv (a:=a)). by rewrite Permutation_middle. }
  assert (ready (u ++ a :: v) s) as Hr'.
  { eapply ready_sub; [|exact Hr]. intros x. by rewrite Hp. }
  destruct (move_front u a v s Hr') as [P1 E1].
  { intros b Hb. destruct (conflict _ _) eqn:Ec; [|done]. exfalso.
    apply (not_before a b u v Hnd' Hb), Ho; [|done]. apply sublist_skip, singleton_sublist_l.
    rewrite <- Hp'. apply elem_of_app. by left. }
  apply NoDup_cons in Hnd as [Ha Hnd].
  destruct (IH (u ++ v) (fst (run_act (snd a) s)) Hnd) as [P2 E2].
  { eapply ready_sub; [|apply (ready_step a _ s (list_elem_of_here _ _) Hr)].
    intros x Hx. by apply list_elem_of_further. }
  { done. }
  { intros x y Hxy Hc. apply (sublist_remove [x; y] u a v).
    - intros Hin. apply Ha. by eapply elem_of_sublist.
    - apply Ho; [|done]. by apply sublist_cons. }
  rewrite (run_acts_cons a) in P1, E1. rewrite (run_acts_cons a). cbn [fst snd] in *.
  split; [by rewrite P1, P2|].
  destruct E1 as [F1 G1], E2 as [F2 G2]. split; [by rewrite F1, F2|]. intros q. by rewrite G1, G2.
Qed.
End commute.

(** * Batches of requests *)

Section batches.
Context {UT : UnicodeTables} {S : Type} `{!Driver S} `{!FileStore S} (srv : Server) (t : handles).

(** The jobs of a batch of packets, each under the packet's label. *)
Definition batch_jobs (batch : list (nat * (Z * bytes))) : list (nat * job) :=
  omap (fun x => match prepare srv t (fst (snd x)) (snd (snd x)) with
                 | PJob j => Some (fst x, j)
                 | _ => None
                 end) batch.

(** The open files of the table are behind the paths they were opened at. *)
Definition files_behind (s : S) : Prop :=
  forall tok h f, t !! tok = Some h -> of_file h = Some f -> file_at s f = Some (of_path h).

(** A READ of a file that the batch also writes in place is inside the file. *)
Definition reads_inside (l : list (nat * job)) (s : S) : Prop :=
  forall r w p off n off' n' d, r ∈ l -> w ∈ l ->
    span (snd r) = ReadRange p off n -> span (snd w) = WriteRange p off' n' ->
    data_at s p = Some d -> off + n <= len d.

Definition label (x : nat * act) : nat * job := (fst x, act_job (snd x)).

Lemma prepare_act typ payload j s :
  table_wf t -> files_behind s -> prepare srv t typ payload = PJob j ->
  exists a, j = act_job a /\ act_ok a /\ bound s a.
Proof.
  intros Ht Hf. unfold prepare. repeat case_if; [| |done].
  - apply (decoded_spec (fun _ => DecodeRead) rr_wf rr_ID
      (fun x => x = PJob j -> exists a, j = act_job a /\ act_ok a /\ bound s a) 0); [done|].
    intros m Hm _ Hj. destruct (readJob srv t m) as [j'|] eqn:E; [|done]. injection Hj as ->.
    destruct (readJob_act srv t m j Hm E) as (h & n & Hh & Hn & ->).
    eexists. split; [done|]. destruct Hm as (_ & _ & Ho & _). split.
    + split; [exact Ho|]. split; [unfold u64|]; lia.
    + unfold bound; cbn [act_file act_path]. destruct (of_file h) eqn:Eh; [by eapply Hf|done].
  - apply (decoded_spec (fun _ => DecodeWrite) wr_wf wr_ID
      (fun x => x = PJob j -> exists a, j = act_job a /\ act_ok a /\ bound s a) 0); [done|].
    intros m (_ & _ & [Ho _] & _) _ Hj. destruct (writeJob srv t m) as [j'|] eqn:E; [|done].
    injection Hj as ->. destruct (writeJob_act srv t m j E) as (h & Hh & Hm & ->).
    eexists. split; [done|]. split; [done|].
    unfold bound; cbn [act_file act_path]. destruct (of_writable h) as [w|] eqn:Ew; [|done].
    destruct (table_wf_lookup _ _ _ Ht Hh) as [_ _ Hw _ _]. destruct (Hw w Ew) as (Hfw & _).
    by eapply Hf.
Qed.

(** The jobs of a batch, as what they do. *)
Lemma batch_acts batch s :
  table_wf t -> files_behind s ->
  exists l, map label l = batch_jobs batch /\
    (forall x, x ∈ l -> act_ok (snd x) /\ bound s (snd x)) /\
    map fst l `sublist_of` map fst batch.
Proof.
  intros Ht Hf. induction batch as [|[i [typ p]] batch (l & Hl & Ha & Hs)].
  { exists []. split_and!; [done| |done]. by intros x ?%elem_of_nil. }
  change (batch_jobs ((i, (typ, p)) :: batch)) with
    (match (match prepare srv t typ p with PJob j => Some (i, j) | _ => None end) with
     | Some y => y :: batch_jobs batch | None => batch_jobs batch end).
  destruct (prepare srv t typ p) as [j|r|] eqn:E.
  - destruct (prepare_act typ p j s Ht Hf E) as (a & -> & Ho & Hb).
    exists ((i, a) :: l). split_and!.
    + cbn [map]. by rewrite Hl.
    + intros x [->|Hx]%elem_of_cons; [done|by apply Ha].
    + by apply sublist_skip.
  - exists l. split_and!; [done|done|]. by apply sublist_cons.
  - exists l. split_and!; [done|done|]. by apply sublist_cons.
Qed.

Lemma sublist_label k l : k `sublist_of` l -> map label k `sublist_of` map label l.
Proof. induction 1; simpl; by constructor. Qed.

Lemma before_label a b l :
  NoDup (map fst l) -> a ∈ l -> b ∈ l -> before (label a) (label b) (map label l) -> before a b l.
Proof.
  intros Hnd Ha Hb. unfold before.
  assert (forall k, k `sublist_of` map label l -> exists k', k = map label k' /\ k' `sublist_of` l) as Hk.
  { clear. induction l as [|x l IH]; intros k Hk; simpl in Hk.
    - apply sublist_nil_r in Hk as ->. by exists [].
    - apply sublist_cons_r in Hk as [Hk|(k' & -> & Hk)].
      + destruct (IH _ Hk) as (k' & -> & ?). exists k'. split; [done|by apply sublist_cons].
      + destruct (IH _ Hk) as (k'' & -> & ?). exists (x :: k''). split; [done|by apply sublist_skip]. }
  intros H. destruct (Hk _ H) as (k' & Hk' & Hs).
  destruct k' as [|a' [|b' [|]]]; try done. injection Hk' as Ea _ Eb _.
  assert (forall x y, x ∈ l -> y ∈ l -> fst x = fst y -> x = y) as Hinj.
  { intros x y Hx Hy Hxy. apply list_elem_of_lookup in Hx as [i Hi], Hy as [k Hk2].
    assert (i = k) as ->; [|congruence]. eapply NoDup_lookup; [exact Hnd|..].
    - by rewrite list_lookup_fmap, Hi.
    - by rewrite list_lookup_fmap, Hk2, Hxy. }
  assert (a' ∈ l /\ b' ∈ l) as [Ha' Hb'].
  { split; (eapply elem_of_sublist; [|exact Hs]); [apply list_elem_of_here|].
    apply list_elem_of_further, list_elem_of_here. }
  by rewrite (Hinj a a'), (Hinj b b').
Qed.

(** Running READs and WRITEs concurrently changes nothing: for the requests
    between two barriers, over any store of files, every order that keeps
    conflicting jobs (overlapping ranges of one path, at least one a write; or a
    whole-file rewrite and anything on its path) in arrival order gives each
    request the reply it gets when they run one after the other as they arrived,
    and leaves every file with the same contents, provided the READs of files
    the batch writes in place are inside them. *)
Theorem concurrent_is_sequential batch l' s :
  table_wf t -> files_behind s -> NoDup (map fst batch) ->
  reads_inside (batch_jobs batch) s -> schedule (batch_jobs batch) l' ->
  snd (run_jobs l' s) ≡ₚ snd (run_jobs (batch_jobs batch) s) /\
  forall p, data_at (fst (run_jobs l' s)) p = data_at (fst (run_jobs (batch_jobs batch) s)) p.
Proof.
  intros Ht Hf Hnd Hin [Hp Ho]. destruct (batch_acts batch s Ht Hf) as (l & Hl & Ha & Hs).
  rewrite <- Hl in *. destruct (Permutation_map_inv _ _ Hp) as (k & -> & Hk).
  assert (NoDup (map fst l)) as Hndl by (by eapply sublist_NoDup).
  destruct (schedule_acts l k s) as [P E].
  - by eapply NoDup_fmap_1.
  - split; [done|]. intros x y Hx Hy Hxy Hi. destruct x as [i [id f p off n|]]; [|done].
    destruct y as [i' [|id' [w|] p' off' d']]; try done. intros d Hd. cbn [snd act_path] in *. subst p'.
    eapply (Hin (label (i, ARead id f p off n)) (label (i', AWrite id' (Some w) p off' d')));
      [by apply list_elem_of_fmap_2|by apply list_elem_of_fmap_2|done|done|done].
  - by symmetry.
  - intros a b Hab Hc. apply before_label; [by rewrite <- Hk| | |].
    + rewrite <- Hk. eapply elem_of_sublist; [|exact Hab]. apply list_elem_of_here.
    + rewrite <- Hk. eapply elem_of_sublist; [|exact Hab].
      apply list_elem_of_further, list_elem_of_here.
    + apply Ho; [|done]. by apply (sublist_label [a; b]).
  - split; [exact P|]. by destruct E.
Qed.
End batches.

(** * The concrete store *)

Lemma mem_pwrite_spliced old off data :
  0 <= off -> data <> [] -> mem_pwrite old off data = spliced old off data.
Proof.
  intros Ho Hn. apply list_eq. intros i. rewrite spliced_lookup by done.
  unfold mem_pwrite, pwrite_byte. set (o := Z.to_nat off).
  assert (0 < length data)%nat by (destruct data; simpl; (done || lia)).
  destruct (decide (i < o)%nat) as [Hi|Hi].
  - rewrite decide_False by lia. case_decide.
    + rewrite lookup_app_l by (rewrite length_take; lia). by rewrite lookup_take_lt.
    + rewrite lookup_app_r by (rewrite length_take; lia).
      rewrite lookup_app_l by (rewrite length_take, length_replicate; lia).
      apply lookup_replicate_2. rewrite length_take. lia.
  - rewrite lookup_app_r by (rewrite length_take; lia).
    rewrite lookup_app_r by (rewrite length_take, length_replicate; lia).
    rewrite length_take, length_replicate. case_decide.
    + rewrite lookup_app_l by lia. f_equal. lia.
    + rewrite lookup_app_r by lia. rewrite lookup_drop.
      replace (o + length data + (i - o `min` length old - (o - length old) - length data))%nat
        with i by lia.
      case_decide; [done|]. apply lookup_ge_None_2. lia.
Qed.

#[export] Program Instance MemDriver_FileStore : FileStore Mem := {|
  data_at s p := m_files s !! p;
  file_at s f := m_open s !! f_id f;
  readat_answer n off c :=
    match c with Some d => (pread d off n, None) | None => ([], Some not_found) end;
  no_file := not_found
|}.
Next Obligation.
  intros c s [Hc|[[p ->]|(f & n & off & ->)]]; [by destruct c|done|done].
Qed.
Next Obligation. done. Qed.
Next Obligation.
  intros s f p n off Hf. simpl. unfold mem_file. rewrite Hf. simpl. by destruct (m_files s !! p).
Qed.
Next Obligation. intros n off d1 d2 H. simpl. by rewrite H. Qed.
Next Obligation.
  intros s f p data off Ho Hf. cbn beta in Hf. unfold handle, MemDriver.
  unfold mem_update, mem_file. rewrite Hf. simpl.
  destruct (m_files s !! p) as [d|] eqn:E; simpl; (split_and!; [done|done|]); intros q.
  - destruct (decide (q = p)) as [->|Hq]; [rewrite lookup_insert_eq|by rewrite lookup_insert_ne].
    case_decide; [done|]. by rewrite mem_pwrite_spliced.
  - case_decide; [by subst|done].
Qed.
Next Obligation.
  intros s p data perm _. simpl. split_and!; [done|done|]. intros q.
  case_decide as Hq; [subst; apply lookup_insert_eq|by rewrite lookup_insert_ne].
Qed.

(** Jobs none of which conflict run in any order. *)
Lemma schedule_free l l' :
  ForallOrdPairs (fun a b => conflict (span (snd a)) (span (snd b)) = false) l ->
  l' ≡ₚ l -> schedule l l'.
Proof.
  intros Hf Hp. split; [done|]. clear Hp. intros a b Hab Hc. exfalso. unfold before in Hab.
  induction Hf as [|x l Hx Hl IH]; [by apply sublist_nil_r in Hab|].
  apply sublist_cons_r in Hab as [Hab|(k & Hk & Hab)]; [by apply IH|].
  injection Hk as -> <-. apply singleton_sublist_l in Hab.
  rewrite Forall_forall in Hx. by rewrite (Hx b Hab) in Hc.
Qed.

(** One file of the memory driver open for reading and writing, token ["h"], and
    a batch on it: two WRITEs side by side and a READ after them. *)
Definition inplace_file : File := {| f_id := 1; f_writable := true |}.

Definition inplace_table : handles :=
  {[ str "h" := {| of_path := str "/a"; of_dir := false; of_entries := []; of_pos := 0;
                   of_file := Some inplace_file; of_writable := Some inplace_file;
                   of_write := true |} ]}.

Definition inplace_mem : Mem :=
  {| m_files := {[ str "/a" := str "hello" ]}; m_dirs := [[slash]];
     m_open := {[ 1 := str "/a" ]}; m_next := 2; m_tokens := 0 |}.

Definition inplace_batch : list (nat * (Z * bytes)) :=
  [ (0%nat, (FxpWrite, payload_of {| wr_ID := 1; wr_Handle := str "h"; wr_Offset := 0;
                                     wr_Data := str "XY" |}));
    (1%nat, (FxpWrite, payload_of {| wr_ID := 2; wr_Handle := str "h"; wr_Offset := 2;
                                     wr_Data := str "Z" |}));
    (2%nat, (FxpRead, payload_of {| rr_ID := 3; rr_Handle := str "h"; rr_Offset := 3;
                                    rr_Length := 2 |})) ].

Lemma inplace_table_wf : table_wf inplace_table.
Proof.
  split; [vm_compute; done|]. apply map_Forall_singleton.
  split; simpl; [by eapply (clean_is_clean (str "/a"))|done| |done|done].
  by intros f [= <-].
Qed.

Lemma inplace_files_behind : files_behind inplace_table inplace_mem.
Proof.
  intros tok h f Ht Hf. unfold inplace_table in Ht. apply lookup_singleton_Some in Ht as [<- <-].
  injection Hf as <-. vm_compute. reflexivity.
Qed.

Lemma inplace_reads_inside :
  reads_inside (batch_jobs (UT:=ascii_tables) (demo_server false false) inplace_table inplace_batch)
    inplace_mem.
Proof.
  intros r w p off n off' n' d Hr _ Er _ Ed. set (l := batch_jobs _ _ _) in Hr.
  assert (Forall (fun r => match span (snd r) with
                           | ReadRange p off n =>
                               match m_files inplace_mem !! p with
                               | Some d => (off + n <=? len d) = true
                               | None => True
                               end
                           | _ => True
                           end) l) as H by (repeat constructor; vm_compute; reflexivity).
  rewrite Forall_forall in H. specialize (H r Hr). rewrite Er in H.
  change (m_files inplace_mem !! p = Some d) in Ed. rewrite Ed in H. by bool_prop.
Qed.

Lemma concurrent_is_sequential_witness :
  let l := batch_jobs (UT:=ascii_tables) (demo_server false false) inplace_table inplace_batch in
  length l = 3%nat /\
  snd (run_jobs (rev l) inplace_mem) ≡ₚ snd (run_jobs l inplace_mem) /\
  data_at (fst (run_jobs (rev l) inplace_mem)) (str "/a") = Some (str "XYZlo").
Proof.
  intros l. split; [vm_compute; reflexivity|].
  destruct (concurrent_is_sequential (UT:=ascii_tables) (demo_server false false) inplace_table
    inplace_batch (rev l) inplace_mem) as [Hr Hd].
  - exact inplace_table_wf.
  - exact inplace_files_behind.
  - apply (bool_decide_unpack (NoDup (map fst inplace_batch))). vm_compute. exact I.
  - exact inplace_reads_inside.
  - apply schedule_free; [|symmetry; apply Permutation_rev].
    repeat constructor; vm_compute; reflexivity.
  - split; [exact Hr|]. rewrite Hd. vm_compute. reflexivity.
Defined.

(** A WRITE past the end of the file and a READ in the gap it leaves: the ranges
    do not overlap. *)
Definition gap_batch : list (nat * (Z * bytes)) :=
  [ (0%nat, (FxpWrite, payload_of {| wr_ID := 1; wr_Handle := str "h"; wr_Offset := 8;
                                     wr_Data := str "Z" |}));
    (1%nat, (FxpRead, payload_of {| rr_ID := 2; rr_Handle := str "h"; rr_Offset := 5;
                                    rr_Length := 2 |})) ].

(** The condition on READs is needed. A READ past the end of a file and a
    WRITE further on have disjoint ranges, so the ordering rule lets either run
    first; the READ is answered with the zeros of the gap when it runs in
    arrival order and with end of file when it overtakes the WRITE. *)
Theorem read_past_end_depends_on_order :
  let l := batch_jobs (UT:=ascii_tables) (demo_server false false) inplace_table gap_batch in
  schedule l (rev l) /\
  (1%nat, RData {| dr_ID := 2; dr_Data := [x00; x00] |}) ∈ snd (run_jobs l inplace_mem) /\
  (1%nat, status 2 StatusEOF []) ∈ snd (run_jobs (rev l) inplace_mem).
Proof.
  intros l. split_and!.
  - apply schedule_free; [|symmetry; apply Permutation_rev].
    repeat constructor; vm_compute; reflexivity.
  - vm_compute. apply list_elem_of_further, list_elem_of_here.
  - vm_compute. apply list_elem_of_here.
Qed.
