(* ===== verification/Timer.v ===== *)
(** The clock on a packet: [armPacketTimer] and [giveUp] of [src/session.go], and
    the request loop of [run] with time in it.

    A client is a feed: the bytes it sends with the instants they arrive, and when
    and with what error the stream ends, if it does. A read that waits for bytes
    that never come on a stream that never ends does not return. The waits for a
    slot and the time requests take are arbitrary. [Session.loop] has no clock:
    the theorems show that a session with one is [loop] over what was heard of the
    client, and that the clock does what [WithPacketTimeout] promises. *)

From S2P Require Import Prelude Codec Const Attrs Messages Packet Errors Path Driver Server.
From S2P Require Import Handle Attr Ops CopyData Session OpsLaws SessionLaws ReplyLaws StreamLaws.
From S2P Require Import MemDriver.

(** * Streams in time *)

(** [s.rw]: whether its dynamic type has [SetReadDeadline] and [Close], each with
    what a pending read reports once it was called. *)
Record Stream := {
  rw_SetReadDeadline : option pkt_error;
  rw_Close : option pkt_error
}.

(** What the client sends, and when. *)
Record Feed := {
  arrivals : list (Z * byte);
  ends : option (Z * pkt_error)
}.

(** [giveUp]: what reads report afterwards; [None] when the stream has neither
    method and goes on. *)
Definition giveUp (rw : Stream) : option pkt_error :=
  match rw_SetReadDeadline rw with
  | Some e => Some e
  | None => match rw_Close rw with
            | Some e => Some e
            | None => None
            end
  end.

(** [armPacketTimer]: the instant [giveUp] is called unless stopped before. *)
Definition armPacketTimer (srv : Server) (now : Z) : option Z :=
  let d := packetTimeout srv in
  if d <=? 0 then None else Some (now + d).

(** When a stream whose clock was started is given up, and how reads then fail. *)
Definition given_up (rw : Stream) (timer : option Z) : option (Z * pkt_error) :=
  match timer, giveUp rw with
  | Some deadline, Some e => Some (deadline, e)
  | _, _ => None
  end.

Definition sooner (a b : option (Z * pkt_error)) : option (Z * pkt_error) :=
  match a, b with
  | None, x => x
  | x, None => x
  | Some (ta, _), Some (tb, _) => if ta <=? tb then a else b
  end.

(** The bytes that arrive before the stream is over. *)
Fixpoint before (over : Z) (l : list (Z * byte)) : list (Z * byte) :=
  match l with
  | [] => []
  | x :: l => if fst x <? over then x :: before over l else []
  end.

Definition heard (over : option (Z * pkt_error)) (l : list (Z * byte)) : list (Z * byte) :=
  match over with None => l | Some (t, _) => before t l end.

(** When the last of these bytes is there, for a reader that starts at [now]. *)
Definition arrived (l : list (Z * byte)) (now : Z) : Z :=
  fold_left (fun t x => Z.max t (fst x)) l now.

(** [io.ReadFull] in time, on a stream given up as [cut] says: the instant it
    returns, what the client has still to send, and its result; [None] when it
    never returns. *)
Definition TReadFull (n now : Z) (w : Feed) (cut : option (Z * pkt_error))
  : option (Z * Feed * outcome pkt_error bytes) :=
  let over := sooner (ends w) cut in
  let l := heard over (arrivals w) in
  if n <=? len l then
    let k := take (Z.to_nat n) l in
    Some (arrived k now, {| arrivals := drop (Z.to_nat n) (arrivals w); ends := ends w |},
          Ok (map snd k))
  else match over with
  | None => None
  | Some (t, e) =>
      Some (Z.max now t, {| arrivals := drop (length l) (arrivals w); ends := ends w |},
            Err (if 0 <? len l then match e with EOF => ErrUnexpectedEOF | e => e end else e))
  end.

Record TResult := {
  tr_time : Z;
  tr_feed : Feed;
  tr_cap : Z;
  tr_out : outcome pkt_error (Z * bytes)
}.

(** [wire.ReadPacket] in time. *)
Definition TReadPacket (now : Z) (w : Feed) (cut : option (Z * pkt_error)) (cap max : Z)
  : option TResult :=
  let max := if max <=? 0 then MaxPacket else max in
  match TReadFull 4 now w cut with
  | None => None
  | Some (now, w, hdr) =>
      let out cap r := Some {| tr_time := now; tr_feed := w; tr_cap := cap; tr_out := r |} in
      match hdr with
      | Err e => out cap (Err e)
      | Panic => out cap Panic
      | Ok hdr =>
          match BigEndian_Uint32 hdr with
          | Err e => out cap (Err e)
          | Panic => out cap Panic
          | Ok n =>
              if n =? 0 then out cap (Err ErrPacketEmpty)
              else if n >? max then out cap (Err ErrPacketTooLarge)
              else
                let cap := if cap <? n then n else cap in
                match TReadFull n now w cut with
                | None => None
                | Some (now, w, body) =>
                    Some {| tr_time := now; tr_feed := w; tr_cap := cap;
                            tr_out := match body with
                                      | Ok (b :: payload) => Ok (byte_val b, payload)
                                      | Err e => Err (if decide (e = EOF) then ErrUnexpectedEOF else e)
                                      | Ok [] | Panic => Panic
                                      end |}
                end
          end
      end
  end.

(** [br.Peek(1)]: the instant a byte is there, or the error of the stream. No clock
    runs: an idle session waits as long as it likes. *)
Definition TPeek (now : Z) (w : Feed) : option (Z * option pkt_error) :=
  match heard (ends w) (arrivals w) with
  | x :: _ => Some (Z.max now (fst x), None)
  | [] => match ends w with
          | Some (t, e) => Some (Z.max now t, Some e)
          | None => None
          end
  end.

(** * The request loop *)

(** How a session stands: over, waiting for the next packet with nothing held, or
    waiting for ever for the rest of one with a slot and a token held. *)
Inductive ending := Ended (err : option session_error) | Idle | Stuck | OutOfFuel.

Section loop.
Context {UT : UnicodeTables} (srv : Server) (rw : Stream).
(** The wait of the i-th [conn.Begin], and the time its request takes. *)
Context (begin_wait work : nat -> Z).

(** The loop of [run]: the replies, the time each packet's slot and token were
    held while it was read, and how it ended. *)
Fixpoint timed_loop (fuel i : nat) (now : Z) (w : Feed) (cap : Z) (t : handles)
  : prog (handles * list bytes * list (Z * Z) * ending) :=
  match TPeek now w with
  | None => mret (t, [], [], Idle)
  | Some (_, Some e) => mret (t, [], [], Ended (endOfInput e))
  | Some (now, None) =>
    match fuel with
    | O => mret (t, [], [], OutOfFuel)
    | S fuel =>
      let start := now + begin_wait i in
      match TReadPacket start w (given_up rw (armPacketTimer srv start)) cap (packetLimit srv) with
      | None => mret (t, [], [], Stuck)
      | Some res =>
          let held := (start, tr_time res) in
          match tr_out res with
          | Err e => mret (t, [], [held], Ended (endOfInput e))
          | Panic => mret (t, [], [held], Ended None)
          | Ok (typ, payload) =>
              x ← handle_request srv t typ payload;
              let '(t, reply) := x in
              match frame reply with
              | Ok out =>
                  y ← timed_loop fuel (S i) (tr_time res + work i) (tr_feed res) (tr_cap res) t;
                  let '(t, outs, holds, e) := y in
                  mret (t, out :: outs, held :: holds, e)
              | Err e => mret (t, [], [held], Ended (Some (SErrPacket e)))
              | Panic => mret (t, [], [held], Ended None)
              end
          end
      end
    end
  end.
End loop.
