(* ===== verification/TimerLaws.v ===== *)
(** The clock keeps its promise, and a session with a clock is a session without
    one over what was heard of the client ([src/session.go]). *)

From S2P Require Import Prelude Codec Const Attrs Messages Packet Errors Path Driver Server.
From S2P Require Import Handle Attr Ops CopyData Session OpsLaws SessionLaws ReplyLaws StreamLaws.
From S2P Require Import MemDriver Timer.

(** * What is heard *)

Lemma heard_prefix over l : heard over l `prefix_of` l.
Proof.
  destruct over as [[t e]|]; [|done]. simpl. induction l as [|x l IH]; simpl; [done|].
  destruct (_ <? _); [by apply prefix_cons|apply prefix_nil].
Qed.

Lemma map_prefix {A B} (f : A -> B) l1 l2 : l1 `prefix_of` l2 -> map f l1 `prefix_of` map f l2.
Proof. intros [k ->]. rewrite map_app. by apply prefix_app_r. Qed.

Lemma heard_split over l k l' : heard over l = k ++ l' -> exists l2, l = k ++ l2 /\ heard over l2 = l'.
Proof.
  destruct over as [[t e]|]; simpl; [|eauto]. revert l.
  induction k as [|x k IH]; intros l Hk; [by exists l|].
  destruct l as [|y l]; [done|]. simpl in Hk. destruct (fst y <? t); [|done].
  injection Hk as -> Hk. destruct (IH l Hk) as (l2 & -> & ?). by exists l2.
Qed.

(** The bytes heard before a deadline arrive before it. *)
Lemma heard_before t e l :
  Forall (fun x => fst x < t) (heard (Some (t, e)) l).
Proof.
  simpl. induction l as [|x l IH]; simpl; [done|]. destruct (_ <? _) eqn:E; [|done].
  constructor; [by bool_prop|done].
Qed.

Lemma arrived_mono l now : now <= arrived l now.
Proof.
  revert now. induction l as [|x l IH]; intros now; simpl; [lia|].
  specialize (IH (Z.max now (fst x))). unfold arrived in *. simpl. lia.
Qed.

Lemma arrived_before l now t : Forall (fun x => fst x < t) l -> now <= t -> arrived l now <= t.
Proof.
  intros Hl. revert now. induction Hl as [|x l Hx _ IH]; intros now Hn; [done|].
  unfold arrived in *. simpl. apply IH. lia.
Qed.

Lemma sooner_before a t e : exists t' e', sooner a (Some (t, e)) = Some (t', e') /\ t' <= t.
Proof.
  destruct a as [[ta ea]|]; simpl; [|eauto with lia].
  destruct (_ <=? _) eqn:E; bool_prop; eauto with lia.
Qed.

(** What is heard before the stream is given up is heard of the stream. *)
Lemma heard_sooner a b l k l' :
  l = k ++ l' -> heard (sooner a b) l = k ++ heard (sooner a b) l' -> heard a l = k ++ heard a l'.
Proof.
  intros -> Hk. destruct a as [[t e]|]; [|done].
  assert (Forall (fun x => fst x < t) k) as Hf.
  { assert (exists t' e', sooner (Some (t, e)) b = Some (t', e') /\ t' <= t) as (t' & e' & Hs & Ht).
    { destruct b as [[tb eb]|]; simpl; [|eauto with lia]. destruct (_ <=? _) eqn:E; bool_prop; eauto with lia. }
    rewrite Hs in Hk. pose proof (heard_before t' e' (k ++ l')) as Hb.
    rewrite Hk, Forall_app in Hb. eapply Forall_impl; [apply Hb|]. simpl. lia. }
  clear Hk. simpl. induction Hf as [|x k Hx _ IH]; [done|]. simpl.
  by rewrite (proj2 (Z.ltb_lt _ _) Hx), IH.
Qed.

(** * Reading *)

(** A read that gets its bytes, in terms of the untimed one. *)
Lemma TReadFull_ok n now w cut now' w' b :
  0 <= n -> TReadFull n now w cut = Some (now', w', Ok b) ->
  exists k, arrivals w = k ++ arrivals w' /\ ends w' = ends w /\ len k = n /\ b = map snd k /\
    now' = arrived k now /\
    heard (sooner (ends w) cut) (arrivals w) = k ++ heard (sooner (ends w) cut) (arrivals w').
Proof.
  intros Hn. unfold TReadFull. set (over := sooner _ _).
  destruct (n <=? _) eqn:E; bool_prop; [|by destruct over as [[??]|]].
  intros [= <- <- <-]. set (l := heard over (arrivals w)) in *.
  destruct (heard_split over (arrivals w) (take (Z.to_nat n) l) (drop (Z.to_nat n) l))
    as (l2 & Hl & Hh). { by rewrite take_drop. }
  assert (length (take (Z.to_nat n) l) = Z.to_nat n) as Hk
    by (unfold len in E; rewrite length_take; lia).
  assert (drop (Z.to_nat n) (arrivals w) = l2) as Hd.
  { rewrite Hl, drop_app_length' by done. done. }
  exists (take (Z.to_nat n) l). cbn [arrivals ends]. rewrite Hd.
  split_and!; [done|done|unfold len; lia|done|done|]. by rewrite Hh, take_drop.
Qed.

Lemma TReadFull_err n now w cut now' w' e :
  TReadFull n now w cut = Some (now', w', Err e) ->
  exists t f, sooner (ends w) cut = Some (t, f) /\ now' = Z.max now t /\
    let l := heard (Some (t, f)) (arrivals w) in
    len l < n /\ e = (if 0 <? len l then match f with EOF => ErrUnexpectedEOF | e => e end else f).
Proof.
  unfold TReadFull. destruct (n <=? _) eqn:E; bool_prop; [done|].
  destruct (sooner (ends w) cut) as [[t f]|]; [|done]. intros [= <- _ <-]. eauto 6.
Qed.

Lemma TReadFull_no_panic n now w cut now' w' : TReadFull n now w cut <> Some (now', w', Panic).
Proof.
  unfold TReadFull. destruct (_ <=? _); [done|]. by destruct (sooner _ _) as [[??]|].
Qed.

(** On a stream that will be given up a read returns by then. *)
Lemma TReadFull_in_time n now w t e :
  now <= t -> exists now' w' r, TReadFull n now w (Some (t, e)) = Some (now', w', r) /\
    now <= now' <= t.
Proof.
  intros Hn. unfold TReadFull.
  destruct (sooner_before (ends w) t e) as (t' & e' & -> & Ht).
  destruct (_ <=? _).
  - do 3 eexists. split; [done|]. split; [apply arrived_mono|]. apply arrived_before; [|done].
    apply Forall_take. eapply Forall_impl; [apply heard_before|]. simpl. lia.
  - do 3 eexists. split; [done|]. lia.
Qed.

Lemma len_map {A B} (f : A -> B) (l : list A) : len (map f l) = len l.
Proof. unfold len. by rewrite length_map. Qed.

Lemma ReadFull_take k a f n :
  len k = n -> ReadFull n {| avail := map snd k ++ a; fin := f |} =
  ({| avail := a; fin := f |}, Ok (map (snd (A:=Z) (B:=byte)) k)).
Proof. intros <-. rewrite <- (len_map (snd (A:=Z)) k). apply ReadFull_app. Qed.

Lemma hdr_value b : len b = 4 -> exists n, u32 n /\ BigEndian_Uint32 (E:=pkt_error) b = Ok n.
Proof.
  intros Hb. destruct b as [|b0 [|b1 [|b2 [|b3 [|]]]]]; try (unfold len in Hb; simpl in Hb; lia).
  destruct (be32_of_bytes (E:=pkt_error) b0 b1 b2 b3 []) as (n & Hn & He & _). eauto.
Qed.

Section packet.
Context (now : Z) (w : Feed) (cut : option (Z * pkt_error)) (cap max : Z).

(** A packet that is read whole is the one the untimed reader reads, whatever
    follows it. *)
Lemma TReadPacket_ok res q :
  TReadPacket now w cut cap max = Some res -> tr_out res = Ok q ->
  exists k, arrivals w = k ++ arrivals (tr_feed res) /\ ends (tr_feed res) = ends w /\ k <> [] /\
    heard (ends w) (arrivals w) = k ++ heard (ends w) (arrivals (tr_feed res)) /\
    forall a f, ReadPacket {| avail := map snd k ++ a; fin := f |} cap max =
      {| rp_stream := {| avail := a; fin := f |}; rp_cap := tr_cap res; rp_out := Ok q |}.
Proof.
  unfold TReadPacket. destruct (TReadFull 4 now w cut) as [[[t1 w1] [hdr|e|]]|] eqn:E1; try done.
  2,3: by intros [= <-].
  apply TReadFull_ok in E1 as (k1 & Ha1 & He1 & Hk1 & -> & _ & Hh1); [|lia].
  destruct (hdr_value (map snd k1)) as (n & Hn & Hv); [by rewrite len_map|]. rewrite Hv.
  destruct (n =? 0) eqn:E0; [by intros [= <-]|].
  destruct (n >? _) eqn:Em; [by intros [= <-]|].
  destruct (TReadFull n t1 w1 cut) as [[[t2 w2] [body|e|]]|] eqn:E2; try done; intros [= <-]; try done.
  apply TReadFull_ok in E2 as (k2 & Ha2 & He2 & Hk2 & -> & _ & Hh2); [|by destruct Hn].
  rewrite He1 in Hh2. apply heard_sooner in Hh1, Hh2; [|done..].
  cbn [tr_out tr_feed tr_cap]. intros Hq. exists (k1 ++ k2).
  split_and!; [by rewrite Ha1, Ha2, app_assoc|congruence| | |].
  { intros [-> _]%app_nil. done. }
  { by rewrite Hh1, Hh2, app_assoc. }
  intros a f. unfold ReadPacket. rewrite map_app, <- app_assoc, ReadFull_take by done.
  rewrite Hv, E0, Em, ReadFull_take by done. cbv zeta.
  destruct (map snd k2) as [|b p]; [done|]. by injection Hq as <-.
Qed.

(** One that is not ends as the untimed reader does on what was heard; once a byte
    of it was there, never as a clean end of stream. *)
Lemma TReadPacket_err res e :
  TReadPacket now w cut cap max = Some res -> tr_out res = Err e ->
  let l := heard (sooner (ends w) cut) (arrivals w) in
  (exists f, rp_out (ReadPacket {| avail := map snd l; fin := f |} cap max) = Err e) /\
  (l <> [] -> e <> EOF).
Proof.
  intros Hr Ho l. unfold TReadPacket in Hr.
  destruct (TReadFull 4 now w cut) as [[[t1 w1] [hdr|e1|]]|] eqn:E1; try done.
  2: { injection Hr as <-. injection Ho as <-.
    apply TReadFull_err in E1 as (t & f & Hs & _ & Hl & ->). unfold l. rewrite Hs.
    split.
    - exists f. unfold ReadPacket. rewrite ReadFull_short by (cbn [avail]; by rewrite len_map).
      cbn [avail fin rp_out]. rewrite len_map. by destruct f.
    - intros Hne. destruct (0 <? len _) eqn:E; [by destruct f|]. bool_prop.
      destruct Hne. apply len_zero. pose proof (len_nonneg (heard (Some (t, f)) (arrivals w))). lia. }
  2: { by injection Hr as <-. }
  apply TReadFull_ok in E1 as (k1 & Ha1 & He1 & Hk1 & -> & _ & Hh); [|lia].
  destruct (hdr_value (map snd k1)) as (n & Hn & Hv); [by rewrite len_map|]. rewrite Hv in Hr.
  assert (forall f, ReadFull 4 {| avail := map snd l; fin := f |} =
    ({| avail := map snd (heard (sooner (ends w) cut) (arrivals w1)); fin := f |},
     Ok (map snd k1))) as H4.
  { intros f. unfold l. rewrite Hh, map_app. by apply ReadFull_take. }
  destruct (n =? 0) eqn:E0.
  { injection Hr as <-. injection Ho as <-. split; [|done]. exists EOF.
    unfold ReadPacket. by rewrite H4, Hv, E0. }
  destruct (n >? _) eqn:Em.
  { injection Hr as <-. injection Ho as <-. split; [|done]. exists EOF.
    unfold ReadPacket. by rewrite H4, Hv, E0, Em. }
  destruct (TReadFull n t1 w1 cut) as [[[t2 w2] [body|e2|]]|] eqn:E2; try done.
  - injection Hr as <-. by destruct body.
  - injection Hr as <-. injection Ho as <-.
    apply TReadFull_err in E2 as (t & f & Hs & _ & Hl & ->). split; [|by case_decide].
    exists f. unfold ReadPacket. rewrite H4, Hv, E0, Em.
    rewrite He1 in Hs. rewrite Hs. rewrite ReadFull_short by (cbn [avail]; by rewrite len_map).
    cbv zeta. cbn [avail fin rp_out]. rewrite len_map. by destruct f.
  - by injection Hr as <-.
Qed.

Lemma TReadPacket_no_panic res : TReadPacket now w cut cap max = Some res -> tr_out res <> Panic.
Proof.
  unfold TReadPacket. destruct (TReadFull 4 now w cut) as [[[t1 w1] [hdr|e1|]]|] eqn:E1; try done.
  2: by intros [= <-].
  2: by apply TReadFull_no_panic in E1.
  apply TReadFull_ok in E1 as (k1 & _ & _ & Hk1 & -> & _); [|lia].
  destruct (hdr_value (map snd k1)) as (n & [Hn _] & ->); [by rewrite len_map|].
  destruct (n =? 0) eqn:E0; [by intros [= <-]|]. destruct (n >? _); [by intros [= <-]|].
  destruct (TReadFull n t1 w1 cut) as [[[t2 w2] [body|e2|]]|] eqn:E2; try done; intros [= <-]; try done.
  - apply TReadFull_ok in E2 as (k2 & _ & _ & Hk2 & -> & _); [|done].
    destruct k2; [|done]. bool_prop. rewrite len_nil in Hk2. lia.
  - by apply TReadFull_no_panic in E2.
Qed.
End packet.

(** On a stream that will be given up, a packet is read or refused by then. *)
Lemma TReadPacket_in_time now w t e cap max :
  now <= t -> exists res, TReadPacket now w (Some (t, e)) cap max = Some res /\
    now <= tr_time res <= t.
Proof.
  intros Hn. unfold TReadPacket.
  destruct (TReadFull_in_time 4 now w t e Hn) as (t1 & w1 & hdr & -> & H1).
  destruct hdr as [hdr|e1|]; try (by eexists).
  destruct (BigEndian_Uint32 hdr) as [n|e1|]; try (by eexists).
  destruct (n =? 0); [by eexists|]. destruct (n >? _); [by eexists|].
  destruct (TReadFull_in_time n t1 w1 t e) as (t2 & w2 & body & -> & H2); [lia|].
  eexists. split; [done|]. cbn [tr_time]. lia.
Qed.

(** * Sessions *)

Lemma wp_any {A} (p : prog A) (Q : A -> Prop) :
  (forall a, Q a) -> wp anything (fun _ => True) p Q.
Proof. intros HQ. induction p as [a|c k IH]; simpl; [done|]. split; [done|]. auto. Qed.

Section session.
Context {UT : UnicodeTables} (srv : Server) (rw : Stream) (begin_wait work : nat -> Z).

#[local] Abbreviation timed := (timed_loop srv rw begin_wait work).

(** Each packet's slot and token were held no longer than the clock allows. *)
Definition held_in_time (holds : list (Z * Z)) : Prop :=
  Forall (fun h => fst h <= snd h <= fst h + packetTimeout srv) holds.

Lemma TPeek_nil now w : arrivals w = [] -> exists x, TPeek now w = x /\
  (x = None \/ exists t e, x = Some (t, Some e)).
Proof.
  intros Hw. eexists. split; [done|]. unfold TPeek. rewrite Hw.
  destruct (ends w) as [[t e]|]; simpl; eauto.
Qed.

(** What a session with a working clock leaves. *)
Definition timely (x : handles * list bytes * list (Z * Z) * ending) : Prop :=
  held_in_time (snd (fst x)) /\ snd x <> Stuck /\ snd x <> OutOfFuel.

Lemma timed_loop_timely fuel i now w cap t e :
  giveUp rw = Some e -> 0 < packetTimeout srv -> (length (arrivals w) <= fuel)%nat ->
  wp anything (fun _ => True) (timed fuel i now w cap t) timely.
Proof.
  intros Hg Hd. revert i now w cap t. induction fuel as [|fuel IH]; intros i now w cap t Hf;
    cbn [timed_loop].
  { destruct (TPeek_nil now w) as (x & -> & [->|(? & ? & ->)]); [|apply wp_ret; by split_and!; [constructor|..]..].
    by destruct (arrivals w); [|simpl in Hf; lia]. }
  destruct (TPeek now w) as [[now' [e'|]]|]; [by apply wp_ret; split_and!; [constructor|..]| |
    by apply wp_ret; split_and!; [constructor|..]].
  unfold armPacketTimer. rewrite (proj2 (Z.leb_gt _ _)) by lia. unfold given_up. rewrite Hg.
  set (start := now' + begin_wait i).
  destruct (TReadPacket_in_time start w (start + packetTimeout srv) e cap (packetLimit srv))
    as (res & Hres & Ht); [lia|].
  rewrite Hres. set (h := (start, tr_time res)).
  assert (forall holds, held_in_time holds -> held_in_time (h :: holds)) as Hh
    by (intros; by constructor).
  assert (held_in_time []) as Hn by constructor.
  destruct (tr_out res) as [[typ payload]|e'|] eqn:Eo; [|by apply wp_ret; split_and!; [apply Hh|..]..].
  apply TReadPacket_ok with (q := (typ, payload)) in Hres as (k & Ha & _ & Hk & _ & _); [|done].
  assert (length (arrivals (tr_feed res)) <= fuel)%nat as Hf'.
  { rewrite Ha, length_app in Hf. destruct k; [done|simpl in Hf; lia]. }
  apply wp_bind, wp_any. intros [t' reply].
  destruct (frame reply) as [out|e'|]; [|by apply wp_ret; split_and!; [apply Hh|..]..].
  apply wp_bind. eapply wp_mono; [by apply IH|].
  intros [[[t'' outs] holds] en] (H1 & H2 & H3). by split_and!; [apply Hh|..].
Qed.

Context {S : Type} `{!Driver S}.

(** The clock keeps its promise. On a stream that has a read deadline or can be
    closed, with the timeout not disabled, no client holds a slot and a token of
    the server-wide budget longer than the timeout by sending part of a packet:
    the loop is never stuck inside one, and every packet is read, or its session
    ended, within the timeout of its slot being taken. It does not run out of
    fuel, so it ends, or waits between packets with nothing held. *)
Theorem packet_wait_bounded i now w cap t e s :
  giveUp rw = Some e -> 0 < packetTimeout srv ->
  let '(_, _, holds, en) := snd (exec (timed (length (arrivals w)) i now w cap t) s) in
  Forall (fun h => fst h <= snd h <= fst h + packetTimeout srv) holds /\
  (en = Idle \/ exists err, en = Ended err).
Proof.
  intros Hg Hd.
  destruct (wp_adequate anything _ _ _ s
    (timed_loop_timely (length (arrivals w)) i now w cap t e Hg Hd (Nat.le_refl _))) as [_ (H1 & H2 & H3)].
  destruct (snd (exec _ s)) as [[[t' outs] holds] en]. cbn [fst snd] in *. split; [done|].
  destruct en; eauto; done.
Qed.

(** [loop] over [r] does what the timed loop did, and a clean end is the client's. *)
Definition runs_as (w : Feed) (r : Reader) (fuel : nat) (cap : Z) (t : handles) (s : S)
    (x : S * (handles * list bytes * list (Z * Z) * ending)) : Prop :=
  let '(s', (t', outs, _, en)) := x in
  avail r `prefix_of` map snd (arrivals w) /\
  exists err, exec (loop srv fuel r cap t) s = (s', (t', outs, err)) /\
    forall e, en = Ended e -> e = err /\
      (e = None -> (exists te, ends w = Some (te, EOF)) /\
                   avail r = map snd (heard (ends w) (arrivals w))).

(** A byte that is there when the clock starts is heard. *)
Lemma first_heard i now now' w :
  (forall j, 0 <= begin_wait j) -> TPeek now w = Some (now', None) ->
  let start := now' + begin_wait i in
  heard (sooner (ends w) (given_up rw (armPacketTimer srv start))) (arrivals w) <> [].
Proof.
  intros Hb Hp start. unfold TPeek in Hp. specialize (Hb i).
  destruct (heard (ends w) (arrivals w)) as [|x l] eqn:Eh; [by destruct (ends w) as [[??]|]|].
  injection Hp as <-. destruct (heard_split (ends w) (arrivals w) [x] l Eh) as (l2 & Hl & _).
  rewrite Hl in *. unfold given_up, armPacketTimer.
  assert (forall t e, sooner (ends w) (Some (t, e)) = Some (t, e) \/
    sooner (ends w) (Some (t, e)) = ends w) as Hs.
  { intros t e. destruct (ends w) as [[te ee]|]; simpl; [|by left]. destruct (_ <=? _); auto. }
  assert (sooner (ends w) None = ends w) as Hn by by destruct (ends w) as [[??]|].
  destruct (_ <=? 0) eqn:Ed; [by rewrite Hn, Eh|]. destruct (giveUp rw) as [e|]; [|by rewrite Hn, Eh].
  destruct (Hs (start + packetTimeout srv) e) as [->| ->]; [|by rewrite Eh].
  simpl. bool_prop. rewrite (proj2 (Z.ltb_lt _ _)) by (unfold start; lia). done.
Qed.

Lemma runs_as_end w r fuel cap t s outs holds en err :
  avail r `prefix_of` map snd (arrivals w) ->
  exec (loop srv fuel r cap t) s = (s, (t, outs, err)) ->
  (forall e, en = Ended e -> e = err /\ (e = None -> (exists te, ends w = Some (te, EOF)) /\
     avail r = map snd (heard (ends w) (arrivals w)))) ->
  runs_as w r fuel cap t s (s, (t, outs, holds, en)).
Proof. intros Hp He Hen. split; [done|]. eauto. Qed.

Lemma loop_empty fuel f cap t : loop srv fuel {| avail := []; fin := f |} cap t = mret (t, [], endOfInput f).
Proof. by destruct fuel. Qed.

Lemma endOfInput_None e : endOfInput e = None -> e = EOF.
Proof. unfold endOfInput. by case_decide. Qed.

(** The stream is over before the next packet. *)
Lemma runs_as_over fuel now now' w cap t s e :
  TPeek now w = Some (now', Some e) ->
  runs_as w {| avail := []; fin := e |} fuel cap t s (s, (t, [], [], Ended (endOfInput e))).
Proof.
  intros Ep. apply (runs_as_end _ _ _ _ _ _ _ _ _ (endOfInput e)); [apply prefix_nil|by rewrite loop_empty|].
  intros ? [= <-]. split; [done|]. intros ->%endOfInput_None. unfold TPeek in Ep.
  destruct (heard _ _); [|done]. destruct (ends w) as [[te ee]|]; [|done].
  injection Ep as _ ->. eauto.
Qed.

(** Nothing more is read, and the session is not over. *)
Lemma runs_as_silent fuel w cap t s en :
  (forall e, en <> Ended e) ->
  runs_as w {| avail := []; fin := EOF |} fuel cap t s (s, (t, [], [], en)).
Proof.
  intros Hen. apply (runs_as_end _ _ _ _ _ _ _ _ _ None); [apply prefix_nil|by rewrite loop_empty|].
  by intros e ?%Hen.
Qed.

(** The next packet could not be read. *)
Lemma runs_as_cut fuel start w cut cap t s res e :
  TReadPacket start w cut cap (packetLimit srv) = Some res -> tr_out res = Err e ->
  heard (sooner (ends w) cut) (arrivals w) <> [] ->
  exists r, runs_as w r (Datatypes.S fuel) cap t s
    (s, (t, [], [(start, tr_time res)], Ended (endOfInput e))).
Proof.
  intros Er Eo Hfirst. destruct (TReadPacket_err _ _ _ _ _ _ _ Er Eo) as [[f Hr] Hne].
  specialize (Hne Hfirst). set (l := heard _ _) in *. exists {| avail := map snd l; fin := f |}.
  apply (runs_as_end _ _ _ _ _ _ _ _ _ (endOfInput e)).
  - apply map_prefix, heard_prefix.
  - cbn [loop avail]. rewrite Hr. by destruct l.
  - intros ? [= <-]. split; [done|]. by intros ?%endOfInput_None.
Qed.

(** The loop, after the packet [k]. *)
Lemma loop_packet fuel k r cap cap' t s typ payload s1 t1 reply :
  k <> [] ->
  (forall a f, ReadPacket {| avail := k ++ a; fin := f |} cap (packetLimit srv) =
     {| rp_stream := {| avail := a; fin := f |}; rp_cap := cap'; rp_out := Ok (typ, payload) |}) ->
  exec (handle_request srv t typ payload) s = (s1, (t1, reply)) ->
  exec (loop srv (Datatypes.S fuel) {| avail := k ++ avail r; fin := fin r |} cap t) s =
  match frame reply with
  | Ok out => let '(s', (t', outs, err)) := exec (loop srv fuel r cap' t1) s1 in
              (s', (t', out :: outs, err))
  | Err e => (s1, (t1, [], Some (SErrPacket e)))
  | Panic => (s1, (t1, [], None))
  end.
Proof.
  intros Hk Hr Eq. cbn [loop avail]. destruct (k ++ avail r) as [|b a] eqn:Em.
  { by apply app_nil in Em as [? _]. }
  rewrite <- Em, Hr. cbn [rp_out rp_stream rp_cap]. rewrite exec_bind, Eq.
  destruct (frame reply); [|done..]. rewrite exec_bind. destruct r as [a' f']; cbn [avail fin].
  by destruct (exec _ s1) as [s2 [[t2 outs] err]].
Qed.

Lemma timed_loop_untimed fuel i now w cap t s :
  (forall j, 0 <= begin_wait j) -> (length (arrivals w) <= fuel)%nat ->
  exists r, runs_as w r fuel cap t s (exec (timed fuel i now w cap t) s).
Proof.
  intros Hb. revert i now w cap t s.
  induction fuel as [|fuel IH]; intros i now w cap t s Hf; cbn [timed_loop];
    destruct (TPeek now w) as [[now' [e|]]|] eqn:Ep;
    try (eexists; by eapply runs_as_over); try (eexists; by apply runs_as_silent).
  set (start := now' + begin_wait i). pose proof (first_heard i now now' w Hb Ep) as Hfirst.
  destruct (TReadPacket _ _ _ _ _) as [res|] eqn:Er; [|eexists; by apply runs_as_silent].
  pose proof (TReadPacket_no_panic _ _ _ _ _ _ Er) as Hnp.
  destruct (tr_out res) as [[typ payload]|e|] eqn:Eo; [|by eapply runs_as_cut|done].
  destruct (TReadPacket_ok _ _ _ _ _ _ _ Er Eo) as (k & Ha & He & Hk & Hh & Hr).
  assert (length (arrivals (tr_feed res)) <= fuel)%nat as Hf'.
  { rewrite Ha, length_app in Hf. destruct k; [done|simpl in Hf; lia]. }
  rewrite exec_bind. destruct (exec (handle_request srv t typ payload) s) as [s1 [t1 reply]] eqn:Eq.
  assert (map snd k <> []) as Hk' by by destruct k.
  pose proof (fun r => loop_packet fuel (map snd k) r cap _ t s _ _ s1 t1 reply Hk' Hr Eq) as Hloop.
  assert (forall a, a `prefix_of` map snd (arrivals (tr_feed res)) ->
    map snd k ++ a `prefix_of` map snd (arrivals w)) as Hpre.
  { intros a Hp. rewrite Ha, map_app. by apply prefix_app. }
  destruct (frame reply) as [out|e|] eqn:Ef.
  - rewrite exec_bind. destruct (IH (Datatypes.S i) (tr_time res + work i) (tr_feed res) (tr_cap res) t1 s1 Hf')
      as [r Hruns].
    destruct (exec _ s1) as [s2 [[[t2 outs] holds] en]]. destruct Hruns as (Hp & err & Hl & Hen).
    exists {| avail := map snd k ++ avail r; fin := fin r |}. split; [by apply Hpre|].
    exists err. rewrite Hloop, Hl. split; [done|]. intros e Ee.
    destruct (Hen e Ee) as [-> Hc]. split; [done|]. intros [[te Hte] Hav]%Hc.
    rewrite He in Hte, Hav. cbn [avail]. split; [by exists te|]. by rewrite Hav, Hh, map_app.
  - exists {| avail := map snd k ++ []; fin := EOF |}. split; [apply Hpre, prefix_nil|].
    exists (Some (SErrPacket e)). split; [apply (Hloop {| avail := []; fin := EOF |})|].
    by intros ? [= <-].
  - unfold frame in Ef. by destruct (Send _ _ _ _) as [[??] [?|]].
Qed.

(** A session with a clock is a session without one. Whatever the client sends
    and whenever, however long requests take and wait for their slots, and
    whatever the clock cuts: the replies, the handle table and the calls' effect
    on the driver are those of the untimed loop over a prefix of what the client
    sent, and so is the error it ends with. A session ends without error only
    when the client closed the stream between packets, with all it sent answered:
    a stream the server gave up on is never taken for a goodbye. *)
Theorem timed_session_is_untimed i now w cap t s :
  (forall j, 0 <= begin_wait j) ->
  let '(s', (t', outs, _, en)) := exec (timed (length (arrivals w)) i now w cap t) s in
  exists r err,
    avail r `prefix_of` map snd (arrivals w) /\
    exec (loop srv (length (avail r)) r cap t) s = (s', (t', outs, err)) /\
    forall e, en = Ended e -> e = err /\
      (e = None -> (exists te, ends w = Some (te, EOF)) /\
                   avail r = map snd (heard (ends w) (arrivals w))).
Proof.
  intros Hb. destruct (timed_loop_untimed (length (arrivals w)) i now w cap t s Hb) as [r Hr]; [done|].
  destruct (exec _ s) as [s' [[[t' outs] holds] en]]. destruct Hr as (Hp & err & Hl & Hen).
  exists r, err. split; [done|]. split; [|done]. rewrite <- Hl. apply loop_fuel_irrelevant; [done|].
  apply prefix_length in Hp. by rewrite length_map in Hp.
Qed.
End session.

(** * A client that stops *)

(** The bytes of a packet, one every ten nanoseconds. *)
Definition paced (from : Z) (b : bytes) : list (Z * byte) :=
  snd (fold_left (fun x c => (fst x + 10, snd x ++ [(fst x, c)])) b (from, [])).

(** A STAT, then half of another; then silence. *)
Definition stalled : Feed :=
  let p := frame_bytes FxpStat (payload_of {| pr_PacketType := FxpStat; pr_ID := 9; pr_Path := str "/a" |}) in
  {| arrivals := paced 100 (p ++ take 6 p); ends := None |}.

(** An SSH channel, which can be closed, and a stream that cannot be interrupted. *)
Definition channel : Stream := {| rw_SetReadDeadline := None; rw_Close := Some EOF |}.
Definition pipe : Stream := {| rw_SetReadDeadline := None; rw_Close := None |}.

Definition stalled_run (rw : Stream) : Mem * (handles * list bytes * list (Z * Z) * ending) :=
  exec (timed_loop (UT:=ascii_tables) (demo_server true true) rw (fun _ => 0) (fun _ => 5)
          (length (arrivals stalled)) 0 0 stalled 0 newHandles) demo_mem.

Lemma packet_wait_bounded_witness :
  snd (snd (stalled_run channel)) = Ended (Some (SErrPacket ErrUnexpectedEOF)) /\
  Forall (fun h => fst h <= snd h <= fst h + DefaultPacketTimeout) (snd (fst (snd (stalled_run channel)))).
Proof.
  split; [vm_compute; reflexivity|].
  pose proof (packet_wait_bounded (UT:=ascii_tables) (demo_server true true) channel (fun _ => 0)
    (fun _ => 5) 0 0 stalled 0 newHandles EOF demo_mem eq_refl ltac:(vm_compute; reflexivity)) as H.
  unfold stalled_run. destruct (exec _ demo_mem) as [s' [[[t' outs] holds] en]].
  exact (proj1 H).
Defined.

(** Without a way to interrupt the stream the slot and the token are held for ever,
    as the documentation of [WithPacketTimeout] says. *)
Example pipe_stuck : snd (snd (stalled_run pipe)) = Stuck.
Proof. vm_compute. reflexivity. Qed.

Lemma timed_session_is_untimed_witness :
  exists r, avail r `prefix_of` map snd (arrivals stalled) /\
    snd (snd (exec (loop (UT:=ascii_tables) (demo_server true true) (length (avail r)) r 0 newHandles)
      demo_mem)) = Some (SErrPacket ErrUnexpectedEOF).
Proof.
  pose proof (timed_session_is_untimed (UT:=ascii_tables) (demo_server true true) channel (fun _ => 0)
    (fun _ => 5) 0 0 stalled 0 newHandles demo_mem (fun _ => Z.le_refl 0)) as H.
  assert (snd (snd (stalled_run channel)) = Ended (Some (SErrPacket ErrUnexpectedEOF))) as He
    by (vm_compute; reflexivity).
  unfold stalled_run in He.
  destruct (exec (timed_loop _ _ _ _ _ _ _ _ _ _) demo_mem) as [s' [[[t' outs] holds] en]].
  destruct H as (r & err & Hp & Hl & Hen). exists r. split; [exact Hp|]. rewrite Hl.
  destruct (Hen _ He) as [<- _]. reflexivity.
Defined.
