(* ===== verification/TimedServe.v ===== *)
(** A whole conversation in time: [Serve] of [src/server.go] with [negotiate] and
    [run] of [src/session.go], over a client that sends bytes at given instants.

    [Timer] has the request loop with its clock. Here it follows version
    negotiation, which has none: [negotiate] reads the INIT packet without
    [armPacketTimer]. *)

From S2P Require Import Prelude Codec Const Attrs Messages Packet Errors Path Driver Server.
From S2P Require Import Handle Attr Ops CopyData Session OpsLaws SessionLaws ReplyLaws StreamLaws.
From S2P Require Import MemDriver Timer TimerLaws.

(** How [Serve] stands: returned, or waiting for ever: for the INIT packet, for the
    next packet, or for the rest of one. *)
Inductive serve_ending :=
| Returns (err : option session_error)
| WaitsForInit | WaitsIdle | WaitsInPacket.

Section serve.
Context {UT : UnicodeTables} (srv : Server) (rw : Stream) (begin_wait work : nat -> Z).

(** What [negotiate] makes of the first packet, on a stream that takes its writes. *)
Definition greeted (first : outcome pkt_error (Z * bytes)) : list bytes * option session_error :=
  match first with
  | Err e => ([], Some (SErrPacket e))
  | Panic => ([], Some ErrNoInit)
  | Ok (typ, payload) =>
      if negb (typ =? FxpInit) then ([], Some ErrNoInit)
      else match DecodeInit payload with
      | Err e => ([], Some (SErrWire e))
      | Panic => ([], Some ErrNoInit)
      | Ok init =>
          if init_Version init <? Version then ([], Some ErrVersion)
          else
            let '(w, _, err) := Send (fun p w => (w ++ [p], None)) []
                                  {| vr_Version := Version; vr_Extensions := extensions srv |} [] in
            (w, SErrPacket <$> err)
      end
  end.

(** [negotiate] in time: no clock runs. *)
Definition timed_negotiate (now : Z) (w : Feed) : option (Z * Feed * list bytes * option session_error) :=
  match TReadPacket now w None 0 (packetLimit srv) with
  | None => None
  | Some res => let '(out, err) := greeted (tr_out res) in Some (tr_time res, tr_feed res, out, err)
  end.

(** [Serve(rw)] in time. A session that has not returned has closed nothing. *)
Definition timed_Serve (NewConn : Z -> option session_error) (now : Z) (w : Feed)
    (order : handles -> list (bytes * openFile))
  : prog (handles * list bytes * list (Z * Z) * serve_ending) :=
  match NewConn (serveSlots srv) with
  | Some e => mret (newHandles, [], [], Returns (Some e))
  | None =>
      match timed_negotiate now w with
      | None => mret (newHandles, [], [], WaitsForInit)
      | Some (_, _, out, Some e) =>
          y ← closeAll (order newHandles) newHandles None; mret (fst y, out, [], Returns (Some e))
      | Some (now, w, out, None) =>
          x ← timed_loop srv rw begin_wait work (length (arrivals w)) 0 now w 0 newHandles;
          let '(t, outs, holds, en) := x in
          match en with
          | Ended err => y ← closeAll (order t) t None; mret (fst y, out ++ outs, holds, Returns err)
          | Idle => mret (t, out ++ outs, holds, WaitsIdle)
          | Stuck | OutOfFuel => mret (t, out ++ outs, holds, WaitsInPacket)
          end
      end
  end.

Lemma negotiate_greeted r :
  negotiate srv (fun p w => (w ++ [p], None)) r [] =
  let res := ReadPacket r 0 (packetLimit srv) in
  (rp_stream res, fst (greeted (rp_out res)), snd (greeted (rp_out res))).
Proof.
  unfold negotiate, greeted. cbv zeta. destruct (rp_out _) as [[typ payload]|e|]; try done.
  destruct (negb _); [done|]. destruct (DecodeInit payload) as [init|e|]; try done.
  destruct (_ <? _); [done|]. by destruct (Send _ [] _ []) as [[w b] err].
Qed.

Context {S : Type} `{!Driver S}.

(** A first packet that ends the session ends it without the clock. *)
Lemma refused_serves_as now w res e :
  TReadPacket now w None 0 (packetLimit srv) = Some res ->
  snd (greeted (tr_out res)) = Some e ->
  exists r, avail r `prefix_of` map snd (arrivals w) /\
    negotiate srv (fun p w => (w ++ [p], None)) r [] =
      (rp_stream (ReadPacket r 0 (packetLimit srv)), fst (greeted (tr_out res)), Some e).
Proof.
  intros Hr He. pose proof (TReadPacket_no_panic _ _ _ _ _ _ Hr) as Hp.
  destruct (tr_out res) as [q|e'|] eqn:Eo; [| |done].
  - destruct (TReadPacket_ok _ _ _ _ _ _ _ Hr Eo) as (k & Ha & _ & _ & _ & Hrp).
    exists {| avail := map snd k ++ []; fin := EOF |}. split.
    + cbn [avail]. rewrite app_nil_r, Ha, map_app. by apply prefix_app_r.
    + rewrite negotiate_greeted, Hrp. cbv zeta. cbn [rp_out rp_stream]. by rewrite He.
  - destruct (TReadPacket_err _ _ _ _ _ _ _ Hr Eo) as [[f Hf] _].
    eexists {| avail := map snd _; fin := f |}. split.
    + cbn [avail]. apply map_prefix, heard_prefix.
    + rewrite negotiate_greeted. cbv zeta. rewrite Hf. by rewrite He.
Qed.

(** A first packet that agrees on the version, and the conversation after it. *)
Lemma greeted_serves_as NewConn now w order s res outs0 :
  (forall j, 0 <= begin_wait j) -> NewConn (serveSlots srv) = None ->
  TReadPacket now w None 0 (packetLimit srv) = Some res -> greeted (tr_out res) = (outs0, None) ->
  let '(s1, (t1, outs, _, en)) := exec (timed_loop srv rw begin_wait work (length (arrivals (tr_feed res)))
      0 (tr_time res) (tr_feed res) 0 newHandles) s in
  exists r, avail r `prefix_of` map snd (arrivals w) /\
    forall err, en = Ended err ->
      exec (Serve srv NewConn r order) s =
        (let '(s2, (t2, _)) := exec (closeAll (order t1) t1 None) s1 in (s2, (t2, outs0 ++ outs, err))) /\
      (err = None -> (exists te, ends w = Some (te, EOF)) /\
                     avail r = map snd (heard (ends w) (arrivals w))).
Proof.
  intros Hb Hn Hr Hg. pose proof (TReadPacket_no_panic _ _ _ _ _ _ Hr) as Hp.
  destruct (tr_out res) as [q|e|] eqn:Eo; [|done|done].
  destruct (TReadPacket_ok _ _ _ _ _ _ _ Hr Eo) as (k & Ha & He & _ & Hh & Hrp).
  destruct (timed_loop_untimed srv rw begin_wait work (length (arrivals (tr_feed res))) 0 (tr_time res)
    (tr_feed res) 0 newHandles s Hb (Nat.le_refl _)) as [r Hruns].
  destruct (exec (timed_loop _ _ _ _ _ _ _ _ _ _) s) as [s1 [[[t1 outs] holds] en]].
  destruct Hruns as (Hpre & err & Hl & Hen).
  exists {| avail := map snd k ++ avail r; fin := fin r |}. split.
  { cbn [avail]. rewrite Ha, map_app. by apply prefix_app. }
  intros err' ->. destruct (Hen err' eq_refl) as [-> Hc]. split.
  - unfold Serve. rewrite Hn, negotiate_greeted, Hrp. cbv zeta. cbn [rp_out rp_stream]. rewrite Hg. cbn [fst snd].
    rewrite exec_bind. destruct r as [a f]; cbn [avail fin] in *.
    rewrite (loop_fuel_irrelevant srv _ (length (arrivals (tr_feed res)))), Hl; cbn [avail]; [| done |].
    2: { apply prefix_length in Hpre. by rewrite length_map in Hpre. }
    rewrite exec_bind. by destruct (exec (closeAll (order t1) t1 None) s1) as [s2 [t2 e2]].
  - intros [[te Hte] Hav]%Hc. rewrite He in Hte, Hav. cbn [avail]. split; [by exists te|].
    by rewrite Hav, Hh, map_app.
Qed.

(** What a clock that works gives the whole conversation. *)
Lemma timed_Serve_timely NewConn now w order s e :
  giveUp rw = Some e -> 0 < packetTimeout srv ->
  let '(_, _, holds, en) := snd (exec (timed_Serve NewConn now w order) s) in
  en <> WaitsInPacket /\ Forall (fun h => fst h <= snd h <= fst h + packetTimeout srv) holds.
Proof.
  intros Hg Hd. unfold timed_Serve. destruct (NewConn _); [done|].
  destruct (timed_negotiate now w) as [[[[now' w'] out] [e'|]]|]; [| |done].
  { rewrite exec_bind. by destruct (exec (closeAll _ _ _) s) as [s2 [t2 e2]]. }
  rewrite exec_bind.
  destruct (wp_adequate anything _ _ _ s (timed_loop_timely srv rw begin_wait work
    (length (arrivals w')) 0 now' w' 0 newHandles e Hg Hd (Nat.le_refl _))) as [_ (H1 & H2 & H3)].
  destruct (exec (timed_loop _ _ _ _ _ _ _ _ _ _) s) as [s1 [[[t1 outs] holds] en]]. cbn [fst snd] in *.
  destruct en; try done. rewrite exec_bind. by destruct (exec (closeAll _ _ _) s1) as [s2 [t2 e2]].
Qed.

(** C27. A conversation in time is a conversation. Whatever the client sends and
    whenever, whatever the clock cuts, and however long requests take: when
    [Serve] returns, what it wrote, what became of the driver, the handles it
    closed and the error it returns are those of the untimed [Serve] over a
    prefix of what the client sent; it returns nil only when the client closed
    the stream between packets, with all it sent answered. Where the stream can
    be interrupted and the clock is on, it never waits inside a packet once the
    version is agreed, and no packet holds its slot longer than the timeout. *)
Theorem timed_Serve_is_Serve NewConn now w order s :
  (forall j, 0 <= begin_wait j) ->
  let '(s', (t', outs, holds, en)) := exec (timed_Serve NewConn now w order) s in
  (exists r, avail r `prefix_of` map snd (arrivals w) /\
     forall err, en = Returns err -> exec (Serve srv NewConn r order) s = (s', (t', outs, err)) /\
       (err = None -> (exists te, ends w = Some (te, EOF)) /\
                      avail r = map snd (heard (ends w) (arrivals w)))) /\
  (giveUp rw <> None -> 0 < packetTimeout srv -> en <> WaitsInPacket /\
     Forall (fun h => fst h <= snd h <= fst h + packetTimeout srv) holds).
Proof.
  intros Hb. pose proof (timed_Serve_timely NewConn now w order s) as Ht. revert Ht.
  unfold timed_Serve, timed_negotiate. destruct (NewConn (serveSlots srv)) as [e|] eqn:Hn.
  { intros _. split; [|done]. exists {| avail := []; fin := EOF |}. split; [apply prefix_nil|].
    intros err [= <-]. unfold Serve. rewrite Hn. done. }
  destruct (TReadPacket now w None 0 (packetLimit srv)) as [res|] eqn:Hr.
  2: { intros _. split; [|done]. exists {| avail := []; fin := EOF |}. split; [apply prefix_nil|done]. }
  destruct (greeted (tr_out res)) as [out [e|]] eqn:Hg.
  - intros _. destruct (refused_serves_as now w res e Hr) as (r & Hp & Hneg); [by rewrite Hg|].
    rewrite exec_bind. destruct (exec (closeAll _ _ _) s) as [s2 [t2 e2]] eqn:Ec. split; [|done].
    exists r. split; [done|]. intros err [= <-]. unfold Serve. rewrite Hn, Hneg, Hg.
    rewrite exec_bind, Ec. done.
  - pose proof (greeted_serves_as NewConn now w order s res out Hb Hn Hr Hg) as Hs. rewrite !exec_bind.
    destruct (exec (timed_loop _ _ _ _ _ _ _ _ _ _) s) as [s1 [[[t1 outs] holds] en]].
    destruct Hs as (r & Hp & Hs).
    assert (giveUp rw <> None -> exists e, giveUp rw = Some e) as Hsome
      by (destruct (giveUp rw); [eauto|done]).
    destruct en as [err| | |]; intros Ht.
    1: rewrite exec_bind in *; destruct (exec (closeAll (order t1) t1 None) s1) as [s2 [t2 e2]].
    all: split; [exists r; split; [done|]; try done|
                 intros Hne Hd; destruct (Hsome Hne) as [e Eg]; by apply (Ht e)].
    intros err' [= <-]. destruct (Hs err eq_refl) as [-> Hc]. done.
Qed.

(** C28. Version negotiation has no clock. A client that sends part of an INIT
    packet, or nothing, and neither goes on nor hangs up keeps [Serve] waiting for
    ever, whatever the timeout and even on a stream that can be interrupted. *)
Theorem init_wait_unbounded NewConn now w order s :
  NewConn (serveSlots srv) = None -> ends w = None ->
  (len (arrivals w) < 4 \/
   exists n, BigEndian_Uint32 (E:=pkt_error) (map snd (take 4 (arrivals w))) = Ok n /\
     0 < n <= packetLimit srv /\ len (arrivals w) < 4 + n) ->
  exec (timed_Serve NewConn now w order) s = (s, (newHandles, [], [], WaitsForInit)).
Proof.
  intros Hn He Hshort. unfold timed_Serve. rewrite Hn.
  assert (timed_negotiate now w = None) as ->; [|done].
  unfold timed_negotiate, TReadPacket, TReadFull. rewrite He. cbn [sooner heard].
  destruct (4 <=? len (arrivals w)) eqn:E4; bool_prop; [|done].
  destruct Hshort as [?|(n & Hv & Hn' & Hl)]; [lia|]. change (Z.to_nat 4) with 4%nat.
  rewrite Hv. cbn [arrivals ends sooner heard].
  rewrite (proj2 (Z.eqb_neq n 0)) by lia. fold (eff_max (packetLimit srv)). rewrite eff_max_packetLimit.
  rewrite Z.gtb_ltb, (proj2 (Z.ltb_ge _ _)) by lia.
  rewrite (proj2 (Z.leb_gt _ _)); [done|]. unfold len in *. rewrite length_drop. lia.
Qed.
End serve.

(** * A client that stalls *)

Definition hello : bytes := frame_bytes FxpInit (payload_of {| init_Version := 3; init_Extensions := [] |}).

(** INIT, then half of a STAT; then silence. *)
Definition greeted_stall : Feed :=
  let p := frame_bytes FxpStat (payload_of {| pr_PacketType := FxpStat; pr_ID := 9; pr_Path := str "/a" |}) in
  {| arrivals := paced 100 (hello ++ take 6 p); ends := None |}.

Definition stalled_serve (w : Feed) : Mem * (handles * list bytes * list (Z * Z) * serve_ending) :=
  exec (timed_Serve (UT:=ascii_tables) (demo_server true true) channel (fun _ => 0) (fun _ => 5)
          (fun _ => None) 0 w map_to_list) demo_mem.

Lemma timed_Serve_is_Serve_witness :
  snd (snd (stalled_serve greeted_stall)) = Returns (Some (SErrPacket ErrUnexpectedEOF)) /\
  exists r, avail r `prefix_of` map snd (arrivals greeted_stall) /\
    snd (snd (exec (Serve (UT:=ascii_tables) (demo_server true true) (fun _ => None) r map_to_list)
      demo_mem)) = Some (SErrPacket ErrUnexpectedEOF).
Proof.
  assert (snd (snd (stalled_serve greeted_stall)) = Returns (Some (SErrPacket ErrUnexpectedEOF))) as He
    by (vm_compute; reflexivity).
  split; [exact He|].
  pose proof (timed_Serve_is_Serve (UT:=ascii_tables) (demo_server true true) channel (fun _ => 0)
    (fun _ => 5) (fun _ => None) 0 greeted_stall map_to_list demo_mem (fun _ => Z.le_refl 0)) as H.
  unfold stalled_serve in He.
  destruct (exec (timed_Serve _ _ _ _ _ _ _ _) demo_mem) as [s' [[[t' outs] holds] en]].
  destruct H as [(r & Hp & Hr) _]. exists r. split; [exact Hp|].
  destruct (Hr _ He) as [-> _]. reflexivity.
Defined.

(** The first seven bytes of an INIT packet, on a channel with the default clock. *)
Lemma init_wait_unbounded_witness :
  snd (snd (stalled_serve {| arrivals := paced 0 (take 7 hello); ends := None |})) = WaitsForInit.
Proof.
  unfold stalled_serve.
  rewrite (init_wait_unbounded (UT:=ascii_tables) (demo_server true true) channel (fun _ => 0) (fun _ => 5)
    (fun _ => None) 0 {| arrivals := paced 0 (take 7 hello); ends := None |} map_to_list demo_mem).
  - reflexivity.
  - reflexivity.
  - reflexivity.
  - right. exists 5. split; [vm_compute; reflexivity|]. split; vm_compute; split; congruence || reflexivity.
Defined.

(** A client that hangs up before INIT makes [Serve] return [io.EOF], not nil. *)
Example hangup_before_init :
  snd (snd (stalled_serve {| arrivals := []; ends := Some (50, EOF) |})) = Returns (Some (SErrPacket EOF)).
Proof. vm_compute. reflexivity. Qed.
