(* ===== verification/Sessions.v ===== *)
(** Any number of sessions on one [Server]: what [src/server.go] means by "safe for
    concurrent use by any number of sessions".

    Each session has one request in progress at a time, on a handle table of its
    own, and runs until its packets are answered; several in progress, and the end
    of a session, are in [Crowd]. All of them call one driver under one filesystem
    lock. A step is one call, so sessions interleave between any two of them;
    taking the lock waits until it is granted. The lock is [inflight.FSLock],
    outside the repository: a parameter, the class [FSLock], of which only what
    [src/server.go] documents is assumed. *)

From S2P Require Import Prelude Errors Messages Driver Server Handle Ops Session.

(** * The lock *)

(** Two modes that may be held at the same time, as [src/server.go] documents the
    lock: [Lock] excludes everything, [LockIO] excludes all but [LockIO], and
    [LockPath] is exclusive unless the embedder asserted [PathOpsConcurrent], when
    it is shared with itself and with [LockIO]. *)
Definition shares (pathConcurrent : bool) (a b : held) : bool :=
  match a, b with
  | Free, _ | _, Free => true
  | IOShared, IOShared => true
  | PathShared, (PathShared | IOShared) | IOShared, PathShared => pathConcurrent
  | _, _ => false
  end.

(** A lock: whether it grants a mode while others hold the modes listed. It keeps
    apart what must not be held together, and grants any mode when nothing is held. *)
Class FSLock := {
  grants : bool -> list held -> held -> bool;
  grants_excludes : forall pathConcurrent hs m h,
    grants pathConcurrent hs m = true -> h ∈ hs -> shares pathConcurrent m h = true;
  grants_free : forall pathConcurrent hs m,
    Forall (fun h => h = Free) hs -> grants pathConcurrent hs m = true
}.

(** The lock that grants whatever may be held together. *)
#[export, refine] Instance widest_lock : FSLock | 100 :=
  {| grants pc hs m := forallb (shares pc m) hs |}.
Proof.
  - intros pc hs m h. rewrite forallb_forall. intros H Hin%list_elem_of_In. by apply H.
  - intros pc hs m. rewrite forallb_forall, Forall_forall. intros H h Hin%list_elem_of_In.
    rewrite (H h Hin). by destruct m.
Defined.

(** The mode a call takes, if it takes one; whether it gives one back. *)
Definition acquires (c : call) : option held :=
  match c with
  | Lock => Some Exclusive
  | LockPath => Some PathShared
  | LockIO => Some IOShared
  | _ => None
  end.

Definition releases (c : call) : bool :=
  match c with Unlock | UnlockPath | UnlockIO => true | _ => false end.

(** * Sessions *)

(** One session: its table, the packets its client has still to send, the request
    it is running, the mode it holds, and the replies it has given. *)
Record client := {
  cl_table : handles;
  cl_todo : list (Z * bytes);
  cl_now : option (prog (handles * Reply));
  cl_held : held;
  cl_replies : list Reply
}.

(** A session at its start. *)
Definition new_client (reqs : list (Z * bytes)) : client :=
  {| cl_table := newHandles; cl_todo := reqs; cl_now := None; cl_held := Free; cl_replies := [] |}.

(** The session goes on running [p], holding [h]. *)
Definition running (cl : client) (p : prog (handles * Reply)) (h : held) : client :=
  {| cl_table := cl_table cl; cl_todo := cl_todo cl; cl_now := Some p; cl_held := h;
     cl_replies := cl_replies cl |}.

(** It begins the next request; it has answered one. *)
Definition begun (cl : client) (todo : list (Z * bytes)) (p : prog (handles * Reply)) : client :=
  {| cl_table := cl_table cl; cl_todo := todo; cl_now := Some p; cl_held := cl_held cl;
     cl_replies := cl_replies cl |}.

Definition answered (cl : client) (t : handles) (r : Reply) : client :=
  {| cl_table := t; cl_todo := cl_todo cl; cl_now := None; cl_held := cl_held cl;
     cl_replies := cl_replies cl ++ [r] |}.

Definition finished (cl : client) : Prop := cl_now cl = None /\ cl_todo cl = [].

Section sessions.
Context {UT : UnicodeTables} {LK : FSLock} (srv : Server) {S : Type} `{!Driver S}.

(** One step of a session, which may take the modes that [permits] allows. *)
Inductive client_step (permits : held -> Prop) : S -> client -> S -> client -> Prop :=
| cs_begin s cl typ payload todo :
    cl_now cl = None -> cl_todo cl = (typ, payload) :: todo ->
    client_step permits s cl s (begun cl todo (handle_request srv (cl_table cl) typ payload))
| cs_acquire s cl c k m s' x :
    cl_now cl = Some (Do c k) -> acquires c = Some m -> cl_held cl = Free -> permits m ->
    handle c s = (s', x) -> client_step permits s cl s' (running cl (k x) m)
| cs_release s cl c k s' x :
    cl_now cl = Some (Do c k) -> releases c = true ->
    handle c s = (s', x) -> client_step permits s cl s' (running cl (k x) Free)
| cs_call s cl c k s' x :
    cl_now cl = Some (Do c k) -> acquires c = None -> releases c = false ->
    handle c s = (s', x) -> client_step permits s cl s' (running cl (k x) (cl_held cl))
| cs_reply s cl t r :
    cl_now cl = Some (Ret (t, r)) -> client_step permits s cl s (answered cl t r).

Definition pool : Type := S * list client.

(** The lock as the session [i] finds it, the others holding what they hold. *)
Definition lock_permits (cls : list client) (i : nat) (m : held) : Prop :=
  grants (pathConcurrent srv) (map cl_held (take i cls ++ drop (Datatypes.S i) cls)) m = true.

(** Any session moves. *)
Inductive pool_step : pool -> pool -> Prop :=
| pool_client s s' cls i cl cl' :
    cls !! i = Some cl -> client_step (lock_permits cls i) s cl s' cl' ->
    pool_step (s, cls) (s', <[i := cl']> cls).

(** One request of one session, run whole: the sequential server. *)
Inductive serial_step : pool -> pool -> Prop :=
| serial_client s cls i cl typ payload todo s' t r :
    cls !! i = Some cl -> cl_now cl = None -> cl_todo cl = (typ, payload) :: todo ->
    exec (handle_request srv (cl_table cl) typ payload) s = (s', (t, r)) ->
    serial_step (s, cls) (s', <[i := answered (begun cl todo (Ret (t, r))) t r]> cls).
End sessions.
