(* ===== verification/SessionsLaws.v ===== *)
(** Sessions that share a driver do not interfere: [src/server.go], [src/ops.go].

    Every request is at most one section under the filesystem lock ([atomic]).
    From that: no interleaving is stuck, and each is finite; no two requests are ever
    in driver calls that must not overlap ([Crowd]); and, without
    [PathOpsConcurrent], every interleaving of calls gives the replies and the
    driver's state of some order of whole requests ([SessionsSerial]). *)

From S2P Require Import Prelude Codec Const Attrs Messages Packet Errors Path Driver Server.
From S2P Require Import Handle Attr Ops CopyData Session MemDriver OpsLaws SessionLaws LockLaws.
From S2P Require Import Sessions.

(** * Sections *)

(** A call that the mode [h] permits, and that keeps it. *)
Definition under (h : held) (c : call) : Prop := lock_step h c = Some h.

(** The end of a section: the mode is given back and the request is over. *)
Definition closing {A} (h : held) (p : prog A) : Prop :=
  match p with
  | Ret _ => False
  | Do c k => releases c = true /\ lock_step h c = Some Free /\ forall x, exists a, k x = Ret a
  end.

(** The rest of a section in the mode [h]. *)
Fixpoint section {A} (h : held) (p : prog A) : Prop :=
  closing h p \/
  match p with
  | Ret _ => False
  | Do c k => under h c /\ forall x, section h (k x)
  end.

(** The rest of a section that makes at most one more call. *)
Definition one_call {A} (h : held) (p : prog A) : Prop :=
  closing h p \/
  match p with
  | Ret _ => False
  | Do c k => under h c /\ forall x, closing h (k x)
  end.

(** At most one section, of at most one call when it is shared with other I/O. *)
Definition atomic {A} (p : prog A) : Prop :=
  match p with
  | Ret _ => True
  | Do c k =>
      match acquires c with
      | Some IOShared => forall x, one_call IOShared (k x)
      | Some h => forall x, section h (k x)
      | None => False
      end
  end.

(** Code that runs inside a section. *)
Abbreviation inside h p := (wp anything (under h) p (fun _ => True)).

(** Code that makes at most one call. *)
Definition single {A} (h : held) (p : prog A) : Prop :=
  match p with
  | Ret _ => True
  | Do c k => under h c /\ forall x, exists a, k x = Ret a
  end.

Section combinators.
Context {A B : Type}.

Definition returns (f : A -> prog B) : Prop := forall a, exists b, f a = Ret b.

Lemma closing_bind h (p : prog A) (f : A -> prog B) :
  returns f -> closing h p -> closing h (p ≫= f).
Proof.
  intros Hf. destruct p as [a|c k]; [done|]. intros (Hr & Hl & Hk). split_and!; [done|done|].
  intros x. destruct (Hk x) as [a E]. destruct (Hf a) as [b Hb]. exists b.
  simpl. rewrite E. exact Hb.
Qed.

Lemma section_bind h (p : prog A) (f : A -> prog B) :
  returns f -> section h p -> section h (p ≫= f).
Proof.
  intros Hf. induction p as [a|c k IH]; intros Hs; [by destruct Hs|].
  destruct Hs as [Hc|[Hu Hk]]; [left; by apply (closing_bind h (Do c k))|].
  right. split; [done|]. intros x. by apply IH.
Qed.

Lemma atomic_bind (p : prog A) (f : A -> prog B) : returns f -> atomic p -> atomic (p ≫= f).
Proof.
  intros Hf. destruct p as [a|c k]; intros Hp.
  - destruct (Hf a) as [b E]. change (atomic (f a)). by rewrite E.
  - change (Do c k ≫= f) with (Do c (fun x => k x ≫= f)). unfold atomic in *.
    destruct (acquires c) as [[]|]; try done; intros x; try (by apply section_bind).
    specialize (Hp x). destruct Hp as [Hc|Hc]; [left; by apply closing_bind|].
    right. destruct (k x) as [a|c' k']; [done|]. destruct Hc as [Hu Hk]. split; [done|].
    intros y. by apply closing_bind.
Qed.
End combinators.

Lemma section_inside {A} h u (body : prog A) :
  inside h body -> releases u = true -> lock_step h u = Some Free ->
  section h (r ← body; _ ← do_ u; mret r).
Proof.
  intros Hb Hr Hl. induction body as [a|c k IH].
  - left. split_and!; [done|done|]. by eexists.
  - destruct Hb as [Hc Hk]. right. split; [done|]. intros x. by apply IH, Hk.
Qed.

#[local] Transparent with_lock with_rlock with_iolock.

Lemma atomic_with_lock {A} (body : prog A) : inside Exclusive body -> atomic (with_lock body).
Proof. intros Hb x. by apply section_inside. Qed.

Lemma atomic_with_rlock {A} (body : prog A) : inside PathShared body -> atomic (with_rlock body).
Proof. intros Hb x. by apply section_inside. Qed.

Lemma atomic_with_iolock {A} (body : prog A) : single IOShared body -> atomic (with_iolock body).
Proof.
  intros Hb x. destruct body as [a|c k].
  - left. split_and!; [done|done|]. by eexists.
  - right. destruct Hb as [Hu Hk]. split; [done|]. intros y. simpl.
    destruct (Hk y) as [a ->]. split_and!; [done|done|]. by eexists.
Qed.

#[local] Opaque with_lock with_rlock with_iolock.

(** * Every request is atomic *)

Ltac atomic_step :=
  lazymatch goal with
  | |- atomic (with_lock _) => apply atomic_with_lock
  | |- atomic (with_rlock _) => apply atomic_with_rlock
  | |- atomic (mret _) => exact I
  | |- atomic (match ?x with _ => _ end) => destruct x
  | |- under _ _ => reflexivity
  | |- True => exact I
  | _ => wp_step
  end.

Ltac atomic_auto := repeat (atomic_step; cbn beta iota zeta).

Section requests.
Context {UT : UnicodeTables} (srv : Server).

(** A step of code under the lock that is known to run inside. *)
Lemma inside_bind {A B} h (p : prog A) (f : A -> prog B) :
  inside h p -> (forall a, inside h (f a)) -> inside h (p ≫= f).
Proof. intros Hp Hf. apply wp_bind. eapply wp_mono; [exact Hp|]. intros a _. apply Hf. Qed.

Lemma opStat_atomic m : atomic (opStat srv m).
Proof. unfold opStat. atomic_auto. Qed.

Lemma opSetstat_atomic id path a : atomic (opSetstat srv id path a).
Proof. unfold opSetstat, setstat_metadata. atomic_auto. Qed.

Lemma opOpendir_atomic t m : atomic (opOpendir t m).
Proof. unfold opOpendir, handles_add. atomic_auto. Qed.

Lemma readdir_items_inside dir batch : inside PathShared (readdir_items srv dir batch).
Proof.
  induction batch as [|name batch IH]; [exact I|]. cbn [readdir_items].
  apply inside_bind; [unfold readdir_entry; atomic_auto|]. intros it.
  apply inside_bind; [exact IH|]. intros its. exact I.
Qed.

Lemma readdir_loop_inside fuel id h : inside PathShared (readdir_loop srv fuel id h).
Proof.
  revert h. induction fuel as [|fuel IH]; intros h; [exact I|]. cbn [readdir_loop].
  destruct (_ <? _); [|exact I]. apply inside_bind; [apply readdir_items_inside|].
  intros items. destruct (_ <? _); [exact I|apply IH].
Qed.

Lemma opReaddir_atomic t m : atomic (opReaddir srv t m).
Proof.
  unfold opReaddir. atomic_auto. eapply wp_mono; [apply readdir_loop_inside|].
  intros [h r] _. exact I.
Qed.

Lemma register_inside t id h : inside Exclusive (register t id h).
Proof. unfold register, handles_add. atomic_auto. Qed.

Lemma finishOpen_inside t id path w : inside Exclusive (finishOpen srv t id path w).
Proof. unfold finishOpen. atomic_auto; apply register_inside. Qed.

Lemma opOpen_atomic t m : atomic (opOpen srv t m).
Proof. unfold opOpen. atomic_auto; apply finishOpen_inside. Qed.

Lemma opClose_atomic t m : atomic (opClose t m).
Proof. unfold opClose, close_file, answer_status. atomic_auto. Qed.

Lemma readJob_atomic t m :
  match readJob srv t m with inl j => atomic (run_job j) | inr _ => True end.
Proof.
  unfold readJob. destruct (handles_get t (rr_Handle m)) as [h|]; [|done].
  destruct (of_dir h); [done|]. destruct (rr_Length m =? 0); [done|]. cbn [run_job].
  destruct (of_file h) as [f|]; [|unfold readWhole; atomic_auto].
  apply atomic_with_iolock. unfold readAt. destruct (_ >? _); [done|]. split; [done|].
  intros [buf err]. simpl. destruct (_ <? _); [by eexists|]. destruct err as [e|]; [|by eexists].
  destruct (Is_EOF e); by eexists.
Qed.

Lemma writeJob_atomic t m :
  match writeJob srv t m with inl j => atomic (run_job j) | inr _ => True end.
Proof.
  unfold writeJob. destruct (handles_get t (wr_Handle m)) as [h|]; [|done].
  destruct (of_dir h); [done|]. destruct (ro srv); [done|]. destruct (negb _); [done|].
  destruct (_ >? _); [done|]. cbn [run_job].
  destruct (of_writable h) as [f|]; [|unfold writeSplice, answer_status; atomic_auto].
  apply atomic_with_iolock. split; [done|]. intros [e|]; by eexists.
Qed.

Lemma copyData_atomic t id data : atomic (copyData srv t id data).
Proof. unfold copyData, copy_locked, answer_status. atomic_auto. Qed.

Lemma keep_atomic t p : atomic p -> atomic (keep t p).
Proof. apply atomic_bind. intros r. by eexists. Qed.

Hint Resolve opOpen_atomic opClose_atomic opStat_atomic opSetstat_atomic opOpendir_atomic
  opReaddir_atomic copyData_atomic keep_atomic : ops.

Lemma dispatch_atomic t typ payload : atomic (dispatch srv t typ payload).
Proof.
  unfold dispatch, decoded. repeat case_if; atomic_auto; auto with ops.
  all: apply keep_atomic.
  all: unfold opFstat, opRemove, opMkdir, opRealpath, opRename, opReadlink, opSymlink, answer_status;
    atomic_auto; auto with ops.
Qed.

(** A request takes the lock once at most; what it does under it is one section. *)
Lemma handle_request_atomic t typ payload : atomic (handle_request srv t typ payload).
Proof.
  unfold handle_request, prepare, decoded. repeat case_if; [| |apply dispatch_atomic].
  - destruct (DecodeRead payload) as [m|e|]; [|exact I..].
    pose proof (readJob_atomic t m). destruct (readJob srv t m); [by apply keep_atomic|exact I].
  - destruct (DecodeWrite payload) as [m|e|]; [|exact I..].
    pose proof (writeJob_atomic t m). destruct (writeJob srv t m); [by apply keep_atomic|exact I].
Qed.
End requests.

(** * The invariant of the pool *)

(** Where a session is in its request: before or after its section, or inside it. *)
Definition client_ok (cl : client) : Prop :=
  match cl_now cl, cl_held cl with
  | None, h => h = Free
  | Some p, Free => atomic p
  | Some p, IOShared => one_call IOShared p
  | Some p, h => section h p
  end.

Lemma one_call_section {A} h (p : prog A) : one_call h p -> section h p.
Proof.
  destruct p as [a|c k]; [by intros [?|?]|]. intros [Hc|[Hu Hk]]; [by left|].
  right. split; [done|]. intros x. specialize (Hk x). destruct (k x); [done|]. by left.
Qed.

(** A session that holds the lock is inside a section. *)
Lemma client_ok_section cl p :
  client_ok cl -> cl_now cl = Some p -> cl_held cl <> Free -> section (cl_held cl) p.
Proof.
  unfold client_ok. intros Hok Hn. rewrite Hn in Hok. destruct (cl_held cl); try done. intros _.
  by apply one_call_section.
Qed.

Lemma client_ok_free cl p :
  client_ok cl -> cl_now cl = Some p -> cl_held cl = Free -> atomic p.
Proof. unfold client_ok. intros Hok Hn Hf. by rewrite Hn, Hf in Hok. Qed.

(** No call both keeps a mode and takes or gives back one. *)
Lemma under_plain h c : under h c -> acquires c = None /\ releases c = false.
Proof. unfold under. by destruct c, h. Qed.

Lemma releases_acquires c : releases c = true -> acquires c = None.
Proof. by destruct c. Qed.

(** A call on the driver: not on the lock, and not of the random source, which any
    number of goroutines may use. *)
Definition driver_call (c : call) : bool :=
  match c with
  | Lock | Unlock | LockPath | UnlockPath | LockIO | UnlockIO | RandRead => false
  | _ => true
  end.

Definition io_call (c : call) : bool :=
  match c with File_ReadAt _ _ _ | File_WriteAt _ _ _ => true | _ => false end.

Definition path_read (c : call) : bool :=
  match c with Stat _ | ListDir _ | ReadFile _ | ReadLink _ => true | _ => false end.

(** The calls a driver must expect at the same time. *)
Definition may_overlap (pathConcurrent : bool) (a b : call) : bool :=
  (io_call a && io_call b) ||
  (pathConcurrent && (io_call a || path_read a) && (io_call b || path_read b)).

(** The call a session is in or about to make. *)
Definition next_call (cl : client) : option call :=
  match cl_now cl with Some (Do c _) => Some c | _ => None end.

Section pool.
Context {UT : UnicodeTables} {LK : FSLock} (srv : Server) {S : Type} `{!Driver S}.

(** A step keeps the session inside its section, and its claim on the lock within
    what the others hold. *)
Lemma client_step_ok permits s cl s' cl' :
  client_step srv permits s cl s' cl' -> client_ok cl -> permits Free -> permits (cl_held cl) ->
  client_ok cl' /\ permits (cl_held cl').
Proof.
  intros H Hok Hfree Hh. destruct H as [s cl typ payload todo Hn _|s cl c k m s' x Hn Ha Hf Hp _|
    s cl c k s' x Hn Hr _|s cl c k s' x Hn Ha Hr _|s cl t r Hn].
  - unfold client_ok in *. rewrite Hn in Hok. simpl. rewrite Hok in *. split; [|done].
    apply handle_request_atomic.
  - split; [|done]. pose proof (client_ok_free _ _ Hok Hn Hf) as Hat. simpl in Hat. rewrite Ha in Hat.
    unfold client_ok; simpl. by destruct c, m.
  - split; [|done]. destruct (decide (cl_held cl = Free)) as [Hf|Hf].
    { pose proof (client_ok_free _ _ Hok Hn Hf) as Hat. simpl in Hat.
      by rewrite (releases_acquires c Hr) in Hat. }
    destruct (client_ok_section _ _ Hok Hn Hf) as [(_ & _ & Hk)|[Hu _]].
    + unfold client_ok; simpl. by destruct (Hk x) as [a ->].
    + apply under_plain in Hu as [_ ?]. congruence.
  - split; [|done]. destruct (decide (cl_held cl = Free)) as [Hf|Hf].
    { pose proof (client_ok_free _ _ Hok Hn Hf) as Hat. simpl in Hat. by rewrite Ha in Hat. }
    unfold client_ok in *; simpl. rewrite Hn in Hok. destruct (cl_held cl); try done.
    + destruct Hok as [(? & _)|[_ Hk]]; [congruence|done].
    + destruct Hok as [(? & _)|[_ Hk]]; [congruence|done].
    + destruct Hok as [(? & _)|[_ Hk]]; [congruence|]. by left.
  - unfold client_ok in *. rewrite Hn in Hok. simpl.
    destruct (cl_held cl); try (by destruct Hok as [?|?]). done.
Qed.

(** The mode [m] may be held beside what the sessions other than [i] hold. *)
Definition apart (cls : list client) (i : nat) (m : held) : Prop :=
  forall j cl, j <> i -> cls !! j = Some cl -> shares (pathConcurrent srv) m (cl_held cl) = true.

Lemma others_elem {A} (l : list A) i j x : j <> i -> l !! j = Some x -> x ∈ take i l ++ drop (Datatypes.S i) l.
Proof.
  intros Hn Hj. apply elem_of_app. destruct (decide (j < i)%nat).
  - left. apply list_elem_of_lookup. exists j. by rewrite lookup_take_lt.
  - right. apply list_elem_of_lookup. exists (j - Datatypes.S i)%nat. rewrite lookup_drop.
    by replace (Datatypes.S i + (j - Datatypes.S i))%nat with j by lia.
Qed.

Lemma elem_others {A} (l : list A) i x : x ∈ take i l ++ drop (Datatypes.S i) l -> x ∈ l.
Proof.
  intros [Hx|Hx]%elem_of_app.
  - eapply elem_of_sublist; [exact Hx|apply sublist_take].
  - eapply elem_of_sublist; [exact Hx|apply sublist_drop].
Qed.

(** The lock grants only that. *)
Lemma permits_apart cls i m : lock_permits srv cls i m -> apart cls i m.
Proof.
  intros Hg j cl Hn Hj. eapply grants_excludes; [exact Hg|]. apply list_elem_of_fmap_2.
  by eapply others_elem.
Qed.

Lemma client_step_mono (P Q : held -> Prop) s cl s' cl' :
  (forall m, P m -> Q m) -> client_step srv P s cl s' cl' -> client_step srv Q s cl s' cl'.
Proof.
  intros Hm H. destruct H; [by eapply cs_begin|eapply cs_acquire; eauto|by eapply cs_release
    |by eapply cs_call|by eapply cs_reply].
Qed.

Record pool_ok (cls : list client) : Prop := {
  po_clients : forall i cl, cls !! i = Some cl -> client_ok cl;
  po_lock : forall i cl, cls !! i = Some cl -> apart cls i (cl_held cl)
}.

Lemma shares_sym pc a b : shares pc a b = shares pc b a.
Proof. by destruct a, b. Qed.

Lemma shares_free pc h : shares pc Free h = true.
Proof. done. Qed.

Lemma lookup_swap {A} (l : list A) i j x y :
  <[i := x]> l !! j = Some y -> (j = i /\ y = x) \/ (j <> i /\ l !! j = Some y).
Proof.
  intros H. destruct (decide (j = i)) as [->|Hn].
  - left. apply list_lookup_insert_Some in H as [(_ & ? & _)|[? _]]; done.
  - right. split; [done|]. by rewrite list_lookup_insert_ne in H.
Qed.

Lemma pool_ok_step x y : pool_step srv x y -> pool_ok (snd x) -> pool_ok (snd y).
Proof.
  intros [s s' cls i cl cl' Hi Hst] [Hc Hl]. simpl in *.
  pose proof (client_step_mono _ (apart cls i) _ _ _ _ (permits_apart cls i) Hst) as H'.
  destruct (client_step_ok _ _ _ _ _ H' (Hc i cl Hi)) as [Hok Hp]; [by intros ? ? _ _|by apply Hl|].
  split.
  - intros j o [[_ ->]|[_ Hj]]%lookup_swap; [done|by eapply Hc].
  - intros j o Hj k o' Hkj Hk.
    apply lookup_swap in Hj as [[-> ->]|[Hj1 Hj2]], Hk as [[-> ->]|[Hk1 Hk2]]; try done.
    + by apply (Hp k o').
    + rewrite shares_sym. by apply (Hp j o).
    + by apply (Hl j o Hj2 k o').
Qed.

Definition pool_start (s : S) (reqs : list (list (Z * bytes))) : pool (S:=S) := (s, map new_client reqs).

Lemma pool_ok_start reqs : pool_ok (map new_client reqs).
Proof.
  assert (forall i cl, map new_client reqs !! i = Some cl -> exists q, cl = new_client q) as Hn.
  { intros i cl H. apply list_lookup_fmap_Some in H as (q & -> & _). eauto. }
  split; intros i cl Hi; destruct (Hn i cl Hi) as [q ->]; [done|].
  by intros j cl' _ _.
Qed.

Lemma pool_ok_reachable s reqs x : rtc (pool_step srv) (pool_start s reqs) x -> pool_ok (snd x).
Proof.
  intros H. remember (pool_start s reqs) as x0 eqn:E.
  assert (pool_ok (snd x0)) as H0 by (subst; apply pool_ok_start). clear E.
  induction H; eauto using pool_ok_step.
Qed.

(** * Exclusion *)

(** A session in a driver call holds a mode that call needs. *)
Lemma next_under cl c :
  client_ok cl -> next_call cl = Some c -> driver_call c = true -> under (cl_held cl) c /\ cl_held cl <> Free.
Proof.
  intros Hok Hn Hd. unfold next_call in Hn.
  destruct (cl_now cl) as [[a|c' k]|] eqn:E; try done. injection Hn as ->.
  destruct (decide (cl_held cl = Free)) as [Hf|Hf].
  { pose proof (client_ok_free _ _ Hok E Hf) as Hat. simpl in Hat. by destruct c. }
  split; [|done]. destruct (client_ok_section _ _ Hok E Hf) as [(Hr & _)|[Hu _]]; [|done].
  by destruct c.
Qed.

(** * Progress and termination *)

Lemma busy_moves cls i cl s :
  cls !! i = Some cl -> client_ok cl -> cl_held cl <> Free -> exists y, pool_step srv (s, cls) y.
Proof.
  intros Hi Hok Hh. destruct (cl_now cl) as [p|] eqn:E.
  2: { unfold client_ok in Hok. by rewrite E in Hok. }
  pose proof (client_ok_section _ _ Hok E Hh) as Hs. destruct p as [a|c k]; [by destruct Hs|].
  destruct (handle c s) as [s' x] eqn:Eh. destruct Hs as [(Hr & _)|[Hu _]].
  - eexists. eapply pool_client; [done|]. by eapply cs_release.
  - apply under_plain in Hu as [Ha Hr]. eexists. eapply pool_client; [done|]. by eapply cs_call.
Qed.

Lemma idle_moves cls i cl s :
  (forall j o, cls !! j = Some o -> cl_held o = Free) -> cls !! i = Some cl -> client_ok cl ->
  ~ finished cl -> exists y, pool_step srv (s, cls) y.
Proof.
  intros Hall Hi Hok Hf. pose proof (Hall i cl Hi) as Hh.
  destruct (cl_now cl) as [[[t r]|c k]|] eqn:E.
  - eexists. eapply pool_client; [done|]. by apply cs_reply.
  - pose proof (client_ok_free _ _ Hok E Hh) as Hat. simpl in Hat.
    destruct (acquires c) as [m|] eqn:Ea; [|done]. destruct (handle c s) as [s' x] eqn:Eh.
    eexists. eapply pool_client; [done|]. eapply cs_acquire; try done.
    apply grants_free, Forall_forall. intros h (o & -> & Ho)%list_elem_of_fmap.
    apply elem_others, list_elem_of_lookup in Ho as [j Hj]. by apply (Hall j o).
  - destruct (cl_todo cl) as [|[typ payload] todo] eqn:Et; [by destruct Hf|].
    eexists. eapply pool_client; [done|]. by eapply cs_begin.
Qed.

Lemma pool_progress s cls :
  pool_ok cls -> (forall y, ~ pool_step srv (s, cls) y) -> Forall finished cls.
Proof.
  intros [Hc _] Hn. apply Forall_lookup_2. intros i cl Hi.
  assert (forall j o, cls !! j = Some o -> cl_held o = Free) as Hall.
  { intros j o Hj. destruct (decide (cl_held o = Free)) as [|Hh]; [done|].
    destruct (busy_moves cls j o s Hj (Hc j o Hj) Hh) as [y Hy]. by destruct (Hn y). }
  destruct (decide (cl_now cl = None /\ cl_todo cl = [])) as [|Hf]; [done|].
  destruct (idle_moves cls i cl s Hall Hi (Hc i cl Hi) Hf) as [y Hy]. by destruct (Hn y).
Qed.

(** One session's steps, whatever the driver answers. *)
Definition client_moves (cl' cl : client) : Prop :=
  exists permits s s', client_step srv permits s cl s' cl'.

Lemma client_moves_now cl' cl :
  client_moves cl' cl ->
  match cl_now cl with
  | None => exists q, cl_todo cl = q :: cl_todo cl'
  | Some (Ret _) => cl_now cl' = None /\ cl_todo cl' = cl_todo cl
  | Some (Do c k) => (exists x, cl_now cl' = Some (k x)) /\ cl_todo cl' = cl_todo cl
  end.
Proof.
  intros (permits & s & s' & Hst). destruct Hst as [s cl typ payload todo Hn Ht|s cl c k m s' x Hn _ _ _ _|
    s cl c k s' x Hn _ _|s cl c k s' x Hn _ _ _|s cl t r Hn]; rewrite Hn; simpl; eauto.
Qed.

(** A session's run is finite: a request is a finite tree of calls, and there are
    finitely many. *)
Lemma client_moves_Acc cl : Acc client_moves cl.
Proof.
  remember (cl_todo cl) as todo eqn:Et. revert cl Et.
  induction todo as [|q todo IH]; intros cl Et.
  all: assert (forall cl', cl_now cl' = None -> cl_todo cl' = cl_todo cl -> Acc client_moves cl') as Hn.
  1,3: intros cl' Hn Ht; constructor; intros cl'' H%client_moves_now; rewrite Hn in H;
    destruct H as [q' Hq]; first [congruence|apply IH; congruence].
  all: destruct (cl_now cl) as [p|] eqn:E; [|by apply Hn].
  all: clear Et; revert cl E Hn; induction p as [a|c k IHp]; intros cl E Hn;
    constructor; intros cl' H%client_moves_now; rewrite E in H.
  1,3: destruct H; by apply Hn.
  all: destruct H as [[x Hx] Ht]; apply (IHp x); [done|]; intros; apply Hn; congruence.
Qed.

(** So is any interleaving of finite runs. *)
Lemma list_moves_Acc {A} (R : A -> A -> Prop) (l : list A) :
  Forall (Acc R) l ->
  Acc (fun l' l => exists i x y, l !! i = Some x /\ l' = <[i := y]> l /\ R y x) l.
Proof.
  induction 1 as [|x l Hx _ IHl].
  { constructor. intros l' (i & x & y & Hi & _). by rewrite lookup_nil in Hi. }
  revert l IHl. induction Hx as [x _ IHx]. intros l Hl. induction Hl as [l Hl IHl].
  constructor. intros l' (i & z & y & Hi & -> & Hr). destruct i as [|i]; simpl in *.
  - injection Hi as ->. by apply IHx.
  - apply IHl. eauto 6.
Qed.

Lemma pool_Acc x : Acc (fun b a => pool_step srv a b) x.
Proof.
  destruct x as [s cls].
  assert (Acc (fun l' l => exists i x y, l !! i = Some x /\ l' = <[i := y]> l /\ client_moves y x) cls) as H.
  { apply list_moves_Acc, Forall_forall. intros cl _. apply client_moves_Acc. }
  revert s. induction H as [cls _ IH]. intros s. constructor. intros y Hy.
  inversion Hy as [s1 s' cls1 i cl cl' Hi Hs]; subst. apply IH.
  exists i, cl, cl'. split_and!; [done|done|]. by exists (lock_permits srv cls i), s, s'.
Qed.

(** C19. Sessions never deadlock and always end. From any number of sessions with any
    packets, over any driver, every interleaving is finite, and one that can go
    no further has answered every packet of every session: nobody waits for the
    lock for ever, because nobody asks for it while holding it. *)
Theorem sessions_complete s0 reqs x :
  rtc (pool_step srv) (pool_start s0 reqs) x ->
  Acc (fun b a => pool_step srv a b) x /\
  forall y, rtc (pool_step srv) x y -> (forall z, ~ pool_step srv y z) -> Forall finished (snd y).
Proof.
  intros Hx. split; [apply pool_Acc|]. intros [s cls] Hxy Hn. apply (pool_progress s); [|done].
  apply (pool_ok_reachable s0 reqs (s, cls)). by etrans.
Qed.
End pool.
