(* ===== verification/SessionsSerial.v ===== *)
(** Sessions that share a driver are served as if one request ran at a time
    ([src/server.go], [src/ops.go]): every interleaving of their calls under the
    filesystem lock is an order of whole requests. *)

From S2P Require Import Prelude Codec Const Attrs Messages Packet Errors Path Driver Server.
From S2P Require Import Handle Attr Ops CopyData Session MemDriver OpsLaws SessionLaws.
From S2P Require Import Sessions SessionsLaws.

(** The filesystem lock is an object of its own: taking it and giving it back does
    nothing to the driver. *)
Class LockNeutral (S : Type) `{!Driver S} : Prop :=
  lock_neutral : forall c s, acquires c <> None \/ releases c = true -> fst (handle c s) = s.

#[export] Instance MemDriver_neutral : LockNeutral Mem.
Proof. intros c s Hc. destruct c; try done; by destruct Hc. Qed.

Section serial.
Context {UT : UnicodeTables} {LK : FSLock} (srv : Server) {S : Type} `{!Driver S} `{!LockNeutral S}.

(** The request [q] on the table of [f]. *)
Definition request_of (f : client) (q : Z * bytes) : prog (handles * Reply) :=
  handle_request srv (cl_table f) (fst q) (snd q).

(** * What the sequential server has done of a session

    A session that has not yet touched the driver in its request [q] has it still
    to run; one that has got its result [x] has answered it. *)
Definition waiting (f : client) (q : Z * bytes) : client :=
  {| cl_table := cl_table f; cl_todo := q :: cl_todo f; cl_now := None; cl_held := Free;
     cl_replies := cl_replies f |}.

Definition settled (f : client) (x : handles * Reply) : client :=
  {| cl_table := fst x; cl_todo := cl_todo f; cl_now := None; cl_held := Free;
     cl_replies := cl_replies f ++ [snd x] |}.

(** All that is left is to give the lock back. *)
Definition ends_with {A} (p : prog A) (x : A) : Prop :=
  match p with
  | Ret _ => False
  | Do c k => releases c = true /\ forall y, k y = Ret x
  end.

Inductive follows : client -> client -> Prop :=
| fo_idle f : cl_now f = None -> cl_held f = Free -> follows f f
| fo_pending f q : cl_now f = Some (request_of f q) -> cl_held f = Free -> follows f (waiting f q)
| fo_io f q k p :
    cl_now f = Some p -> cl_held f = IOShared -> request_of f q = Do LockIO k -> k tt = p ->
    follows f (waiting f q)
| fo_done f x : cl_now f = Some (Ret x) -> cl_held f = Free -> follows f (settled f x)
| fo_done_io f x p :
    cl_now f = Some p -> cl_held f = IOShared -> ends_with p x -> follows f (settled f x).

Lemma closing_ends {A} h (p : prog A) : closing h p -> exists x, ends_with p x.
Proof.
  destruct p as [a|c k]; [done|]. intros (Hr & _ & Hk).
  destruct c; try done; destruct (Hk tt) as [x Hx]; exists x; (split; [done|]); intros []; exact Hx.
Qed.

Lemma exec_lock (c : call) (k : answer c -> prog (handles * Reply)) s s' x :
  acquires c <> None \/ releases c = true -> handle c s = (s', x) -> s' = s.
Proof. intros Hc Hh. pose proof (lock_neutral c s Hc) as Hn. by rewrite Hh in Hn. Qed.

Lemma exec_ends (p : prog (handles * Reply)) s x : ends_with p x -> exec p s = (s, x).
Proof.
  destruct p as [a|c k]; [done|]. intros [Hr Hk]. simpl. destruct (handle c s) as [s' y] eqn:Eh.
  rewrite Hk. simpl. by rewrite (exec_lock c k s s' y) by auto.
Qed.

Lemma exec_io f q k s : request_of f q = Do LockIO k -> exec (request_of f q) s = exec (k tt) s.
Proof.
  intros ->. simpl. destruct (handle LockIO s) as [s' []] eqn:Eh.
  by rewrite (exec_lock LockIO k s s' tt) by (done || by left).
Qed.

(** What a step of a session is to the sequential server: nothing; its request,
    whole; or the start of a section that has the driver to itself. *)
Inductive serial_effect (permits : held -> Prop) (s : S) (f : client) (s' : S) (f' g : client) : Prop :=
| se_nothing : s' = s -> follows f' g -> serial_effect permits s f s' f' g
| se_request q x :
    g = waiting f q -> exec (request_of f q) s = (s', x) -> follows f' (settled f x) ->
    (cl_held f = Free -> s' = s /\ forall s0, exec (request_of f q) s0 = (s0, x)) ->
    serial_effect permits s f s' f' g
| se_section q p m :
    g = waiting f q -> permits m -> m <> IOShared -> m <> Free -> f' = running f p m ->
    cl_held f = Free -> exec (request_of f q) s = exec p s' -> serial_effect permits s f s' f' g.

Lemma follows_begin permits s f g typ payload todo :
  follows f g -> cl_now f = None -> cl_todo f = (typ, payload) :: todo ->
  serial_effect permits s f s (begun f todo (handle_request srv (cl_table f) typ payload)) g.
Proof.
  intros Hfo Hn Ht. apply se_nothing; [done|]. destruct Hfo; try congruence.
  pose proof (fo_pending (begun f todo (handle_request srv (cl_table f) typ payload)) (typ, payload)
    eq_refl) as Hp.
  assert (waiting (begun f todo (handle_request srv (cl_table f) typ payload)) (typ, payload) = f) as E
    by (destruct f; simpl in *; by subst).
  rewrite E in Hp. by apply Hp.
Qed.

Lemma follows_acquire permits s f g c k m s' x :
  follows f g -> cl_now f = Some (Do c k) -> acquires c = Some m -> cl_held f = Free -> permits m ->
  handle c s = (s', x) -> serial_effect permits s f s' (running f (k x) m) g.
Proof.
  intros Hfo Hn Ha Hf Hp Hh. destruct Hfo as [| f q E _| | |]; try congruence.
  rewrite Hn in E. injection E as E. pose proof (exec_lock c k s s' x ltac:(left; congruence) Hh) as ->.
  destruct (decide (m = IOShared)) as [->|Hm].
  - apply se_nothing; [done|]. destruct c; try done. destruct x.
    by apply (fo_io (running f (k tt) IOShared) q k (k tt)).
  - apply (se_section _ _ _ _ _ _ q (k x) m); try done; [intros ->; by destruct c|].
    rewrite <- E. simpl. by rewrite Hh.
Qed.

(** A session that gives the lock back, or calls the driver, holds it. *)
Lemma plain_held f c k :
  client_ok f -> cl_now f = Some (Do c k) -> acquires c = None -> cl_held f <> Free.
Proof. intros Hok Hn Ha Hf. pose proof (client_ok_free _ _ Hok Hn Hf) as Hat. simpl in Hat. by rewrite Ha in Hat. Qed.

Lemma follows_release permits s f g c k s' x :
  follows f g -> client_ok f -> cl_now f = Some (Do c k) -> releases c = true ->
  handle c s = (s', x) -> serial_effect permits s f s' (running f (k x) Free) g.
Proof.
  intros Hfo Hok Hn Hr Hh. pose proof (plain_held _ _ _ Hok Hn (releases_acquires c Hr)) as Hf.
  pose proof (exec_lock c k s s' x ltac:(by right) Hh) as ->.
  assert (forall x0, ends_with (Do c k) x0 -> follows (running f (k x) Free) (settled f x0)) as Hend.
  { intros x0 He. apply (fo_done (running f (k x) Free) x0); [|done]. simpl. by rewrite (proj2 He x). }
  destruct Hfo as [| |f q k0 p E Hh' Eq Ek| |f x0 p E Hh' He]; try congruence;
    rewrite Hn in E; injection E as <-; [|apply se_nothing; auto].
  destruct (client_ok_section _ _ Hok Hn Hf) as [Hcl|[Hu _]].
  2: { apply under_plain in Hu as [_ ?]. congruence. }
  destruct (closing_ends _ _ Hcl) as [x0 He].
  apply (se_request _ _ _ _ _ _ q x0); [done| |auto|done].
  rewrite (exec_io f q k0), Ek by done. by apply exec_ends.
Qed.

Lemma follows_call permits s f g c k s' x :
  follows f g -> client_ok f -> cl_now f = Some (Do c k) -> acquires c = None -> releases c = false ->
  handle c s = (s', x) ->
  serial_effect permits s f s' (running f (k x) (cl_held f)) g.
Proof.
  intros Hfo Hok Hn Ha Hr Hh. pose proof (plain_held _ _ _ Hok Hn Ha) as Hf.
  destruct Hfo as [| |f q k0 p E Hh' Eq Ek| |f x0 p E Hh' He]; try congruence;
    rewrite Hn in E; injection E as <-; [|destruct He; congruence].
  unfold client_ok in Hok. rewrite Hn, Hh' in Hok. destruct Hok as [(? & _)|[_ Hk]]; [congruence|].
  destruct (closing_ends _ _ (Hk x)) as [x0 He].
  apply (se_request _ _ _ _ _ _ q x0); [done| | |done].
  - rewrite (exec_io f q k0), Ek by done. simpl. rewrite Hh. by apply exec_ends.
  - by apply (fo_done_io (running f (k x) (cl_held f)) x0 (k x)).
Qed.

Lemma follows_reply permits s f g t r :
  follows f g -> client_ok f -> cl_now f = Some (Ret (t, r)) ->
  serial_effect permits s f s (answered f t r) g.
Proof.
  intros Hfo Hok Hn.
  assert (cl_held f = Free) as Hf.
  { unfold client_ok in Hok. rewrite Hn in Hok. destruct (cl_held f); try done; by destruct Hok as [?|?]. }
  assert (follows (answered f t r) (settled f (t, r))) as Hend.
  { replace (settled f (t, r)) with (answered f t r) by (unfold settled, answered; by rewrite Hf).
    by apply fo_idle. }
  destruct Hfo as [|f q E _|f q k0 p E Hh' Eq Ek|f x0 E _|f x0 p E Hh' He]; try congruence;
    rewrite Hn in E; injection E as E.
  - apply (se_request _ _ _ _ _ _ q (t, r)); rewrite <- ?E; done.
  - subst x0. by apply se_nothing.
Qed.

Lemma follows_step permits s f s' f' g :
  follows f g -> client_ok f -> client_step srv permits s f s' f' ->
  serial_effect permits s f s' f' g.
Proof.
  intros Hfo Hok H.
  destruct H; eauto using follows_begin, follows_acquire, follows_release, follows_call, follows_reply.
Qed.

(** * Pools *)

(** Session by session, except the one that has the driver to itself. *)
Definition agree (except : option nat) (fs gs : list client) : Prop :=
  forall i f g, except <> Some i -> fs !! i = Some f -> gs !! i = Some g -> follows f g.

Lemma agree_insert e fs gs i f g :
  agree e fs gs -> (e <> Some i -> follows f g) -> agree e (<[i := f]> fs) (<[i := g]> gs).
Proof.
  intros Ha Hf j f' g' He Hj Hg. apply lookup_swap in Hj as [[-> ->]|[Hn Hj]].
  - apply lookup_swap in Hg as [[_ ->]|[? _]]; [by apply Hf|done].
  - rewrite list_lookup_insert_ne in Hg by done. by apply (Ha j).
Qed.

Lemma agree_insert_l e fs gs i f g :
  agree e fs gs -> gs !! i = Some g -> (e <> Some i -> follows f g) -> agree e (<[i := f]> fs) gs.
Proof.
  intros Ha Hg Hf. rewrite <- (list_insert_id gs i g Hg). by apply agree_insert.
Qed.

Lemma agree_open i fs gs : agree None fs gs -> agree (Some i) fs gs.
Proof. intros Ha j f g _. by apply Ha. Qed.

Lemma agree_close j fs gs f g :
  agree (Some j) fs gs -> gs !! j = Some g -> follows f g -> agree None (<[j := f]> fs) gs.
Proof.
  intros Ha Hg Hf i f' g' _ [[-> ->]|[Hn Hi]]%lookup_swap Hg'; [congruence|].
  apply (Ha i); [congruence|done|done].
Qed.

(** The sequential server is ahead by the section in progress, if it has the driver
    to itself. *)
Record ahead (s : S) (fs : list client) (sg : S) (gs : list client) (j : nat) : Prop := {
  ah_agree : agree (Some j) fs gs;
  ah_section : exists f p x, fs !! j = Some f /\ cl_now f = Some p /\
    (cl_held f = Exclusive \/ cl_held f = PathShared) /\
    exec p s = (sg, x) /\ gs !! j = Some (settled f x)
}.

Definition serialised (x y : pool (S:=S)) : Prop :=
  length (snd x) = length (snd y) /\
  ((fst x = fst y /\ agree None (snd x) (snd y)) \/
   exists j, ahead (fst x) (snd x) (fst y) (snd y) j).

(** The sequential server runs the request of a session that waits for it. *)
Lemma serial_request s gs i f q s' x :
  gs !! i = Some (waiting f q) -> exec (request_of f q) s = (s', x) ->
  serial_step srv (s, gs) (s', <[i := settled f x]> gs).
Proof.
  intros Hi He. destruct q as [typ payload], x as [t r].
  exact (serial_client srv s gs i (waiting f (typ, payload)) typ payload (cl_todo f) s' t r Hi eq_refl
    eq_refl He).
Qed.

Lemma lookup_same {A} (l l' : list A) i x :
  length l = length l' -> l !! i = Some x -> exists y, l' !! i = Some y.
Proof.
  intros Hl Hi. apply lookup_lt_is_Some_2. rewrite <- Hl. by apply lookup_lt_Some in Hi.
Qed.

Context (Hpc : pathConcurrent srv = false).

(** A step while no section has the driver to itself. *)
Lemma serialised_together s fs gs s' fs' :
  pool_ok srv fs -> length fs = length gs -> agree None fs gs -> pool_step srv (s, fs) (s', fs') ->
  exists y, rtc (serial_step srv) (s, gs) y /\ serialised (s', fs') y.
Proof.
  intros [Hc _] Hl Ha H. inversion H as [s1 s2 cls i f f' Hi Hst]; subst.
  destruct (lookup_same _ _ _ _ Hl Hi) as [g Hg].
  destruct (follows_step _ _ _ _ _ g (Ha i f g ltac:(done) Hi Hg) (Hc i f Hi) Hst)
    as [-> Hf|q x -> He Hf _|q p m -> _ Hm1 Hm2 -> _ He].
  - exists (s, gs). split; [done|]. split; simpl; [by rewrite length_insert|]. left. split; [done|].
    by eapply agree_insert_l.
  - exists (s', <[i := settled f x]> gs). split; [by eapply rtc_once, serial_request|].
    split; simpl; [by rewrite !length_insert|]. left. split; [done|]. by apply agree_insert.
  - destruct (exec p s') as [s2 x] eqn:Ep.
    exists (s2, <[i := settled f x]> gs). split; [eapply rtc_once, serial_request; [done|by rewrite He]|].
    split; simpl; [by rewrite !length_insert|]. right. exists i. split.
    + apply agree_insert; [by apply agree_open|done].
    + exists (running f p m), p, x. 
      rewrite !list_lookup_insert_eq by (by eapply lookup_lt_Some).
      split_and!; try done. simpl. destruct m; auto; done.
Qed.

(** A mode that excludes the others leaves them none. *)
Lemma alone_free h o :
  h = Exclusive \/ h = PathShared -> shares (pathConcurrent srv) h o = true -> o = Free.
Proof. rewrite Hpc. by intros [->| ->]; destruct o. Qed.

(** The session that has the driver to itself moves. *)
Lemma ahead_own s fs sg gs j f s' f' :
  pool_ok srv fs -> length fs = length gs -> ahead s fs sg gs j -> fs !! j = Some f ->
  client_step srv (lock_permits srv fs j) s f s' f' -> serialised (s', <[j := f']> fs) (sg, gs).
Proof.
  intros [Hc _] Hl [Ha (f0 & p & x & Hj0 & Hn & Hh & He & Hg)] Hj H.
  rewrite Hj in Hj0. injection Hj0 as <-.
  assert (cl_held f <> Free) as Hnf by (by destruct Hh as [-> | ->]).
  pose proof (client_ok_section _ _ (Hc j f Hj) Hn Hnf) as Hsec.
  split; simpl; [by rewrite length_insert|].
  destruct H as [s f typ payload todo E _|s f c k m s' y E _ Hf _ _|s f c k s' y E Hr Hy|
    s f c k s' y E Ea Hr Hy|s f t r E]; try congruence; rewrite Hn in E; injection E as ->.
  - left. destruct Hsec as [Hcl|[Hu _]]; [|apply under_plain in Hu as [_ ?]; congruence].
    destruct (closing_ends _ _ Hcl) as [x' Hend]. rewrite (exec_ends _ s x' Hend) in He.
    injection He as -> ->. pose proof (exec_lock c k sg s' y ltac:(by right) Hy) as ->.
    split; [done|]. eapply agree_close; [done|done|].
    apply (fo_done (running f (k y) Free) x); [|done]. simpl. by rewrite (proj2 Hend y).
  - right. exists j. split.
    + intros i g g' Hij Hi. rewrite list_lookup_insert_ne in Hi by congruence. by apply (Ha i).
    + exists (running f (k y) (cl_held f)), (k y), x.
      rewrite list_lookup_insert_eq by (by eapply lookup_lt_Some). simpl in He. rewrite Hy in He.
      by split_and!.
  - by destruct Hsec.
Qed.

(** Another one moves meanwhile: it can begin a request, or answer one that needs no
    driver. *)
Lemma ahead_other s fs sg gs j i f s' f' :
  pool_ok srv fs -> length fs = length gs -> ahead s fs sg gs j -> i <> j -> fs !! i = Some f ->
  client_step srv (lock_permits srv fs i) s f s' f' ->
  exists y, rtc (serial_step srv) (sg, gs) y /\ serialised (s', <[i := f']> fs) y.
Proof.
  intros [Hc Hlk] Hl [Ha (h & p & x & Hj & Hn & Hh & He & Hgj)] Hij Hi H.
  destruct (lookup_same _ _ _ _ Hl Hi) as [g Hg].
  assert (cl_held f = Free) as Hf.
  { apply (alone_free (cl_held h)); [done|]. by apply (Hlk j h Hj i f). }
  destruct (follows_step _ _ _ _ _ g (Ha i f g ltac:(congruence) Hi Hg) (Hc i f Hi) H)
    as [-> Hfo|q x' -> _ Hfo Hq|q p' m _ Hp _ Hm _ _ _].
  - exists (sg, gs). split; [done|]. split; simpl; [by rewrite length_insert|]. right. exists j. split.
    + by eapply agree_insert_l.
    + exists h, p, x. rewrite list_lookup_insert_ne by done. by split_and!.
  - destruct (Hq Hf) as [-> Hq']. exists (sg, <[i := settled f x']> gs).
    split; [by eapply rtc_once, serial_request|]. split; simpl; [by rewrite !length_insert|].
    right. exists j. split.
    + by apply agree_insert.
    + exists h, p, x. rewrite !list_lookup_insert_ne by done. by split_and!.
  - destruct Hm. apply (alone_free (cl_held h)); [done|]. rewrite shares_sym. by apply (permits_apart _ _ _ _ Hp j h).
Qed.

Lemma serialised_step x x' y :
  pool_ok srv (snd x) -> serialised x y -> pool_step srv x x' ->
  exists y', rtc (serial_step srv) y y' /\ serialised x' y'.
Proof.
  destruct x as [s fs], x' as [s' fs'], y as [sg gs]. intros Hok [Hl Hs] H; simpl in *.
  destruct Hs as [[<- Ha]|[j Hj]].
  - by apply (serialised_together s fs).
  - inversion H as [s1 s2 cls i f f' Hi Hst]; subst. destruct (decide (i = j)) as [->|Hij].
    + exists (sg, gs). split; [done|]. by eapply ahead_own.
    + by eapply ahead_other.
Qed.

Lemma serialised_run x x' y :
  rtc (pool_step srv) x x' -> pool_ok srv (snd x) -> serialised x y ->
  exists y', rtc (serial_step srv) y y' /\ serialised x' y'.
Proof.
  intros H. revert y. induction H as [x|x1 x2 x3 H _ IH]; intros y Hok Hs; [eauto using rtc_refl|].
  destruct (serialised_step _ _ _ Hok Hs H) as (y2 & Hy2 & Hs2).
  destruct (IH y2) as (y3 & Hy3 & Hs3); [by eapply pool_ok_step|done|].
  exists y3. split; [by etrans|done].
Qed.

Lemma serialised_start x : Forall (fun cl => cl_now cl = None /\ cl_held cl = Free) (snd x) -> serialised x x.
Proof.
  intros Hf. split; [done|]. left. split; [done|]. intros i f g _ Hi Hg.
  rewrite Hi in Hg. injection Hg as <-. rewrite Forall_lookup in Hf.
  destruct (Hf i f Hi). by apply fo_idle.
Qed.

Lemma serialised_finished x y : serialised x y -> Forall finished (snd x) -> x = y.
Proof.
  destruct x as [s fs], y as [sg gs]. rewrite Forall_lookup. intros [Hl Hs] Hf. simpl in *.
  destruct Hs as [[-> Ha]|[j [_ (f & p & x & Hj & Hn & _)]]].
  2: { destruct (Hf j f Hj). congruence. }
  f_equal. apply list_eq_same_length with (length fs); [done..|]. intros i f g _ Hi Hg.
  destruct (Hf i f Hi) as [Hn _]. destruct (Ha i f g ltac:(done) Hi Hg); congruence.
Qed.

(** C13. Sessions with one request in progress each are isolated. Over any driver the
    lock leaves alone ([LockNeutral]), without [PathOpsConcurrent], and while the
    sessions last (their end closes files without the lock): whatever they send and
    however their calls on the driver interleave under the filesystem lock, when
    every packet is answered, the driver's state, every session's handle table and
    every session's replies are those of running whole requests one at a time, in
    some order that keeps each session's own. *)
Theorem sessions_serializable s0 reqs s cls :
  rtc (pool_step srv) (pool_start s0 reqs) (s, cls) -> Forall finished cls ->
  rtc (serial_step srv) (pool_start s0 reqs) (s, cls).
Proof.
  intros H Hf. destruct (serialised_run _ _ (pool_start s0 reqs) H) as (y & Hy & Hs).
  - apply pool_ok_start.
  - apply serialised_start. apply Forall_forall. intros cl Hin.
    apply list_elem_of_fmap in Hin as (q & -> & _). done.
  - by rewrite (serialised_finished _ _ Hs Hf).
Qed.
End serial.
