(* ===== verification/SessionsRuns.v ===== *)
(** Runs of sessions that share a driver, computed: an executable scheduler for
    [Sessions.pool_step], and what it shows on a small filesystem. *)

From S2P Require Import Prelude Codec Const Attrs Messages Packet Errors Path Driver Server.
From S2P Require Import Handle Attr Ops CopyData Session MemDriver OpsLaws SessionLaws.
From S2P Require Import Sessions SessionsLaws SessionsSerial.

Section advance.
Context {UT : UnicodeTables} {LK : FSLock} (srv : Server) {S : Type} `{!Driver S}.

(** The step of the session [i], if it can make one. *)
Definition advance (x : pool (S:=S)) (i : nat) : option (pool (S:=S)) :=
  let '(s, cls) := x in
  match cls !! i with
  | None => None
  | Some cl =>
      match cl_now cl with
      | None =>
          match cl_todo cl with
          | [] => None
          | (typ, payload) :: todo =>
              Some (s, <[i := begun cl todo (handle_request srv (cl_table cl) typ payload)]> cls)
          end
      | Some (Ret (t, r)) => Some (s, <[i := answered cl t r]> cls)
      | Some (Do c k) =>
          let '(s', y) := handle c s in
          match acquires c with
          | Some m =>
              if bool_decide (cl_held cl = Free) &&
                 grants (pathConcurrent srv) (map cl_held (take i cls ++ drop (Datatypes.S i) cls)) m
              then Some (s', <[i := running cl (k y) m]> cls) else None
          | None =>
              Some (s', <[i := running cl (k y) (if releases c then Free else cl_held cl)]> cls)
          end
      end
  end.

Lemma advance_step x i y : advance x i = Some y -> pool_step srv x y.
Proof.
  destruct x as [s cls]. unfold advance. destruct (cls !! i) as [cl|] eqn:Hi; [|done].
  destruct (cl_now cl) as [[[t r]|c k]|] eqn:E.
  - intros [= <-]. eapply pool_client; [done|]. by apply cs_reply.
  - destruct (handle c s) as [s' z] eqn:Eh. destruct (acquires c) as [m|] eqn:Ea.
    + destruct (bool_decide _ && _) eqn:Eb; [|done]. intros [= <-].
      apply andb_true_iff in Eb as [Hf%bool_decide_eq_true Hg].
      eapply pool_client; [done|]. by eapply cs_acquire.
    + intros [= <-]. eapply pool_client; [done|].
      destruct (releases c) eqn:Er; [by eapply cs_release|by eapply cs_call].
  - destruct (cl_todo cl) as [|[typ payload] todo] eqn:Et; [done|]. intros [= <-].
    eapply pool_client; [done|]. by eapply cs_begin.
Qed.

(** The sessions named, in turn; one that cannot move is passed over. *)
Definition interleave (turns : list nat) (x : pool (S:=S)) : pool (S:=S) :=
  fold_left (fun x i => default x (advance x i)) turns x.

Lemma interleave_runs turns x : rtc (pool_step srv) x (interleave turns x).
Proof.
  revert x. induction turns as [|i turns IH]; intros x; [done|]. simpl.
  destruct (advance x i) as [y|] eqn:E; simpl; [|apply IH].
  eapply rtc_l; [by eapply advance_step|apply IH].
Qed.
End advance.

(** Whether every session has ended. *)
Definition all_ended (cls : list client) : bool :=
  forallb (fun cl => match cl_now cl, cl_todo cl with None, [] => true | _, _ => false end) cls.

Lemma all_ended_finished cls : all_ended cls = true -> Forall finished cls.
Proof.
  unfold all_ended, finished. rewrite forallb_forall, Forall_forall. intros H cl Hin%list_elem_of_In.
  specialize (H cl Hin). by destruct (cl_now cl), (cl_todo cl).
Qed.

(** * Two sessions on one file

    The first opens the file and removes it; the second asks for its attributes and
    reads its directory. *)

Definition two_sessions : list (list (Z * bytes)) := [
  [(FxpOpen, open_a); (FxpRemove, remove_a)];
  [(FxpStat, payload_of {| pr_PacketType := FxpStat; pr_ID := 9; pr_Path := str "/a" |});
   (FxpOpendir, payload_of {| pr_PacketType := FxpOpendir; pr_ID := 10; pr_Path := str "/" |})]].

Definition two_start : pool (S:=Mem) := pool_start demo_mem two_sessions.

Definition two_run (turns : list nat) : pool (S:=Mem) :=
  interleave (UT:=ascii_tables) (demo_server false true) turns two_start.

(** In turns, until both have ended. *)
Definition in_turns : list nat := flat_map (fun _ => [0; 1]%nat) (seq 0 20).

Lemma two_run_reachable turns :
  rtc (pool_step (UT:=ascii_tables) (demo_server false true)) (pool_start demo_mem two_sessions)
    (two_run turns).
Proof. exact (interleave_runs (UT:=ascii_tables) (demo_server false true) turns two_start). Qed.

(** The first session is in its [Stat] under the exclusive lock; the second waits. *)
Definition one_waits : pool (S:=Mem) := two_run [0; 0; 1; 1]%nat.

Example second_waits : map cl_held (snd one_waits) = [Exclusive; Free].
Proof. vm_compute. reflexivity. Qed.

Lemma sessions_serializable_witness :
  rtc (serial_step (UT:=ascii_tables) (demo_server false true)) (pool_start demo_mem two_sessions)
    (two_run in_turns) /\
  map (fun cl => length (cl_replies cl)) (snd (two_run in_turns)) = [2; 2]%nat.
Proof.
  split; [|vm_compute; reflexivity].
  rewrite (surjective_pairing (two_run in_turns)).
  apply (sessions_serializable (UT:=ascii_tables) (demo_server false true) eq_refl demo_mem two_sessions).
  - rewrite <- surjective_pairing. exact (two_run_reachable in_turns).
  - apply all_ended_finished. vm_compute. reflexivity.
Defined.

Lemma sessions_complete_witness :
  Acc (fun b a => pool_step (UT:=ascii_tables) (demo_server false true) a b) one_waits /\
  map cl_held (snd one_waits) = [Exclusive; Free].
Proof.
  split; [|vm_compute; reflexivity].
  exact (proj1 (sessions_complete (UT:=ascii_tables) (demo_server false true) demo_mem two_sessions
    one_waits (two_run_reachable _))).
Defined.
