(* ===== verification/Crowd.v ===== *)
(** Sessions with several requests in progress, and their end, on one server:
    [src/session.go], [src/concurrent.go], [src/server.go], [src/handle.go].

    [Sessions] has one request of each session in progress and ends with the last
    reply. Here a READ or WRITE that [prepare] made a job of runs beside the others
    ([conn.Go]); any other request is a barrier, begun when nothing of its session
    is in progress and before anything else of it is ([conn.Barrier]); and at any
    time a session with nothing in progress may end, [Serve] then closing what is
    left in its table ([closeAll]) without the filesystem lock. A step is one call
    on the driver or the lock. Nothing more is assumed of the scheduler of
    [go-filesystems/inflight], so whatever it does is among the interleavings; which
    replies are sent when is not this file's subject. *)

From S2P Require Import Prelude Codec Const Attrs Messages Packet Errors Path Driver Server.
From S2P Require Import Handle Attr Ops CopyData Session MemDriver OpsLaws SessionLaws LockLaws.
From S2P Require Import Sessions SessionsLaws.

(** * State *)

(** A request in progress: its session, whether it is a barrier, what is left of it,
    and the mode it holds. *)
Record task := {
  tk_session : nat;
  tk_barrier : bool;
  tk_prog : prog (handles * Reply);
  tk_held : held
}.

(** A session: serving, in [closeAll], or over. *)
Inductive phase := Connected | Leaving (p : prog (handles * option error)) | Gone.

Record member := { mb_table : handles; mb_todo : list (Z * bytes); mb_phase : phase }.

Definition new_member (reqs : list (Z * bytes)) : member :=
  {| mb_table := newHandles; mb_todo := reqs; mb_phase := Connected |}.

Definition left_with (todo : list (Z * bytes)) (m : member) : member :=
  {| mb_table := mb_table m; mb_todo := todo; mb_phase := mb_phase m |}.

Definition holding (t : handles) (m : member) : member :=
  {| mb_table := t; mb_todo := mb_todo m; mb_phase := mb_phase m |}.

Definition in_phase (ph : phase) (m : member) : member :=
  {| mb_table := mb_table m; mb_todo := mb_todo m; mb_phase := ph |}.

Definition goes_on (tk : task) (p : prog (handles * Reply)) (h : held) : task :=
  {| tk_session := tk_session tk; tk_barrier := tk_barrier tk; tk_prog := p; tk_held := h |}.

Section crowd.
Context {UT : UnicodeTables} {LK : FSLock} (srv : Server) {S : Type} `{!Driver S}.

(** Whether [prepare] makes a job of the request. *)
Definition is_job (t : handles) (q : Z * bytes) : bool :=
  match prepare srv t (fst q) (snd q) with PJob _ => true | _ => false end.

(** A request begins. *)
Definition new_task (i : nat) (t : handles) (q : Z * bytes) : task :=
  {| tk_session := i; tk_barrier := negb (is_job t q);
     tk_prog := handle_request srv t (fst q) (snd q); tk_held := Free |}.

Record crowd := { cr_store : S; cr_members : list member; cr_tasks : gmap nat task }.

Definition crowd_start (s : S) (reqs : list (list (Z * bytes))) : crowd :=
  {| cr_store := s; cr_members := map new_member reqs; cr_tasks := ∅ |}.

(** What the other requests hold. *)
Definition held_beside (k : nat) (ts : gmap nat task) : list held :=
  map (fun x => tk_held (snd x)) (map_to_list (delete k ts)).

(** * Steps *)

(** One call of a request, which may take the modes that [permits] allows. *)
Inductive task_step (permits : held -> Prop) : S -> task -> S -> task -> Prop :=
| task_acquire s tk c k m s' x :
    tk_prog tk = Do c k -> acquires c = Some m -> tk_held tk = Free -> permits m ->
    handle c s = (s', x) -> task_step permits s tk s' (goes_on tk (k x) m)
| task_release s tk c k s' x :
    tk_prog tk = Do c k -> releases c = true ->
    handle c s = (s', x) -> task_step permits s tk s' (goes_on tk (k x) Free)
| task_call s tk c k s' x :
    tk_prog tk = Do c k -> acquires c = None -> releases c = false ->
    handle c s = (s', x) -> task_step permits s tk s' (goes_on tk (k x) (tk_held tk)).

Inductive crowd_step : crowd -> crowd -> Prop :=
(** The next packet of a session: beside its jobs if it is one, alone if not. *)
| crowd_begin s ms ts i m q todo k :
    ms !! i = Some m -> mb_phase m = Connected -> mb_todo m = q :: todo -> ts !! k = None ->
    (forall k' tk, ts !! k' = Some tk -> tk_session tk = i ->
       tk_barrier tk = false /\ is_job (mb_table m) q = true) ->
    crowd_step {| cr_store := s; cr_members := ms; cr_tasks := ts |}
      {| cr_store := s; cr_members := <[i := left_with todo m]> ms;
         cr_tasks := <[k := new_task i (mb_table m) q]> ts |}
(** A request makes a call. *)
| crowd_call s s' ms ts k tk tk' :
    ts !! k = Some tk ->
    task_step (fun m => grants (pathConcurrent srv) (held_beside k ts) m = true) s tk s' tk' ->
    crowd_step {| cr_store := s; cr_members := ms; cr_tasks := ts |}
      {| cr_store := s'; cr_members := ms; cr_tasks := <[k := tk']> ts |}
(** A request is over; a barrier leaves the table it made. *)
| crowd_over s ms ts k tk t r m :
    ts !! k = Some tk -> tk_prog tk = Ret (t, r) -> ms !! tk_session tk = Some m ->
    crowd_step {| cr_store := s; cr_members := ms; cr_tasks := ts |}
      {| cr_store := s;
         cr_members := <[tk_session tk := holding (if tk_barrier tk then t else mb_table m) m]> ms;
         cr_tasks := delete k ts |}
(** [run] returns, nothing being in progress, and [closeAll] begins. *)
| crowd_leave s ms ts i m order :
    ms !! i = Some m -> mb_phase m = Connected ->
    (forall k tk, ts !! k = Some tk -> tk_session tk <> i) ->
    order ≡ₚ map_to_list (mb_table m) ->
    crowd_step {| cr_store := s; cr_members := ms; cr_tasks := ts |}
      {| cr_store := s; cr_tasks := ts;
         cr_members := <[i := in_phase (Leaving (closeAll order (mb_table m) None)) m]> ms |}
| crowd_close s s' ms ts i m c k x :
    ms !! i = Some m -> mb_phase m = Leaving (Do c k) -> handle c s = (s', x) ->
    crowd_step {| cr_store := s; cr_members := ms; cr_tasks := ts |}
      {| cr_store := s'; cr_members := <[i := in_phase (Leaving (k x)) m]> ms; cr_tasks := ts |}
| crowd_gone s ms ts i m y :
    ms !! i = Some m -> mb_phase m = Leaving (Ret y) ->
    crowd_step {| cr_store := s; cr_members := ms; cr_tasks := ts |}
      {| cr_store := s; cr_members := <[i := in_phase Gone m]> ms; cr_tasks := ts |}.

(** * The invariant *)

(** A request in progress is what [SessionsLaws] knows of a session in its request. *)
Definition as_client (tk : task) : client :=
  {| cl_table := newHandles; cl_todo := []; cl_now := Some (tk_prog tk); cl_held := tk_held tk;
     cl_replies := [] |}.

Lemma task_as_client permits s tk s' tk' :
  task_step permits s tk s' tk' -> client_step srv permits s (as_client tk) s' (as_client tk').
Proof.
  intros H. destruct H as [s tk c k m s' x E Ha Hf Hp Hc|s tk c k s' x E Hr Hc|s tk c k s' x E Ha Hr Hc].
  - change (as_client _) with (running (as_client tk) (k x) m) at 2. eapply cs_acquire; [|done..].
    simpl. by rewrite E.
  - change (as_client _) with (running (as_client tk) (k x) Free) at 2. eapply cs_release; [|done..].
    simpl. by rewrite E.
  - change (as_client _) with (running (as_client tk) (k x) (cl_held (as_client tk))) at 2.
    eapply cs_call; [|done..]. simpl. by rewrite E.
Qed.

Definition task_ok (tk : task) : Prop := client_ok (as_client tk).

(** The close of an open file of the table [t]. *)
Definition closes (t : handles) (c : call) : Prop :=
  exists tok h f, t !! tok = Some h /\ of_file h = Some f /\ c = File_Close f.

Record crowd_ok (x : crowd) : Prop := {
  co_tasks : map_Forall (fun _ => task_ok) (cr_tasks x);
  co_apart : forall k k' tk tk', k <> k' -> cr_tasks x !! k = Some tk -> cr_tasks x !! k' = Some tk' ->
    shares (pathConcurrent srv) (tk_held tk) (tk_held tk') = true;
  co_session : forall k tk, cr_tasks x !! k = Some tk ->
    exists m, cr_members x !! tk_session tk = Some m /\ mb_phase m = Connected;
  co_leaving : forall i m p, cr_members x !! i = Some m -> mb_phase m = Leaving p ->
    wp anything (closes (mb_table m)) p (fun _ => True)
}.

Lemma closeAll_closes (t0 : handles) order t first :
  (forall tok h, (tok, h) ∈ order -> t0 !! tok = Some h) ->
  wp anything (closes t0) (closeAll order t first) (fun _ => True).
Proof.
  revert t first. induction order as [|[tok h] order IH]; intros t first Ho; [done|]. cbn [closeAll].
  assert (forall t first, wp anything (closes t0) (closeAll order t first) (fun _ => True)) as Hn.
  { intros t' first'. apply IH. intros tok' h' Hin. apply Ho. by right. }
  apply wp_bind. destruct (of_file h) as [f|] eqn:E; [|apply Hn]. split; [|intros x _; apply Hn].
  exists tok, h, f. split_and!; [|done|done]. apply Ho. left.
Qed.

Lemma held_beside_elem k k' (ts : gmap nat task) tk' :
  k' <> k -> ts !! k' = Some tk' -> tk_held tk' ∈ held_beside k ts.
Proof.
  intros Hn Hk. apply list_elem_of_fmap. exists (k', tk'). split; [done|].
  apply elem_of_map_to_list. by rewrite lookup_delete_ne by congruence.
Qed.

(** A step of a request keeps it inside its section and apart from the others. *)
Lemma task_step_ok s tk s' tk' k ts :
  task_step (fun m => grants (pathConcurrent srv) (held_beside k ts) m = true) s tk s' tk' ->
  task_ok tk ->
  (forall k' u, k' <> k -> ts !! k' = Some u -> shares (pathConcurrent srv) (tk_held tk) (tk_held u) = true) ->
  task_ok tk' /\
  forall k' u, k' <> k -> ts !! k' = Some u -> shares (pathConcurrent srv) (tk_held tk') (tk_held u) = true.
Proof.
  intros H%task_as_client Hok Hap.
  set (beside m := forall k' u, k' <> k -> ts !! k' = Some u -> shares (pathConcurrent srv) m (tk_held u) = true).
  assert (client_step srv beside s (as_client tk) s' (as_client tk')) as H'.
  { eapply client_step_mono; [|exact H]. intros m Hg k' u Hn Hu. eapply grants_excludes; [exact Hg|].
    by eapply held_beside_elem. }
  exact (client_step_ok srv beside s _ s' _ H' Hok (fun _ _ _ _ => eq_refl) Hap).
Qed.

(** A change of one session that leaves its phase. *)
Lemma same_phase (ms : list member) i m m' j n :
  ms !! i = Some m -> mb_phase m' = mb_phase m -> ms !! j = Some n -> mb_phase n = Connected ->
  exists n', <[i := m']> ms !! j = Some n' /\ mb_phase n' = Connected.
Proof.
  intros Hi E Hj Hn. destruct (decide (j = i)) as [->|Hne].
  - exists m'. rewrite list_lookup_insert_eq by by eapply lookup_lt_Some. split; [done|congruence].
  - exists n. by rewrite list_lookup_insert_ne by congruence.
Qed.

Lemma crowd_ok_begin s ms ts i m q todo k :
  crowd_ok {| cr_store := s; cr_members := ms; cr_tasks := ts |} ->
  ms !! i = Some m -> mb_phase m = Connected -> ts !! k = None ->
  crowd_ok {| cr_store := s; cr_members := <[i := left_with todo m]> ms;
              cr_tasks := <[k := new_task i (mb_table m) q]> ts |}.
Proof.
  intros [Ht Ha Hs Hl] Hi Hph Hk. split; simpl in *.
  - apply map_Forall_insert_2; [|done]. apply handle_request_atomic.
  - intros k1 k2 t1 t2 Hn [[<- <-]|[? H1]]%lookup_insert_Some [[<- <-]|[? H2]]%lookup_insert_Some;
      [done|done|by rewrite shares_sym|by apply (Ha k1 k2)].
  - intros k1 tk [[<- <-]|[_ H1]]%lookup_insert_Some; simpl.
    + exists (left_with todo m). by rewrite list_lookup_insert_eq by by eapply lookup_lt_Some.
    + destruct (Hs k1 tk H1) as (n & Hn & Hc). by eapply same_phase.
  - intros j n p [[-> ->]|[_ Hj]]%lookup_swap Hp; [|by eapply Hl]. simpl in *. congruence.
Qed.

Lemma crowd_ok_call s s' ms ts k tk tk' :
  crowd_ok {| cr_store := s; cr_members := ms; cr_tasks := ts |} -> ts !! k = Some tk ->
  task_step (fun m => grants (pathConcurrent srv) (held_beside k ts) m = true) s tk s' tk' ->
  crowd_ok {| cr_store := s'; cr_members := ms; cr_tasks := <[k := tk']> ts |}.
Proof.
  intros [Ht Ha Hs Hl] Hk Hst. simpl in *.
  destruct (task_step_ok _ _ _ _ _ _ Hst (Ht k tk Hk)) as [Hok Hap].
  { intros k' u Hn Hu. eapply (Ha k k'); [congruence|done|done]. }
  split; simpl; [by apply map_Forall_insert_2| | |done].
  - intros k1 k2 t1 t2 Hn [[<- <-]|[? H1]]%lookup_insert_Some [[<- <-]|[? H2]]%lookup_insert_Some;
      [done| | |by apply (Ha k1 k2)].
    + by apply (Hap k2).
    + rewrite shares_sym. by apply (Hap k1).
  - intros k1 u [[<- <-]|[_ H1]]%lookup_insert_Some; [|by eapply Hs].
    assert (tk_session tk' = tk_session tk) as -> by (by destruct Hst). by eapply Hs.
Qed.

Lemma crowd_ok_over s ms ts k tk m t :
  crowd_ok {| cr_store := s; cr_members := ms; cr_tasks := ts |} -> ts !! k = Some tk ->
  ms !! tk_session tk = Some m ->
  crowd_ok {| cr_store := s; cr_members := <[tk_session tk := holding t m]> ms; cr_tasks := delete k ts |}.
Proof.
  intros [Ht Ha Hs Hl] Hk Hm. simpl in *.
  assert (mb_phase m = Connected) as Hc by (destruct (Hs k tk Hk) as (n & Hn & ?); congruence).
  split; simpl.
  - by apply map_Forall_delete.
  - intros k1 k2 t1 t2 Hn [_ H1]%lookup_delete_Some [_ H2]%lookup_delete_Some. by apply (Ha k1 k2).
  - intros k1 u [_ H1]%lookup_delete_Some. destruct (Hs k1 u H1) as (n & Hn & Hp). by eapply same_phase.
  - intros j n p [[-> ->]|[_ Hj]]%lookup_swap Hp; [|by eapply Hl]. simpl in *. congruence.
Qed.

(** A session that no request is in progress of moves in [closeAll]. *)
Lemma crowd_ok_phase s s' ms ts i m ph :
  crowd_ok {| cr_store := s; cr_members := ms; cr_tasks := ts |} -> ms !! i = Some m ->
  (forall k tk, ts !! k = Some tk -> tk_session tk <> i) ->
  (forall p, ph = Leaving p -> wp anything (closes (mb_table m)) p (fun _ => True)) ->
  crowd_ok {| cr_store := s'; cr_members := <[i := in_phase ph m]> ms; cr_tasks := ts |}.
Proof.
  intros [Ht Ha Hs Hl] Hi Hno Hph. split; simpl in *; [done|done| |].
  - intros k tk Hk. destruct (Hs k tk Hk) as (n & Hn & Hp). exists n.
    rewrite list_lookup_insert_ne; [done|]. intros E. by apply (Hno k tk Hk).
  - intros j n p [[-> ->]|[_ Hj]]%lookup_swap Hp; [|by eapply Hl]. by apply Hph.
Qed.

(** A session in [closeAll] has no request in progress. *)
Lemma leaving_alone x i m p :
  crowd_ok x -> cr_members x !! i = Some m -> mb_phase m = Leaving p ->
  forall k tk, cr_tasks x !! k = Some tk -> tk_session tk <> i.
Proof.
  intros I Hi Hp k tk Hk <-. destruct (co_session _ I k tk Hk) as (n & Hn & Hc). congruence.
Qed.

Lemma crowd_ok_step x y : crowd_step x y -> crowd_ok x -> crowd_ok y.
Proof.
  intros H I. destruct H as [s ms ts i m q todo k Hi Hph _ Hk _|s s' ms ts k tk tk' Hk Hst
    |s ms ts k tk t r m Hk _ Hm|s ms ts i m order Hi Hph Hno Ho
    |s s' ms ts i m c k x Hi Hp Hc|s ms ts i m y Hi Hp].
  - by eapply crowd_ok_begin.
  - by eapply crowd_ok_call.
  - by eapply crowd_ok_over.
  - eapply crowd_ok_phase; [done|done|done|]. intros p [= <-]. apply closeAll_closes.
    intros tok h Hin. rewrite Ho in Hin. by apply elem_of_map_to_list in Hin.
  - eapply crowd_ok_phase; [done|done|by eapply (leaving_alone _ i m _ I)|]. intros p [= <-].
    destruct (co_leaving _ I i m _ Hi Hp) as [_ Hk]. by apply Hk.
  - by eapply crowd_ok_phase; [done|done|by eapply (leaving_alone _ i m _ I)|].
Qed.

Lemma crowd_ok_start s reqs : crowd_ok (crowd_start s reqs).
Proof.
  split; simpl; [done|by intros|by intros|].
  intros i m p Hi Hp. apply list_lookup_fmap_Some in Hi as (q & -> & _). done.
Qed.

Lemma crowd_ok_reachable s reqs x : rtc crowd_step (crowd_start s reqs) x -> crowd_ok x.
Proof.
  intros H. assert (forall a b, rtc crowd_step a b -> crowd_ok a -> crowd_ok b) as Hr
    by (induction 1; eauto using crowd_ok_step).
  eapply Hr; [exact H|]. apply crowd_ok_start.
Qed.

(** * Exclusion *)

(** C14. What a driver must expect at the same time. Any number of sessions, whatever
    their packets, with any number of READs and WRITEs of each in progress beside
    each other, and each session ending when it likes: however their calls
    interleave under a lock that keeps apart what [src/server.go] says it does, two
    requests in progress, of one session or of two, are never both in a call on the
    driver unless both calls are [ReadAt] or [WriteAt], or the embedder asserted
    [PathOpsConcurrent] and each is one of those or a read-only path call. A session
    that is ending is not covered: it makes its calls without the lock, beside
    anybody's. They are [Close] and nothing else, of files its own table holds, and
    none of its own requests is in progress then. *)
Theorem sessions_exclude_each_other s0 reqs x :
  rtc crowd_step (crowd_start s0 reqs) x ->
  (forall k k' tk tk' c c', k <> k' -> cr_tasks x !! k = Some tk -> cr_tasks x !! k' = Some tk' ->
     next_call (as_client tk) = Some c -> next_call (as_client tk') = Some c' ->
     driver_call c = true -> driver_call c' = true -> may_overlap (pathConcurrent srv) c c' = true) /\
  (forall i m c f, cr_members x !! i = Some m -> mb_phase m = Leaving (Do c f) ->
     closes (mb_table m) c /\ forall k tk, cr_tasks x !! k = Some tk -> tk_session tk <> i).
Proof.
  intros I%crowd_ok_reachable. split.
  - intros k k' tk tk' c c' Hn Hk Hk' H1 H2 D1 D2.
    destruct (next_under _ _ (co_tasks _ I _ _ Hk) H1 D1) as [U1 N1].
    destruct (next_under _ _ (co_tasks _ I _ _ Hk') H2 D2) as [U2 N2].
    pose proof (co_apart _ I _ _ _ _ Hn Hk Hk') as Hs. unfold under in *. simpl in *. clear H1 H2.
    destruct (tk_held tk), (tk_held tk'); try done.
    all: destruct c; try done; destruct c'; try done; simpl in *; by destruct (pathConcurrent srv).
  - intros i m c f Hi Hp. split; [|by eapply leaving_alone].
    by destruct (co_leaving _ I i m _ Hi Hp) as [Hc _].
Qed.
End crowd.
