(* ===== verification/CrowdRuns.v ===== *)
(** Runs of [Crowd], computed: an executable scheduler, two READs of one session in
    [ReadAt] at once, and the end of a session overlapping with another's request. *)

From S2P Require Import Prelude Codec Const Attrs Messages Packet Errors Path Driver Server.
From S2P Require Import Handle Attr Ops CopyData Session MemDriver OpsLaws SessionLaws LockLaws.
From S2P Require Import Sessions SessionsLaws Crowd.

(** What moves: the next packet of a session begins, as the task [k]; a task makes a
    call, or is over; a session leaves; it closes its next file. *)
Inductive turn := TBegin (i k : nat) | TCall (k : nat) | TOver (k : nat) | TLeave (i : nat) | TFile (i : nat).

Section advance.
Context {UT : UnicodeTables} {LK : FSLock} (srv : Server) {S : Type} `{!Driver S}.

(** Every request in progress of the session [i] satisfies [p]. *)
Definition all_of (i : nat) (p : task -> bool) (ts : gmap nat task) : bool :=
  forallb (fun x => negb (tk_session (snd x) =? i)%nat || p (snd x)) (map_to_list ts).

Lemma all_of_spec i p ts k tk :
  all_of i p ts = true -> ts !! k = Some tk -> tk_session tk = i -> p tk = true.
Proof.
  unfold all_of. rewrite forallb_forall. intros H Hk E.
  specialize (H (k, tk) ltac:(by apply list_elem_of_In, elem_of_map_to_list)). simpl in H.
  by rewrite E, Nat.eqb_refl in H.
Qed.

Definition do_begin (x : crowd (S:=S)) (i k : nat) : option (crowd (S:=S)) :=
  match cr_members x !! i with
  | Some {| mb_table := t; mb_todo := q :: todo; mb_phase := Connected |} =>
      if bool_decide (cr_tasks x !! k = None) &&
         all_of i (fun tk => negb (tk_barrier tk) && is_job srv t q) (cr_tasks x)
      then Some {| cr_store := cr_store x;
                   cr_members := <[i := {| mb_table := t; mb_todo := todo; mb_phase := Connected |}]> (cr_members x);
                   cr_tasks := <[k := new_task srv i t q]> (cr_tasks x) |}
      else None
  | _ => None
  end.

Definition do_call (x : crowd (S:=S)) (k : nat) : option (crowd (S:=S)) :=
  match cr_tasks x !! k with
  | Some tk =>
      match tk_prog tk with
      | Ret _ => None
      | Do c f =>
          let '(s', y) := handle c (cr_store x) in
          let next h := Some {| cr_store := s'; cr_members := cr_members x;
                                cr_tasks := <[k := goes_on tk (f y) h]> (cr_tasks x) |} in
          match acquires c with
          | Some m =>
              if bool_decide (tk_held tk = Free) &&
                 grants (pathConcurrent srv) (held_beside k (cr_tasks x)) m then next m else None
          | None => next (if releases c then Free else tk_held tk)
          end
      end
  | None => None
  end.

Definition do_over (x : crowd (S:=S)) (k : nat) : option (crowd (S:=S)) :=
  match cr_tasks x !! k with
  | Some tk =>
      match tk_prog tk, cr_members x !! tk_session tk with
      | Ret (t, _), Some m =>
          Some {| cr_store := cr_store x;
                  cr_members := <[tk_session tk := holding (if tk_barrier tk then t else mb_table m) m]> (cr_members x);
                  cr_tasks := delete k (cr_tasks x) |}
      | _, _ => None
      end
  | None => None
  end.

Definition do_leave (x : crowd (S:=S)) (i : nat) : option (crowd (S:=S)) :=
  match cr_members x !! i with
  | Some m =>
      match mb_phase m with
      | Connected =>
          if all_of i (fun _ => false) (cr_tasks x)
          then Some {| cr_store := cr_store x; cr_tasks := cr_tasks x;
                       cr_members := <[i := in_phase (Leaving (closeAll (map_to_list (mb_table m)) (mb_table m) None)) m]> (cr_members x) |}
          else None
      | _ => None
      end
  | None => None
  end.

Definition do_file (x : crowd (S:=S)) (i : nat) : option (crowd (S:=S)) :=
  match cr_members x !! i with
  | Some m =>
      match mb_phase m with
      | Leaving (Do c f) =>
          let '(s', y) := handle c (cr_store x) in
          Some {| cr_store := s'; cr_members := <[i := in_phase (Leaving (f y)) m]> (cr_members x);
                  cr_tasks := cr_tasks x |}
      | Leaving (Ret _) =>
          Some {| cr_store := cr_store x; cr_members := <[i := in_phase Gone m]> (cr_members x);
                  cr_tasks := cr_tasks x |}
      | _ => None
      end
  | None => None
  end.

Definition advance (x : crowd (S:=S)) (m : turn) : option (crowd (S:=S)) :=
  match m with
  | TBegin i k => do_begin x i k
  | TCall k => do_call x k
  | TOver k => do_over x k
  | TLeave i => do_leave x i
  | TFile i => do_file x i
  end.

Lemma do_begin_step x i k y : do_begin x i k = Some y -> crowd_step srv x y.
Proof.
  unfold do_begin. destruct x as [s ms ts]; simpl.
  destruct (ms !! i) as [[t [|q todo] []]|] eqn:Hi; try done. destruct (_ && _) eqn:E; [|done].
  intros [= <-]. apply andb_true_iff in E as [Hk%bool_decide_eq_true Ha].
  apply (crowd_begin srv s ms ts i {| mb_table := t; mb_todo := q :: todo; mb_phase := Connected |} q todo k);
    [done..|].
  intros k' tk Hk' Hs. pose proof (all_of_spec _ _ _ _ _ Ha Hk' Hs) as H.
  apply andb_true_iff in H as [Hb%negb_true_iff Hj]. done.
Qed.

Lemma do_call_step x k y : do_call x k = Some y -> crowd_step srv x y.
Proof.
  unfold do_call. destruct x as [s ms ts]; simpl. destruct (ts !! k) as [tk|] eqn:Hk; [|done].
  destruct (tk_prog tk) as [|c f] eqn:Ep; [done|]. destruct (handle c s) as [s' z] eqn:Eh.
  destruct (acquires c) as [m|] eqn:Ea.
  - destruct (_ && _) eqn:E; [|done]. intros [= <-].
    apply andb_true_iff in E as [Hf%bool_decide_eq_true Hg].
    eapply crowd_call; [done|]. by eapply task_acquire.
  - intros [= <-]. eapply crowd_call; [done|].
    destruct (releases c) eqn:Er; [by eapply task_release|by eapply task_call].
Qed.

Lemma advance_crowd x m y : advance x m = Some y -> crowd_step srv x y.
Proof.
  destruct m as [i k|k|k|i|i]; simpl; [apply do_begin_step|apply do_call_step|..]; destruct x as [s ms ts].
  - unfold do_over. simpl. destruct (ts !! k) as [tk|] eqn:Hk; [|done].
    destruct (tk_prog tk) as [[t r]|] eqn:Ep; [|done]. destruct (ms !! _) as [m|] eqn:Hm; [|done].
    intros [= <-]. by eapply crowd_over.
  - unfold do_leave. simpl. destruct (ms !! i) as [m|] eqn:Hi; [|done].
    destruct (mb_phase m) eqn:Hp; try done. destruct (all_of _ _ _) eqn:E; [|done]. intros [= <-].
    apply crowd_leave; [done|done| |done]. intros k tk Hk Hs. by pose proof (all_of_spec _ _ _ _ _ E Hk Hs).
  - unfold do_file. simpl. destruct (ms !! i) as [m|] eqn:Hi; [|done].
    destruct (mb_phase m) as [|[z|c f]|] eqn:Hp; try done.
    + intros [= <-]. by eapply crowd_gone.
    + destruct (handle c s) as [s' z] eqn:Eh. intros [= <-]. by eapply crowd_close.
Qed.

(** The turns, one after the other; one that cannot be taken is passed over. *)
Definition turns (l : list turn) (x : crowd (S:=S)) : crowd (S:=S) :=
  fold_left (fun x m => default x (advance x m)) l x.

Lemma turns_run l x : rtc (crowd_step srv) x (turns l x).
Proof.
  revert x. induction l as [|m l IH]; intros x; [done|]. simpl.
  destruct (advance x m) as [y|] eqn:E; simpl; [|apply IH].
  eapply rtc_l; [by eapply advance_crowd|apply IH].
Qed.
End advance.

(** What the requests in progress and the ending sessions are about to call. *)
Definition task_calls (x : crowd (S:=Mem)) : list (nat * option call) :=
  map (fun y => (fst y, next_call (as_client (snd y)))) (map_to_list (cr_tasks x)).

Definition leaving_calls (x : crowd (S:=Mem)) : list (option call) :=
  map (fun m => match mb_phase m with Leaving (Do c _) => Some c | _ => None end) (cr_members x).

(** * Two READs of one session

    It opens the file and reads from it twice; both are in [ReadAt] at once. *)

Definition read_of (id off : Z) : Z * bytes :=
  (FxpRead, payload_of {| rr_ID := id; rr_Handle := EncodeToString (repeat (byte_of 0) handleBytes);
                          rr_Offset := off; rr_Length := 2 |}).

Definition read_twice : list (list (Z * bytes)) := [[(FxpOpen, open_a); read_of 11 0; read_of 12 2]].

Definition reading_turns : list turn :=
  TBegin 0 0 :: repeat (TCall 0) 8 ++ [TOver 0; TBegin 0 1; TBegin 0 2; TCall 1; TCall 2].

Definition reading : crowd (S:=Mem) :=
  turns (UT:=ascii_tables) (demo_server false true) reading_turns (crowd_start demo_mem read_twice).

Lemma reading_reachable :
  rtc (crowd_step (UT:=ascii_tables) (demo_server false true)) (crowd_start demo_mem read_twice) reading.
Proof. exact (turns_run (UT:=ascii_tables) (demo_server false true) reading_turns (crowd_start demo_mem read_twice)). Qed.

Definition the_file : File := {| f_id := 1; f_writable := true |}.

Definition next_of (k : nat) (x : crowd (S:=Mem)) : option call :=
  tk ← cr_tasks x !! k; next_call (as_client tk).

Example both_reading :
  next_of 1 reading = Some (File_ReadAt the_file 2 0) /\ next_of 2 reading = Some (File_ReadAt the_file 2 2).
Proof. split; vm_compute; reflexivity. Qed.

Lemma sessions_exclude_each_other_witness :
  may_overlap false (File_ReadAt the_file 2 0) (File_ReadAt the_file 2 2) = true.
Proof.
  destruct both_reading as [N1 N2]. pose proof reading_reachable as Hr. revert N1 N2 Hr. generalize reading. intros x N1 N2 Hr.
  destruct (sessions_exclude_each_other (UT:=ascii_tables) (demo_server false true) demo_mem read_twice x Hr)
    as [H _].
  unfold next_of in N1, N2.
  destruct (cr_tasks x !! 1%nat) as [tk|] eqn:E1; [|discriminate N1].
  destruct (cr_tasks x !! 2%nat) as [tk'|] eqn:E2; [|discriminate N2].
  exact (H 1%nat 2%nat tk tk' _ _ ltac:(discriminate) E1 E2 N1 N2 eq_refl eq_refl).
Defined.

(** * The end of a session

    One session has opened the file and leaves; another is in its [DeleteFile]. *)

Definition overlap : crowd (S:=Mem) :=
  turns (UT:=ascii_tables) (demo_server false true)
    (TBegin 0 0 :: repeat (TCall 0) 8 ++ [TOver 0; TLeave 0; TBegin 1 1; TCall 1])
    (crowd_start demo_mem [[(FxpOpen, open_a)]; [(FxpRemove, remove_a)]]).

Example session_end_overlaps :
  leaving_calls overlap = [Some (File_Close the_file); None] /\
  task_calls overlap = [(1%nat, Some (DeleteFile (str "/a")))] /\
  may_overlap false (File_Close the_file) (DeleteFile (str "/a")) = false.
Proof. split_and!; vm_compute; reflexivity. Qed.
