(* ===== verification/Pipeline.v ===== *)
(** Requests in flight: the loop of [run] in [src/session.go] over an
    [inflight.Conn], any number of sessions of one server.

    The connection and its pool are [go-filesystems/inflight], outside the
    repository. When it lets a session take a slot, a job or a barrier run, and a
    reply be written is a parameter, the class [Inflight]; of it only what
    [src/session.go], [src/concurrent.go] and [src/server.go] document is assumed,
    and that it ever does any of it is not. What the session does with a packet,
    and what a job or a barrier does when it runs, is the code's. A job is one step,
    as in [Concurrent], and so is a barrier, as [SessionsSerial] shows it may be
    taken to be. *)

From S2P Require Import Prelude Messages Errors Driver Server Handle Ops Session SessionLaws OpsLaws.
From S2P Require Import Concurrent.

(** * State *)

(** What a slot is to run. *)
Inductive work := WJob (j : job) | WBarrier.

(** An [inflight.Slot]: the session's number, the packet, and the reply once there
    is one. *)
Record slot := {
  sl_conn : nat;
  sl_In : Z * bytes;
  sl_work : work;
  sl_reply : option Reply
}.

(** A session: its table, the packets its client has still to send, and the replies
    written to it. *)
Record conn := {
  cn_table : handles;
  cn_todo : list (Z * bytes);
  cn_replies : list Reply
}.

Definition new_conn (reqs : list (Z * bytes)) : conn :=
  {| cn_table := newHandles; cn_todo := reqs; cn_replies := [] |}.

(** The slots in use, in the order they were taken. *)
Definition slots_of (i : nat) (sls : list slot) : list slot :=
  filter (fun sl => sl_conn sl = i) sls.

Definition set_reply (r : Reply) (sl : slot) : slot :=
  {| sl_conn := sl_conn sl; sl_In := sl_In sl; sl_work := sl_work sl; sl_reply := Some r |}.

Definition is_barrier (sl : slot) : bool :=
  match sl_work sl with WBarrier => true | WJob _ => false end.

(** A job that has still to run and comes first wherever it conflicts with [sp]. *)
Definition blocks (sp : Span) (sl : slot) : bool :=
  match sl_work sl, sl_reply sl with
  | WJob j, None => conflict (span j) sp
  | _, _ => false
  end.

(** * The connection

    Each field says whether something may happen, [earlier] being the slots taken
    before the one in question, of any session.
    - [Begin] gives a session a slot when it has one left ([WithMaxInFlight]), and
      not while a barrier of its own has still to run: [conn.Barrier] returns when
      it has, and only then is the next packet read.
    - A job given to [conn.Go] runs after the earlier ones whose span conflicts with
      its own, on whatever session ([Server.pool], [src/concurrent.go]).
    - A barrier runs when the earlier requests of its session are answered.
    - [inflight.InOrder]: a session's replies are written in the order its requests
      arrived in. *)
Class Inflight := {
  may_begin : Server -> list slot -> nat -> bool;
  may_go : list slot -> slot -> bool;
  may_pass : list slot -> slot -> bool;
  may_write : list slot -> slot -> bool;
  begin_slots : forall srv sls i, may_begin srv sls i = true -> len (slots_of i sls) < serveSlots srv;
  begin_barrier : forall srv sls i sl, may_begin srv sls i = true ->
    sl ∈ sls -> sl_conn sl = i -> is_barrier sl = true -> sl_reply sl <> None;
  go_order : forall earlier sl j sl0, may_go earlier sl = true -> sl_work sl = WJob j ->
    sl0 ∈ earlier -> blocks (span j) sl0 = false;
  pass_alone : forall earlier sl sl0, may_pass earlier sl = true ->
    sl0 ∈ earlier -> sl_conn sl0 = sl_conn sl -> sl_reply sl0 <> None;
  write_in_order : forall earlier sl sl0, may_write earlier sl = true ->
    sl0 ∈ earlier -> sl_conn sl0 <> sl_conn sl
}.

Definition with_todo (todo : list (Z * bytes)) (cn : conn) : conn :=
  {| cn_table := cn_table cn; cn_todo := todo; cn_replies := cn_replies cn |}.

Definition with_table (t : handles) (cn : conn) : conn :=
  {| cn_table := t; cn_todo := cn_todo cn; cn_replies := cn_replies cn |}.

Definition with_written (r : Reply) (cn : conn) : conn :=
  {| cn_table := cn_table cn; cn_todo := cn_todo cn; cn_replies := cn_replies cn ++ [r] |}.

Section pipeline.
Context {UT : UnicodeTables} {IF : Inflight} (srv : Server) {S : Type} `{!Driver S}.

Record pipes := {
  pp_store : S;
  pp_slots : list slot;
  pp_conns : list conn
}.

Definition pipes_start (s : S) (reqs : list (list (Z * bytes))) : pipes :=
  {| pp_store := s; pp_slots := []; pp_conns := map new_conn reqs |}.

(** What [prepare] makes of a packet: [conn.Go], or [conn.Barrier]. *)
Definition work_of (t : handles) (q : Z * bytes) : work :=
  match prepare srv t (fst q) (snd q) with PJob j => WJob j | _ => WBarrier end.

(** * Steps *)

Inductive pipe_step : pipes -> pipes -> Prop :=
(** [conn.Begin], and the packet is read. *)
| pipe_read s sls cns i cn q todo :
    cns !! i = Some cn -> cn_todo cn = q :: todo -> may_begin srv sls i = true ->
    pipe_step {| pp_store := s; pp_slots := sls; pp_conns := cns |}
      {| pp_store := s;
         pp_slots := sls ++ [{| sl_conn := i; sl_In := q; sl_work := work_of (cn_table cn) q;
                                sl_reply := None |}];
         pp_conns := <[i := with_todo todo cn]> cns |}
(** The run of [conn.Go]: the job that [prepare] made. *)
| pipe_run s sls sls' sl j s' r cns :
    sl_work sl = WJob j -> sl_reply sl = None -> may_go sls sl = true ->
    exec (run_job j) s = (s', r) ->
    pipe_step {| pp_store := s; pp_slots := sls ++ sl :: sls'; pp_conns := cns |}
      {| pp_store := s'; pp_slots := sls ++ set_reply r sl :: sls'; pp_conns := cns |}
(** The run of [conn.Barrier]: the early reply, or [dispatch]. *)
| pipe_barrier s sls sls' sl cn s' t r cns :
    sl_work sl = WBarrier -> sl_reply sl = None -> cns !! sl_conn sl = Some cn ->
    may_pass sls sl = true ->
    exec (handle_request srv (cn_table cn) (fst (sl_In sl)) (snd (sl_In sl))) s = (s', (t, r)) ->
    pipe_step {| pp_store := s; pp_slots := sls ++ sl :: sls'; pp_conns := cns |}
      {| pp_store := s'; pp_slots := sls ++ set_reply r sl :: sls';
         pp_conns := <[sl_conn sl := with_table t cn]> cns |}
(** A reply is written; the slot is free again. *)
| pipe_write s sls sls' sl r cn cns :
    sl_reply sl = Some r -> cns !! sl_conn sl = Some cn -> may_write sls sl = true ->
    pipe_step {| pp_store := s; pp_slots := sls ++ sl :: sls'; pp_conns := cns |}
      {| pp_store := s; pp_slots := sls ++ sls';
         pp_conns := <[sl_conn sl := with_written r cn]> cns |}.

(** Everything sent is answered. *)
Definition all_answered (x : pipes) : Prop :=
  pp_slots x = [] /\ Forall (fun cn => cn_todo cn = []) (pp_conns x).

(** * Lemmas *)

(** A request answered by [handle_request] is answered under its id, on a table
    that stays well formed. *)
Lemma request_answered t q s :
  table_wf t -> table_ro srv t ->
  let '(_, (t', r)) := exec (handle_request srv t (fst q) (snd q)) s in
  reply_id r = requestID (snd q) /\ table_wf t' /\ table_ro srv t'.
Proof.
  intros Ht Hr. destruct (exec_request srv t (fst q) (snd q) s Ht Hr) as [_ H].
  by destruct (exec _ s) as [s' [t' r]].
Qed.
End pipeline.
