(* ===== verification/PipelineSerial.v ===== *)
(** A session with requests in flight is the session that runs them one after the
    other ([src/session.go], [src/concurrent.go]): [Pipeline] refines
    [StreamLaws.serve_all], barriers and batches of READs and WRITEs together. *)

From S2P Require Import Prelude Codec Const Attrs Messages WireLaws Packet Errors Path Driver.
From S2P Require Import Server Handle Attr Ops CopyData Session MemDriver OpsLaws SessionLaws.
From S2P Require Import ReplyLaws StreamLaws DataLaws Concurrent Pipeline.

(** * Drivers *)

(** The calls jobs make. *)
Definition job_call (c : call) : bool :=
  match c with
  | ReadFile _ | WriteFile _ _ _ | File_ReadAt _ _ _ | File_WriteAt _ _ _ => true
  | _ => is_lock c
  end.

(** A driver that is its files' contents and a rest that reading and writing files
    leaves alone: an idealisation, which leaves out drivers that keep modification
    times, say. *)
Class PlainStore (S : Type) `{!Driver S} `{!FileStore S} := {
  rest_of : Type;
  rest : S -> rest_of;
  rest_same : forall c s, job_call c = true -> rest (fst (handle c s)) = rest s;
  store_ext : forall s s', (forall p, data_at s p = data_at s' p) -> rest s = rest s' -> s = s'
}.

#[export] Program Instance MemDriver_plain : PlainStore Mem := {|
  rest s := (m_dirs s, m_open s, m_next s, m_tokens s)
|}.
Next Obligation.
  intros c s Hc. destruct c; try done. unfold handle, MemDriver, mem_update. by repeat case_match.
Qed.
Next Obligation.
  intros [f1 d1 o1 n1 t1] [f2 d2 o2 n2 t2] Hd [= -> -> -> ->]. simpl in Hd.
  f_equal. by apply map_eq.
Qed.

Section serial.
Context {UT : UnicodeTables} {IF : Inflight} (srv : Server) {S : Type}.
Context `{!Driver S} `{!FileStore S} `{!PlainStore S}.

Abbreviation run_act a := (exec (run_job (act_job a))).

(** * Jobs leave the rest alone *)

Lemma exec_rest {A} (p : prog A) s :
  wp anything (fun c => job_call c = true) p (fun _ => True) -> rest (fst (exec p s)) = rest s.
Proof.
  revert s. induction p as [a|c k IH]; intros s; [done|]. simpl. intros [Hc Hk].
  pose proof (rest_same c s Hc) as Hr. destruct (handle c s) as [s' x]. simpl in Hr.
  by rewrite IH, Hr by by apply Hk.
Qed.

Lemma act_rest a s : rest (fst (run_act a s)) = rest s.
Proof.
  apply exec_rest. destruct a as [id [f|] p off n|id [w|] p off d]; simpl;
    unfold readAt, readWhole, writeSplice, answer_status;
    repeat (wp_step; cbn beta iota zeta); done.
Qed.

Lemma run_acts_rest l s : rest (fst (run_acts l s)) = rest s.
Proof.
  revert s. induction l as [|x l IH]; intros s; [done|]. rewrite run_acts_cons. simpl.
  by rewrite IH, act_rest.
Qed.

(** * Batches *)

(** The reply a job of the batch got, if it ran. *)
Definition ran (l : list (nat * act)) (s : S) (x : nat * act) : option Reply :=
  (list_to_map (snd (run_acts l s)) : gmap nat Reply) !! fst x.

Lemma run_acts_labels l s : map fst (snd (run_acts l s)) = map fst l.
Proof.
  revert s. induction l as [|x l IH]; intros s; [done|]. rewrite run_acts_cons. simpl. by rewrite IH.
Qed.

Lemma run_acts_snoc l x s :
  run_acts (l ++ [x]) s =
  (fst (run_act (snd x) (fst (run_acts l s))),
   snd (run_acts l s) ++ [(fst x, snd (run_act (snd x) (fst (run_acts l s))))]).
Proof.
  revert s. induction l as [|y l IH]; intros s.
  - cbn [app]. by rewrite run_acts_cons.
  - cbn [app]. rewrite !run_acts_cons. by rewrite IH.
Qed.

Lemma ran_None l s x : x ∈ l -> ran l s x <> None.
Proof.
  intros Hin Hn. unfold ran in Hn. apply not_elem_of_list_to_map in Hn. apply Hn.
  change (fst <$> snd (run_acts l s)) with (map fst (snd (run_acts l s))). rewrite run_acts_labels.
  by apply list_elem_of_fmap_2.
Qed.

Lemma ran_in l s y : ran l s y <> None -> exists x, x ∈ l /\ fst y = fst x.
Proof.
  unfold ran. destruct (_ !! _) as [r|] eqn:E; [|done]. intros _.
  apply elem_of_list_to_map_2, (list_elem_of_fmap_2 fst) in E.
  change (fst <$> snd (run_acts l s)) with (map fst (snd (run_acts l s))) in E.
  rewrite run_acts_labels in E. apply list_elem_of_fmap in E as (x & ? & ?). eauto.
Qed.

Lemma ran_snoc l x s y :
  fst y <> fst x -> ran (l ++ [x]) s y = ran l s y.
Proof.
  intros Hn. unfold ran. rewrite run_acts_snoc. simpl. rewrite list_to_map_app, lookup_union.
  simpl. rewrite lookup_insert_ne by congruence. rewrite lookup_empty. by destruct (_ !! _).
Qed.

Lemma ran_snoc_eq l x s :
  ran l s x = None -> ran (l ++ [x]) s x = Some (snd (run_act (snd x) (fst (run_acts l s)))).
Proof.
  intros Hn. unfold ran in *. rewrite run_acts_snoc. simpl. rewrite list_to_map_app, lookup_union.
  rewrite Hn. simpl. by rewrite lookup_insert_eq.
Qed.

Lemma ran_self l s :
  NoDup (map fst l) -> map (ran l s) l = map Some (map snd (snd (run_acts l s))).
Proof.
  intros Hnd. apply list_eq. intros i. rewrite !list_lookup_fmap.
  destruct (l !! i) as [x|] eqn:Ei.
  - assert (exists r, snd (run_acts l s) !! i = Some (fst x, r)) as [r Hr].
    { pose proof (f_equal (fun k => k !! i) (run_acts_labels l s)) as E. simpl in E.
      rewrite !list_lookup_fmap, Ei in E. destruct (snd (run_acts l s) !! i) as [[k r]|]; [|done].
      injection E as ->. eauto. }
    rewrite Hr. simpl. f_equal. unfold ran. apply elem_of_list_to_map.
    + change (NoDup (map fst (snd (run_acts l s)))). by rewrite run_acts_labels.
    + by eapply list_elem_of_lookup_2.
  - assert (snd (run_acts l s) !! i = None) as ->; [|done].
    apply lookup_ge_None. apply lookup_ge_None in Ei.
    pose proof (f_equal length (run_acts_labels l s)) as E. rewrite !length_map in E. lia.
Qed.

(** A batch that ran in any order the rule admits. *)
Lemma batch_complete l l' s :
  NoDup (map fst l) -> ready l s -> l' ≡ₚ l -> keeps_order l l' ->
  fst (run_acts l' s) = fst (run_acts l s) /\
  map (ran l' s) l = map Some (map snd (snd (run_acts l s))).
Proof.
  intros Hnd Hr Hp Ho.
  destruct (schedule_acts l l' s) as [P [_ E]]; [by eapply NoDup_fmap_1|done|done|done|].
  split.
  - apply store_ext; [done|]. by rewrite !run_acts_rest.
  - rewrite <- ran_self by done. apply map_ext. intros x. unfold ran. f_equal.
    apply list_to_map_proper; [|done].
    change (NoDup (map fst (snd (run_acts l' s)))). rewrite run_acts_labels. by rewrite Hp.
Qed.

(** * Sessions whose READs stay inside what is being written *)

(** The jobs of the READs and WRITEs up to the next barrier. *)
Fixpoint ahead (t : handles) (reqs : list (Z * bytes)) : list job :=
  match reqs with
  | [] => []
  | q :: reqs => match work_of srv t q with WJob j => j :: ahead t reqs | WBarrier => [] end
  end.

(** Whenever READs and WRITEs follow one another, run one after the other from [s],
    the open files are behind their paths, and those of them that READ a file the
    others write in place are inside it. *)
Fixpoint calm (t : handles) (reqs : list (Z * bytes)) (s : S) : Prop :=
  match reqs with
  | [] => True
  | q :: reqs' =>
      (work_of srv t q <> WBarrier ->
         files_behind t s /\ reads_inside (map (pair 0%nat) (ahead t reqs)) s) /\
      let '(s', (t', _)) := exec (handle_request srv t (fst q) (snd q)) s in calm t' reqs' s'
  end.

(** The request [q] is the job [x]. *)
Definition is_act (t : handles) (q : Z * bytes) (x : nat * act) : Prop :=
  work_of srv t q = WJob (act_job (snd x)).

Lemma is_act_request t q x s :
  is_act t q x ->
  exec (handle_request srv t (fst q) (snd q)) s = (fst (run_act (snd x) s), (t, snd (run_act (snd x) s))).
Proof.
  unfold is_act, work_of, handle_request. destruct (prepare _ _ _ _) as [j| |]; try done. intros [= ->].
  unfold keep. rewrite exec_bind. by destruct (run_act (snd x) s).
Qed.

Lemma serve_all_cons t q reqs s :
  exec (serve_all srv t (q :: reqs)) s =
  let '(s1, (t1, r)) := exec (handle_request srv t (fst q) (snd q)) s in
  let '(s2, (t2, rs)) := exec (serve_all srv t1 reqs) s1 in (s2, (t2, r :: rs)).
Proof.
  destruct q as [typ payload]. cbn [serve_all fst snd]. rewrite exec_bind.
  destruct (exec (handle_request srv t typ payload) s) as [s1 [t1 r]]. rewrite exec_bind.
  by destruct (exec (serve_all srv t1 reqs) s1) as [s2 [t2 rs]].
Qed.

Lemma serve_all_app t a b s :
  exec (serve_all srv t (a ++ b)) s =
  let '(s1, (t1, r1)) := exec (serve_all srv t a) s in
  let '(s2, (t2, r2)) := exec (serve_all srv t1 b) s1 in (s2, (t2, r1 ++ r2)).
Proof.
  revert t s. induction a as [|q a IH]; intros t s.
  - simpl. by destruct (exec (serve_all srv t b) s) as [? [? ?]].
  - cbn [app]. rewrite !serve_all_cons. destruct (exec (handle_request _ _ _ _) s) as [s1 [t1 r]].
    rewrite IH. destruct (exec (serve_all srv t1 a) s1) as [s2 [t2 r1]].
    by destruct (exec (serve_all srv t2 b) s2) as [s3 [t3 r2]].
Qed.

Lemma serve_batch t b l s :
  Forall2 (is_act t) b l ->
  exec (serve_all srv t b) s = (fst (run_acts l s), (t, map snd (snd (run_acts l s)))).
Proof.
  intros H. revert s. induction H as [|q x b l Hq _ IH]; intros s; [done|].
  rewrite serve_all_cons, (is_act_request t q x) by done. rewrite IH, run_acts_cons. done.
Qed.

Lemma calm_batch t b l rest s :
  Forall2 (is_act t) b l -> calm t (b ++ rest) s -> calm t rest (fst (run_acts l s)).
Proof.
  intros H. revert s. induction H as [|q x b l Hq _ IH]; intros s; [done|].
  cbn [app calm]. intros [_ Hc]. rewrite (is_act_request t q x) in Hc by done.
  rewrite run_acts_cons. by apply IH.
Qed.

Lemma ahead_batch t b l rest x :
  Forall2 (is_act t) b l -> x ∈ l -> act_job (snd x) ∈ ahead t (b ++ rest).
Proof.
  intros H. induction H as [|q y b l Hq _ IH]; [by intros ?%elem_of_nil|].
  cbn [app ahead]. rewrite Hq. intros [->|Hx]%elem_of_cons; [left|right; by apply IH].
Qed.

(** What [calm] gives a batch. *)
Lemma calm_behind t b l q rest s :
  Forall2 (is_act t) b l -> work_of srv t q <> WBarrier -> calm t (b ++ q :: rest) s -> files_behind t s.
Proof.
  intros H Hq. destruct H as [|q' y b l Hq' _]; cbn [app calm]; intros [Hc _]; apply Hc; [done|].
  unfold is_act in Hq'. congruence.
Qed.

Lemma calm_ready t b l rest s :
  Forall2 (is_act t) b l -> Forall (fun x => act_ok (snd x) /\ bound s (snd x)) l ->
  calm t (b ++ rest) s -> ready l s.
Proof.
  intros Hb Hf Hc. rewrite Forall_forall in Hf. split; [done|].
  intros x y Hx Hy Hp Hi. destruct x as [k [id f p off n|]]; [|done].
  destruct y as [k' [|id' [w|] p' off' d']]; try done. intros d Hd. cbn [snd act_path] in *. subst p'.
  assert (reads_inside (map (pair 0%nat) (ahead t (b ++ rest))) s) as Hin.
  { destruct Hb as [|q y b l Hq _]; [by apply elem_of_nil in Hx|]. cbn [app calm] in Hc.
    apply Hc. unfold is_act in Hq. congruence. }
  pose proof (ahead_batch t b l rest _ Hb Hx) as H1. pose proof (ahead_batch t b l rest _ Hb Hy) as H2.
  apply (Hin (0%nat, act_job (ARead id f p off n)) (0%nat, act_job (AWrite id' (Some w) p off' d'))
    p off n off' (len d') d); [by apply list_elem_of_fmap_2|by apply list_elem_of_fmap_2|done|done|done].
Qed.

(** * What the session has done of the sequential one

    The requests [pre] up to and including the last barrier that ran are those of
    [serve_all]. Of the READs and WRITEs [b] read since, the jobs [l], some have run,
    in the order [l']; a barrier [bar] may wait behind them. [old] are the slots
    already given back. *)
Record tracks (s0 : S) (reqs : list (Z * bytes)) (x : pipes (S:=S)) (cn : conn)
    (pre b bar : list (Z * bytes)) (sb : S) (rs : list Reply) (l l' : list (nat * act))
    (old hp hb hbar : list slot) : Prop := {
  tr_conns : pp_conns x = [cn];
  tr_zero : Forall (fun sl => sl_conn sl = 0%nat) (pp_slots x);
  tr_reqs : reqs = pre ++ b ++ bar ++ cn_todo cn;
  tr_table : table_wf (cn_table cn) /\ table_ro srv (cn_table cn);
  tr_base : exec (serve_all srv newHandles pre) s0 = (sb, (cn_table cn, rs));
  tr_calm : calm (cn_table cn) (b ++ bar ++ cn_todo cn) sb;
  tr_batch : Forall2 (is_act (cn_table cn)) b l;
  tr_labels : map fst l = seq 0 (length l);
  tr_acts : Forall (fun x => act_ok (snd x) /\ bound sb (snd x)) l;
  tr_ran : NoDup l' /\ forall x, x ∈ l' -> x ∈ l;
  tr_order : forall a c, before a c l -> conflict (act_span (snd a)) (act_span (snd c)) = true ->
    c ∈ l' -> before a c l';
  tr_store : pp_store x = fst (run_acts l' sb);
  tr_old : map sl_reply old = map Some (cn_replies cn);
  tr_hist : old ++ pp_slots x = hp ++ hb ++ hbar;
  tr_hp : map sl_reply hp = map Some rs;
  tr_hb : Forall2 (fun sl x => sl_work sl = WJob (act_job (snd x)) /\ sl_reply sl = ran l' sb x) hb l;
  tr_hbar : Forall2 (fun sl q => sl_work sl = WBarrier /\ sl_In sl = q /\ sl_reply sl = None) hbar bar;
  tr_one : (length bar <= 1)%nat
}.

Definition tracked (s0 : S) (reqs : list (Z * bytes)) (x : pipes (S:=S)) : Prop :=
  exists cn pre b bar sb rs l l' old hp hb hbar,
    tracks s0 reqs x cn pre b bar sb rs l l' old hp hb hbar.

Lemma tracked_start s0 reqs : calm newHandles reqs s0 -> tracked s0 reqs (pipes_start s0 [reqs]).
Proof.
  intros Hc. exists (new_conn reqs), [], [], [], s0, [], [], [], [], [], [], []. split; simpl; try done.
  - split; [constructor|done].
  - lia.
Qed.

(** ** Lists *)

(** Where an element of two lists in a row is. *)
Lemma app_cons_split {A} (u v p q : list A) x :
  u ++ x :: v = p ++ q ->
  (exists p2, p = u ++ x :: p2 /\ v = p2 ++ q) \/ (exists q1, q = q1 ++ x :: v /\ u = p ++ q1).
Proof.
  intros [(k & -> & ->)|(k & -> & E)]%app_eq_inv; [right; eauto|].
  destruct k as [|y k]; simpl in E.
  - right. exists []. by rewrite <- E, !app_nil_r.
  - injection E as <- ->. left. eauto.
Qed.

Lemma replied_all sls rs : map sl_reply sls = map Some rs -> forall sl, sl ∈ sls -> sl_reply sl <> None.
Proof.
  intros H sl Hin. apply (list_elem_of_fmap_2 sl_reply) in Hin. change (sl_reply <$> sls) with (map sl_reply sls) in Hin.
  rewrite H in Hin. by apply list_elem_of_fmap in Hin as (r & -> & _).
Qed.

(** What comes before an element of a list without repetitions. *)
Lemma before_in_prefix {A} (y x : A) u v :
  NoDup (u ++ x :: v) -> before y x (u ++ x :: v) -> y ∈ u.
Proof.
  intros Hnd Hb. assert (y ∈ u ++ x :: v) as Hy by (eapply elem_of_sublist; [|exact Hb]; left).
  apply elem_of_app in Hy as [?|[->|Hy]%elem_of_cons]; [done|exfalso..].
  - eapply sublist_NoDup in Hb; [|done]. apply NoDup_cons in Hb as [Hn _]. apply Hn. left.
  - apply list_elem_of_split in Hy as (v1 & v2 & ->).
    apply (not_before y x (u ++ x :: v1) v2); rewrite <- ?app_assoc; try done.
    apply elem_of_app. right. left.
Qed.

Lemma before_snoc {A} (y x : A) l : y ∈ l -> before y x (l ++ [x]).
Proof.
  intros (u & v & ->)%list_elem_of_split. unfold before. rewrite <- app_assoc.
  apply (sublist_app [] _ [y; x]); [apply sublist_nil_l|]. simpl. apply sublist_skip.
  apply singleton_sublist_l. apply elem_of_app. right. left.
Qed.

Lemma before_app_l {A} (y x : A) l k : before y x l -> before y x (l ++ k).
Proof. intros H. unfold before in *. by apply sublist_inserts_r. Qed.

Lemma before_snoc_inv {A} (y x z : A) l :
  NoDup (l ++ [z]) -> x ∈ l -> before y x (l ++ [z]) -> before y x l.
Proof.
  intros Hnd Hx Hb. assert (z ∉ l) as Hz.
  { apply NoDup_app in Hnd as (_ & Hd & _). intros Hin. apply (Hd z Hin). left. }
  assert (z ∉ [y; x]).
  { intros [->|[->|?%elem_of_nil]%elem_of_cons]%elem_of_cons; [|done|done].
    by apply (not_before y x l []). }
  pose proof (sublist_remove [y; x] l z [] ltac:(done) Hb) as Hs. by rewrite app_nil_r in Hs.
Qed.

(** ** Steps *)

Lemma labels_NoDup (l : list (nat * act)) : map fst l = seq 0 (length l) -> NoDup (map fst l).
Proof. intros ->. apply NoDup_seq. Qed.

Lemma labels_inj (l : list (nat * act)) x y :
  NoDup (map fst l) -> x ∈ l -> y ∈ l -> fst x = fst y -> x = y.
Proof.
  intros Hnd Hx Hy E. apply list_elem_of_lookup in Hx as [i Hi], Hy as [k Hk].
  assert (i = k) as ->; [|congruence]. eapply NoDup_lookup; [exact Hnd|..].
  - by rewrite list_lookup_fmap, Hi.
  - by rewrite list_lookup_fmap, Hk, E.
Qed.

Lemma label_fresh (l l' : list (nat * act)) a :
  map fst l = seq 0 (length l) -> (forall y, y ∈ l' -> y ∈ l) ->
  (length l ∉ map fst l') /\ NoDup (l ++ [(length l, a)]).
Proof.
  intros Hlab Hsub. split.
  - intros (y & Ey & Hy)%list_elem_of_fmap. apply Hsub, (list_elem_of_fmap_2 fst) in Hy.
    change (fst <$> l) with (map fst l) in Hy. rewrite Hlab, <- Ey in Hy. apply elem_of_seq in Hy. lia.
  - apply (NoDup_fmap_1 fst). change (NoDup (map fst (l ++ [(length l, a)]))). rewrite map_app, Hlab.
    change (map fst [(length l, a)]) with (seq (0 + length l) 1). rewrite <- seq_app. apply NoDup_seq.
Qed.

Lemma label_apart (l1 l2 : list (nat * act)) x y :
  NoDup (map fst (l1 ++ x :: l2)) -> y ∈ l1 \/ y ∈ l2 -> fst y <> fst x.
Proof.
  rewrite map_app. simpl. intros (_ & Hd & [Hx2 _]%NoDup_cons)%NoDup_app Hy E.
  destruct Hy as [Hy|Hy]; apply (list_elem_of_fmap_2 fst) in Hy; rewrite E in Hy; [|done].
  apply (Hd _ Hy). left.
Qed.

Lemma Forall2_impl_in_r {A B} (P Q : A -> B -> Prop) l k :
  Forall2 P l k -> (forall x y, y ∈ k -> P x y -> Q x y) -> Forall2 Q l k.
Proof.
  induction 1 as [|x y l k Hxy _ IH]; intros H; constructor.
  - apply H; [left|done].
  - apply IH. intros ? ? ?. apply H. by right.
Qed.

(** A slot without a reply is in use. *)
Lemma unanswered_in_use s0 reqs x cn pre b bar sb rs l l' old hp hb hbar sl :
  tracks s0 reqs x cn pre b bar sb rs l l' old hp hb hbar ->
  sl ∈ hp ++ hb ++ hbar -> sl_reply sl = None -> sl ∈ pp_slots x.
Proof.
  intros T Hin Hn. rewrite <- (tr_hist _ _ _ _ _ _ _ _ _ _ _ _ _ _ _ T) in Hin.
  apply elem_of_app in Hin as [Hin|?]; [|done].
  by destruct (replied_all _ _ (tr_old _ _ _ _ _ _ _ _ _ _ _ _ _ _ _ T) sl Hin).
Qed.

(** A session that may read on has no barrier waiting. *)
Lemma no_barrier_waits s0 reqs x cn pre b bar sb rs l l' old hp hb hbar :
  tracks s0 reqs x cn pre b bar sb rs l l' old hp hb hbar ->
  (forall sl, sl ∈ pp_slots x -> sl_conn sl = 0%nat -> is_barrier sl = true -> sl_reply sl <> None) ->
  bar = [].
Proof.
  intros T Hbar. pose proof T as [_ Hz _ _ _ _ _ _ _ _ _ _ _ _ _ _ Hhbar _].
  destruct bar as [|q0 bar]; [done|]. inversion Hhbar as [|sl ? hbar' ? (Hw & _ & Hn)]; subst.
  assert (sl ∈ pp_slots x) as Hin.
  { eapply (unanswered_in_use _ _ _ _ _ _ _ _ _ _ _ _ _ _ _ sl T); [|done].
    rewrite !elem_of_app. right; right. left. }
  rewrite Forall_forall in Hz. destruct (Hbar sl Hin (Hz sl Hin)); [|done].
  unfold is_barrier. by rewrite Hw.
Qed.

Lemma tracked_read s0 reqs s sls cns i cn q todo :
  tracked s0 reqs {| pp_store := s; pp_slots := sls; pp_conns := cns |} ->
  cns !! i = Some cn -> cn_todo cn = q :: todo ->
  (forall sl, sl ∈ sls -> sl_conn sl = i -> is_barrier sl = true -> sl_reply sl <> None) ->
  tracked s0 reqs {| pp_store := s;
    pp_slots := sls ++ [{| sl_conn := i; sl_In := q; sl_work := work_of srv (cn_table cn) q;
                           sl_reply := None |}];
    pp_conns := <[i := with_todo todo cn]> cns |}.
Proof.
  intros (cn0 & pre & b & bar & sb & rs & l & l' & old & hp & hb & hbar & T) Hi Hq Hbar.
  pose proof T as [Hcns Hz Hreqs [Hwf Hro] Hbase Hcalm Hbatch Hlab Hacts [Hnd Hsub] Hord Hst Hold Hhist Hhp Hhb Hhbar Hone].
  simpl in *. subst cns. destruct i as [|i]; [|done]. injection Hi as ->. simpl.
  assert (bar = []) as -> by by apply (no_barrier_waits _ _ _ _ _ _ _ _ _ _ _ _ _ _ _ T).
  inversion Hhbar; subst hbar. rewrite app_nil_r in Hhist. cbn [app] in *. rewrite Hq in *.
  destruct (work_of srv (cn_table cn) q) as [j|] eqn:Ew.
  - assert (files_behind (cn_table cn) sb) as Hfb by (eapply calm_behind; [done| |done]; congruence).
    unfold work_of in Ew. destruct (prepare _ _ _ _) as [j'| |] eqn:Ej; try done. injection Ew as ->.
    destruct (prepare_act srv (cn_table cn) _ _ j sb Hwf Hfb Ej) as (a & -> & Ha & Hb).
    set (x := (length l, a)). destruct (label_fresh l l' a Hlab Hsub) as [Hx Hnx].
    exists (with_todo todo cn), pre, (b ++ [q]), [], sb, rs, (l ++ [x]), l', old, hp,
      (hb ++ [{| sl_conn := 0; sl_In := q; sl_work := WJob (act_job a); sl_reply := None |}]), [].
    split; simpl; try done.
    + apply Forall_app. split; [done|]. by constructor.
    + by rewrite <- app_assoc.
    + by rewrite <- app_assoc.
    + apply Forall2_app; [done|]. constructor; [|done]. unfold is_act, work_of. by rewrite Ej.
    + rewrite map_app, Hlab, length_app. simpl. by rewrite seq_app.
    + apply Forall_app. split; [done|]. by constructor.
    + split; [done|]. intros y Hy. apply elem_of_app. left. by apply Hsub.
    + intros y c Hyc Hc Hin. apply Hord; [|done|done]. eapply before_snoc_inv; [done|by apply Hsub|done].
    + rewrite app_nil_r, !app_assoc, Hhist, <- app_assoc. done.
    + apply Forall2_app; [done|]. constructor; [|done]. split; [done|]. symmetry.
      unfold ran. apply not_elem_of_list_to_map_1.
      change (fst x ∉ map fst (snd (run_acts l' sb))). by rewrite run_acts_labels.
  - exists (with_todo todo cn), pre, b, [q], sb, rs, l, l', old, hp, hb,
      [{| sl_conn := 0; sl_In := q; sl_work := WBarrier; sl_reply := None |}].
    split; simpl; try done.
    + apply Forall_app. split; [done|]. by constructor.
    + by rewrite !app_assoc, Hhist, <- !app_assoc.
    + by repeat constructor.
Qed.

(** The job of a slot that has still to run. *)
Lemma waiting_job s0 reqs s sls sl sls' cns cn pre b bar sb rs l l' old hp hb hbar j :
  tracks s0 reqs {| pp_store := s; pp_slots := sls ++ sl :: sls'; pp_conns := cns |}
    cn pre b bar sb rs l l' old hp hb hbar ->
  sl_work sl = WJob j -> sl_reply sl = None ->
  exists hb1 hb2 l1 x l2, hb = hb1 ++ sl :: hb2 /\ l = l1 ++ x :: l2 /\ j = act_job (snd x) /\
    old ++ sls = hp ++ hb1 /\ sls' = hb2 ++ hbar /\ ran l' sb x = None /\
    Forall2 (fun sl x => sl_work sl = WJob (act_job (snd x)) /\ sl_reply sl = ran l' sb x) hb1 l1 /\
    Forall2 (fun sl x => sl_work sl = WJob (act_job (snd x)) /\ sl_reply sl = ran l' sb x) hb2 l2.
Proof.
  intros [_ _ _ _ _ _ _ _ _ _ _ _ _ Hhist Hhp Hhb Hhbar _] Hj Hn. simpl in Hhist.
  rewrite app_assoc in Hhist. apply app_cons_split in Hhist as [(p2 & -> & _)|(q1 & Hq & Ho)].
  { destruct (replied_all _ _ Hhp sl); [|done]. apply elem_of_app. right. left. }
  symmetry in Hq. apply app_cons_split in Hq as [(hb2 & -> & ->)|(k & -> & _)].
  - apply Forall2_app_inv_l in Hhb as (l1 & l2' & H1 & H2 & ->).
    inversion H2 as [|? x ? l2 [Hw Hr] H3]; subst. exists q1, hb2, l1, x, l2.
    rewrite Hj in Hw. injection Hw as ->. rewrite Hn in Hr. by split_and!.
  - apply Forall2_app_inv_l in Hhbar as (? & ? & _ & H2 & _). inversion H2 as [|? ? ? ? (Hw & _)]; congruence.
Qed.

Lemma tracked_run s0 reqs s sls sl sls' cns j s' r :
  tracked s0 reqs {| pp_store := s; pp_slots := sls ++ sl :: sls'; pp_conns := cns |} ->
  sl_work sl = WJob j -> sl_reply sl = None ->
  (forall sl0, sl0 ∈ sls -> blocks (span j) sl0 = false) -> exec (run_job j) s = (s', r) ->
  tracked s0 reqs {| pp_store := s'; pp_slots := sls ++ set_reply r sl :: sls'; pp_conns := cns |}.
Proof.
  intros (cn & pre & b & bar & sb & rs & l & l' & old & hp & hb & hbar & T) Hj Hn Hfree He.
  destruct (waiting_job _ _ _ _ _ _ _ _ _ _ _ _ _ _ _ _ _ _ _ _ T Hj Hn)
    as (hb1 & hb2 & l1 & x & l2 & -> & -> & -> & Ho & -> & Hx & Hh1 & Hh2).
  destruct T as [Hcns Hz Hreqs Htab Hbase Hcalm Hbatch Hlab Hacts [Hnd Hsub] Hord Hst Hold Hhist Hhp Hhb Hhbar Hone].
  simpl in *. pose proof (labels_NoDup _ Hlab) as Hndl.
  assert (x ∉ l') as Hxl by (intros Hin; by destruct (ran_None l' sb x Hin)).
  assert (forall y, y ∈ l1 \/ y ∈ l2 -> fst y <> fst x) as Hne by by intros y; apply label_apart.
  assert (forall sl y, y ∈ l1 \/ y ∈ l2 -> sl_work sl = WJob (act_job (snd y)) /\ sl_reply sl = ran l' sb y ->
    sl_work sl = WJob (act_job (snd y)) /\ sl_reply sl = ran (l' ++ [x]) sb y) as Hkeep.
  { intros sl' y Hy. by rewrite ran_snoc by by apply Hne. }
  exists cn, pre, b, bar, sb, rs, (l1 ++ x :: l2), (l' ++ [x]), old, hp, (hb1 ++ set_reply r sl :: hb2), hbar.
  rewrite Hst in He.
  split; simpl; try done.
  - apply Forall_app in Hz as [? [? ?]%Forall_cons]. apply Forall_app. split; [done|]. by constructor.
  - split.
    + apply NoDup_app. split_and!; [done| |apply NoDup_singleton]. intros y Hy E%list_elem_of_singleton. by subst.
    + intros y [?|E%list_elem_of_singleton]%elem_of_app; [auto|subst]. apply elem_of_app. right. left.
  - intros y c Hyc Hc [Hin|E%list_elem_of_singleton]%elem_of_app; [by apply before_app_l, Hord|subst c].
    apply before_snoc. assert (y ∈ l1) as Hy by (eapply before_in_prefix; [by eapply NoDup_fmap_1|done]).
    apply list_elem_of_lookup in Hy as [k Hk]. destruct (Forall2_lookup_r _ _ _ _ _ Hh1 Hk) as (sly & Hsl & Hw & Hr).
    assert (ran l' sb y <> None) as Hry.
    { assert (sly ∈ old ++ sls) as Hin by (rewrite Ho; apply elem_of_app; right; by eapply list_elem_of_lookup_2).
      apply elem_of_app in Hin as [Hin|Hin]; [rewrite <- Hr; exact (replied_all _ _ Hold sly Hin)|].
      specialize (Hfree sly Hin). unfold blocks in Hfree. rewrite Hw, Hr in Hfree.
      destruct (ran l' sb y); [done|]. unfold act_span in Hc. congruence. }
    destruct (ran_in l' sb y Hry) as (z & Hz' & Ez).
    assert (y = z) as ->; [|done]. eapply (labels_inj (l1 ++ x :: l2)); [done| |by apply Hsub|done].
    apply elem_of_app. left. by eapply list_elem_of_lookup_2.
  - rewrite run_acts_snoc. simpl. by rewrite He.
  - rewrite app_assoc, Ho, <- !app_assoc. done.
  - apply Forall2_app; [|constructor].
    + eapply Forall2_impl_in_r; [exact Hh1|]. intros sl' y Hy. apply Hkeep. by left.
    + split; [done|]. simpl. rewrite ran_snoc_eq by done. by rewrite He.
    + eapply Forall2_impl_in_r; [exact Hh2|]. intros sl' y Hy. apply Hkeep. by right.
Qed.

(** Every READ and WRITE since the last barrier has run: the sequential session has
    come as far. *)
Lemma batch_done s0 reqs x cn pre b bar sb rs l l' old hp hb hbar :
  tracks s0 reqs x cn pre b bar sb rs l l' old hp hb hbar ->
  (forall sl, sl ∈ hb -> sl_reply sl <> None) ->
  exists rs', exec (serve_all srv newHandles (pre ++ b)) s0 = (pp_store x, (cn_table cn, rs ++ rs')) /\
    map sl_reply hb = map Some rs' /\ calm (cn_table cn) (bar ++ cn_todo cn) (pp_store x).
Proof.
  intros [_ _ _ _ Hbase Hcalm Hbatch Hlab Hacts [Hnd Hsub] Hord Hst _ _ _ Hhb _ _] Hall.
  pose proof (labels_NoDup _ Hlab) as Hndl.
  assert (forall y, y ∈ l -> y ∈ l') as Hrev.
  { intros y Hy. apply list_elem_of_lookup in Hy as [k Hk].
    destruct (Forall2_lookup_r _ _ _ _ _ Hhb Hk) as (sl & Hsl & _ & Hr).
    destruct (ran_in l' sb y) as (z & Hz & Ez).
    { rewrite <- Hr. apply Hall. by eapply list_elem_of_lookup_2. }
    assert (y = z) as ->; [|done]. eapply (labels_inj l); [done|by eapply list_elem_of_lookup_2|by apply Hsub|done]. }
  destruct (batch_complete l l' sb) as [Es Er]; [done|by eapply calm_ready| | |].
  { apply NoDup_Permutation; [done|by eapply NoDup_fmap_1|]. split; auto. }
  { intros y c Hyc Hc. apply Hord; [done|done|]. apply Hrev.
    eapply elem_of_sublist; [|exact Hyc]. right. left. }
  exists (map snd (snd (run_acts l sb))). rewrite Hst, Es. split_and!.
  - rewrite serve_all_app, Hbase, (serve_batch _ _ l) by done. done.
  - rewrite <- Er. clear -Hhb. induction Hhb as [|sl y hb l [_ E] _ IH]; [done|]. simpl. by rewrite E, IH.
  - by eapply calm_batch.
Qed.

Lemma tracked_barrier s0 reqs s sls sl sls' cns cn s' t r :
  tracked s0 reqs {| pp_store := s; pp_slots := sls ++ sl :: sls'; pp_conns := cns |} ->
  sl_work sl = WBarrier -> sl_reply sl = None -> cns !! sl_conn sl = Some cn ->
  (forall sl0, sl0 ∈ sls -> sl_conn sl0 = sl_conn sl -> sl_reply sl0 <> None) ->
  exec (handle_request srv (cn_table cn) (fst (sl_In sl)) (snd (sl_In sl))) s = (s', (t, r)) ->
  tracked s0 reqs {| pp_store := s'; pp_slots := sls ++ set_reply r sl :: sls';
                     pp_conns := <[sl_conn sl := with_table t cn]> cns |}.
Proof.
  intros (cn0 & pre & b & bar & sb & rs & l & l' & old & hp & hb & hbar & T) Hw Hn Hi Hearlier He.
  pose proof T as [Hcns Hz Hreqs [Hwf Hro] Hbase Hcalm Hbatch Hlab Hacts [Hnd Hsub] Hord _ Hold Hhist Hhp Hhb Hhbar Hone].
  simpl in *. subst cns. rewrite Forall_forall in Hz.
  assert (sl_conn sl = 0%nat) as Hc0 by (apply Hz, elem_of_app; right; left). rewrite Hc0 in *.
  injection Hi as ->. simpl.
  rewrite app_assoc in Hhist. apply app_cons_split in Hhist as [(p2 & -> & _)|(q1 & Hq & Ho)].
  { destruct (replied_all _ _ Hhp sl); [|done]. apply elem_of_app. right. left. }
  symmetry in Hq. apply app_cons_split in Hq as [(hb2 & -> & _)|(k & -> & ->)].
  { apply Forall2_app_inv_l in Hhb as (? & ? & _ & H2 & _). inversion H2 as [|? ? ? ? [E _]]; congruence. }
  apply Forall2_app_inv_l in Hhbar as (bar1 & bar2 & H1 & H2 & ->).
  inversion H2 as [|? q ? bar3 (_ & Hin & _) H3]; subst. rewrite length_app in Hone. simpl in Hone.
  destruct bar1; [|simpl in Hone; lia]. destruct bar3; [|simpl in Hone; lia].
  inversion H1; subst. inversion H3; subst. rewrite app_nil_r in Ho.
  destruct (batch_done _ _ _ _ _ _ _ _ _ _ _ _ _ _ _ T) as (rs' & Hs & Hr & Hc).
  { intros sl0 Hin. assert (sl0 ∈ old ++ sls) as [Hin'|Hin']%elem_of_app
      by (rewrite Ho; apply elem_of_app; by right).
    - exact (replied_all _ _ Hold sl0 Hin').
    - apply Hearlier; [done|]. apply Hz, elem_of_app. by left. }
  simpl in *. pose proof (request_answered srv (cn_table cn) (sl_In sl) s Hwf Hro) as Ha.
  rewrite He in Ha. destruct Ha as (_ & Hwf' & Hro'). destruct Hc as [_ Hc]. rewrite He in Hc.
  exists (with_table t cn), (pre ++ b ++ [sl_In sl]), [], [], s', (rs ++ rs' ++ [r]), [], [],
    old, (hp ++ hb ++ [set_reply r sl]), [], [].
  split; simpl; try done.
  - apply Forall_app. split; [apply Forall_forall; intros ? ?; apply Hz, elem_of_app; by left|]. by constructor.
  - by rewrite <- !app_assoc.
  - rewrite app_assoc, serve_all_app, Hs, serve_all_cons, He. simpl. by rewrite <- app_assoc.
  - split; [constructor|done].
  - rewrite app_assoc, Ho, !app_nil_r, <- !app_assoc. done.
  - rewrite !map_app, Hhp, Hr. done.
  - lia.
Qed.

Lemma tracked_write s0 reqs s sls sl sls' cns cn r :
  tracked s0 reqs {| pp_store := s; pp_slots := sls ++ sl :: sls'; pp_conns := cns |} ->
  sl_reply sl = Some r -> cns !! sl_conn sl = Some cn ->
  (forall sl0, sl0 ∈ sls -> sl_conn sl0 <> sl_conn sl) ->
  tracked s0 reqs {| pp_store := s; pp_slots := sls ++ sls';
                     pp_conns := <[sl_conn sl := with_written r cn]> cns |}.
Proof.
  intros (cn0 & pre & b & bar & sb & rs & l & l' & old & hp & hb & hbar & T) Hr Hi Hfirst.
  destruct T as [Hcns Hz Hreqs Htab Hbase Hcalm Hbatch Hlab Hacts Hran Hord Hst Hold Hhist Hhp Hhb Hhbar Hone].
  simpl in *. subst cns. pose proof Hz as Hz'. rewrite Forall_forall in Hz'.
  assert (sl_conn sl = 0%nat) as Hc0 by (apply Hz', elem_of_app; right; left).
  destruct sls as [|sl0 sls].
  2: { destruct (Hfirst sl0); [left|]. rewrite Hc0. apply Hz'. left. }
  rewrite Hc0 in *. injection Hi as ->. simpl in *.
  exists (with_written r cn), pre, b, bar, sb, rs, l, l', (old ++ [sl]), hp, hb, hbar.
  split; simpl; try done.
  - by apply Forall_cons in Hz as [_ ?].
  - rewrite !map_app, Hold. simpl. by rewrite Hr.
  - by rewrite <- app_assoc.
Qed.

Lemma tracked_step s0 reqs x y : pipe_step srv x y -> tracked s0 reqs x -> tracked s0 reqs y.
Proof.
  intros H T. destruct H.
  - eapply tracked_read; eauto. intros sl Hin. by eapply begin_barrier.
  - eapply tracked_run; eauto. intros sl0 Hin. by eapply go_order.
  - eapply tracked_barrier; eauto. intros sl0 Hin. by eapply pass_alone.
  - eapply tracked_write; eauto. intros sl0 Hin. by eapply write_in_order.
Qed.

End serial.
