(* ===== verification/PipelineOne.v ===== *)
(** A session that has one slot ([WithMaxInFlight(1)]) serves its requests one after
    the other ([src/session.go], [src/server.go]): with one slot [Pipeline] is
    [StreamLaws.serve_all], over any driver, and so what [Session.loop] does is what
    the code does. *)

From S2P Require Import Prelude Codec Const Attrs Messages Packet Errors Path Driver Server.
From S2P Require Import Handle Attr Ops CopyData Session OpsLaws SessionLaws StreamLaws.
From S2P Require Import Concurrent Pipeline PipelineSerial.

Section one.
Context {UT : UnicodeTables} {IF : Inflight} (srv : Server) {S : Type} `{!Driver S}.
Context (Hone : serveSlots srv = 1).

(** The requests [answered] are those of the sequential session; of the next one, if
    it has been read, it is known whether it has run. *)
Definition stage (s0 : S) (reqs : list (Z * bytes)) (x : pipes (S:=S)) (cn : conn)
    (answered : list (Z * bytes)) : Prop :=
  match pp_slots x with
  | [] =>
      reqs = answered ++ cn_todo cn /\
      exec (serve_all srv newHandles answered) s0 = (pp_store x, (cn_table cn, cn_replies cn))
  | [sl] =>
      sl_conn sl = 0%nat /\ reqs = answered ++ sl_In sl :: cn_todo cn /\
      match sl_reply sl with
      | None =>
          sl_work sl = work_of srv (cn_table cn) (sl_In sl) /\
          exec (serve_all srv newHandles answered) s0 = (pp_store x, (cn_table cn, cn_replies cn))
      | Some r =>
          exec (serve_all srv newHandles (answered ++ [sl_In sl])) s0 =
            (pp_store x, (cn_table cn, cn_replies cn ++ [r]))
      end
  | _ => False
  end.

Definition staged (s0 : S) (reqs : list (Z * bytes)) (x : pipes (S:=S)) : Prop :=
  exists cn answered, pp_conns x = [cn] /\ stage s0 reqs x cn answered.

Lemma serve_all_snoc t a q s s1 t1 rs s2 t2 r :
  exec (serve_all srv t a) s = (s1, (t1, rs)) ->
  exec (handle_request srv t1 (fst q) (snd q)) s1 = (s2, (t2, r)) ->
  exec (serve_all srv t (a ++ [q])) s = (s2, (t2, rs ++ [r])).
Proof. intros E1 E2. by rewrite serve_all_app, E1, serve_all_cons, E2. Qed.

(** A job is what [handle_request] does with its packet. *)
Lemma job_request t q j s s' r :
  work_of srv t q = WJob j -> exec (run_job j) s = (s', r) ->
  exec (handle_request srv t (fst q) (snd q)) s = (s', (t, r)).
Proof.
  unfold work_of, handle_request. destruct (prepare _ _ _ _); try done. intros [= ->] E.
  unfold keep. by rewrite exec_bind, E.
Qed.

Lemma staged_read s0 reqs s sls cns i cn q todo :
  staged s0 reqs {| pp_store := s; pp_slots := sls; pp_conns := cns |} ->
  cns !! i = Some cn -> cn_todo cn = q :: todo -> may_begin srv sls i = true ->
  staged s0 reqs {| pp_store := s;
    pp_slots := sls ++ [{| sl_conn := i; sl_In := q; sl_work := work_of srv (cn_table cn) q;
                           sl_reply := None |}];
    pp_conns := <[i := with_todo todo cn]> cns |}.
Proof.
  intros (cn0 & answered & Hc & Hst) Hi Hq Hb%begin_slots. simpl in *. subst cns.
  destruct i as [|i]; [|done]. injection Hi as ->. unfold stage in *. simpl in *.
  destruct sls as [|sl [|]]; [|destruct Hst as (E & _)|done].
  - destruct Hst as [-> He]. exists (with_todo todo cn), answered. unfold stage; simpl.
    by rewrite Hq.
  - unfold slots_of in Hb. rewrite filter_cons, decide_True, filter_nil, Hone in Hb by done.
    by vm_compute in Hb.
Qed.

Lemma staged_step s0 reqs x y : pipe_step srv x y -> staged s0 reqs x -> staged s0 reqs y.
Proof.
  intros H T. destruct H as [s sls cns i cn q todo Hi Hq Hb|s sls sls' sl j s' r cns Hj Hn _ He
    |s sls sls' sl cn s' t r cns Hw Hn Hi _ He|s sls sls' sl r cn cns Hr Hi _].
  { by eapply staged_read. }
  all: destruct T as (cn0 & answered & Hc & Hst); unfold stage in Hst; simpl in *; subst cns;
    destruct sls as [|? [|]], sls' as [|]; try done; destruct Hst as (E0 & Hreqs & Hst).
  - rewrite Hn in Hst. destruct Hst as [Hw Hs]. rewrite Hj in Hw. symmetry in Hw.
    exists cn0, answered. split; [done|]. unfold stage; simpl. split_and!; [done|done|].
    eapply serve_all_snoc; [done|]. by eapply job_request.
  - rewrite Hn in Hst. destruct Hst as [_ Hs]. rewrite E0 in Hi |- *. injection Hi as ->.
    exists (with_table t cn), answered. split; [done|]. unfold stage; simpl. split_and!; [done|done|].
    by eapply serve_all_snoc.
  - rewrite Hr in Hst. rewrite E0 in Hi |- *. injection Hi as ->.
    exists (with_written r cn), (answered ++ [sl_In sl]). split; [done|]. unfold stage; simpl.
    by rewrite <- app_assoc.
Qed.

Lemma staged_reachable s0 reqs x : rtc (pipe_step srv) (pipes_start s0 [reqs]) x -> staged s0 reqs x.
Proof.
  intros H. assert (forall a b, rtc (pipe_step srv) a b -> staged s0 reqs a -> staged s0 reqs b) as Hr
    by (induction 1; eauto using staged_step).
  eapply Hr; [exact H|]. by exists (new_conn reqs), [].
Qed.

(** The replies of the first requests are the first replies. *)
Lemma serve_all_prefix t a b s rs s1 t1 :
  exec (serve_all srv t a) s = (s1, (t1, rs)) ->
  rs `prefix_of` snd (snd (exec (serve_all srv t (a ++ b)) s)).
Proof.
  intros E. rewrite serve_all_app, E. destruct (exec (serve_all srv t1 b) s1) as [s2 [t2 rs2]].
  by exists rs2.
Qed.

(** C12. With one slot a session is served sequentially. Over any driver and for any
    requests, whatever the connection does within its documented rules: the
    replies written so far are the first replies of the sequential specification
    of the session, and when everything is answered the replies, the handle table
    and the driver are those of the specification. *)
Theorem one_slot_is_sequential s0 reqs x cn :
  rtc (pipe_step srv) (pipes_start s0 [reqs]) x -> pp_conns x = [cn] ->
  (cn_replies cn `prefix_of` snd (snd (exec (serve_all srv newHandles reqs) s0))) /\
  (all_answered x ->
     exec (serve_all srv newHandles reqs) s0 = (pp_store x, (cn_table cn, cn_replies cn))).
Proof.
  intros Hx Hcn. destruct (staged_reachable _ _ _ Hx) as (cn0 & answered & Hc & Hst).
  rewrite Hcn in Hc. injection Hc as <-. unfold stage in Hst. split.
  - destruct (pp_slots x) as [|sl [|]]; [| |done].
    + destruct Hst as [-> Hs]. by eapply serve_all_prefix.
    + destruct Hst as (_ & -> & Hst). destruct (sl_reply sl) as [r|].
      * rewrite (cons_middle _ answered), app_assoc.
        etrans; [apply (prefix_app_r _ (cn_replies cn) [r]); done|]. by eapply serve_all_prefix.
      * destruct Hst as [_ Hst]. by eapply serve_all_prefix.
  - intros [Hs Ht]. rewrite Hs in Hst. rewrite Hcn in Ht. apply Forall_cons in Ht as [Ht _].
    destruct Hst as [-> He]. by rewrite Ht, app_nil_r.
Qed.
End one.
