(* ===== verification/PipelineRuns.v ===== *)
(** Runs of [Pipeline], computed: an executable scheduler, an executable test of
    [PipelineSerial.calm], and what they show on a small filesystem. *)

From S2P Require Import Prelude Codec Const Attrs Messages Packet Errors Path Driver Server.
From S2P Require Import Handle Attr Ops CopyData Session MemDriver OpsLaws SessionLaws StreamLaws.
From S2P Require Import Concurrent Pipeline PipelineSerial PipelineOne.

(** What moves: a session reads, a slot runs, a slot's reply is written. *)
Inductive move := MRead (i : nat) | MRun (k : nat) | MWrite (k : nat).

Definition unanswered (sl : slot) : bool := match sl_reply sl with None => true | Some _ => false end.

Lemma answered_reply sl : unanswered sl = false -> sl_reply sl <> None.
Proof. unfold unanswered. by destruct (sl_reply sl). Qed.

(** The connection that lets everything happen that the rules admit. *)
#[export, refine] Instance widest_conn : Inflight | 100 := {|
  may_begin srv sls i :=
    (len (slots_of i sls) <? serveSlots srv) &&
    forallb (fun sl => negb ((sl_conn sl =? i)%nat && is_barrier sl && unanswered sl)) sls;
  may_go earlier sl :=
    match sl_work sl with
    | WJob j => forallb (fun sl0 => negb (blocks (span j) sl0)) earlier
    | WBarrier => false
    end;
  may_pass earlier sl :=
    forallb (fun sl0 => negb ((sl_conn sl0 =? sl_conn sl)%nat && unanswered sl0)) earlier;
  may_write earlier sl := forallb (fun sl0 => negb (sl_conn sl0 =? sl_conn sl)%nat) earlier
|}.
Proof.
  - intros srv sls i [H%Z.ltb_lt _]%andb_true_iff. exact H.
  - intros srv sls i sl [_ H]%andb_true_iff Hin%list_elem_of_In E Hb. rewrite forallb_forall in H.
    specialize (H sl Hin). rewrite E, Nat.eqb_refl, Hb in H. by apply answered_reply, negb_true_iff.
  - intros earlier sl j sl0 H E Hin%list_elem_of_In. rewrite E, forallb_forall in H.
    by apply negb_true_iff, H.
  - intros earlier sl sl0 H Hin%list_elem_of_In E. rewrite forallb_forall in H.
    specialize (H sl0 Hin). rewrite E, Nat.eqb_refl in H. by apply answered_reply, negb_true_iff.
  - intros earlier sl sl0 H Hin%list_elem_of_In E. rewrite forallb_forall in H.
    specialize (H sl0 Hin). by rewrite E, Nat.eqb_refl in H.
Defined.

Section advance.
Context {UT : UnicodeTables} {IF : Inflight} (srv : Server) {S : Type} `{!Driver S}.

Definition do_read (x : pipes (S:=S)) (i : nat) : option (pipes (S:=S)) :=
  match pp_conns x !! i with
  | Some cn =>
      match cn_todo cn with
      | q :: todo =>
          if may_begin srv (pp_slots x) i then
            Some {| pp_store := pp_store x;
                    pp_slots := pp_slots x ++ [{| sl_conn := i; sl_In := q;
                      sl_work := work_of srv (cn_table cn) q; sl_reply := None |}];
                    pp_conns := <[i := with_todo todo cn]> (pp_conns x) |}
          else None
      | [] => None
      end
  | None => None
  end.

Definition do_run (x : pipes (S:=S)) (a : list slot) (sl : slot) (b : list slot) : option (pipes (S:=S)) :=
  match sl_work sl, pp_conns x !! sl_conn sl with
  | WJob j, _ =>
      if unanswered sl && may_go a sl then
        let '(s', r) := exec (run_job j) (pp_store x) in
        Some {| pp_store := s'; pp_slots := a ++ set_reply r sl :: b; pp_conns := pp_conns x |}
      else None
  | WBarrier, Some cn =>
      if unanswered sl && may_pass a sl then
        let '(s', (t, r)) := exec (handle_request srv (cn_table cn) (fst (sl_In sl)) (snd (sl_In sl)))
                               (pp_store x) in
        Some {| pp_store := s'; pp_slots := a ++ set_reply r sl :: b;
                pp_conns := <[sl_conn sl := with_table t cn]> (pp_conns x) |}
      else None
  | WBarrier, None => None
  end.

Definition do_write (x : pipes (S:=S)) (a : list slot) (sl : slot) (b : list slot) : option (pipes (S:=S)) :=
  match sl_reply sl, pp_conns x !! sl_conn sl with
  | Some r, Some cn =>
      if may_write a sl then
        Some {| pp_store := pp_store x; pp_slots := a ++ b;
                pp_conns := <[sl_conn sl := with_written r cn]> (pp_conns x) |}
      else None
  | _, _ => None
  end.

(** The slot [k], with those before and after it. *)
Definition at_slot {A} (k : nat) (sls : list slot) (f : list slot -> slot -> list slot -> option A) : option A :=
  match sls !! k with Some sl => f (take k sls) sl (drop (Datatypes.S k) sls) | None => None end.

Definition advance (x : pipes (S:=S)) (m : move) : option (pipes (S:=S)) :=
  match m with
  | MRead i => do_read x i
  | MRun k => at_slot k (pp_slots x) (do_run x)
  | MWrite k => at_slot k (pp_slots x) (do_write x)
  end.

Lemma do_read_step x i y : do_read x i = Some y -> pipe_step srv x y.
Proof.
  unfold do_read. destruct x as [s sls cns]; simpl. destruct (cns !! i) as [cn|] eqn:Hi; [|done].
  destruct (cn_todo cn) as [|q todo] eqn:Hq; [done|]. destruct (may_begin _ _ _) eqn:E; [|done].
  intros [= <-]. by apply pipe_read.
Qed.

Lemma do_run_step x a sl b y :
  pp_slots x = a ++ sl :: b -> do_run x a sl b = Some y -> pipe_step srv x y.
Proof.
  destruct x as [s sls cns]; simpl. intros -> H. unfold do_run, unanswered in H. simpl in H.
  destruct (sl_work sl) as [j|] eqn:Ew, (sl_reply sl) eqn:En; simpl in H; try done;
    [|by destruct (cns !! _)|].
  - destruct (may_go a sl) eqn:Ef; [|done].
    destruct (exec (run_job j) s) as [s' r] eqn:Ee. injection H as <-. by eapply pipe_run.
  - destruct (cns !! sl_conn sl) as [cn|] eqn:Hi; [|done]. destruct (may_pass a sl) eqn:Ef; [|done].
    destruct (exec (handle_request _ _ _ _) s) as [s' [t r]] eqn:Ee. injection H as <-.
    by eapply pipe_barrier.
Qed.

Lemma do_write_step x a sl b y :
  pp_slots x = a ++ sl :: b -> do_write x a sl b = Some y -> pipe_step srv x y.
Proof.
  destruct x as [s sls cns]; simpl. intros -> H. unfold do_write in H. simpl in H.
  destruct (sl_reply sl) as [r|] eqn:Er; [|done]. destruct (cns !! sl_conn sl) as [cn|] eqn:Hi; [|done].
  destruct (may_write a sl) eqn:Ef; [|done]. injection H as <-. by apply pipe_write.
Qed.

Lemma advance_pipe x m y : advance x m = Some y -> pipe_step srv x y.
Proof.
  destruct m as [i|k|k]; simpl; [apply do_read_step|..]; unfold at_slot;
    (destruct (pp_slots x !! k) as [sl|] eqn:E; [|done]); apply take_drop_middle in E; symmetry in E.
  - by apply do_run_step.
  - by apply do_write_step.
Qed.

(** The moves, one after the other; one that cannot be made is passed over. *)
Definition moves (ms : list move) (x : pipes (S:=S)) : pipes (S:=S) :=
  fold_left (fun x m => default x (advance x m)) ms x.

Lemma moves_run ms x : rtc (pipe_step srv) x (moves ms x).
Proof.
  revert x. induction ms as [|m ms IH]; intros x; [done|]. simpl.
  destruct (advance x m) as [y|] eqn:E; simpl; [|apply IH].
  eapply rtc_l; [by eapply advance_pipe|apply IH].
Qed.
End advance.

(** Whether every session has been read to its end. *)
Lemma read_out cns :
  forallb (fun cn => match cn_todo cn with [] => true | _ => false end) cns = true ->
  Forall (fun cn => cn_todo cn = []) cns.
Proof.
  rewrite forallb_forall, Forall_forall. intros H cn Hin%list_elem_of_In. specialize (H cn Hin).
  by destruct (cn_todo cn).
Qed.

(** * Testing [calm] *)

Section calm.
Context {UT : UnicodeTables} (srv : Server) {S : Type} `{!Driver S} `{!FileStore S}.

Definition test_behind (t : handles) (s : S) : bool :=
  forallb (fun x => match of_file (snd x) with
                    | Some f => bool_decide (file_at s f = Some (of_path (snd x)))
                    | None => true
                    end) (map_to_list t).

Definition test_inside (l : list job) (s : S) : bool :=
  forallb (fun r => match span r with
                    | ReadRange p off n =>
                        match data_at s p with Some d => off + n <=? len d | None => true end
                    | _ => true
                    end) l.

Fixpoint test_calm (t : handles) (reqs : list (Z * bytes)) (s : S) : bool :=
  match reqs with
  | [] => true
  | q :: reqs' =>
      match work_of srv t q with
      | WBarrier => true
      | WJob _ => test_behind t s && test_inside (ahead srv t reqs) s
      end &&
      let '(s', (t', _)) := exec (handle_request srv t (fst q) (snd q)) s in test_calm t' reqs' s'
  end.

Lemma test_calm_sound t reqs s : test_calm t reqs s = true -> calm srv t reqs s.
Proof.
  revert t s. induction reqs as [|q reqs IH]; intros t s; [done|]. cbn [test_calm calm].
  intros [H1 H2]%andb_true_iff. split.
  - destruct (work_of srv t q) as [j|]; [|done]. intros _. apply andb_true_iff in H1 as [Hb Hi]. split.
    + intros tok h f Ht Hf. unfold test_behind in Hb. rewrite forallb_forall in Hb.
      specialize (Hb (tok, h) ltac:(by apply list_elem_of_In, elem_of_map_to_list)). simpl in Hb.
      rewrite Hf in Hb. by apply bool_decide_eq_true in Hb.
    + intros r w p off n off' n' d Hr _ Er _ Hd. unfold test_inside in Hi. rewrite forallb_forall in Hi.
      apply list_elem_of_fmap in Hr as (j' & -> & Hj). specialize (Hi j' ltac:(by apply list_elem_of_In)).
      simpl in Er. rewrite Er, Hd in Hi. by apply Z.leb_le.
  - destruct (exec _ s) as [s' [t' r]]. by apply IH.
Qed.
End calm.

(** * A transfer

    The client opens a file, writes it in two pieces, reads what is behind them and
    asks for the file's attributes, all at once. The server reads everything it may,
    and runs the three jobs last to first. *)

Definition token : bytes := EncodeToString (repeat (byte_of 0) handleBytes).

Definition transfer : list (Z * bytes) :=
  [ (FxpOpen, payload_of {| or_ID := 1; or_Path := str "/a"; or_PFlags := Z.lor FxfRead FxfWrite;
                            or_Attrs := zero_Attributes |});
    (FxpWrite, payload_of {| wr_ID := 2; wr_Handle := token; wr_Offset := 0; wr_Data := str "XY" |});
    (FxpWrite, payload_of {| wr_ID := 3; wr_Handle := token; wr_Offset := 2; wr_Data := str "Z" |});
    (FxpRead, payload_of {| rr_ID := 4; rr_Handle := token; rr_Offset := 3; rr_Length := 2 |});
    (FxpStat, payload_of {| pr_PacketType := FxpStat; pr_ID := 5; pr_Path := str "/a" |}) ].

Definition transfer_start : pipes (S:=Mem) := pipes_start demo_mem [transfer].

Definition transfer_moves (ms : list move) : pipes (S:=Mem) :=
  moves (UT:=ascii_tables) (demo_server false true) ms transfer_start.

(** The OPEN is answered and the rest is in flight, the STAT waiting for it. *)
Definition in_flight : list move :=
  [MRead 0; MRun 0; MWrite 0; MRead 0; MRead 0; MRead 0; MRead 0].

Definition backwards : list move :=
  in_flight ++ [MRun 3; MRun 2; MRun 1; MRun 0; MRun 3; MWrite 0; MWrite 0; MWrite 0; MWrite 0].

Example transfer_in_flight :
  map sl_reply (pp_slots (transfer_moves in_flight)) = [None; None; None; None] /\
  map is_barrier (pp_slots (transfer_moves in_flight)) = [false; false; false; true].
Proof. split; vm_compute; reflexivity. Qed.

Lemma transfer_reachable ms :
  rtc (pipe_step (UT:=ascii_tables) (demo_server false true)) (pipes_start demo_mem [transfer])
    (transfer_moves ms).
Proof. exact (moves_run (UT:=ascii_tables) (demo_server false true) ms transfer_start). Qed.

(** The only session of a run. *)
Definition only_conn (x : pipes (S:=Mem)) : conn := default (new_conn []) (pp_conns x !! 0%nat).


(** ** One slot *)

Definition one_slot : Server :=
  {| fsys := all_caps; opener := true; ro := false; maxPacket := 0; start := 0;
     maxInFlight := 1; maxTotal := 256; packetWait := 0; pathConcurrent := false |}.

(** The same moves; those that would put a second request in flight are passed over,
    and the transfer is answered in the end. *)
Definition one_by_one : pipes (S:=Mem) :=
  moves (UT:=ascii_tables) one_slot (flat_map (fun _ => [MRead 0; MRead 0; MRun 0; MWrite 0]) (seq 0 5))
    transfer_start.

Lemma one_by_one_reachable :
  rtc (pipe_step (UT:=ascii_tables) one_slot) (pipes_start demo_mem [transfer]) one_by_one.
Proof. exact (moves_run (UT:=ascii_tables) one_slot _ transfer_start). Qed.

Lemma one_slot_is_sequential_witness :
  exec (serve_all (UT:=ascii_tables) one_slot newHandles transfer) demo_mem =
    (pp_store one_by_one, (cn_table (only_conn one_by_one), cn_replies (only_conn one_by_one))) /\
  map reply_id (cn_replies (only_conn one_by_one)) = [1; 2; 3; 4; 5].
Proof.
  split; [|vm_compute; reflexivity].
  apply (one_slot_is_sequential (UT:=ascii_tables) one_slot).
  - reflexivity.
  - exact one_by_one_reachable.
  - vm_compute. reflexivity.
  - split; [vm_compute; reflexivity|]. apply read_out. vm_compute. reflexivity.
Defined.
