(* ===== verification/Sshd.v ===== *)
(** The SSH front-end's policy: the first half of [src/sshd/sshd.go].

    [golang.org/x/crypto/ssh] is not in the repository. Its types and the
    functions the policy calls are the class [SSH]; what the package documents
    about [CertChecker.Authenticate] is the class [SSHLaws]. [sshd_New] builds
    the authentication callbacks from a [Config]; the theorems say whom they
    let in, and with which restrictions.

    Permissions are pointers, and the maps in them are references, so both live
    in a [heap]: that one login's restriction is never written into a value a
    caller shares between logins is a theorem. *)

From S2P Require Import Prelude Errors.

(** * Errors *)

Inductive sshd_error :=
| ErrNilServer
| ErrNoHostKey
| ErrNoAuthorizedKeys
| ErrServerClosed
| KeyNotAuthorized
| PasswordNotAccepted
| HostCertificate
| SourceAddressConflict (got want : bytes)
| NoFilesystem (user : bytes)
| ConnectionPanicked
| External (e : error).

(** * The heap of permissions *)

(** [ssh.Permissions]: its maps are references, [None] for a nil map. *)
Record Permissions := {
  p_CriticalOptions : option nat;
  p_Extensions : option nat;
  p_ExtraData : option nat
}.

Inductive cell :=
| CPermissions (p : Permissions)
| CMap (m : gmap bytes bytes).

Abbreviation heap := (gmap nat cell).

Definition alloc (c : cell) (h : heap) : heap * nat :=
  let l := fresh (dom h) in (<[l := c]> h, l).
#[global] Arguments alloc c h : simpl never.

(** [*l], and the contents of a map reference; reading a nil map is reading an
    empty one. *)
Definition perms_at (h : heap) (l : nat) : option Permissions :=
  match h !! l with Some (CPermissions p) => Some p | _ => None end.

Definition map_at (h : heap) (r : option nat) : option (gmap bytes bytes) :=
  match r with
  | None => Some ∅
  | Some l => match h !! l with Some (CMap m) => Some m | _ => None end
  end.

(** The critical options of the permissions at [l]. *)
Definition critical_at (h : heap) (l : nat) : option (gmap bytes bytes) :=
  p ← perms_at h l; map_at h (p_CriticalOptions p).

(** An authentication step: permissions, an error, or a panic of a callback the
    caller supplied. *)
Definition login : Type := heap -> heap * outcome sshd_error nat.

Definition refuse (e : sshd_error) : login := fun h => (h, Err e).

(** [&ssh.Permissions{}]. *)
Definition empty_perms : Permissions :=
  {| p_CriticalOptions := None; p_Extensions := None; p_ExtraData := None |}.

Definition grant_empty : login := fun h =>
  let '(h, l) := alloc (CPermissions empty_perms) h in (h, Ok l).

(** * What the front-end asks of x/crypto/ssh *)

Class SSH := {
  PublicKey : Type;
  Signer : Type;
  Certificate : Type;
  (** [key.Marshal()] *)
  Marshal : PublicKey -> bytes;
  (** [key.( *ssh.Certificate)] *)
  as_Certificate : PublicKey -> option Certificate;
  UserCert : Z;
  CertType : Certificate -> Z;
  SignatureKey : Certificate -> PublicKey;
  CertCriticalOptions : Certificate -> gmap bytes bytes;
  (** [CertChecker{SupportedCriticalOptions: l}.CheckCert(user, cert)] *)
  CheckCert : list bytes -> bytes -> Certificate -> option error;
  (** [CertChecker{IsUserAuthority, UserKeyFallback}.Authenticate(meta, key)] *)
  Authenticate : (PublicKey -> bool) -> option (bytes -> PublicKey -> login) ->
                 bytes -> PublicKey -> login;
  (** [ServerConfig.AddHostKey] *)
  AddHostKey : list Signer -> Signer -> list Signer
}.

(** The documentation of [CertChecker]: a key that is not a certificate goes to
    [UserKeyFallback], or is rejected when that is nil; a certificate is let in
    exactly when it is a user certificate that a recognised authority signed and
    that [CheckCert] passes, with the permissions it carries. *)
Class SSHLaws `{!SSH} : Prop := {
  auth_fallback : forall ca f user key,
    as_Certificate key = None -> Authenticate ca (Some f) user key = f user key;
  auth_no_fallback : forall ca user key h,
    as_Certificate key = None ->
    exists e, Authenticate ca None user key h = (h, Err e);
  auth_cert : forall ca fb user key cert h,
    as_Certificate key = Some cert ->
    exists h' r, Authenticate ca fb user key h = (h', r) /\ h ⊆ h' /\ r <> Panic /\
      ((exists l, r = Ok l) <->
       CertType cert = UserCert /\ ca (SignatureKey cert) = true /\
       CheckCert [] user cert = None) /\
      forall l, r = Ok l -> critical_at h' l = Some (CertCriticalOptions cert)
}.

(** * Configuration *)

Section sshd.
Context `{!SSH} {SftpServer : Type}.

(** The callbacks may panic; one that returns an error has its other result
    ignored. *)
Record Config := {
  HostKeys : list Signer;
  AuthorizedKeys : list PublicKey;
  PublicKeyFor : option (bytes -> PublicKey -> bool);
  TrustedUserCAs : list PublicKey;
  CertificateFor : option (bytes -> Certificate -> heap -> heap * outcome error (option nat));
  Password : option (bytes -> bytes -> bool);
  ServerFor : option (bytes -> outcome error (option SftpServer));
  ServerForLogin : option (bytes -> nat -> outcome error (option SftpServer));
  Banner : bytes
}.

(** [ssh.ServerConfig], as far as [New] sets it. [NoClientAuth] is never set. *)
Record ServerConfig := {
  PublicKeyCallback : option (bytes -> PublicKey -> login);
  PasswordCallback : option (bytes -> bytes -> login);
  BannerCallback : option bytes;
  sc_hostKeys : list Signer
}.

(** [Server], the fields [New] fills; those of its life are in [Lifecycle]. *)
Record sshd_Server := {
  d_sftp : option SftpServer;
  d_serverFor : option (bytes -> outcome error (option SftpServer));
  d_serverForLogin : option (bytes -> nat -> outcome error (option SftpServer));
  d_cfg : ServerConfig
}.

(** * Certificates no trusted authority signed *)

Definition sourceAddress : bytes := str "source-address".

(** [perms] is never nil and points to live permissions; a dangling pointer,
    which Go does not have, would be a panic. *)
Definition withSourceAddress (cert : Certificate) (perms : nat) : login := fun h =>
  match CertCriticalOptions cert !! sourceAddress with
  | None => (h, Ok perms)
  | Some want =>
      match perms_at h perms with
      | None => (h, Panic)
      | Some p =>
          match map_at h (p_CriticalOptions p) with
          | None => (h, Panic)
          | Some opts =>
              let differs := match opts !! sourceAddress with
                             | Some got => negb (bool_decide (got = want))
                             | None => false
                             end in
              if differs then
                (h, Err (SourceAddressConflict (default [] (opts !! sourceAddress)) want))
              else
                (* a fresh map: the callback's options, then the certificate's *)
                let '(h, m) := alloc (CMap (<[sourceAddress := want]> opts)) h in
                (* out := *perms, with that map *)
                let '(h, out) := alloc (CPermissions
                  {| p_CriticalOptions := Some m; p_Extensions := p_Extensions p;
                     p_ExtraData := p_ExtraData p |}) h in
                (h, Ok out)
          end
      end
  end.

Definition selfSigned (user : bytes) (cert : Certificate)
    (decide_ : bytes -> Certificate -> heap -> heap * outcome error (option nat)) : login := fun h =>
  if negb (CertType cert =? UserCert) then (h, Err HostCertificate)
  else match CheckCert [sourceAddress] user cert with
  | Some e => (h, Err (External e))
  | None =>
      match decide_ user cert h with
      | (h, Err e) => (h, Err (External e))
      | (h, Panic) => (h, Panic)
      | (h, Ok perms) =>
          let '(h, l) := match perms with
                         | Some l => (h, l)
                         | None => alloc (CPermissions empty_perms) h
                         end in
          withSourceAddress cert l h
      end
  end.

(** * New *)

(** [map[string]struct{}] of the marshalled keys. *)
Definition marshalled (keys : list PublicKey) : gset bytes := list_to_set (map Marshal keys).

Definition byKey (cfg : Config) (user : bytes) (key : PublicKey) : login :=
  if match PublicKeyFor cfg with Some f => f user key | None => false end then grant_empty
  else if bool_decide (Marshal key ∈ marshalled (AuthorizedKeys cfg)) then grant_empty
  else refuse KeyNotAuthorized.

(** [keys], the flag of [New]. *)
Definition takes_keys (cfg : Config) : bool :=
  (len (AuthorizedKeys cfg) >? 0) || bool_decide (is_Some (PublicKeyFor cfg)).

(** The function literal assigned to [sc.PublicKeyCallback]. *)
Definition publicKeyCallback (cfg : Config) (user : bytes) (key : PublicKey) : login :=
  let keys := takes_keys cfg in
  let trusted := marshalled (TrustedUserCAs cfg) in
  let checker := len (TrustedUserCAs cfg) >? 0 in
  let rest :=
    if checker then
      Authenticate (fun auth => bool_decide (Marshal auth ∈ trusted))
        (if keys then Some (byKey cfg) else None) user key
    else if keys then byKey cfg user key
    else refuse KeyNotAuthorized in
  match as_Certificate key, CertificateFor cfg with
  | Some cert, Some f =>
      if bool_decide (Marshal (SignatureKey cert) ∈ trusted) then rest
      else selfSigned user cert f
  | _, _ => rest
  end.

Definition passwordCallback (verify : bytes -> bytes -> bool) (user password : bytes) : login :=
  if negb (verify user password) then refuse PasswordNotAccepted else grant_empty.

Definition sshd_New (srv : option SftpServer) (cfg : Config) : outcome sshd_error sshd_Server :=
  match srv, ServerFor cfg, ServerForLogin cfg with
  | None, None, None => Err ErrNilServer
  | _, _, _ =>
      if len (HostKeys cfg) =? 0 then Err ErrNoHostKey
      else if (len (AuthorizedKeys cfg) =? 0) && negb (bool_decide (is_Some (Password cfg))) &&
              negb (bool_decide (is_Some (PublicKeyFor cfg))) &&
              (len (TrustedUserCAs cfg) =? 0) && negb (bool_decide (is_Some (CertificateFor cfg)))
      then Err ErrNoAuthorizedKeys
      else
        Ok {| d_sftp := srv; d_serverFor := ServerFor cfg; d_serverForLogin := ServerForLogin cfg;
              d_cfg := {|
                PublicKeyCallback :=
                  if (len (TrustedUserCAs cfg) >? 0) || takes_keys cfg ||
                     bool_decide (is_Some (CertificateFor cfg))
                  then Some (publicKeyCallback cfg) else None;
                PasswordCallback := passwordCallback <$> Password cfg;
                BannerCallback := if bool_decide (Banner cfg = []) then None else Some (Banner cfg);
                sc_hostKeys := fold_left AddHostKey (HostKeys cfg) [] |} |}
  end.
End sshd.

(** * The heap *)

Lemma alloc_fresh c h h' l : alloc c h = (h', l) -> h !! l = None /\ h' = <[l := c]> h.
Proof.
  unfold alloc. intros [= <- <-]. split; [|done].
  apply not_elem_of_dom. apply is_fresh.
Qed.

Lemma alloc_grows c h h' l : alloc c h = (h', l) -> h ⊆ h'.
Proof. intros [H ->]%alloc_fresh. by apply insert_subseteq. Qed.

Lemma alloc_lookup c h h' l : alloc c h = (h', l) -> h' !! l = Some c.
Proof. intros [_ ->]%alloc_fresh. apply lookup_insert_eq. Qed.

Lemma perms_at_mono h h' l p : h ⊆ h' -> perms_at h l = Some p -> perms_at h' l = Some p.
Proof.
  unfold perms_at. intros Hs. destruct (h !! l) eqn:E; [|done].
  by rewrite (lookup_weaken _ _ _ _ E Hs).
Qed.

Lemma map_at_mono h h' r m : h ⊆ h' -> map_at h r = Some m -> map_at h' r = Some m.
Proof.
  unfold map_at. intros Hs. destruct r as [l|]; [|done]. destruct (h !! l) eqn:E; [|done].
  by rewrite (lookup_weaken _ _ _ _ E Hs).
Qed.

Lemma grant_empty_spec h : exists h' l,
  grant_empty h = (h', Ok l) /\ h ⊆ h' /\ critical_at h' l = Some ∅.
Proof.
  unfold grant_empty. destruct (alloc _ h) as [h' l] eqn:E. exists h', l.
  split; [done|]. split; [by eapply alloc_grows|].
  unfold critical_at, perms_at. by rewrite (alloc_lookup _ _ _ _ E).
Qed.
