(* ===== verification/SshInstance.v ===== *)
(** A concrete stand-in for x/crypto/ssh: keys are byte strings, a certificate
    names its signer, its users and its critical options.

    It models no code of the repository. It keeps the documented behaviour
    ([SSHLaws]), so that behaviour can be met and witnesses can be evaluated. *)

From S2P Require Import Prelude Errors Sshd.

Record toy_cert := {
  tc_type : Z;
  tc_signer : bytes;
  tc_users : list bytes;
  tc_options : gmap bytes bytes
}.

Inductive toy_key :=
| TKey (b : bytes)
| TCert (b : bytes) (c : toy_cert).

Definition toy_marshal (k : toy_key) : bytes := match k with TKey b | TCert b _ => b end.

Definition toy_as_cert (k : toy_key) : option toy_cert :=
  match k with TKey _ => None | TCert _ c => Some c end.

(** Listed users only, and no critical option but source-address. *)
Definition toy_check (user : bytes) (c : toy_cert) : option error :=
  if bool_decide (user ∈ tc_users c) && bool_decide (map_Forall (fun k _ => k = sourceAddress) (tc_options c))
  then None else Some (errors_New (str "ssh: certificate not valid")).

Definition toy_authenticate (ca : toy_key -> bool) (fallback : option (bytes -> toy_key -> login))
    (user : bytes) (k : toy_key) : login := fun h =>
  match toy_as_cert k with
  | None => match fallback with
            | Some f => f user k h
            | None => (h, Err (External (errors_New (str "ssh: normal key pairs not accepted"))))
            end
  | Some c =>
      if (tc_type c =? 1) && ca (TKey (tc_signer c)) && bool_decide (toy_check user c = None) then
        let '(h, m) := alloc (CMap (tc_options c)) h in
        let '(h, l) := alloc (CPermissions {| p_CriticalOptions := Some m; p_Extensions := None;
                                             p_ExtraData := None |}) h in
        (h, Ok l)
      else (h, Err (External (errors_New (str "ssh: certificate refused"))))
  end.

#[export] Instance toy_ssh : SSH := {|
  PublicKey := toy_key;
  Signer := bytes;
  Certificate := toy_cert;
  Marshal := toy_marshal;
  as_Certificate := toy_as_cert;
  UserCert := 1;
  CertType := tc_type;
  SignatureKey c := TKey (tc_signer c);
  CertCriticalOptions := tc_options;
  CheckCert _ := toy_check;
  Authenticate := toy_authenticate;
  AddHostKey l k := l ++ [k]
|}.

#[export] Instance toy_ssh_laws : SSHLaws.
Proof.
  split.
  - intros ca f user [b|b c] H; [done|done].
  - intros ca user [b|b c] h H; [by eexists|done].
  - intros ca fb user [b|b c] cert h; [done|]. intros [= ->].
    cbn [Authenticate toy_ssh]. unfold toy_authenticate. cbn [toy_as_cert].
    cbn [CertType SignatureKey CheckCert CertCriticalOptions UserCert].
    destruct (_ && bool_decide _) eqn:E.
    + destruct (alloc _ h) as [h1 m] eqn:E1. destruct (alloc _ h1) as [h2 l] eqn:E2.
      exists h2, (Ok l). assert (h1 ⊆ h2) by (by eapply alloc_grows). split_and!; [done| |done| |].
      * etrans; [by eapply alloc_grows|done].
      * bool_prop. split; [done|eauto].
      * intros l' [= <-]. unfold critical_at, perms_at.
        rewrite (alloc_lookup _ _ _ _ E2). simpl.
        by rewrite (lookup_weaken _ _ _ _ (alloc_lookup _ _ _ _ E1) H).
    + exists h. eexists. split_and!; [done|done|done| |done]. split; [by intros [??]|].
      intros (H1 & H2 & H3). cbn in H1, H2, H3. by rewrite H1, H2, H3 in E.
Qed.

(** A string of less than 256 bytes in the encoding of RFC 4251. *)
Definition toy_string (b : bytes) : bytes := [x00; x00; x00; byte_of (len b)] ++ b.

Definition toy_unmarshal (payload : bytes) : option bytes :=
  if bool_decide (payload = toy_string (drop 4 payload)) then Some (drop 4 payload) else None.
