(* ===== verification/SshdLaws.v ===== *)
(** Whom the SSH front-end lets in ([src/sshd/sshd.go]): the callbacks that
    [sshd_New] builds, against the policy a [Config] states. *)

From S2P Require Import Prelude Errors Sshd SshInstance.

Section laws.
Context `{!SSH} {SftpServer : Type}.
Implicit Types (cfg : Config (SftpServer:=SftpServer)) (h : heap) (cert : Certificate).

Lemma elem_of_marshalled k keys : k ∈ marshalled keys <-> exists key, key ∈ keys /\ Marshal key = k.
Proof.
  unfold marshalled. rewrite elem_of_list_to_set, list_elem_of_fmap.
  split; intros (x & ? & ?); exists x; auto.
Qed.

(** * Restrictions of a certificate *)

(** The callback's options do not contradict the certificate's source-address. *)
Definition no_conflict cert (opts : gmap bytes bytes) : Prop :=
  forall got want, opts !! sourceAddress = Some got ->
    CertCriticalOptions cert !! sourceAddress = Some want -> got = want.

(** The options in force: the callback's, with the certificate's source-address. *)
Definition restricted cert (opts : gmap bytes bytes) : gmap bytes bytes :=
  match CertCriticalOptions cert !! sourceAddress with
  | Some want => <[sourceAddress := want]> opts
  | None => opts
  end.

Lemma withSourceAddress_spec cert l h opts :
  critical_at h l = Some opts ->
  exists h' r, withSourceAddress cert l h = (h', r) /\ h ⊆ h' /\ r <> Panic /\
    ((exists l', r = Ok l') <-> no_conflict cert opts) /\
    forall l', r = Ok l' -> critical_at h' l' = Some (restricted cert opts).
Proof.
  intros Hc. unfold withSourceAddress, no_conflict, restricted.
  destruct (CertCriticalOptions cert !! sourceAddress) as [want|].
  2:{ exists h, (Ok l). split_and!; [done|done|done| |by intros l' [= <-]].
      split; [done|eauto]. }
  unfold critical_at in Hc. destruct (perms_at h l) as [p|]; [|done]. simpl in Hc. rewrite Hc.
  destruct (opts !! sourceAddress) as [got|] eqn:Eg;
    [destruct (bool_decide_reflect (got = want)) as [->|Hn]|]; cbn [negb].
  2:{ eexists _, _. split_and!; [done|done|done| |done].
      split; [by intros [??]|]. intros Hx. by specialize (Hx got want eq_refl eq_refl). }
  all: destruct (alloc _ h) as [h1 m] eqn:E1; destruct (alloc _ h1) as [h2 out] eqn:E2.
  all: eexists _, _; split; [done|]; assert (h1 ⊆ h2) as H12 by (by eapply alloc_grows).
  all: split; [etrans; [by eapply alloc_grows|done]|].
  all: split_and!; [done|split; [intros _; naive_solver|eauto]|]; intros l' [= <-].
  all: unfold critical_at, perms_at; rewrite (alloc_lookup _ _ _ _ E2); simpl.
  all: by rewrite (lookup_weaken _ _ _ _ (alloc_lookup _ _ _ _ E1) H12).
Qed.

(** A callback that hands back live permissions and leaves others alone. *)
Definition callback_sane (f : bytes -> Certificate -> heap -> heap * outcome error (option nat)) :=
  forall user cert h h' l, f user cert h = (h', Ok (Some l)) -> is_Some (critical_at h' l).

(** What the callback says of a certificate: the heap it leaves and the critical
    options it sets. *)
Definition approves (f : bytes -> Certificate -> heap -> heap * outcome error (option nat))
    (user : bytes) cert h h1 (opts : gmap bytes bytes) : Prop :=
  exists p, f user cert h = (h1, Ok p) /\
    match p with Some l => critical_at h1 l = Some opts | None => opts = ∅ end.

Lemma selfSigned_spec f user cert h :
  callback_sane f ->
  (forall h' l, selfSigned user cert f h = (h', Ok l) ->
     CertType cert = UserCert /\ CheckCert [sourceAddress] user cert = None /\
     exists h1 opts, approves f user cert h h1 opts /\ no_conflict cert opts /\ h1 ⊆ h' /\
       critical_at h' l = Some (restricted cert opts)) /\
  (CertType cert = UserCert -> CheckCert [sourceAddress] user cert = None ->
   forall h1 opts, approves f user cert h h1 opts -> no_conflict cert opts ->
   exists h' l, selfSigned user cert f h = (h', Ok l)).
Proof.
  intros Hf. unfold selfSigned.
  destruct (Z.eqb_spec (CertType cert) UserCert) as [Ht|Ht]; simpl; [|done].
  destruct (CheckCert [sourceAddress] user cert) eqn:Ec; [done|].
  destruct (f user cert h) as [h1 [p| |]] eqn:Ed.
  2,3: by split; [done|intros _ _ h2 opts (? & ? & _); congruence].
  assert (exists h2 l opts,
    (match p with Some l => (h1, l) | None => alloc (CPermissions empty_perms) h1 end) = (h2, l) /\
    critical_at h2 l = Some opts /\ h1 ⊆ h2 /\ approves f user cert h h1 opts /\
    forall h3 opts', approves f user cert h h3 opts' -> opts' = opts)
    as (h2 & l & opts & E & Hc & Hs & Ha & Hu).
  { destruct p as [l|].
    - destruct (Hf _ _ _ _ _ Ed) as [opts Ho]. exists h1, l, opts.
      split_and!; [done|done|done|by exists (Some l)|].
      intros h3 o (p & Hp & Hq). rewrite Ed in Hp. injection Hp as <- <-. congruence.
    - destruct (alloc _ h1) as [h2 l] eqn:E. exists h2, l, ∅.
      split_and!; [done| |by eapply alloc_grows|by exists None|].
      + unfold critical_at, perms_at. by rewrite (alloc_lookup _ _ _ _ E).
      + intros h3 o (p & Hp & Hq). rewrite Ed in Hp. by injection Hp as <- <-. }
  rewrite E. destruct (withSourceAddress_spec cert l h2 opts Hc) as (h' & r & -> & Hg & _ & Hr & Hp).
  split.
  - intros h'' l' [= <- ->]. split_and!; [done|done|]. exists h1, opts.
    split_and!; [done|apply Hr; eauto|by etrans|by apply Hp].
  - intros _ _ h3 o Ho Hn. apply Hu in Ho as ->. apply Hr in Hn as [l' ->]. eauto.
Qed.

(** * Who is let in *)

(** The key itself is allowed, whatever it is. *)
Definition listed cfg (user : bytes) (key : PublicKey) : Prop :=
  (exists f, PublicKeyFor cfg = Some f /\ f user key = true) \/
  exists k, k ∈ AuthorizedKeys cfg /\ Marshal k = Marshal key.

Definition trusts cfg cert : Prop :=
  exists ca, ca ∈ TrustedUserCAs cfg /\ Marshal ca = Marshal (SignatureKey cert).

(** The certificate is valid for the user and a trusted authority signed it. *)
Definition issued cfg (user : bytes) cert : Prop :=
  CertType cert = UserCert /\ trusts cfg cert /\ CheckCert [] user cert = None.

(** No trusted authority signed it; it is valid for the user apart from that, and
    the caller's callback vouches for its signer. *)
Definition vouched cfg (user : bytes) cert h : Prop :=
  exists f h1 opts, CertificateFor cfg = Some f /\ ~ trusts cfg cert /\
    CertType cert = UserCert /\ CheckCert [sourceAddress] user cert = None /\
    approves f user cert h h1 opts /\ no_conflict cert opts.

(** The key offered by the user meets the policy. A certificate is taken for a
    plain key only when nothing is configured to check certificates. *)
Definition admits cfg (user : bytes) (key : PublicKey) h : Prop :=
  match as_Certificate key with
  | None => listed cfg user key
  | Some cert => issued cfg user cert \/ vouched cfg user cert h \/
      (TrustedUserCAs cfg = [] /\ CertificateFor cfg = None /\ listed cfg user key)
  end.

(** Configurations whose [CertificateFor] hands back live permissions. *)
Definition config_sane cfg : Prop := forall f, CertificateFor cfg = Some f -> callback_sane f.

Lemma trusts_spec cfg cert :
  bool_decide (Marshal (SignatureKey cert) ∈ marshalled (TrustedUserCAs cfg)) = true <->
  trusts cfg cert.
Proof. by rewrite bool_decide_eq_true, elem_of_marshalled. Qed.

Lemma byKey_spec cfg user key h :
  (exists h' l, byKey cfg user key h = (h', Ok l) /\ h ⊆ h' /\ listed cfg user key) \/
  (byKey cfg user key h = (h, Err KeyNotAuthorized) /\ ~ listed cfg user key).
Proof.
  destruct (grant_empty_spec h) as (h' & l & E & Hs & _). unfold byKey, listed.
  destruct (PublicKeyFor cfg) as [f|]; [destruct (f user key) eqn:Ef|].
  1: left; exists h', l; split_and!; [done|done|left; eauto].
  all: case_bool_decide as Hk; rewrite elem_of_marshalled in Hk.
  1,3: left; exists h', l; split_and!; [done|done|by right].
  all: right; split; [done|]; by intros [(g & ? & ?)|?]; [simplify_eq; congruence|].
Qed.

Lemma listed_takes_keys cfg user key : listed cfg user key -> takes_keys cfg = true.
Proof.
  unfold listed, takes_keys. intros [(f & -> & _)|(k & Hk & _)].
  - by rewrite orb_true_r.
  - destruct (AuthorizedKeys cfg) as [|k' l]; [by apply not_elem_of_nil in Hk|].
    rewrite len_cons. pose proof (len_nonneg l). by rewrite (proj2 (Z.gtb_lt _ _)) by lia.
Qed.

Lemma trusts_nonempty cfg cert : trusts cfg cert -> (len (TrustedUserCAs cfg) >? 0) = true.
Proof.
  intros (ca & Hk & _). destruct (TrustedUserCAs cfg) as [|k' l]; [by apply not_elem_of_nil in Hk|].
  rewrite len_cons. pose proof (len_nonneg l). apply Z.gtb_lt. lia.
Qed.

Lemma len_gtb_nil {A} (l : list A) : (len l >? 0) = false -> l = [].
Proof. intros E. bool_prop. apply len_zero. pose proof (len_nonneg l). lia. Qed.

Context {Laws : SSHLaws}.

(** What is done with a key no callback for certificates takes. *)
Definition keyOrAuthority cfg (user : bytes) (key : PublicKey) : login :=
  if len (TrustedUserCAs cfg) >? 0 then
    Authenticate (fun auth => bool_decide (Marshal auth ∈ marshalled (TrustedUserCAs cfg)))
      (if takes_keys cfg then Some (byKey cfg) else None) user key
  else if takes_keys cfg then byKey cfg user key
  else refuse KeyNotAuthorized.

Lemma publicKeyCallback_eq cfg user key :
  publicKeyCallback cfg user key =
  match as_Certificate key, CertificateFor cfg with
  | Some cert, Some f =>
      if bool_decide (Marshal (SignatureKey cert) ∈ marshalled (TrustedUserCAs cfg))
      then keyOrAuthority cfg user key else selfSigned user cert f
  | _, _ => keyOrAuthority cfg user key
  end.
Proof. done. Qed.

Lemma accepted_iff {P : Prop} (x : heap * outcome sshd_error nat) h r :
  x = (h, r) -> ((exists l, r = Ok l) <-> P) -> (exists h' l, x = (h', Ok l)) <-> P.
Proof. intros -> <-. split; [intros (? & l & [= _ ->])|intros [l ->]]; eauto. Qed.

Lemma refused_iff {P : Prop} (x : heap * outcome sshd_error nat) h e :
  x = (h, Err e) -> ~ P -> (exists h' l, x = (h', Ok l)) <-> P.
Proof. intros -> ?. by split; [intros (? & ? & ?)|]. Qed.

Lemma byKey_iff cfg user key h :
  (exists h' l, byKey cfg user key h = (h', Ok l)) <-> listed cfg user key.
Proof.
  destruct (byKey_spec cfg user key h) as [(h' & l & E & _ & ?)|[E ?]].
  - eapply accepted_iff; [done|]. split; eauto.
  - by eapply refused_iff.
Qed.

Lemma plain_iff cfg user key h :
  as_Certificate key = None ->
  (exists h' l, keyOrAuthority cfg user key h = (h', Ok l)) <-> listed cfg user key.
Proof.
  intros Hk. unfold keyOrAuthority. destruct (takes_keys cfg) eqn:Et.
  - destruct (_ >? 0); rewrite ?(auth_fallback _ _ _ _ Hk); apply byKey_iff.
  - assert (~ listed cfg user key) by (intros ?%listed_takes_keys; congruence).
    destruct (_ >? 0); [|by eapply refused_iff].
    edestruct auth_no_fallback as [e E]; [done|]. by eapply refused_iff.
Qed.

Lemma authority_iff cfg user key cert h :
  as_Certificate key = Some cert ->
  (exists h' l, keyOrAuthority cfg user key h = (h', Ok l)) <->
  issued cfg user cert \/ (TrustedUserCAs cfg = [] /\ listed cfg user key).
Proof.
  intros Hk. unfold keyOrAuthority. destruct (_ >? 0) eqn:Ec.
  - edestruct auth_cert as (h' & r & E & _ & _ & Hi & _); [exact Hk|].
    eapply accepted_iff; [exact E|]. rewrite Hi, trusts_spec.
    split; [by left|]. intros [?|[Hn _]]; [done|]. by rewrite Hn in Ec.
  - apply len_gtb_nil in Ec. assert (~ issued cfg user cert) as Hi.
    { intros (_ & (ca & Hca & _) & _). rewrite Ec in Hca. by apply not_elem_of_nil in Hca. }
    destruct (takes_keys cfg) eqn:Et; [rewrite byKey_iff; tauto|].
    eapply refused_iff; [done|]. intros [?|[_ ?%listed_takes_keys]]; congruence.
Qed.

Lemma publicKeyCallback_policy cfg user key h :
  config_sane cfg ->
  (exists h' l, publicKeyCallback cfg user key h = (h', Ok l)) <->
  admits cfg user key h.
Proof.
  intros Hs. rewrite publicKeyCallback_eq. unfold admits.
  destruct (as_Certificate key) as [cert|] eqn:Ek; [|by apply plain_iff].
  destruct (CertificateFor cfg) as [f|] eqn:Ef.
  - destruct (bool_decide _) eqn:Et.
    + apply trusts_spec in Et. rewrite (authority_iff _ _ _ _ _ Ek).
      split; [|intros [?|[(?&?&?&?&Hn&_)|(Hn & ? & _)]]]; [|by left|done|done].
      intros [?|[Hn _]]; [by left|]. destruct Et as (ca & Hca & _). rewrite Hn in Hca.
      by apply not_elem_of_nil in Hca.
    + assert (~ trusts cfg cert) as Hn by (rewrite <- trusts_spec; congruence).
      destruct (selfSigned_spec f user cert h (Hs f Ef)) as [H1 H2]. split.
      * intros (h' & l & E). destruct (H1 _ _ E) as (? & ? & h1 & opts & ? & ? & _).
        right; left. exists f, h1, opts. by split_and!.
      * intros [(_ & ? & _)|[(g & h1 & opts & Eg & _ & ? & ? & ? & ?)|(_ & ? & _)]]; [done| |done].
        rewrite Ef in Eg. injection Eg as <-. by eapply H2.
  - rewrite (authority_iff _ _ _ _ _ Ek). unfold vouched. rewrite Ef.
    split; [intros [?|[? ?]]; auto|].
    intros [?|[(? & ? & ? & ? & _)|(? & _ & ?)]]; [by left|done|by right].
Qed.

(** * The server that [sshd_New] builds *)

Lemma sshd_New_ok srv cfg d :
  sshd_New srv cfg = Ok d ->
  d_sftp d = srv /\ d_serverFor d = ServerFor cfg /\ d_serverForLogin d = ServerForLogin cfg /\
  PublicKeyCallback (d_cfg d) =
    (if (len (TrustedUserCAs cfg) >? 0) || takes_keys cfg || bool_decide (is_Some (CertificateFor cfg))
     then Some (publicKeyCallback cfg) else None) /\
  PasswordCallback (d_cfg d) = passwordCallback <$> Password cfg.
Proof.
  unfold sshd_New. intros E.
  repeat match type of E with context [match ?x with _ => _ end] => destruct x; try done end;
    by injection E as <-.
Qed.

(** A user who offers the key is let in. *)
Definition key_accepted (d : sshd_Server (SftpServer:=SftpServer)) (user : bytes) (key : PublicKey) h
  : Prop :=
  exists cb h' l, PublicKeyCallback (d_cfg d) = Some cb /\ cb user key h = (h', Ok l).

(** C16. The policy, exactly. A server built from a configuration lets a user in
    with a plain key exactly when the key is among the authorised ones, byte for
    byte, or [PublicKeyFor] accepts it for that user; with a certificate exactly
    when it is a user certificate valid for that user that a trusted authority
    signed, or that none signed and [CertificateFor] vouches for without
    contradicting its source-address, or when no certificate policy is
    configured at all and it is listed as a key. *)
Theorem key_login_policy srv cfg d user key h :
  sshd_New srv cfg = Ok d -> config_sane cfg ->
  key_accepted d user key h <->
  admits cfg user key h.
Proof.
  intros (_ & _ & _ & Hk & _)%sshd_New_ok Hs. unfold key_accepted. rewrite Hk.
  rewrite <- (publicKeyCallback_policy cfg user key h Hs).
  case_if.
  - split; [intros (cb & h' & l & [= <-] & ?)|intros (h' & l & ?)]; eauto.
  - split; [by intros (? & ? & ? & ? & _)|]. intros Hp. exfalso.
    rewrite publicKeyCallback_policy in Hp by done. unfold admits in Hp.
    assert (CertificateFor cfg = None) as Hc by (by apply eq_None_not_Some).
    assert (forall key, ~ listed cfg user key) as Hl by (intros k ?%listed_takes_keys; congruence).
    destruct (as_Certificate key); [|by eapply Hl].
    destruct Hp as [(_ & ?%trusts_nonempty & _)|[(f & ? & ? & ? & _)|(_ & _ & ?)]];
      [bool_prop; lia|congruence|by eapply Hl].
Qed.

Lemma issued_permissions cfg user key cert h h' l :
  as_Certificate key = Some cert -> trusts cfg cert ->
  keyOrAuthority cfg user key h = (h', Ok l) ->
  h ⊆ h' /\ critical_at h' l = Some (CertCriticalOptions cert).
Proof.
  intros Hk Ht. unfold keyOrAuthority. rewrite (trusts_nonempty _ _ Ht).
  edestruct auth_cert as (h1 & r & -> & Hs & _ & _ & Hc); [exact Hk|].
  intros [= -> ->]. auto.
Qed.

(** C20. A restriction the issuer of a certificate signed is never dropped: on
    every path where certificates are checked, the permissions of the login
    carry the certificate's source-address, whatever [CertificateFor] returned;
    the callback's other critical options are kept, and nothing that existed
    when the callback returned is written to, so a value it shares between
    logins keeps its contents. *)
Theorem certificate_restrictions_enforced srv cfg d cb user key cert h h' l :
  sshd_New srv cfg = Ok d -> config_sane cfg ->
  PublicKeyCallback (d_cfg d) = Some cb -> as_Certificate key = Some cert ->
  TrustedUserCAs cfg <> [] \/ CertificateFor cfg <> None ->
  cb user key h = (h', Ok l) ->
  exists opts, critical_at h' l = Some opts /\
    (forall want, CertCriticalOptions cert !! sourceAddress = Some want ->
       opts !! sourceAddress = Some want) /\
    ((trusts cfg cert /\ opts = CertCriticalOptions cert /\ h ⊆ h') \/
     exists f h1 given, CertificateFor cfg = Some f /\ approves f user cert h h1 given /\
       h1 ⊆ h' /\ forall k, k <> sourceAddress -> opts !! k = given !! k).
Proof.
  intros (_ & _ & _ & Hk & _)%sshd_New_ok Hs Hcb Ec Hcfg E. rewrite Hk in Hcb.
  destruct (_ || _); [|done]. injection Hcb as <-. rewrite publicKeyCallback_eq, Ec in E.
  destruct (bool_decide _) eqn:Et.
  - apply trusts_spec in Et.
    assert (keyOrAuthority cfg user key h = (h', Ok l)) as E' by (by destruct (CertificateFor cfg)).
    destruct (issued_permissions _ _ _ _ _ _ _ Ec Et E') as [Hg Ho].
    exists (CertCriticalOptions cert). split_and!; [done|done|by left].
  - destruct (CertificateFor cfg) as [f|] eqn:Ef.
    + destruct (selfSigned_spec f user cert h (Hs f Ef)) as [H1 _].
      destruct (H1 _ _ E) as (_ & _ & h1 & given & Ha & _ & Hg & Ho).
      exists (restricted cert given). split_and!; [done| |].
      * intros want Hw. unfold restricted. rewrite Hw. apply lookup_insert_eq.
      * right. exists f, h1, given. split_and!; [done|done|done|]. intros k Hne.
        unfold restricted. destruct (_ !! sourceAddress); [by apply lookup_insert_ne|done].
    + exfalso. destruct (proj1 (authority_iff cfg user key cert h Ec)) as [(_ & Ht & _)|[? _]];
        [by eauto| |by destruct Hcfg].
      apply trusts_spec in Ht. congruence.
Qed.

Lemma absent_spec {A} (o : option A) : negb (bool_decide (is_Some o)) = true <-> o = None.
Proof. rewrite negb_true_iff, bool_decide_eq_false. symmetry. apply eq_None_not_Some. Qed.

Lemma present_spec {A} (o : option A) : bool_decide (is_Some o) = true <-> o <> None.
Proof. rewrite bool_decide_eq_true. symmetry. apply not_eq_None_Some. Qed.

Lemma len_eqb_nil {A} (l : list A) : (len l =? 0) = true <-> l = [].
Proof. rewrite Z.eqb_eq. split; [apply len_zero|by intros ->]. Qed.

Lemma len_gtb_cons {A} (l : list A) : (len l >? 0) = true <-> l <> [].
Proof.
  split; [by intros ? ->|]. intros Hl. destruct (len l >? 0) eqn:E; [done|].
  by apply len_gtb_nil in E.
Qed.

Lemma checks_err {D} (b1 b2 : bool) (P1 P2 : Prop) (d : D) e1 e2 (e : sshd_error) :
  (b1 = true <-> P1) -> (b2 = true <-> P2) ->
  (if b1 then Err e1 else if b2 then Err e2 else Ok d) = Err e <->
  (P1 /\ e = e1) \/ (~ P1 /\ P2 /\ e = e2).
Proof.
  intros <- <-. clear. destruct b1, b2;
    (split; [by intros [= <-]; auto|intros [[? ->]|(? & ? & ->)]; done]).
Qed.

(** No way to authenticate is configured. *)
Definition no_policy cfg : Prop :=
  AuthorizedKeys cfg = [] /\ Password cfg = None /\ PublicKeyFor cfg = None /\
  TrustedUserCAs cfg = [] /\ CertificateFor cfg = None.

Lemma no_policy_spec cfg :
  (len (AuthorizedKeys cfg) =? 0) && negb (bool_decide (is_Some (Password cfg))) &&
    negb (bool_decide (is_Some (PublicKeyFor cfg))) &&
    (len (TrustedUserCAs cfg) =? 0) && negb (bool_decide (is_Some (CertificateFor cfg))) = true <->
  no_policy cfg.
Proof. unfold no_policy. rewrite !andb_true_iff, !absent_spec, !len_eqb_nil. tauto. Qed.

Lemma sshd_New_err srv cfg e :
  sshd_New srv cfg = Err e <->
  (srv = None /\ ServerFor cfg = None /\ ServerForLogin cfg = None /\ e = ErrNilServer) \/
  ((srv <> None \/ ServerFor cfg <> None \/ ServerForLogin cfg <> None) /\
   ((HostKeys cfg = [] /\ e = ErrNoHostKey) \/
    (HostKeys cfg <> [] /\ no_policy cfg /\ e = ErrNoAuthorizedKeys))).
Proof.
  pose proof (len_eqb_nil (HostKeys cfg)) as H1. pose proof (no_policy_spec cfg) as H2.
  unfold sshd_New.
  destruct srv, (ServerFor cfg), (ServerForLogin cfg);
    rewrite ?(checks_err _ _ _ _ _ _ _ _ H1 H2); try (intuition congruence).
Qed.

Definition some_policy cfg : Prop :=
  AuthorizedKeys cfg <> [] \/ Password cfg <> None \/ PublicKeyFor cfg <> None \/
  TrustedUserCAs cfg <> [] \/ CertificateFor cfg <> None.

Lemma policy_cases cfg : (no_policy cfg /\ ~ some_policy cfg) \/ (~ no_policy cfg /\ some_policy cfg).
Proof.
  unfold no_policy, some_policy.
  destruct (AuthorizedKeys cfg), (Password cfg), (PublicKeyFor cfg), (TrustedUserCAs cfg),
    (CertificateFor cfg); intuition congruence.
Qed.

Lemma view_cases (srv : option SftpServer) cfg :
  (srv = None /\ ServerFor cfg = None /\ ServerForLogin cfg = None) \/
  (srv <> None \/ ServerFor cfg <> None \/ ServerForLogin cfg <> None).
Proof. destruct srv, (ServerFor cfg), (ServerForLogin cfg); intuition congruence. Qed.

Lemma sshd_New_succeeds srv cfg :
  (exists d, sshd_New srv cfg = Ok d) <->
  (srv <> None \/ ServerFor cfg <> None \/ ServerForLogin cfg <> None) /\ HostKeys cfg <> [] /\
  some_policy cfg.
Proof.
  pose proof (sshd_New_err srv cfg) as He. split.
  - intros [d Hd]. rewrite Hd in He.
    destruct (view_cases srv cfg) as [(? & ? & ?)|Hv].
    { assert (Ok d = Err ErrNilServer) by (apply He; by left). done. }
    assert (HostKeys cfg <> []) as Hk.
    { intros Hk. by discriminate (proj2 (He ErrNoHostKey)
        (or_intror (conj Hv (or_introl (conj Hk eq_refl))))). }
    destruct (policy_cases cfg) as [[Hn _]|[_ ?]]; [|done].
    by discriminate (proj2 (He ErrNoAuthorizedKeys)
      (or_intror (conj Hv (or_intror (conj Hk (conj Hn eq_refl)))))).
  - intros (Hv & Hk & Hp). destruct (policy_cases cfg) as [[_ ?]|[Hn _]]; [done|].
    destruct (sshd_New srv cfg) as [d|e|] eqn:E; [by eauto| |].
    + destruct (proj1 (He e) eq_refl) as [(? & ? & ? & _)|[_ [[? _]|(_ & ? & _)]]];
        [intuition congruence|done|done].
    + exfalso. unfold sshd_New in E. destruct srv, (ServerFor cfg), (ServerForLogin cfg); try done.
      all: destruct (_ =? 0); [done|]; by destruct (_ && _).
Qed.

(** C24. There is no way to leave authentication off. [New] succeeds exactly when
    there is something to serve, a host key, and a way to authenticate, and the
    server it returns offers exactly the methods the configuration can answer:
    public keys when keys, authorities or [CertificateFor] are given, passwords
    when [Password] is, so at least one; a password is let in only when
    [Password] accepts it for that user. *)
Theorem New_demands_authentication srv cfg :
  ((exists d, sshd_New srv cfg = Ok d) <->
   (srv <> None \/ ServerFor cfg <> None \/ ServerForLogin cfg <> None) /\ HostKeys cfg <> [] /\
   some_policy cfg) /\
  forall d, sshd_New srv cfg = Ok d ->
    (PublicKeyCallback (d_cfg d) <> None <->
     AuthorizedKeys cfg <> [] \/ PublicKeyFor cfg <> None \/ TrustedUserCAs cfg <> [] \/
     CertificateFor cfg <> None) /\
    (PasswordCallback (d_cfg d) <> None <-> Password cfg <> None) /\
    (PublicKeyCallback (d_cfg d) <> None \/ PasswordCallback (d_cfg d) <> None) /\
    forall cb user password h h' l, PasswordCallback (d_cfg d) = Some cb ->
      cb user password h = (h', Ok l) ->
      exists verify, Password cfg = Some verify /\ verify user password = true.
Proof.
  split; [apply sshd_New_succeeds|]. intros d Hd.
  destruct (proj1 (sshd_New_succeeds srv cfg) (ex_intro _ d Hd)) as (_ & _ & Hp).
  apply sshd_New_ok in Hd as (_ & _ & _ & -> & ->).
  assert ((if (len (TrustedUserCAs cfg) >? 0) || takes_keys cfg ||
              bool_decide (is_Some (CertificateFor cfg))
           then Some (publicKeyCallback cfg) else None) <> None <->
     AuthorizedKeys cfg <> [] \/ PublicKeyFor cfg <> None \/ TrustedUserCAs cfg <> [] \/
     CertificateFor cfg <> None) as Hk.
  { unfold takes_keys. rewrite <- !len_gtb_cons, <- !present_spec.
    destruct (len (TrustedUserCAs cfg) >? 0), (len (AuthorizedKeys cfg) >? 0),
      (bool_decide (is_Some (PublicKeyFor cfg))), (bool_decide (is_Some (CertificateFor cfg)));
      simpl; intuition congruence. }
  assert (passwordCallback <$> Password cfg <> None <-> Password cfg <> None) as Hw
    by (destruct (Password cfg); done).
  split_and!; [exact Hk|exact Hw|rewrite Hk, Hw; unfold some_policy in Hp; naive_solver|].
  intros cb user password h h' l Hcb. destruct (Password cfg) as [verify|]; [|done].
  injection Hcb as <-. unfold passwordCallback, refuse. intros E. exists verify. split; [done|].
  by destruct (verify user password).
Qed.

End laws.

(** * A configuration *)

(** One authorised key, one trusted authority, and a callback that vouches for
    certificates signed by ["self"], handing back nil permissions. *)
Definition sample_config : Config (SftpServer:=unit) := {|
  HostKeys := [str "host"];
  AuthorizedKeys := [TKey (str "alice-key")];
  PublicKeyFor := None;
  TrustedUserCAs := [TKey (str "ca")];
  CertificateFor := Some (fun _ c h =>
    if bool_decide (tc_signer c = str "self") then (h, Ok None)
    else (h, Err (errors_New (str "unknown signer"))));
  Password := None;
  ServerFor := None;
  ServerForLogin := None;
  Banner := []
|}.

(** A certificate its owner signed, for alice from one network only. *)
Definition sample_cert : PublicKey :=
  TCert (str "cert") {| tc_type := 1; tc_signer := str "self"; tc_users := [str "alice"];
                        tc_options := {[ sourceAddress := str "10.0.0.0/8" ]} |}.

Lemma sample_config_sane : config_sane sample_config.
Proof.
  intros f [= <-] user cert h h' l. by case_bool_decide.
Qed.

Lemma key_login_policy_witness : exists d,
  sshd_New (Some tt) sample_config = Ok d /\
  key_accepted d (str "alice") (TKey (str "alice-key")) ∅ /\
  ~ key_accepted d (str "alice") (TKey (str "bob-key")) ∅ /\
  key_accepted d (str "alice") sample_cert ∅.
Proof.
  eexists. split; [reflexivity|]. split_and!.
  - apply (key_login_policy (Some tt) sample_config); [reflexivity|exact sample_config_sane|].
    right. exists (TKey (str "alice-key")). split; [apply list_elem_of_here|reflexivity].
  - intros Hk. apply (key_login_policy (Some tt) sample_config) in Hk;
      [|reflexivity|exact sample_config_sane].
    destruct Hk as [(f & Hf & _)|(k & Hk & E)]; [done|].
    apply list_elem_of_singleton in Hk as ->. discriminate E.
  - apply (key_login_policy (Some tt) sample_config); [reflexivity|exact sample_config_sane|].
    right; left. eexists _, ∅, ∅. split_and!; [reflexivity| |reflexivity|reflexivity| |].
    + intros (ca & Hca & E). apply list_elem_of_singleton in Hca as ->. discriminate E.
    + exists None. split; reflexivity.
    + intros got want Hg _. by rewrite lookup_empty in Hg.
Defined.

Lemma certificate_restrictions_enforced_witness : exists d cb h' l opts,
  sshd_New (Some tt) sample_config = Ok d /\ PublicKeyCallback (d_cfg d) = Some cb /\
  cb (str "alice") sample_cert ∅ = (h', Ok l) /\ critical_at h' l = Some opts /\
  opts !! sourceAddress = Some (str "10.0.0.0/8").
Proof.
  eexists. eexists. eexists. eexists.
  edestruct (fun d cb cert => certificate_restrictions_enforced (Some tt) sample_config d cb
    (str "alice") sample_cert cert ∅) as (opts & Ho & Hw & _).
  - reflexivity.
  - exact sample_config_sane.
  - reflexivity.
  - reflexivity.
  - by left.
  - vm_compute. reflexivity.
  - exists opts. split; [reflexivity|]. split; [reflexivity|].
    split; [vm_compute; reflexivity|]. split; [exact Ho|]. apply Hw. reflexivity.
Defined.

Lemma New_demands_authentication_witness : exists d,
  sshd_New (Some tt) sample_config = Ok d /\ PublicKeyCallback (d_cfg d) <> None.
Proof.
  destruct (New_demands_authentication (Some tt) sample_config) as [[_ H1] H2].
  destruct H1 as [d Hd]; [split_and!; [by left|done|by left]|].
  exists d. split; [exact Hd|]. apply (H2 d Hd). by left.
Defined.
