(* ===== verification/SshdConn.v ===== *)
(** One SSH connection: [HandleConn], [handleSession] and their helpers, in
    [src/sshd/sshd.go], and what they promise.

    The transport is x/crypto/ssh, outside the repository: a handshake ends in an
    error, a panic of a callback the caller supplied, or a connection with the
    user it authenticated, the permissions granted and the channels the client
    opens on it. What the code does with them is a list of events, in order. *)

From S2P Require Import Prelude Errors Sshd SshInstance SshdLaws.

(** * Data *)

(** [ssh.Request] on a channel. *)
Record Request := { req_Type : bytes; req_WantReply : bool; req_Payload : bytes }.

(** [ssh.NewChannel]: its type, what accepting it gives (the requests made on
    it until it ends, an error, or a panic), and whether the SFTP server panics on
    it. *)
Record NewChannel := {
  nc_ChannelType : bytes;
  nc_Accept : outcome error (list Request);
  nc_servePanics : bool
}.

(** [ssh.ServerConn] with the channels received from [chans] until it closes. *)
Record ServerConn := { conn_User : bytes; conn_Permissions : nat; conn_chans : list NewChannel }.

(** [exitStatusMsg]. *)
Record exitStatusMsg := { Status : Z }.

Section conn.
Context `{!SSH} {SftpServer : Type}.
(** [ssh.Unmarshal] into a [subsystemRequest] ([None] for an error), and
    [ssh.Marshal] of an [exitStatusMsg]. *)
Context (Unmarshal : bytes -> option bytes) (MarshalExit : exitStatusMsg -> bytes).

Inductive chan_event :=
| EReply (req : Request) (ok : bool)
| EServe (srv : SftpServer)
| ESendRequest (name : bytes) (wantReply : bool) (payload : bytes)
| ECloseChannel.

Inductive conn_event :=
| EDiscardRequests
| EReject (nc : NewChannel) (message : bytes)
| ESession (nc : NewChannel) (events : list chan_event)
| ECloseConn.

(** * A session channel *)

Definition replyNo (req : Request) : list chan_event :=
  if req_WantReply req then [EReply req false] else [].

Definition replyYes (req : Request) : list chan_event :=
  if req_WantReply req then [EReply req true] else [].

Definition sendExitStatus (code : Z) : list chan_event :=
  [ESendRequest (str "exit-status") false (MarshalExit {| Status := code |})].

(** A [subsystem] request that unmarshals to the name "sftp". *)
Definition asks_sftp (req : Request) : bool :=
  bool_decide (req_Type req = str "subsystem") &&
  bool_decide (Unmarshal (req_Payload req) = Some (str "sftp")).

(** [srv.Serve(ch)] and the exit status; a panic of [Serve], which calling it on
    a nil server is, skips the exit status and is recovered. *)
Definition serve_channel (srv : option SftpServer) (panics : bool) : list chan_event :=
  match srv with
  | None => []
  | Some s => EServe s :: (if panics then [] else sendExitStatus 0)
  end.

(** The [range reqs] loop. *)
Fixpoint session_loop (srv : option SftpServer) (panics : bool) (reqs : list Request) : list chan_event :=
  match reqs with
  | [] => []
  | req :: reqs =>
      if negb (bool_decide (req_Type req = str "subsystem")) then
        replyNo req ++ session_loop srv panics reqs
      else if negb (bool_decide (Unmarshal (req_Payload req) = Some (str "sftp"))) then
        replyNo req ++ session_loop srv panics reqs
      else replyYes req ++ serve_channel srv panics
  end.

Definition handleSession (srv : option SftpServer) (panics : bool) (reqs : list Request) : list chan_event :=
  session_loop srv panics reqs ++ [ECloseChannel].

(** * A connection *)

(** The view of a connection: [srv] in [HandleConn], resolved once. *)
Definition viewOf (d : sshd_Server (SftpServer:=SftpServer)) (user : bytes) (perms : nat)
  : outcome sshd_error (option SftpServer) :=
  let checked (x : outcome error (option SftpServer)) :=
    match x with
    | Err e => Err (External e)
    | Panic => Panic
    | Ok None => Err (NoFilesystem user)
    | Ok (Some s) => Ok (Some s)
    end in
  match d_serverForLogin d, d_serverFor d with
  | Some f, _ => checked (f user perms)
  | None, Some f => checked (f user)
  | None, None => Ok (d_sftp d)
  end.

(** The [range chans] loop. A session runs on a goroutine of its own, started where
    [ESession] stands: the events listed with it are that goroutine's, in its order,
    and may come after later events of the connection, its close included. *)
Fixpoint chans_loop (srv : option SftpServer) (chans : list NewChannel)
  : list conn_event * option sshd_error :=
  match chans with
  | [] => ([], None)
  | nc :: chans =>
      if negb (bool_decide (nc_ChannelType nc = str "session")) then
        let '(evs, err) := chans_loop srv chans in
        (EReject nc (str "only session channels are served") :: evs, err)
      else
        match nc_Accept nc with
        | Err e => ([], Some (External e))
        | Panic => ([], Some ConnectionPanicked)
        | Ok reqs =>
            let '(evs, err) := chans_loop srv chans in
            (ESession nc (handleSession srv (nc_servePanics nc) reqs) :: evs, err)
        end
  end.

(** [HandleConn], from the outcome of [ssh.NewServerConn]; [defer conn.Close()]
    runs before the recovery of a panic. *)
Definition HandleConn (d : sshd_Server (SftpServer:=SftpServer)) (hs : outcome error ServerConn)
  : list conn_event * option sshd_error :=
  match hs with
  | Err e => ([], Some (External e))
  | Panic => ([], Some ConnectionPanicked)
  | Ok conn =>
      match viewOf d (conn_User conn) (conn_Permissions conn) with
      | Err e => ([ECloseConn], Some e)
      | Panic => ([ECloseConn], Some ConnectionPanicked)
      | Ok srv =>
          let '(evs, err) := chans_loop srv (conn_chans conn) in
          ([EDiscardRequests] ++ evs ++ [ECloseConn], err)
      end
  end.

(** * Sessions *)

(** A session's requests up to the one that starts SFTP, if there is one. *)
Lemma session_split (reqs : list Request) :
  (Forall (fun r => asks_sftp r = false) reqs) \/
  exists pre req post, reqs = pre ++ req :: post /\
    Forall (fun r => asks_sftp r = false) pre /\ asks_sftp req = true.
Proof.
  induction reqs as [|r reqs IH]; [by left|]. destruct (asks_sftp r) eqn:E.
  - right. by exists [], r, reqs.
  - destruct IH as [?|(pre & req & post & -> & ? & ?)]; [left; by constructor|].
    right. exists (r :: pre), req, post. by split_and!; [|constructor|].
Qed.

Lemma session_loop_skip srv panics pre reqs :
  Forall (fun r => asks_sftp r = false) pre ->
  session_loop srv panics (pre ++ reqs) = flat_map replyNo pre ++ session_loop srv panics reqs.
Proof.
  induction 1 as [|r pre Hr _ IH]; [done|]. simpl. rewrite IH, app_assoc.
  unfold asks_sftp in Hr. repeat case_bool_decide; done.
Qed.

Lemma session_loop_sftp srv panics req post :
  asks_sftp req = true ->
  session_loop srv panics (req :: post) = replyYes req ++ serve_channel srv panics.
Proof. unfold asks_sftp. simpl. intros ?. by repeat case_bool_decide. Qed.

(** The replies a session sends, in order. *)
Definition replies (evs : list chan_event) : list (Request * bool) :=
  omap (fun e => match e with EReply r ok => Some (r, ok) | _ => None end) evs.

Definition serves (evs : list chan_event) : list SftpServer :=
  omap (fun e => match e with EServe s => Some s | _ => None end) evs.

Lemma replies_app a b : replies (a ++ b) = replies a ++ replies b.
Proof. apply omap_app. Qed.

Lemma serves_app a b : serves (a ++ b) = serves a ++ serves b.
Proof. apply omap_app. Qed.

(** The answers due to the requests a session has read. *)
Definition due (reqs : list Request) : list (Request * bool) :=
  map (fun r => (r, asks_sftp r)) (filter (fun r => req_WantReply r = true) reqs).

Lemma due_app a b : due (a ++ b) = due a ++ due b.
Proof. unfold due. by rewrite filter_app, map_app. Qed.

Lemma refused_events pre :
  Forall (fun r => asks_sftp r = false) pre ->
  replies (flat_map replyNo pre) = due pre /\ serves (flat_map replyNo pre) = [] /\
  forall e, e ∈ flat_map replyNo pre -> exists r, e = EReply r false.
Proof.
  induction 1 as [|r pre Hr _ (IH1 & IH2 & IH3)]; [split_and!; [done|done|]; by intros e ?%not_elem_of_nil|].
  simpl. rewrite replies_app, serves_app, IH1, IH2.
  change (r :: pre) with ([r] ++ pre). rewrite due_app.
  unfold due at 2, replyNo. rewrite filter_cons, filter_nil.
  destruct (req_WantReply r); simpl; rewrite ?Hr; split_and!; try done.
  intros e [->|?]%elem_of_cons; eauto.
Qed.

Definition sends (evs : list chan_event) : Prop :=
  Exists (fun e => exists name w p, e = ESendRequest name w p) evs.

Lemma served_events req srv panics :
  asks_sftp req = true ->
  let evs := replyYes req ++ serve_channel (Some srv) panics in
  replies evs = due [req] /\ serves evs = [srv] /\ (ECloseChannel ∉ evs) /\
  (sends evs <-> panics = false).
Proof.
  intros Hr. unfold replyYes, due, sends, serve_channel, sendExitStatus.
  rewrite filter_cons, filter_nil.
  destruct (req_WantReply req), panics; simpl; rewrite ?Hr; split_and!; try done.
  all: rewrite ?elem_of_cons, ?elem_of_nil, ?Exists_cons, ?Exists_nil; naive_solver.
Qed.

(** C22. A session channel serves SFTP and nothing else. Whatever requests arrive,
    in whatever order: each request the session reads and that wants an answer
    gets exactly one, in order, yes exactly when it is a [subsystem] request for
    "sftp"; the SFTP server runs at most once, exactly when such a request
    arrives, and after it nothing more is read; the exit status is sent exactly
    when the server ran and did not panic; the channel is closed once, last,
    on every path. *)
Theorem session_serves_only_sftp srv panics reqs :
  exists read evs,
    handleSession (Some srv) panics reqs = evs ++ [ECloseChannel] /\ (ECloseChannel ∉ evs) /\
    (read `prefix_of` reqs) /\ replies evs = due read /\
    (read = reqs \/ exists req, last read = Some req /\ asks_sftp req = true) /\
    serves evs = (if existsb asks_sftp reqs then [srv] else []) /\
    (sends evs <-> existsb asks_sftp reqs = true /\ panics = false).
Proof.
  unfold handleSession. destruct (session_split reqs) as [Hn|(pre & req & post & -> & Hn & Hr)].
  - exists reqs, (session_loop (Some srv) panics reqs).
    rewrite <- (app_nil_r reqs), session_loop_skip, app_nil_r by done. cbn [session_loop].
    rewrite app_nil_r. destruct (refused_events _ Hn) as (H1 & H2 & H3).
    assert (existsb asks_sftp reqs = false) as Hx.
    { apply not_true_is_false. rewrite existsb_exists. intros (r & Hi & Hr).
      rewrite Forall_forall in Hn. apply list_elem_of_In in Hi. by rewrite (Hn r Hi) in Hr. }
    rewrite Hx. split_and!; [done| |done|done|by left|done|].
    + by intros (r & ?)%H3.
    + split; [|by intros [? _]]. unfold sends. rewrite Exists_exists. by intros (e & (r & ->)%H3 & ? & ? & ? & ?).
  - exists (pre ++ [req]), (flat_map replyNo pre ++ replyYes req ++ serve_channel (Some srv) panics).
    rewrite session_loop_skip, session_loop_sftp by done.
    destruct (refused_events _ Hn) as (H1 & H2 & H3).
    destruct (served_events req srv panics Hr) as (G1 & G2 & G3 & G4).
    assert (existsb asks_sftp (pre ++ req :: post) = true) as ->.
    { apply existsb_exists. exists req. split; [apply list_elem_of_In, elem_of_app; right; left|done]. }
    rewrite replies_app, serves_app, due_app, H1, H2, G1, G2. split_and!; try done.
    + rewrite elem_of_app. by intros [(r & ?)%H3|?].
    + exists post. by rewrite <- app_assoc.
    + right. exists req. by rewrite last_snoc.
    + unfold sends in *. rewrite Exists_app, G4. split; [|tauto]. intros [He|?]; [|done].
      apply Exists_exists in He as (e & (r & ->)%H3 & ? & ? & ? & ?). done.
Qed.

(** * Connections *)

(** The channels a connection has dealt with, in order. *)
Definition dealt (evs : list conn_event) : list NewChannel :=
  omap (fun e => match e with EReject nc _ | ESession nc _ => Some nc | _ => None end) evs.

(** Each event is one of the loop's: a refusal of a channel that is not a
    session, or a session handed the server. *)
Definition loop_event (srv : option SftpServer) (e : conn_event) : Prop :=
  match e with
  | EReject nc _ => nc_ChannelType nc <> str "session"
  | ESession nc evs => nc_ChannelType nc = str "session" /\
      exists reqs, nc_Accept nc = Ok reqs /\ evs = handleSession srv (nc_servePanics nc) reqs
  | EDiscardRequests | ECloseConn => False
  end.

Lemma chans_loop_spec srv chans evs err :
  chans_loop srv chans = (evs, err) ->
  Forall (loop_event srv) evs /\
  match err with
  | None => dealt evs = chans
  | Some e => exists nc rest, chans = dealt evs ++ nc :: rest /\ nc_ChannelType nc = str "session" /\
      match nc_Accept nc with
      | Ok _ => False
      | Err e' => e = External e'
      | Panic => e = ConnectionPanicked
      end
  end.
Proof.
  revert evs err. induction chans as [|nc chans IH]; intros evs err; simpl.
  { by intros [= <- <-]. }
  assert (forall ev evs err, chans_loop srv chans = (evs, err) -> loop_event srv ev ->
    dealt [ev] = [nc] ->
    Forall (loop_event srv) (ev :: evs) /\
    match err with
    | None => dealt (ev :: evs) = nc :: chans
    | Some e => exists nc' rest, nc :: chans = dealt (ev :: evs) ++ nc' :: rest /\
        nc_ChannelType nc' = str "session" /\
        match nc_Accept nc' with
        | Ok _ => False
        | Err e' => e = External e'
        | Panic => e = ConnectionPanicked
        end
    end) as Hnext.
  { intros ev evs' err' E Hev Hd. destruct (IH _ _ E) as [IH1 IH2]. split; [by constructor|].
    change (ev :: evs') with ([ev] ++ evs'). unfold dealt in *. rewrite omap_app, Hd.
    destruct err' as [e|]; [|by rewrite IH2].
    destruct IH2 as (nc' & rest & -> & ? & ?). by exists nc', rest. }
  case_bool_decide as Ht; simpl.
  - destruct (nc_Accept nc) as [reqs|e|] eqn:Ea.
    + destruct (chans_loop srv chans) as [evs' err'] eqn:E. intros [= <- <-].
      apply Hnext; [done| |done]. split; eauto.
    + intros [= <- <-]. split; [done|]. exists nc, chans. by rewrite Ea.
    + intros [= <- <-]. split; [done|]. exists nc, chans. by rewrite Ea.
  - destruct (chans_loop srv chans) as [evs' err'] eqn:E. intros [= <- <-]. by apply Hnext.
Qed.

(** What a connection leaves behind: it is closed once and last, its channels are
    dealt with in order, all of them if there was no error, only sessions are
    served, and each of them ends by closing its channel. *)
Definition contained (conn : ServerConn) (evs : list conn_event) (err : option sshd_error) : Prop :=
  exists body, evs = body ++ [ECloseConn] /\ (ECloseConn ∉ body) /\
    (dealt evs `prefix_of` conn_chans conn) /\ (err = None -> dealt evs = conn_chans conn) /\
    forall nc, (forall m, EReject nc m ∈ evs -> nc_ChannelType nc <> str "session") /\
      (forall s, ESession nc s ∈ evs -> nc_ChannelType nc = str "session" /\
         last s = Some ECloseChannel).

(** C23. A connection contains its own failure. Whatever the handshake, the
    callbacks and the channels do, panics included, [HandleConn] returns; once
    the handshake gave a connection it is closed exactly once, by the last thing
    [HandleConn] does (the goroutines of sessions may outlive it); the channels
    are dealt with each once and in order, all of them unless accepting one failed
    or panicked, and only channels of type "session" are served, every other one
    being refused. *)
Theorem connection_contained d hs evs err :
  HandleConn d hs = (evs, err) ->
  match hs with
  | Ok conn => contained conn evs err
  | _ => evs = [] /\ err <> None
  end.
Proof.
  unfold HandleConn. destruct hs as [conn|e|]; [|by intros [= <- <-]..].
  assert (forall e, ([ECloseConn], Some e) = (evs, err) ->
    contained conn evs err) as Hfail.
  { intros e [= <- <-]. exists []. split_and!; [done|by apply not_elem_of_nil|apply prefix_nil|done|].
    intros nc. split; intros ? ?%list_elem_of_singleton; done. }
  destruct (viewOf _ _ _) as [srv|e|]; [clear Hfail|by apply Hfail|by apply Hfail].
  destruct (chans_loop srv (conn_chans conn)) as [evs' err'] eqn:E. intros [= <- <-].
  destruct (chans_loop_spec _ _ _ _ E) as [Hf Hd]. rewrite Forall_forall in Hf.
  assert (forall e, e ∈ EDiscardRequests :: evs' ++ [ECloseConn] ->
    e = EDiscardRequests \/ loop_event srv e \/ e = ECloseConn) as Hin.
  { intros e. rewrite elem_of_cons, elem_of_app, list_elem_of_singleton.
    intros [?|[?%Hf|?]]; auto. }
  unfold contained. cbn [app].
  assert (dealt (EDiscardRequests :: evs' ++ [ECloseConn]) = dealt evs') as ->.
  { unfold dealt. simpl. rewrite omap_app. simpl. by rewrite app_nil_r. }
  exists (EDiscardRequests :: evs'). split_and!; [done| | | |].
  - intros [?|Hc]%elem_of_cons; [done|]. by apply (Hf _ Hc).
  - destruct err' as [e|]; [|by rewrite Hd].
    destruct Hd as (nc & rest & -> & _). by apply prefix_app_r.
  - by intros ->.
  - intros nc. split.
    + intros m [?|[?|?]]%Hin; done.
    + intros s [?|[(? & reqs & _ & ->)|?]]%Hin; [done| |done]. split; [done|].
      unfold handleSession. apply last_snoc.
Qed.

(** * From the policy to the service *)

(** What [ssh.NewServerConn] documents of a connection it returns: one of the
    configured callbacks let the user in, and its permissions are the
    connection's. *)
Inductive authenticated (d : sshd_Server (SftpServer:=SftpServer)) (user : bytes) (h h' : heap) (l : nat)
  : Prop :=
| auth_by_key cb key :
    PublicKeyCallback (d_cfg d) = Some cb -> cb user key h = (h', Ok l) ->
    authenticated d user h h' l
| auth_by_password cb password :
    PasswordCallback (d_cfg d) = Some cb -> cb user password h = (h', Ok l) ->
    authenticated d user h h' l.

(** The filesystem the configuration assigns to a login. *)
Definition assigned (srv : option SftpServer) (cfg : Config) (user : bytes) (perms : nat)
    (s : SftpServer) : Prop :=
  match ServerForLogin cfg, ServerFor cfg with
  | Some f, _ => f user perms = Ok (Some s)
  | None, Some f => f user = Ok (Some s)
  | None, None => srv = Some s
  end.

Lemma viewOf_assigned srv cfg d user perms v s :
  sshd_New srv cfg = Ok d -> viewOf d user perms = Ok v -> v = Some s ->
  assigned srv cfg user perms s.
Proof.
  intros (H1 & H2 & H3 & _)%sshd_New_ok. unfold viewOf, assigned. rewrite H1, H2, H3.
  destruct (ServerForLogin cfg) as [f|]; [|destruct (ServerFor cfg) as [f|]].
  3: by intros [= ->].
  all: intros Hv ->; destruct (f _ _) as [[?|]|?|] || destruct (f _) as [[?|]|?|]; try done.
  all: by injection Hv as ->.
Qed.

Lemma view_not_nil srv cfg d user perms v :
  sshd_New srv cfg = Ok d -> viewOf d user perms = Ok v -> v <> None.
Proof.
  intros Hn. pose proof (proj1 (sshd_New_succeeds srv cfg) (ex_intro _ d Hn)) as (Hv & _).
  apply sshd_New_ok in Hn as (H1 & H2 & H3 & _). unfold viewOf. rewrite H1, H2, H3.
  destruct (ServerForLogin cfg) as [f|]; [|destruct (ServerFor cfg) as [f|]].
  3: intros [= <-]; tauto.
  all: destruct (f _ _) as [[?|]|?|] || destruct (f _) as [[?|]|?|]; try done; by intros [= <-].
Qed.

Context {Laws : SSHLaws}.

Lemma authenticated_admitted srv cfg d user h h' l :
  sshd_New srv cfg = Ok d -> config_sane cfg -> authenticated d user h h' l ->
  (exists verify password, Password cfg = Some verify /\ verify user password = true) \/
  exists key, admits cfg user key h.
Proof.
  intros (_ & _ & _ & Hk & Hp)%sshd_New_ok Hs [cb key Hcb E|cb password Hcb E].
  - right. exists key. rewrite <- publicKeyCallback_policy by done.
    rewrite Hk in Hcb. destruct (_ || _); [|done]. injection Hcb as <-. eauto.
  - left. rewrite Hp in Hcb. destruct (Password cfg) as [verify|]; [|done]. injection Hcb as <-.
    exists verify, password. split; [done|]. unfold passwordCallback, refuse in E.
    by destruct (verify user password).
Qed.

(** The SFTP server a session runs is the one it was given, and a request of the
    client's asked for it. *)
Lemma session_serves_asked srv panics reqs s :
  EServe s ∈ handleSession srv panics reqs ->
  srv = Some s /\ exists req, req ∈ reqs /\ asks_sftp req = true.
Proof.
  unfold handleSession. destruct (session_split reqs) as [Hn|(pre & req & post & -> & Hn & Hr)].
  - rewrite <- (app_nil_r reqs), session_loop_skip by done. cbn [session_loop]. rewrite app_nil_r.
    destruct (refused_events _ Hn) as (_ & _ & H3).
    by intros [(r & ?)%H3|?%list_elem_of_singleton]%elem_of_app.
  - rewrite session_loop_skip, session_loop_sftp by done.
    destruct (refused_events _ Hn) as (_ & _ & H3). rewrite !elem_of_app, list_elem_of_singleton.
    intros [[(r & ?)%H3|[Hs|Hs]]|?]; [done| | |done].
    + unfold replyYes in Hs. destruct (req_WantReply req); [|by apply elem_of_nil in Hs].
      by apply list_elem_of_singleton in Hs.
    + split; [|exists req; split; [apply elem_of_app; right; left|done]].
      destruct srv as [s'|]; simpl in Hs; [|by apply elem_of_nil in Hs].
      apply elem_of_cons in Hs as [[= ->]|Hs]; [done|].
      destruct panics; [by apply elem_of_nil in Hs|by apply list_elem_of_singleton in Hs].
Qed.

(** C15. Nobody is served files without meeting the policy, and nobody is served
    another login's files. When a connection runs an SFTP server [s], its user was
    admitted by the configuration (a password that [Password] accepts for that
    user, or a key or certificate the policy admits), it runs on a channel of type
    "session" on which the client sent a "subsystem" request whose payload names
    "sftp", and [s] is the server the configuration assigns to that login, never a
    nil one. *)
Theorem service_requires_policy srv cfg d conn h h' evs err nc session s :
  sshd_New srv cfg = Ok d -> config_sane cfg ->
  authenticated d (conn_User conn) h h' (conn_Permissions conn) ->
  HandleConn d (Ok conn) = (evs, err) -> ESession nc session ∈ evs -> EServe s ∈ session ->
  nc_ChannelType nc = str "session" /\
  (exists reqs req, nc_Accept nc = Ok reqs /\ req ∈ reqs /\
     req_Type req = str "subsystem" /\ Unmarshal (req_Payload req) = Some (str "sftp")) /\
  assigned srv cfg (conn_User conn) (conn_Permissions conn) s /\
  ((exists verify password, Password cfg = Some verify /\ verify (conn_User conn) password = true) \/
   exists key, admits cfg (conn_User conn) key h).
Proof.
  intros Hn Hs Ha. unfold HandleConn.
  destruct (viewOf d _ _) as [v|e|] eqn:Ev; [|by intros [= <- <-] ?%list_elem_of_singleton..].
  destruct (chans_loop v (conn_chans conn)) as [evs' err'] eqn:E. intros [= <- <-] Hin Hsv.
  apply chans_loop_spec in E as [Hf _]. rewrite Forall_forall in Hf.
  rewrite elem_of_cons, elem_of_app, list_elem_of_singleton in Hin.
  destruct Hin as [?|[(Ht & reqs & Hr & ->)%Hf|?]]; [done| |done].
  apply session_serves_asked in Hsv as [-> (req & Hreq & Hq)].
  unfold asks_sftp in Hq. apply andb_true_iff in Hq as [Hq1%bool_decide_eq_true Hq2%bool_decide_eq_true].
  split_and!; [done|by exists reqs, req| |].
  - by eapply viewOf_assigned.
  - by eapply authenticated_admitted.
Qed.

End conn.

(** * A connection of the sample configuration

    Alice logs in with the authorised key; she opens a tunnel, which is refused,
    and a session on which she asks for a shell and then for SFTP. *)

Definition sample_tunnel : NewChannel :=
  {| nc_ChannelType := str "direct-tcpip"; nc_Accept := Ok []; nc_servePanics := false |}.

Definition sample_session : NewChannel :=
  {| nc_ChannelType := str "session";
     nc_Accept := Ok [
       {| req_Type := str "shell"; req_WantReply := true; req_Payload := [] |};
       {| req_Type := str "subsystem"; req_WantReply := true;
          req_Payload := toy_string (str "sftp") |}];
     nc_servePanics := false |}.

Definition sample_conn : ServerConn :=
  {| conn_User := str "alice"; conn_Permissions := 0;
     conn_chans := [sample_tunnel; sample_session] |}.

Definition sample_exit (m : exitStatusMsg) : bytes := [x00; x00; x00; byte_of (Status m)].

Definition sample_server : sshd_Server (SftpServer:=unit) := {|
  d_sftp := Some tt; d_serverFor := None; d_serverForLogin := None;
  d_cfg := {| PublicKeyCallback := Some (publicKeyCallback sample_config);
              PasswordCallback := None; BannerCallback := None;
              sc_hostKeys := [str "host"] |} |}.

Lemma sample_New : sshd_New (Some tt) sample_config = Ok sample_server.
Proof. reflexivity. Qed.

Definition sample_events : list conn_event :=
  fst (HandleConn toy_unmarshal sample_exit sample_server (Ok sample_conn)).

Lemma connection_contained_witness :
  contained sample_conn sample_events None /\ length (dealt sample_events) = 2%nat.
Proof.
  split; [|vm_compute; reflexivity].
  refine (connection_contained toy_unmarshal sample_exit sample_server (Ok sample_conn)
    sample_events None _).
  reflexivity.
Defined.

Lemma service_requires_policy_witness : exists session,
  ESession sample_session session ∈ sample_events /\ EServe tt ∈ session /\
  exists key, admits sample_config (str "alice") key ∅.
Proof.
  assert (exists session, ESession sample_session session ∈ sample_events /\ EServe tt ∈ session)
    as (session & Hin & Hs).
  { eexists. split; [apply list_elem_of_further, list_elem_of_further, list_elem_of_here|].
    apply list_elem_of_further, list_elem_of_further, list_elem_of_here. }
  exists session. split; [exact Hin|]. split; [exact Hs|].
  destruct (grant_empty ∅) as [h' r] eqn:E.
  destruct (service_requires_policy toy_unmarshal sample_exit (Some tt) sample_config sample_server
    sample_conn ∅ h' sample_events None sample_session session tt)
    as (_ & _ & _ & Hp).
  - exact sample_New.
  - exact sample_config_sane.
  - apply (auth_by_key _ _ _ _ _ (publicKeyCallback sample_config) (TKey (str "alice-key")));
      [reflexivity|].
    transitivity (grant_empty ∅); [vm_compute; reflexivity|]. rewrite E.
    injection E as <- <-. vm_compute. reflexivity.
  - reflexivity.
  - exact Hin.
  - exact Hs.
  - destruct Hp as [(verify & password & Hv & _)|Hk]; [discriminate Hv|exact Hk].
Defined.
