(* ===== verification/SshdKeys.v ===== *)
(** Reading keys: [GenerateHostKey], [ParseHostKey], [ParseAuthorizedKeys] and
    [allSpace] of [src/sshd/sshd.go].

    The parsers of single keys are x/crypto/ssh's and the generator is
    crypto/ed25519's: the class [KeyFormats]. What their documentation says of
    authorized_keys files is the class [KeyFormatsLaws]: parsing returns the first
    key and the input after it, lines without a key are ignored, and input without
    a key is an error. *)

From S2P Require Import Prelude Errors Sshd.

Class KeyFormats `{!SSH} := {
  PrivateKey : Type;
  (** [ed25519.GenerateKey(rand)], by what the entropy source delivers *)
  ed25519_GenerateKey : bytes + error -> outcome error PrivateKey;
  NewSignerFromKey : PrivateKey -> outcome error Signer;
  ParsePrivateKey : bytes -> outcome error Signer;
  (** the key and the rest; the comment and the options are dropped *)
  ParseAuthorizedKey : bytes -> outcome error (PublicKey * bytes);
  MarshalAuthorizedKey : PublicKey -> bytes
}.

Section keys.
Context `{!SSH} `{!KeyFormats}.

Definition GenerateHostKey (keyRand : bytes + error) : outcome error Signer :=
  match ed25519_GenerateKey keyRand with
  | Err e => Err e
  | Panic => Panic
  | Ok priv => NewSignerFromKey priv
  end.

Definition ParseHostKey (pem : bytes) : outcome error Signer := ParsePrivateKey pem.

(** ' ', '\t', '\r' and '\n'. *)
Definition is_space (c : byte) : bool :=
  bool_decide (c = x20 \/ c = x09 \/ c = x0d \/ c = x0a).

Fixpoint allSpace (b : bytes) : bool :=
  match b with
  | [] => true
  | c :: b => if is_space c then allSpace b else false
  end.

(** The loop of [ParseAuthorizedKeys]; every key consumes input, so the length of
    the input is fuel enough. *)
Fixpoint keys_loop (fuel : nat) (rest : bytes) (keys : list PublicKey)
  : outcome error (list PublicKey) :=
  match rest with
  | [] => Ok keys
  | _ :: _ =>
      match fuel with
      | O => Panic
      | S fuel =>
          match ParseAuthorizedKey rest with
          | Err e => if allSpace rest then Ok keys else Err e
          | Panic => Panic
          | Ok (k, next) => keys_loop fuel next (keys ++ [k])
          end
      end
  end.

Definition ParseAuthorizedKeys (data : bytes) : outcome error (list PublicKey) :=
  keys_loop (length data) data [].

(** * What the format's documentation says *)

Class KeyFormatsLaws : Prop := {
  pak_no_panic : forall b, ParseAuthorizedKey b <> Panic;
  pak_shorter : forall b k rest, ParseAuthorizedKey b = Ok (k, rest) -> (length rest < length b)%nat
}.

(** Lines that hold no key: blank, comments, malformed. *)
Class KeyLinesLaws (keyless : bytes -> Prop) : Prop := {
  pak_line : forall k rest, ParseAuthorizedKey (MarshalAuthorizedKey k ++ rest) = Ok (k, rest);
  pak_skip : forall l rest, keyless l -> ParseAuthorizedKey (l ++ rest) = ParseAuthorizedKey rest;
  pak_none : exists e, ParseAuthorizedKey [] = Err e
}.

(** * Reading a file *)

(** Successive keys of an input and what is left when no key follows. *)
Inductive key_chain : bytes -> list PublicKey -> bytes -> Prop :=
| chain_nil b : key_chain b [] b
| chain_key b k next ks rest :
    b <> [] -> ParseAuthorizedKey b = Ok (k, next) -> key_chain next ks rest ->
    key_chain b (k :: ks) rest.

Lemma keys_loop_chain `{!KeyFormatsLaws} fuel rest keys :
  (length rest <= fuel)%nat ->
  exists ks left, key_chain rest ks left /\
    ((left = [] /\ keys_loop fuel rest keys = Ok (keys ++ ks)) \/
     exists e, left <> [] /\ ParseAuthorizedKey left = Err e /\
       keys_loop fuel rest keys = if allSpace left then Ok (keys ++ ks) else Err e).
Proof.
  revert rest keys. induction fuel as [|fuel IH]; intros [|c rest] keys Hl; simpl in Hl; try lia.
  1,2: exists [], []; rewrite app_nil_r; split; [constructor|by left].
  cbn [keys_loop]. destruct (ParseAuthorizedKey (c :: rest)) as [[k next]|e|] eqn:E.
  - pose proof (pak_shorter _ _ _ E) as Hs. simpl in Hs.
    destruct (IH next (keys ++ [k])) as (ks & left & Hc & Hr); [lia|].
    exists (k :: ks), left. split; [by econstructor|]. by rewrite <- app_assoc in Hr.
  - exists [], (c :: rest). rewrite app_nil_r. split; [constructor|]. right. by exists e.
  - by apply pak_no_panic in E.
Qed.

(** Reading an authorized_keys file terminates and gives its keys in order:
    for every parser of single keys that makes progress, [ParseAuthorizedKeys]
    returns the keys read one after the other until none follows, and the result
    is an error exactly when something other than white space is left. *)
Theorem ParseAuthorizedKeys_reads_to_the_end `{!KeyFormatsLaws} data :
  exists ks left, key_chain data ks left /\
    (ParseAuthorizedKeys data = Ok ks /\ allSpace left = true \/
     exists e, ParseAuthorizedKeys data = Err e /\ ParseAuthorizedKey left = Err e /\
       allSpace left = false).
Proof.
  destruct (keys_loop_chain (length data) data []) as (ks & left & Hc & Hr); [done|].
  exists ks, left. split; [done|]. unfold ParseAuthorizedKeys.
  destruct Hr as [[-> ->]|(e & _ & He & ->)]; [by left|].
  destruct (allSpace left); [by left|]. right. by exists e.
Qed.

(** A file: key lines, each after some lines that hold no key, and lines that
    hold no key at the end. *)
Definition key_file (entries : list (list bytes * PublicKey)) (tail : list bytes) : bytes :=
  concat (map (fun '(ls, k) => concat ls ++ MarshalAuthorizedKey k) entries) ++ concat tail.

Context {keyless : bytes -> Prop} {Lines : KeyLinesLaws keyless}.

Lemma skip_lines ls rest :
  Forall keyless ls -> ParseAuthorizedKey (concat ls ++ rest) = ParseAuthorizedKey rest.
Proof.
  induction 1 as [|l ls Hl _ IH]; [done|]. simpl. by rewrite <- app_assoc, pak_skip.
Qed.

Lemma key_file_chain `{!KeyFormatsLaws} entries tail :
  Forall (fun '(ls, _) => Forall keyless ls) entries ->
  key_chain (key_file entries tail) (map snd entries) (concat tail).
Proof.
  induction 1 as [|[ls k] entries Hl _ IH]; [constructor|].
  assert (ParseAuthorizedKey (key_file ((ls, k) :: entries) tail) =
          Ok (k, key_file entries tail)) as E.
  { unfold key_file. simpl. rewrite <- !app_assoc, skip_lines by done. apply pak_line. }
  econstructor; [|exact E|exact IH]. intros Hn. rewrite Hn in E.
  destruct pak_none as [e He]. congruence.
Qed.

Lemma key_chain_stuck b ks left ks' left' e e' :
  key_chain b ks left -> key_chain b ks' left' ->
  ParseAuthorizedKey left = Err e -> ParseAuthorizedKey left' = Err e' ->
  ks = ks' /\ left = left'.
Proof.
  intros Hk. revert ks' left'. induction Hk as [b|b k next ks left Hb E _ IH]; intros ks' left' Hk' He He'.
  - destruct Hk' as [|? ? ? ? ? ? E']; [done|congruence].
  - inversion Hk' as [|? k' next' ks'' ? ? E' Hc]; subst; [congruence|].
    rewrite E in E'. injection E' as <- <-. by destruct (IH _ _ Hc He He') as [-> ->].
Qed.

(** C36. What a file of keys and other lines is read as. Lines before a key are
    skipped whatever they hold, malformed ones included; lines after the last key
    are accepted only when they are white space, so a file that ends in a comment
    is refused. *)
Theorem authorized_keys_file `{!KeyFormatsLaws} entries tail :
  Forall (fun '(ls, _) => Forall keyless ls) entries -> Forall keyless tail ->
  if allSpace (concat tail)
  then ParseAuthorizedKeys (key_file entries tail) = Ok (map snd entries)
  else exists e, ParseAuthorizedKeys (key_file entries tail) = Err e.
Proof.
  intros He Ht. destruct pak_none as [e En].
  assert (ParseAuthorizedKey (concat tail) = Err e) as Et.
  { by rewrite <- (app_nil_r (concat tail)), skip_lines. }
  set (data := key_file entries tail).
  destruct (keys_loop_chain (length data) data []) as (ks & left & Hc & Hr); [done|].
  assert (exists e', ParseAuthorizedKey left = Err e') as [e' El].
  { destruct Hr as [[-> _]|(e' & _ & ? & _)]; eauto. }
  destruct (key_chain_stuck _ _ _ _ _ _ _ Hc (key_file_chain entries tail He) El Et) as [-> ->].
  unfold ParseAuthorizedKeys. destruct Hr as [[E ->]|(? & _ & _ & ->)]; [by rewrite E|].
  destruct (allSpace _); [done|eauto].
Qed.
End keys.

(** * A format of one-letter lines

    Two keys, written "y" and "n" on a line of their own; every other line holds
    no key. It keeps the documented behaviour, and evaluates the witnesses. *)

Definition letter_ssh : SSH := {|
  PublicKey := bool;
  Signer := unit;
  Certificate := Empty_set;
  Marshal k := if k : bool then str "y" else str "n";
  as_Certificate _ := None;
  UserCert := 1;
  CertType c := match c with end;
  SignatureKey c := match c with end;
  CertCriticalOptions c := match c with end;
  CheckCert _ _ c := match c with end;
  Authenticate _ f user k :=
    match f with
    | Some f => f user k
    | None => refuse KeyNotAuthorized
    end;
  AddHostKey l k := l ++ [k]
|}.

(** The first line that is a key, [acc] being the line read so far. *)
Fixpoint letter_parse (acc b : bytes) : outcome error (bool * bytes) :=
  match b with
  | [] => Err (errors_New (str "ssh: no key found"))
  | c :: b =>
      if bool_decide (c = x0a) then
        if bool_decide (acc = str "y") then Ok (true, b)
        else if bool_decide (acc = str "n") then Ok (false, b)
        else letter_parse [] b
      else letter_parse (acc ++ [c]) b
  end.

Definition letter_line (k : bool) : bytes := (if k then str "y" else str "n") ++ [x0a].

Definition letter_formats : @KeyFormats letter_ssh :=
  @Build_KeyFormats letter_ssh unit (fun _ => Ok tt) (fun _ => Ok tt) (fun _ => Ok tt)
    (letter_parse []) letter_line.

Definition letter_keyless (l : bytes) : Prop :=
  exists l0, l = l0 ++ [x0a] /\ (x0a ∉ l0) /\ l0 <> str "y" /\ l0 <> str "n".

Lemma letter_parse_line acc l0 rest :
  x0a ∉ l0 -> letter_parse acc (l0 ++ x0a :: rest) =
  if bool_decide (acc ++ l0 = str "y") then Ok (true, rest)
  else if bool_decide (acc ++ l0 = str "n") then Ok (false, rest)
  else letter_parse [] rest.
Proof.
  revert acc. induction l0 as [|c l0 IH]; intros acc Hn.
  - by rewrite app_nil_r.
  - apply not_elem_of_cons in Hn as [Hc Hn]. simpl.
    rewrite bool_decide_eq_false_2 by done. rewrite IH by done. by rewrite <- app_assoc.
Qed.

Lemma letter_parse_shorter acc b k rest :
  letter_parse acc b = Ok (k, rest) -> (length rest < length b)%nat.
Proof.
  revert acc. induction b as [|c b IH]; intros acc; simpl; [done|].
  repeat case_bool_decide; intros E; try (injection E as <- <-; lia).
  all: apply IH in E; lia.
Qed.

Lemma letter_formats_laws : @KeyFormatsLaws letter_ssh letter_formats.
Proof.
  split.
  - intros b. cbn. generalize (@nil byte). induction b as [|c b IH]; intros acc; simpl; [done|].
    by repeat case_bool_decide.
  - intros b k rest. apply letter_parse_shorter.
Qed.

Lemma letter_lines_laws : @KeyLinesLaws letter_ssh letter_formats letter_keyless.
Proof.
  split.
  - intros k rest. cbn. unfold letter_line. rewrite <- app_assoc. cbn [app].
    rewrite letter_parse_line; destruct k; try done; set_solver.
  - intros l rest (l0 & -> & Hn & Hy & Hno). cbn. rewrite <- app_assoc. cbn [app].
    rewrite letter_parse_line by done. cbn [app].
    by rewrite !bool_decide_eq_false_2.
  - by eexists.
Qed.

(** A malformed line and two keys. *)
Definition letter_entries : list (list bytes * bool) :=
  [([str "broken" ++ [x0a]], true); ([], false)].

Lemma letter_keyless_line l0 :
  bool_decide ((x0a ∉ l0) /\ l0 <> str "y" /\ l0 <> str "n") = true -> letter_keyless (l0 ++ [x0a]).
Proof. intros (? & ? & ?)%bool_decide_eq_true. by exists l0. Qed.

Lemma letter_entries_keyless :
  Forall (fun '(ls, _) => Forall letter_keyless ls) letter_entries.
Proof. repeat constructor. by apply letter_keyless_line. Qed.

Lemma ParseAuthorizedKeys_reads_to_the_end_witness : exists ks left,
  @key_chain letter_ssh letter_formats (str "y") ks left /\ allSpace left = false.
Proof.
  destruct (@ParseAuthorizedKeys_reads_to_the_end letter_ssh letter_formats letter_formats_laws
    (str "y")) as (ks & left & Hc & Hr).
  exists ks, left. split; [exact Hc|].
  destruct Hr as [[Hr _]|(e & _ & _ & Hr)]; [|exact Hr]. vm_compute in Hr. discriminate Hr.
Defined.

(** The malformed line is skipped; a comment after the keys is an error. *)
Lemma authorized_keys_file_witness :
  @ParseAuthorizedKeys letter_ssh letter_formats
    (@key_file letter_ssh letter_formats letter_entries [[x20; x0a]]) = Ok [true; false] /\
  exists e, @ParseAuthorizedKeys letter_ssh letter_formats
    (@key_file letter_ssh letter_formats letter_entries [str "# end" ++ [x0a]]) = Err e.
Proof.
  split.
  - refine (@authorized_keys_file letter_ssh letter_formats letter_keyless letter_lines_laws
      letter_formats_laws letter_entries [[x20; x0a]] letter_entries_keyless _).
    constructor; [|constructor]. by apply (letter_keyless_line [x20]).
  - refine (@authorized_keys_file letter_ssh letter_formats letter_keyless letter_lines_laws
      letter_formats_laws letter_entries [str "# end" ++ [x0a]] letter_entries_keyless _).
    constructor; [|constructor]. by apply letter_keyless_line.
Defined.
