(* ===== verification/Lifecycle.v ===== *)
(** The life of an SSH server: [Serve], [track], [Close] and the goroutines they
    start, in [src/sshd/sshd.go], running concurrently.

    A state is what the goroutines share, and the goroutines. Each step is one
    critical section of [mu], one call on the network, or one operation on the
    wait group, so the steps interleave as finely as the code can observe.
    [Serve] and [Close] may be called any number of times. A handler is
    [HandleConn] (its events are [SshdConn]'s): its handshake succeeds only on a
    connection still open, its client opens channels only while it is open, and
    it can end at any time. An embedder may call [HandleConn] on connections it
    accepted itself, beside [Serve] or instead of it. *)

From S2P Require Import Prelude.

(** * State *)

(** The fields of [Server] that change, and the network: the listeners and the
    connections not yet closed, and how many of each there have been. *)
Record shared := {
  closed : bool;
  ln : option nat;
  conns : gset nat;
  wg : Z;
  lopen : gset nat;
  lnext : nat;
  copen : gset nat;
  cnext : nat
}.

Definition set_ln (l : nat) (s : shared) : shared :=
  {| closed := closed s; ln := Some l; conns := conns s; wg := wg s; lopen := lopen s;
     lnext := lnext s; copen := copen s; cnext := cnext s |}.

Definition set_closed (s : shared) : shared :=
  {| closed := true; ln := ln s; conns := conns s; wg := wg s; lopen := lopen s;
     lnext := lnext s; copen := copen s; cnext := cnext s |}.

Definition set_conns (cs : gset nat) (s : shared) : shared :=
  {| closed := closed s; ln := ln s; conns := cs; wg := wg s; lopen := lopen s;
     lnext := lnext s; copen := copen s; cnext := cnext s |}.

(** [wg.Add(n)]; [wg.Done()] is [wg.Add(-1)]. *)
Definition wg_Add (n : Z) (s : shared) : shared :=
  {| closed := closed s; ln := ln s; conns := conns s; wg := wg s + n; lopen := lopen s;
     lnext := lnext s; copen := copen s; cnext := cnext s |}.

(** [c.Close()], [ln.Close()]. *)
Definition close_conn (c : nat) (s : shared) : shared :=
  {| closed := closed s; ln := ln s; conns := conns s; wg := wg s; lopen := lopen s;
     lnext := lnext s; copen := copen s ∖ {[c]}; cnext := cnext s |}.

Definition close_listener (l : nat) (s : shared) : shared :=
  {| closed := closed s; ln := ln s; conns := conns s; wg := wg s; lopen := lopen s ∖ {[l]};
     lnext := lnext s; copen := copen s; cnext := cnext s |}.

(** [ln.Accept()] returning a connection; [net.Listen] returning a listener. *)
Definition accept_conn (s : shared) : shared :=
  {| closed := closed s; ln := ln s; conns := conns s; wg := wg s; lopen := lopen s;
     lnext := lnext s; copen := copen s ∪ {[cnext s]}; cnext := S (cnext s) |}.

Definition open_listener (s : shared) : shared :=
  {| closed := closed s; ln := ln s; conns := conns s; wg := wg s; lopen := lopen s ∪ {[lnext s]};
     lnext := S (lnext s); copen := copen s; cnext := cnext s |}.

(** [track(c, add)]. *)
Definition track (c : nat) (add : bool) (s : shared) : shared :=
  if add then
    if closed s then close_conn c s
    else set_conns (conns s ∪ {[c]}) s
  else close_conn c (set_conns (conns s ∖ {[c]}) s).

(** * Goroutines *)

(** What [Serve] returned. *)
Inductive serve_result := ReturnsClosed | ReturnsErr.

(** Where a call of [Serve] is: about to take [mu], about to close a listener it
    was given too late, in [Accept], about to [track] a connection, to add it to
    the wait group, to start its handler, about to read [closed] after a failed
    [Accept], or returned. *)
Inductive serve_pc :=
| SBegin | SReject | SAccept | STrack (c : nat) | SAdd (c : nat) | SSpawn (c : nat) | SErr
| SRet (r : serve_result).

(** Where a handler is: in the handshake, in the loop over channels with some
    waiting, about to start a session it added to the wait group, about to
    untrack its connection, about to call [wg.Done], or ended. *)
Inductive handler_pc :=
| HHandshake | HServing (waiting : nat) | HSpawn (waiting : nat) | HUntrack | HDone | HEnd.

Inductive session_pc := SnRun | SnEnd.

(** Whose a connection is: accepted by [Serve], or handed to [HandleConn] by the
    embedder. *)
Inductive origin := Own | Foreign.

(** Where a call of [Close] is: about to take [mu], about to close the listener,
    closing the connections, waiting, returned after that, or returned at once
    because the server was closed already. *)
Inductive close_pc :=
| KBegin | KListener (l : option nat) (cs : list nat) | KConns (cs : list nat) | KWait | KRet
| KAlready.

Inductive thread :=
| TServe (l : nat) (pc : serve_pc)
| THandler (o : origin) (c : nat) (pc : handler_pc)
| TSession (o : origin) (c : nat) (pc : session_pc)
| TClose (pc : close_pc).

(** One step of [Serve(l)], with the goroutines it starts. *)
Inductive Serve_step (l : nat) : shared -> serve_pc -> shared -> serve_pc -> list thread -> Prop :=
| serve_closed s : closed s = true -> Serve_step l s SBegin s SReject []
| serve_listen s : closed s = false -> Serve_step l s SBegin (set_ln l s) SAccept []
| serve_reject s : Serve_step l s SReject (close_listener l s) (SRet ReturnsClosed) []
| serve_accept s : l ∈ lopen s -> Serve_step l s SAccept (accept_conn s) (STrack (cnext s)) []
| serve_accept_fails s : Serve_step l s SAccept s SErr []
| serve_err s :
    Serve_step l s SErr s (SRet (if closed s then ReturnsClosed else ReturnsErr)) []
| serve_track s c : Serve_step l s (STrack c) (track c true s) (SAdd c) []
| serve_add s c : Serve_step l s (SAdd c) (wg_Add 1 s) (SSpawn c) []
| serve_spawn s c : Serve_step l s (SSpawn c) s SAccept [THandler Own c HHandshake].

(** Where [HandleConn] returns to: the goroutine of [Serve], or the embedder. *)
Definition returned (o : origin) : handler_pc :=
  match o with Own => HUntrack | Foreign => HEnd end.

(** One step of [HandleConn(c)], and of the goroutine [Serve] starts to run it, then
    [track(c, false)], then [wg.Done()]. [ssh.NewServerConn] closes the connection
    when the handshake fails; when a callback panics in it, nobody does. *)
Inductive HandleConn_step (o : origin) (c : nat)
  : shared -> handler_pc -> shared -> handler_pc -> list thread -> Prop :=
| handler_authenticated s : c ∈ copen s -> HandleConn_step o c s HHandshake s (HServing 0) []
| handler_refused s : HandleConn_step o c s HHandshake (close_conn c s) (returned o) []
| handler_panics s : HandleConn_step o c s HHandshake s (returned o) []
| handler_channel s n : c ∈ copen s -> HandleConn_step o c s (HServing n) s (HServing (S n)) []
| handler_reject s n : HandleConn_step o c s (HServing (S n)) s (HServing n) []
| handler_accept s n : HandleConn_step o c s (HServing (S n)) (wg_Add 1 s) (HSpawn n) []
| handler_spawn s n : HandleConn_step o c s (HSpawn n) s (HServing n) [TSession o c SnRun]
| handler_ends s n : HandleConn_step o c s (HServing n) (close_conn c s) (returned o) []
| handler_untrack s : o = Own -> HandleConn_step o c s HUntrack (track c false s) HDone []
| handler_done s : o = Own -> HandleConn_step o c s HDone (wg_Add (-1) s) HEnd [].

(** The goroutine of a session: [handleSession], then [wg.Done()]. *)
Inductive session_step : shared -> session_pc -> shared -> session_pc -> Prop :=
| session_ends s : session_step s SnRun (wg_Add (-1) s) SnEnd.

(** One step of [Close]; the order of the snapshot is that of a Go map. *)
Inductive Close_step : shared -> close_pc -> shared -> close_pc -> Prop :=
| close_already s : closed s = true -> Close_step s KBegin s KAlready
| close_begin s cs : closed s = false -> cs ≡ₚ elements (conns s) ->
    Close_step s KBegin (set_closed s) (KListener (ln s) cs)
| close_ln s l cs : Close_step s (KListener (Some l) cs) (close_listener l s) (KConns cs)
| close_no_ln s cs : Close_step s (KListener None cs) s (KConns cs)
| close_next s c cs : Close_step s (KConns (c :: cs)) (close_conn c s) (KConns cs)
| close_all s : Close_step s (KConns []) s KWait
| close_wait s : wg s = 0 -> Close_step s KWait s KRet.

Inductive thread_step : shared -> thread -> shared -> thread -> list thread -> Prop :=
| step_serve l s pc s' pc' new :
    Serve_step l s pc s' pc' new -> thread_step s (TServe l pc) s' (TServe l pc') new
| step_handler o c s pc s' pc' new :
    HandleConn_step o c s pc s' pc' new -> thread_step s (THandler o c pc) s' (THandler o c pc') new
| step_session o c s pc s' pc' :
    session_step s pc s' pc' -> thread_step s (TSession o c pc) s' (TSession o c pc') []
| step_close s pc s' pc' :
    Close_step s pc s' pc' -> thread_step s (TClose pc) s' (TClose pc') [].

(** A step of the server: one of its goroutines moves. *)
Definition state : Type := shared * list thread.

Inductive run_step : state -> state -> Prop :=
| run_thread s s' a b t t' new :
    thread_step s t s' t' new -> run_step (s, a ++ t :: b) (s', a ++ t' :: b ++ new).

(** A step of the program: the server's, or one from outside: a call of [Serve], of
    [Close], of [HandleConn] on a connection of the embedder's, or the embedder
    closing such a connection. *)
Inductive step : state -> state -> Prop :=
| step_run x y : run_step x y -> step x y
| step_call_serve s ts : step (s, ts) (open_listener s, ts ++ [TServe (lnext s) SBegin])
| step_call_close s ts : step (s, ts) (s, ts ++ [TClose KBegin])
| step_call_handle s ts :
    step (s, ts) (accept_conn s, ts ++ [THandler Foreign (cnext s) HHandshake])
| step_foreign_close s ts c pc :
    THandler Foreign c pc ∈ ts -> step (s, ts) (close_conn c s, ts).

(** [ListenAndServe(addr)] called in the state [x]: the error of [net.Listen], or
    a call of [Serve] on the listener it returns. *)
Definition ListenAndServe {E} (net_Listen : bytes -> option E) (addr : bytes) (x : state) : state + E :=
  match net_Listen addr with
  | Some e => inr e
  | None => inl (open_listener (fst x), snd x ++ [TServe (lnext (fst x)) SBegin])
  end.

(** What [New] leaves. *)
Definition initial : state :=
  ({| closed := false; ln := None; conns := ∅; wg := 0; lopen := ∅; lnext := 0;
      copen := ∅; cnext := 0 |}, []).

Definition reachable (x : state) : Prop := rtc step initial x.
