(* ===== verification/LifecycleLaws.v ===== *)
(** What holds of an SSH server whatever the interleaving of its goroutines:
    invariants of [Lifecycle] by induction on its steps. *)

From S2P Require Import Prelude Lifecycle.

(** Every place a goroutine can be at. *)
Ltac destruct_thread t := destruct t as [? []|[] ? []|[] ? []|[]].

(** * Measures of goroutines *)

(** What a goroutine still owes the wait group. *)
Definition owed (t : thread) : Z :=
  match t with
  | TServe _ (SSpawn _) => 1
  | THandler Own _ HEnd => 0
  | THandler Own _ (HSpawn _) => 2
  | THandler Own _ _ => 1
  | THandler Foreign _ (HSpawn _) => 1
  | TSession _ _ SnRun => 1
  | _ => 0
  end.

Definition total (ts : list thread) : Z := foldr (fun t n => owed t + n) 0 ts.

Lemma owed_nonneg t : 0 <= owed t.
Proof. destruct_thread t; simpl; lia. Qed.

Lemma total_app a b : total (a ++ b) = total a + total b.
Proof. induction a as [|t a IH]; simpl; [lia|]. rewrite IH. lia. Qed.

Lemma total_nonneg ts : 0 <= total ts.
Proof. induction ts as [|t ts IH]; simpl; [lia|]. pose proof (owed_nonneg t). lia. Qed.

Lemma total_zero ts t : total ts = 0 -> t ∈ ts -> owed t = 0.
Proof.
  intros H Hin. induction Hin as [t ts|t t' ts _ IH]; simpl in H;
    pose proof (total_nonneg ts).
  - pose proof (owed_nonneg t). lia.
  - apply IH. pose proof (owed_nonneg t'). lia.
Qed.

(** The connection a goroutine has tracked and not yet untracked; the one it is
    responsible for closing, the embedder's being its own responsibility. *)
Definition tracked_by (t : thread) : option nat :=
  match t with
  | TServe _ (SAdd c) | TServe _ (SSpawn c) => Some c
  | THandler Own c (HHandshake | HServing _ | HSpawn _ | HUntrack) => Some c
  | _ => None
  end.

Definition owned_by (t : thread) : option nat :=
  match t with
  | TServe _ (STrack c) => Some c
  | THandler Foreign c _ => Some c
  | _ => tracked_by t
  end.

(** Neither serving channels nor running SFTP, on a connection of the server's own. *)
Definition quiet (t : thread) : Prop :=
  match t with
  | THandler Own _ (HServing _ | HSpawn _) | TSession Own _ SnRun => False
  | _ => True
  end.

(** * The invariant *)

(** The listener of the server is closed. *)
Definition ln_closed (s : shared) : Prop := forall l, ln s = Some l -> l ∉ lopen s.

(** Connections tracked and open are among [cs]. *)
Definition open_within (s : shared) (cs : list nat) : Prop :=
  forall c, c ∈ conns s -> c ∈ copen s -> c ∈ cs.

Definition pc_ok (s : shared) (t : thread) : Prop :=
  match t with
  | TServe l (STrack c) => (l < lnext s)%nat /\ (c < cnext s)%nat
  | TServe l _ => (l < lnext s)%nat
  | THandler Own c (HDone | HEnd) => (c < cnext s)%nat /\ c ∉ copen s
  | THandler Foreign _ (HUntrack | HDone) => False
  | THandler Foreign c _ => (c < cnext s)%nat
  | TClose (KListener l cs) => closed s = true /\ l = ln s /\ open_within s cs
  | TClose (KConns cs) => closed s = true /\ ln_closed s /\ open_within s cs
  | TClose (KWait | KRet) => closed s = true /\ ln_closed s /\ open_within s []
  | TClose KAlready => closed s = true
  | _ => True
  end.

Definition thread_ok (s : shared) (t : thread) : Prop :=
  pc_ok s t /\ forall c, tracked_by t = Some c -> (c < cnext s)%nat /\ (c ∈ copen s -> c ∈ conns s).

Record bounded (s : shared) : Prop := {
  bd_copen : forall c, c ∈ copen s -> (c < cnext s)%nat;
  bd_conns : forall c, c ∈ conns s -> (c < cnext s)%nat;
  bd_ln : forall l, ln s = Some l -> (l < lnext s)%nat
}.

Record invariant (x : state) : Prop := {
  inv_wg : wg (fst x) = total (snd x);
  inv_bounded : bounded (fst x);
  inv_ok : Forall (thread_ok (fst x)) (snd x);
  inv_owned : forall c, c ∈ copen (fst x) -> exists t, t ∈ snd x /\ owned_by t = Some c;
  inv_tracked : forall c, c ∈ conns (fst x) -> exists t, t ∈ snd x /\ tracked_by t = Some c;
  inv_quiet : TClose KRet ∈ snd x -> Forall quiet (snd x)
}.

Lemma foreign_below s c pc : thread_ok s (THandler Foreign c pc) -> (c < cnext s)%nat.
Proof. intros [H _]. by destruct pc. Qed.

(** * What a step may do to the other goroutines *)

Record evolves (s s' : shared) : Prop := {
  ev_closed : closed s = true ->
    closed s' = true /\ ln s' = ln s /\ forall c, c ∈ conns s' -> c ∈ conns s;
  ev_cnext : (cnext s <= cnext s')%nat;
  ev_lnext : (lnext s <= lnext s')%nat;
  ev_copen : forall c, (c < cnext s)%nat -> c ∈ copen s' ->
    c ∈ copen s /\ (c ∈ conns s -> c ∈ conns s');
  ev_lopen : forall l, (l < lnext s)%nat -> l ∈ lopen s' -> l ∈ lopen s
}.

Lemma evolves_refl s : evolves s s.
Proof. by split; auto. Qed.

Ltac step_cases H :=
  inversion H; subst; clear H;
  match goal with
  | K : Serve_step _ _ _ _ _ _ |- _ => inversion K; subst; clear K
  | K : HandleConn_step _ _ _ _ _ _ _ |- _ => inversion K; subst; clear K
  | K : session_step _ _ _ _ |- _ => inversion K; subst; clear K
  | K : Close_step _ _ _ _ |- _ => inversion K; subst; clear K
  end;
  try match goal with o : origin |- _ => destruct o end; try discriminate.

(** Goals about the sets of a changed state. *)
Ltac sets :=
  simpl in *; intros;
  repeat match goal with
  | H : _ ∈ _ ∖ _ |- _ => apply elem_of_difference in H as [? ?]
  | H : _ ∈ _ ∪ _ |- _ => apply elem_of_union in H as [?|?]
  | H : _ ∈ {[_]} |- _ => apply elem_of_singleton in H
  | H : ?x ∉ {[?y]} |- _ => rewrite elem_of_singleton in H
  | |- _ ∈ _ ∖ _ => apply elem_of_difference; split
  | |- _ /\ _ => split; intros
  end; subst;
  rewrite ?elem_of_union, ?elem_of_singleton in *;
  try done; try congruence; try lia; try tauto; auto.

Lemma track_evolves s c add : evolves s (track c add s).
Proof.
  unfold track. destruct add; [destruct (closed s) eqn:E|]; split; sets.
Qed.

Lemma thread_step_evolves s t s' t' new :
  thread_step s t s' t' new -> bounded s -> evolves s s'.
Proof.
  intros H [B1 B2 B3]. step_cases H; try apply evolves_refl; try apply track_evolves.
  all: split; sets.
Qed.

Lemma evolves_ln_closed s s' :
  evolves s s' -> bounded s -> closed s = true -> ln_closed s -> ln_closed s'.
Proof.
  intros He Hb Hc Hl l E. destruct (ev_closed _ _ He Hc) as (_ & Hln & _). rewrite Hln in E.
  intros Hin. eapply Hl; [done|]. eapply ev_lopen; [done| |done]. by apply (bd_ln _ Hb).
Qed.

Lemma evolves_open_within s s' cs :
  evolves s s' -> bounded s -> closed s = true -> open_within s cs -> open_within s' cs.
Proof.
  intros He Hb Hc Ho c H1 H2. destruct (ev_closed _ _ He Hc) as (_ & _ & Hs).
  apply Ho; [by apply Hs|]. eapply ev_copen; [done| |done]. by apply (bd_conns _ Hb), Hs.
Qed.

Lemma evolves_thread_ok s s' t :
  evolves s s' -> bounded s -> thread_ok s t -> thread_ok s' t.
Proof.
  intros He Hb [Hp Ht]. pose proof (ev_cnext _ _ He). pose proof (ev_lnext _ _ He). split.
  - destruct t as [l pc|[] c pc|[] c pc|pc]; destruct pc; simpl in *; try done; try lia.
    1,2: destruct Hp as [Hlt Hn]; split; [lia|]; intros Hin; by apply (ev_copen _ _ He) in Hin as [? _].
    5: by apply (ev_closed _ _ He).
    all: destruct Hp as (Hc & Hl & Ho); destruct (ev_closed _ _ He Hc) as (? & ? & _); split_and!; try done; try congruence;
      eauto using evolves_ln_closed, evolves_open_within.
  - intros c Hc. destruct (Ht c Hc) as [Hlt Hi]. split; [lia|]. intros Hin.
    destruct (ev_copen _ _ He c Hlt Hin) as [? Hk]. auto.
Qed.

(** * What a step does for its own goroutine *)

Lemma step_bounded s t s' t' new :
  thread_step s t s' t' new -> bounded s -> thread_ok s t -> bounded s'.
Proof.
  intros H [B1 B2 B3] [Hp Ht]. step_cases H; simpl in *; unfold track in *;
    repeat case_match; split; sets.
  all: try (by injection H as <-).
  all: match goal with H : ?c ∈ copen _ |- _ => pose proof (B1 _ H); lia
                     | H : ?c ∈ conns _ |- _ => pose proof (B2 _ H); lia end.
Qed.

Lemma step_wg s t s' t' new :
  thread_step s t s' t' new -> wg s' = wg s + (owed t' + total new - owed t).
Proof. intros H. step_cases H; unfold track; repeat case_match; simpl; lia. Qed.

Lemma Serve_self_ok l s pc s' pc' new :
  Serve_step l s pc s' pc' new -> thread_ok s (TServe l pc) ->
  thread_ok s' (TServe l pc') /\ Forall (thread_ok s') new.
Proof.
  intros H [Hp Ht]. destruct H; simpl in *; unfold track; repeat case_match;
    (split; [|first [by apply Forall_nil|apply Forall_singleton]]);
    (split; simpl; [|try (intros ? [= <-])]); simpl in *; try done; try lia;
    sets; try apply Ht; auto.
Qed.

Lemma HandleConn_self_ok o c s pc s' pc' new :
  HandleConn_step o c s pc s' pc' new -> thread_ok s (THandler o c pc) ->
  thread_ok s' (THandler o c pc') /\ Forall (thread_ok s') new.
Proof.
  intros H [Hp Ht]. destruct H; destruct o; try discriminate; simpl in *;
    (split; [|first [by apply Forall_nil|apply Forall_singleton]]);
    (split; simpl; [|try (intros ? [= <-])]); simpl in *; try done; try lia;
    sets; try apply Ht; auto. set_solver.
Qed.

Lemma Close_self_ok s pc s' pc' :
  Close_step s pc s' pc' -> thread_ok s (TClose pc) -> thread_ok s' (TClose pc').
Proof.
  intros H [Hp Ht]. split; [|done]. unfold open_within, ln_closed in *.
  destruct H as [| s cs Hc Hp' | | | | | ]; simpl in *; try done.
  - split_and!; [done|done|]. intros c Hin _. rewrite Hp'. by apply elem_of_elements.
  - destruct Hp as (? & Hl & ?). split_and!; [done| |done]. intros l' E; simpl in *. rewrite <- Hl in E.
    injection E as <-. rewrite elem_of_difference, elem_of_singleton. tauto.
  - destruct Hp as (? & Hl & ?). split_and!; [done| |done]. intros l' E. congruence.
  - destruct Hp as (? & ? & Ho). split_and!; [done|done|]. intros c' H1 [H2 H3]%elem_of_difference.
    specialize (Ho c' H1 H2). apply elem_of_cons in Ho. set_solver.
Qed.

Lemma step_self_ok s t s' t' new :
  thread_step s t s' t' new -> thread_ok s t -> thread_ok s' t' /\ Forall (thread_ok s') new.
Proof.
  intros H Hok. destruct H.
  - by eapply Serve_self_ok.
  - by eapply HandleConn_self_ok.
  - split; [|constructor]. by split.
  - split; [|constructor]. by eapply Close_self_ok.
Qed.

(** A connection open or tracked after a step is accounted for, by the goroutine
    that moved or one it started, or by another one. *)
Ltac accounted :=
  try (by left; split; [|congruence]);
  try match goal with |- context [Some ?a <> Some ?b] => destruct (decide (a = b)) as [->|] end;
  first [ by left; split; [|congruence]
        | right; eexists; split; [apply list_elem_of_here|]; done
        | right; eexists; split; [apply list_elem_of_further, list_elem_of_here|]; done ].

Lemma step_owned s t s' t' new c :
  thread_step s t s' t' new -> c ∈ copen s' ->
  (c ∈ copen s /\ owned_by t <> Some c) \/ exists u, u ∈ t' :: new /\ owned_by u = Some c.
Proof. intros H. step_cases H; unfold track; repeat case_match; simpl; sets; accounted. Qed.

Lemma step_tracked s t s' t' new c :
  thread_step s t s' t' new -> c ∈ conns s' ->
  (c ∈ conns s /\ tracked_by t <> Some c) \/ exists u, u ∈ t' :: new /\ tracked_by u = Some c.
Proof. intros H. step_cases H; unfold track; repeat case_match; simpl; sets; accounted. Qed.

(** After a [Close] has returned, nothing starts serving. *)
Lemma step_quiet s t s' t' new :
  thread_step s t s' t' new -> thread_ok s t -> open_within s [] -> quiet t ->
  quiet t' /\ Forall quiet new.
Proof.
  intros H [_ Ht] Ho Hq. step_cases H; simpl in *; try done; try (by split; [|repeat constructor]).
  destruct (Ht _ eq_refl) as [_ Hc]. by destruct (not_elem_of_nil c (Ho c (Hc ltac:(done)) ltac:(done))).
Qed.

(** A [Close] returns only when nothing is owed to the wait group. *)
Lemma step_returns s t s' t' new :
  thread_step s t s' t' new -> TClose KRet ∈ t' :: new ->
  t = TClose KWait /\ wg s = 0 /\ t' = TClose KRet /\ new = [].
Proof.
  intros H. step_cases H; rewrite ?elem_of_cons, elem_of_nil; naive_solver.
Qed.

Lemma owed_quiet t : owed t = 0 -> quiet t.
Proof. destruct_thread t; simpl; done || lia. Qed.

(** * The invariant holds *)

Lemma elem_of_swap {A} (x t t' : A) (a b new : list A) :
  x ∈ a ++ t :: b -> x = t \/ x ∈ a ++ t' :: b ++ new.
Proof. rewrite !elem_of_app, !elem_of_cons, elem_of_app. tauto. Qed.

Lemma elem_of_moved {A} (x t' : A) (a b new : list A) : x ∈ t' :: new -> x ∈ a ++ t' :: b ++ new.
Proof. rewrite elem_of_app, !elem_of_cons, elem_of_app. tauto. Qed.

Lemma Forall_moved {A} (P : A -> Prop) a t t' b new :
  Forall P (a ++ t :: b) -> P t' -> Forall P new -> Forall P (a ++ t' :: b ++ new).
Proof. rewrite !Forall_app, !Forall_cons, Forall_app. tauto. Qed.

Lemma invariant_run x y : run_step x y -> invariant x -> invariant y.
Proof.
  intros [s s' a b t t' new H] [Hw Hb Hok Ho Ht Hq]. simpl in *.
  pose proof (thread_step_evolves _ _ _ _ _ H Hb) as He.
  assert (thread_ok s t) as Hokt by (by apply Forall_app in Hok as [_ [? _]%Forall_cons]).
  destruct (step_self_ok _ _ _ _ _ H Hokt) as [Hok' Hnew].
  split; simpl.
  - rewrite (step_wg _ _ _ _ _ H), Hw, !total_app. simpl. rewrite total_app. lia.
  - by eapply step_bounded.
  - apply (Forall_moved _ _ t); [|done|done]. eapply Forall_impl; [done|].
    intros u. by apply evolves_thread_ok.
  - intros c Hc. destruct (step_owned _ _ _ _ _ c H Hc) as [[Hc' Hn]|(u & Hu & E)].
    + destruct (Ho c Hc') as (u & Hu & E). exists u. split; [|done].
      apply (elem_of_swap _ _ t' _ _ new) in Hu as [->|?]; [done|done].
    + exists u. split; [by apply elem_of_moved|done].
  - intros c Hc. destruct (step_tracked _ _ _ _ _ c H Hc) as [[Hc' Hn]|(u & Hu & E)].
    + destruct (Ht c Hc') as (u & Hu & E). exists u. split; [|done].
      apply (elem_of_swap _ _ t' _ _ new) in Hu as [->|?]; [done|done].
    + exists u. split; [by apply elem_of_moved|done].
  - intros Hret. assert (TClose KRet ∈ t' :: new \/ TClose KRet ∈ a ++ t :: b) as [Hr|Hr].
    { revert Hret. rewrite !elem_of_app, !elem_of_cons, elem_of_app. tauto. }
    + destruct (step_returns _ _ _ _ _ H Hr) as (-> & Hz & -> & ->). rewrite Hz in Hw.
      apply (Forall_moved _ _ (TClose KWait)); [|done|done].
      apply Forall_forall. intros u Hu. by eapply owed_quiet, total_zero.
    + rewrite Forall_forall in Hok. destruct (Hok _ Hr) as [(_ & _ & Hopen) _].
      pose proof (Hq Hr) as Hqs. assert (quiet t) by (by apply Forall_app in Hqs as [_ [? _]%Forall_cons]).
      destruct (step_quiet _ _ _ _ _ H Hokt Hopen) as [? ?]; [done|].
      by apply (Forall_moved _ _ t).
Qed.

(** A call from outside starts a goroutine that owes nothing yet. *)
Lemma invariant_call s s' ts t :
  invariant (s, ts) -> evolves s s' -> bounded s' -> wg s' = wg s -> conns s' = conns s ->
  (forall c, c ∈ copen s' -> c ∈ copen s \/ owned_by t = Some c) ->
  thread_ok s' t -> owed t = 0 -> quiet t -> t <> TClose KRet -> invariant (s', ts ++ [t]).
Proof.
  intros [Hw Hb Hok Ho Ht Hq] He Hb' Ew Ec Hopen Htok Hz Hqt Hk. simpl in *. split; simpl.
  - rewrite total_app. simpl. lia.
  - done.
  - apply Forall_app. split; [|by apply Forall_singleton].
    eapply Forall_impl; [done|]. intros u. by apply evolves_thread_ok.
  - intros c [Hc|Hc]%Hopen.
    + destruct (Ho c Hc) as (u & ? & ?). exists u. rewrite elem_of_app. tauto.
    + exists t. rewrite elem_of_app, list_elem_of_singleton. tauto.
  - rewrite Ec. intros c Hc. destruct (Ht c Hc) as (u & ? & ?). exists u. rewrite elem_of_app. tauto.
  - rewrite elem_of_app, list_elem_of_singleton, Forall_app. intros [?|?]; [|congruence].
    split; [auto|by apply Forall_singleton].
Qed.

Lemma invariant_close s ts c : invariant (s, ts) -> invariant (close_conn c s, ts).
Proof.
  intros [Hw Hb Hok Ho Ht Hq]. simpl in *. split; simpl; auto.
  - destruct Hb as [B1 B2 B3]. split; sets.
  - eapply Forall_impl; [done|]. intros u. apply evolves_thread_ok; [|done]. split; sets.
  - intros c' [Hc _]%elem_of_difference. auto.
Qed.

Lemma invariant_step x y : step x y -> invariant x -> invariant y.
Proof.
  intros [x' y' H|s ts|s ts|s ts|s ts c pc _] I;
    [by eapply invariant_run|..|by apply invariant_close]; destruct (inv_bounded _ I) as [B1 B2 B3]; simpl in *.
  - eapply invariant_call; try done; simpl; auto; [split; sets|split; simpl; auto|split; simpl; [lia|done]].
    intros l Hl. pose proof (B3 l Hl). lia.
  - eapply invariant_call; try done; auto using evolves_refl.
  - eapply invariant_call; try done; simpl; [split; sets|split; simpl; auto| |split; simpl; [lia|done]].
    + intros c [?|?%elem_of_singleton]%elem_of_union; [pose proof (B1 c ltac:(done)); lia|lia].
    + intros c Hc. pose proof (B2 c Hc). lia.
    + intros c [?|?%elem_of_singleton]%elem_of_union; [by left|right; by subst].
Qed.

Lemma invariant_initial : invariant initial.
Proof.
  split; simpl; try done.
  all: try (by intros c ?%not_elem_of_empty).
Qed.

Lemma invariant_rtc x y : rtc step x y -> invariant x -> invariant y.
Proof. induction 1; eauto using invariant_step. Qed.

Lemma invariant_reachable x : reachable x -> invariant x.
Proof. intros H. eapply invariant_rtc; [done|]. apply invariant_initial. Qed.

(** * Safety *)

(** A goroutine that has returned. *)
Definition ended (t : thread) : bool :=
  match t with
  | TServe _ (SRet _) | THandler _ _ HEnd | TSession _ _ SnEnd | TClose (KRet | KAlready) => true
  | _ => false
  end.

Lemma ended_owns t c : ended t = true -> owned_by t = Some c -> exists pc, t = THandler Foreign c pc.
Proof. destruct_thread t; simpl; try done. intros _ [= ->]. eauto. Qed.

Lemma ended_tracks t c : ended t = true -> tracked_by t <> Some c.
Proof. by destruct_thread t. Qed.

Lemma owned_tracked t c : owned_by t = Some c ->
  (exists l, t = TServe l (STrack c)) \/ tracked_by t = Some c \/ exists pc, t = THandler Foreign c pc.
Proof. destruct_thread t; simpl; intros [= ->]; eauto. Qed.

Lemma ended_empty s ts :
  invariant (s, ts) -> Forall (fun t => ended t = true) ts ->
  (forall c, c ∈ copen s -> exists pc, THandler Foreign c pc ∈ ts) /\ conns s = ∅ /\ wg s = 0.
Proof.
  intros [Hw _ _ Ho Ht _]. simpl in *. rewrite Forall_forall. intros He. split_and!.
  - intros c Hc. destruct (Ho c Hc) as (t & Hin & E).
    destruct (ended_owns t c (He t Hin) E) as [pc ->]. eauto.
  - apply elem_of_equiv_empty_L. intros c Hc. destruct (Ht c Hc) as (t & Hin & E).
    by eapply ended_tracks, E; auto.
  - rewrite Hw. clear -He. induction ts as [|t ts IH]; [done|]. simpl.
    rewrite IH by (intros u Hu; apply He; by right).
    assert (ended t = true) as Hn by (apply He; left). by destruct_thread t.
Qed.

(** C21. The server keeps account of its connections and goroutines in every
    interleaving: the wait group counts exactly the goroutines started and not
    finished, so it never goes negative; a connection that is open was handed in by
    the embedder or is the responsibility of a goroutine that will close it, and
    one that is past [track] is in the set [Close] drops; a connection in that set
    has a live handler or one about to start. So when every goroutine has ended,
    nothing is tracked or counted, and nothing the server accepted is open. *)
Theorem server_accounting s ts :
  reachable (s, ts) ->
  wg s = total ts /\ 0 <= wg s /\
  (forall c, c ∈ copen s ->
     (exists l, TServe l (STrack c) ∈ ts) \/
     (c ∈ conns s /\ exists t, t ∈ ts /\ tracked_by t = Some c) \/
     (exists pc, THandler Foreign c pc ∈ ts)) /\
  (forall c, c ∈ conns s -> exists t, t ∈ ts /\ tracked_by t = Some c) /\
  (Forall (fun t => ended t = true) ts ->
   (forall c, c ∈ copen s -> exists pc, THandler Foreign c pc ∈ ts) /\ conns s = ∅ /\ wg s = 0).
Proof.
  intros I%invariant_reachable. pose proof I as [Hw Hb Hok Ho Ht Hq]. simpl in *.
  rewrite Forall_forall in Hok. split_and!; [done|rewrite Hw; apply total_nonneg| |done|].
  - intros c Hc. destruct (Ho c Hc) as (t & Hin & [[l ->]|[E|[pc ->]]]%owned_tracked); [by eauto| |by eauto].
    right; left. split; [|eauto]. by apply (Hok t Hin).
  - by apply ended_empty.
Qed.

Lemma returned_stays x y : rtc step x y -> TClose KRet ∈ snd x -> TClose KRet ∈ snd y.
Proof.
  induction 1 as [|x y z Hxy _ IH]; [done|]. intros Hin. apply IH. clear IH.
  destruct Hxy as [x y [s s' a b t t' new Ht]|s ts|s ts|s ts|s ts c pc _]; simpl in *.
  - apply (elem_of_swap _ _ t' _ _ new) in Hin as [<-|?]; [|done].
    inversion Ht as [| | |? ? ? ? Hk]; subst. by inversion Hk.
  - apply elem_of_app. by left.
  - apply elem_of_app. by left.
  - apply elem_of_app. by left.
  - done.
Qed.

(** C17. After [Close] has returned, nothing is served, in any interleaving: on the
    connections the server accepted no session runs and no handler is past its
    handshake, now or later; the listener is closed; every connection past [track]
    is closed, the only ones open being those [Accept] has just returned, which
    [track] closes, and those the embedder handed to [HandleConn] itself. *)
Theorem nothing_served_after_close s ts s' ts' :
  reachable (s, ts) -> TClose KRet ∈ ts -> rtc step (s, ts) (s', ts') ->
  Forall quiet ts' /\ closed s' = true /\ ln_closed s' /\
  (forall c, c ∈ copen s' ->
     (exists l, TServe l (STrack c) ∈ ts') \/ exists pc, THandler Foreign c pc ∈ ts') /\
  (forall t c, t ∈ ts' -> tracked_by t = Some c -> c ∉ copen s').
Proof.
  intros Hr Hret Hs. assert (TClose KRet ∈ ts') as Hret'.
  { by apply (returned_stays (s, ts) (s', ts')). }
  assert (reachable (s', ts')) as [Hw Hb Hok Ho Ht Hq]%invariant_reachable
    by (unfold reachable in *; etrans; [exact Hr|exact Hs]).
  simpl in *. rewrite Forall_forall in Hok. destruct (Hok _ Hret') as [(Hc & Hl & Hopen) _].
  assert (forall t c, t ∈ ts' -> tracked_by t = Some c -> c ∉ copen s') as Hn.
  { intros t c Hin E Hco. destruct (Hok _ Hin) as [_ Htr].
    by eapply not_elem_of_nil, Hopen; [apply (Htr c E)|]. }
  split_and!; [auto|done|done| |done].
  intros c Hco. destruct (Ho c Hco) as (t & Hin & [[l ->]|[E|[pc ->]]]%owned_tracked); [by eauto| |by eauto].
  by destruct (Hn t c Hin E).
Qed.

(** * Termination *)

(** The steps a goroutine has left once its connection is closed. *)
Definition steps_left (t : thread) : nat :=
  match t with
  | TServe _ SBegin => 2
  | TServe _ SReject => 1
  | TServe _ SAccept => 2
  | TServe _ (STrack _) => 8
  | TServe _ (SAdd _) => 7
  | TServe _ (SSpawn _) => 6
  | TServe _ SErr => 1
  | TServe _ (SRet _) => 0
  | THandler _ _ HHandshake => 3
  | THandler _ _ (HServing n) => 3 + 3 * n
  | THandler _ _ (HSpawn n) => 5 + 3 * n
  | THandler _ _ HUntrack => 2
  | THandler _ _ HDone => 1
  | THandler _ _ HEnd => 0
  | TSession _ _ SnRun => 1
  | TSession _ _ SnEnd => 0
  | TClose KBegin => 1
  | TClose (KListener _ cs) => 3 + length cs
  | TClose (KConns cs) => 2 + length cs
  | TClose KWait => 1
  | TClose (KRet | KAlready) => 0
  end.

Definition all_left (ts : list thread) : nat := sum_list_with steps_left ts.

Lemma all_left_app a b : all_left (a ++ b) = (all_left a + all_left b)%nat.
Proof. unfold all_left. apply sum_list_with_app. Qed.

(** A call of [Serve] that has taken its listener. *)
Definition started (pc : serve_pc) : bool :=
  match pc with SBegin | SReject | SRet _ => false | _ => true end.

(** [Close] has closed the listener and every connection, the embedder has closed
    its own, and no [Serve] accepts on a listener other than the server's. *)
Record closing (x : state) : Prop := {
  cl_closed : closed (fst x) = true;
  cl_ln : ln_closed (fst x);
  cl_open : open_within (fst x) [];
  cl_serve : forall l pc, TServe l pc ∈ snd x -> started pc = true -> ln (fst x) = Some l;
  cl_foreign : forall c pc, THandler Foreign c pc ∈ snd x -> c ∉ copen (fst x)
}.

(** The server calls [HandleConn] only on connections of its own. *)
Lemma step_foreign s t s' t' new c pc :
  thread_step s t s' t' new -> THandler Foreign c pc ∈ t' :: new ->
  exists pc0, t = THandler Foreign c pc0.
Proof. intros H. step_cases H; rewrite ?elem_of_cons, elem_of_nil; naive_solver. Qed.

Lemma closing_step_left s t s' t' new :
  thread_step s t s' t' new -> thread_ok s t -> closed s = true -> ln_closed s -> open_within s [] ->
  (forall l pc, t = TServe l pc -> started pc = true -> ln s = Some l) ->
  (forall c pc, t = THandler Foreign c pc -> c ∉ copen s) ->
  (steps_left t' + all_left new < steps_left t)%nat /\
  (forall l pc, t' = TServe l pc -> started pc = true -> ln s' = Some l) /\
  (forall l pc, TServe l pc ∈ new -> False).
Proof.
  intros H [_ Hok] Hc Hl Ho Hs Hf. step_cases H; simpl in *; unfold all_left, track; simpl.
  all: rewrite ?Hc in *; try discriminate; simpl.
  all: try (split_and!; [lia|intros ? ? [= <- <-]; simpl; (done || by eauto)|]; set_solver).
  all: exfalso.
  1: by eapply Hl; [apply (Hs _ _ eq_refl)|].
  all: first [by eapply Hf | by eapply not_elem_of_nil, Ho; [apply (Hok c)|]].
Qed.

Lemma closing_run x y :
  run_step x y -> invariant x -> closing x ->
  closing y /\ (all_left (snd y) < all_left (snd x))%nat.
Proof.
  intros [s s' a b t t' new H] I [Hc Hl Ho Hs Hf]. simpl in *.
  pose proof (inv_bounded _ I) as Hb. simpl in Hb.
  pose proof (thread_step_evolves _ _ _ _ _ H Hb) as He.
  assert (t ∈ a ++ t :: b) as Hin by (apply elem_of_app; right; left).
  assert (thread_ok s t) as Hok by (pose proof (inv_ok _ I) as Ha; rewrite Forall_forall in Ha; by apply Ha).
  destruct (closing_step_left _ _ _ _ _ H Hok Hc Hl Ho) as (Hlt & Ht' & Hnew).
  { intros l pc ->. by apply Hs. }
  { intros c pc ->. by eapply Hf. }
  destruct (ev_closed _ _ He Hc) as (? & Hln & _). split; [split; simpl|].
  - done.
  - by eapply evolves_ln_closed.
  - by eapply evolves_open_within.
  - intros l pc. rewrite elem_of_app, elem_of_cons, elem_of_app.
    intros [?|[<-|[?|?%Hnew]]] ?; [|by eapply Ht'| |done].
    all: rewrite Hln; eapply Hs; [|done]; rewrite elem_of_app, elem_of_cons; auto.
  - intros c pc Hc'. assert (exists pc0, THandler Foreign c pc0 ∈ a ++ t :: b) as [pc0 Hin0].
    { assert (THandler Foreign c pc ∈ t' :: new \/ THandler Foreign c pc ∈ a ++ t :: b) as [Hn|?]; [|eauto|eauto].
      { revert Hc'. rewrite !elem_of_app, !elem_of_cons, elem_of_app. tauto. }
      destruct (step_foreign _ _ _ _ _ _ _ H Hn) as [pc0 ->]. eauto. }
    intros Hco. apply (Hf c pc0 Hin0). eapply ev_copen; [done| |done].
    pose proof (inv_ok _ I) as Ha. rewrite Forall_forall in Ha. by eapply foreign_below, Ha.
  - rewrite !all_left_app. unfold all_left in *; simpl. rewrite sum_list_with_app. lia.
Qed.

(** A goroutine that has not ended can move, unless it waits for the others. *)
Lemma live_moves s t :
  thread_ok s t -> ended t = false -> (t = TClose KWait -> wg s = 0) -> exists s' t' new, thread_step s t s' t' new.
Proof.
  intros [Hok _] He Hw. destruct t as [l pc|o c pc|o c pc|pc].
  - assert (exists s' pc' new, Serve_step l s pc s' pc' new) as (s' & pc' & new & H).
    { destruct pc; try done; [destruct (closed s) eqn:E|..]; eauto using Serve_step. }
    eauto using thread_step.
  - assert (exists s' pc' new, HandleConn_step o c s pc s' pc' new) as (s' & pc' & new & H).
    { destruct pc, o; try done; eauto using HandleConn_step. }
    eauto using thread_step.
  - destruct pc; [|done]. eauto using thread_step, session_step.
  - assert (exists s' pc', Close_step s pc s' pc') as (s' & pc' & H).
    { destruct pc as [|[]|[]| | |]; try done; [destruct (closed s) eqn:E|..]; eauto using Close_step. }
    eauto using thread_step.
Qed.

Lemma stuck_ended s ts :
  invariant (s, ts) -> (forall y, ~ run_step (s, ts) y) -> Forall (fun t => ended t = true) ts.
Proof.
  intros I Hn.
  assert (forall t, t ∈ ts -> ended t = true \/ (t = TClose KWait /\ wg s <> 0)) as Hs.
  { intros t Hin. destruct (ended t) eqn:E; [by left|]. right.
    assert (~ (t = TClose KWait -> wg s = 0)) as Hw.
    { intros Hw. pose proof (inv_ok _ I) as Hok. rewrite Forall_forall in Hok.
      destruct (live_moves s t (Hok t Hin) E Hw) as (s' & t' & new & H).
      apply list_elem_of_split in Hin as (a & b & ->). eapply Hn. by constructor. }
    split; [|intros ?; by apply Hw]. 
    destruct t as [| | |[]]; try done; exfalso; apply Hw; done. }
  assert (wg s = 0) as Hz.
  { pose proof (inv_wg _ I) as Hw. simpl in Hw. rewrite Hw. clear -Hs. induction ts as [|t ts IH]; [done|]. simpl.
    rewrite IH by (intros u Hu; apply Hs; by right).
    destruct (Hs t) as [Ht|[-> _]]; [left| |done]. by destruct_thread t. }
  apply Forall_forall. intros t Hin. by destruct (Hs t Hin) as [?|[_ ?]].
Qed.

(** C18. [Close] returns, and so does everything else. From the moment [Close] has
    closed the listener and the connections, with no [Serve] on any other
    listener, and once the embedder has closed the connections it handed in, every
    run of the server's goroutines is finite, and a run that can go no further has
    ended all of them: every [Close] and [Serve] has returned, every handler and
    session is over, and no connection is open. *)
Theorem close_terminates x :
  reachable x -> TClose KWait ∈ snd x ->
  (forall l pc, TServe l pc ∈ snd x -> started pc = true -> ln (fst x) = Some l) ->
  (forall c pc, THandler Foreign c pc ∈ snd x -> c ∉ copen (fst x)) ->
  Acc (fun b a => run_step a b) x /\
  forall y, rtc run_step x y -> (forall z, ~ run_step y z) ->
    Forall (fun t => ended t = true) (snd y) /\ copen (fst y) = ∅ /\ conns (fst y) = ∅.
Proof.
  intros I%invariant_reachable Hk Hs Hf. assert (closing x) as Hc.
  { pose proof (inv_ok _ I) as Hok. rewrite Forall_forall in Hok.
    destruct (Hok _ Hk) as [(? & ? & ?) _]. by split. }
  clear Hk Hs Hf. split.
  - remember (all_left (snd x)) as n eqn:En. revert x I Hc En.
    induction n as [n IH] using lt_wf_ind. intros x I Hc ->. constructor. intros y Hy.
    destruct (closing_run _ _ Hy I Hc) as [Hc' Hlt].
    eapply IH; [exact Hlt|by eapply invariant_run|done|done].
  - intros [s ts] Hr Hn.
    assert (invariant (s, ts) /\ closing (s, ts)) as [I' Hc'].
    { clear Hn. revert I Hc. induction Hr as [|x y z Hxy _ IH]; [done|]. intros I Hc.
      destruct (closing_run _ _ Hxy I Hc). eauto using invariant_run. }
    pose proof (stuck_ended _ _ I' Hn) as He. simpl.
    destruct (ended_empty s ts I' He) as (Ho & Hz & _). split_and!; [done| |done].
    apply elem_of_equiv_empty_L. intros c Hco. destruct (Ho c Hco) as [pc Hin].
    by eapply (cl_foreign _ Hc').
Qed.
