(* ===== verification/LifecycleRuns.v ===== *)
(** Concrete runs of [Lifecycle]: the gaps between what [src/sshd/sshd.go]
    documents of [Serve] and [Close] and what every interleaving gives. *)

From S2P Require Import Prelude Lifecycle LifecycleLaws.

(** The run so far, then the step [k] of one kind of goroutine. *)
Lemma serve_runs x l s pc s' pc' new a b :
  rtc step x (s, a ++ TServe l pc :: b) -> Serve_step l s pc s' pc' new ->
  rtc step x (s', a ++ TServe l pc' :: b ++ new).
Proof. intros Hr H. eapply rtc_r; [exact Hr|]. by constructor; constructor; constructor. Qed.

Lemma handler_runs x o c s pc s' pc' new a b :
  rtc step x (s, a ++ THandler o c pc :: b) -> HandleConn_step o c s pc s' pc' new ->
  rtc step x (s', a ++ THandler o c pc' :: b ++ new).
Proof. intros Hr H. eapply rtc_r; [exact Hr|]. by constructor; constructor; constructor. Qed.

Lemma close_runs x s pc s' pc' a b :
  rtc step x (s, a ++ TClose pc :: b) -> Close_step s pc s' pc' ->
  rtc step x (s', a ++ TClose pc' :: b).
Proof.
  intros Hr H. rewrite <- (app_nil_r b). eapply rtc_r; [exact Hr|].
  by constructor; constructor; constructor.
Qed.

(** A client is connected; its handler has not started yet. *)
Definition tracked_state : state :=
  (track 0 true (accept_conn (set_ln 0 (open_listener (fst initial)))), [TServe 0 (SAdd 0)]).

Lemma tracked_reachable : reachable tracked_state.
Proof.
  eapply (serve_runs _ 0 _ (STrack 0) _ _ [] [] []); [|constructor].
  eapply (serve_runs _ 0 _ SAccept _ _ [] [] []); [|constructor; set_solver].
  eapply (serve_runs _ 0 _ SBegin _ _ [] [] []); [|by constructor].
  apply rtc_once, (step_call_serve (fst initial) []).
Qed.

(** [Close] runs to its end before the handler is added to the wait group. *)
Definition outrun_shared : shared :=
  close_conn 0 (close_listener 0 (set_closed (fst tracked_state))).

Definition outrun_state : state := (outrun_shared, [TServe 0 (SAdd 0); TClose KRet]).

Lemma outrun_reachable : reachable outrun_state.
Proof.
  eapply (close_runs _ _ KWait _ _ [_] []); [|by constructor].
  eapply (close_runs _ _ (KConns []) _ _ [_] []); [|constructor].
  eapply (close_runs _ _ (KConns [0%nat]) _ _ [_] []); [|constructor].
  eapply (close_runs _ _ (KListener (Some 0%nat) [0%nat]) _ _ [_] []); [|constructor].
  eapply (close_runs _ _ KBegin _ _ [_] []).
  - eapply rtc_r; [exact tracked_reachable|]. apply (step_call_close (fst tracked_state)).
  - apply close_begin; [done|]. by vm_compute.
Qed.

(** The client is served: its handler runs a session. *)
Definition serving_state : state :=
  (wg_Add 1 (wg_Add 1 (fst tracked_state)),
   [TServe 0 SAccept; THandler Own 0 (HServing 0); TSession Own 0 SnRun]).

Lemma serving_reachable : reachable serving_state.
Proof.
  eapply (handler_runs _ Own 0 _ (HSpawn 0) _ _ _ [_] []); [|constructor].
  eapply (handler_runs _ Own 0 _ (HServing 1) _ _ [] [_] []); [|constructor].
  eapply (handler_runs _ Own 0 _ (HServing 0) _ _ [] [_] []); [|constructor; set_solver].
  eapply (handler_runs _ Own 0 _ HHandshake _ _ [] [_] []); [|constructor; set_solver].
  eapply (serve_runs _ 0 _ (SSpawn 0) _ _ _ [] []); [|constructor].
  eapply (serve_runs _ 0 _ (SAdd 0) _ _ [] [] []); [|constructor].
  exact tracked_reachable.
Qed.

(** [Close] has closed everything and waits for the session. *)
Definition waiting_state : state :=
  (close_conn 0 (close_listener 0 (set_closed (fst serving_state))),
   [TServe 0 SAccept; THandler Own 0 (HServing 0); TSession Own 0 SnRun; TClose KWait]).

Lemma waiting_reachable : reachable waiting_state.
Proof.
  eapply (close_runs _ _ (KConns []) _ _ [_; _; _] []); [|constructor].
  eapply (close_runs _ _ (KConns [0%nat]) _ _ [_; _; _] []); [|constructor].
  eapply (close_runs _ _ (KListener (Some 0%nat) [0%nat]) _ _ [_; _; _] []); [|constructor].
  eapply (close_runs _ _ KBegin _ _ [_; _; _] []).
  - eapply rtc_r; [exact serving_reachable|]. apply (step_call_close (fst serving_state)).
  - apply close_begin; [done|]. by vm_compute.
Qed.

(** The embedder hands in a connection; [Close] does not see it, and its client asks
    for a session afterwards. *)
Definition foreign_start : state :=
  (accept_conn (fst initial), [THandler Foreign 0 HHandshake]).

Definition foreign_state : state :=
  (wg_Add 1 (set_closed (fst foreign_start)),
   [THandler Foreign 0 (HServing 0); TClose KRet; TSession Foreign 0 SnRun]).

Lemma foreign_reachable : reachable foreign_state.
Proof.
  eapply (handler_runs _ Foreign 0 _ (HSpawn 0) _ _ _ [] [_]); [|constructor].
  eapply (handler_runs _ Foreign 0 _ (HServing 1) _ _ [] [] [_]); [|constructor].
  eapply (handler_runs _ Foreign 0 _ (HServing 0) _ _ [] [] [_]); [|constructor; set_solver].
  eapply (handler_runs _ Foreign 0 _ HHandshake _ _ [] [] [_]); [|constructor; set_solver].
  eapply (close_runs _ _ KWait _ _ [_] []); [|by constructor].
  eapply (close_runs _ _ (KConns []) _ _ [_] []); [|constructor].
  eapply (close_runs _ _ (KListener None []) _ _ [_] []); [|constructor].
  eapply (close_runs _ _ KBegin _ _ [_] []).
  - eapply rtc_r; [|apply (step_call_close (fst foreign_start))].
    apply rtc_once, (step_call_handle (fst initial) []).
  - apply close_begin; [done|]. by vm_compute.
Qed.

(** * Witnesses *)

Lemma server_accounting_witness :
  wg (fst serving_state) = 2 /\
  exists t, t ∈ snd serving_state /\ tracked_by t = Some 0%nat.
Proof.
  destruct (server_accounting (fst serving_state) (snd serving_state) serving_reachable)
    as (Hw & _ & _ & Ht & _).
  split; [exact Hw|]. apply Ht. apply (bool_decide_unpack (0%nat ∈ conns (fst serving_state))).
  vm_compute. exact I.
Defined.

Lemma nothing_served_after_close_witness :
  Forall quiet (snd outrun_state) /\ ln_closed (fst outrun_state).
Proof.
  destruct (nothing_served_after_close (fst outrun_state) (snd outrun_state)
    (fst outrun_state) (snd outrun_state) outrun_reachable) as (Hq & _ & Hl & _).
  - apply list_elem_of_further, list_elem_of_here.
  - apply rtc_refl.
  - split; [exact Hq|exact Hl].
Defined.

Lemma close_terminates_witness : Acc (fun b a => run_step a b) waiting_state.
Proof.
  apply (close_terminates waiting_state waiting_reachable).
  - apply list_elem_of_further, list_elem_of_further, list_elem_of_further, list_elem_of_here.
  - intros l pc Hin _. simpl in Hin. rewrite !elem_of_cons, elem_of_nil in Hin.
    destruct Hin as [[= -> ->]|[?|[?|[?|[]]]]]; [reflexivity|discriminate..].
  - intros c pc Hin. simpl in Hin. rewrite !elem_of_cons, elem_of_nil in Hin.
    destruct Hin as [?|[?|[?|[?|[]]]]]; discriminate.
Defined.

(** * What is promised and does not hold *)

(** C39. Four promises of the documentation that an interleaving breaks. [Close]
    "waits for their handlers to finish": a connection tracked but not yet added
    to the wait group has its handler start after [Close] returned. [Serve]
    "closes ln before returning": when [Accept] fails on an open server it
    returns with its listener open. A second [Close] returns at once while the
    sessions the first one waits for are still running. And [Close] "drops every
    live connection": one the embedder handed to [HandleConn] stays open, and
    starts a session after [Close] has returned. *)
Theorem lifecycle_promises_broken :
  (exists s ts c, reachable (s, ts) /\ TClose KRet ∈ ts /\ THandler Own c HHandshake ∈ ts) /\
  (exists s ts l, reachable (s, ts) /\ TServe l (SRet ReturnsErr) ∈ ts /\ l ∈ lopen s) /\
  (exists s ts c, reachable (s, ts) /\ TClose KAlready ∈ ts /\ TSession Own c SnRun ∈ ts) /\
  (exists s ts c, reachable (s, ts) /\ TClose KRet ∈ ts /\ c ∈ copen s /\
     TSession Foreign c SnRun ∈ ts).
Proof.
  split_and!.
  - eexists _, _, 0%nat. split.
    + eapply (serve_runs _ 0 _ (SSpawn 0) _ _ _ [] [_]); [|constructor].
      eapply (serve_runs _ 0 _ (SAdd 0) _ _ [] [] [_]); [|constructor]. exact outrun_reachable.
    + simpl. set_solver.
  - eexists _, _, 0%nat. split.
    + eapply (serve_runs _ 0 (set_ln 0 (open_listener (fst initial))) SErr _ _ [] [] []);
        [|constructor].
      eapply (serve_runs _ 0 _ SAccept _ _ [] [] []); [|by apply serve_accept_fails].
      eapply (serve_runs _ 0 _ SBegin _ _ [] [] []); [|by apply serve_listen].
      apply rtc_once, (step_call_serve (fst initial) []).
    + simpl. set_solver.
  - eexists _, _, 0%nat. split.
    + eapply (close_runs _ (fst waiting_state) KBegin _ _ [_; _; _; _] []); [|by apply close_already].
      eapply rtc_r; [exact waiting_reachable|]. apply (step_call_close (fst waiting_state)).
    + simpl. set_solver.
  - exists (fst foreign_state), (snd foreign_state), 0%nat. split; [exact foreign_reachable|].
    simpl. split_and!; set_solver.
Qed.
