(* ===== verification/Flag.v ===== *)
(** Go's [strconv] and [flag] as the demonstration program uses them
    ([src/fat32demo/demo/demo.go], [ParseArgs]): the Go standard library, from
    its specification. *)

From S2P Require Import Prelude Attr.

(** * strconv *)

Inductive num_error := ErrSyntax | ErrRange.

Definition lower (c : byte) : Z := Z.lor (byte_val c) 0x20.

Definition is_digit (c : byte) : bool := (48 <=? byte_val c) && (byte_val c <=? 57).

(** [underscoreOK]: underscores only between digits, or between a base prefix and
    a digit. [prev] is the class of the character before: '^' at the start. *)
Inductive uclass := UStart | UDigit | UUnder | UOther.

Fixpoint underscore_scan (hex : bool) (prev : uclass) (s : bytes) : bool :=
  match s with
  | [] => match prev with UUnder => false | _ => true end
  | c :: s =>
      if is_digit c || (hex && (97 <=? lower c) && (lower c <=? 102)) then underscore_scan hex UDigit s
      else if bool_decide (c = x5f) then
        match prev with UDigit => underscore_scan hex UUnder s | _ => false end
      else match prev with UUnder => false | _ => underscore_scan hex UOther s end
  end.

Definition underscoreOK (s : bytes) : bool :=
  let s := match s with
           | c :: s' => if bool_decide (c = x2d \/ c = x2b) then s' else s
           | [] => s
           end in
  match s with
  | a :: b :: s' =>
      if bool_decide (a = x30) && ((lower b =? 98) || (lower b =? 111) || (lower b =? 120))
      then underscore_scan (lower b =? 120) UDigit s'
      else underscore_scan false UStart s
  | _ => underscore_scan false UStart s
  end.

(** The digit loop of [ParseUint] at 64 bits: the value, and whether underscores
    were seen. *)
Fixpoint parse_digits (base0 : bool) (base n : Z) (under : bool) (s : bytes)
  : outcome num_error (Z * bool) :=
  match s with
  | [] => Ok (n, under)
  | c :: s =>
      if bool_decide (c = x5f) && base0 then parse_digits base0 base n true s
      else
        let d := if is_digit c then Some (byte_val c - 48)
                 else if (97 <=? lower c) && (lower c <=? 122) then Some (lower c - 97 + 10)
                 else None in
        match d with
        | None => Err ErrSyntax
        | Some d =>
            if d >=? base then Err ErrSyntax
            else if n >=? MaxUint64 / base + 1 then Err ErrRange
            else if n * base + d >? MaxUint64 then Err ErrRange
            else parse_digits base0 base (n * base + d) under s
        end
  end.

(** [ParseUint(s, 0, 64)]; a range error comes with the largest value. *)
Definition ParseUint0 (s0 : bytes) : Z * option num_error :=
  match s0 with
  | [] => (0, Some ErrSyntax)
  | c :: r =>
      let '(base, s) :=
        if bool_decide (c = x30) then
          match r with
          | b :: ((_ :: _) as t) =>
              if lower b =? 98 then (2, t)
              else if lower b =? 111 then (8, t)
              else if lower b =? 120 then (16, t)
              else (8, r)
          | _ => (8, r)
          end
        else (10, s0) in
      match parse_digits true base 0 false s with
      | Ok (n, under) => if under && negb (underscoreOK s0) then (0, Some ErrSyntax) else (n, None)
      | Err ErrRange => (MaxUint64, Some ErrRange)
      | _ => (0, Some ErrSyntax)
      end
  end.

(** [ParseInt(s, 0, 64)]. *)
Definition ParseInt0 (s : bytes) : Z * option num_error :=
  match s with
  | [] => (0, Some ErrSyntax)
  | c :: r =>
      let neg := bool_decide (c = x2d) in
      let s := if bool_decide (c = x2b) || neg then r else s in
      match ParseUint0 s with
      | (_, Some ErrSyntax) => (0, Some ErrSyntax)
      | (un, _) =>
          if negb neg && (un >=? 2 ^ 63) then (2 ^ 63 - 1, Some ErrRange)
          else if neg && (un >? 2 ^ 63) then (- 2 ^ 63, Some ErrRange)
          else (if neg then - un else un, None)
      end
  end.

(** [strconv.Itoa]. *)
Definition Itoa (z : Z) : bytes :=
  if z <? 0 then x2d :: FormatUint (- z) else FormatUint z.

Definition ParseBool (s : bytes) : bool * option num_error :=
  if bool_decide (s ∈ [str "1"; str "t"; str "T"; str "true"; str "TRUE"; str "True"])
  then (true, None)
  else if bool_decide (s ∈ [str "0"; str "f"; str "F"; str "false"; str "FALSE"; str "False"])
  then (false, None)
  else (false, Some ErrSyntax).

(** * flag *)

Inductive flag_error :=
| BadSyntax (arg : bytes)
| NotDefined (name : bytes)
| NeedsArgument (name : bytes)
| InvalidValue (name value : bytes) (e : num_error)
| ErrHelp.

Section flag.
Context {O : Type}.

(** A defined flag: whether it is boolean, and its [Value.Set], which stores even
    the value it reports an error for. *)
Record flag_def := { f_bool : bool; f_Set : bytes -> O -> O * option num_error }.

Definition flag_set := list (bytes * flag_def).

(** The name and the value of an argument after its dashes, cut at the first '='
    that is not the first character. *)
Fixpoint cut_value (s : bytes) : bytes * option bytes :=
  match s with
  | [] => ([], None)
  | c :: s =>
      if bool_decide (c = x3d) then ([], Some s)
      else let '(name, v) := cut_value s in (c :: name, v)
  end.

Definition split_name (name : bytes) : bytes * option bytes :=
  match name with
  | [] => ([], None)
  | c :: s => let '(n, v) := cut_value s in (c :: n, v)
  end.

Fixpoint formal (fs : flag_set) (name : bytes) : option flag_def :=
  match fs with
  | [] => None
  | (n, d) :: fs => if bool_decide (n = name) then Some d else formal fs name
  end.

(** [parseOne]: the flags stopped, one was read, or parsing failed. *)
Inductive one_result :=
| Stopped (args : list bytes)
| Seen (args : list bytes) (o : O)
| Failed (o : O) (e : flag_error).

(** The value is set, or reported. *)
Definition set_flag (d : flag_def) (name value : bytes) (args : list bytes) (o : O) : one_result :=
  match f_Set d value o with
  | (o, Some e) => Failed o (InvalidValue name value e)
  | (o, None) => Seen args o
  end.

(** A flag's name and value, after the dashes; [args] follow. *)
Definition parse_flag (fs : flag_set) (arg text : bytes) (args : list bytes) (o : O) : one_result :=
  match text with
  | [] => Failed o (BadSyntax arg)
  | c :: _ =>
      if bool_decide (c = x2d \/ c = x3d) then Failed o (BadSyntax arg)
      else
        let '(name, value) := split_name text in
        match formal fs name with
        | None =>
            if bool_decide (name = str "help" \/ name = str "h") then Failed o ErrHelp
            else Failed o (NotDefined name)
        | Some d =>
            if f_bool d then set_flag d name (default (str "true") value) args o
            else match value, args with
                 | Some v, _ => set_flag d name v args o
                 | None, v :: args => set_flag d name v args o
                 | None, [] => Failed o (NeedsArgument name)
                 end
        end
  end.

Definition parseOne (fs : flag_set) (args : list bytes) (o : O) : one_result :=
  match args with
  | [] => Stopped []
  | s :: rest =>
      match s with
      | a :: b :: text =>
          if negb (bool_decide (a = x2d)) then Stopped args
          else if bool_decide (b = x2d) then
            if bool_decide (text = []) then Stopped rest else parse_flag fs s text rest o
          else parse_flag fs s (b :: text) rest o
      | _ => Stopped args
      end
  end.

(** [FlagSet.Parse] with [ContinueOnError]: the options, the arguments left and
    the error. Each flag takes an argument, so the number of arguments is fuel
    enough. *)
Fixpoint parse_loop (fuel : nat) (fs : flag_set) (args : list bytes) (o : O)
  : O * list bytes * option flag_error :=
  match parseOne fs args o with
  | Stopped args => (o, args, None)
  | Failed o e => (o, args, Some e)
  | Seen args o =>
      match fuel with
      | 0%nat => (o, args, None)
      | S fuel => parse_loop fuel fs args o
      end
  end.

Definition Parse (fs : flag_set) (args : list bytes) (o : O) : O * list bytes * option flag_error :=
  parse_loop (length args) fs args o.
End flag.

(** * Termination *)

Section fuel.
Context {O : Type}.
Implicit Types (fs : flag_set (O:=O)) (o : O).

Lemma parse_flag_shorter fs arg text args o args' o' :
  parse_flag fs arg text args o = Seen args' o' -> (length args' <= length args)%nat.
Proof.
  unfold parse_flag. destruct text as [|c text]; [done|].
  destruct (bool_decide _); [done|]. destruct (split_name _) as [name value].
  destruct (formal fs name) as [d|]; [|by destruct (bool_decide _)].
  unfold set_flag. destruct (f_bool d); [|destruct value as [v|]; [|destruct args as [|v args]; [done|]]].
  all: destruct (f_Set d _ o) as [o1 [e|]]; [done|]; intros [= <- _]; simpl; lia.
Qed.

Lemma parseOne_shorter fs args o args' o' :
  parseOne fs args o = Seen args' o' -> (length args' < length args)%nat.
Proof.
  unfold parseOne. destruct args as [|[|a [|b text]] rest]; try done.
  destruct (negb _); [done|]. destruct (bool_decide _); [destruct (bool_decide _); [done|]|].
  all: intros H%parse_flag_shorter; simpl; lia.
Qed.

(** More fuel than arguments changes nothing. *)
Lemma parse_loop_fuel fs args o fuel :
  (length args <= fuel)%nat -> parse_loop fuel fs args o = Parse fs args o.
Proof.
  unfold Parse. intros Hf. remember (length args) as n eqn:En. revert fuel args o En Hf.
  induction n as [n IH] using lt_wf_ind. intros fuel args o -> Hf.
  destruct (parseOne fs args o) as [r|args' o'|o' e] eqn:E.
  1,3: destruct fuel, (length args); cbn [parse_loop]; by rewrite E.
  pose proof (parseOne_shorter _ _ _ _ _ E) as Hs.
  destruct fuel as [|fuel], (length args) as [|k] eqn:Ek; try lia. cbn [parse_loop]. rewrite E.
  rewrite (IH (length args') ltac:(lia) fuel args' o') by lia.
  by rewrite (IH (length args') ltac:(lia) k args' o') by lia.
Qed.
End fuel.
