(* ===== verification/Demo.v ===== *)
(** The demonstration program: [src/fat32demo/demo/demo.go].

    The image driver, the operating system and the keys' formats are outside the
    repository: [Env] holds what they answer. [Build] and [Run] are the events on
    the image and the server they cause, in order, and their result. *)

From S2P Require Import Prelude Errors Driver Server Sshd SshdKeys Flag.

(** * Options *)

Record Options := {
  o_Image : bytes;
  o_Addr : bytes;
  o_HostKey : bytes;
  o_AuthorizedKeys : bytes;
  o_ReadWrite : bool;
  o_Partition : Z
}.

Definition set_Image (v : bytes) (o : Options) : Options :=
  {| o_Image := v; o_Addr := o_Addr o; o_HostKey := o_HostKey o;
     o_AuthorizedKeys := o_AuthorizedKeys o; o_ReadWrite := o_ReadWrite o;
     o_Partition := o_Partition o |}.
Definition set_Addr (v : bytes) (o : Options) : Options :=
  {| o_Image := o_Image o; o_Addr := v; o_HostKey := o_HostKey o;
     o_AuthorizedKeys := o_AuthorizedKeys o; o_ReadWrite := o_ReadWrite o;
     o_Partition := o_Partition o |}.
Definition set_HostKey (v : bytes) (o : Options) : Options :=
  {| o_Image := o_Image o; o_Addr := o_Addr o; o_HostKey := v;
     o_AuthorizedKeys := o_AuthorizedKeys o; o_ReadWrite := o_ReadWrite o;
     o_Partition := o_Partition o |}.
Definition set_AuthorizedKeys (v : bytes) (o : Options) : Options :=
  {| o_Image := o_Image o; o_Addr := o_Addr o; o_HostKey := o_HostKey o;
     o_AuthorizedKeys := v; o_ReadWrite := o_ReadWrite o; o_Partition := o_Partition o |}.
Definition set_ReadWrite (v : bool) (o : Options) : Options :=
  {| o_Image := o_Image o; o_Addr := o_Addr o; o_HostKey := o_HostKey o;
     o_AuthorizedKeys := o_AuthorizedKeys o; o_ReadWrite := v; o_Partition := o_Partition o |}.
Definition set_Partition (v : Z) (o : Options) : Options :=
  {| o_Image := o_Image o; o_Addr := o_Addr o; o_HostKey := o_HostKey o;
     o_AuthorizedKeys := o_AuthorizedKeys o; o_ReadWrite := o_ReadWrite o; o_Partition := v |}.

Inductive demo_error :=
| DFlag (e : flag_error)
| DNoImage
| DNoAuthorizedKeys
| DOpenImage (e : error)
| DSftp (e : new_error)
| DSshd (e : sshd_error)
| DOther (e : error).

(** [StringVar], [BoolVar], [IntVar]. *)
Definition stringFlag (set : bytes -> Options -> Options) : flag_def :=
  {| f_bool := false; f_Set := fun v o => (set v o, None) |}.
Definition boolFlag (set : bool -> Options -> Options) : flag_def :=
  {| f_bool := true; f_Set := fun v o => let '(b, e) := ParseBool v in (set b o, e) |}.
Definition intFlag (set : Z -> Options -> Options) : flag_def :=
  {| f_bool := false; f_Set := fun v o => let '(n, e) := ParseInt0 v in (set n o, e) |}.

Definition demo_flags : flag_set (O:=Options) := [
  (str "image", stringFlag set_Image);
  (str "addr", stringFlag set_Addr);
  (str "host-key", stringFlag set_HostKey);
  (str "authorized-keys", stringFlag set_AuthorizedKeys);
  (str "rw", boolFlag set_ReadWrite);
  (str "partition", intFlag set_Partition)
].

Definition default_options : Options :=
  {| o_Image := []; o_Addr := str "127.0.0.1:2222"; o_HostKey := []; o_AuthorizedKeys := [];
     o_ReadWrite := false; o_Partition := -1 |}.

Definition ParseArgs (args : list bytes) : Options * option demo_error :=
  match Parse demo_flags args default_options with
  | (o, _, Some e) => (o, Some (DFlag e))
  | (o, _, None) =>
      if bool_decide (o_Image o = []) then (o, Some DNoImage)
      else if bool_decide (o_AuthorizedKeys o = []) then (o, Some DNoAuthorizedKeys)
      else (o, None)
  end.

(** * Building and running *)

Section demo.
Context `{!SSH} `{!KeyFormats}.

Record Env := {
  openImage : bytes -> Z -> option Caps * option error;
  os_ReadFile : bytes -> bytes + error;
  keyRand : bytes + error;
  now : Z;
  net_Listen : bytes -> option error
}.

(** What happens to the image and to the server, in order. *)
Inductive demo_event := EOpened | EClosedImage | EServed | EStopped.

(** A function's result with an error; a panic of a parser is kept. *)
Definition hostKeys (env : Env) (o : Options) : outcome demo_error (list Signer) :=
  if bool_decide (o_HostKey o = []) then
    match GenerateHostKey (keyRand env) with
    | Err e => Err (DOther e)
    | Panic => Panic
    | Ok k => Ok [k]
    end
  else match os_ReadFile env (o_HostKey o) with
  | inr e => Err (DOther e)
  | inl pem =>
      match ParseHostKey pem with
      | Err e => Err (DOther e)
      | Panic => Panic
      | Ok k => Ok [k]
      end
  end.

(** [sshd.Config{HostKeys: hk, AuthorizedKeys: keys}]. *)
Definition demo_config (hk : list Signer) (keys : list PublicKey) : Config (SftpServer:=Server) :=
  {| HostKeys := hk; AuthorizedKeys := keys; PublicKeyFor := None; TrustedUserCAs := [];
     CertificateFor := None; Password := None; ServerFor := None; ServerForLogin := None;
     Banner := [] |}.

(** [Build]; its closer is [fsys.Close]. *)
Definition Build (env : Env) (o : Options)
  : list demo_event * outcome demo_error (sshd_Server (SftpServer:=Server)) :=
  match openImage env (o_Image o) (o_Partition o) with
  | (_, Some e) => ([], Err (DOpenImage e))
  | (fs, None) =>
      let opened := match fs with Some _ => [EOpened] | None => [] end in
      match New fs (now env) (if o_ReadWrite o then [ReadWrite] else []) with
      | Err e => (opened, Err (DSftp e))
      | Panic => (opened, Panic)
      | Ok srv =>
          match os_ReadFile env (o_AuthorizedKeys o) with
          | inr e => (opened ++ [EClosedImage], Err (DOther e))
          | inl ak =>
              match ParseAuthorizedKeys ak with
              | Err e => (opened ++ [EClosedImage], Err (DOther e))
              | Panic => (opened, Panic)
              | Ok keys =>
                  match hostKeys env o with
                  | Err e => (opened ++ [EClosedImage], Err e)
                  | Panic => (opened, Panic)
                  | Ok hk =>
                      match sshd_New (Some srv) (demo_config hk keys) with
                      | Err e => (opened ++ [EClosedImage], Err (DSshd e))
                      | Panic => (opened, Panic)
                      | Ok d => (opened, Ok d)
                      end
                  end
              end
          end
      end
  end.

(** What becomes of the server [Run] starts: the error [Serve] returns, whether
    the context was cancelled by then, and whether it ever is. *)
Record Script := { sc_serve : sshd_error; sc_cancelled : bool; sc_ever : bool }.

(** [Serve] returns [ErrServerClosed] only after [Close], which is called when the
    context is done. *)
Definition script_ok (sc : Script) : Prop :=
  (sc_serve sc = ErrServerClosed -> sc_cancelled sc = true) /\
  (sc_cancelled sc = true -> sc_ever sc = true).

Inductive run_result := Returns (e : option demo_error) | Panics | Blocks.

Definition is_closed (e : sshd_error) : bool :=
  match e with ErrServerClosed => true | _ => false end.

(** [Run]; it waits for the goroutine that closes the server when the context is
    done. *)
Definition Run (env : Env) (o : Options) (sc : Script) : list demo_event * run_result :=
  match Build env o with
  | (evs, Err e) => (evs, Returns (Some e))
  | (evs, Panic) => (evs, Panics)
  | (evs, Ok d) =>
      match net_Listen env (o_Addr o) with
      | Some e => (evs ++ [EClosedImage], Returns (Some (DOther e)))
      | None =>
          let err := if is_closed (sc_serve sc) && sc_cancelled sc then None
                     else Some (DSshd (sc_serve sc)) in
          if sc_ever sc then (evs ++ [EServed; EStopped; EClosedImage], Returns err)
          else (evs ++ [EServed], Blocks)
      end
  end.

(** [Main]'s exit code, if it exits. *)
Definition Main (env : Env) (args : list bytes) (sc : Script) : option Z :=
  match ParseArgs args with
  | (_, Some (DFlag ErrHelp)) => Some 0
  | (_, Some _) => Some 2
  | (o, None) =>
      match snd (Run env o sc) with
      | Returns None => Some 0
      | Returns (Some (DSshd ErrServerClosed)) => Some 0
      | Returns (Some _) => Some 1
      | Panics | Blocks => None
      end
  end.
End demo.
