(* ===== verification/DemoLaws.v ===== *)
(** The demonstration program, from its command line to the image
    ([src/fat32demo/demo/demo.go]). *)

From S2P Require Import Prelude Errors Attr Driver Server Sshd SshInstance SshdLaws SshdKeys Flag.
From S2P Require Import Demo.

(** * Numbers on the command line *)

Lemma parse_digit n d s :
  0 <= n -> 0 <= d < 10 -> n * 10 + d <= MaxUint64 ->
  parse_digits true 10 n false (byte_of (48 + d) :: s) = parse_digits true 10 (n * 10 + d) false s.
Proof.
  intros Hn Hd Hm. cbn [parse_digits].
  assert (byte_val (byte_of (48 + d)) = 48 + d) as Hv by (apply byte_of_small; lia).
  assert (is_digit (byte_of (48 + d)) = true) as Hg.
  { unfold is_digit. rewrite Hv. apply andb_true_intro. split; apply Z.leb_le; lia. }
  assert (byte_of (48 + d) <> x5f) as Hu.
  { intros E. rewrite E in Hv. change (byte_val x5f) with 95 in Hv. lia. }
  rewrite (bool_decide_eq_false_2 _ Hu), Hg, Hv. cbn [andb].
  replace (48 + d - 48) with d by lia. unfold MaxUint64 in *.
  rewrite !Z.geb_leb, (proj2 (Z.leb_gt _ _)) by lia.
  rewrite (proj2 (Z.leb_gt _ _)) by (change ((2 ^ 64 - 1) / 10 + 1) with 1844674407370955162; lia).
  by rewrite Z.gtb_ltb, (proj2 (Z.ltb_ge _ _)) by lia.
Qed.

Lemma parse_format fuel v acc :
  0 <= v < 10 ^ Z.of_nat fuel -> v <= MaxUint64 -> (0 < fuel)%nat ->
  parse_digits true 10 0 false (format_digits fuel v acc) = parse_digits true 10 v false acc.
Proof.
  revert v acc. induction fuel as [|fuel IH]; intros v acc Hv Hm Hf; [lia|].
  cbn [format_digits]. destruct (v <? 10) eqn:E; bool_prop.
  - rewrite Z.mod_small by lia. rewrite parse_digit by lia. by rewrite Z.mul_0_l.
  - rewrite Nat2Z.inj_succ, Z.pow_succ_r in Hv by lia.
    assert (0 < fuel)%nat by (destruct fuel; [simpl in Hv; lia|lia]).
    pose proof (Z.div_mod v 10 ltac:(lia)). pose proof (Z.mod_pos_bound v 10 ltac:(lia)).
    rewrite IH by lia. rewrite parse_digit by lia. f_equal. lia.
Qed.

(** The decimal of a positive number starts with a digit that is not zero. *)
Lemma format_head fuel v acc :
  0 < v < 10 ^ Z.of_nat fuel ->
  exists d s, format_digits fuel v acc = byte_of (48 + d) :: s /\ 1 <= d < 10.
Proof.
  revert v acc. induction fuel as [|fuel IH]; intros v acc Hv; [simpl in Hv; lia|].
  cbn [format_digits]. destruct (v <? 10) eqn:E; bool_prop.
  - exists (v mod 10), acc. rewrite Z.mod_small by lia. split; [done|lia].
  - rewrite Nat2Z.inj_succ, Z.pow_succ_r in Hv by lia. apply IH.
    pose proof (Z.div_mod v 10 ltac:(lia)). pose proof (Z.mod_pos_bound v 10 ltac:(lia)). lia.
Qed.

Lemma format_not d : 1 <= d < 10 -> byte_of (48 + d) <> x30 /\ byte_of (48 + d) <> x2d /\
  byte_of (48 + d) <> x2b.
Proof.
  intros Hd. assert (byte_val (byte_of (48 + d)) = 48 + d) as Hv by (apply byte_of_small; lia).
  split_and!; intros E%(f_equal byte_val); rewrite Hv in E;
    match type of E with _ = ?y => let y' := eval vm_compute in y in change y with y' in E end; lia.
Qed.

Lemma ParseUint0_format v :
  0 < v <= MaxUint64 -> exists d s, FormatUint v = byte_of (48 + d) :: s /\ 1 <= d < 10 /\
    ParseUint0 (FormatUint v) = (v, None).
Proof.
  intros Hv. assert (0 < v < 10 ^ Z.of_nat 20) as Hb.
  { unfold MaxUint64 in Hv. change (10 ^ Z.of_nat 20) with 100000000000000000000. lia. }
  destruct (format_head 20 v [] Hb) as (d & s & E & Hd).
  exists d, s. unfold FormatUint in *. split; [done|]. split; [done|].
  pose proof (parse_format 20 v [] ltac:(lia) ltac:(lia) ltac:(lia)) as Hp.
  rewrite E in *. unfold ParseUint0. destruct (format_not d Hd) as (H0 & _).
  rewrite (bool_decide_eq_false_2 _ H0). by rewrite Hp.
Qed.

Lemma ParseInt0_Itoa z : i64 z -> ParseInt0 (Itoa z) = (z, None).
Proof.
  unfold i64, Itoa. intros Hz. destruct (z <? 0) eqn:En; bool_prop.
  - destruct (ParseUint0_format (- z)) as (d & s & E & Hd & Hp); [unfold MaxUint64; lia|].
    unfold ParseInt0. change (bool_decide (x2d = x2b)) with false.
    change (bool_decide (x2d = x2d)) with true. cbn [orb]. rewrite Hp. cbn [negb andb].
    rewrite Z.gtb_ltb, (proj2 (Z.ltb_ge _ _)) by lia. f_equal. lia.
  - destruct (decide (z = 0)) as [->|Hnz]; [reflexivity|].
    destruct (ParseUint0_format z) as (d & s & E & Hd & Hp); [unfold MaxUint64; lia|].
    destruct (format_not d Hd) as (_ & H1 & H2). unfold ParseInt0. rewrite E in *.
    rewrite (bool_decide_eq_false_2 _ H1), (bool_decide_eq_false_2 _ H2). cbn [orb]. rewrite Hp.
    cbn [negb andb].
    by rewrite Z.geb_leb, (proj2 (Z.leb_gt _ _)) by lia.
Qed.

(** * The command line *)

Inductive setting :=
| SImage (v : bytes) | SAddr (v : bytes) | SHostKey (v : bytes) | SKeys (v : bytes)
| SReadWrite (b : bool) | SPartition (z : Z).

(** What a setting does to the options. *)
Definition apply_setting (o : Options) (s : setting) : Options :=
  match s with
  | SImage v => set_Image v o
  | SAddr v => set_Addr v o
  | SHostKey v => set_HostKey v o
  | SKeys v => set_AuthorizedKeys v o
  | SReadWrite b => set_ReadWrite b o
  | SPartition z => set_Partition z o
  end.

Definition setting_ok (s : setting) : Prop :=
  match s with SPartition z => i64 z | _ => True end.

(** The ways to write it: one dash or two, the value after '=' or as the next
    argument; a boolean alone is true. *)
Definition write_setting (two_dashes equals : bool) (s : setting) : list bytes :=
  let flag name := (if two_dashes then str "--" else str "-") ++ str name in
  let valued name v := if equals then [flag name ++ str "=" ++ v] else [flag name; v] in
  match s with
  | SImage v => valued "image"%string v
  | SAddr v => valued "addr"%string v
  | SHostKey v => valued "host-key"%string v
  | SKeys v => valued "authorized-keys"%string v
  | SReadWrite true => if equals then [flag "rw"%string ++ str "=true"] else [flag "rw"%string]
  | SReadWrite false => [flag "rw"%string ++ str "=false"]
  | SPartition z => valued "partition"%string (Itoa z)
  end.

Lemma parseOne_setting two eq s args o :
  setting_ok s ->
  parseOne demo_flags (write_setting two eq s ++ args) o = Seen args (apply_setting o s).
Proof.
  intros Hs. destruct two, eq, s as [v|v|v|v|[]|z]; try reflexivity.
  all: simpl in Hs; pose proof (ParseInt0_Itoa z Hs) as Hz.
  all: transitivity (set_flag (intFlag set_Partition) (str "partition") (Itoa z) args o);
    [reflexivity|].
  all: unfold set_flag; cbn [f_Set intFlag]; by rewrite Hz.
Qed.

(** Arguments at which flags end: none, "--", or one that is not a flag. *)
Definition positional (args : list bytes) : Prop :=
  match args with
  | [] => True
  | s :: _ => s = str "--" \/ (length s < 2)%nat \/ exists c r, s = c :: r /\ c <> x2d
  end.

Lemma parseOne_positional args o :
  positional args -> exists rest, parseOne demo_flags args o = Stopped rest.
Proof.
  destruct args as [|s args]; simpl; [eauto|]. intros [->|[Hl|(c & r & -> & Hc)]].
  - simpl. eauto.
  - destruct s as [|? [|]]; simpl in *; [eauto..|lia].
  - destruct r as [|b text]; [eauto|]. rewrite (bool_decide_eq_false_2 _ Hc). simpl. eauto.
Qed.

(** What is written on a command line. *)
Definition command_line (settings : list (bool * bool * setting)) (tail : list bytes) : list bytes :=
  flat_map (fun '(two, eq, s) => write_setting two eq s) settings ++ tail.

Lemma parse_loop_settings settings tail fuel o :
  Forall (fun '(_, _, s) => setting_ok s) settings -> positional tail ->
  (length settings <= fuel)%nat ->
  exists rest, parse_loop fuel demo_flags (command_line settings tail) o =
    (fold_left apply_setting (map snd settings) o, rest, None).
Proof.
  intros Hs Ht. revert fuel o. induction Hs as [|[[two eq] s] settings Hs _ IH]; intros fuel o Hf.
  - destruct (parseOne_positional tail o Ht) as [rest E].
    exists rest. unfold command_line. cbn [flat_map app].
    destruct fuel; cbn [parse_loop]; by rewrite E.
  - simpl in Hf. destruct fuel as [|fuel]; [lia|]. unfold command_line. cbn [flat_map].
    rewrite <- app_assoc. cbn [parse_loop]. rewrite parseOne_setting by done.
    apply IH. lia.
Qed.

Lemma length_command_line settings tail :
  (length settings <= length (command_line settings tail))%nat.
Proof.
  unfold command_line. rewrite length_app. induction settings as [|[[two eq] s] settings IH]; simpl; [lia|].
  rewrite length_app. assert (1 <= length (write_setting two eq s))%nat.
  { destruct two, eq, s as [| | | |[]|]; simpl; lia. }
  lia.
Qed.



(** An argument that could be read as the -rw flag. *)
Definition names_rw (arg : bytes) : bool :=
  bool_decide (str "-rw" `prefix_of` arg) || bool_decide (str "--rw" `prefix_of` arg).

Lemma cut_value_prefix s : fst (cut_value s) `prefix_of` s.
Proof.
  induction s as [|c s IH]; simpl; [done|]. case_bool_decide; [apply prefix_nil|].
  destruct (cut_value s). by apply prefix_cons.
Qed.

Lemma split_name_prefix text : fst (split_name text) `prefix_of` text.
Proof.
  destruct text as [|c r]; [done|]. simpl. pose proof (cut_value_prefix r).
  destruct (cut_value r). by apply prefix_cons.
Qed.

(** Only the flag named "rw" changes whether the export is writable. *)
Lemma formal_keeps_ro name d v o :
  formal demo_flags name = Some d -> name <> str "rw" ->
  o_ReadWrite (fst (f_Set d v o)) = o_ReadWrite o.
Proof.
  unfold formal, demo_flags. simpl. intros Hd Hn.
  repeat case_bool_decide; simplify_eq/=; try done. by destruct (ParseInt0 v).
Qed.

(** What a step of the parser did to the options, whether it went on or failed. *)
Definition left_by (o : Options) (x : one_result (O:=Options)) : Options :=
  match x with Stopped _ => o | Seen _ o' | Failed o' _ => o' end.

Lemma parse_flag_keeps_ro arg text args o :
  ~ str "rw" `prefix_of` text ->
  o_ReadWrite (left_by o (parse_flag demo_flags arg text args o)) = o_ReadWrite o.
Proof.
  intros Ht. unfold parse_flag. destruct text as [|c text]; [done|].
  case_bool_decide; [done|]. pose proof (split_name_prefix (c :: text)) as Hp.
  destruct (split_name (c :: text)) as [name value]; cbn [fst] in Hp.
  assert (name <> str "rw") as Hn by (by intros ->).
  destruct (formal demo_flags name) as [d|] eqn:Ed; [|by case_bool_decide].
  assert (forall v rest, o_ReadWrite (left_by o (set_flag d name v rest o)) = o_ReadWrite o) as Hs.
  { intros v rest. rewrite <- (formal_keeps_ro name d v o Ed Hn). unfold set_flag.
    by destruct (f_Set d v o) as [? [?|]]. }
  destruct (f_bool d), value as [v|], args; try apply Hs; done.
Qed.

Lemma parseOne_keeps_ro args o :
  Forall (fun a => names_rw a = false) args ->
  o_ReadWrite (left_by o (parseOne demo_flags args o)) = o_ReadWrite o.
Proof.
  intros Ha. destruct args as [|[|a [|b text]] rest]; try done. apply Forall_cons in Ha as [Ha _].
  unfold names_rw in Ha. apply orb_false_iff in Ha as [H1%bool_decide_eq_false H2%bool_decide_eq_false].
  cbn [parseOne]. case_bool_decide; [|done]. subst a. cbn [negb]. case_bool_decide.
  - subst b. case_bool_decide; [done|]. apply parse_flag_keeps_ro. intros Hp. apply H2.
    by do 2 apply prefix_cons.
  - apply parse_flag_keeps_ro. intros Hp. apply H1. by apply prefix_cons.
Qed.

(** The arguments a step leaves are some of the ones it was given. *)
Lemma parseOne_args args o args' o' :
  parseOne demo_flags args o = Seen args' o' -> exists used, args = used ++ args'.
Proof.
  destruct args as [|[|a [|b text]] rest]; try done. cbn [parseOne].
  assert (forall arg text, parse_flag demo_flags arg text rest o = Seen args' o' ->
    exists used, rest = used ++ args') as Hf.
  { intros arg tx. unfold parse_flag, set_flag. destruct tx as [|c tx]; [done|].
    case_bool_decide; [done|]. destruct (split_name _) as [name value].
    destruct (formal _ _) as [d|]; [|by case_bool_decide].
    destruct (f_bool d), value as [v|], rest as [|v' rest]; try done.
    all: destruct (f_Set d _ o) as [? [?|]]; [done|]; intros [= -> _]; (by exists []) || by exists [v']. }
  assert (forall used, rest = used ++ args' -> (a :: b :: text) :: rest =
    ((a :: b :: text) :: used) ++ args') as Hu by (by intros used ->).
  destruct (negb _); [done|]. case_bool_decide; [case_bool_decide; [done|]|].
  all: intros [used Hr]%Hf; eauto.
Qed.

Lemma parse_loop_keeps_ro fuel args o :
  Forall (fun a => names_rw a = false) args ->
  o_ReadWrite (fst (fst (parse_loop fuel demo_flags args o))) = o_ReadWrite o.
Proof.
  revert args o. induction fuel as [|fuel IH]; intros args o Ha; cbn [parse_loop];
    pose proof (parseOne_keeps_ro args o Ha) as Hk;
    destruct (parseOne demo_flags args o) eqn:E; cbn [left_by fst] in *; try done.
  apply parseOne_args in E as [used ->]. apply Forall_app in Ha as [_ Ha].
  rewrite IH by done. done.
Qed.

(** A command line without -rw, in any spelling, asks for a read-only export. *)
Lemma ParseArgs_read_only args :
  Forall (fun a => names_rw a = false) args -> o_ReadWrite (fst (ParseArgs args)) = false.
Proof.
  intros Ha. pose proof (parse_loop_keeps_ro (length args) args default_options Ha) as Hk.
  unfold ParseArgs, Parse. destruct (parse_loop _ _ _ _) as [[o rest] [e|]]; [done|].
  by repeat case_bool_decide.
Qed.

(** * The image *)

Section image.
Context `{!SSH} `{!KeyFormats}.

(** The driver opened the image and returned a filesystem. *)
Definition image_opened (env : Env) (o : Options) : Prop :=
  exists fs, openImage env (o_Image o) (o_Partition o) = (Some fs, None).

Lemma Build_events env o evs r :
  Build env o = (evs, r) ->
  (~ image_opened env o /\ evs = [] /\ exists e, r = Err e) \/
  (image_opened env o /\
   ((evs = [EOpened; EClosedImage] /\ exists e, r = Err e) \/ (evs = [EOpened] /\ r = Panic) \/
    (evs = [EOpened] /\ exists d, r = Ok d))).
Proof.
  unfold Build, image_opened. destruct (openImage env _ _) as [fs [e|]].
  { intros [= <- <-]. left. split; [by intros (? & ?)|eauto]. }
  destruct fs as [fs|]; simpl.
  2:{ intros [= <- <-]. left. split; [by intros (? & ?)|eauto]. }
  intros E. right. split; [eauto|].
  repeat match type of E with
  | (match ?x with _ => _ end) = _ => destruct x; [..|]
  | (let _ := ?x in _) = _ => cbv zeta in E
  end; injection E as <- <-; eauto 6.
Qed.

(** The image is closed exactly once, and last. Whatever the driver, the
    files and the network answer: when [Run] returns, an image that was opened
    has been closed once, after the server stopped, and on every error path; the
    result is nil exactly when cancelling the context stopped the server. It
    never returns, and never closes the image, when the context is never done,
    even if [Serve] has failed. *)
Theorem image_closed_exactly_once env o sc evs r :
  Run env o sc = (evs, r) -> script_ok sc ->
  match r with
  | Returns e =>
      (~ image_opened env o /\ evs = [] /\ e <> None) \/
      (image_opened env o /\ evs = [EOpened; EClosedImage] /\ e <> None) \/
      (image_opened env o /\ evs = [EOpened; EServed; EStopped; EClosedImage] /\
       sc_ever sc = true /\ (e = None <-> sc_serve sc = ErrServerClosed))
  | Blocks => image_opened env o /\ evs = [EOpened; EServed] /\ sc_ever sc = false
  | Panics => image_opened env o /\ evs = [EOpened]
  end.
Proof.
  unfold Run. destruct (Build env o) as [bevs br] eqn:E. intros Hr [Hs1 Hs2].
  apply Build_events in E as [(Hn & -> & e & ->)|(Ho & [(-> & e & ->)|[[-> ->]|(-> & d & ->)]])].
  - injection Hr as <- <-. by left.
  - injection Hr as <- <-. right; by left.
  - by injection Hr as <- <-.
  - destruct (net_Listen env _) as [e|]; [injection Hr as <- <-; right; by left|].
    destruct (sc_ever sc) eqn:Ev; injection Hr as <- <-; [|done].
    right; right. split_and!; [done|done|done|].
    destruct (sc_serve sc) eqn:Ee; simpl; try (split; [done|]; intros ?; done).
    by rewrite Hs1.
Qed.

(** * Who may use it *)

Context {Laws : SSHLaws}.

(** What a successful [Build] has done. *)
Lemma Build_ok env o evs d :
  Build env o = (evs, Ok d) ->
  exists srv ak keys hk,
    ro srv = negb (o_ReadWrite o) /\
    os_ReadFile env (o_AuthorizedKeys o) = inl ak /\ ParseAuthorizedKeys ak = Ok keys /\
    sshd_New (Some srv) (demo_config hk keys) = Ok d.
Proof.
  unfold Build. destruct (openImage env _ _) as [[fs|] [e|]]; try done.
  destruct (New _ _ _) as [srv|e|] eqn:EN; try done.
  destruct (os_ReadFile env (o_AuthorizedKeys o)) as [ak|e]; [|done].
  destruct (ParseAuthorizedKeys ak) as [keys|e|] eqn:Ek; try done.
  destruct (hostKeys env o) as [hk|e|]; try done.
  match goal with |- context [sshd_New ?x ?y] => destruct (sshd_New x y) as [d'|e|] eqn:En end;
    try done. intros [= <- <-]. exists srv, ak, keys, hk. split_and!; try done.
  destruct (o_ReadWrite o); by injection EN as <-.
Qed.

(** The policy of the program's configuration. *)
Lemma demo_config_admits hk keys user key h :
  admits (demo_config hk keys) user key h <-> exists k, k ∈ keys /\ Marshal k = Marshal key.
Proof.
  unfold admits, issued, vouched, trusts, listed. simpl.
  destruct (as_Certificate key); naive_solver (set_solver).
Qed.

(** The program lets in exactly the keys of the file it was given, and writes
    only if told to. When [Build] succeeds, a user is accepted exactly when the
    key offered is, byte for byte, one of those the authorized_keys file parses
    to, of which there is at least one; passwords are not offered; and the server
    exports the image read-only unless -rw was given. *)
Theorem demo_serves_listed_keys_only env o evs d :
  Build env o = (evs, Ok d) ->
  exists ak keys srv,
    os_ReadFile env (o_AuthorizedKeys o) = inl ak /\ ParseAuthorizedKeys ak = Ok keys /\ keys <> [] /\
    (forall user key h, key_accepted d user key h <->
       exists k, k ∈ keys /\ Marshal k = Marshal key) /\
    PasswordCallback (d_cfg d) = None /\
    d_sftp d = Some srv /\ ro srv = negb (o_ReadWrite o).
Proof.
  intros (srv & ak & keys & hk & Hro & Hak & Hkeys & En)%Build_ok.
  pose proof (sshd_New_ok _ _ _ En) as (Hd & _ & _ & Hk & Hp).
  set (cfg := demo_config hk keys) in *.
  assert (keys <> []) as Hne.
  { destruct (proj1 (sshd_New_succeeds _ _) (ex_intro _ d En)) as (_ & _ & Hpol).
    by destruct Hpol as [?|[?|[?|[?|?]]]]. }
  exists ak, keys, srv. split_and!; try done.
  intros user key h. unfold key_accepted. rewrite Hk, <- (demo_config_admits hk keys user key h).
  fold cfg. rewrite <- publicKeyCallback_policy by done.
  assert (takes_keys cfg = true) as ->.
  { unfold takes_keys. by rewrite (proj2 (len_gtb_cons (AuthorizedKeys cfg)) Hne). }
  rewrite orb_true_r. simpl. split; [intros (cb & h' & l & [= <-] & ?)|intros (h' & l & ?)]; eauto.
Qed.
End image.

(** * A run

    An image that opens, an authorized_keys file with one key, an ephemeral host
    key; the context is cancelled. *)

Definition sample_env : Env := {|
  openImage := fun _ _ => (Some {| is_Truncater := true; is_MetadataSetter := false;
                                   is_Symlinker := false; is_Opener := true |}, None);
  os_ReadFile := fun _ => inl (str "y" ++ [x0a]);
  keyRand := inl [];
  now := 0;
  net_Listen := fun _ => None
|}.

Definition sample_options : Options := set_AuthorizedKeys (str "ak") (set_Image (str "disk") default_options).

Definition sample_script : Script :=
  {| sc_serve := ErrServerClosed; sc_cancelled := true; sc_ever := true |}.

Lemma letter_ssh_laws : @SSHLaws letter_ssh.
Proof.
  split.
  - done.
  - intros ca user key h _. by eexists.
  - intros ca fb user key cert. destruct cert.
Qed.

Lemma image_closed_exactly_once_witness :
  image_opened sample_env sample_options /\
  fst (@Run letter_ssh letter_formats sample_env sample_options sample_script) =
    [EOpened; EServed; EStopped; EClosedImage].
Proof.
  destruct (@image_closed_exactly_once letter_ssh letter_formats sample_env sample_options
    sample_script [EOpened; EServed; EStopped; EClosedImage] (Returns None))
    as [(_ & _ & Hn)|[(_ & Hn & _)|(Ho & _)]].
  - vm_compute. reflexivity.
  - split; reflexivity.
  - destruct Hn. reflexivity.
  - discriminate Hn.
  - split; [exact Ho|]. vm_compute. reflexivity.
Defined.

Lemma demo_serves_listed_keys_only_witness : exists d,
  snd (@Build letter_ssh letter_formats sample_env sample_options) = Ok d /\
  @key_accepted letter_ssh Server d (str "anyone") true ∅ /\
  ~ @key_accepted letter_ssh Server d (str "anyone") false ∅.
Proof.
  destruct (@Build letter_ssh letter_formats sample_env sample_options) as [evs [d|e|]] eqn:E;
    [|discriminate E..].
  exists d. split; [reflexivity|].
  destruct (@demo_serves_listed_keys_only letter_ssh letter_formats letter_ssh_laws sample_env
    sample_options evs d E) as (ak & keys & srv & Hr & Hk & _ & Ha & _).
  injection Hr as <-. vm_compute in Hk. injection Hk as <-. split.
  - apply Ha. exists true. split; [apply list_elem_of_here|reflexivity].
  - intros Hf. apply Ha in Hf as (k & Hin & Em). apply list_elem_of_singleton in Hin as ->.
    discriminate Em.
Defined.
