(* ===== verification/DemoRun.v ===== *)
(** [Run] of [src/fat32demo/demo/demo.go] with its goroutines.

    [Demo.Run] takes what becomes of the server as a script. Here [Run] runs
    beside the server's own goroutines ([Lifecycle]): the main goroutine calls
    [Serve] and waits for the one that calls [Close] when the context is done.
    Every interleaving is one of [Demo.Run]'s scripts, and the image is closed
    only when nothing can use it any more. *)

From S2P Require Import Prelude Errors Driver Server Sshd SshdKeys Lifecycle LifecycleLaws Demo DemoLaws.

(** * State *)

(** The goroutine that waits for the context, then closes the server, then closes
    [stopped]. *)
Inductive closer_pc := GWait | GClosing | GStopped.

(** [Run] itself: in [Serve], waiting for [stopped] with the error to return, or
    returned, [closeFS] having run. *)
Inductive main_pc :=
| MServe | MWait (err : option demo_error) | MReturned (err : option demo_error).

Record run_state := {
  r_srv : state;
  r_done : bool;
  r_closer : closer_pc;
  r_main : main_pc
}.

(** [closeFS], deferred. *)
Definition image_closed (x : run_state) : bool :=
  match r_main x with MReturned _ => true | _ => false end.

(** The error [Run] keeps of what [Serve] returned; [e] is [Accept]'s. *)
Definition run_error (r : serve_result) (e : sshd_error) (done : bool) : option demo_error :=
  let err := match r with ReturnsClosed => ErrServerClosed | ReturnsErr => e end in
  if is_closed err && done then None else Some (DSshd err).

(** After [Build] and [net.Listen]: [Serve] is about to be called on the listener,
    and the goroutine has been started. *)
Definition run_start : run_state :=
  {| r_srv := (open_listener (fst initial), [TServe 0 SBegin]); r_done := false;
     r_closer := GWait; r_main := MServe |}.

Inductive run_moves : run_state -> run_state -> Prop :=
| mv_server x y d g m : run_step x y ->
    run_moves {| r_srv := x; r_done := d; r_closer := g; r_main := m |}
              {| r_srv := y; r_done := d; r_closer := g; r_main := m |}
| mv_cancel x g m :
    run_moves {| r_srv := x; r_done := false; r_closer := g; r_main := m |}
              {| r_srv := x; r_done := true; r_closer := g; r_main := m |}
| mv_close s ts m :
    run_moves {| r_srv := (s, ts); r_done := true; r_closer := GWait; r_main := m |}
              {| r_srv := (s, ts ++ [TClose KBegin]); r_done := true; r_closer := GClosing; r_main := m |}
| mv_stopped s ts d m pc : TClose pc ∈ ts -> ended (TClose pc) = true ->
    run_moves {| r_srv := (s, ts); r_done := d; r_closer := GClosing; r_main := m |}
              {| r_srv := (s, ts); r_done := d; r_closer := GStopped; r_main := m |}
| mv_served s ts d g r e : TServe 0 (SRet r) ∈ ts -> is_closed e = false ->
    run_moves {| r_srv := (s, ts); r_done := d; r_closer := g; r_main := MServe |}
              {| r_srv := (s, ts); r_done := d; r_closer := g; r_main := MWait (run_error r e d) |}
| mv_return x d err :
    run_moves {| r_srv := x; r_done := d; r_closer := GStopped; r_main := MWait err |}
              {| r_srv := x; r_done := d; r_closer := GStopped; r_main := MReturned err |}.

Definition run_reachable (x : run_state) : Prop := rtc run_moves run_start x.

(** * The calls of [Close] and [Serve] *)

Definition close_pcs (ts : list thread) : list close_pc :=
  omap (fun t => match t with TClose pc => Some pc | _ => None end) ts.

Definition serve_pcs (ts : list thread) : list (nat * serve_pc) :=
  omap (fun t => match t with TServe l pc => Some (l, pc) | _ => None end) ts.

Lemma close_pcs_elem ts pc : TClose pc ∈ ts <-> pc ∈ close_pcs ts.
Proof.
  unfold close_pcs. rewrite list_elem_of_omap. split; [eauto|]. intros (t & Hin & E).
  destruct t; naive_solver.
Qed.

Lemma serve_pcs_elem ts l pc : TServe l pc ∈ ts <-> (l, pc) ∈ serve_pcs ts.
Proof.
  unfold serve_pcs. rewrite list_elem_of_omap. split; [eauto|]. intros (t & Hin & E).
  destruct t; naive_solver.
Qed.

(** The server's goroutines call neither. *)
Lemma step_no_calls s t s' t' new :
  thread_step s t s' t' new -> close_pcs new = [] /\ serve_pcs new = [].
Proof. intros H. step_cases H; done. Qed.

(** A step of the server moves one call of [Close], or none and leaves [closed]. *)
Lemma run_step_close_pcs x y :
  run_step x y ->
  (close_pcs (snd y) = close_pcs (snd x) /\ closed (fst y) = closed (fst x)) \/
  exists a b pc pc', close_pcs (snd x) = a ++ pc :: b /\ close_pcs (snd y) = a ++ pc' :: b /\
    Close_step (fst x) pc (fst y) pc'.
Proof.
  intros [s s' a b t t' new H]. destruct (step_no_calls _ _ _ _ _ H) as [Hn _].
  unfold close_pcs in *. cbn [fst snd]. rewrite !omap_app. cbn [omap list_omap]. rewrite omap_app, Hn, app_nil_r.
  destruct H as [l s pc s' pc' new H|o c s pc s' pc' new H|o c s pc s' pc' H|s pc s' pc' H].
  1-3: left; split; [done|]; destruct H; try done; unfold track; repeat case_match; done.
  right. do 4 eexists. by split_and!.
Qed.

(** Likewise for [Serve], with the server's listener. *)
Lemma run_step_serve_pcs x y :
  run_step x y ->
  (serve_pcs (snd y) = serve_pcs (snd x) /\ ln (fst y) = ln (fst x)) \/
  exists a b l pc pc' new, serve_pcs (snd x) = a ++ (l, pc) :: b /\ serve_pcs (snd y) = a ++ (l, pc') :: b /\
    Serve_step l (fst x) pc (fst y) pc' new.
Proof.
  intros [s s' a b t t' new H]. destruct (step_no_calls _ _ _ _ _ H) as [_ Hn].
  unfold serve_pcs in *. cbn [fst snd]. rewrite !omap_app. cbn [omap list_omap]. rewrite omap_app, Hn, app_nil_r.
  destruct H as [l s pc s' pc' new H|o c s pc s' pc' new H|o c s pc s' pc' H|s pc s' pc' H].
  2-4: left; split; [done|]; destruct H; try done; unfold track; repeat case_match; done.
  right. do 6 eexists. by split_and!.
Qed.

(** [Run] hands no connection of its own to [HandleConn]. *)
Definition no_foreign (ts : list thread) : Prop := forall c pc, THandler Foreign c pc ∉ ts.

Lemma run_step_no_foreign x y : run_step x y -> no_foreign (snd x) -> no_foreign (snd y).
Proof.
  intros [s s' a b t t' new H] Hn c pc Hin. simpl in *.
  assert (THandler Foreign c pc ∈ t' :: new \/ THandler Foreign c pc ∈ a ++ t :: b) as [Hm|Hm].
  { revert Hin. rewrite !elem_of_app, !elem_of_cons, elem_of_app. tauto. }
  - destruct (step_foreign _ _ _ _ _ _ _ H Hm) as [pc0 ->]. eapply (Hn c pc0).
    apply elem_of_app. right. left.
  - by eapply Hn.
Qed.

Lemma singleton_split {A} (x y : A) a b : [x] = a ++ y :: b -> a = [] /\ y = x /\ b = [].
Proof. destruct a as [|? [|]]; [|done..]. by intros [= -> <-]. Qed.

(** A server that was closed stays closed. *)
Lemma run_step_closed x y : run_step x y -> closed (fst x) = true -> closed (fst y) = true.
Proof.
  intros [[_ ->]|(a & b & pc & pc' & _ & _ & Hs)]%run_step_close_pcs; [done|]. by destruct Hs.
Qed.

(** * The invariant *)

(** The one call of [Close] was the first: it did not find the server closed. *)
Definition close_ok (s : shared) (pc : close_pc) : Prop :=
  pc <> KAlready /\ (pc = KBegin -> closed s = false).

(** The one call of [Serve] has the server's listener, and says [ErrServerClosed]
    only of a closed server. *)
Definition serve_ok (s : shared) (pc : serve_pc) : Prop :=
  (pc = SReject \/ pc = SRet ReturnsClosed -> closed s = true) /\
  (started pc = true -> ln s = Some 0%nat).

(** The error [Run] has kept of what [Serve] returned. *)
Definition kept (r : serve_result) (err : option demo_error) (done : bool) : Prop :=
  match r with
  | ReturnsClosed => err = None /\ done = true
  | ReturnsErr => exists e, err = Some (DSshd e) /\ is_closed e = false
  end.

Record run_inv (x : run_state) : Prop := {
  ri_reach : reachable (r_srv x);
  ri_closer : match r_closer x with
    | GWait => closed (fst (r_srv x)) = false /\ close_pcs (snd (r_srv x)) = []
    | GClosing => r_done x = true /\ exists pc, close_pcs (snd (r_srv x)) = [pc] /\ close_ok (fst (r_srv x)) pc
    | GStopped => r_done x = true /\ close_pcs (snd (r_srv x)) = [KRet]
    end;
  ri_serve : exists pc, serve_pcs (snd (r_srv x)) = [(0%nat, pc)] /\ serve_ok (fst (r_srv x)) pc;
  ri_main : match r_main x with
    | MServe => True
    | MWait err | MReturned err =>
        exists r, serve_pcs (snd (r_srv x)) = [(0%nat, SRet r)] /\ kept r err (r_done x)
    end;
  ri_stopped : image_closed x = true -> r_closer x = GStopped;
  ri_own : no_foreign (snd (r_srv x))
}.

Lemma close_ok_step s s' pc pc' : Close_step s pc s' pc' -> close_ok s pc -> close_ok s' pc'.
Proof. intros H [H1 H2]. destruct H; try done. by rewrite H2 in H. Qed.

Lemma serve_ok_step s s' pc pc' new :
  Serve_step 0 s pc s' pc' new -> serve_ok s pc -> serve_ok s' pc'.
Proof.
  intros H [H1 H2]. destruct H; split; simpl in *; try (by intros [?|?]); try done; auto.
  - destruct (closed s); [done|]. by intros [?|?].
  - intros _. destruct (closed s); by apply H2.
Qed.

Lemma run_inv_server x y d g m :
  run_step x y -> run_inv {| r_srv := x; r_done := d; r_closer := g; r_main := m |} ->
  run_inv {| r_srv := y; r_done := d; r_closer := g; r_main := m |}.
Proof.
  intros H [Hr Hc (spc & Hs & Hok) Hm Hst Hown]. simpl in *. split; simpl.
  - unfold reachable in *. eapply rtc_r; [done|]. by constructor.
  - pose proof (run_step_close_pcs _ _ H) as Hk. destruct g.
    + destruct Hc as [Hc1 Hc2].
      destruct Hk as [[-> ->]|(a & b & ? & ? & E & _)]; [done|]. rewrite Hc2 in E. by destruct a.
    + destruct Hc as (Hd & pc & Hc1 & Hc2). split; [done|].
      destruct Hk as [[-> E]|(a & b & pc1 & pc' & E1 & E2 & Hk)].
      * exists pc. unfold close_ok in *. by rewrite E.
      * rewrite Hc1 in E1. apply singleton_split in E1 as (-> & -> & ->).
        exists pc'. split; [done|]. by eapply close_ok_step.
    + destruct Hc as [Hd Hc]. split; [done|].
      destruct Hk as [[-> _]|(a & b & pc1 & pc' & E1 & E2 & Hk)]; [done|].
      rewrite Hc in E1. apply singleton_split in E1 as (_ & -> & _). inversion Hk.
  - destruct (run_step_serve_pcs _ _ H) as [[-> E]|(a & b & l & pc & pc' & new & E1 & E2 & Hk)].
    + exists spc. split; [done|]. destruct Hok as [H1 H2]. split; [|by rewrite E].
      intros ?. eapply run_step_closed; [done|]. auto.
    + rewrite Hs in E1. apply singleton_split in E1 as (-> & [= -> ->] & ->).
      exists pc'. split; [done|]. by eapply serve_ok_step.
  - assert (forall r, serve_pcs (snd x) = [(0%nat, SRet r)] -> serve_pcs (snd y) = [(0%nat, SRet r)]) as Hkeep.
    { intros r E. destruct (run_step_serve_pcs _ _ H) as [[-> _]|(a & b & l & pc & pc' & new & E1 & _ & Hk)]; [done|].
      rewrite E in E1. apply singleton_split in E1 as (_ & [= -> ->] & _). inversion Hk. }
    destruct m; [done|..]; destruct Hm as (r & ? & ?); eauto.
  - done.
  - by eapply run_step_no_foreign.
Qed.

Lemma run_inv_start : run_inv run_start.
Proof.
  split; simpl; try done.
  - apply rtc_once, (step_call_serve (fst initial) []).
  - exists SBegin. split; [done|]. split; [by intros [?|?]|done].
  - by intros c pc ?%list_elem_of_singleton.
Qed.

Lemma run_inv_moves x y : run_moves x y -> run_inv x -> run_inv y.
Proof.
  intros H. destruct H as [x y d g m H|x g m|s ts m|s ts d m pc Hin He|s ts d g r e Hin He|x d err];
    [by apply run_inv_server|..]; intros [Hr Hc Hs Hm Hst Hown]; split; simpl in *; try done.
  - destruct g; [done|..]; naive_solver.
  - destruct m; [done|..]; destruct Hm as (r & ? & ?); exists r; (split; [done|]); destruct r; simpl in *; naive_solver.
  - unfold reachable in *. eapply rtc_r; [done|]. apply step_call_close.
  - split; [done|]. exists KBegin. unfold close_pcs in *. rewrite omap_app, (proj2 Hc). split; [done|].
    split; [done|]. intros _. apply Hc.
  - unfold serve_pcs in *. rewrite omap_app. simpl. by rewrite app_nil_r.
  - unfold serve_pcs in *. rewrite omap_app. simpl. by rewrite app_nil_r.
  - intros Hi. by apply Hst in Hi.
  - intros c pc [Hin|Hin%list_elem_of_singleton]%elem_of_app; [by eapply Hown|done].
  - destruct Hc as (Hd & pc' & Hc & Hok & _). split; [done|].
    apply close_pcs_elem in Hin. rewrite Hc in *. apply list_elem_of_singleton in Hin as ->.
    by destruct pc'.
  - destruct Hs as (pc & Hs & Hok). apply serve_pcs_elem in Hin. rewrite Hs in *.
    apply list_elem_of_singleton in Hin as [= <-]. exists r. split; [done|].
    unfold run_error. destruct r; simpl; [|exists e; by rewrite He].
    assert (closed s = true) as Hcl by (apply Hok; by right).
    destruct g; [destruct Hc; congruence|..]; destruct Hc as [-> _]; done.
Qed.

Lemma run_inv_reachable x : run_reachable x -> run_inv x.
Proof.
  intros H. assert (forall a b, rtc run_moves a b -> run_inv a -> run_inv b) as Hi
    by (induction 1; eauto using run_inv_moves).
  eapply Hi; [exact H|]. apply run_inv_start.
Qed.

(** * Safety *)

(** C26. The image is never closed under a client. In every interleaving of [Run],
    the goroutine that closes the server and the server's own goroutines: whenever
    [Run] has returned, and so the image is closed, the context is done, [Serve]
    and [Close] have returned, no session runs, no handler is past its handshake
    and no connection is open. *)
Theorem image_outlives_sessions x :
  run_reachable x -> image_closed x = true ->
  Forall quiet (snd (r_srv x)) /\ copen (fst (r_srv x)) = ∅ /\
  (exists r, TServe 0 (SRet r) ∈ snd (r_srv x)) /\ TClose KRet ∈ snd (r_srv x) /\
  r_done x = true.
Proof.
  intros [Hr Hc _ Hm Hst Hown]%run_inv_reachable Hi. rewrite (Hst Hi) in Hc. destruct Hc as [Hd Hc].
  unfold image_closed in Hi. destruct (r_main x) as [| |err]; try done. destruct Hm as (r & Hs & _).
  destruct (r_srv x) as [s ts]. simpl in *.
  assert (TClose KRet ∈ ts) as Hk by (apply close_pcs_elem; rewrite Hc; left).
  apply invariant_reachable in Hr as [_ _ Hok Ho _ Hq]. simpl in *. rewrite Forall_forall in Hok.
  split_and!; [auto| |exists r; apply serve_pcs_elem; rewrite Hs; left|done|done].
  apply elem_of_equiv_empty_L. intros c Hco.
  destruct (Ho c Hco) as (t & Hin & [[l ->]|[E|[pc ->]]]%owned_tracked); [| |by apply Hown in Hin].
  - apply serve_pcs_elem in Hin. rewrite Hs in Hin. by apply list_elem_of_singleton in Hin.
  - destruct (Hok _ Hk) as [(_ & _ & Hopen) _]. destruct (Hok _ Hin) as [_ Htr].
    destruct (Htr c E) as [_ Hcn]. by eapply not_elem_of_nil, Hopen; [apply Hcn|].
Qed.

(** Every interleaving in which [Run] returns is one of the scripts of [Demo.Run]. *)
Lemma interleaving_is_script `{!SSH} `{!KeyFormats} env o evs d x err :
  Build env o = (evs, Ok d) -> net_Listen env (o_Addr o) = None ->
  run_reachable x -> r_main x = MReturned err ->
  exists sc, script_ok sc /\
    Run env o sc = (evs ++ [EServed; EStopped; EClosedImage], Returns err).
Proof.
  intros Hb Hl [_ _ _ Hm _ _]%run_inv_reachable E. rewrite E in Hm. destruct Hm as (r & _ & He).
  unfold Run. rewrite Hb, Hl. destruct r; [destruct He as [-> Hd]|destruct He as (e & -> & He)].
  - by exists {| sc_serve := ErrServerClosed; sc_cancelled := true; sc_ever := true |}.
  - exists {| sc_serve := e; sc_cancelled := true; sc_ever := true |}.
    cbn [sc_serve sc_cancelled sc_ever]. by rewrite He.
Qed.

(** * Termination *)

(** The steps left to [Run] and to the goroutine that closes the server. *)
Definition run_left (x : run_state) : nat :=
  all_left (snd (r_srv x)) +
  match r_closer x with GWait => 2 | GClosing => 1 | GStopped => 0 end +
  match r_main x with MServe => 2 | MWait _ => 1 | MReturned _ => 0 end.

(** [Close] has closed the listener and the connections. *)
Definition run_closing (x : run_state) : Prop :=
  r_done x = true /\ r_closer x <> GWait /\ closing (r_srv x).

Lemma run_closing_moves x y :
  run_moves x y -> run_inv x -> run_closing x -> run_closing y /\ (run_left y < run_left x)%nat.
Proof.
  intros H I (Hd & Hg & Hc). unfold run_closing, run_left.
  destruct H as [x y d g m H| | | | |]; simpl in *; try done; try (split; [done|lia]).
  destruct (closing_run _ _ H (invariant_reachable _ (ri_reach _ I)) Hc). split; [done|lia].
Qed.

Lemma run_waiting_closing x :
  run_inv x -> TClose KWait ∈ snd (r_srv x) -> run_closing x.
Proof.
  intros [Hr Hc (pc & Hs & Hok) _ _ Hown] Hk.
  assert (r_closer x <> GWait /\ r_done x = true) as [Hg Hd].
  { pose proof (proj1 (close_pcs_elem _ _) Hk) as Hk'. destruct (r_closer x); [|naive_solver..].
    rewrite (proj2 Hc) in Hk'. by apply elem_of_nil in Hk'. }
  pose proof (inv_ok _ (invariant_reachable _ Hr)) as Ho. rewrite Forall_forall in Ho.
  destruct (Ho _ Hk) as [(H1 & H2 & H3) _]. split_and!; [done|done|]. split; [done..| |].
  2: { intros c pc' Hin. by apply Hown in Hin. }
  intros l pc' Hin Hst. apply serve_pcs_elem in Hin. rewrite Hs in Hin.
  apply list_elem_of_singleton in Hin as [= -> ->]. by apply Hok.
Qed.

(** A run that can go no further, once the context is done, has returned. *)
Lemma run_stuck_returned x :
  run_inv x -> r_done x = true -> (forall y, ~ run_moves x y) -> exists err, r_main x = MReturned err.
Proof.
  intros [Hr Hc (pc & Hs & _) Hm _ _] Hd Hn. destruct x as [[s ts] d g m]. simpl in *. subst d.
  assert (Forall (fun t => ended t = true) ts) as He.
  { apply (stuck_ended s); [by apply invariant_reachable|]. intros y Hy. eapply Hn. by constructor. }
  rewrite Forall_forall in He.
  assert (TServe 0 pc ∈ ts) as Hin by (apply serve_pcs_elem; rewrite Hs; left).
  destruct g.
  - destruct (Hn {| r_srv := (s, ts ++ [TClose KBegin]); r_done := true; r_closer := GClosing;
      r_main := m |}). constructor.
  - destruct Hc as (_ & kpc & Hc & _).
    assert (TClose kpc ∈ ts) as Hk by (apply close_pcs_elem; rewrite Hc; left).
    destruct (Hn {| r_srv := (s, ts); r_done := true; r_closer := GStopped; r_main := m |}).
    by apply (mv_stopped s ts true m kpc Hk), He.
  - destruct m as [|err|err]; [| |eauto].
    + pose proof (He _ Hin) as Hpc. destruct pc; try done.
      destruct (Hn {| r_srv := (s, ts); r_done := true; r_closer := GStopped;
        r_main := MWait (run_error r (External (errors_New [])) true) |}). by constructor.
    + destruct (Hn {| r_srv := (s, ts); r_done := true; r_closer := GStopped; r_main := MReturned err |}).
      constructor.
Qed.

(** Cancelling the context ends the program. Once [Close], called because the
    context is done, has closed the listener and the connections, every further
    run of [Run] and of all goroutines is finite; and a run that can go no
    further with the context done has returned, with the image closed and the
    error that [Demo.Run] computes for some script of the server. *)
Theorem cancelled_run_returns `{!SSH} `{!KeyFormats} env o evs d x :
  Build env o = (evs, Ok d) -> net_Listen env (o_Addr o) = None ->
  run_reachable x -> r_done x = true ->
  (TClose KWait ∈ snd (r_srv x) -> Acc (fun b a => run_moves a b) x) /\
  forall y, rtc run_moves x y -> (forall z, ~ run_moves y z) ->
    exists err sc, r_main y = MReturned err /\ script_ok sc /\
      Run env o sc = (evs ++ [EServed; EStopped; EClosedImage], Returns err).
Proof.
  intros Hb Hl Hr Hd. split.
  - intros Hk. assert (run_inv x) as I by by apply run_inv_reachable.
    assert (run_closing x) as Hc by by apply run_waiting_closing. clear Hk Hd Hr.
    remember (run_left x) as n eqn:En. revert x I Hc En. induction n as [n IH] using lt_wf_ind.
    intros x I Hc ->. constructor. intros y Hy.
    destruct (run_closing_moves _ _ Hy I Hc) as [Hc' Hlt].
    eapply IH; [exact Hlt|by eapply run_inv_moves|done|done].
  - intros y Hxy Hn.
    assert (run_reachable y) as Hy by (unfold run_reachable in *; etrans; [exact Hr|exact Hxy]).
    assert (r_done y = true) as Hdy.
    { clear -Hd Hxy. induction Hxy as [|x y z H _ IH]; [done|]. apply IH. by destruct H. }
    destruct (run_stuck_returned y (run_inv_reachable _ Hy) Hdy Hn) as [err E].
    destruct (interleaving_is_script env o evs d y err Hb Hl Hy E) as (sc & ? & ?). eauto.
Qed.

(** * A run

    The context is cancelled before [Serve] takes its listener. *)

Definition at_server (s : shared) (ts : list thread) (g : closer_pc) (m : main_pc) : run_state :=
  {| r_srv := (s, ts); r_done := true; r_closer := g; r_main := m |}.

Lemma server_moves x s s' a b t t' g m :
  rtc run_moves x (at_server s (a ++ t :: b) g m) -> thread_step s t s' t' [] ->
  rtc run_moves x (at_server s' (a ++ t' :: b) g m).
Proof.
  intros Hr H. eapply rtc_r; [exact Hr|]. unfold at_server. apply mv_server.
  rewrite <- (app_nil_r b) at 2. by constructor.
Qed.

Definition cancelled_shared : shared := set_closed (open_listener (fst initial)).

(** [Close] is waiting. *)
Definition cancelled_state : run_state :=
  at_server cancelled_shared [TServe 0 SBegin; TClose KWait] GClosing MServe.

Lemma cancelled_reachable : run_reachable cancelled_state.
Proof.
  unfold cancelled_state.
  eapply (server_moves _ _ _ [_] [] (TClose (KConns []))); [|by repeat constructor].
  eapply (server_moves _ _ _ [_] [] (TClose (KListener None []))); [|by repeat constructor].
  eapply (server_moves _ _ _ [_] [] (TClose KBegin)).
  - eapply rtc_l; [apply mv_cancel|]. apply rtc_once. apply mv_close.
  - apply step_close, (close_begin (open_listener (fst initial))); [done|]. by vm_compute.
Qed.

Definition returned_state : run_state :=
  at_server (close_listener 0 cancelled_shared) [TServe 0 (SRet ReturnsClosed); TClose KRet] GStopped
    (MReturned None).

Lemma returned_reachable : run_reachable returned_state.
Proof.
  unfold returned_state. eapply rtc_r; [|apply mv_return].
  eapply rtc_r; [|apply (mv_served _ _ true GStopped ReturnsClosed (External (errors_New [])));
    [left|done]].
  eapply rtc_r; [|apply (mv_stopped _ _ true MServe KRet); [right; left|done]].
  eapply (server_moves _ _ _ [] [_] (TServe 0 SReject)); [|by repeat constructor].
  eapply (server_moves _ _ _ [] [_] (TServe 0 SBegin)); [|by repeat constructor].
  eapply (server_moves _ _ _ [_] [] (TClose KWait)); [|by repeat constructor].
  exact cancelled_reachable.
Qed.

Lemma image_outlives_sessions_witness :
  image_closed returned_state = true /\ Forall quiet (snd (r_srv returned_state)).
Proof.
  split; [reflexivity|].
  exact (proj1 (image_outlives_sessions returned_state returned_reachable eq_refl)).
Defined.

Lemma cancelled_run_returns_witness : Acc (fun b a => run_moves a b) cancelled_state.
Proof.
  destruct (@Build letter_ssh letter_formats sample_env sample_options) as [evs [d|e|]] eqn:E;
    [|discriminate E..].
  apply (@cancelled_run_returns letter_ssh letter_formats sample_env sample_options evs d
    cancelled_state E eq_refl cancelled_reachable eq_refl).
  right; left.
Defined.
