(* ===== verification/DemoMain.v ===== *)
(** The entry point of the demonstration program: [src/fat32demo/main.go].

    [run] hands [demo.Main] a context that the first SIGINT or SIGTERM ends. The
    signals the process gets are a list, of which some have come by the time
    [Serve] returns; one that ends a Go process by default ends this one. The
    process is also modelled as a step relation: the goroutines of [DemoRun], with
    signals arriving at any time. *)

From S2P Require Import Prelude Errors Driver Server Sshd SshInstance SshdLaws SshdKeys Flag.
From S2P Require Import Demo DemoLaws Lifecycle LifecycleLaws DemoRun.

(** A signal: one of the two the program asks for, or another, which is left to what
    [os/signal] documents as its default: it ends the process (SIGHUP, SIGQUIT and
    the like), or nothing is done (SIGCHLD, SIGWINCH and the like). *)
Inductive os_signal := Interrupt | SIGTERM | FatalSignal (n : Z) | IgnoredSignal (n : Z).

(** Whether [signal.NotifyContext(ctx, os.Interrupt, syscall.SIGTERM)] is done after
    these signals. *)
Definition notified (sigs : list os_signal) : bool :=
  existsb (fun sig => match sig with Interrupt | SIGTERM => true | _ => false end) sigs.

(** Whether one of the signals ended the process. *)
Definition killed (sigs : list os_signal) : bool :=
  existsb (fun sig => match sig with FatalSignal _ => true | _ => false end) sigs.

(** The process while it serves: its goroutines, and the signals it has got. *)
Record process := { ps_run : run_state; ps_sigs : list os_signal }.

Definition process_start : process := {| ps_run := run_start; ps_sigs := [] |}.

(** A signal arrives, or a goroutine moves, the process not having been killed; the
    context is done only after a signal that ends it. *)
Inductive process_step : process -> process -> Prop :=
| process_signal x sigs sig :
    process_step {| ps_run := x; ps_sigs := sigs |} {| ps_run := x; ps_sigs := sigs ++ [sig] |}
| process_moves x y sigs :
    killed sigs = false -> run_moves x y -> (r_done y = true -> r_done x = true \/ notified sigs = true) ->
    process_step {| ps_run := x; ps_sigs := sigs |} {| ps_run := y; ps_sigs := sigs |}.

Lemma notified_app a b : notified a = true -> notified (a ++ b) = true.
Proof. unfold notified. rewrite existsb_app. by intros ->. Qed.

Lemma process_inv p :
  rtc process_step process_start p ->
  run_reachable (ps_run p) /\ (r_done (ps_run p) = true -> notified (ps_sigs p) = true).
Proof.
  assert (forall a b, rtc process_step a b ->
    (run_reachable (ps_run a) /\ (r_done (ps_run a) = true -> notified (ps_sigs a) = true)) ->
    (run_reachable (ps_run b) /\ (r_done (ps_run b) = true -> notified (ps_sigs b) = true))) as H.
  { induction 1 as [|a b c Hab _ IH]; [done|]. intros [Hr Hd]. apply IH. clear IH.
    destruct Hab as [x sigs sig|x y sigs _ Hm Hn]; simpl in *.
    - split; [done|]. intros ?. by apply notified_app, Hd.
    - split; [unfold run_reachable in *; by eapply rtc_r|]. intros [?|?]%Hn; auto. }
  intros Hp. eapply H; [exact Hp|]. split; [apply rtc_refl|done].
Qed.

(** What becomes of a process: it exits with a code of its own, is killed, or does
    neither, because it goes on running or ends in a panic. *)
Inductive fate := Exits (code : Z) | Killed | NoExit.

Section main.
Context `{!SSH} `{!KeyFormats}.

(** [main]: what [os.Exit] is called with, if it is. [sigs] are the signals the
    process gets while it runs, [serve] is what [Serve] returned, after [seen] of
    them. *)
Definition run (env : Env) (args : list bytes) (sigs : list os_signal) (seen : nat) (serve : sshd_error)
  : fate :=
  if killed sigs then Killed
  else match Main env args {| sc_serve := serve; sc_cancelled := notified (take seen sigs);
                              sc_ever := notified sigs |} with
       | Some code => Exits code
       | None => NoExit
       end.

Lemma notified_take seen sigs : notified (take seen sigs) = true -> notified sigs = true.
Proof.
  unfold notified. rewrite !existsb_exists. intros (x & Hin & Hx). exists x. split; [|done].
  apply list_elem_of_In. apply list_elem_of_In in Hin. by eapply elem_of_take in Hin as (i & Hi & _);
    eapply list_elem_of_lookup_2.
Qed.

(** The program serves: its command line, the image, the keys and the address are
    all right. *)
Definition serving (env : Env) (args : list bytes) : Prop :=
  exists o d evs, ParseArgs args = (o, None) /\ Build env o = (evs, Ok d) /\
    net_Listen env (o_Addr o) = None.

Lemma Build_not_closed env o evs : Build env o <> (evs, Err (DSshd ErrServerClosed)).
Proof.
  assert (forall e, hostKeys env o <> Err (DSshd e)) as Hh.
  { intros e. unfold hostKeys. by repeat case_match. }
  unfold Build. intros E.
  repeat match type of E with
  | (match ?x with _ => _ end) = _ => destruct x eqn:?; try done
  | (let _ := ?x in _) = _ => cbv zeta in E
  end; injection E as _ ->; [|by eapply Hh].
  match goal with K : sshd_New _ _ = Err _ |- _ => apply sshd_New_err in K end. naive_solver.
Qed.

Lemma serving_dec env args o : ParseArgs args = (o, None) -> serving env args \/ ~ serving env args.
Proof.
  intros Ep. destruct (Build env o) as [evs [d|e|]] eqn:Eb, (net_Listen env (o_Addr o)) eqn:El;
    try (by left; exists o, d, evs).
  all: right; intros (o' & d' & evs' & Ep' & Eb' & El'); congruence.
Qed.

(** Building the server panics. *)
Definition build_panics (env : Env) (args : list bytes) : Prop :=
  exists o evs, ParseArgs args = (o, None) /\ Build env o = (evs, Panic).

(** The exit code, case by case. *)
Lemma run_refused env args sigs seen serve o e :
  killed sigs = false -> ParseArgs args = (o, Some e) ->
  (e = DFlag ErrHelp /\ run env args sigs seen serve = Exits 0) \/
  (e <> DFlag ErrHelp /\ run env args sigs seen serve = Exits 2).
Proof.
  intros Hk Ep. unfold run, Main. rewrite Hk, Ep. destruct e as [[]| | | | | |]; auto; by right.
Qed.

Lemma run_not_serving env args sigs seen serve o :
  killed sigs = false -> ParseArgs args = (o, None) -> ~ serving env args ->
  (~ build_panics env args /\ run env args sigs seen serve = Exits 1) \/
  (build_panics env args /\ run env args sigs seen serve = NoExit).
Proof.
  intros Hk Ep Hn. unfold run, Main, Run. rewrite Hk, Ep.
  assert (forall evs x, Build env o = (evs, x) -> x <> Panic -> ~ build_panics env args) as Hb.
  { intros evs x E Hx (o' & evs' & E1 & E2). congruence. }
  destruct (Build env o) as [evs [d|e|]] eqn:Eb.
  - left. split; [by eapply Hb|]. destruct (net_Listen env (o_Addr o)) eqn:El; [done|].
    destruct Hn. by exists o, d, evs.
  - left. split; [by eapply Hb|]. cbn [snd]. pose proof (Build_not_closed env o evs).
    destruct e as [| | | | |[]|]; congruence.
  - right. split; [|done]. by exists o, evs.
Qed.

Lemma run_serving env args sigs seen serve :
  killed sigs = false -> serving env args ->
  (serve = ErrServerClosed -> notified (take seen sigs) = true) ->
  run env args sigs seen serve =
    if notified sigs then Exits (if is_closed serve then 0 else 1) else NoExit.
Proof.
  intros Hk (o & d & evs & Ep & Eb & El) Hs. unfold run, Main, Run. rewrite Hk, Ep, Eb, El.
  cbn [sc_serve sc_cancelled sc_ever]. destruct (notified sigs); [|done].
  destruct serve; try done. by rewrite Hs.
Qed.

Lemma serving_no_panic env args : serving env args -> ~ build_panics env args.
Proof. intros (o & d & evs & E1 & E2 & _) (o' & evs' & E1' & E2'). congruence. Qed.

(** C29. What the exit status means. When no signal killed the process and [Serve]
    reports a closed server only after SIGINT or SIGTERM came: the program exits
    with 0 exactly when it was asked for help, or it served and such a signal
    stopped it; with 2 exactly when its command line was refused; with 1 exactly
    when its command line was accepted and it could not start to serve, or it
    served, a signal came and [Serve] had failed for another reason. It never
    exits by itself exactly when it serves and no such signal comes, or when
    building the server panicked. A process that is killed has none of these
    codes. *)
Theorem exit_status env args sigs seen serve :
  (serve = ErrServerClosed -> notified (take seen sigs) = true) ->
  (killed sigs = false ->
   (run env args sigs seen serve = Exits 0 <->
      snd (ParseArgs args) = Some (DFlag ErrHelp) \/
      serving env args /\ notified sigs = true /\ serve = ErrServerClosed) /\
   (run env args sigs seen serve = Exits 2 <->
      exists e, snd (ParseArgs args) = Some e /\ e <> DFlag ErrHelp) /\
   (run env args sigs seen serve = Exits 1 <->
      snd (ParseArgs args) = None /\
      (~ serving env args /\ ~ build_panics env args \/
       serving env args /\ notified sigs = true /\ serve <> ErrServerClosed)) /\
   (run env args sigs seen serve = NoExit <->
      serving env args /\ notified sigs = false \/ build_panics env args)) /\
  (killed sigs = true -> run env args sigs seen serve = Killed).
Proof.
  intros Hs. split; [|by unfold run; intros ->]. intros Hk.
  destruct (ParseArgs args) as [o [e|]] eqn:Ep; cbn [snd].
  { assert (~ serving env args) as Hn by (intros (o' & ? & ? & E & _); congruence).
    assert (~ build_panics env args) as Hb by (intros (o' & ? & E & _); congruence).
    destruct (run_refused env args sigs seen serve o e Hk Ep) as [[-> ->]|[He ->]]; naive_solver. }
  destruct (serving_dec env args o Ep) as [Hserv|Hn].
  - rewrite (run_serving env args sigs seen serve Hk Hserv Hs).
    pose proof (serving_no_panic env args Hserv) as Hb.
    destruct (notified sigs), serve; simpl; naive_solver.
  - destruct (run_not_serving env args sigs seen serve o Hk Ep Hn) as [[Hb ->]|[Hb ->]]; naive_solver.
Qed.

(** * The process *)

(** What [Main] exits with after [Run]. *)
Definition exit_code (err : option demo_error) : Z :=
  match err with
  | None | Some (DSshd ErrServerClosed) => 0
  | Some _ => 1
  end.

End main.

(** The program is started on an image and interrupted. *)
Lemma exit_status_witness :
  @run letter_ssh letter_formats sample_env
    [str "-image"; str "disk"; str "-authorized-keys"; str "ak"] [IgnoredSignal 28; Interrupt] 2
    ErrServerClosed = Exits 0.
Proof.
  destruct (@exit_status letter_ssh letter_formats sample_env
    [str "-image"; str "disk"; str "-authorized-keys"; str "ak"] [IgnoredSignal 28; Interrupt] 2
    ErrServerClosed (fun _ => eq_refl)) as [H _].
  destruct (H eq_refl) as [H0 _]. apply H0.
  right. split; [|split; reflexivity].
  destruct (@Build letter_ssh letter_formats sample_env sample_options) as [evs [d|e|]] eqn:E;
    [|discriminate E..].
  exists sample_options, d, evs. split; [vm_compute; reflexivity|]. split; [exact E|reflexivity].
Defined.

