(* ===== verification/Guarantees.v ===== *)
(** What holds of a whole session whatever the client sends: [Serve] of
    [src/server.go] over any stream of bytes, and the demonstration program built
    on it ([src/fat32demo/demo/demo.go]).

    The per-request laws of [SessionLaws] are lifted through the request loop and
    [closeAll] by induction on the loop, with the program logic of [Driver]. *)

From S2P Require Import Prelude Codec Const Attrs Messages WireLaws Packet Errors Path Driver.
From S2P Require Import Server Handle Attr Ops CopyData Session OpsLaws SessionLaws StreamLaws.
From S2P Require Import MemDriver Sshd SshInstance SshdLaws SshdConn SshdKeys Demo DemoLaws.

(** The calls of a SETSTAT, the one request whose path is not cleaned. *)
Definition setstat_call (c : call) : bool :=
  match c with Truncate _ _ | Chmod _ _ | Chown _ _ _ | Chtimes _ _ _ => true | _ => false end.

(** What a session may ask of the driver. *)
Definition allowed (srv : Server) (c : call) : Prop :=
  (ro srv = true -> call_ro c = true) /\ (call_clean c \/ setstat_call c = true).

Lemma good_allowed srv c : good srv c -> allowed srv c.
Proof. intros [? ?]. split; auto. Qed.

Section session.
Context {UT : UnicodeTables} (srv : Server).

Lemma opSetstat_allowed id path a :
  wp anything (allowed srv) (opSetstat srv id path a) (fun r => reply_id r = id).
Proof.
  unfold opSetstat, setstat_metadata. destruct (ro srv) eqn:E; [done|].
  assert (forall c, setstat_call c = true -> allowed srv c) as Hs
    by (intros c ?; split; [congruence|auto]).
  apply wp_with_lock; [by apply good_allowed..|]. wp_auto; try done; by apply Hs.
Qed.

Lemma handle_request_allowed t typ payload :
  table_wf t -> table_ro srv t ->
  wp anything (allowed srv) (handle_request srv t typ payload) (handled srv (requestID payload)).
Proof.
  intros Ht Hr. destruct (decide (typ = FxpSetstat)) as [->|Hn].
  - change (wp anything (allowed srv) (dispatch srv t FxpSetstat payload)
              (handled srv (requestID payload))).
    unfold dispatch. cbn -[DecodeSetstat requestID].
    apply (branch_spec srv _ DecodeSetstat ss_wf ss_ID); [done|done|intros m].
    by apply keep_spec, opSetstat_allowed.
  - eapply wp_calls; [|by apply handle_request_spec]. apply good_allowed.
Qed.

(** The loop keeps the table's invariant and makes only calls that are allowed,
    on any bytes. *)
Lemma loop_allowed fuel r cap t :
  table_wf t -> table_ro srv t ->
  wp anything (allowed srv) (loop srv fuel r cap t)
    (fun x => table_wf (fst (fst x)) /\ table_ro srv (fst (fst x))).
Proof.
  revert r cap t. induction fuel as [|fuel IH]; intros r cap t Ht Hr; cbn [loop].
  { destruct (avail r); by apply wp_ret. }
  destruct (avail r); [by apply wp_ret|].
  destruct (rp_out _) as [[typ payload]|e|]; [|by apply wp_ret..].
  apply wp_bind. eapply wp_mono; [by apply handle_request_allowed|].
  intros [t' reply] (_ & Ht' & Hr'); cbn [fst snd] in *.
  destruct (frame reply); [|by apply wp_ret..].
  apply wp_bind. eapply wp_mono; [by apply IH|]. by intros [[t'' outs] err].
Qed.

Lemma closeAll_allowed order t first :
  wp anything (allowed srv) (closeAll order t first) (fun _ => True).
Proof.
  revert t first. induction order as [|[tok h] order IH]; intros t first; [done|].
  cbn [closeAll]. apply wp_bind. destruct (of_file h) as [f|]; [|apply IH].
  apply wp_bind, wp_do; [split; [done|by left]|]. intros x _. apply wp_ret, IH.
Qed.

(** Negotiation, the loop and the release of the handles, one after the other. *)
Lemma Serve_allowed NewConn r order :
  wp anything (allowed srv) (Serve srv NewConn r order) (fun _ => True).
Proof.
  unfold Serve. destruct (NewConn _); [done|].
  destruct (negotiate _ _ r []) as [[r' w] [e|]].
  - apply wp_bind. eapply wp_mono; [apply closeAll_allowed|]. done.
  - apply wp_bind. eapply wp_mono.
    { apply loop_allowed; [apply newHandles_wf|apply newHandles_ro]. }
    intros [[t outs] err] _. apply wp_bind. eapply wp_mono; [apply closeAll_allowed|]. done.
Qed.

Context {S : Type} `{!Driver S}.

Lemma Serve_leaves_nothing NewConn r order s :
  (forall t, order t ≡ₚ map_to_list t) ->
  fst (fst (snd (exec (Serve srv NewConn r order) s))) = ∅.
Proof.
  intros Ho. unfold Serve. destruct (NewConn _); [done|].
  assert (forall t s, fst (snd (exec (closeAll (order t) t None) s)) = ∅) as Hc
    by (intros; by apply closeAll_empties).
  destruct (negotiate _ _ r []) as [[r' w] [e|]]; rewrite exec_bind.
  - specialize (Hc newHandles s). by destruct (exec _ s) as [s1 [t1 e1]].
  - destruct (exec _ s) as [s1 [[t outs] err]]. rewrite exec_bind.
    specialize (Hc t s1). by destruct (exec _ s1) as [s2 [t2 e2]].
Qed.

(** C3. No stream of bytes leads a session out of bounds. Whatever a client sends
    (packets in any order, malformed, cut, or no SFTP at all), over every driver
    and whatever the connection pool answers: on a read-only export no call the
    server makes can change the filesystem; every path it hands to the driver is
    inside the export, those of the four SETSTAT calls apart; and no handle is
    left open at the end. *)
Theorem Serve_any_stream_safe NewConn r order s :
  (ro srv = true -> Forall (fun c => call_ro c = true) (trace (Serve srv NewConn r order) s)) /\
  Forall (fun c => call_clean c \/ setstat_call c = true) (trace (Serve srv NewConn r order) s) /\
  ((forall t, order t ≡ₚ map_to_list t) ->
   fst (fst (snd (exec (Serve srv NewConn r order) s))) = ∅).
Proof.
  destruct (wp_adequate anything _ _ _ s (Serve_allowed NewConn r order)) as [H _].
  split_and!; [| |apply Serve_leaves_nothing].
  - intros Hro. eapply Forall_impl; [exact H|]. intros c [Hc _]. by apply Hc.
  - eapply Forall_impl; [exact H|]. by intros c [_ Hc].
Qed.
End session.

(** INIT, a REMOVE of the only file and a cut packet, sent to a read-only export. *)
Definition hostile_stream : bytes :=
  frame_bytes FxpInit (payload_of {| init_Version := 3; init_Extensions := [] |}) ++
  frame_bytes FxpOpen open_a ++ frame_bytes FxpRemove remove_a ++ [x00; x00].

Lemma Serve_any_stream_safe_witness :
  let p := Serve (UT:=ascii_tables) (demo_server true true) (fun _ => None)
             {| avail := hostile_stream; fin := EOF |} map_to_list in
  length (trace p demo_mem) = 6%nat /\
  Forall (fun c => call_ro c = true) (trace p demo_mem) /\
  fst (fst (snd (exec p demo_mem))) = ∅.
Proof.
  intros p.
  destruct (Serve_any_stream_safe (UT:=ascii_tables) (demo_server true true) (fun _ => None)
    {| avail := hostile_stream; fin := EOF |} map_to_list demo_mem) as (H1 & _ & H3).
  split; [vm_compute; reflexivity|]. split; [exact (H1 eq_refl)|].
  apply H3. intros t. reflexivity.
Defined.

(** * The program, from its command line to the driver *)

Section program.
Context `{!SSH} `{!KeyFormats} {Laws : SSHLaws}.
Context (Unmarshal : bytes -> option bytes) (MarshalExit : exitStatusMsg -> bytes).

Lemma session_serves_view {T : Type} (v : option T) panics reqs s :
  EServe s ∈ handleSession Unmarshal MarshalExit v panics reqs -> v = Some s.
Proof.
  unfold handleSession. rewrite elem_of_app, list_elem_of_singleton. intros [Hs|?]; [|done].
  induction reqs as [|req reqs IH]; cbn [session_loop] in Hs; [by apply elem_of_nil in Hs|].
  assert (forall ok, EServe s ∉ (if req_WantReply req then [EReply req ok] else [])) as Hr.
  { intros ok. destruct (req_WantReply req); [by intros ?%list_elem_of_singleton|by intros ?%elem_of_nil]. }
  repeat case_bool_decide; cbn [negb] in Hs; apply elem_of_app in Hs as [Hs|Hs];
    try (by destruct (Hr _ Hs)); try (by apply IH).
  destruct v as [s'|]; [|by apply elem_of_nil in Hs].
  apply elem_of_cons in Hs as [[= ->]|Hs]; [done|]. destruct panics; [by apply elem_of_nil in Hs|].
  by apply list_elem_of_singleton in Hs.
Qed.

(** What a session channel serves is the view of its connection. *)
Lemma served_is_view {T : Type} (d : sshd_Server (SftpServer:=T)) conn evs err nc session s :
  HandleConn Unmarshal MarshalExit d (Ok conn) = (evs, err) ->
  ESession nc session ∈ evs -> EServe s ∈ session ->
  viewOf d (conn_User conn) (conn_Permissions conn) = Ok (Some s).
Proof.
  unfold HandleConn. destruct (viewOf d _ _) as [v|e|];
    [|by intros [= <- <-] ?%list_elem_of_singleton..].
  destruct (chans_loop _ _ v (conn_chans conn)) as [evs' err'] eqn:E. intros [= <- <-] Hin Hs.
  apply chans_loop_spec in E as [Hf _]. rewrite Forall_forall in Hf.
  rewrite elem_of_cons, elem_of_app, list_elem_of_singleton in Hin.
  destruct Hin as [?|[(Ht & reqs & Hr & ->)%Hf|?]]; [done| |done].
  by apply session_serves_view in Hs as ->.
Qed.

(** A login to a server with the program's configuration is by a listed key. *)
Lemma demo_login_listed srv hk keys d user h h' l :
  sshd_New srv (demo_config hk keys) = Ok d -> authenticated d user h h' l ->
  exists cb key k, PublicKeyCallback (d_cfg d) = Some cb /\ cb user key h = (h', Ok l) /\
    k ∈ keys /\ Marshal k = Marshal key.
Proof.
  intros (_ & _ & _ & Hk & Hp)%sshd_New_ok [cb key Hcb E|cb password Hcb E]; [|by rewrite Hp in Hcb].
  rewrite Hk in Hcb. destruct (_ || _); [|done]. injection Hcb as <-.
  assert (admits (demo_config hk keys) user key h) as (k & Hin & Hm)%demo_config_admits.
  { rewrite <- publicKeyCallback_policy by done. eauto. }
  exists (publicKeyCallback (demo_config hk keys)), key, k. by split_and!.
Qed.

(** C25. The program end to end. Started without -rw on its command line, whoever reaches its SFTP server
    over SSH logged in with a key that is, byte for byte, one the authorized_keys
    file lists, and whatever bytes they then send, no call the server makes on
    the image can change it. *)
Theorem demo_image_unmodified args o env evs d conn h h' cevs err nc session srv :
  Forall (fun a => names_rw a = false) args -> ParseArgs args = (o, None) ->
  Build env o = (evs, Ok d) ->
  authenticated d (conn_User conn) h h' (conn_Permissions conn) ->
  HandleConn Unmarshal MarshalExit d (Ok conn) = (cevs, err) ->
  ESession nc session ∈ cevs -> EServe srv ∈ session ->
  (exists cb key ak keys k,
     PublicKeyCallback (d_cfg d) = Some cb /\
     cb (conn_User conn) key h = (h', Ok (conn_Permissions conn)) /\
     os_ReadFile env (o_AuthorizedKeys o) = inl ak /\ ParseAuthorizedKeys ak = Ok keys /\
     k ∈ keys /\ Marshal k = Marshal key) /\
  forall (UT : UnicodeTables) (S : Type) (D : Driver S) NewConn r order (s : S),
    Forall (fun c => call_ro c = true) (trace (Serve srv NewConn r order) s).
Proof.
  intros Hrw%ParseArgs_read_only Ho. rewrite Ho in Hrw. cbn [fst] in Hrw.
  intros (srv' & ak & keys & hk & Hro & Hak & Hks & En)%Build_ok Ha Hc Hin Hs. split.
  - destruct (demo_login_listed _ _ _ _ _ _ _ _ En Ha) as (cb & key & k & ? & ? & ? & ?).
    by exists cb, key, ak, keys, k.
  - intros UT S D NewConn r order s.
    pose proof (served_is_view _ _ _ _ _ _ _ Hc Hin Hs) as Hv.
    apply sshd_New_ok in En as (H1 & H2 & H3 & _). unfold viewOf in Hv.
    rewrite H1, H2, H3 in Hv. cbn [ServerForLogin ServerFor demo_config] in Hv. injection Hv as ->.
    destruct (wp_adequate anything _ _ _ s (Serve_allowed srv NewConn r order)) as [Hf _].
    eapply Forall_impl; [exact Hf|]. intros c [Hcr _]. apply Hcr. by rewrite Hro, Hrw.
Qed.
End program.

(** ** A login and a session *)

Definition sample_args : list bytes := [str "-image"; str "disk"; str "--authorized-keys=ak"].

Definition letter_conn : ServerConn :=
  {| conn_User := str "anyone"; conn_Permissions := 0; conn_chans := [sample_session] |}.

Definition letter_server : Server :=
  {| fsys := {| is_Truncater := true; is_MetadataSetter := false; is_Symlinker := false;
                is_Opener := true |};
     opener := true; ro := true; maxPacket := 0; start := 0; maxInFlight := 0;
     maxTotal := DefaultMaxInFlightTotal; packetWait := 0; pathConcurrent := false |}.

Lemma demo_image_unmodified_witness :
  Forall (fun c => call_ro c = true)
    (trace (Serve (UT:=ascii_tables) letter_server (fun _ => None) {| avail := hostile_stream; fin := EOF |}
       map_to_list) demo_mem).
Proof.
  set (cb := @publicKeyCallback letter_ssh Server (@demo_config letter_ssh [tt] [true])).
  set (d := {| d_sftp := Some letter_server; d_serverFor := None; d_serverForLogin := None;
               d_cfg := {| PublicKeyCallback := Some cb; PasswordCallback := None;
                           BannerCallback := None; sc_hostKeys := [tt] |} |}
            : @sshd_Server letter_ssh Server).
  destruct (@demo_image_unmodified letter_ssh letter_formats letter_ssh_laws toy_unmarshal sample_exit
    sample_args sample_options sample_env [EOpened] d letter_conn ∅ (fst (grant_empty ∅))
    (fst (HandleConn toy_unmarshal sample_exit d (Ok letter_conn))) None sample_session
    (handleSession toy_unmarshal sample_exit (Some letter_server) false
       (match nc_Accept sample_session with Ok l => l | _ => [] end)) letter_server) as [_ H].
  - repeat (apply Forall_cons; split; [reflexivity|]). by apply Forall_nil.
  - vm_compute. reflexivity.
  - reflexivity.
  - apply (@auth_by_key letter_ssh Server d _ _ _ _ cb true); [reflexivity|]. vm_compute. reflexivity.
  - reflexivity.
  - apply list_elem_of_further, list_elem_of_here.
  - apply list_elem_of_further, list_elem_of_further, list_elem_of_here.
  - apply H.
Defined.
